(* ===== verification/_CoqProject ===== *)
-Q . S2P
Prelude.v
Bytes.v
Fs.v
Frame.v
LogRecord.v
Segment.v
Log.v
LogSpec.v
Swap.v
SwapSpec.v
Store.v
StoreSpec.v
StoreProps.v
CompactSpec.v
Rooted.v
Pending.v
CompactProps.v
Stranded.v
Limits.v
Cli.v
CliProps.v
Txn.v
TxnSpec.v
Page.v
PageSpec.v
PageRun.v
PageStore.v
LogClient.v
PageStoreSpec.v
HeapPageStore.v
HeapPageStoreSpec.v
Buffer.v
BufferSpec.v
KeyOrder.v
BTree.v
BTreeNode.v
PoolNodes.v
BTreeSpec.v
BTreeReads.v
BTreeInsert.v
BTreeDelete.v
BTreeProps.v
BTreeOpen.v
TreeCapacity.v
TreeTheorems.v
Confined.v
IndexedStore.v
IndexedSpec.v
IndexedFrame.v
IndexedProps.v
IndexedOpen.v
IndexedNew.v
IndexedSession.v
IndexedTheorems.v
StoresAgree.v
IndexedSafety.v
Oversized.v
Confinement.v
DecimalKeys.v
TestKit.v
KeyLists.v
TestRules.v
TestsLog.v
TestsStore.v
TestsTxn.v
TestsPages.v
TestsTree.v
StoreSession.v
TreeSession.v
TreeClients.v
TestsIndexed.v
TestsCrash.v
PropertyKit.v
PropertyStore.v
PropertyTxn.v
PropertyIndexed.v
PropertyTree.v
PropertyPages.v
Conformance.v
