(* ===== verification/Prelude.v ===== *)
(** * The SIETCH vault: a verification library

    A model of the storage engine of the vault, the crate [crates/storage], and of its command
    line [crates/cli], in Rocq, with the theorems that make them correct. Paths are relative to
    [src/crates/storage/src/] unless they say otherwise.

    ** The program

    Everything durable goes through an append-only log of checksummed records, split into segment
    files ([record.rs], [segment.rs], [log.rs]). [store.rs] keeps the log and an in-memory index of
    all versions of every key: a key-value store with snapshots, batches, recovery at [open], and
    compaction, which builds a second log and swaps it in by renames. [txn.rs] adds transactions
    with snapshot isolation on a shared store. Independently, [page.rs] defines slotted pages,
    [page_store.rs] and [heap_page_store.rs] three backends that keep pages (in memory, in a store,
    in a heap file with a location log), [buffer.rs] a buffer pool over any of them, and [btree.rs]
    a B+tree on the pool. [indexed_store.rs] joins both halves: a durability log, and a B+tree over
    the heap file as its index, brought up to date from the log at [open]. [cli/src/main.rs] opens a
    store for each invocation and executes one command.

    ** Effects, faults and crashes (Fs)

    A function of the source that has [&mut self], does I/O, returns a [Result] or may panic is a
    computation [M S E A]: from a state [S] and a world to [Ok a], [Err e], [Panic] or [Crash], with
    the state and the world it leaves. [zoom], [io], [map_err], [on] and [catch] say on which part
    of the state a call works and how its error is converted. The world is a file system (finite
    maps from directories to files; every file has its bytes and how many of them an [fsync] has
    made durable) and a plan of faults: each primitive ([create_dir_all], [open], [write_all],
    [set_len], [seek], [sync_data], [rename], [remove_dir_all], ...) consumes one entry, and may be
    told to fail or to crash the process after a part of its effect. [crash_fs] is the file system
    after a loss of power: any part of the unsynced bytes of each file is gone. Metadata operations
    are taken to be durable in order.

    [wpc F m s fs Q X C] is the total specification of a computation under the faults that the model
    [F] admits ([no_faults], [crashes_only], [any_fault]): it never panics, and ends with [Q], fails
    with [X], or crashes with [C]. [wpc_step] applies the rule for the head of a computation.

    Machine integers are [Z] with the wrap-around of a release build written out ([u16], [u32],
    [u64], [u64_add]); bytes are the bytes of the Standard Library; [HashMap] and [BTreeMap] are
    [gmap] with the ordered iteration [bt_iter]. CRC-32 (crc32fast) is the parameter [Crc32], the
    order of directory listings the parameter [DirOrder].

    ** Files

    - Prelude, Bytes: integers, lists, byte strings, their order, little- and big-endian codecs,
      decimal numbers.
    - Fs: the monad, the file system, faults, [wpc] and its rules. Frame: [keeps I P R m], what a
      computation preserves on every outcome and under every fault, with the rules of the monad.
    - LogRecord ([record.rs]): [encode] and [decode].
    - Segment ([segment.rs]): [recover_bytes], [open_for_append], [seg_append_batch].
    - Log ([log.rs]) and LogSpec: segment names, [log_open], [log_append_batch], roll-over;
      [log_disk] and [log_holds] relate files and open logs to a history of records, and
      [log_recoverable] is what a crash leaves. LogClient: a log among other directories.
    - Swap (the free functions of [store.rs]) and SwapSpec: the commit protocol of compaction.
    - Store ([store.rs]), StoreSpec, StoreProps: [kv_of hist] is the map that a history denotes;
      [mem_inv] and [store_inv] relate an open store to it, [store_disk] a directory.
    - CompactSpec, Rooted, Pending, CompactProps: what compaction keeps, the well-formedness of the
      file system, restarts after a committed compaction, and compaction from start to end.
    - Stranded: stores whose compaction failed behind its commit point ([stranded]), and the writes
      they take. Limits: executions, evaluated, in which a promise of the code fails.
    - Cli ([cli/src/main.rs]) and CliProps: [main], and runs of invocations with crashes.
    - Txn ([txn.rs]) and TxnSpec: transactions, and interleaved transactions as a step relation.
    - Page ([page.rs]), PageSpec and PageRun: the slotted page on bytes; [page_rep] relates it to a
      list of records, [holds_table] to an abstract table that answers the same calls.
    - PageStore ([page_store.rs]) and PageStoreSpec: [trait PageStore] as the class [PageStore], its
      contract as the class [PageStoreLaws], which the first two backends discharge.
    - HeapPageStore ([heap_page_store.rs]) and HeapPageStoreSpec: the third backend; [heap_view]
      and [heap_disk] relate its files to a map of pages, [heap_laws] discharges the contract.
    - Buffer ([buffer.rs]) and BufferSpec: the pool over any backend; [pool_inv].
    - BTree ([btree.rs]): all operations. KeyOrder, BTreeNode, PoolNodes, BTreeSpec: the order of
      keys, nodes as pages, the pool as a memory of nodes, ordered trees of nodes. BTreeReads,
      BTreeInsert, BTreeDelete, BTreeOpen: the operations on such trees. TreeCapacity: how many
      entries a height has room for. BTreeProps, TreeTheorems: [btree_state] relates a pool to a
      finite map, and the operations refine that map over any lawful backend.
    - IndexedStore ([indexed_store.rs]); IndexedSpec, IndexedProps, IndexedOpen, IndexedNew, IndexedSession,
      IndexedTheorems: [index_image] is what the tree holds for a history, [indexed_inv] relates an
      open store to a history, [indexed_disk] a directory whose log may be ahead of its index,
      [new_place] one where nothing is yet.
    - Confined, IndexedFrame: the operations of logs, backends, pool, tree and indexed store as
      instances of [keeps]: below a directory. IndexedSafety: sessions over a failing index;
      Confinement: whole programs. StoresAgree: [Store] against [IndexedStore]. Oversized: records
      that the index refuses ([never_ok], [not_ok]: computations that return no result).
    - TestKit, TestsLog, TestsStore, TestsTxn, TestsPages, TestsTree, TestsIndexed: the unit tests of
      the modules ([#[cfg(test)]]) as programs of the model, under the names of the test functions;
      TestsCrash: crash tests of [tests/].
      DecimalKeys, KeyLists, TestRules, StoreSession, TreeSession, TreeClients: numbers as keys, the
      rules of [wpc] for tests and their loops, sessions of calls of a store and of a tree, and the
      tests of the tree verified with them.
    - PropertyKit, PropertyStore, PropertyTxn, PropertyTree, PropertyPages, PropertyIndexed: the property-based tests of
      [tests/], with the values they draw as arguments, and that they pass. Conformance: all tests.

    A definition has the name of its source function, with a prefix where two components use the
    same name ([store_put], [indexed_put], [hps_write_page], [tree_insert], [page_insert]).

    ** What the theorems show

    - End to end (CliProps): every run of invocations of the command line, with the machine going
      down at any moments, is a run of an abstract machine whose state is a map: answers are right,
      acknowledged writes are never lost, an interrupted write happens entirely or not at all, and
      no invocation fails or panics.
    - The log (LogSpec, LogRecord, Segment): acknowledged batches survive, an interrupted one leaves
      a prefix, [open] recovers exactly the durable history, damage of a byte is detected.
    - The store (StoreProps, CompactProps): reads, writes, snapshots and [open] refine finite maps;
      compaction keeps every read, and restarts finish what a crash interrupted: for a log of one
      segment wherever the crash comes ([swap_pending] is closed under crashes), for more segments
      unless it comes between the renames of the first step of the swap ([unfinished] covers those
      directories too, [no_old_segment] and [not_begun] say when [open] finishes them).
    - Transactions (TxnSpec): isolation, no lost updates, every outcome of [commit], retention of
      what open transactions read.
    - Pages, backends, pool (PageRun, PageStoreSpec, HeapPageStoreSpec, BufferSpec): a page is a table
      of records; a page write to the heap file is atomic and durable; the pool is a transparent
      cache.
    - The tree (TreeTheorems): lookup, scans, insertion with splits, deletion, flush and reopen
      refine a finite map; descents end, and the depth is enough for the entries.
    - The indexed store (IndexedTheorems, StoresAgree): reads and runs of writes refine the map of
      the log, and so agree with [Store]; the sentinel follows within [checkpoint_interval] writes;
      [open] applies exactly the records the sentinel does not cover; after a checkpoint nothing is
      left to apply, whatever crash follows.
    - Under every fault (IndexedSafety, Confinement): no failure of the index, no panic and no crash
      takes a record from the durability log; no program touches a file outside of its directory.
    - Conformance: the unit tests and the property-based tests of the repository pass on the model.
      The unit tests of the tree, with up to 20000 keys, and the property-based tests, for every input
      that their strategies can draw, are proved from the theorems about the components, so that these
      are shown to be enough for a client; the other tests are evaluated.
    - Where the promises end. Stranded: every write behind a failed compaction is acknowledged and
      lost. Oversized: a record that fits no page is refused by the index, stays in the log and
      blocks [open]. LogRecord: what the 32-bit length fields make of an oversized record. Limits, and
      the last theorems of TreeTheorems and Oversized: executions of the model in which acknowledged
      data is lost, a deleted value comes back, or [open] fails or panics for good.

    ** Bounds and fuel

    Loops over bytes ([recover_loop], [lossy_loop]) have the length as fuel, which their lemmas show
    to be enough; [clock_loop] has two rounds of the frames, and BufferSpec shows that it finds a
    frame whenever one is unpinned. The recursions of the tree take fuel and panic without it, as a
    recursion without end overflows the stack; the theorems ask for the number of allocated pages,
    which bounds the height. The budget [n] of the invariants ([ps_view n], [btree_state _ n],
    [indexed_inv _ n]) counts the steps that the 64-bit counters (page ids, sequence numbers, segment
    ids, file lengths) still have room for; [tree_cost], [write_cost], [session_cost],
    [checkpoint_cost], [open_cost] and [call_cost] say how many a call takes at most. The tests of the
    tree get [tree_test_fuel], more than their calls can allocate pages ([session_bound]). [MAX_ENTRY] is the size up to which every entry
    of the tree can be split; beyond it insertion can fail, and [skewed_split_loses_entries] shows
    how.

    ** Not modelled

    The parsing of the command line (clap) and the writing to the standard output; the [Display]
    texts of errors; [lib.rs], which only names the modules; of the tests under [tests/] those of [concurrency.rs],
    which run threads, and four whose runs are too long to evaluate (the ones of
    [btree_crash_recovery.rs] and the second of [indexed_store_crash_recovery.rs]); the benchmarks.
    Threads that share a [TransactionalStore] run its operations under one mutex, so they are sequences of whole
    operations here. For the tree and the indexed store I/O errors are in the definitions, but the
    refinement theorems are for runs without them; crashes are covered from one flush to the next
    call. *)
From Stdlib Require Export ZArith Lia.
From stdpp Require Export base tactics list gmap sets option sorting.

(** ** Hint databases *)

Create HintDb vault discriminated.
Create Rewrite HintDb vault_rew.

(** ** Fixed-width unsigned integers

    The machine integers of the source are [Z]; the arithmetic that can leave the width is written
    with the wrap-around of a release build. *)

Definition u16 (z : Z) : Z := z `mod` 2 ^ 16.

Definition u32 (z : Z) : Z := z `mod` 2 ^ 32.

Definition u64 (z : Z) : Z := z `mod` 2 ^ 64.

Definition u64_add (a b : Z) : Z := u64 (a + b).

Definition in_u64 (z : Z) : Prop := (0 <= z < 2 ^ 64)%Z.

(** ** Generic list functions *)

(** The half-open range [lo..hi] of a slice; the callers establish the bounds. *)
Definition slice {A} (lo hi : nat) (l : list A) : list A := take (hi - lo) (drop lo l).

(** A stable insertion sort, the model of [sort_by_key] and of the in-order iteration of the
    standard library's ordered maps. *)
Fixpoint insert_sorted {A} (le : A -> A -> bool) (x : A) (l : list A) : list A :=
  match l with
  | [] => [x]
  | y :: l' => if le x y then x :: l else y :: insert_sorted le x l'
  end.

Fixpoint sort_by {A} (le : A -> A -> bool) (l : list A) : list A :=
  match l with
  | [] => []
  | x :: l' => insert_sorted le x (sort_by le l')
  end.

(** [Iterator::find] on a reversed vector: the last element that satisfies the test. *)
Fixpoint rfind {A} (f : A -> bool) (l : list A) : option A :=
  match l with
  | [] => None
  | x :: l' => match rfind f l' with
               | Some y => Some y
               | None => if f x then Some x else None
               end
  end.

Fixpoint take_while {A} (f : A -> bool) (l : list A) : list A :=
  match l with
  | [] => []
  | x :: l' => if f x then x :: take_while f l' else []
  end.

(** The test of [slice::starts_with] and [str::starts_with]. *)
Fixpoint starts_with {A} `{EqDecision A} (prefix l : list A) : bool :=
  match prefix, l with
  | [], _ => true
  | _ :: _, [] => false
  | p :: prefix', x :: l' => bool_decide (p = x) && starts_with prefix' l'
  end.

(** [str::strip_prefix] and [str::strip_suffix]. *)
Definition strip_prefix {A} `{EqDecision A} (p l : list A) : option (list A) :=
  if starts_with p l then Some (drop (length p) l) else None.

Definition ends_with {A} `{EqDecision A} (suf l : list A) : bool :=
  starts_with (reverse suf) (reverse l).

Definition strip_suffix {A} `{EqDecision A} (suf l : list A) : option (list A) :=
  if ends_with suf l then Some (take (length l - length suf) l) else None.

(** ** Tactics *)

(** Splits every conjunction of the context and of the goal. *)
Ltac split_all :=
  repeat match goal with
  | H : _ /\ _ |- _ => destruct H
  | |- _ /\ _ => split
  end.

(** Unfolds the widths so that [lia] can compute with them. *)
Ltac width_lia := unfold u64_add, u64, u32, u16, in_u64 in *; lia.

(** Decides a closed decidable goal by evaluation. *)
Ltac by_compute := apply (bool_decide_unpack _); vm_compute; exact I.

#[global] Instance in_u64_dec (z : Z) : Decision (in_u64 z).
Proof. unfold in_u64. apply _. Defined.

(** ** Lemmas on the integers *)

Lemma u64_small (z : Z) : in_u64 z -> u64 z = z.
Proof. unfold in_u64, u64. intros. by apply Z.mod_small. Qed.

Lemma u64_range (z : Z) : in_u64 (u64 z).
Proof. unfold in_u64, u64. apply Z.mod_pos_bound. lia. Qed.

Lemma u32_small (z : Z) : (0 <= z < 2 ^ 32)%Z -> u32 z = z.
Proof. unfold u32. intros. by apply Z.mod_small. Qed.

Lemma u16_small (z : Z) : (0 <= z < 2 ^ 16)%Z -> u16 z = z.
Proof. unfold u16. intros. by apply Z.mod_small. Qed.

#[export] Hint Resolve u64_range : vault.

(** ** Lemmas on the lists *)

Lemma slice_length {A} (lo hi : nat) (l : list A) :
  hi <= length l -> length (slice lo hi l) = hi - lo.
Proof. intros. unfold slice. rewrite length_take, length_drop. lia. Qed.

Lemma slice_app_ge {A} (lo hi : nat) (l1 l2 : list A) :
  length l1 <= lo -> slice lo hi (l1 ++ l2) = slice (lo - length l1) (hi - length l1) l2.
Proof.
  intros. unfold slice. rewrite drop_app_ge by lia. f_equal; lia.
Qed.

Lemma slice_app_exact {A} (l1 l2 : list A) (n : nat) :
  n = length l1 -> slice 0 n (l1 ++ l2) = l1.
Proof.
  intros ->. unfold slice. rewrite drop_0, Nat.sub_0_r. by apply take_app_length.
Qed.

Lemma drop_slice_app {A} (lo hi : nat) (l : list A) :
  lo <= hi -> drop lo l = slice lo hi l ++ drop hi l.
Proof.
  intros. unfold slice. rewrite <-(take_drop (hi - lo) (drop lo l)) at 1.
  rewrite drop_drop. do 2 f_equal. lia.
Qed.

Lemma insert_sorted_perm {A} (le : A -> A -> bool) (x : A) (l : list A) :
  insert_sorted le x l ≡ₚ x :: l.
Proof.
  induction l as [|y l IH]; simpl; [done|].
  destruct (le x y); [done|]. rewrite IH. by constructor.
Qed.

Lemma sort_by_perm {A} (le : A -> A -> bool) (l : list A) : sort_by le l ≡ₚ l.
Proof.
  induction l as [|x l IH]; simpl; [done|]. by rewrite insert_sorted_perm, IH.
Qed.

Lemma elem_of_sort_by {A} (le : A -> A -> bool) (l : list A) (x : A) :
  x ∈ sort_by le l <-> x ∈ l.
Proof. by rewrite (sort_by_perm le l). Qed.

Lemma insert_sorted_sorted {A} (le : A -> A -> bool) (x : A) (l : list A) :
  (forall a b, le a b = false -> le b a = true) ->
  (forall a b c, le a b = true -> le b c = true -> le a c = true) ->
  StronglySorted (fun a b => le a b = true) l ->
  StronglySorted (fun a b => le a b = true) (insert_sorted le x l).
Proof.
  intros Htot Htr. induction 1 as [|y l Hs IH Hy]; simpl.
  { by repeat constructor. }
  destruct (le x y) eqn:E.
  - constructor; [by constructor|]. constructor; [done|].
    eapply Forall_impl; [done|]. eauto.
  - constructor; [done|]. rewrite insert_sorted_perm. constructor; eauto.
Qed.

Lemma sort_by_sorted {A} (le : A -> A -> bool) (l : list A) :
  (forall a b, le a b = false -> le b a = true) ->
  (forall a b c, le a b = true -> le b c = true -> le a c = true) ->
  StronglySorted (fun a b => le a b = true) (sort_by le l).
Proof.
  intros Htot Htr. induction l as [|x l IH]; simpl; [constructor|].
  by apply insert_sorted_sorted.
Qed.

(** A list already in order is left alone: the sort is stable. *)
Lemma sort_by_id {A} (le : A -> A -> bool) (l : list A) :
  StronglySorted (fun a b => le a b = true) l -> sort_by le l = l.
Proof.
  induction 1 as [|x l Hs IH Hx]; simpl; [done|]. rewrite IH.
  destruct Hx as [|y l Hy]; simpl; [done|]. by rewrite Hy.
Qed.

Lemma rfind_app {A} (f : A -> bool) (l1 l2 : list A) :
  rfind f (l1 ++ l2) = match rfind f l2 with Some y => Some y | None => rfind f l1 end.
Proof.
  induction l1 as [|x l1 IH]; simpl; [by destruct (rfind f l2)|].
  rewrite IH. by destruct (rfind f l2).
Qed.

Lemma rfind_Some {A} (f : A -> bool) (l : list A) (x : A) :
  rfind f l = Some x -> x ∈ l /\ f x = true.
Proof.
  induction l as [|y l IH]; simpl; [done|]. intros H.
  destruct (rfind f l); simplify_eq.
  - destruct IH; [done|]. split; [by right|done].
  - destruct (f y) eqn:E; simplify_eq. split; [by left|done].
Qed.

Lemma rfind_None {A} (f : A -> bool) (l : list A) :
  rfind f l = None <-> Forall (fun x => f x = false) l.
Proof.
  induction l as [|y l IH]; simpl; [done|]. rewrite Forall_cons, <-IH.
  destruct (rfind f l), (f y); by intuition congruence.
Qed.

Lemma rfind_ext {A} (f g : A -> bool) (l : list A) :
  (forall x, x ∈ l -> f x = g x) -> rfind f l = rfind g l.
Proof.
  induction l as [|y l IH]; simpl; intros H; [done|].
  rewrite IH by (intros; apply H; by right). by rewrite (H y) by left.
Qed.

Lemma rfind_true {A} (l : list A) : rfind (fun _ => true) l = last l.
Proof.
  induction l as [|x l IH]; [done|]. simpl rfind.
  rewrite IH, last_cons. by destruct (last l).
Qed.

Lemma starts_with_spec {A} `{EqDecision A} (p l : list A) :
  starts_with p l = true <-> exists k, l = p ++ k.
Proof.
  revert l. induction p as [|x p IH]; intros [|y l]; simpl.
  1, 2: by split; eauto.
  { split; [done|]. by intros [k ?]. }
  rewrite andb_true_iff, bool_decide_eq_true, IH. split.
  - intros [-> [k ->]]. by exists k.
  - intros [k ?]. simplify_eq. eauto.
Qed.

Lemma strip_prefix_Some {A} `{EqDecision A} (p l k : list A) :
  strip_prefix p l = Some k <-> l = p ++ k.
Proof.
  unfold strip_prefix. destruct (starts_with p l) eqn:E.
  - apply starts_with_spec in E as [k' ->]. rewrite drop_app_length.
    split; intros; by simplify_list_eq.
  - split; [done|]. intros ->.
    assert (starts_with p (p ++ k) = true) by (apply starts_with_spec; eauto). congruence.
Qed.

Lemma ends_with_spec {A} `{EqDecision A} (s l : list A) :
  ends_with s l = true <-> exists k, l = k ++ s.
Proof.
  unfold ends_with. rewrite starts_with_spec. split; intros [k Hk].
  - exists (reverse k). apply (f_equal reverse) in Hk.
    by rewrite reverse_involutive, reverse_app, reverse_involutive in Hk.
  - subst. rewrite reverse_app. by eexists.
Qed.

Lemma strip_suffix_Some {A} `{EqDecision A} (s l k : list A) :
  strip_suffix s l = Some k <-> l = k ++ s.
Proof.
  unfold strip_suffix. destruct (ends_with s l) eqn:E.
  - apply ends_with_spec in E as [k' ->].
    rewrite length_app, Nat.add_sub, take_app_length.
    split; intros; by simplify_list_eq.
  - split; [done|]. intros ->.
    assert (ends_with s (k ++ s) = true) by (apply ends_with_spec; eauto). congruence.
Qed.

(** A list split at two positions around a middle part of known length. *)
Lemma split_at {A} (n : nat) (l : list A) :
  n <= length l -> exists l1 l2, l = l1 ++ l2 /\ length l1 = n.
Proof.
  intros. exists (take n l), (drop n l). by rewrite take_drop, length_take, Nat.min_l.
Qed.

Lemma slice_app_mid {A} (lo hi : nat) (l1 l2 l3 : list A) :
  lo = length l1 -> hi = length l1 + length l2 -> slice lo hi (l1 ++ l2 ++ l3) = l2.
Proof.
  intros -> ->. unfold slice. rewrite drop_app_length.
  replace (length l1 + length l2 - length l1) with (length l2) by lia. apply take_app_length.
Qed.

Lemma take_prefix_app {A} (k : nat) (l1 l2 : list A) :
  take k l1 = take (k `min` length l1) (l1 ++ l2).
Proof.
  rewrite take_app_le by lia. rewrite <-take_take. by rewrite (take_ge l1 (length l1)) by lia.
Qed.

Lemma StronglySorted_weaken {A} (R R' : A -> A -> Prop) (l : list A) :
  (forall a b, R a b -> R' a b) -> StronglySorted R l -> StronglySorted R' l.
Proof.
  intros HR. induction 1 as [|x l Hs IH Hx]; constructor; [done|].
  eapply Forall_impl; [done|]. auto.
Qed.

Lemma NoDup_omap_inj {A B} (f : A -> option B) (l : list A) :
  NoDup l -> (forall x y z, x ∈ l -> y ∈ l -> f x = Some z -> f y = Some z -> x = y) ->
  NoDup (omap f l).
Proof.
  induction 1 as [|x l Hx Hnd IH]; intros Hinj; simpl; [constructor|].
  assert (NoDup (omap f l)) as Hl.
  { apply IH. intros a b z Ha Hb. apply Hinj; by right. }
  destruct (f x) as [z|] eqn:Ez; [|done]. constructor; [|done].
  intros Hz. apply list_elem_of_omap in Hz as (y & Hy & Ey).
  assert (x = y) as -> by (eapply Hinj; [by left|by right|done|done]). done.
Qed.

Lemma omap_nil {A B} (f : A -> option B) (l : list A) :
  (forall x, x ∈ l -> f x = None) -> omap f l = [].
Proof.
  induction l as [|x l IH]; intros Hf; simpl; [done|].
  rewrite (Hf x) by left. apply IH. intros. apply Hf. by right.
Qed.

Lemma suffix_cons_or {A} (l k : list A) (x : A) :
  l `suffix_of` x :: k -> l = x :: k \/ l `suffix_of` k.
Proof.
  intros [[|y h] Hh]; simplify_list_eq; [by left|]. right. by exists h.
Qed.

Lemma suffix_total {A : Type} (l1 l2 l : list A) :
  l1 `suffix_of` l -> l2 `suffix_of` l -> l1 `suffix_of` l2 \/ l2 `suffix_of` l1.
Proof. rewrite !suffix_prefix_reverse. apply prefix_weak_total. Qed.

Lemma filter_none {A} (P : A -> Prop) `{forall x, Decision (P x)} (l : list A) :
  Forall (fun x => ~ P x) l -> filter P l = [].
Proof. induction 1; [done|]. by rewrite filter_cons_False. Qed.

Lemma filter_all {A} (P : A -> Prop) `{forall x, Decision (P x)} (l : list A) :
  Forall P l -> filter P l = l.
Proof. induction 1 as [|x l Hx _ IH]; [done|]. by rewrite filter_cons_True, IH. Qed.

(** Filtering the image of a list, where the test of an image is a test of its origin. *)
Lemma filter_fmap_ext {A B} (f : A -> B) (P : B -> Prop) (Q : A -> Prop)
    `{forall x, Decision (P x)} `{forall x, Decision (Q x)} (l : list A) :
  (forall x, x ∈ l -> P (f x) <-> Q x) -> filter P (f <$> l) = f <$> filter Q l.
Proof.
  induction l as [|x l IH]; intros Hx; [done|]. rewrite fmap_cons, !filter_cons, IH.
  - destruct (decide (Q x)) as [Hq|Hq].
    + rewrite decide_True; [done|]. apply Hx; [by left|done].
    + rewrite decide_False; [done|]. rewrite Hx; [done|by left].
  - intros y Hy. apply Hx. by right.
Qed.

Lemma StronglySorted_filter {A} (R : A -> A -> Prop) (P : A -> Prop) `{forall x, Decision (P x)}
    (l : list A) : StronglySorted R l -> StronglySorted R (filter P l).
Proof.
  induction 1 as [|x l Hs IH Hx]; [constructor|]. rewrite filter_cons.
  case_decide; [|done]. constructor; [done|]. rewrite Forall_forall in *.
  intros y [_ Hy]%list_elem_of_filter. by apply Hx.
Qed.

Lemma StronglySorted_fmap_iff {A B} (R : B -> B -> Prop) (f : A -> B) (l : list A) :
  StronglySorted R (f <$> l) <-> StronglySorted (fun a b => R (f a) (f b)) l.
Proof.
  induction l as [|x l IH]; simpl; [split; constructor|]. split.
  - intros [Hs Hx]%StronglySorted_inv. constructor; [by apply IH|].
    rewrite Forall_fmap in Hx. exact Hx.
  - intros [Hs Hx]%StronglySorted_inv. constructor; [by apply IH|].
    rewrite Forall_fmap. exact Hx.
Qed.

Lemma strict_sorted_NoDup {A} (R : A -> A -> Prop) (l : list A) :
  (forall a, ~ R a a) -> StronglySorted R l -> NoDup l.
Proof.
  intros HR. induction 1 as [|x l Hs IH Hx]; constructor; [|done].
  intros Hin. rewrite Forall_forall in Hx. by apply (HR x), Hx.
Qed.

(** Two strictly sorted lists with the same elements are equal. *)
Lemma strict_sorted_unique {A} (R : A -> A -> Prop) (l1 l2 : list A) :
  (forall a, ~ R a a) -> (forall a b c, R a b -> R b c -> R a c) ->
  StronglySorted R l1 -> StronglySorted R l2 -> (forall x, x ∈ l1 <-> x ∈ l2) -> l1 = l2.
Proof.
  intros Hirr Htr H1 H2 Heq. eapply StronglySorted_unique_strong; [|done|done|].
  - intros x y _ _ Hxy Hyx. exfalso. by eapply Hirr, Htr.
  - apply NoDup_Permutation; [by eapply strict_sorted_NoDup..|done].
Qed.
