(* ===== verification/Bytes.v ===== *)
(** * Bytes: the byte-level vocabulary of the vault

    Bytes and byte vectors, the little- and big-endian codecs of the fixed-width integers
    ([to_le_bytes], [from_le_bytes], [to_be_bytes], [from_be_bytes]), the lexicographic order of
    byte vectors (the key order of every [BTreeMap] of the source), the in-order iteration of such
    a map, and the decimal formatting and parsing that segment file names use. *)
From Stdlib Require Export Strings.Byte.
From stdpp Require Export strings.
From S2P Require Export Prelude.

Abbreviation bytes := (list byte).

#[global] Instance byte_eq_decision : EqDecision byte := Byte.byte_eq_dec.

#[global] Program Instance byte_countable : Countable byte :=
  inj_countable Byte.to_N Byte.of_N _.
Next Obligation. apply Byte.of_to_N. Qed.

#[global] Instance byte_inhabited : Inhabited byte := populate x00.

(** ** Bytes as integers *)

Definition byte_to_Z (b : byte) : Z := Z.of_N (Byte.to_N b).

(** The cast [as u8]. *)
Definition byte_of_Z (z : Z) : byte :=
  match Byte.of_N (Z.to_N (z `mod` 256)) with
  | Some b => b
  | None => x00
  end.

(** [to_le_bytes] on [n] bytes and [from_le_bytes]. *)
Fixpoint le_bytes (n : nat) (z : Z) : bytes :=
  match n with
  | O => []
  | S n' => byte_of_Z z :: le_bytes n' (z `div` 256)
  end.

Fixpoint le_val (bs : bytes) : Z :=
  match bs with
  | [] => 0
  | b :: bs' => byte_to_Z b + 256 * le_val bs'
  end.

(** [to_be_bytes] and [from_be_bytes]. *)
Definition be_bytes (n : nat) (z : Z) : bytes := reverse (le_bytes n z).

Definition be_val (bs : bytes) : Z := le_val (reverse bs).

(** An ASCII string literal of the source. *)
Definition ascii (s : string) : bytes := String.list_byte_of_string s.

(** ** The order of byte vectors *)

Fixpoint bytes_leb (a b : bytes) : bool :=
  match a, b with
  | [], _ => true
  | _ :: _, [] => false
  | x :: a', y :: b' =>
      if (byte_to_Z x <? byte_to_Z y)%Z then true
      else if (byte_to_Z y <? byte_to_Z x)%Z then false
      else bytes_leb a' b'
  end.

Definition bytes_ltb (a b : bytes) : bool := negb (bytes_leb b a).

(** ** Iteration of an ordered map *)

Definition entry_leb {V} (e1 e2 : bytes * V) : bool := bytes_leb e1.1 e2.1.

(** [BTreeMap::iter]: the entries of the map in key order. *)
Definition bt_iter {V} (m : gmap bytes V) : list (bytes * V) :=
  sort_by entry_leb (map_to_list m).

(** [BTreeMap::keys]. *)
Definition bt_keys {V} (m : gmap bytes V) : list bytes := (bt_iter m).*1.

(** ** Decimal numbers *)

Definition digit (z : Z) : byte := byte_of_Z (48 + z).

Fixpoint dec_digits (fuel : nat) (z : Z) (acc : bytes) : bytes :=
  match fuel with
  | O => acc
  | S fuel' =>
      let acc' := digit (z `mod` 10) :: acc in
      if (z <? 10)%Z then acc' else dec_digits fuel' (z `div` 10) acc'
  end.

(** [format!("{}", z)] of a [u64], which has at most 20 digits. *)
Definition fmt_dec (z : Z) : bytes := dec_digits 20 z [].

(** [format!("{:0w}", z)]: zero-padded to the width. *)
Definition fmt_dec_pad (w : nat) (z : Z) : bytes :=
  replicate (w - length (fmt_dec z)) (digit 0) ++ fmt_dec z.

Definition to_digit (b : byte) : option Z :=
  if (48 <=? byte_to_Z b)%Z && (byte_to_Z b <=? 57)%Z then Some (byte_to_Z b - 48)%Z else None.

(** The digits of [str::parse::<u64>], with its overflow check. *)
Fixpoint parse_digits (acc : Z) (bs : bytes) : option Z :=
  match bs with
  | [] => Some acc
  | b :: bs' =>
      d ← to_digit b;
      let acc' := (acc * 10 + d)%Z in
      if (acc' <? 2 ^ 64)%Z then parse_digits acc' bs' else None
  end.

(** [str::parse::<u64>]: empty input and a lone sign are errors, one leading [+] is accepted. *)
Definition parse_u64 (bs : bytes) : option Z :=
  match bs with
  | [] => None
  | b :: bs' =>
      if bool_decide (b = byte_of_Z 43) then
        match bs' with [] => None | _ :: _ => parse_digits 0 bs' end
      else parse_digits 0 bs
  end.

(** ** Bytes: lemmas *)

Lemma byte_to_Z_range (b : byte) : (0 <= byte_to_Z b < 256)%Z.
Proof. unfold byte_to_Z. pose proof (Byte.to_N_bounded b). lia. Qed.

Lemma byte_of_to_Z (b : byte) : byte_of_Z (byte_to_Z b) = b.
Proof.
  unfold byte_of_Z. rewrite Z.mod_small by apply byte_to_Z_range.
  unfold byte_to_Z. by rewrite N2Z.id, Byte.of_to_N.
Qed.

Lemma byte_to_of_Z (z : Z) : byte_to_Z (byte_of_Z z) = (z `mod` 256)%Z.
Proof.
  unfold byte_of_Z. pose proof (Z.mod_pos_bound z 256 ltac:(lia)).
  destruct (Byte.of_N _) as [b|] eqn:E.
  - unfold byte_to_Z. apply Byte.to_of_N in E. lia.
  - apply Byte.of_N_None_iff in E. lia.
Qed.

#[global] Instance byte_to_Z_inj : Inj (=) (=) byte_to_Z.
Proof. intros a b H. by rewrite <-(byte_of_to_Z a), <-(byte_of_to_Z b), H. Qed.

(** ** Codecs: lemmas *)

Lemma length_le_bytes (n : nat) (z : Z) : length (le_bytes n z) = n.
Proof. revert z. induction n; intros; simpl; [done|]. by rewrite IHn. Qed.

Lemma le_val_range (bs : bytes) : (0 <= le_val bs < 256 ^ Z.of_nat (length bs))%Z.
Proof.
  induction bs as [|b bs IH]; simpl; [lia|].
  pose proof (byte_to_Z_range b).
  replace (Z.of_nat (S (length bs))) with (Z.succ (Z.of_nat (length bs))) by lia.
  rewrite Z.pow_succ_r by lia. lia.
Qed.

Lemma le_val_bytes (n : nat) (z : Z) : le_val (le_bytes n z) = (z `mod` 256 ^ Z.of_nat n)%Z.
Proof.
  revert z. induction n as [|n IH]; intros z; simpl le_val; [by rewrite Z.mod_1_r|].
  rewrite byte_to_of_Z, IH.
  replace (Z.of_nat (S n)) with (Z.succ (Z.of_nat n)) by lia.
  rewrite Z.pow_succ_r by lia. rewrite Z.rem_mul_r; lia.
Qed.

Lemma le_bytes_val (bs : bytes) : le_bytes (length bs) (le_val bs) = bs.
Proof.
  induction bs as [|b bs IH]; simpl; [done|]. pose proof (byte_to_Z_range b).
  replace (byte_to_Z b + 256 * le_val bs)%Z with (byte_to_Z b + le_val bs * 256)%Z by lia.
  rewrite Z.div_add, (Z.div_small (byte_to_Z b)), Z.add_0_l, IH by lia. f_equal.
  rewrite <-(byte_of_to_Z b) at 2. unfold byte_of_Z at 1.
  rewrite Z.mod_add, Z.mod_small by lia. unfold byte_of_Z at 1.
  by rewrite Z.mod_small by lia.
Qed.

Lemma le_bytes_val_n (n : nat) (bs : bytes) : length bs = n -> le_bytes n (le_val bs) = bs.
Proof. intros <-. apply le_bytes_val. Qed.

Lemma le_val_bytes_small (n : nat) (z : Z) :
  (0 <= z < 256 ^ Z.of_nat n)%Z -> le_val (le_bytes n z) = z.
Proof. intros. rewrite le_val_bytes. by apply Z.mod_small. Qed.

Lemma length_be_bytes (n : nat) (z : Z) : length (be_bytes n z) = n.
Proof. unfold be_bytes. by rewrite length_reverse, length_le_bytes. Qed.

Lemma be_val_bytes_small (n : nat) (z : Z) :
  (0 <= z < 256 ^ Z.of_nat n)%Z -> be_val (be_bytes n z) = z.
Proof. intros. unfold be_val, be_bytes. by rewrite reverse_involutive, le_val_bytes_small. Qed.

Lemma be_bytes_val_n (n : nat) (bs : bytes) : length bs = n -> be_bytes n (be_val bs) = bs.
Proof.
  intros. unfold be_bytes, be_val. rewrite le_bytes_val_n by by rewrite length_reverse.
  by rewrite reverse_involutive.
Qed.

Lemma le_bytes_inj (n : nat) (a b : Z) :
  (0 <= a < 256 ^ Z.of_nat n)%Z -> (0 <= b < 256 ^ Z.of_nat n)%Z ->
  le_bytes n a = le_bytes n b -> a = b.
Proof. intros Ha Hb H. apply (f_equal le_val) in H. by rewrite !le_val_bytes_small in H. Qed.

#[export] Hint Rewrite length_le_bytes length_be_bytes : vault_rew.

(** ** The order of byte vectors: lemmas *)

Lemma bytes_leb_refl (a : bytes) : bytes_leb a a = true.
Proof. induction a as [|x a IH]; simpl; [done|]. by rewrite Z.ltb_irrefl. Qed.

Lemma bytes_leb_total (a b : bytes) : bytes_leb a b = false -> bytes_leb b a = true.
Proof.
  revert b. induction a as [|x a IH]; intros [|y b]; simpl; try done.
  destruct (Z.ltb_spec (byte_to_Z x) (byte_to_Z y)), (Z.ltb_spec (byte_to_Z y) (byte_to_Z x));
    by auto.
Qed.

Lemma bytes_leb_trans (a b c : bytes) :
  bytes_leb a b = true -> bytes_leb b c = true -> bytes_leb a c = true.
Proof.
  revert b c. induction a as [|x a IH]; intros [|y b] [|z c]; simpl; try done.
  destruct (Z.ltb_spec (byte_to_Z x) (byte_to_Z y)), (Z.ltb_spec (byte_to_Z y) (byte_to_Z x)),
    (Z.ltb_spec (byte_to_Z y) (byte_to_Z z)), (Z.ltb_spec (byte_to_Z z) (byte_to_Z y)),
    (Z.ltb_spec (byte_to_Z x) (byte_to_Z z)), (Z.ltb_spec (byte_to_Z z) (byte_to_Z x));
    try lia; try done; eauto.
Qed.

Lemma bytes_leb_antisym (a b : bytes) :
  bytes_leb a b = true -> bytes_leb b a = true -> a = b.
Proof.
  revert b. induction a as [|x a IH]; intros [|y b]; simpl; try done.
  destruct (Z.ltb_spec (byte_to_Z x) (byte_to_Z y)), (Z.ltb_spec (byte_to_Z y) (byte_to_Z x));
    try done; try lia.
  intros. f_equal; [|by auto]. apply byte_to_Z_inj. lia.
Qed.

Lemma bytes_leb_prefix (p k : bytes) : bytes_leb p (p ++ k) = true.
Proof. induction p as [|x p IH]; simpl; [done|]. by rewrite Z.ltb_irrefl. Qed.

Lemma bytes_ltb_irrefl (a : bytes) : bytes_ltb a a = false.
Proof. unfold bytes_ltb. by rewrite bytes_leb_refl. Qed.

Lemma bytes_ltb_leb (a b : bytes) : bytes_ltb a b = true -> bytes_leb a b = true.
Proof. unfold bytes_ltb. rewrite negb_true_iff. apply bytes_leb_total. Qed.

Lemma bytes_leb_ltb (a b : bytes) : bytes_leb a b = true -> a <> b -> bytes_ltb a b = true.
Proof.
  unfold bytes_ltb. rewrite negb_true_iff. intros H Hne.
  destruct (bytes_leb b a) eqn:E; [|done]. by destruct Hne; apply bytes_leb_antisym.
Qed.

Lemma bytes_ltb_trans (a b c : bytes) :
  bytes_ltb a b = true -> bytes_leb b c = true -> bytes_ltb a c = true.
Proof.
  unfold bytes_ltb. rewrite !negb_true_iff. intros Hab Hbc.
  destruct (bytes_leb c a) eqn:E; [|done].
  rewrite <-Hab. symmetry. by eapply bytes_leb_trans.
Qed.

Lemma entry_leb_total {V} (a b : bytes * V) : entry_leb a b = false -> entry_leb b a = true.
Proof. apply bytes_leb_total. Qed.

Lemma entry_leb_trans {V} (a b c : bytes * V) :
  entry_leb a b = true -> entry_leb b c = true -> entry_leb a c = true.
Proof. apply bytes_leb_trans. Qed.

(** ** Ordered iteration: lemmas *)

Definition key_lt {V} (e1 e2 : bytes * V) : Prop := bytes_ltb e1.1 e2.1 = true.

Lemma elem_of_bt_iter {V} (m : gmap bytes V) (k : bytes) (v : V) :
  (k, v) ∈ bt_iter m <-> m !! k = Some v.
Proof. unfold bt_iter. by rewrite elem_of_sort_by, elem_of_map_to_list. Qed.

Lemma bt_iter_NoDup {V} (m : gmap bytes V) : NoDup (bt_iter m).*1.
Proof. unfold bt_iter. rewrite sort_by_perm. apply NoDup_fst_map_to_list. Qed.

Lemma StronglySorted_strict {V} (l : list (bytes * V)) :
  NoDup l.*1 -> StronglySorted (fun a b => entry_leb a b = true) l -> StronglySorted key_lt l.
Proof.
  intros Hnd. induction 1 as [|e l Hs IH He]; [constructor|].
  rewrite fmap_cons, NoDup_cons in Hnd. destruct Hnd as [Hni Hnd].
  constructor; [by auto|]. rewrite Forall_forall in He |- *. intros e' He'.
  apply bytes_leb_ltb; [by apply He|]. intros Heq. apply Hni. rewrite Heq.
  apply list_elem_of_fmap. eauto.
Qed.

Lemma bt_iter_sorted {V} (m : gmap bytes V) : StronglySorted key_lt (bt_iter m).
Proof.
  apply StronglySorted_strict; [apply bt_iter_NoDup|].
  apply sort_by_sorted; [apply entry_leb_total|apply entry_leb_trans].
Qed.

Lemma elem_of_bt_keys {V} (m : gmap bytes V) (k : bytes) : k ∈ bt_keys m <-> is_Some (m !! k).
Proof.
  unfold bt_keys. rewrite list_elem_of_fmap. split.
  - intros [[k' v] [-> H]]. apply elem_of_bt_iter in H. by eexists.
  - intros [v H]. exists (k, v). by rewrite elem_of_bt_iter.
Qed.

Lemma bt_iter_empty {V} : bt_iter (∅ : gmap bytes V) = [].
Proof. unfold bt_iter. by rewrite map_to_list_empty. Qed.

(** Two strictly sorted lists with the same elements are equal. *)
Lemma key_sorted_unique {V} (l1 l2 : list (bytes * V)) :
  StronglySorted key_lt l1 -> StronglySorted key_lt l2 ->
  (forall e, e ∈ l1 <-> e ∈ l2) -> l1 = l2.
Proof.
  intros H1. revert l2. induction H1 as [|x l1 Hs1 IH Hx]; intros l2 H2 Heq.
  - destruct l2 as [|y l2]; [done|]. exfalso. eapply not_elem_of_nil, Heq. by left.
  - destruct H2 as [|y l2 Hs2 Hy].
    { exfalso. eapply not_elem_of_nil, Heq. by left. }
    rewrite Forall_forall in Hx, Hy.
    assert (forall a b : bytes * V, key_lt a b -> key_lt b a -> False) as Hasym.
    { unfold key_lt. intros a b Ha Hb. apply bytes_ltb_leb in Hb.
      pose proof (bytes_ltb_trans _ _ _ Ha Hb) as Hc. by rewrite bytes_ltb_irrefl in Hc. }
    assert (forall a : bytes * V, key_lt a a -> False) as Hirr by eauto.
    assert (x = y) as ->.
    { pose proof (proj1 (Heq x) ltac:(by left)) as [?|?]%elem_of_cons; [done|].
      pose proof (proj2 (Heq y) ltac:(by left)) as [?|?]%elem_of_cons; [done|].
      exfalso. eauto. }
    f_equal. apply IH; [done|]. intros e. split; intros He.
    + pose proof (proj1 (Heq e) ltac:(by right)) as [->|?]%elem_of_cons; [|done].
      exfalso. eauto.
    + pose proof (proj2 (Heq e) ltac:(by right)) as [->|?]%elem_of_cons; [|done].
      exfalso. eauto.
Qed.

(** ** Decimal numbers: lemmas *)

Lemma byte_to_Z_digit (d : Z) : (0 <= d < 10)%Z -> byte_to_Z (digit d) = (48 + d)%Z.
Proof. intros. unfold digit. rewrite byte_to_of_Z, Z.mod_small; lia. Qed.

Lemma to_digit_digit (d : Z) : (0 <= d < 10)%Z -> to_digit (digit d) = Some d.
Proof.
  intros. unfold to_digit. rewrite byte_to_Z_digit by done.
  rewrite !(proj2 (Z.leb_le _ _)) by lia. simpl. f_equal. lia.
Qed.

(** The value of the digits of [z] in front of a tail parsed with accumulator [z]. *)
Lemma parse_dec_digits (fuel : nat) (z a : Z) (acc : bytes) :
  (0 <= z)%Z -> (z < 10 ^ Z.of_nat fuel)%Z -> (0 < Z.of_nat fuel)%Z -> in_u64 z ->
  parse_digits 0 (dec_digits fuel z acc) = parse_digits z acc.
Proof.
  revert z acc. induction fuel as [|fuel IH]; intros z acc Hz Hlt Hf Hu; [lia|].
  simpl dec_digits. pose proof (Z.mod_pos_bound z 10 ltac:(lia)).
  pose proof (Z.div_mod z 10 ltac:(lia)) as Hdm. unfold in_u64 in Hu.
  destruct (Z.ltb_spec z 10).
  - cbn [parse_digits]. rewrite to_digit_digit by done. cbn.
    rewrite Z.mod_small by lia. by rewrite (proj2 (Z.ltb_lt z _)) by lia.
  - assert (0 < Z.of_nat fuel)%Z.
    { destruct fuel; [|lia]. simpl in Hlt. lia. }
    rewrite Nat2Z.inj_succ, Z.pow_succ_r in Hlt by lia.
    rewrite IH by (unfold in_u64; try lia; apply Z.div_lt_upper_bound; lia).
    cbn [parse_digits]. rewrite to_digit_digit by done. cbn.
    replace (z `div` 10 * 10 + z `mod` 10)%Z with z by lia.
    by rewrite (proj2 (Z.ltb_lt z _)) by lia.
Qed.

Lemma parse_digits_zeros (n : nat) (acc : bytes) :
  parse_digits 0 (replicate n (digit 0) ++ acc) = parse_digits 0 acc.
Proof.
  induction n as [|n IH]; [done|]. cbn [replicate app parse_digits].
  by rewrite to_digit_digit by lia.
Qed.

Lemma dec_digits_not_nil (fuel : nat) (z : Z) (acc : bytes) :
  0 < fuel + length acc -> dec_digits fuel z acc <> [].
Proof.
  revert z acc. induction fuel as [|fuel IH]; intros z acc H; simpl.
  - by destruct acc; [simpl in H; lia|].
  - case_match; [done|]. apply IH. simpl. lia.
Qed.

(** The padded decimal of a [u64] parses back to it. *)
Lemma parse_fmt_dec_pad (w : nat) (z : Z) : in_u64 z -> parse_u64 (fmt_dec_pad w z) = Some z.
Proof.
  intros Hz. assert (parse_digits 0 (fmt_dec_pad w z) = Some z) as Hp.
  { unfold fmt_dec_pad. rewrite parse_digits_zeros. unfold fmt_dec.
    unfold in_u64 in Hz. rewrite parse_dec_digits; simpl; try done; lia. }
  destruct (fmt_dec_pad w z) as [|b bs] eqn:E; [|].
  - apply app_nil in E as [_ E]. by apply (dec_digits_not_nil 20) in E; [|lia].
  - unfold parse_u64. case_bool_decide as Hb; [|done].
    subst b. cbn [parse_digits] in Hp. unfold to_digit in Hp.
    rewrite byte_to_of_Z in Hp. done.
Qed.

Lemma fmt_dec_pad_inj (w : nat) (a b : Z) :
  in_u64 a -> in_u64 b -> fmt_dec_pad w a = fmt_dec_pad w b -> a = b.
Proof.
  intros Ha Hb H. apply (f_equal parse_u64) in H. rewrite !parse_fmt_dec_pad in H by done. congruence.
Qed.
