(* ===== verification/Fs.v ===== *)
(** * Fs: effects, the file system and its faults

    Every stateful function of the vault is a computation of the monad [M S E A]: it transforms a
    state of type [S] (the [&mut self] of the source) and a [World], and ends with [Ok], with an
    error of type [E] (the [Err] branch of a [Result]), with a panic, or with a crash of the
    process. A [World] is a file system together with the fault plan of its future operations:
    each primitive consumes one entry, and an operation may be told to fail with an I/O error or
    to crash the process, after a part of its effect has happened.

    The primitives model what the source uses of [std::fs]: directories and files are a finite map,
    each file remembers how many of its leading bytes an [fsync] has made durable, and
    [crash_fs] is what a restart finds: every file keeps its durable bytes and an arbitrary part of
    the rest. Operations on directory entries (creation, removal, renaming) are durable when they
    happen. [wpc] is the program logic: a weakest precondition with a postcondition for each way to
    end. *)
From S2P Require Export Bytes.

(** ** Outcomes and the monad *)

Inductive Res (E A : Type) : Type :=
| Ok (a : A)
| Err (e : E)
| Panic
| Crash.
Arguments Ok {E A} a.
Arguments Err {E A} e.
Arguments Panic {E A}.
Arguments Crash {E A}.

(** The kinds of [io::Error] that the source tells apart, or that a primitive can produce; a fault
    of the plan is [EOther]. *)
Inductive IoError : Type :=
| NotFound
| NotADirectory
| UnexpectedEof
| EOther.

#[global] Instance IoError_eq_decision : EqDecision IoError.
Proof. solve_decision. Defined.

(** A path is the list of its components, the last one first: the head is the file name and the
    tail is the parent directory. *)
Abbreviation path := (list bytes).

(** [Path::join] with a single component. *)
Definition path_join (dir : path) (name : bytes) : path := name :: dir.

Record File := mkFile {
  f_data : bytes;
  (** the number of leading bytes that are durable *)
  f_synced : nat;
}.

(** A directory maps the names of its files to them; a file system maps the directories to their
    files. A subdirectory is a key whose tail is its parent. *)
Abbreviation fsys := (gmap path (gmap bytes File)).

Inductive Fault : Type :=
| FNone
| FErr (partial : nat)
| FCrash (partial : nat).

Record World := mkWorld {
  w_fs : fsys;
  w_faults : list Fault;
}.

Definition M (S E A : Type) : Type := S -> World -> Res E A * S * World.

#[global] Instance M_ret {S E : Type} : MRet (M S E) := fun A a s w => (Ok a, s, w).

#[global] Instance M_bind {S E : Type} : MBind (M S E) := fun A B f m s w =>
  match m s w with
  | (Ok a, s', w') => f a s' w'
  | (Err e, s', w') => (Err e, s', w')
  | (Panic, s', w') => (Panic, s', w')
  | (Crash, s', w') => (Crash, s', w')
  end.

Definition get_state {S E : Type} : M S E S := fun s w => (Ok s, s, w).

Definition modify {S E : Type} (f : S -> S) : M S E unit := fun s w => (Ok tt, f s, w).

Definition throw {S E A : Type} (e : E) : M S E A := fun s w => (Err e, s, w).

Definition panic {S E A : Type} : M S E A := fun s w => (Panic, s, w).

(** Runs a method of a field of the state. *)
Definition zoom {S T E A : Type} (get : S -> T) (set : T -> S -> S) (m : M T E A) : M S E A :=
  fun s w => let '(r, t, w') := m (get s) w in (r, set t s, w').

(** Runs a function that has no [self]. *)
Definition io {S E A : Type} (m : M unit E A) : M S E A :=
  zoom (fun _ => tt) (fun _ s => s) m.

(** The [From] conversion of the operator [?]. *)
Definition map_err {S E1 E2 A : Type} (f : E1 -> E2) (m : M S E1 A) : M S E2 A := fun s w =>
  match m s w with
  | (Ok a, s', w') => (Ok a, s', w')
  | (Err e, s', w') => (Err (f e), s', w')
  | (Panic, s', w') => (Panic, s', w')
  | (Crash, s', w') => (Crash, s', w')
  end.

(** [match m { Ok(a) => Ok(a), Err(e) => h(e) }]. *)
Definition catch {S E A : Type} (m : M S E A) (h : E -> M S E A) : M S E A := fun s w =>
  match m s w with
  | (Err e, s', w') => h e s' w'
  | r => r
  end.

(** Runs a method of a local variable and returns it with the result. *)
Definition on {S T E A : Type} (t : T) (m : M T E A) : M S E (A * T) := fun s w =>
  match m t w with
  | (Ok a, t', w') => (Ok (a, t'), s, w')
  | (Err e, _, w') => (Err e, s, w')
  | (Panic, _, w') => (Panic, s, w')
  | (Crash, _, w') => (Crash, s, w')
  end.

(** A [for] loop over the elements of a list. *)
Fixpoint for_each {S E A : Type} (f : A -> M S E unit) (l : list A) : M S E unit :=
  match l with
  | [] => mret tt
  | x :: l' => f x ;; for_each f l'
  end.

(** ** Primitive operations *)

(** An operation with its complete effect and the effect of its first [k] steps, for an operation
    interrupted by a fault. *)
Definition prim {S A : Type} (full : S -> fsys -> Res IoError A * S * fsys)
    (partial : nat -> S -> fsys -> S * fsys) : M S IoError A := fun s w =>
  let run fl := let '(r, s', fs') := full s (w_fs w) in (r, s', mkWorld fs' fl) in
  match w_faults w with
  | [] => run []
  | FNone :: fl => run fl
  | FErr k :: fl => let '(s', fs') := partial k s (w_fs w) in (Err EOther, s', mkWorld fs' fl)
  | FCrash k :: fl => let '(s', fs') := partial k s (w_fs w) in (Crash, s', mkWorld fs' fl)
  end.

(** An operation that happens entirely or not at all. *)
Definition atomic {S A : Type} (full : S -> fsys -> Res IoError A * S * fsys) : M S IoError A :=
  prim full (fun _ s fs => (s, fs)).

(** An operation that only reads the file system. *)
Definition query {S A : Type} (f : fsys -> Res IoError A) : M S IoError A :=
  atomic (fun s fs => (f fs, s, fs)).

(** The order in which [read_dir] yields the entries of a directory, which the standard library
    leaves to the platform. *)
Class DirOrder := {
  dir_order : path -> list bytes -> list bytes;
  dir_order_perm : forall p l, dir_order p l ≡ₚ l;
}.

Definition file_at (fs : fsys) (p : path) : option File :=
  match p with
  | [] => None
  | n :: d => files ← fs !! d; files !! n
  end.

Definition put_file (p : path) (f : File) (fs : fsys) : fsys :=
  match p with
  | [] => fs
  | n :: d => alter (insert n f) d fs
  end.

Definition del_file (p : path) (fs : fsys) : fsys :=
  match p with
  | [] => fs
  | n :: d => alter (delete n) d fs
  end.

(** The missing directories of [p], outermost first. [None]: a file is in the way. *)
Fixpoint mk_dirs (p : path) (fs : fsys) : option fsys :=
  match p with
  | [] => Some (match fs !! [] with Some _ => fs | None => <[[] := ∅]> fs end)
  | n :: d =>
      fs' ← mk_dirs d fs;
      match fs' !! p with
      | Some _ => Some fs'
      | None => match file_at fs' p with Some _ => None | None => Some (<[p := ∅]> fs') end
      end
  end.

(** [fs::create_dir_all]. *)
Definition create_dir_all {S : Type} (p : path) : M S IoError unit :=
  prim
    (fun s fs => match mk_dirs p fs with
                 | Some fs' => (Ok tt, s, fs')
                 | None => (Err NotADirectory, s, fs)
                 end)
    (fun k s fs => (s, default fs (mk_dirs (drop (length p - k) p) fs))).

(** [Path::exists], which is [false] when the query fails. *)
Definition path_exists {S E : Type} (p : path) : M S E bool := fun s w =>
  match query (fun fs => Ok (bool_decide (is_Some (fs !! p) \/ is_Some (file_at fs p)))) s w with
  | (Ok b, s', w') => (Ok b, s', w')
  | (Err _, s', w') => (Ok false, s', w')
  | (Panic, s', w') => (Panic, s', w')
  | (Crash, s', w') => (Crash, s', w')
  end.

(** The names of the entries of a directory: its files and its subdirectories. *)
Definition entry_names (fs : fsys) (p : path) (files : gmap bytes File) : list bytes :=
  (map_to_list files).*1 ++
  omap (fun '(q, _) => match q with n :: d => if decide (d = p) then Some n else None | [] => None end)
       (map_to_list fs).

(** [fs::read_dir]: the names of the entries at the time of the call, in the platform's order. *)
Definition read_dir {S : Type} `{DirOrder} (p : path) : M S IoError (list bytes) :=
  query (fun fs => match fs !! p with
                   | Some files => Ok (dir_order p (entry_names fs p files))
                   | None => Err NotFound
                   end).

(** [File::open] followed by [read_to_end]. *)
Definition read_file {S : Type} (p : path) : M S IoError bytes :=
  query (fun fs => match file_at fs p with Some f => Ok (f_data f) | None => Err NotFound end).

(** [fs::write(p, b"")]. *)
Definition write_empty_file {S : Type} (p : path) : M S IoError unit :=
  atomic (fun s fs => match p with
                      | n :: d => match fs !! d with
                                  | Some _ => (Ok tt, s, put_file p (mkFile [] 0) fs)
                                  | None => (Err NotFound, s, fs)
                                  end
                      | [] => (Err EOther, s, fs)
                      end).

(** [fs::remove_file]. *)
Definition remove_file {S : Type} (p : path) : M S IoError unit :=
  atomic (fun s fs => match file_at fs p with
                      | Some _ => (Ok tt, s, del_file p fs)
                      | None => (Err NotFound, s, fs)
                      end).

Definition remove_tree (p : path) (fs : fsys) : fsys :=
  filter (fun qf => ~ p `suffix_of` qf.1) fs.

(** [fs::remove_dir_all]; interrupted, it has removed the first [k] files of the directory. *)
Definition remove_dir_all {S : Type} `{DirOrder} (p : path) : M S IoError unit :=
  prim
    (fun s fs => match fs !! p with
                 | Some _ => (Ok tt, s, remove_tree p fs)
                 | None => (Err NotFound, s, fs)
                 end)
    (fun k s fs => (s, match fs !! p with
                       | Some files =>
                           <[p := foldr delete files (take k (dir_order p (map_to_list files).*1))]> fs
                       | None => fs
                       end)).

(** [fs::rename] of a file, which replaces a file of the new name and fails on a directory. (The
    source only renames segment files; renaming a directory is not modelled and is an error
    here.) *)
Definition rename_file {S : Type} (src dst : path) : M S IoError unit :=
  atomic (fun s fs => match file_at fs src, dst with
                      | Some f, _ :: d =>
                          match fs !! d, fs !! dst with
                          | Some _, None => (Ok tt, s, put_file dst f (del_file src fs))
                          | Some _, Some _ => (Err EOther, s, fs)
                          | None, _ => (Err NotFound, s, fs)
                          end
                      | _, _ => (Err NotFound, s, fs)
                      end).

(** ** Open files *)

(** An open [File]: the file it refers to and its cursor. *)
Record Handle := mkHandle {
  h_path : path;
  h_pos : nat;
}.

(** [OpenOptions::new().read(true).write(true).create(true).truncate(false).open(p)]. *)
Definition open_rw_create {S : Type} (p : path) : M S IoError Handle :=
  atomic (fun s fs => match p with
                      | n :: d =>
                          match fs !! p, fs !! d with
                          | None, Some files =>
                              (Ok (mkHandle p 0), s,
                               match files !! n with
                               | Some _ => fs
                               | None => put_file p (mkFile [] 0) fs
                               end)
                          | _, _ => (Err NotFound, s, fs)
                          end
                      | [] => (Err EOther, s, fs)
                      end).

(** [File::set_len]: truncates, or extends with zeros. *)
Definition resize_file (len : nat) (f : File) : File :=
  mkFile (take len (f_data f) ++ replicate (len - length (f_data f)) x00) (f_synced f `min` len).

Definition set_len (len : nat) : M Handle IoError unit :=
  atomic (fun h fs => match file_at fs (h_path h) with
                      | Some f => (Ok tt, h, put_file (h_path h) (resize_file len f) fs)
                      | None => (Err NotFound, h, fs)
                      end).

(** [file.seek(SeekFrom::Start(pos))]. *)
Definition seek (pos : nat) : M Handle IoError unit :=
  atomic (fun h fs => (Ok tt, mkHandle (h_path h) pos, fs)).

(** The bytes [bs] written at the cursor; the part of the file from there on is not durable. *)
Definition write_at (pos : nat) (bs : bytes) (f : File) : File :=
  mkFile (take pos (f_data f) ++ replicate (pos - length (f_data f)) x00 ++ bs ++
          drop (pos + length bs) (f_data f))
         (f_synced f `min` pos).

Definition write_step (bs : bytes) (h : Handle) (fs : fsys) : Handle * fsys :=
  (mkHandle (h_path h) (h_pos h + length bs),
   match file_at fs (h_path h) with
   | Some f => put_file (h_path h) (write_at (h_pos h) bs f) fs
   | None => fs
   end).

(** [file.write_all(bs)]; interrupted, the first [k] bytes have been written and the cursor is
    after them. *)
Definition write_all (bs : bytes) : M Handle IoError unit :=
  prim
    (fun h fs => match file_at fs (h_path h) with
                 | Some _ => let '(h', fs') := write_step bs h fs in (Ok tt, h', fs')
                 | None => (Err NotFound, h, fs)
                 end)
    (fun k h fs => write_step (take k bs) h fs).

(** [file.sync_data()]. *)
Definition sync_data : M Handle IoError unit :=
  atomic (fun h fs => match file_at fs (h_path h) with
                      | Some f => (Ok tt, h, put_file (h_path h) (mkFile (f_data f) (length (f_data f))) fs)
                      | None => (Err NotFound, h, fs)
                      end).

(** [file.metadata()?.len()]. *)
Definition metadata_len : M Handle IoError nat :=
  atomic (fun h fs => match file_at fs (h_path h) with
                      | Some f => (Ok (length (f_data f)), h, fs)
                      | None => (Err NotFound, h, fs)
                      end).

(** [file.seek(SeekFrom::Start(pos))] and [file.read_exact(&mut buf)] on a clone of the handle. *)
Definition read_exact_at (h : Handle) (pos len : nat) {S : Type} : M S IoError bytes :=
  query (fun fs => match file_at fs (h_path h) with
                   | Some f => if decide (pos + len <= length (f_data f))
                               then Ok (slice pos (pos + len) (f_data f))
                               else Err UnexpectedEof
                   | None => Err NotFound
                   end).

(** ** Crashes *)

(** What is left of a file after a crash that lets [k] of its bytes reach the disk. *)
Definition crash_file (k : nat) (f : File) : File :=
  let data := take (f_synced f `max` k) (f_data f) in
  mkFile data (length data).

(** What a restart finds, when the crash lets [cut p] bytes of the file [p] reach the disk. *)
Definition crash_fs (cut : path -> nat) (fs : fsys) : fsys :=
  map_imap (fun d files => Some (map_imap (fun n f => Some (crash_file (cut (n :: d)) f)) files)) fs.

(** ** Program logic

    Which faults a fault plan may hold. *)
Record FaultModel := mkFaultModel {
  may_err : Prop;
  may_crash : Prop;
}.

Definition no_faults : FaultModel := mkFaultModel False False.

Definition crashes_only : FaultModel := mkFaultModel False True.

Definition any_fault : FaultModel := mkFaultModel True True.

Definition fault_ok (F : FaultModel) (f : Fault) : Prop :=
  match f with
  | FNone => True
  | FErr _ => may_err F
  | FCrash _ => may_crash F
  end.

(** [wpc F m s fs Q X C]: from the state [s] and the file system [fs], under a fault plan that
    [F] allows, the computation [m] never panics; if it returns, the result satisfies [Q]; if it
    fails, [X]; if it crashes, the file system satisfies [C]. With [F := no_faults] it is total
    correctness without faults. *)
Definition wpc (F : FaultModel) {S E A : Type} (m : M S E A) (s : S) (fs : fsys)
    (Q : A -> S -> fsys -> Prop) (X : E -> S -> fsys -> Prop) (C : fsys -> Prop) : Prop :=
  forall faults, Forall (fault_ok F) faults ->
    let '(r, s', w') := m s (mkWorld fs faults) in
    w_faults w' `suffix_of` faults /\
    match r with
    | Ok a => Q a s' (w_fs w')
    | Err e => X e s' (w_fs w')
    | Panic => False
    | Crash => C (w_fs w')
    end.

Section wpc_rules.
Context {F : FaultModel}.
Context {S E A : Type}.

Lemma wpc_mono (m : M S E A) (s : S) (fs : fsys) (Q Q' : A -> S -> fsys -> Prop)
    (X X' : E -> S -> fsys -> Prop) (C C' : fsys -> Prop) :
  wpc F m s fs Q X C ->
  (forall a s' fs', Q a s' fs' -> Q' a s' fs') ->
  (forall e s' fs', X e s' fs' -> X' e s' fs') ->
  (forall fs', C fs' -> C' fs') ->
  wpc F m s fs Q' X' C'.
Proof.
  intros H HQ HX HC faults Hf. specialize (H faults Hf).
  destruct (m s _) as [[[a|e| |] s'] w']; destruct H as [? H]; split; auto.
Qed.

Lemma wpc_ret (a : A) (s : S) (fs : fsys) (Q : A -> S -> fsys -> Prop)
    (X : E -> S -> fsys -> Prop) (C : fsys -> Prop) :
  Q a s fs -> wpc F (mret a : M S E A) s fs Q X C.
Proof. intros HQ faults Hf. by split. Qed.

Lemma wpc_bind {B : Type} (m : M S E A) (f : A -> M S E B) (s : S) (fs : fsys)
    (Q : B -> S -> fsys -> Prop) (X : E -> S -> fsys -> Prop) (C : fsys -> Prop) :
  wpc F m s fs (fun a s' fs' => wpc F (f a) s' fs' Q X C) X C ->
  wpc F (m ≫= f) s fs Q X C.
Proof.
  intros H faults Hf. specialize (H faults Hf). unfold mbind, M_bind.
  destruct (m s _) as [[[a|e| |] s'] [fs' fl]]; [|done..].
  destruct H as [Hfl H]. simpl in Hfl. specialize (H fl).
  assert (Forall (fault_ok F) fl) as Hok.
  { destruct Hfl as [k ->]. by apply Forall_app in Hf as [_ ?]. }
  specialize (H Hok). simpl in *.
  destruct (f a s' _) as [[r s''] w'']. destruct H as [Hfl' H]. split; [|done].
  by etrans.
Qed.

Lemma wpc_get_state (s : S) (fs : fsys) (Q : S -> S -> fsys -> Prop)
    (X : E -> S -> fsys -> Prop) (C : fsys -> Prop) :
  Q s s fs -> wpc F get_state s fs Q X C.
Proof. intros HQ faults Hf. by split. Qed.

Lemma wpc_modify (f : S -> S) (s : S) (fs : fsys) (Q : unit -> S -> fsys -> Prop)
    (X : E -> S -> fsys -> Prop) (C : fsys -> Prop) :
  Q tt (f s) fs -> wpc F (modify f) s fs Q X C.
Proof. intros HQ faults Hf. by split. Qed.

Lemma wpc_throw (e : E) (s : S) (fs : fsys) (Q : A -> S -> fsys -> Prop)
    (X : E -> S -> fsys -> Prop) (C : fsys -> Prop) :
  X e s fs -> wpc F (throw e) s fs Q X C.
Proof. intros HQ faults Hf. by split. Qed.

Lemma wpc_zoom {T : Type} (get : S -> T) (set : T -> S -> S) (m : M T E A) (s : S) (fs : fsys)
    (Q : A -> S -> fsys -> Prop) (X : E -> S -> fsys -> Prop) (C : fsys -> Prop) :
  wpc F m (get s) fs (fun a t fs' => Q a (set t s) fs') (fun e t fs' => X e (set t s) fs') C ->
  wpc F (zoom get set m) s fs Q X C.
Proof.
  intros H faults Hf. specialize (H faults Hf). unfold zoom.
  by destruct (m (get s) _) as [[[a|e| |] s'] w'].
Qed.

Lemma wpc_io (m : M unit E A) (s : S) (fs : fsys) (Q : A -> S -> fsys -> Prop)
    (X : E -> S -> fsys -> Prop) (C : fsys -> Prop) :
  wpc F m tt fs (fun a _ fs' => Q a s fs') (fun e _ fs' => X e s fs') C ->
  wpc F (io m) s fs Q X C.
Proof.
  intros H faults Hf. specialize (H faults Hf). unfold io, zoom.
  by destruct (m tt _) as [[[a|e| |] s'] w'].
Qed.

Lemma wpc_map_err {E1 : Type} (f : E1 -> E) (m : M S E1 A) (s : S) (fs : fsys)
    (Q : A -> S -> fsys -> Prop) (X : E -> S -> fsys -> Prop) (C : fsys -> Prop) :
  wpc F m s fs Q (fun e => X (f e)) C -> wpc F (map_err f m) s fs Q X C.
Proof.
  intros H faults Hf. specialize (H faults Hf). unfold map_err.
  by destruct (m s _) as [[[a|e| |] s'] w'].
Qed.

Lemma wpc_catch (m : M S E A) (h : E -> M S E A) (s : S) (fs : fsys)
    (Q : A -> S -> fsys -> Prop) (X : E -> S -> fsys -> Prop) (C : fsys -> Prop) :
  wpc F m s fs Q (fun e s' fs' => wpc F (h e) s' fs' Q X C) C -> wpc F (catch m h) s fs Q X C.
Proof.
  intros H faults Hf. specialize (H faults Hf). unfold catch.
  destruct (m s _) as [[[a|e| |] s'] [fs' fl]]; [done| |done..].
  destruct H as [Hfl H]. simpl in Hfl. specialize (H fl).
  assert (Forall (fault_ok F) fl) as Hok.
  { destruct Hfl as [k ->]. by apply Forall_app in Hf as [_ ?]. }
  specialize (H Hok). simpl in *.
  destruct (h e s' _) as [[r s''] w'']. destruct H as [Hfl' H]. split; [|done].
  by etrans.
Qed.

Lemma wpc_on {T : Type} (t : T) (m : M T E A) (s : S) (fs : fsys)
    (Q : A * T -> S -> fsys -> Prop) (X : E -> S -> fsys -> Prop) (C : fsys -> Prop) :
  wpc F m t fs (fun a t' fs' => Q (a, t') s fs') (fun e _ fs' => X e s fs') C ->
  wpc F (on t m) s fs Q X C.
Proof.
  intros H faults Hf. specialize (H faults Hf). unfold on.
  by destruct (m t _) as [[[a|e| |] t'] w'].
Qed.

(** The rule of a primitive: its complete effect, and under faults each of its partial effects,
    as a failure and as a crash. *)
Lemma wpc_prim (full : S -> fsys -> Res IoError A * S * fsys)
    (partial : nat -> S -> fsys -> S * fsys) (s : S) (fs : fsys) (Q : A -> S -> fsys -> Prop)
    (X : IoError -> S -> fsys -> Prop) (C : fsys -> Prop) :
  (match full s fs with
   | (Ok a, s', fs') => Q a s' fs'
   | (Err e, s', fs') => X e s' fs'
   | _ => False
   end) ->
  (may_err F -> forall k, X EOther (partial k s fs).1 (partial k s fs).2) ->
  (may_crash F -> forall k, C (partial k s fs).2) ->
  wpc F (prim full partial) s fs Q X C.
Proof.
  intros HQ HX HC faults Hf. unfold prim. simpl.
  assert (forall fl, fl `suffix_of` faults ->
    let '(r, s', w') := (let '(r, s', fs') := full s fs in (r, s', mkWorld fs' fl)) in
    w_faults w' `suffix_of` faults /\
    match r with Ok a => Q a s' (w_fs w') | Err e => X e s' (w_fs w') | Panic => False
    | Crash => C (w_fs w') end) as Hrun.
  { intros fl Hfl. destruct (full s fs) as [[[a|e| |] s'] fs']; simpl; done. }
  destruct Hf as [|[|k|k] fl Hf1 Hf]; [by apply Hrun|by apply Hrun, suffix_cons_r|..]; simpl in Hf1.
  - specialize (HX Hf1 k). destruct (partial k s fs) as [s' fs'].
    split; [by apply suffix_cons_r|done].
  - specialize (HC Hf1 k). destruct (partial k s fs) as [s' fs'].
    split; [by apply suffix_cons_r|done].
Qed.

Lemma wpc_atomic (full : S -> fsys -> Res IoError A * S * fsys) (s : S) (fs : fsys)
    (Q : A -> S -> fsys -> Prop) (X : IoError -> S -> fsys -> Prop) (C : fsys -> Prop) :
  (match full s fs with
   | (Ok a, s', fs') => Q a s' fs'
   | (Err e, s', fs') => X e s' fs'
   | _ => False
   end) ->
  (may_err F -> X EOther s fs) -> (may_crash F -> C fs) ->
  wpc F (atomic full) s fs Q X C.
Proof. intros. apply wpc_prim; simpl; auto. Qed.

Lemma wpc_path_exists (p : path) (s : S) (fs : fsys) (Q : bool -> S -> fsys -> Prop)
    (X : E -> S -> fsys -> Prop) (C : fsys -> Prop) :
  Q (bool_decide (is_Some (fs !! p) \/ is_Some (file_at fs p))) s fs ->
  (may_err F -> Q false s fs) -> (may_crash F -> C fs) ->
  wpc F (path_exists p) s fs Q X C.
Proof.
  intros HQ HX HC faults Hf. unfold path_exists.
  destruct Hf as [|[|k|k] fl Hf1 Hf]; simpl in *; split; auto using suffix_cons_r.
Qed.

(** Without faults, a computation whose failures all need a fault returns a result. *)
Lemma wpc_no_fault (m : M S E A) (s : S) (fs : fsys) (Q : A -> S -> fsys -> Prop)
    (X : E -> S -> fsys -> Prop) (C : fsys -> Prop) :
  wpc F m s fs Q X C -> (forall e s' fs', ~ X e s' fs') -> (forall fs', ~ C fs') ->
  exists a s' fs', m s (mkWorld fs []) = (Ok a, s', mkWorld fs' []) /\ Q a s' fs'.
Proof.
  intros H HX HC. specialize (H [] ltac:(constructor)).
  destruct (m s _) as [[[a|e| |] s'] [fs' fl]]; simpl in *; destruct H as [Hf H]; try done.
  - apply suffix_nil_inv in Hf as ->. eauto.
  - by apply HX in H.
  - by apply HC in H.
Qed.
End wpc_rules.

(** One step of a sequence: the rule of the bind and of the structural computations. *)
Ltac wpc_step :=
  lazymatch goal with
  | |- wpc _ (mbind _ _) _ _ _ _ _ => apply wpc_bind
  | |- wpc _ (mret _) _ _ _ _ _ => apply wpc_ret
  | |- wpc _ get_state _ _ _ _ _ => apply wpc_get_state
  | |- wpc _ (modify _) _ _ _ _ _ => apply wpc_modify
  | |- wpc _ (throw _) _ _ _ _ _ => apply wpc_throw
  | |- wpc _ (zoom _ _ _) _ _ _ _ _ => apply wpc_zoom
  | |- wpc _ (io _) _ _ _ _ _ => apply wpc_io
  | |- wpc _ (map_err _ _) _ _ _ _ _ => apply wpc_map_err
  | |- wpc _ (on _ _) _ _ _ _ _ => apply wpc_on
  | |- wpc _ (catch _ _) _ _ _ _ _ => apply wpc_catch
  end.

Ltac wpc_steps := repeat (wpc_step; simpl).

(** ** Lemmas on the file system *)

Lemma file_at_put_eq (fs : fsys) (p : path) (f : File) :
  is_Some (file_at fs p) -> file_at (put_file p f fs) p = Some f.
Proof.
  destruct p as [|n d]; simpl; [by intros [? ?]|].
  rewrite lookup_alter_eq. destruct (fs !! d) as [files|]; simpl; [|by intros [? ?]].
  intros _. apply lookup_insert_eq.
Qed.

Lemma file_at_put_ne (fs : fsys) (p q : path) (f : File) :
  p <> q -> file_at (put_file p f fs) q = file_at fs q.
Proof.
  intros Hne. destruct p as [|n d]; [done|]. destruct q as [|n' d']; [done|]. simpl.
  destruct (decide (d = d')) as [<-|]; [|by rewrite lookup_alter_ne].
  rewrite lookup_alter_eq. destruct (fs !! d) as [files|]; simpl; [|done].
  apply lookup_insert_ne. congruence.
Qed.

Lemma put_file_put (fs : fsys) (p : path) (f f' : File) :
  put_file p f (put_file p f' fs) = put_file p f fs.
Proof.
  destruct p as [|n d]; simpl; [done|]. rewrite alter_alter_eq.
  apply alter_ext. intros files _. apply insert_insert_eq.
Qed.

Lemma put_file_id (fs : fsys) (p : path) (f : File) :
  file_at fs p = Some f -> put_file p f fs = fs.
Proof.
  destruct p as [|n d]; simpl; [done|]. destruct (fs !! d) as [files|] eqn:Hd; simpl; [|done].
  intros Hf. apply map_eq. intros d'. destruct (decide (d = d')) as [<-|].
  - rewrite lookup_alter_eq, Hd. simpl. by rewrite insert_id.
  - by rewrite lookup_alter_ne.
Qed.

Lemma put_file_dir (fs : fsys) (n : bytes) (d : path) (f : File) (files : gmap bytes File) :
  fs !! d = Some files -> put_file (n :: d) f fs !! d = Some (<[n := f]> files).
Proof. simpl. rewrite lookup_alter_eq. by intros ->. Qed.

Lemma put_file_dir_ne (fs : fsys) (n : bytes) (d d' : path) (f : File) :
  d <> d' -> put_file (n :: d) f fs !! d' = fs !! d'.
Proof. simpl. intros. by apply lookup_alter_ne. Qed.

#[global] Arguments put_file p f fs : simpl never.
#[global] Arguments file_at fs p : simpl never.
#[global] Arguments del_file p fs : simpl never.

(** A concrete directory order, for the examples: the order of the finite map. *)
Definition map_order : DirOrder := {| dir_order := fun _ l => l; dir_order_perm := fun _ _ => reflexivity _ |}.

(** The file system of a fresh machine: the root directory, empty. *)
Definition empty_fs : fsys := {[ [] := ∅ ]}.
