(* ===== verification/Frame.v ===== *)
(** * Frame: what a computation leaves alone, however it ends

    [keeps I P R m]: from a state in [I] and a file system in [P], the computation [m] ends with a
    state in [I] and a file system in [P], whether it returns (a value in [R]), fails, panics or
    crashes, under any plan of faults. The rules for the combinators of the monad, and the
    primitives of [Fs] confined to the files below a directory. *)
From S2P Require Export Fs.

Definition keeps {S E A : Type} (I : S -> Prop) (P : fsys -> Prop) (R : A -> Prop) (m : M S E A) : Prop :=
  forall s w, I s -> P (w_fs w) ->
    I (m s w).1.2 /\ P (w_fs (m s w).2) /\ forall a, (m s w).1.1 = Ok a -> R a.

(** No state to keep, no value to describe. *)
Abbreviation any := (fun _ => True).

Create HintDb frame.

Section combinators.
Context {S E : Type} (I : S -> Prop) (P : fsys -> Prop).

Lemma keeps_weaken {A : Type} (R R' : A -> Prop) (m : M S E A) :
  keeps I P R m -> (forall a, R a -> R' a) -> keeps I P R' m.
Proof.
  intros Hm HR s w Hs Hw. destruct (Hm s w Hs Hw) as (H1 & H2 & H3). split; [done|]. split; [done|].
  intros a Ha. by apply HR, H3.
Qed.

Lemma keeps_any {A : Type} (R : A -> Prop) (m : M S E A) : keeps I P R m -> keeps I P any m.
Proof. intros Hm. by eapply keeps_weaken. Qed.

Lemma keeps_ret {A : Type} (R : A -> Prop) (a : A) : R a -> keeps I P R (mret a : M S E A).
Proof. intros HR s w Hs Hw. split; [done|]. split; [done|]. by intros a' [= <-]. Qed.

Lemma keeps_bind {A B : Type} (R1 : A -> Prop) (R : B -> Prop) (m : M S E A) (f : A -> M S E B) :
  keeps I P R1 m -> (forall a, R1 a -> keeps I P R (f a)) -> keeps I P R (m ≫= f).
Proof.
  intros Hm Hf s w Hs Hw. destruct (Hm s w Hs Hw) as (H1 & H2 & H3). unfold mbind, M_bind.
  destruct (m s w) as [[[a|e| |] s'] w']; cbn [fst snd] in *; [|by split_and!..].
  by apply Hf; [apply H3| |].
Qed.

Lemma keeps_get_state : keeps I P I (get_state : M S E S).
Proof. intros s w Hs Hw. split; [done|]. split; [done|]. by intros a [= <-]. Qed.

Lemma keeps_modify (R : unit -> Prop) (f : S -> S) :
  (forall s, I s -> I (f s)) -> R tt -> keeps I P R (modify f : M S E unit).
Proof. intros Hf HR s w Hs Hw. split; [by apply Hf|]. split; [done|]. by intros [] _. Qed.

Lemma keeps_throw {A : Type} (R : A -> Prop) (e : E) : keeps I P R (throw e : M S E A).
Proof. by intros s w Hs Hw. Qed.

Lemma keeps_panic {A : Type} (R : A -> Prop) : keeps I P R (panic : M S E A).
Proof. by intros s w Hs Hw. Qed.

Lemma keeps_zoom {T A : Type} (J : T -> Prop) (R : A -> Prop) (get : S -> T) (set : T -> S -> S) (m : M T E A) :
  keeps J P R m -> (forall s, I s -> J (get s)) -> (forall s t, I s -> J t -> I (set t s)) ->
  keeps I P R (zoom get set m).
Proof.
  intros Hm Hg Hset s w Hs Hw. destruct (Hm (get s) w (Hg s Hs) Hw) as (H1 & H2 & H3). unfold zoom.
  destruct (m (get s) w) as [[r t] w']; cbn [fst snd] in *. split; [by apply Hset|done].
Qed.

Lemma keeps_io {A : Type} (R : A -> Prop) (m : M unit E A) : keeps any P R m -> keeps I P R (io m : M S E A).
Proof. intros Hm. by eapply keeps_zoom. Qed.

Lemma keeps_map_err {E1 A : Type} (R : A -> Prop) (f : E1 -> E) (m : M S E1 A) :
  keeps I P R m -> keeps I P R (map_err f m).
Proof.
  intros Hm s w Hs Hw. destruct (Hm s w Hs Hw) as (H1 & H2 & H3). unfold map_err.
  destruct (m s w) as [[[a|e| |] s'] w']; cbn [fst snd] in *; split_and!; try done.
  intros a' [= <-]. by apply H3.
Qed.

Lemma keeps_catch {A : Type} (R : A -> Prop) (m : M S E A) (h : E -> M S E A) :
  keeps I P R m -> (forall e, keeps I P R (h e)) -> keeps I P R (catch m h).
Proof.
  intros Hm Hh s w Hs Hw. destruct (Hm s w Hs Hw) as (H1 & H2 & H3). unfold catch.
  destruct (m s w) as [[[a|e| |] s'] w']; cbn [fst snd] in *; [by split_and!|by apply Hh|by split_and!..].
Qed.

Lemma keeps_on {T A : Type} (J : T -> Prop) (R : A -> Prop) (t : T) (m : M T E A) :
  J t -> keeps J P R m -> keeps I P (fun at' => R at'.1 /\ J at'.2) (on t m : M S E _).
Proof.
  intros Ht Hm s w Hs Hw. destruct (Hm t w Ht Hw) as (H1 & H2 & H3). unfold on.
  destruct (m t w) as [[[a|e| |] s'] w']; cbn [fst snd] in *; split_and!; try done.
  intros a' [= <-]. split; [by apply H3|done].
Qed.

Lemma keeps_for_each {A : Type} (f : A -> M S E unit) (l : list A) :
  (forall a, a ∈ l -> keeps I P any (f a)) -> keeps I P any (for_each f l).
Proof.
  intros Hf. induction l as [|a l IH]; [by apply keeps_ret|]. apply (keeps_bind any); [apply Hf; left|].
  intros _ _. apply IH. intros b Hb. apply Hf. by right.
Qed.

End combinators.

(** ** Primitives *)

Section primitives.
Context {S : Type} (I : S -> Prop) (P : fsys -> Prop).

(** A primitive keeps what its complete and its partial effects keep. *)
Lemma keeps_prim {A : Type} (R : A -> Prop) (full : S -> fsys -> Res IoError A * S * fsys)
    (partial : nat -> S -> fsys -> S * fsys) :
  (forall s fs, I s -> P fs -> I (full s fs).1.2 /\ P (full s fs).2 /\ forall a, (full s fs).1.1 = Ok a -> R a) ->
  (forall k s fs, I s -> P fs -> I (partial k s fs).1 /\ P (partial k s fs).2) ->
  keeps I P R (prim full partial).
Proof.
  intros Hf Hp s [fs fl] Hs Hw. simpl in Hw. specialize (Hf s fs Hs Hw). unfold prim. simpl.
  destruct fl as [|[|k|k] fl]; simpl.
  1, 2: by destruct (full s fs) as [[r s'] fs'].
  all: specialize (Hp k s fs Hs Hw); destruct (partial k s fs) as [s' fs']; by destruct Hp.
Qed.

Lemma keeps_atomic {A : Type} (R : A -> Prop) (full : S -> fsys -> Res IoError A * S * fsys) :
  (forall s fs, I s -> P fs -> I (full s fs).1.2 /\ P (full s fs).2 /\ forall a, (full s fs).1.1 = Ok a -> R a) ->
  keeps I P R (atomic full).
Proof. intros Hf. by apply keeps_prim. Qed.

Lemma keeps_query {A : Type} (f : fsys -> Res IoError A) : keeps I P any (query f : M S IoError A).
Proof. by apply keeps_atomic. Qed.

Lemma keeps_path_exists {E : Type} (p : path) : keeps I P any (path_exists p : M S E bool).
Proof.
  intros s w Hs Hw. unfold path_exists.
  destruct (keeps_query (fun fs => Ok (bool_decide (is_Some (fs !! p) \/ is_Some (file_at fs p)))) s w Hs Hw)
    as (H1 & H2 & _).
  by destruct (query _ s w) as [[[a|e| |] s'] w'].
Qed.
End primitives.

#[export] Hint Resolve keeps_get_state keeps_throw keeps_panic keeps_query keeps_path_exists : frame.

(** ** In the program logic *)

Lemma wpc_keeps {F : FaultModel} {S E A : Type} (I : S -> Prop) (P : fsys -> Prop) (R : A -> Prop)
    (m : M S E A) (s : S) (fs : fsys) (Q : A -> S -> fsys -> Prop) (X : E -> S -> fsys -> Prop) (C : fsys -> Prop) :
  keeps I P R m -> I s -> P fs -> wpc F m s fs Q X C ->
  wpc F m s fs (fun a s' fs' => Q a s' fs' /\ I s' /\ P fs' /\ R a)
    (fun e s' fs' => X e s' fs' /\ I s' /\ P fs') (fun fs' => C fs' /\ P fs').
Proof.
  intros Hk Hs Hp Hw faults Hf. specialize (Hw faults Hf). destruct (Hk s (mkWorld fs faults) Hs Hp) as (H1 & H2 & H3).
  destruct (m s _) as [[[a|e| |] s'] w']; simpl in *; destruct Hw; repeat split; try done. by apply H3.
Qed.
