(* ===== verification/LogRecord.v ===== *)
(** * LogRecord: the on-disk record format

    Models [crates/storage/src/record.rs]: the record type, its encoder and its total decoder, and
    proves that they are inverse to each other, that a truncated record is never decoded, and what
    the 32-bit length fields do to an oversized payload. *)
From S2P Require Export Bytes.

(** [crc32fast::hash], code outside of the repository: a function from byte strings to [u32]. *)
Class Crc32 := {
  crc32 : bytes -> Z;
  crc32_range : forall bs, (0 <= crc32 bs < 2 ^ 32)%Z;
}.

(** What CRC-32 is documented to detect and the tests of the repository rely on: a change of a
    single byte. *)
Class Crc32Detects `{Crc32} : Prop :=
  crc32_detects : forall pre x y post, x <> y ->
    crc32 (pre ++ x :: post) <> crc32 (pre ++ y :: post).

Definition HEADER_LEN : nat := 21.

Inductive RecordType := Put | Delete.

(** [struct Record]. *)
Record LogRecord := mkLogRecord {
  record_type : RecordType;
  seq : Z;
  key : bytes;
  value : bytes;
}.

#[global] Instance RecordType_eq_decision : EqDecision RecordType.
Proof. solve_decision. Defined.

#[global] Instance LogRecord_eq_decision : EqDecision LogRecord.
Proof. solve_decision. Defined.

(** [Record::put] and [Record::delete]. *)
Definition record_put (seq : Z) (key value : bytes) : LogRecord := mkLogRecord Put seq key value.

Definition record_delete (seq : Z) (key : bytes) : LogRecord := mkLogRecord Delete seq key [].

Definition encoded_len (r : LogRecord) : nat := HEADER_LEN + length (key r) + length (value r).

(** [x.len() as u32], little-endian. *)
Definition len_u32 (l : bytes) : bytes := le_bytes 4 (u32 (Z.of_nat (length l))).

Definition checksum_input (record_type : byte) (seq : Z) (key value : bytes) : bytes :=
  [record_type] ++ le_bytes 8 seq ++ len_u32 key ++ len_u32 value ++ key ++ value.

Definition record_type_byte (t : RecordType) : byte :=
  match t with
  | Put => x00
  | Delete => x01
  end.

Definition encode `{Crc32} (r : LogRecord) : bytes :=
  let record_type := record_type_byte (record_type r) in
  let crc := crc32 (checksum_input record_type (seq r) (key r) (value r)) in
  [record_type] ++ le_bytes 8 (seq r) ++ len_u32 (key r) ++ len_u32 (value r) ++
  le_bytes 4 crc ++ key r ++ value r.

Inductive DecodeOutcome :=
| DecodeOk (r : LogRecord) (len : nat)
| Incomplete
| ChecksumMismatch.

Definition decode `{Crc32} (buf : bytes) : DecodeOutcome :=
  if decide (length buf < HEADER_LEN) then Incomplete
  else
    let record_type_byte := default x00 (buf !! 0) in
    let seq := le_val (slice 1 9 buf) in
    let key_len := le_val (slice 9 13 buf) in
    let value_len := le_val (slice 13 17 buf) in
    let stored_crc := le_val (slice 17 21 buf) in
    let total_len := (Z.of_nat HEADER_LEN + key_len + value_len)%Z in
    if decide (Z.of_nat (length buf) < total_len)%Z then Incomplete
    else
      let key := slice HEADER_LEN (HEADER_LEN + Z.to_nat key_len) buf in
      let value := slice (HEADER_LEN + Z.to_nat key_len) (Z.to_nat total_len) buf in
      let computed_crc := crc32 (checksum_input record_type_byte seq key value) in
      if negb (computed_crc =? stored_crc)%Z then ChecksumMismatch
      else
        match record_type_byte with
        | x00 => DecodeOk (mkLogRecord Put seq key value) (Z.to_nat total_len)
        | x01 => DecodeOk (mkLogRecord Delete seq key value) (Z.to_nat total_len)
        | _ => ChecksumMismatch
        end.

(** ** Well-formed records

    The records the format can represent: the sequence number is a [u64] and the lengths fit their
    32-bit fields. *)
Definition wf_record (r : LogRecord) : Prop :=
  in_u64 (seq r) /\
  (Z.of_nat (length (key r)) < 2 ^ 32)%Z /\
  (Z.of_nat (length (value r)) < 2 ^ 32)%Z.

#[global] Instance wf_record_dec (r : LogRecord) : Decision (wf_record r).
Proof. unfold wf_record, in_u64. solve_decision. Defined.

(** The bytes of a sequence of records, as a segment file holds them. *)
Definition encode_all `{Crc32} (rs : list LogRecord) : bytes := concat (encode <$> rs).

#[global] Arguments encode {_} r : simpl never.
#[global] Arguments decode {_} buf : simpl never.
#[global] Arguments encode_all {_} rs : simpl never.
#[global] Arguments encoded_len r : simpl never.

(** A concrete checksum, for the examples: the sum of the bytes. It detects a change of a single
    byte. *)
Definition byte_sum (bs : bytes) : Z := foldr (fun b z => (byte_to_Z b + z) `mod` 2 ^ 32)%Z 0%Z bs.

Lemma byte_sum_range (bs : bytes) : (0 <= byte_sum bs < 2 ^ 32)%Z.
Proof. destruct bs; simpl; [lia|]. apply Z.mod_pos_bound. lia. Qed.

Definition sum_crc32 : Crc32 := {| crc32 := byte_sum; crc32_range := byte_sum_range |}.

Section record_lemmas.
Context `{Crc32}.

(** ** The layout of a record *)

(** The two outcomes of the final test on the type byte. *)
Definition decode_type (t : byte) (seq : Z) (key value : bytes) (len : nat) : DecodeOutcome :=
  match t with
  | x00 => DecodeOk (mkLogRecord Put seq key value) len
  | x01 => DecodeOk (mkLogRecord Delete seq key value) len
  | _ => ChecksumMismatch
  end.

Lemma decode_short (buf : bytes) : length buf < HEADER_LEN -> decode buf = Incomplete.
Proof. intros. unfold decode. by rewrite decide_True. Qed.

(** [decode] on a buffer whose header is split into its fields. *)
Lemma decode_layout (t : byte) (s kl vl c rest : bytes) :
  length s = 8 -> length kl = 4 -> length vl = 4 -> length c = 4 ->
  let K := Z.to_nat (le_val kl) in
  let V := Z.to_nat (le_val vl) in
  let ky := take K rest in
  let vy := take V (drop K rest) in
  decode ([t] ++ s ++ kl ++ vl ++ c ++ rest) =
    if decide (length rest < K + V) then Incomplete
    else if negb (crc32 (checksum_input t (le_val s) ky vy) =? le_val c)%Z then ChecksumMismatch
    else decode_type t (le_val s) ky vy (HEADER_LEN + K + V).
Proof.
  intros Hs Hk Hv Hc K V ky vy. unfold decode.
  pose proof (le_val_range kl). pose proof (le_val_range vl).
  set (buf := [t] ++ s ++ kl ++ vl ++ c ++ rest).
  assert (length buf = HEADER_LEN + length rest) as Hlen.
  { unfold buf, HEADER_LEN. rewrite !length_app. simpl. lia. }
  rewrite decide_False by (unfold HEADER_LEN in *; lia).
  assert (slice 1 9 buf = s) as -> by (apply slice_app_mid; simpl; lia).
  assert (slice 9 13 buf = kl) as ->.
  { unfold buf. rewrite (app_assoc [t]). apply slice_app_mid; rewrite length_app; simpl; lia. }
  assert (slice 13 17 buf = vl) as ->.
  { unfold buf. rewrite (app_assoc [t]), (app_assoc _ kl).
    apply slice_app_mid; rewrite !length_app; simpl; lia. }
  assert (slice 17 21 buf = c) as ->.
  { unfold buf. rewrite (app_assoc [t]), (app_assoc _ kl), (app_assoc _ vl).
    apply slice_app_mid; rewrite !length_app; simpl; lia. }
  assert (forall lo hi, HEADER_LEN <= lo ->
    slice lo hi buf = slice (lo - HEADER_LEN) (hi - HEADER_LEN) rest) as Hrest.
  { intros lo hi Hlo. unfold buf. rewrite !app_assoc.
    rewrite slice_app_ge; rewrite !length_app; simpl; unfold HEADER_LEN in *;
      [do 2 f_equal; lia|lia]. }
  rewrite !Hrest by lia. rewrite Hlen.
  replace (Z.to_nat (Z.of_nat HEADER_LEN + le_val kl + le_val vl)) with (HEADER_LEN + K + V)
    by (unfold K, V; lia).
  fold K. replace (slice _ _ rest) with ky
    by (unfold ky, slice; rewrite Nat.sub_diag, drop_0; f_equal; lia).
  replace (slice _ _ rest) with vy
    by (unfold vy, slice; f_equal; [lia|f_equal; lia]).
  change (default x00 (buf !! 0)) with t.
  destruct (decide (length rest < K + V)).
  - by rewrite decide_True by (unfold K, V in *; lia).
  - by rewrite decide_False by (unfold K, V in *; lia).
Qed.

Lemma split_header (buf : bytes) :
  HEADER_LEN <= length buf ->
  exists t s kl vl c rest, buf = [t] ++ s ++ kl ++ vl ++ c ++ rest /\
    length s = 8 /\ length kl = 4 /\ length vl = 4 /\ length c = 4.
Proof.
  unfold HEADER_LEN. intros Hl.
  destruct buf as [|t buf]; simpl in Hl; [lia|].
  destruct (split_at 8 buf) as (s & b1 & -> & Hs); [lia|]. rewrite length_app in Hl.
  destruct (split_at 4 b1) as (kl & b2 & -> & Hk); [lia|]. rewrite length_app in Hl.
  destruct (split_at 4 b2) as (vl & b3 & -> & Hv); [lia|]. rewrite length_app in Hl.
  destruct (split_at 4 b3) as (c & rest & -> & Hc); [lia|].
  by exists t, s, kl, vl, c, rest.
Qed.

Lemma length_len_u32 (l : bytes) : length (len_u32 l) = 4.
Proof. apply length_le_bytes. Qed.

Lemma le_val_len_u32 (l : bytes) : le_val (len_u32 l) = u32 (Z.of_nat (length l)).
Proof.
  unfold len_u32. apply le_val_bytes_small. change (256 ^ Z.of_nat 4)%Z with (2 ^ 32)%Z.
  unfold u32. apply Z.mod_pos_bound. lia.
Qed.

Lemma le_val_crc (bs : bytes) : le_val (le_bytes 4 (crc32 bs)) = crc32 bs.
Proof. apply (le_val_bytes_small 4). apply crc32_range. Qed.

Lemma le_val_u64 (z : Z) : in_u64 z -> le_val (le_bytes 8 z) = z.
Proof. apply (le_val_bytes_small 8). Qed.

Lemma length_encode (r : LogRecord) : length (encode r) = encoded_len r.
Proof.
  unfold encode, encoded_len, HEADER_LEN.
  rewrite !length_app, !length_le_bytes, !length_len_u32. simpl. lia.
Qed.

Lemma decode_type_byte (r : LogRecord) (len : nat) :
  decode_type (record_type_byte (record_type r)) (seq r) (key r) (value r) len = DecodeOk r len.
Proof. by destruct r as [[] s k v]. Qed.

(** ** Round trip and truncation *)

Lemma decode_encode_app (r : LogRecord) (rest : bytes) :
  wf_record r -> decode (encode r ++ rest) = DecodeOk r (encoded_len r).
Proof.
  intros (Hs & Hk & Hv). unfold encode. rewrite <-!app_assoc.
  rewrite decode_layout by (by rewrite ?length_le_bytes, ?length_len_u32).
  rewrite !le_val_len_u32, le_val_crc, le_val_u64, !u32_small, !Nat2Z.id by (done || lia).
  rewrite take_app_length, drop_app_length, take_app_length.
  rewrite decide_False by (rewrite !length_app; lia).
  rewrite Z.eqb_refl. simpl negb. cbv iota. by rewrite decode_type_byte.
Qed.

Lemma decode_encode_truncated (r : LogRecord) (n : nat) :
  wf_record r -> n < encoded_len r -> decode (take n (encode r)) = Incomplete.
Proof.
  intros (Hs & Hk & Hv) Hn. destruct (decide (n < HEADER_LEN)) as [Hlt|Hge].
  { apply decode_short. rewrite length_take. lia. }
  set (hd := [record_type_byte (record_type r)] ++ le_bytes 8 (seq r) ++ len_u32 (key r) ++
    len_u32 (value r) ++ le_bytes 4 (crc32 (checksum_input (record_type_byte (record_type r))
    (seq r) (key r) (value r)))).
  assert (encode r = hd ++ (key r ++ value r)) as ->.
  { unfold encode, hd. by rewrite <-!app_assoc. }
  assert (length hd = HEADER_LEN) as Hhd.
  { unfold hd. by rewrite !length_app, !length_le_bytes, !length_len_u32. }
  rewrite take_app_ge, Hhd by lia. unfold hd. rewrite <-!app_assoc.
  rewrite decode_layout by (by rewrite ?length_le_bytes, ?length_len_u32).
  rewrite !le_val_len_u32, !u32_small, !Nat2Z.id by lia.
  rewrite decide_True; [done|].
  rewrite length_take, length_app. unfold encoded_len, HEADER_LEN in *. lia.
Qed.

(** Whatever decodes is the encoding of what it decodes to. *)
Lemma decode_sound (buf : bytes) (r : LogRecord) (len : nat) :
  decode buf = DecodeOk r len ->
  wf_record r /\ len = encoded_len r /\ exists rest, buf = encode r ++ rest.
Proof.
  intros Hd. destruct (decide (length buf < HEADER_LEN)) as [Hlt|Hge].
  { by rewrite decode_short in Hd. }
  destruct (split_header buf) as (t & s & kl & vl & c & rest & -> & Hs & Hk & Hv & Hc); [lia|].
  rewrite decode_layout in Hd by done.
  pose proof (le_val_range kl) as Hkr. pose proof (le_val_range vl) as Hvr.
  pose proof (le_val_range s) as Hsr. rewrite Hk in Hkr. rewrite Hv in Hvr. rewrite Hs in Hsr.
  destruct (decide _) as [|Hlen]; [done|].
  destruct (Z.eqb_spec (crc32 (checksum_input t (le_val s) (take (Z.to_nat (le_val kl)) rest)
    (take (Z.to_nat (le_val vl)) (drop (Z.to_nat (le_val kl)) rest)))) (le_val c)) as [Hcrc|];
    [|done]. simpl negb in Hd. cbv iota in Hd.
  set (K := Z.to_nat (le_val kl)) in *. set (V := Z.to_nat (le_val vl)) in *.
  assert (exists ty, t = record_type_byte ty /\
    r = mkLogRecord ty (le_val s) (take K rest) (take V (drop K rest)) /\
    len = HEADER_LEN + K + V) as (ty & -> & -> & ->).
  { unfold decode_type in Hd. destruct t; try done; injection Hd as <- <-.
    - by exists Put.
    - by exists Delete. }
  assert (length (take K rest) = K) as HK by (rewrite length_take; lia).
  assert (length (take V (drop K rest)) = V) as HV by (rewrite length_take, length_drop; lia).
  assert (Z.of_nat K = le_val kl) as HKz by lia. assert (Z.of_nat V = le_val vl) as HVz by lia.
  change (256 ^ Z.of_nat 4)%Z with (2 ^ 32)%Z in Hkr, Hvr.
  change (256 ^ Z.of_nat 8)%Z with (2 ^ 64)%Z in Hsr.
  split; [|split].
  - unfold wf_record, in_u64. simpl. rewrite HK, HV. lia.
  - unfold encoded_len. simpl. lia.
  - exists (drop V (drop K rest)). unfold encode, len_u32. simpl key. simpl value. simpl seq.
    simpl record_type. rewrite HK, HV, HKz, HVz, !u32_small by lia.
    rewrite Hcrc, !le_bytes_val_n by done. rewrite <-!app_assoc. by rewrite !take_drop.
Qed.

Lemma encoded_len_pos (r : LogRecord) : HEADER_LEN <= encoded_len r.
Proof. unfold encoded_len. lia. Qed.

(** A buffer has at most one decoding: records are self-delimiting. *)
Lemma encode_inj_app (r1 r2 : LogRecord) (b1 b2 : bytes) :
  wf_record r1 -> wf_record r2 -> encode r1 ++ b1 = encode r2 ++ b2 -> r1 = r2 /\ b1 = b2.
Proof.
  intros H1 H2 Heq. pose proof (decode_encode_app r1 b1 H1) as D1.
  rewrite Heq, decode_encode_app in D1 by done. injection D1 as -> _. split; [done|].
  by apply app_inv_head in Heq.
Qed.

Lemma encode_all_app (rs1 rs2 : list LogRecord) :
  encode_all (rs1 ++ rs2) = encode_all rs1 ++ encode_all rs2.
Proof. unfold encode_all. by rewrite fmap_app, concat_app. Qed.

Lemma encode_all_cons (r : LogRecord) (rs : list LogRecord) :
  encode_all (r :: rs) = encode r ++ encode_all rs.
Proof. done. Qed.

Lemma encode_all_nil : encode_all [] = [].
Proof. done. Qed.
End record_lemmas.

#[export] Hint Rewrite @length_encode @encode_all_app @encode_all_cons @encode_all_nil : vault_rew.

(** ** Records of any size *)

(** What the header of [encode r] says of the payload of [r]: the record that the lengths modulo
    2^32 cut out of it. *)
Definition truncated_record (r : LogRecord) : LogRecord :=
  let payload := key r ++ value r in
  let K := Z.to_nat (u32 (Z.of_nat (length (key r)))) in
  let V := Z.to_nat (u32 (Z.of_nat (length (value r)))) in
  mkLogRecord (record_type r) (seq r) (take K payload) (take V (drop K payload)).

Lemma u32_le (n : nat) : Z.to_nat (u32 (Z.of_nat n)) <= n.
Proof. unfold u32. pose proof (Z.mod_le (Z.of_nat n) (2 ^ 32)). lia. Qed.

Lemma length_truncated_record (r : LogRecord) :
  Z.of_nat (length (key (truncated_record r))) = u32 (Z.of_nat (length (key r))) /\
  Z.of_nat (length (value (truncated_record r))) = u32 (Z.of_nat (length (value r))).
Proof.
  pose proof (u32_le (length (key r))). pose proof (u32_le (length (value r))).
  pose proof (Z.mod_pos_bound (Z.of_nat (length (key r))) (2 ^ 32) ltac:(lia)).
  pose proof (Z.mod_pos_bound (Z.of_nat (length (value r))) (2 ^ 32) ltac:(lia)).
  unfold truncated_record, u32 in *. cbn [key value].
  rewrite !length_take, length_drop, !length_app. lia.
Qed.

Lemma truncated_record_prefix (r : LogRecord) :
  key (truncated_record r) ++ value (truncated_record r) `prefix_of` key r ++ value r.
Proof.
  unfold truncated_record. cbn [key value]. rewrite take_take_drop. apply prefix_take.
Qed.

Lemma truncated_record_wf (r : LogRecord) : wf_record r -> truncated_record r = r.
Proof.
  intros (_ & Hk & Hv). unfold truncated_record. rewrite !u32_small, !Nat2Z.id by lia.
  rewrite take_app_length, drop_app_length, firstn_all. by destruct r.
Qed.

Lemma truncated_record_key (r : LogRecord) :
  (Z.of_nat (length (key r)) < 2 ^ 32)%Z -> key (truncated_record r) = key r.
Proof.
  intros Hk. simpl. rewrite u32_small, Nat2Z.id by lia. apply take_app_length.
Qed.

Lemma u32_wraps (n : nat) :
  (2 ^ 32 <= Z.of_nat n -> u32 (Z.of_nat n) + 2 ^ 32 <= Z.of_nat n)%Z.
Proof.
  intros Hn. unfold u32. pose proof (Z.div_mod (Z.of_nat n) (2 ^ 32) ltac:(lia)).
  pose proof (Z.div_le_lower_bound (Z.of_nat n) (2 ^ 32) 1). lia.
Qed.

Lemma truncated_record_shorter (r : LogRecord) :
  in_u64 (seq r) -> ~ wf_record r ->
  (Z.of_nat (encoded_len (truncated_record r)) + 2 ^ 32 <= Z.of_nat (encoded_len r))%Z.
Proof.
  intros Hs Hwf. destruct (length_truncated_record r) as [HK HV].
  pose proof (u32_le (length (key r))). pose proof (u32_le (length (value r))).
  unfold encoded_len. destruct (decide (Z.of_nat (length (key r)) < 2 ^ 32)%Z) as [Hk|Hk].
  - destruct (decide (Z.of_nat (length (value r)) < 2 ^ 32)%Z) as [Hv|Hv]; [by destruct Hwf|].
    pose proof (u32_wraps (length (value r))). lia.
  - pose proof (u32_wraps (length (key r))). lia.
Qed.

Lemma decode_encode_cut `{Crc32} (r : LogRecord) (rest : bytes) :
  in_u64 (seq r) ->
  let cut := truncated_record r in
  let t := record_type_byte (record_type r) in
  decode (encode r ++ rest) =
    if (crc32 (checksum_input t (seq r) (key cut) (value cut)) =?
        crc32 (checksum_input t (seq r) (key r) (value r)))%Z
    then DecodeOk cut (encoded_len cut) else ChecksumMismatch.
Proof.
  intros Hs cut t. destruct (length_truncated_record r) as [HK HV]. fold cut in HK, HV.
  pose proof (u32_le (length (key r))) as Hk. pose proof (u32_le (length (value r))) as Hv.
  unfold encode. rewrite <-!app_assoc.
  rewrite decode_layout by (by rewrite ?length_le_bytes, ?length_len_u32).
  rewrite !le_val_len_u32, le_val_crc, le_val_u64 by done.
  rewrite decide_False by (rewrite !length_app; lia). rewrite (app_assoc (key r)).
  rewrite (take_app_le (key r ++ value r)), (drop_app_le (key r ++ value r)) by (rewrite length_app; lia).
  rewrite (take_app_le (drop _ _)) by (rewrite length_drop, length_app; lia).
  change (take _ (drop _ (key r ++ value r))) with (value cut).
  change (take _ (key r ++ value r)) with (key cut). fold t.
  destruct (crc32 _ =? crc32 _)%Z; [|done]. cbn [negb].
  replace (HEADER_LEN + _ + _) with (encoded_len cut) by (unfold encoded_len; lia).
  exact (decode_type_byte cut _).
Qed.

(** ** Corruption of a single byte *)

Section corruption.
Context `{Crc32Detects}.

(** Changing one byte anywhere in a string changes its checksum. *)
Lemma crc32_insert (pre l post : bytes) (i : nat) (y : byte) :
  i < length l -> l !! i <> Some y ->
  crc32 (pre ++ <[i:=y]> l ++ post) <> crc32 (pre ++ l ++ post).
Proof.
  intros Hi Hy. destruct (lookup_lt_is_Some_2 l i Hi) as [x Hx].
  rewrite insert_take_drop by done. rewrite <-(take_drop_middle l i x Hx) at 3.
  rewrite <-!app_assoc. rewrite !(app_assoc pre). simpl app.
  apply not_eq_sym, crc32_detects. congruence.
Qed.

(** A record with its payload [p], its type, its sequence number and its checksum replaced by
    others of the same length. *)
Lemma decode_tampered (r : LogRecord) (t : byte) (s c p rest : bytes) :
  wf_record r -> length s = 8 -> length c = 4 -> length p = length (key r) + length (value r) ->
  crc32 ([t] ++ s ++ len_u32 (key r) ++ len_u32 (value r) ++ p) <> le_val c ->
  decode ([t] ++ s ++ len_u32 (key r) ++ len_u32 (value r) ++ c ++ p ++ rest) = ChecksumMismatch.
Proof.
  intros (_ & Hk & Hv) Hs Hc Hp Hcrc.
  rewrite decode_layout by (by rewrite ?length_len_u32).
  rewrite !le_val_len_u32, !u32_small, !Nat2Z.id by lia.
  rewrite decide_False by (rewrite length_app; lia).
  rewrite take_app_le, drop_app_le, take_app_le by (rewrite ?length_drop; lia).
  assert (length (take (length (key r)) p) = length (key r)) as HK by (rewrite length_take; lia).
  rewrite (take_ge (drop (length (key r)) p)) by (rewrite length_drop; lia).
  assert (length (drop (length (key r)) p) = length (value r)) as HV by (rewrite length_drop; lia).
  rewrite (proj2 (Z.eqb_neq _ _)); [done|].
  unfold checksum_input, len_u32. rewrite HK, HV, le_bytes_val_n by done.
  fold (len_u32 (key r)) (len_u32 (value r)). by rewrite take_drop.
Qed.

Lemma decode_corrupted (r : LogRecord) (i : nat) (y : byte) (rest : bytes) :
  wf_record r -> i < encoded_len r -> ~ (9 <= i < 17) -> encode r !! i <> Some y ->
  decode (<[i:=y]> (encode r) ++ rest) = ChecksumMismatch.
Proof.
  intros Hwf Hi Hlen Hy. unfold encode in *.
  set (t := record_type_byte (record_type r)) in *.
  set (c := crc32 (checksum_input t (seq r) (key r) (value r))) in *.
  assert (c = crc32 ([t] ++ le_bytes 8 (seq r) ++ len_u32 (key r) ++ len_u32 (value r) ++
    key r ++ value r)) as Hc by done.
  unfold encoded_len, HEADER_LEN in Hi.
  assert (length [t] = 1) as Ht by done.
  assert (length (le_bytes 8 (seq r)) = 8) as Hs by apply length_le_bytes.
  assert (length (le_bytes 4 c) = 4) as Hcl by apply length_le_bytes.
  pose proof (length_len_u32 (key r)) as Hkl. pose proof (length_len_u32 (value r)) as Hvl.
  destruct (decide (i < 1)) as [|H1].
  { rewrite insert_app_l by lia. rewrite lookup_app_l in Hy by lia.
    assert (i = 0) as -> by lia. simpl insert. simpl in Hy. rewrite <-!app_assoc.
    rewrite (app_assoc (key r)).
    apply decode_tampered; [done|done|done|by rewrite length_app|].
    unfold c. rewrite le_val_crc. fold c. rewrite Hc.
    apply (crc32_insert [] [t] _ 0 y); [simpl; lia|done]. }
  rewrite (insert_app_r_alt [t]) by lia. rewrite (lookup_app_r [t]) in Hy by lia.
  destruct (decide (i - 1 < 8)) as [|H2].
  { rewrite Ht in *. rewrite insert_app_l by lia. rewrite lookup_app_l in Hy by lia.
    rewrite <-!app_assoc, (app_assoc (key r)).
    apply decode_tampered; [done|by rewrite length_insert|done|by rewrite length_app|].
    unfold c. rewrite le_val_crc. fold c. rewrite Hc.
    apply (crc32_insert [t]); [lia|done]. }
  rewrite Ht, (insert_app_r_alt (le_bytes 8 _)), (insert_app_r_alt (len_u32 _)),
    (insert_app_r_alt (len_u32 _)) by lia.
  rewrite Ht, (lookup_app_r (le_bytes 8 _)), (lookup_app_r (len_u32 _)),
    (lookup_app_r (len_u32 _)) in Hy by lia.
  rewrite Hs, Hkl, Hvl in *. set (j := i - 1 - 8 - 4 - 4) in *.
  destruct (decide (j < 4)) as [|H3].
  - rewrite insert_app_l by lia. rewrite lookup_app_l in Hy by lia.
    rewrite <-!app_assoc, (app_assoc (key r)).
    apply decode_tampered; [done|done|by rewrite length_insert|by rewrite length_app|].
    rewrite <-Hc. intros Heq. apply (f_equal (le_bytes 4)) in Heq.
    rewrite (le_bytes_val_n 4 (<[j:=y]> _)) in Heq by by rewrite length_insert.
    apply Hy. rewrite Heq. apply list_lookup_insert_eq. lia.
  - rewrite (insert_app_r_alt (le_bytes 4 c)) by lia.
    rewrite (lookup_app_r (le_bytes 4 c)) in Hy by lia. rewrite <-!app_assoc.
    apply decode_tampered; [done|done|done|by rewrite length_insert, length_app|].
    unfold c at 2. rewrite le_val_crc. fold c. rewrite Hc.
    pose proof (crc32_insert ([t] ++ le_bytes 8 (seq r) ++ len_u32 (key r) ++ len_u32 (value r))
      (key r ++ value r) [] (j - length (le_bytes 4 c)) y) as Hins.
    rewrite !app_nil_r in Hins. rewrite <-!(app_assoc [t]), <-!(app_assoc (le_bytes 8 _)),
      <-!(app_assoc (len_u32 _)) in Hins.
    apply Hins; [rewrite length_app; lia|done].
Qed.
End corruption.

#[global] Opaque encode decode encode_all encoded_len.

(** ** The checksum of the examples *)

Lemma add_mod_inj (a x y : Z) :
  (0 <= x < 2 ^ 32)%Z -> (0 <= y < 2 ^ 32)%Z ->
  ((a + x) `mod` 2 ^ 32 = (a + y) `mod` 2 ^ 32)%Z -> x = y.
Proof.
  intros Hx Hy Heq. pose proof (Z.div_mod (a + x) (2 ^ 32) ltac:(lia)).
  pose proof (Z.div_mod (a + y) (2 ^ 32) ltac:(lia)). nia.
Qed.

Lemma byte_sum_detects (pre post : bytes) (x y : byte) :
  x <> y -> byte_sum (pre ++ x :: post) <> byte_sum (pre ++ y :: post).
Proof.
  intros Hne. induction pre as [|b pre IH]; simpl; intros Heq.
  - apply Hne, byte_to_Z_inj. pose proof (byte_to_Z_range x). pose proof (byte_to_Z_range y).
    rewrite (Z.add_comm (byte_to_Z x)), (Z.add_comm (byte_to_Z y)) in Heq.
    apply add_mod_inj in Heq; [done|lia|lia].
  - apply IH. by apply add_mod_inj in Heq; [|apply byte_sum_range..].
Qed.

#[global] Instance sum_crc32_detects : @Crc32Detects sum_crc32.
Proof. intros pre x y post. apply byte_sum_detects. Qed.

(** The example checksum does not see zeros behind the header, and of the length of the value it
    sees only what the cast leaves. *)
Lemma byte_sum_zeros (bs : bytes) (n : nat) : byte_sum (bs ++ replicate n x00) = byte_sum bs.
Proof.
  induction bs as [|b bs IH]; simpl; [|by rewrite IH].
  induction n as [|n IH]; [done|]. simpl. rewrite IH. done.
Qed.

Lemma byte_sum_oversized (n : nat) : Z.of_nat n = (2 ^ 32)%Z ->
  byte_sum (checksum_input x00 0 [] []) = byte_sum (checksum_input x00 0 [] (replicate n x00)).
Proof.
  intros Hn. unfold checksum_input. replace (len_u32 (replicate n x00)) with (len_u32 []).
  - by rewrite app_nil_l, !app_assoc, byte_sum_zeros, <-!app_assoc.
  - unfold len_u32. rewrite length_replicate, Hn. done.
Qed.

(** ** The properties of the record format *)

(** C30: The decoder accepts exactly the encodings of representable records: [decode buf] returns
    the record [r] and the length [len] if and only if [r] fits the format (a [u64] sequence
    number, key and value lengths below 2^32), [len] is its encoded length, and [buf] starts with
    [encode r]. *)
Theorem decode_exact `{Crc32} (buf : bytes) (r : LogRecord) (len : nat) :
  decode buf = DecodeOk r len <->
    wf_record r /\ len = encoded_len r /\ exists rest, buf = encode r ++ rest.
Proof.
  split; [apply decode_sound|]. intros (Hwf & -> & rest & ->). by apply decode_encode_app.
Qed.

(** A record of which only a part is in the buffer is reported [Incomplete], never decoded and
    never taken for corrupt: the decoder tells a torn tail from a corrupt one. *)
Theorem truncated_record_incomplete `{Crc32} (r : LogRecord) (n : nat) :
  wf_record r -> n < encoded_len r -> decode (take n (encode r)) = Incomplete.
Proof. apply decode_encode_truncated. Qed.

Lemma truncated_record_incomplete_witness :
  wf_record (record_put 7 [x61] [x62]) /\
  @decode sum_crc32 (take 22 (@encode sum_crc32 (record_put 7 [x61] [x62]))) = Incomplete.
Proof.
  split; [by vm_compute; repeat split|].
  apply (@truncated_record_incomplete sum_crc32); [by vm_compute; repeat split|].
  vm_compute. lia.
Defined.

(** C31: Changing any single byte of an encoded record, other than those of its two length fields,
    is detected: the decoder reports a checksum mismatch, whatever follows the record. *)
Theorem corruption_detected `{Crc32Detects} (r : LogRecord) (i : nat) (y : byte) (rest : bytes) :
  wf_record r -> i < encoded_len r -> ~ (9 <= i < 17) -> encode r !! i <> Some y ->
  decode (<[i:=y]> (encode r) ++ rest) = ChecksumMismatch.
Proof. apply decode_corrupted. Qed.

Lemma corruption_detected_witness :
  @decode sum_crc32 (<[22:=xff]> (@encode sum_crc32 (record_put 7 [x61] [x62])) ++ [x00])
    = ChecksumMismatch.
Proof.
  apply (@corruption_detected sum_crc32 sum_crc32_detects);
    [by vm_compute; repeat split|vm_compute; lia|lia|by vm_compute].
Defined.

(** C40: What the cast of the lengths to 32 bits does, for records of every size: the decoder reads
    the encoding of a record, whatever follows it, as the record that the lengths modulo 2^32 cut
    out of its payload. It returns that one if it has the checksum of the whole and reports a
    mismatch otherwise. A record that the format can represent is its own cut; of one that it
    cannot, at least 4 GiB of payload stay behind the cut, for the decoder to take for the next
    record. *)
Theorem decode_encode_truncates `{Crc32} (r : LogRecord) (rest : bytes) :
  in_u64 (seq r) ->
  let cut := truncated_record r in
  let t := record_type_byte (record_type r) in
  decode (encode r ++ rest) =
    (if (crc32 (checksum_input t (seq r) (key cut) (value cut)) =?
         crc32 (checksum_input t (seq r) (key r) (value r)))%Z
     then DecodeOk cut (encoded_len cut) else ChecksumMismatch) /\
  Z.of_nat (length (key cut)) = (Z.of_nat (length (key r)) `mod` 2 ^ 32)%Z /\
  Z.of_nat (length (value cut)) = (Z.of_nat (length (value r)) `mod` 2 ^ 32)%Z /\
  key cut ++ value cut `prefix_of` key r ++ value r /\
  (wf_record r -> cut = r) /\
  (~ wf_record r -> (Z.of_nat (encoded_len cut) + 2 ^ 32 <= Z.of_nat (encoded_len r))%Z).
Proof.
  intros Hs cut t. destruct (length_truncated_record r) as [HK HV].
  split; [by apply decode_encode_cut|]. split; [done|]. split; [done|].
  split; [apply truncated_record_prefix|]. split; [apply truncated_record_wf|].
  by apply truncated_record_shorter.
Qed.

(** A put whose value has 2^32 bytes decodes to a put of the empty value, when its checksum does
    not tell the two apart. *)
Lemma decode_encode_truncates_witness :
  exists n, Z.of_nat n = (2 ^ 32)%Z /\
    @decode sum_crc32 (@encode sum_crc32 (record_put 0 [] (replicate n x00)) ++ []) =
      DecodeOk (record_put 0 [] []) 21.
Proof.
  assert (exists n, Z.of_nat n = (2 ^ 32)%Z) as [n Hn] by (exists (Z.to_nat (2 ^ 32)); by rewrite Z2Nat.id).
  exists n. split; [exact Hn|]. set (r := record_put 0 [] (replicate n x00)).
  destruct (@decode_encode_truncates sum_crc32 r []) as (Hd & _); [done|].
  assert (truncated_record r = record_put 0 [] []) as Hcut.
  { unfold truncated_record, r, record_put. cbn [key value record_type seq].
    by rewrite length_replicate, Hn. }
  rewrite Hd, Hcut. unfold r. cbn [key value record_type seq record_put record_type_byte].
  change (@crc32 sum_crc32) with byte_sum.
  rewrite (byte_sum_oversized n Hn), Z.eqb_refl. done.
Defined.
