(* ===== verification/Segment.v ===== *)
(** * Segment: one append-only file of records

    Models [crates/storage/src/segment.rs]: recovery of the committed records of a file, opening
    for append with truncation of a torn tail, and the group-committed append. *)
From S2P Require Export Fs LogRecord.

(** [struct RecoveredSegment]. *)
Record RecoveredSegment := mkRecovered {
  rec_records : list LogRecord;
  valid_len : Z;
  had_torn_tail : bool;
}.

(** [struct Segment]. *)
Record Segment := mkSegment {
  seg_path : path;
  seg_file : Handle;
  seg_len : Z;
}.

Definition set_seg_file (h : Handle) (s : Segment) : Segment :=
  mkSegment (seg_path s) h (seg_len s).

Definition set_seg_len (len : Z) (s : Segment) : Segment :=
  mkSegment (seg_path s) (seg_file s) len.

Section segment_ops.
Context `{Crc32}.

(** The loop of [recover]: decode at the offset until the decoder stops. The fuel bounds the
    number of records by the number of bytes. *)
Fixpoint recover_loop (fuel : nat) (buf : bytes) (records : list LogRecord) (offset : nat) :
    list LogRecord * nat :=
  match fuel with
  | O => (records, offset)
  | S fuel' =>
      match decode (drop offset buf) with
      | DecodeOk record len => recover_loop fuel' buf (records ++ [record]) (offset + len)
      | _ => (records, offset)
      end
  end.

Definition recover_bytes (buf : bytes) : RecoveredSegment :=
  let '(records, offset) := recover_loop (S (length buf)) buf [] 0 in
  mkRecovered records (Z.of_nat offset) (bool_decide (offset < length buf)).

(** [segment::recover]. *)
Definition recover (p : path) : M unit IoError RecoveredSegment :=
  buf ← read_file p;
  mret (recover_bytes buf).

(** [Segment::open_for_append]. *)
Definition open_for_append (p : path) (valid_len : Z) : M unit IoError Segment :=
  file ← open_rw_create p;
  '(_, file) ← on file (set_len (Z.to_nat valid_len));
  '(_, file) ← on file (seek (Z.to_nat valid_len));
  mret (mkSegment p file valid_len).

(** [Segment::is_empty]. *)
Definition seg_is_empty (s : Segment) : bool := (seg_len s =? 0)%Z.

(** The write loop of [Segment::append_batch]. *)
Fixpoint append_loop (records : list LogRecord) (offset : Z) (offsets : list Z) :
    M Segment IoError (Z * list Z) :=
  match records with
  | [] => mret (offset, offsets)
  | record :: records' =>
      let bytes := encode record in
      zoom seg_file set_seg_file (write_all bytes);;
      append_loop records' (offset + Z.of_nat (length bytes)) (offsets ++ [offset])
  end.

(** [Segment::append_batch]. *)
Definition seg_append_batch (records : list LogRecord) : M Segment IoError (list Z) :=
  self ← get_state;
  '(offset, offsets) ← append_loop records (seg_len self) [];
  zoom seg_file set_seg_file sync_data;;
  modify (set_seg_len offset);;
  mret offsets.

(** [Segment::append]. *)
Definition seg_append (record : LogRecord) : M Segment IoError Z :=
  offsets ← seg_append_batch [record];
  match offsets with
  | offset :: _ => mret offset
  | [] => panic
  end.

(** ** Recovered contents *)

(** The decoder finds no record at the start of [tail]: it is empty, torn or corrupt. *)
Definition undecodable (tail : bytes) : Prop := forall r len, decode tail <> DecodeOk r len.

(** [buf] holds the records [rs] followed by a tail that is not a record. *)
Definition holds_records (buf : bytes) (rs : list LogRecord) (tail : bytes) : Prop :=
  buf = encode_all rs ++ tail /\ Forall wf_record rs /\ undecodable tail.
End segment_ops.

(** The offsets at which consecutive records start. *)
Fixpoint offsets_from (offset : Z) (rs : list LogRecord) : list Z :=
  match rs with
  | [] => []
  | r :: rs' => offset :: offsets_from (offset + Z.of_nat (encoded_len r)) rs'
  end.

Section segment_lemmas.
Context `{Crc32}.

Lemma undecodable_nil : undecodable [].
Proof. intros r len. by rewrite decode_short by (simpl; unfold HEADER_LEN; lia). Qed.

Lemma undecodable_truncated (r : LogRecord) (n : nat) :
  wf_record r -> n < encoded_len r -> undecodable (take n (encode r)).
Proof. intros Hr Hn r' len. by rewrite decode_encode_truncated. Qed.

Lemma length_encode_all_ge (rs : list LogRecord) : length rs <= length (encode_all rs).
Proof.
  induction rs as [|r rs IH]; [done|]. rewrite encode_all_cons, length_app, length_encode. simpl.
  pose proof (encoded_len_pos r). unfold HEADER_LEN in *. lia.
Qed.

(** ** Recovery *)

Lemma recover_loop_spec (fuel : nat) (buf : bytes) (acc : list LogRecord) (offset : nat) :
  offset <= length buf -> length buf - offset < fuel ->
  exists rs tail, holds_records (drop offset buf) rs tail /\
    recover_loop fuel buf acc offset = (acc ++ rs, offset + length (encode_all rs)).
Proof.
  revert acc offset. induction fuel as [|fuel IH]; intros acc offset Hle Hfuel; [lia|].
  simpl. destruct (decode (drop offset buf)) as [r len| |] eqn:E.
  - destruct (decode_sound _ _ _ E) as (Hwf & -> & rest & Hd).
    pose proof (encoded_len_pos r) as Hpos. unfold HEADER_LEN in Hpos.
    assert (length (drop offset buf) = encoded_len r + length rest) as Hl
      by (by rewrite Hd, length_app, length_encode).
    rewrite length_drop in Hl.
    destruct (IH (acc ++ [r]) (offset + encoded_len r)) as (rs & tail & (Hr & Hrs & Ht) & ->); [lia..|].
    exists (r :: rs), tail. split.
    + split; [|split; [by constructor|done]]. rewrite encode_all_cons, Hd.
      rewrite <-drop_drop, Hd, <-length_encode, drop_app_length in Hr.
      by rewrite Hr, app_assoc.
    + rewrite <-app_assoc, encode_all_cons, length_app, length_encode.
      apply pair_equal_spec. split; [done|lia].
  - exists [], (drop offset buf). split; [|by rewrite app_nil_r, Nat.add_0_r].
    split; [done|split; [done|]]. intros r len. by rewrite E.
  - exists [], (drop offset buf). split; [|by rewrite app_nil_r, Nat.add_0_r].
    split; [done|split; [done|]]. intros r len. by rewrite E.
Qed.

(** A buffer splits into records and an undecodable tail in one way only. *)
Lemma holds_records_unique (buf : bytes) (rs1 rs2 : list LogRecord) (t1 t2 : bytes) :
  holds_records buf rs1 t1 -> holds_records buf rs2 t2 -> rs1 = rs2 /\ t1 = t2.
Proof.
  intros (-> & Hw1 & Hu1) (Heq & Hw2 & Hu2). revert rs2 Heq Hw2.
  induction Hw1 as [|r1 rs1 Hr1 Hw1 IH]; intros [|r2 rs2] Heq Hw2.
  - by split.
  - rewrite encode_all_cons, <-app_assoc in Heq. inversion Hw2; subst.
    exfalso. apply (Hu1 r2 (encoded_len r2)).
    rewrite encode_all_nil in Heq. simpl in Heq. rewrite Heq. by apply decode_encode_app.
  - rewrite encode_all_cons, <-app_assoc in Heq. exfalso. apply (Hu2 r1 (encoded_len r1)).
    rewrite encode_all_nil in Heq. simpl in Heq. rewrite <-Heq. by apply decode_encode_app.
  - rewrite !encode_all_cons, <-!app_assoc in Heq. inversion Hw2; subst.
    apply encode_inj_app in Heq as [-> Heq]; [|done..].
    destruct (IH rs2) as [-> ->]; done.
Qed.

Lemma recover_bytes_spec (buf : bytes) (rs : list LogRecord) (tail : bytes) :
  holds_records buf rs tail ->
  recover_bytes buf =
    mkRecovered rs (Z.of_nat (length (encode_all rs))) (bool_decide (tail <> [])).
Proof.
  intros Hh. unfold recover_bytes.
  destruct (recover_loop_spec (S (length buf)) buf [] 0) as (rs' & t' & Hh' & ->); [lia..|].
  rewrite drop_0 in Hh'. destruct (holds_records_unique _ _ _ _ _ Hh Hh') as [<- <-].
  destruct Hh as (-> & _ & _). simpl. f_equal. apply bool_decide_ext.
  rewrite length_app. destruct tail; simpl; split; intros; [lia|done|done|lia].
Qed.

Lemma holds_records_exists (buf : bytes) : exists rs tail, holds_records buf rs tail.
Proof.
  destruct (recover_loop_spec (S (length buf)) buf [] 0) as (rs & t & Hh & _); [lia..|].
  rewrite drop_0 in Hh. eauto.
Qed.

Lemma holds_records_full (rs : list LogRecord) :
  Forall wf_record rs -> holds_records (encode_all rs) rs [].
Proof. intros. split; [by rewrite app_nil_r|]. split; [done|apply undecodable_nil]. Qed.

(** Cutting the bytes of a sequence of records anywhere leaves the records that are complete, and
    an undecodable rest shorter than the next record. *)
Lemma holds_records_take (n : nat) (rs : list LogRecord) :
  Forall wf_record rs ->
  exists k tail, holds_records (take n (encode_all rs)) (take k rs) tail /\ k <= length rs /\
    forall m, m <= length rs -> length (encode_all (take m rs)) <= n -> m <= k.
Proof.
  intros Hw. revert n. induction Hw as [|r rs Hr Hw IH]; intros n.
  - exists 0, []. split; [|split; [done|simpl; lia]]. rewrite encode_all_nil, take_nil.
    split; [done|]. split; [by constructor|apply undecodable_nil].
  - rewrite encode_all_cons. destruct (decide (n < encoded_len r)) as [Hlt|Hge].
    + exists 0, (take n (encode r)). split; [|split; [lia|]].
      * rewrite take_app_le by (rewrite length_encode; lia). split; [done|].
        split; [by constructor|by apply undecodable_truncated].
      * intros [|m] _ Hm; [lia|].
        rewrite firstn_cons, encode_all_cons, length_app, length_encode in Hm. lia.
    + destruct (IH (n - encoded_len r)) as (k & tail & (Hh & Hwk & Hu) & Hk & Hmax).
      exists (S k), tail. split; [|split; [simpl; lia|]].
      * rewrite take_app_ge, length_encode by (rewrite length_encode; lia). simpl take.
        split; [by rewrite encode_all_cons, Hh, app_assoc|]. split; [by constructor|done].
      * intros [|m] Hml Hm; [lia|]. simpl in Hml.
        rewrite firstn_cons, encode_all_cons, length_app, length_encode in Hm.
        specialize (Hmax m ltac:(lia) ltac:(lia)). lia.
Qed.
End segment_lemmas.

Section segment_specs.
Context `{Crc32}.
Context {F : FaultModel}.

(** ** Appending *)

(** The segment [s] is open at the end of a file whose bytes [data] are all durable. *)
Definition seg_rep (s : Segment) (fs : fsys) (data : bytes) : Prop :=
  file_at fs (seg_path s) = Some (mkFile data (length data)) /\
  seg_file s = mkHandle (seg_path s) (length data) /\
  seg_len s = Z.of_nat (length data).

(** Writing at the end of a file. *)
Lemma write_step_end (p : path) (data bs : bytes) (synced : nat) (fs : fsys) :
  file_at fs p = Some (mkFile data synced) -> synced <= length data ->
  write_step bs (mkHandle p (length data)) fs =
    (mkHandle p (length (data ++ bs)), put_file p (mkFile (data ++ bs) synced) fs).
Proof.
  intros Hf Hs. unfold write_step. simpl. rewrite Hf, length_app. unfold write_at. simpl.
  rewrite take_ge, Nat.sub_diag, drop_ge by lia. simpl. rewrite app_nil_r.
  by rewrite Nat.min_l by lia.
Qed.

(** The states of a group append in progress: [e] has been written after the durable [d]. *)
Definition appending (s0 : Segment) (fs0 : fsys) (d e : bytes) (s : Segment) (fs : fsys) : Prop :=
  s = set_seg_file (mkHandle (seg_path s0) (length (d ++ e))) s0 /\
  fs = put_file (seg_path s0) (mkFile (d ++ e) (length d)) fs0.

Lemma wpc_append_loop (rs : list LogRecord) (s : Segment) (fs : fsys) (d e : bytes) (offset : Z)
    (offsets : list Z) (s0 : Segment) (fs0 : fsys) :
  is_Some (file_at fs0 (seg_path s0)) -> appending s0 fs0 d e s fs ->
  wpc F (append_loop rs offset offsets) s fs
    (fun a s' fs' => a = ((offset + Z.of_nat (length (encode_all rs)))%Z,
                          offsets ++ offsets_from offset rs) /\
                     appending s0 fs0 d (e ++ encode_all rs) s' fs')
    (fun err s' fs' => may_err F /\ exists n, appending s0 fs0 d (e ++ take n (encode_all rs)) s' fs')
    (fun fs' => may_crash F /\ exists n s', appending s0 fs0 d (e ++ take n (encode_all rs)) s' fs').
Proof.
  intros Hex. revert s fs e offset offsets. induction rs as [|r rs IH];
    intros s fs e offset offsets [-> ->]; simpl append_loop.
  - wpc_steps. rewrite encode_all_nil. simpl. rewrite !app_nil_r, Z.add_0_r. by repeat split.
  - wpc_steps. apply wpc_prim.
    + rewrite file_at_put_eq by done.
      rewrite write_step_end with (synced := length d)
        by (rewrite ?length_app; auto using file_at_put_eq; lia).
      rewrite put_file_put. unfold set_seg_file at 1. simpl.
      eapply wpc_mono; [apply (IH _ _ (e ++ encode r))| | |].
      * by rewrite <-app_assoc.
      * intros a s' fs' [-> Ha]. rewrite encode_all_cons. split; [|by rewrite app_assoc].
        rewrite length_app, !length_encode, <-app_assoc. simpl.
        apply pair_equal_spec. split; [lia|done].
      * intros err s' fs' [HF [n Ha]]. split; [done|]. exists (encoded_len r + n).
        rewrite encode_all_cons, take_app_ge by (rewrite length_encode; lia).
        rewrite length_encode, app_assoc.
        by replace (encoded_len r + n - encoded_len r) with n by lia.
      * intros fs' [HF (n & s' & Ha)]. split; [done|]. exists (encoded_len r + n), s'.
        rewrite encode_all_cons, take_app_ge by (rewrite length_encode; lia).
        rewrite length_encode, app_assoc.
        by replace (encoded_len r + n - encoded_len r) with n by lia.
    + intros HF k. split; [done|]. exists (k `min` length (encode r)).
      rewrite write_step_end with (synced := length d)
        by (rewrite ?length_app; auto using file_at_put_eq; lia). simpl.
      rewrite put_file_put, encode_all_cons, <-take_prefix_app, <-(app_assoc d).
      by split.
    + intros HF k. split; [done|]. exists (k `min` length (encode r)).
      rewrite write_step_end with (synced := length d)
        by (rewrite ?length_app; auto using file_at_put_eq; lia). simpl.
      rewrite put_file_put, encode_all_cons, <-take_prefix_app, <-(app_assoc d).
      by eexists.
Qed.

Lemma wpc_seg_append_batch (rs : list LogRecord) (s : Segment) (fs : fsys) (d : bytes) :
  seg_rep s fs d ->
  wpc F (seg_append_batch rs) s fs
    (fun offsets s' fs' => offsets = offsets_from (seg_len s) rs /\
       seg_path s' = seg_path s /\ seg_rep s' fs' (d ++ encode_all rs) /\
       fs' = put_file (seg_path s)
               (mkFile (d ++ encode_all rs) (length (d ++ encode_all rs))) fs)
    (fun _ s' fs' => may_err F /\ exists n, appending s fs d (take n (encode_all rs)) s' fs')
    (fun fs' => may_crash F /\ exists n,
       fs' = put_file (seg_path s) (mkFile (d ++ take n (encode_all rs)) (length d)) fs).
Proof.
  intros (Hf & Hh & Hl). assert (is_Some (file_at fs (seg_path s))) as Hex by eauto.
  unfold seg_append_batch. wpc_steps. eapply wpc_mono.
  { apply (wpc_append_loop rs s fs d [] _ _ s fs); [done|].
    unfold appending. rewrite app_nil_r. rewrite put_file_id by done. split; [|done].
    destruct s; simpl in *. by subst. }
  - intros [offset offsets] s' fs' [[= -> ->] [-> ->]]. simpl. wpc_steps. apply wpc_atomic; simpl.
    + rewrite file_at_put_eq by done. wpc_steps. rewrite put_file_put.
      split; [done|]. split; [done|]. split; [|done]. split; [by apply file_at_put_eq|].
      simpl. rewrite length_app, Hl. split; [done|lia].
    + intros HF. split; [done|]. exists (length (encode_all rs)). by rewrite take_ge.
    + intros HF. split; [done|]. exists (length (encode_all rs)). by rewrite take_ge.
  - intros e s' fs' [HF [n Ha]]. eauto.
  - intros fs' [HF (n & s' & -> & ->)]. eauto.
Qed.

(** ** Opening *)

Lemma wpc_recover (p : path) (fs : fsys) (f : File) :
  file_at fs p = Some f ->
  wpc F (recover p) tt fs
    (fun a _ fs' => a = recover_bytes (f_data f) /\ fs' = fs)
    (fun _ _ fs' => may_err F /\ fs' = fs) (fun fs' => may_crash F /\ fs' = fs).
Proof.
  intros Hf. unfold recover. wpc_steps. apply wpc_atomic; [|done..].
  rewrite Hf. wpc_steps. done.
Qed.

(** Opening an existing file truncates it to the length given. *)
Lemma wpc_open_for_append (p : path) (fs : fsys) (f : File) (len : nat) :
  file_at fs p = Some f -> fs !! p = None -> len <= length (f_data f) ->
  wpc F (open_for_append p (Z.of_nat len)) tt fs
    (fun s _ fs' => s = mkSegment p (mkHandle p len) (Z.of_nat len) /\
       fs' = put_file p (mkFile (take len (f_data f)) (f_synced f `min` len)) fs)
    (fun _ _ fs' => may_err F /\ (fs' = fs \/
       fs' = put_file p (mkFile (take len (f_data f)) (f_synced f `min` len)) fs))
    (fun fs' => may_crash F /\ (fs' = fs \/
       fs' = put_file p (mkFile (take len (f_data f)) (f_synced f `min` len)) fs)).
Proof.
  intros Hf Hd Hlen. destruct p as [|n d]; [done|].
  unfold open_for_append. wpc_steps. apply wpc_atomic; [|by auto..].
  pose proof Hf as Hf'. unfold file_at in Hf'. destruct (fs !! d) as [files|]; [|done].
  simpl in Hf'.
  rewrite Hd, Hf'. wpc_steps. apply wpc_atomic; [|by auto..].
  simpl h_path. rewrite Hf, Nat2Z.id. unfold resize_file.
  replace (len - length (f_data f)) with 0 by lia. simpl replicate. rewrite app_nil_r.
  wpc_steps. apply wpc_atomic; [|by auto..]. wpc_steps. by rewrite ?Nat2Z.id.
Qed.

(** Opening a file that does not exist creates it. *)
Lemma wpc_open_for_append_new (n : bytes) (d : path) (fs : fsys) (files : gmap bytes File) :
  fs !! d = Some files -> files !! n = None -> fs !! (n :: d) = None ->
  wpc F (open_for_append (n :: d) 0) tt fs
    (fun s _ fs' => s = mkSegment (n :: d) (mkHandle (n :: d) 0) 0 /\
       fs' = put_file (n :: d) (mkFile [] 0) fs)
    (fun _ _ fs' => may_err F /\ (fs' = fs \/ fs' = put_file (n :: d) (mkFile [] 0) fs))
    (fun fs' => may_crash F /\ (fs' = fs \/ fs' = put_file (n :: d) (mkFile [] 0) fs)).
Proof.
  intros Hd Hn Hp. unfold open_for_append. wpc_steps. apply wpc_atomic; [|by auto..].
  rewrite Hp, Hd, Hn. wpc_steps.
  assert (file_at (put_file (n :: d) (mkFile [] 0) fs) (n :: d) = Some (mkFile [] 0)) as Hf.
  { unfold file_at, put_file. rewrite lookup_alter_eq, Hd. apply lookup_insert_eq. }
  apply wpc_atomic; [|by auto..].
  change (h_path (mkHandle (n :: d) 0)) with (n :: d). rewrite Hf.
  change (resize_file (Z.to_nat 0) (mkFile [] 0)) with (mkFile [] 0).
  rewrite put_file_put. wpc_steps. apply wpc_atomic; [|by auto..]. wpc_steps. done.
Qed.
End segment_specs.

(** ** The properties of recovery *)

(** C32: Recovering any bytes whatever, valid, torn or corrupt, returns the records of the longest
    prefix that is a sequence of well-formed records and the exact length of that prefix; nothing
    decodes after it; and [had_torn_tail] says whether anything is left. In particular the loop
    always ends. *)
Theorem recover_longest_prefix `{Crc32} (buf : bytes) :
  let r := recover_bytes buf in
  exists tail, buf = encode_all (rec_records r) ++ tail /\
    Forall wf_record (rec_records r) /\
    valid_len r = Z.of_nat (length (encode_all (rec_records r))) /\
    undecodable tail /\ had_torn_tail r = bool_decide (tail <> []).
Proof.
  destruct (holds_records_exists buf) as (rs & tail & Hh).
  rewrite (recover_bytes_spec _ _ _ Hh). destruct Hh as (Hb & Hw & Hu). by exists tail.
Qed.
