(* ===== verification/Log.v ===== *)
(** * Log: the append-only log over a directory of segments

    Models [crates/storage/src/log.rs]: segment file names, the replay of a log directory, rollover
    and the group-committed append. *)
From S2P Require Export Segment.

(** [enum LogOp]. *)
Inductive LogOp :=
| OpPut (key value : bytes)
| OpDelete (key : bytes).

Definition DEFAULT_SEGMENT_MAX_BYTES : Z := 4 * 1024 * 1024.

Definition SEGMENT_PREFIX : bytes := ascii "seg-".

Definition SEGMENT_SUFFIX : bytes := ascii ".log".

(** [enum LogError]. *)
Inductive LogError :=
| LogIo (e : IoError)
| SealedSegmentCorrupted (id : Z).

(** [struct Log]. *)
Record Log := mkLog {
  log_dir : path;
  segment_max_bytes : Z;
  sealed : list (Z * path);
  active_id : Z;
  active : Segment;
  next_seq : Z;
}.

Definition set_active (s : Segment) (l : Log) : Log :=
  mkLog (log_dir l) (segment_max_bytes l) (sealed l) (active_id l) s (next_seq l).

Definition set_next_seq (n : Z) (l : Log) : Log :=
  mkLog (log_dir l) (segment_max_bytes l) (sealed l) (active_id l) (active l) n.

(** The first two assignments of [roll_over_if_needed]: seal the active segment, take the next
    id. *)
Definition seal_active (l : Log) : Log :=
  mkLog (log_dir l) (segment_max_bytes l) (sealed l ++ [(active_id l, seg_path (active l))])
    (u64_add (active_id l) 1) (active l) (next_seq l).

Definition segment_name (id : Z) : bytes := SEGMENT_PREFIX ++ fmt_dec_pad 16 id ++ SEGMENT_SUFFIX.

Definition segment_path (dir : path) (id : Z) : path := path_join dir (segment_name id).

(** The id a directory entry names, if it names a segment. *)
Definition parse_segment_name (name : bytes) : option Z :=
  rest ← strip_prefix SEGMENT_PREFIX name;
  rest ← strip_suffix SEGMENT_SUFFIX rest;
  parse_u64 rest.

Definition list_segment_ids `{DirOrder} (dir : path) : M unit IoError (list Z) :=
  ex ← path_exists dir;
  if negb ex then mret []
  else
    entries ← read_dir dir;
    mret (sort_by Z.leb (omap parse_segment_name entries)).

(** [struct OpenReport]. *)
Record OpenReport := mkReport {
  rep_records : list LogRecord;
  rep_torn : bool;
}.

(** The running maximum of the sequence numbers of a replay. *)
Definition max_seq_of (m : option Z) (rs : list LogRecord) : option Z :=
  foldl (fun m r => Some (match m with None => seq r | Some m => Z.max m (seq r) end)) m rs.

(** [max_seq_seen.map(|s| s + 1).unwrap_or(0)]. *)
Definition seq_after (m : option Z) : Z :=
  match m with
  | Some s => u64_add s 1
  | None => 0
  end.

Section log_ops.
Context `{Crc32, DirOrder}.

(** The replay loop of [open_with_segment_size], with its early return at the last segment and,
    after the loop, the creation of the first segment. *)
Fixpoint open_loop (dir : path) (segment_max_bytes : Z) (last_id : option Z)
    (all_records : list LogRecord) (sealed : list (Z * path)) (torn : bool) (max_seq : option Z)
    (ids : list Z) : M unit LogError (Log * OpenReport) :=
  match ids with
  | [] =>
      active ← map_err LogIo (open_for_append (segment_path dir 0) 0);
      mret (mkLog dir segment_max_bytes sealed 0 active 0, mkReport all_records torn)
  | id :: ids' =>
      let p := segment_path dir id in
      recovered ← map_err LogIo (recover p);
      let is_last := bool_decide (Some id = last_id) in
      if had_torn_tail recovered && negb is_last then throw (SealedSegmentCorrupted id)
      else
        let torn := torn || had_torn_tail recovered in
        let max_seq := max_seq_of max_seq (rec_records recovered) in
        let all_records := all_records ++ rec_records recovered in
        if is_last then
          active ← map_err LogIo (open_for_append p (valid_len recovered));
          mret (mkLog dir segment_max_bytes sealed id active (seq_after max_seq),
                mkReport all_records torn)
        else
          open_loop dir segment_max_bytes last_id all_records (sealed ++ [(id, p)]) torn max_seq ids'
  end.

(** [Log::open_with_segment_size]. *)
Definition open_with_segment_size (dir : path) (segment_max_bytes : Z) :
    M unit LogError (Log * OpenReport) :=
  map_err LogIo (create_dir_all dir);;
  ids ← map_err LogIo (list_segment_ids dir);
  open_loop dir segment_max_bytes (last ids) [] [] false None ids.

(** [Log::open]. *)
Definition log_open (dir : path) : M unit LogError (Log * OpenReport) :=
  open_with_segment_size dir DEFAULT_SEGMENT_MAX_BYTES.

Definition roll_over_if_needed (incoming_len : Z) : M Log LogError unit :=
  self ← get_state;
  if seg_is_empty (active self) || (seg_len (active self) + incoming_len <=? segment_max_bytes self)%Z
  then mret tt
  else
    modify seal_active;;
    self ← get_state;
    new_active ← io (map_err LogIo (open_for_append (segment_path (log_dir self) (active_id self)) 0));
    modify (set_active new_active).

(** The record an operation becomes. *)
Definition op_record (seq : Z) (op : LogOp) : LogRecord :=
  match op with
  | OpPut key value => record_put seq key value
  | OpDelete key => record_delete seq key
  end.

(** The numbering loop of [append_batch]: the records, the next sequence number and the total
    encoded length. *)
Fixpoint assign_seqs (seq : Z) (ops : list LogOp) : list LogRecord * Z * Z :=
  match ops with
  | [] => ([], seq, 0%Z)
  | op :: ops' =>
      let record := op_record seq op in
      let '(records, seq', total_len) := assign_seqs (u64_add seq 1) ops' in
      (record :: records, seq', (Z.of_nat (encoded_len record) + total_len)%Z)
  end.

(** [Log::append_batch]. *)
Definition log_append_batch (ops : list LogOp) : M Log LogError (list LogRecord) :=
  self ← get_state;
  let '(records, seq, total_len) := assign_seqs (next_seq self) ops in
  roll_over_if_needed total_len;;
  zoom active set_active (map_err LogIo (seg_append_batch records));;
  modify (set_next_seq seq);;
  mret records.

(** The private [Log::append]: a batch of one, [remove(0)] of its result. *)
Definition log_append (record : LogRecord) : M Log LogError LogRecord :=
  let op := match record_type record with
            | Put => OpPut (key record) (value record)
            | Delete => OpDelete (key record)
            end in
  records ← log_append_batch [op];
  match records with
  | r :: _ => mret r
  | [] => panic
  end.

Definition append_put (key value : bytes) : M Log LogError LogRecord :=
  self ← get_state;
  log_append (record_put (next_seq self) key value).

Definition append_delete (key : bytes) : M Log LogError LogRecord :=
  self ← get_state;
  log_append (record_delete (next_seq self) key).

(** [Log::append_records_verbatim]. *)
Definition append_records_verbatim (records : list LogRecord) : M Log LogError unit :=
  match records with
  | [] => mret tt
  | _ :: _ =>
      let total_len := foldr (fun r n => (Z.of_nat (encoded_len r) + n)%Z) 0%Z records in
      roll_over_if_needed total_len;;
      zoom active set_active (map_err LogIo (seg_append_batch records));;
      match max_seq_of None records with
      | Some max_seq => modify (fun l => set_next_seq (Z.max (next_seq l) (u64_add max_seq 1)) l)
      | None => mret tt
      end
  end.

(** [Log::segment_count]. *)
Definition segment_count (l : Log) : nat := length (sealed l) + 1.
End log_ops.

(** ** Segment names *)

Lemma parse_digits_range (bs : bytes) (acc z : Z) :
  (0 <= acc < 2 ^ 64)%Z -> parse_digits acc bs = Some z -> in_u64 z.
Proof.
  revert acc. induction bs as [|b bs IH]; intros acc Hacc H; simpl in H.
  - by simplify_eq.
  - unfold to_digit in H. case_match eqn:Hd; [|done]. simpl in H.
    apply andb_true_iff in Hd as [Hd1%Z.leb_le Hd2%Z.leb_le].
    destruct (Z.ltb_spec (acc * 10 + (byte_to_Z b - 48)) (2 ^ 64)) as [Hlt|]; [|done].
    apply IH in H; [done|lia].
Qed.

Lemma parse_segment_name_range (name : bytes) (id : Z) :
  parse_segment_name name = Some id -> in_u64 id.
Proof.
  unfold parse_segment_name, parse_u64. intros H.
  destruct (strip_prefix _ name) as [rest|]; simpl in H; [|done].
  destruct (strip_suffix _ rest) as [bs|]; simpl in H; [|done].
  destruct bs as [|b bs]; [done|].
  case_bool_decide; [destruct bs; [done|]|]; eapply parse_digits_range; [|done| |done]; lia.
Qed.

Lemma parse_segment_name_of (id : Z) : in_u64 id -> parse_segment_name (segment_name id) = Some id.
Proof.
  intros Hid. unfold parse_segment_name, segment_name.
  rewrite (proj2 (strip_prefix_Some _ _ _) eq_refl). simpl.
  rewrite (proj2 (strip_suffix_Some _ _ _) eq_refl). simpl. by apply parse_fmt_dec_pad.
Qed.

Lemma segment_name_inj (a b : Z) :
  in_u64 a -> in_u64 b -> segment_name a = segment_name b -> a = b.
Proof.
  intros Ha Hb Heq. apply (f_equal parse_segment_name) in Heq.
  rewrite !parse_segment_name_of in Heq by done. congruence.
Qed.

Lemma segment_path_name (dir : path) (id : Z) (name : bytes) :
  segment_path dir id = name :: dir <-> segment_name id = name.
Proof.
  unfold segment_path, path_join. split; [|by intros <-].
  intros Heq. by apply (f_equal (hd [])) in Heq.
Qed.

Lemma segment_path_inj (dir : path) (a b : Z) :
  in_u64 a -> in_u64 b -> segment_path dir a = segment_path dir b -> a = b.
Proof. intros Ha Hb Heq%segment_path_name. by apply segment_name_inj. Qed.

(** The prefix and the suffix of a name that parses; names that lack them are not segments. *)
Lemma parse_segment_name_affixes (name : bytes) (id : Z) :
  parse_segment_name name = Some id ->
  starts_with SEGMENT_PREFIX name = true /\ ends_with SEGMENT_SUFFIX name = true.
Proof.
  unfold parse_segment_name. intros H.
  destruct (strip_prefix _ name) as [rest|] eqn:E; simpl in H; [|done].
  destruct (strip_suffix _ rest) as [bs|] eqn:E2; simpl in H; [|done].
  apply strip_prefix_Some in E as ->. apply strip_suffix_Some in E2 as ->.
  split; [apply starts_with_spec; by eexists|].
  apply ends_with_spec. exists (SEGMENT_PREFIX ++ bs). by rewrite app_assoc.
Qed.

(** ** Directories *)

(** The directory and all its ancestors exist. *)
Definition dir_ok (fs : fsys) (dir : path) : Prop := forall q, q `suffix_of` dir -> is_Some (fs !! q).

Lemma dir_ok_cons (fs : fsys) (n : bytes) (d : path) :
  dir_ok fs (n :: d) <-> is_Some (fs !! (n :: d)) /\ dir_ok fs d.
Proof.
  unfold dir_ok. split.
  - intros H. split; [by apply H|]. intros q Hq. apply H. by apply suffix_cons_r.
  - intros [H1 H2] q Hq. destruct q as [|n' q]; [apply H2, suffix_nil|].
    apply suffix_cons_inv in Hq as [->|Hq]; auto.
Qed.

Lemma mk_dirs_ok (fs : fsys) (dir : path) : dir_ok fs dir -> mk_dirs dir fs = Some fs.
Proof.
  induction dir as [|n d IH]; intros Hok.
  - simpl. by destruct (Hok [] ltac:(done)) as [files ->].
  - apply dir_ok_cons in Hok as [[files Hf] Hok]. simpl. rewrite IH by done. simpl. by rewrite Hf.
Qed.

Lemma put_file_is_Some (fs : fsys) (p q : path) (f : File) :
  is_Some (put_file p f fs !! q) <-> is_Some (fs !! q).
Proof.
  destruct p as [|n d]; [done|]. unfold put_file. apply lookup_alter_is_Some.
Qed.

Lemma put_file_None (fs : fsys) (p q : path) (f : File) :
  put_file p f fs !! q = None <-> fs !! q = None.
Proof. by rewrite !eq_None_not_Some, put_file_is_Some. Qed.

Lemma dir_ok_put (fs : fsys) (p dir : path) (f : File) :
  dir_ok fs dir -> dir_ok (put_file p f fs) dir.
Proof. intros Hok q Hq. apply put_file_is_Some. by apply Hok. Qed.

(** ** Log directories

    The directory [dir] holds exactly the segment files [m], by id, under their canonical names;
    nothing else in it parses as a segment. *)
Record disk_log (fs : fsys) (dir : path) (m : gmap Z File) : Prop := {
  dl_ok : dir_ok fs dir;
  dl_file : forall id, in_u64 id -> file_at fs (segment_path dir id) = m !! id;
  dl_u64 : forall id, is_Some (m !! id) -> in_u64 id;
  dl_name : forall name id, is_Some (file_at fs (name :: dir)) ->
    parse_segment_name name = Some id -> name = segment_name id;
  dl_sub : forall name, is_Some (fs !! (name :: dir)) -> parse_segment_name name = None;
}.

(** The operations of a log on [dir] leave the other directories alone and, in [dir], the entries
    that are not segments; they never remove a file. *)
Definition log_frame (dir : path) (fs fs' : fsys) : Prop :=
  (forall d, d <> dir -> fs' !! d = fs !! d) /\
  (is_Some (fs' !! dir) <-> is_Some (fs !! dir)) /\
  (forall name, parse_segment_name name = None -> file_at fs' (name :: dir) = file_at fs (name :: dir)) /\
  (forall name, is_Some (file_at fs (name :: dir)) -> is_Some (file_at fs' (name :: dir))).

#[export] Instance log_frame_refl (dir : path) : Reflexive (log_frame dir).
Proof. by intros fs. Qed.

#[export] Instance log_frame_trans (dir : path) : Transitive (log_frame dir).
Proof.
  intros fs1 fs2 fs3 (H1 & H2 & H3 & H4) (G1 & G2 & G3 & G4).
  split; [|split; [|split]].
  - intros d Hd. by rewrite G1, H1.
  - by rewrite G2, H2.
  - intros name Hn. by rewrite G3, H3.
  - auto.
Qed.

Lemma log_frame_put (dir : path) (fs : fsys) (id : Z) (f : File) :
  in_u64 id -> log_frame dir fs (put_file (segment_path dir id) f fs).
Proof.
  intros Hid. split; [|split; [|split]].
  - intros d Hd. by apply put_file_dir_ne.
  - apply put_file_is_Some.
  - intros name Hn. apply file_at_put_ne. intros Heq%segment_path_name.
    subst name. by rewrite parse_segment_name_of in Hn.
  - intros name Hn. destruct (decide (segment_path dir id = name :: dir)) as [Heq|Hne].
    + rewrite Heq, file_at_put_eq by done. by eexists.
    + by rewrite file_at_put_ne.
Qed.

Lemma disk_log_seg_not_dir (fs : fsys) (dir : path) (m : gmap Z File) (id : Z) :
  disk_log fs dir m -> in_u64 id -> fs !! segment_path dir id = None.
Proof.
  intros Hd Hid. apply eq_None_not_Some. intros Hs. apply (dl_sub _ _ _ Hd) in Hs.
  by rewrite parse_segment_name_of in Hs.
Qed.

Lemma disk_log_put (fs : fsys) (dir : path) (m : gmap Z File) (id : Z) (f : File) :
  disk_log fs dir m -> in_u64 id ->
  disk_log (put_file (segment_path dir id) f fs) dir (<[id := f]> m).
Proof.
  intros Hd Hid. destruct Hd as [Hok Hfile Hu64 Hname Hsub]. split.
  - by apply dir_ok_put.
  - intros id' Hid'. destruct (decide (id = id')) as [<-|Hne].
    + rewrite lookup_insert_eq. unfold segment_path, path_join, file_at.
      destruct (Hok dir ltac:(done)) as [files Hf].
      rewrite (put_file_dir _ _ _ _ _ Hf). simpl. apply lookup_insert_eq.
    + rewrite lookup_insert_ne by done. rewrite file_at_put_ne; [by apply Hfile|].
      intros Heq. by apply segment_path_inj in Heq.
  - intros id' Hs. destruct (decide (id = id')) as [<-|Hne]; [done|].
    rewrite lookup_insert_ne in Hs by done. by apply Hu64.
  - intros name id' Hs Hp. destruct (decide (segment_path dir id = name :: dir)) as [Heq|Hne].
    + apply segment_path_name in Heq. subst name. rewrite parse_segment_name_of in Hp by done. congruence.
    + rewrite file_at_put_ne in Hs by done. by apply Hname.
  - intros name Hs. apply put_file_is_Some in Hs. by apply Hsub.
Qed.

(** ** Sorted ids *)

Lemma Zleb_sorted_unique (l1 l2 : list Z) :
  StronglySorted Z.lt l1 -> l2 ≡ₚ l1 -> sort_by Z.leb l2 = l1.
Proof.
  intros Hs Hp.
  assert (StronglySorted (fun a b => Z.leb a b = true) l1) as Hs1.
  { eapply StronglySorted_weaken; [|done]. intros a b Hab. apply Z.leb_le. lia. }
  assert (StronglySorted (fun a b => Z.leb a b = true) (sort_by Z.leb l2)) as Hs2.
  { apply sort_by_sorted; intros a b; [|intros c]; rewrite ?Z.leb_nle, ?Z.leb_le; lia. }
  eapply StronglySorted_unique_strong; [|done|done|by rewrite sort_by_perm].
  simpl. intros a b _ _ Ha Hb. apply Z.leb_le in Ha, Hb. lia.
Qed.
