(* ===== verification/LogSpec.v ===== *)
(** * LogSpec: what a log directory holds, and the correctness of the log

    The representation of a log on disk as a history of records, the invariant of an open log, and
    the specifications of opening, rolling over and appending under faults: what is committed is
    never lost, and what a crash interrupts is recovered as a prefix of the batch. *)
From S2P Require Export Log.

(** A file that holds the records [rs], all durable. *)
Definition sfile `{Crc32} (rs : list LogRecord) : File :=
  mkFile (encode_all rs) (length (encode_all rs)).

(** The files of a log directory: sealed segments and the last one. *)
Definition segs_map `{Crc32} (ss : list (Z * list LogRecord)) (id : Z) (f : File) : gmap Z File :=
  <[id := f]> (list_to_map ((fun s => (s.1, sfile s.2)) <$> ss)).

(** On disk: the sealed segments [ss] in order of their ids, and a last segment with a larger
    id. *)
Record log_disk `{Crc32} (fs : fsys) (dir : path) (ss : list (Z * list LogRecord)) (id : Z)
    (f : File) : Prop := {
  ld_disk : disk_log fs dir (segs_map ss id f);
  ld_sorted : StronglySorted Z.lt (ss.*1 ++ [id]);
  ld_wf : Forall (fun s => Forall wf_record s.2) ss;
}.

(** The records of the sealed segments. *)
Definition sealed_records (ss : list (Z * list LogRecord)) : list LogRecord := concat ss.*2.

(** The sequence number the log gives next after the history [hist]. *)
Definition next_of (hist : list LogRecord) : Z := seq_after (max_seq_of None hist).

(** A history the log can hold: representable records whose sequence numbers leave room for the
    next one. *)
Definition wf_hist (hist : list LogRecord) : Prop :=
  Forall wf_record hist /\ Forall (fun r => seq r < 2 ^ 64 - 1)%Z hist.

#[global] Instance wf_hist_dec (hist : list LogRecord) : Decision (wf_hist hist).
Proof. unfold wf_hist. apply _. Defined.

(** The invariant of an open log: the directory holds exactly the history [hist], and the fields
    describe it. *)
Record log_inv `{Crc32} (l : Log) (fs : fsys) (ss : list (Z * list LogRecord))
    (rs : list LogRecord) (hist : list LogRecord) : Prop := {
  li_disk : log_disk fs (log_dir l) ss (active_id l) (sfile rs);
  li_hist : hist = sealed_records ss ++ rs;
  li_wf : wf_hist hist;
  li_active : active l = mkSegment (segment_path (log_dir l) (active_id l))
    (mkHandle (segment_path (log_dir l) (active_id l)) (length (encode_all rs)))
    (Z.of_nat (length (encode_all rs)));
  li_sealed : sealed l = (fun s => (s.1, segment_path (log_dir l) s.1)) <$> ss;
  li_next : next_seq l = next_of hist;
}.

(** The log holds the history [hist]. *)
Definition log_holds `{Crc32} (l : Log) (fs : fsys) (hist : list LogRecord) : Prop :=
  exists ss rs, log_inv l fs ss rs hist.

(** The committed history [hist] is durable, and a part of the pending records may be in the
    file. *)
Definition log_pending `{Crc32} (fs : fsys) (dir : path) (hist pending : list LogRecord) : Prop :=
  exists ss id rs n,
    log_disk fs dir ss id
      (mkFile (encode_all rs ++ take n (encode_all pending)) (length (encode_all rs))) /\
    hist = sealed_records ss ++ rs /\ wf_hist hist.

(** A directory from which an [open] recovers the history [hist]. *)
Definition log_recoverable `{Crc32} (fs : fsys) (dir : path) (hist : list LogRecord)
    (torn : bool) : Prop :=
  exists ss id f rs tail,
    log_disk fs dir ss id f /\ holds_records (f_data f) rs tail /\
    length (encode_all rs) <= f_synced f /\ f_synced f <= length (f_data f) /\
    hist = sealed_records ss ++ rs /\ wf_hist hist /\ torn = bool_decide (tail <> []).

(** ** Sequence numbers *)

Lemma max_seq_of_app (m : option Z) (rs1 rs2 : list LogRecord) :
  max_seq_of m (rs1 ++ rs2) = max_seq_of (max_seq_of m rs1) rs2.
Proof. unfold max_seq_of. by rewrite foldl_app. Qed.

Lemma max_seq_of_spec (m : option Z) (rs : list LogRecord) :
  match max_seq_of m rs with
  | None => m = None /\ rs = []
  | Some x => (forall r, r ∈ rs -> (seq r <= x)%Z) /\ (forall y, m = Some y -> (y <= x)%Z) /\
              (m = Some x \/ exists r, r ∈ rs /\ seq r = x)
  end.
Proof.
  revert m. induction rs as [|r rs IH]; intros m; simpl.
  { destruct m; [|done]. split; [|split; [|by left]]; [by intros ? ?%not_elem_of_nil|].
    intros y [= ->]. lia. }
  unfold max_seq_of in *. simpl. specialize (IH (Some (match m with None => seq r | Some m => Z.max m (seq r) end))).
  destruct (foldl _ _ rs) as [x|]; [|by destruct IH].
  destruct IH as (H1 & H2 & H3). specialize (H2 _ eq_refl).
  assert (seq r <= x)%Z by (destruct m; lia). split; [|split].
  - intros r' [->|?]%elem_of_cons; auto.
  - intros y ->. lia.
  - destruct H3 as [[= H3]|(r' & ? & ?)]; [|right; exists r'; by split; [right|]].
    destruct m as [m|]; [|right; exists r; by split; [left|]].
    destruct (Z.max_spec m (seq r)) as [[? Hm]|[? Hm]]; rewrite Hm in H3; subst.
    + right. exists r. by split; [left|].
    + by left.
Qed.

#[global] Arguments max_seq_of m rs : simpl never.

Lemma next_of_nil : next_of [] = 0%Z.
Proof. done. Qed.

(** Every sequence number of a well-formed history is below the next one. *)
Lemma next_of_gt (hist : list LogRecord) (r : LogRecord) :
  wf_hist hist -> r ∈ hist -> (0 <= seq r < next_of hist)%Z.
Proof.
  intros [Hwf Hs] Hr. unfold next_of. pose proof (max_seq_of_spec None hist) as Hm.
  rewrite Forall_forall in Hwf, Hs.
  destruct (max_seq_of None hist) as [x|]; [|destruct Hm as [_ ->]; by apply not_elem_of_nil in Hr].
  destruct Hm as (H1 & _ & H3). specialize (H1 _ Hr).
  destruct H3 as [|(r' & Hr' & <-)]; [done|].
  destruct (Hwf _ Hr) as (Hu & _). destruct (Hwf _ Hr') as (Hu' & _). specialize (Hs _ Hr').
  cbv beta in Hs. unfold in_u64 in *. simpl. unfold u64_add. rewrite u64_small by (unfold in_u64; lia). lia.
Qed.

Lemma next_of_range (hist : list LogRecord) : (0 <= next_of hist < 2 ^ 64)%Z.
Proof.
  unfold next_of. destruct (max_seq_of None hist); simpl; [|lia]. apply u64_range.
Qed.

(** The next sequence number is the successor of a sequence number of the history. *)
Lemma next_of_le (hist : list LogRecord) (b : Z) :
  (0 <= b)%Z -> wf_hist hist -> (forall r, r ∈ hist -> (seq r < b)%Z) -> (next_of hist <= b)%Z.
Proof.
  intros Hb [Hwf Hs] Hlt. unfold next_of. pose proof (max_seq_of_spec None hist) as Hm.
  rewrite Forall_forall in Hwf, Hs.
  destruct (max_seq_of None hist) as [x|]; [|simpl; lia].
  destruct Hm as (_ & _ & [|(r & Hr & <-)]); [done|]. specialize (Hlt _ Hr). specialize (Hs _ Hr).
  cbv beta in Hs. destruct (Hwf _ Hr) as (Hu & _). unfold in_u64 in Hu. simpl. unfold u64_add.
  rewrite u64_small by (unfold in_u64; lia). lia.
Qed.

Definition wf_op (op : LogOp) : Prop :=
  match op with
  | OpPut key value => (Z.of_nat (length key) < 2 ^ 32)%Z /\ (Z.of_nat (length value) < 2 ^ 32)%Z
  | OpDelete key => (Z.of_nat (length key) < 2 ^ 32)%Z
  end.

#[global] Instance wf_op_dec (op : LogOp) : Decision (wf_op op).
Proof. destruct op; simpl; apply _. Defined.

(** The records of a batch that starts at sequence number [s]. *)
Fixpoint batch_records (s : Z) (ops : list LogOp) : list LogRecord :=
  match ops with
  | [] => []
  | op :: ops' => op_record s op :: batch_records (s + 1) ops'
  end.

Lemma wf_op_record (s : Z) (op : LogOp) : in_u64 s -> wf_op op -> wf_record (op_record s op).
Proof. intros Hs. destruct op; simpl; unfold wf_record; simpl; split_all; (done || lia). Qed.

Lemma seq_op_record (s : Z) (op : LogOp) : seq (op_record s op) = s.
Proof. by destruct op. Qed.

Lemma length_batch_records (s : Z) (ops : list LogOp) : length (batch_records s ops) = length ops.
Proof. revert s. induction ops; intros; simpl; auto. Qed.

Lemma assign_seqs_spec `{Crc32} (s : Z) (ops : list LogOp) :
  (0 <= s)%Z -> (s + Z.of_nat (length ops) < 2 ^ 64)%Z ->
  assign_seqs s ops =
    (batch_records s ops, (s + Z.of_nat (length ops))%Z,
     Z.of_nat (length (encode_all (batch_records s ops)))).
Proof.
  revert s. induction ops as [|op ops IH]; intros s H1 H2; simpl.
  { by rewrite encode_all_nil, Z.add_0_r. }
  cbn [length] in H2. unfold u64_add. rewrite u64_small by (unfold in_u64; lia). rewrite IH by lia.
  rewrite encode_all_cons, length_app, length_encode.
  apply pair_equal_spec. split; [apply pair_equal_spec; split; [done|]|]; lia.
Qed.

Lemma batch_records_seqs (s : Z) (ops : list LogOp) (r : LogRecord) :
  r ∈ batch_records s ops -> (s <= seq r < s + Z.of_nat (length ops))%Z.
Proof.
  revert s. induction ops as [|op ops IH]; intros s Hr; simpl in Hr.
  - by apply not_elem_of_nil in Hr.
  - apply elem_of_cons in Hr as [->|Hr]; [rewrite seq_op_record; simpl; lia|].
    apply IH in Hr. simpl. lia.
Qed.

Lemma take_batch (n : nat) (s : Z) (ops : list LogOp) :
  take n (batch_records s ops) = batch_records s (take n ops).
Proof.
  revert n s. induction ops as [|op ops IH]; intros [|n] s; simpl; [done..|]. by rewrite IH.
Qed.

Lemma batch_records_wf (s : Z) (ops : list LogOp) :
  (0 <= s)%Z -> (s + Z.of_nat (length ops) < 2 ^ 64)%Z -> Forall wf_op ops ->
  wf_hist (batch_records s ops).
Proof.
  intros H1 H2 Hops. split.
  - revert s H1 H2. induction Hops as [|op ops Hop Hops IH]; intros s H1 H2; simpl; [constructor|].
    simpl in H2. constructor; [apply wf_op_record; [unfold in_u64; lia|done]|]. apply IH; lia.
  - apply Forall_forall. intros r Hr. apply batch_records_seqs in Hr. lia.
Qed.

Lemma wf_hist_app (h1 h2 : list LogRecord) : wf_hist (h1 ++ h2) <-> wf_hist h1 /\ wf_hist h2.
Proof. unfold wf_hist. rewrite !Forall_app. tauto. Qed.

Lemma wf_hist_take (k : nat) (h : list LogRecord) : wf_hist h -> wf_hist (take k h).
Proof. rewrite <-(take_drop k h) at 1. by intros [? _]%wf_hist_app. Qed.

Lemma batch_records_last (s : Z) (ops : list LogOp) :
  ops <> [] -> exists r, r ∈ batch_records s ops /\ seq r = (s + Z.of_nat (length ops) - 1)%Z.
Proof.
  revert s. induction ops as [|op ops IH]; intros s Hne; [done|]. simpl.
  destruct ops as [|op' ops'].
  - exists (op_record s op). rewrite seq_op_record. split; [by left|simpl; lia].
  - destruct (IH (s + 1)%Z) as (r & Hr & Hs); [done|]. exists r. split; [by right|].
    simpl in *. lia.
Qed.

(** The records of a batch continue the numbering of the history. *)
Lemma next_of_batch (hist : list LogRecord) (ops : list LogOp) :
  wf_hist hist -> Forall wf_op ops -> (next_of hist + Z.of_nat (length ops) < 2 ^ 64)%Z ->
  wf_hist (hist ++ batch_records (next_of hist) ops) /\
  next_of (hist ++ batch_records (next_of hist) ops) = (next_of hist + Z.of_nat (length ops))%Z.
Proof.
  intros Hh Hops Hb. pose proof (next_of_range hist).
  assert (wf_hist (hist ++ batch_records (next_of hist) ops)) as Hwf.
  { apply wf_hist_app. split; [done|]. apply batch_records_wf; [lia|done|done]. }
  split; [done|]. destruct (decide (ops = [])) as [->|Hne].
  { simpl. rewrite app_nil_r. lia. }
  apply Z.le_antisymm.
  - apply next_of_le; [lia|done|]. intros r [Hr|Hr]%elem_of_app.
    + apply next_of_gt in Hr; [lia|done].
    + apply batch_records_seqs in Hr. lia.
  - destruct (batch_records_last (next_of hist) ops Hne) as (r & Hr & Hs).
    assert (r ∈ hist ++ batch_records (next_of hist) ops) as Hr' by (apply elem_of_app; by right).
    apply next_of_gt in Hr'; [lia|done].
Qed.

Section disk.
Context `{Crc32}.

(** ** The files of a log directory *)

Lemma lookup_segs_map_last (ss : list (Z * list LogRecord)) (id : Z) (f : File) :
  segs_map ss id f !! id = Some f.
Proof. apply lookup_insert_eq. Qed.

Lemma sorted_snoc_ne (ss : list (Z * list LogRecord)) (id : Z) :
  StronglySorted Z.lt (ss.*1 ++ [id]) -> forall id', id' ∈ ss.*1 -> (id' < id)%Z.
Proof.
  intros Hs id' Hid. eapply StronglySorted_app_1_elem_of; [done|done|by left].
Qed.

Lemma sorted_NoDup (l : list Z) : StronglySorted Z.lt l -> NoDup l.
Proof.
  induction 1 as [|x l Hs IH Hx]; constructor; [|done].
  intros Hin. rewrite Forall_forall in Hx. specialize (Hx _ Hin). lia.
Qed.

Lemma lookup_segs_map_sealed (ss : list (Z * list LogRecord)) (id : Z) (f : File) (i : Z)
    (rs : list LogRecord) :
  StronglySorted Z.lt (ss.*1 ++ [id]) -> (i, rs) ∈ ss -> segs_map ss id f !! i = Some (sfile rs).
Proof.
  intros Hs Hi. unfold segs_map.
  assert (i ∈ ss.*1) as Hi1 by (apply list_elem_of_fmap; exists (i, rs); by split).
  pose proof (sorted_snoc_ne _ _ Hs _ Hi1). rewrite lookup_insert_ne by lia.
  apply elem_of_list_to_map_1.
  - rewrite <-list_fmap_compose. apply StronglySorted_app in Hs as (_ & Hs & _).
    apply sorted_NoDup in Hs. done.
  - apply list_elem_of_fmap. by exists (i, rs).
Qed.

Lemma lookup_segs_map_is_Some (ss : list (Z * list LogRecord)) (id : Z) (f : File) (i : Z) :
  is_Some (segs_map ss id f !! i) <-> i ∈ ss.*1 ++ [id].
Proof.
  unfold segs_map. rewrite elem_of_app, list_elem_of_singleton.
  destruct (decide (i = id)) as [->|Hne].
  - rewrite lookup_insert_eq. split; [by right|by eexists].
  - rewrite lookup_insert_ne by done.
    assert (ss.*1 = ((fun s => (s.1, sfile s.2)) <$> ss).*1) as Heq
      by (rewrite <-(list_fmap_compose _ fst); reflexivity).
    rewrite Heq. split.
    + intros [g Hg]. left. apply elem_of_list_to_map_2 in Hg. apply list_elem_of_fmap. by exists (i, g).
    + intros [Hi|]; [|done]. apply not_eq_None_Some. by intros Hn%not_elem_of_list_to_map.
Qed.

Lemma segs_map_insert (ss : list (Z * list LogRecord)) (id : Z) (f f' : File) :
  <[id := f']> (segs_map ss id f) = segs_map ss id f'.
Proof. apply insert_insert_eq. Qed.

Lemma segs_map_snoc (ss : list (Z * list LogRecord)) (id id' : Z) (rs : list LogRecord) (f : File) :
  StronglySorted Z.lt (ss.*1 ++ [id]) ->
  segs_map (ss ++ [(id, rs)]) id' f = <[id' := f]> (segs_map ss id (sfile rs)).
Proof.
  intros Hs. unfold segs_map. f_equal. rewrite fmap_app. simpl. apply list_to_map_snoc.
  rewrite <-list_fmap_compose. intros Hin.
  apply (sorted_snoc_ne _ _ Hs) in Hin. lia.
Qed.

Lemma log_disk_id_u64 (fs : fsys) (dir : path) ss (id : Z) (f : File) :
  log_disk fs dir ss id f -> in_u64 id.
Proof.
  intros [Hd _ _]. apply (dl_u64 _ _ _ Hd). rewrite lookup_segs_map_last. by eexists.
Qed.

Lemma log_disk_last (fs : fsys) (dir : path) ss (id : Z) (f : File) :
  log_disk fs dir ss id f ->
  file_at fs (segment_path dir id) = Some f /\ fs !! segment_path dir id = None.
Proof.
  intros Hld. pose proof (log_disk_id_u64 _ _ _ _ _ Hld) as Hu. destruct Hld as [Hd _ _].
  split; [by rewrite (dl_file _ _ _ Hd), lookup_segs_map_last|].
  by eapply disk_log_seg_not_dir.
Qed.

Lemma log_disk_put (fs : fsys) (dir : path) ss (id : Z) (f f' : File) :
  log_disk fs dir ss id f -> log_disk (put_file (segment_path dir id) f' fs) dir ss id f'.
Proof.
  intros Hld. pose proof (log_disk_id_u64 _ _ _ _ _ Hld) as Hu. destruct Hld as [Hd Hs Hw].
  split; [|done|done]. rewrite <-(segs_map_insert ss id f f'). by apply disk_log_put.
Qed.

Lemma log_disk_roll (fs : fsys) (dir : path) ss (id id' : Z) (rs : list LogRecord) (f : File) :
  log_disk fs dir ss id (sfile rs) -> Forall wf_record rs -> (id < id')%Z -> in_u64 id' ->
  file_at fs (segment_path dir id') = None /\
  log_disk (put_file (segment_path dir id') f fs) dir (ss ++ [(id, rs)]) id' f.
Proof.
  intros [Hd Hs Hw] Hrs Hlt Hu. split.
  - rewrite (dl_file _ _ _ Hd) by done. apply eq_None_not_Some.
    rewrite lookup_segs_map_is_Some. intros [Hin|Hin]%elem_of_app.
    + apply (sorted_snoc_ne _ _ Hs) in Hin. lia.
    + apply list_elem_of_singleton in Hin. lia.
  - split.
    + rewrite segs_map_snoc with (id := id) by done. by apply disk_log_put.
    + rewrite fmap_app. apply StronglySorted_app_2; [|done|by repeat constructor].
      intros a b Ha Hb%list_elem_of_singleton. subst b.
      apply elem_of_app in Ha as [Ha|Ha%list_elem_of_singleton].
      * apply (sorted_snoc_ne _ _ Hs) in Ha. lia.
      * simpl in Ha. lia.
    + apply Forall_app. split; [done|]. by repeat constructor.
Qed.

Lemma log_disk_dir (fs : fsys) (dir : path) ss (id : Z) (f : File) :
  log_disk fs dir ss id f -> exists files, fs !! dir = Some files.
Proof. intros [Hd _ _]. exact (dl_ok _ _ _ Hd dir (reflexivity dir)). Qed.

(** ** Listing *)

Context `{DirOrder}.

Lemma list_ids_sorted (fs : fsys) (dir : path) (files : gmap bytes File) (m : gmap Z File)
    (ids : list Z) :
  disk_log fs dir m -> fs !! dir = Some files ->
  StronglySorted Z.lt ids -> (forall id, id ∈ ids <-> is_Some (m !! id)) ->
  sort_by Z.leb (omap parse_segment_name (dir_order dir (entry_names fs dir files))) = ids.
Proof.
  intros Hd Hf Hs Hids. apply Zleb_sorted_unique; [done|].
  rewrite (dir_order_perm dir). unfold entry_names. rewrite omap_app.
  rewrite (omap_nil _ (omap _ (map_to_list fs))).
  2: { intros n (q & Hq & Hn)%list_elem_of_omap. destruct q as [[|n' d] fl]; [done|].
       case_decide; simplify_eq. apply elem_of_map_to_list in Hq. eapply dl_sub; eauto. }
  rewrite app_nil_r.
  assert (forall n, n ∈ (map_to_list files).*1 <-> is_Some (file_at fs (n :: dir))) as Hkeys.
  { intros n. unfold file_at. rewrite Hf. simpl. rewrite list_elem_of_fmap. split.
    - intros [[n' f] [-> Hn]]. apply elem_of_map_to_list in Hn. by eexists.
    - intros [f Hn]. exists (n, f). by rewrite elem_of_map_to_list. }
  apply NoDup_Permutation.
  - apply NoDup_omap_inj; [apply NoDup_fst_map_to_list|].
    intros a b z Ha Hb Ea Eb. apply Hkeys in Ha, Hb.
    by rewrite (dl_name _ _ _ Hd a z), (dl_name _ _ _ Hd b z).
  - by apply sorted_NoDup.
  - intros id. rewrite list_elem_of_omap, Hids. split.
    + intros (n & Hn & Ep). apply Hkeys in Hn. pose proof (parse_segment_name_range _ _ Ep).
      rewrite (dl_name _ _ _ Hd n id) in Hn by done. by rewrite <-(dl_file _ _ _ Hd).
    + intros Hm. pose proof (dl_u64 _ _ _ Hd _ Hm) as Hu. exists (segment_name id).
      rewrite Hkeys. split; [|by apply parse_segment_name_of].
      change (segment_name id :: dir) with (segment_path dir id). by rewrite (dl_file _ _ _ Hd).
Qed.
End disk.

Section open_specs.
Context `{Crc32, DirOrder}.
Context {F : FaultModel}.

(** The sealed segments as the fields of the log list them. *)
Definition sealed_paths (dir : path) (ss : list (Z * list LogRecord)) : list (Z * path) :=
  (fun s => (s.1, segment_path dir s.1)) <$> ss.

Lemma sealed_records_app (ss1 ss2 : list (Z * list LogRecord)) :
  sealed_records (ss1 ++ ss2) = sealed_records ss1 ++ sealed_records ss2.
Proof. unfold sealed_records. by rewrite fmap_app, concat_app. Qed.

Lemma sealed_records_snoc (ss : list (Z * list LogRecord)) (id : Z) (rs : list LogRecord) :
  sealed_records (ss ++ [(id, rs)]) = sealed_records ss ++ rs.
Proof. rewrite sealed_records_app. unfold sealed_records at 2. simpl. by rewrite app_nil_r. Qed.

(** The state of the log and the report that opening a directory with the sealed segments [ss], a
    last segment [id] and the records [rs] in it returns. *)
Definition opened (dir : path) (mb : Z) (ss : list (Z * list LogRecord)) (id : Z)
    (rs : list LogRecord) (torn : bool) : Log * OpenReport :=
  (mkLog dir mb (sealed_paths dir ss) id
     (mkSegment (segment_path dir id) (mkHandle (segment_path dir id) (length (encode_all rs)))
        (Z.of_nat (length (encode_all rs))))
     (next_of (sealed_records ss ++ rs)),
   mkReport (sealed_records ss ++ rs) torn).

Lemma wpc_open_last (fs : fsys) (dir : path) (mb : Z) ss (id : Z) (f : File) rs tail :
  log_disk fs dir ss id f -> holds_records (f_data f) rs tail ->
  length (encode_all rs) <= f_synced f ->
  let fs1 := put_file (segment_path dir id) (sfile rs) fs in
  wpc F (open_loop dir mb (Some id) (sealed_records ss) (sealed_paths dir ss) false
           (max_seq_of None (sealed_records ss)) [id]) tt fs
    (fun a _ fs' => a = opened dir mb ss id rs (bool_decide (tail <> [])) /\ fs' = fs1)
    (fun _ _ fs' => may_err F /\ (fs' = fs \/ fs' = fs1)) (fun fs' => may_crash F /\ (fs' = fs \/ fs' = fs1)).
Proof.
  intros Hld Hh Hs fs1. destruct (log_disk_last _ _ _ _ _ Hld) as [Hf Hnd].
  assert (length (encode_all rs) <= length (f_data f)) as Hle.
  { destruct Hh as (-> & _). rewrite length_app. lia. }
  assert (put_file (segment_path dir id) (mkFile (take (length (encode_all rs)) (f_data f))
    (f_synced f `min` length (encode_all rs))) fs = fs1) as Heq.
  { unfold fs1, sfile. rewrite Nat.min_r by lia. destruct Hh as (-> & _).
    by rewrite take_app_length. }
  simpl. wpc_steps. eapply wpc_mono; [by apply wpc_recover| | |].
  - intros a [] fs' [-> ->]. rewrite (recover_bytes_spec _ _ _ Hh). simpl.
    rewrite (bool_decide_eq_true_2 (Some id = Some id)) by done. rewrite andb_false_r. wpc_steps.
    eapply wpc_mono; [by apply wpc_open_for_append| | |]; rewrite Heq.
    + intros s [] fs' [-> ->]. wpc_steps. split; [|done].
      unfold opened, next_of. rewrite max_seq_of_app. done.
    + auto.
    + auto.
  - intros e _ fs' [HF ->]. auto.
  - intros fs' [HF ->]. auto.
Qed.

Lemma wpc_open_loop (fs : fsys) (dir : path) (mb : Z) ss0 ss (id : Z) (f : File) rs tail :
  log_disk fs dir (ss0 ++ ss) id f -> holds_records (f_data f) rs tail ->
  length (encode_all rs) <= f_synced f ->
  let fs1 := put_file (segment_path dir id) (sfile rs) fs in
  wpc F (open_loop dir mb (Some id) (sealed_records ss0) (sealed_paths dir ss0) false
           (max_seq_of None (sealed_records ss0)) (ss.*1 ++ [id])) tt fs
    (fun a _ fs' => a = opened dir mb (ss0 ++ ss) id rs (bool_decide (tail <> [])) /\ fs' = fs1)
    (fun _ _ fs' => may_err F /\ (fs' = fs \/ fs' = fs1)) (fun fs' => may_crash F /\ (fs' = fs \/ fs' = fs1)).
Proof.
  intros Hld Hh Hs fs1. revert ss0 Hld. induction ss as [|[i rsi] ss IH]; intros ss0 Hld.
  { rewrite app_nil_r in *. by eapply wpc_open_last. }
  assert ((i, rsi) ∈ ss0 ++ (i, rsi) :: ss) as Hin by (apply elem_of_app; right; by left).
  assert (Forall wf_record rsi) as Hwf.
  { pose proof (ld_wf _ _ _ _ _ Hld) as Hw. rewrite Forall_forall in Hw. by apply (Hw (i, rsi)). }
  pose proof (lookup_segs_map_sealed _ _ f _ _ (ld_sorted _ _ _ _ _ Hld) Hin) as Hlk.
  pose proof (dl_u64 _ _ _ (ld_disk _ _ _ _ _ Hld) i ltac:(by eexists)) as Hiu.
  rewrite <-(dl_file _ _ _ (ld_disk _ _ _ _ _ Hld)) in Hlk by done.
  assert (i < id)%Z as Hlt.
  { eapply sorted_snoc_ne; [eapply ld_sorted, Hld|]. apply list_elem_of_fmap.
    by exists (i, rsi). }
  simpl. wpc_steps. eapply wpc_mono; [by apply wpc_recover| | |].
  - intros a [] fs' [-> ->]. unfold sfile. simpl f_data.
    rewrite (recover_bytes_spec _ _ _ (holds_records_full _ Hwf)). simpl.
    rewrite (bool_decide_eq_false_2 (Some i = Some id)) by (intros [= ?]; lia).
    rewrite <-max_seq_of_app, <-sealed_records_snoc with (id := i).
    replace (sealed_paths dir ss0 ++ [(i, segment_path dir i)])
      with (sealed_paths dir (ss0 ++ [(i, rsi)])) by (unfold sealed_paths; by rewrite fmap_app).
    specialize (IH (ss0 ++ [(i, rsi)])). rewrite <-app_assoc in IH. by apply IH.
  - intros e _ fs' [HF ->]. auto.
  - intros fs' [HF ->]. auto.
Qed.

(** ** Creating directories *)

Lemma mk_dirs_dir_ok (dir : path) (fs fs1 : fsys) :
  mk_dirs dir fs = Some fs1 -> dir_ok fs1 dir /\ (forall q, is_Some (fs !! q) -> fs1 !! q = fs !! q).
Proof.
  revert fs1. induction dir as [|n d IH]; intros fs1 Hm; simpl in Hm.
  - injection Hm as <-. split.
    + intros q Hq. apply suffix_nil_inv in Hq as ->. destruct (fs !! []) eqn:E; [by rewrite E|].
      rewrite lookup_insert_eq. by eexists.
    + intros q Hq. destruct (fs !! []) eqn:E; [done|]. rewrite lookup_insert_ne; [done|].
      intros <-. rewrite E in Hq. by destruct Hq.
  - destruct (mk_dirs d fs) as [fs2|]; simpl in Hm; [|done].
    destruct (IH fs2 eq_refl) as [Hok Hsame].
    destruct (fs2 !! (n :: d)) as [files|] eqn:E; [injection Hm as <-|].
    { split; [|done]. apply dir_ok_cons. rewrite E. split; [by eexists|done]. }
    destruct (file_at fs2 (n :: d)); [done|]. injection Hm as <-. split.
    + apply dir_ok_cons. rewrite lookup_insert_eq. split; [by eexists|]. intros q Hq.
      rewrite lookup_insert_ne; [by apply Hok|]. intros <-. apply suffix_length in Hq. simpl in Hq. lia.
    + intros q Hq. rewrite lookup_insert_ne; [by apply Hsame|]. intros <-.
      rewrite <-Hsame, E in Hq by done. by destruct Hq.
Qed.

(** Creating a directory after some of its ancestors is creating it. *)
Lemma mk_dirs_suffix (dir d : path) (fs fs1 : fsys) :
  d `suffix_of` dir -> mk_dirs d fs = Some fs1 -> mk_dirs dir fs1 = mk_dirs dir fs.
Proof.
  intros Hsuf Hd. induction dir as [|n dir IH].
  { apply suffix_nil_inv in Hsuf as ->. rewrite Hd. eapply mk_dirs_ok, mk_dirs_dir_ok, Hd. }
  destruct (decide (d = n :: dir)) as [->|Hne].
  { rewrite Hd. eapply mk_dirs_ok, mk_dirs_dir_ok, Hd. }
  apply suffix_cons_or in Hsuf as [->|Hsuf]; [done|]. simpl. by rewrite IH.
Qed.

Lemma mk_dirs_partial (dir d : path) (fs fs1 : fsys) :
  d `suffix_of` dir -> mk_dirs dir fs = Some fs1 -> is_Some (mk_dirs d fs).
Proof.
  revert fs1. induction dir as [|n dir IH]; intros fs1 Hsuf Hm.
  { apply suffix_nil_inv in Hsuf as ->. by eexists. }
  destruct (decide (d = n :: dir)) as [->|Hne]; [by eexists|].
  apply suffix_cons_or in Hsuf as [->|Hsuf]; [done|]. simpl in Hm.
  destruct (mk_dirs dir fs) as [fs2|] eqn:E; [|done]. by eapply IH.
Qed.

(** A directory without segments, which may not exist yet. *)
Definition no_log (fs : fsys) (dir : path) : Prop :=
  exists fs1, mk_dirs dir fs = Some fs1 /\ disk_log fs1 dir ∅.

(** A directory that [open] turns into a log that holds [hist]. *)
Definition log_ready (fs : fsys) (dir : path) (hist : list LogRecord) (torn : bool) : Prop :=
  log_recoverable fs dir hist torn \/ (no_log fs dir /\ hist = [] /\ torn = false).

Lemma disk_log_put_new (fs : fsys) (dir : path) (id : Z) (f : File) :
  disk_log fs dir ∅ -> in_u64 id ->
  log_disk (put_file (segment_path dir id) f fs) dir [] id f.
Proof.
  intros Hd Hid. split; [|by repeat constructor|constructor].
  by apply (disk_log_put _ _ _ id f) in Hd.
Qed.

Lemma log_disk_recoverable (fs : fsys) (dir : path) ss (id : Z) rs :
  log_disk fs dir ss id (sfile rs) -> wf_hist (sealed_records ss ++ rs) ->
  log_recoverable fs dir (sealed_records ss ++ rs) false.
Proof.
  intros Hld Hwf. exists ss, id, (sfile rs), rs, []. split; [done|].
  pose proof Hwf as [_ [Hrs _]]%wf_hist_app. split; [by apply holds_records_full|].
  by rewrite bool_decide_eq_false_2 by auto.
Qed.

Lemma opened_holds (fs : fsys) (dir : path) (mb : Z) ss (id : Z) rs torn :
  log_disk fs dir ss id (sfile rs) -> wf_hist (sealed_records ss ++ rs) ->
  log_holds (opened dir mb ss id rs torn).1 fs (sealed_records ss ++ rs).
Proof. intros Hld Hwf. exists ss, rs. by split. Qed.

Lemma log_holds_recoverable (l : Log) (fs : fsys) (hist : list LogRecord) :
  log_holds l fs hist -> log_recoverable fs (log_dir l) hist false.
Proof.
  intros (ss & rs & [Hld -> Hwf _ _ _]). by eapply log_disk_recoverable.
Qed.

(** What opening does outside of the segments: it creates the directory. *)
Definition open_frame (dir : path) (fs fs' : fsys) : Prop :=
  exists d fs1, d `suffix_of` dir /\ mk_dirs d fs = Some fs1 /\ log_frame dir fs1 fs'.

(** ** Opening *)

Lemma wpc_list_ids (fs : fsys) (dir : path) (files : gmap bytes File) (m : gmap Z File)
    (ids : list Z) :
  ~ may_err F -> disk_log fs dir m -> fs !! dir = Some files ->
  StronglySorted Z.lt ids -> (forall id, id ∈ ids <-> is_Some (m !! id)) ->
  wpc F (list_segment_ids dir) tt fs
    (fun a _ fs' => a = ids /\ fs' = fs) (fun _ _ _ => False) (fun fs' => may_crash F /\ fs' = fs).
Proof.
  intros HF Hd Hf Hs Hids. unfold list_segment_ids. wpc_steps.
  apply wpc_path_exists; [|done|done].
  rewrite bool_decide_eq_true_2 by (left; by eexists). simpl. wpc_steps.
  apply wpc_atomic; [|done|done]. rewrite Hf. wpc_steps. split; [|done].
  by eapply list_ids_sorted.
Qed.

Lemma wpc_create_dir_ok (fs : fsys) (dir : path) :
  dir_ok fs dir ->
  wpc F (create_dir_all dir) tt fs (fun _ _ fs' => fs' = fs)
    (fun _ _ fs' => may_err F /\ fs' = fs) (fun fs' => may_crash F /\ fs' = fs).
Proof.
  intros Hok. assert (forall k, default fs (mk_dirs (drop k dir) fs) = fs) as Hk.
  { intros k. rewrite mk_dirs_ok; [done|]. intros q Hq. apply Hok. etrans; [done|].
    apply suffix_drop. }
  apply wpc_prim; simpl.
  - by rewrite mk_dirs_ok.
  - intros HF k. by rewrite Hk.
  - intros HF k. by rewrite Hk.
Qed.

Lemma wpc_open_recoverable_id (fs : fsys) (dir : path) (mb : Z) (hist : list LogRecord) (torn : bool) :
  ~ may_err F -> log_recoverable fs dir hist torn ->
  wpc F (open_with_segment_size dir mb) tt fs
    (fun a _ fs' => log_holds a.1 fs' hist /\ log_dir a.1 = dir /\ segment_max_bytes a.1 = mb /\
       a.2 = mkReport hist torn /\ log_frame dir fs fs' /\
       is_Some (file_at fs (segment_path dir (active_id a.1))))
    (fun _ _ _ => False)
    (fun fs' => may_crash F /\ (exists torn', log_recoverable fs' dir hist torn') /\
       log_frame dir fs fs').
Proof.
  intros HF (ss & id & f & rs & tail & Hld & Hh & Hs1 & Hs2 & -> & Hwf & ->).
  assert (exists torn', log_recoverable fs dir (sealed_records ss ++ rs) torn') as Hrec.
  { eexists. exists ss, id, f, rs, tail. done. }
  pose proof (log_disk_id_u64 _ _ _ _ _ Hld) as Hu.
  destruct (log_disk_dir _ _ _ _ _ Hld) as [files Hf].
  pose proof (log_disk_put _ _ _ _ _ (sfile rs) Hld) as Hld1.
  pose proof (log_frame_put dir fs id (sfile rs) Hu) as Hfr.
  unfold open_with_segment_size. wpc_steps.
  eapply wpc_mono; [apply wpc_create_dir_ok, Hld| |by intros ? ? ? [? _]|by intros ? [? ->]].
  intros [] [] fs' ->. wpc_steps.
  eapply wpc_mono; [eapply (wpc_list_ids _ _ files _ (ss.*1 ++ [id]))| |done|by intros ? [? ->]];
    [done|apply Hld|done|apply Hld|intros; by rewrite lookup_segs_map_is_Some|].
  intros a [] fs' [-> ->]. rewrite last_snoc.
  eapply wpc_mono; [by eapply (wpc_open_loop fs dir mb [] ss)| | |].
  - intros a [] fs' [-> ->]. simpl app. split; [by apply opened_holds|]. split_and!; try done.
    simpl. rewrite (dl_file _ _ _ (ld_disk _ _ _ _ _ Hld) id Hu), lookup_segs_map_is_Some.
    apply elem_of_app. right. by left.
  - by intros e [] fs' [? _].
  - intros fs' [HC [-> | ->]]; (split; [done|]); [by split|split; [|done]].
    eexists. by eapply log_disk_recoverable.
Qed.

Lemma wpc_open_recoverable (fs : fsys) (dir : path) (mb : Z) (hist : list LogRecord) (torn : bool) :
  ~ may_err F -> log_recoverable fs dir hist torn ->
  wpc F (open_with_segment_size dir mb) tt fs
    (fun a _ fs' => log_holds a.1 fs' hist /\ log_dir a.1 = dir /\ segment_max_bytes a.1 = mb /\
       a.2 = mkReport hist torn /\ log_frame dir fs fs')
    (fun _ _ _ => False)
    (fun fs' => may_crash F /\ (exists torn', log_recoverable fs' dir hist torn') /\
       log_frame dir fs fs').
Proof.
  intros HF Hr. eapply wpc_mono; [by apply wpc_open_recoverable_id| |done|done].
  intros a [] fs' (? & ? & ? & ? & ? & _). done.
Qed.

Lemma wpc_open_new (fs fs1 : fsys) (dir : path) (mb : Z) :
  ~ may_err F -> mk_dirs dir fs = Some fs1 -> disk_log fs1 dir ∅ ->
  wpc F (open_with_segment_size dir mb) tt fs
    (fun a _ fs' => log_holds a.1 fs' [] /\ log_dir a.1 = dir /\ active_id a.1 = 0%Z /\
       a.2 = mkReport [] false /\ log_frame dir fs1 fs')
    (fun _ _ _ => False)
    (fun fs' => may_crash F /\ log_ready fs' dir [] false /\ open_frame dir fs fs').
Proof.
  intros HF Hm Hd. pose proof (mk_dirs_dir_ok _ _ _ Hm) as [Hok _].
  destruct (Hok dir (reflexivity dir)) as [files Hf].
  assert (forall d fs2, d `suffix_of` dir -> mk_dirs d fs = Some fs2 ->
    log_ready fs2 dir [] false /\ open_frame dir fs fs2) as Hpart.
  { intros d fs2 Hsuf Hm2. split; [|by exists d, fs2].
    right. split; [|done]. exists fs1. by rewrite (mk_dirs_suffix _ _ _ _ Hsuf Hm2). }
  assert (log_ready fs1 dir [] false /\ open_frame dir fs fs1) as Hfull by by eapply Hpart.
  unfold open_with_segment_size. wpc_steps. apply wpc_prim; simpl; [|done|].
  2: { intros HC k. split; [done|]. set (d := drop _ dir).
       assert (d `suffix_of` dir) as Hsuf by apply suffix_drop.
       destruct (mk_dirs_partial _ _ _ _ Hsuf Hm) as [fs2 Hm2]. rewrite Hm2. by eapply Hpart. }
  rewrite Hm. wpc_steps.
  assert (forall id : Z, id ∈ @nil Z <-> is_Some ((∅ : gmap Z File) !! id)) as Hids.
  { intros id. rewrite lookup_empty. split; [by intros ?%not_elem_of_nil|by intros [? ?]]. }
  eapply wpc_mono; [by eapply (wpc_list_ids _ _ files ∅ []); [..|constructor|]| |done|by intros ? [? ->]].
  intros a [] fs' [-> ->]. simpl. wpc_steps.
  assert (in_u64 0) as Hu0 by (unfold in_u64; lia).
  pose proof (disk_log_put_new fs1 dir 0 (mkFile [] 0) Hd Hu0) as Hld.
  pose proof (log_frame_put dir fs1 0 (mkFile [] 0) Hu0) as Hfr.
  assert (wf_hist []) as Hwf by by split.
  assert (mkFile [] 0 = sfile []) as Hnil by done.
  eapply wpc_mono; [eapply (wpc_open_for_append_new (segment_name 0) dir fs1 files)| | |].
  - done.
  - pose proof (dl_file _ _ _ Hd 0 Hu0) as Hn. rewrite lookup_empty in Hn.
    unfold segment_path, path_join, file_at in Hn. by rewrite Hf in Hn.
  - by eapply disk_log_seg_not_dir.
  - intros s [] fs' [-> ->]. wpc_steps. split; [|done].
    rewrite Hnil in Hld |- *. by apply (opened_holds _ _ mb [] 0 [] false) in Hld.
  - by intros e [] fs' [? _].
  - intros fs' [HC [-> | ->]]; [done|]. split; [done|]. split.
    + left. rewrite Hnil in Hld |- *. by apply (log_disk_recoverable _ _ [] 0 []) in Hld.
    + by exists dir, fs1.
Qed.
End open_specs.

Section append_specs.
Context `{Crc32}.
Context {F : FaultModel}.

Lemma log_disk_pending (fs : fsys) (dir : path) ss (id : Z) rs (pending : list LogRecord) :
  log_disk fs dir ss id (sfile rs) -> wf_hist (sealed_records ss ++ rs) ->
  log_pending fs dir (sealed_records ss ++ rs) pending.
Proof.
  intros Hld Hwf. exists ss, id, rs, 0. rewrite take_0, app_nil_r. by split.
Qed.

(** ** Rollover *)

Lemma wpc_roll_over (l : Log) (fs : fsys) ss rs (hist : list LogRecord) (incoming : Z) :
  log_inv l fs ss rs hist -> (active_id l + 1 < 2 ^ 64)%Z ->
  let ok fs' := (forall pending, log_pending fs' (log_dir l) hist pending) /\
                log_frame (log_dir l) fs fs' in
  wpc F (roll_over_if_needed incoming) l fs
    (fun _ l' fs' => (exists ss' rs', log_inv l' fs' ss' rs' hist) /\ log_dir l' = log_dir l /\
       segment_max_bytes l' = segment_max_bytes l /\ log_frame (log_dir l) fs fs')
    (fun _ _ fs' => may_err F /\ ok fs') (fun fs' => may_crash F /\ ok fs').
Proof.
  intros Hinv Hid ok. pose proof Hinv as [Hld Hh Hwf Hact Hsealed Hnext].
  unfold roll_over_if_needed. wpc_steps. case_match.
  { wpc_steps. split; [by exists ss, rs|]. done. }
  pose proof (log_disk_id_u64 _ _ _ _ _ Hld) as Hu.
  set (id' := (active_id l + 1)%Z). set (dir := log_dir l) in *.
  assert (u64_add (active_id l) 1 = id') as Hadd.
  { apply u64_small. unfold in_u64 in *. lia. }
  assert (in_u64 id') as Hu' by (unfold in_u64, id' in *; lia).
  pose proof Hwf as Hwf'. rewrite Hh in Hwf'. apply wf_hist_app in Hwf' as [_ [Hrs _]].
  destruct (log_disk_roll _ _ _ _ id' _ (mkFile [] 0) Hld Hrs) as [Hn Hld'];
    [unfold id'; lia|done|].
  pose proof (log_frame_put dir fs id' (mkFile [] 0) Hu') as Hfr.
  destruct (log_disk_dir _ _ _ _ _ Hld) as [files Hf].
  assert (hist = sealed_records (ss ++ [(active_id l, rs)]) ++ []) as Hh'.
  { by rewrite sealed_records_snoc, app_nil_r. }
  assert (ok fs /\ ok (put_file (segment_path dir id') (mkFile [] 0) fs)) as [Hok1 Hok2].
  { split; (split; [|done]); intros pending.
    - rewrite Hh. apply log_disk_pending with (id := active_id l); [done|by rewrite <-Hh].
    - rewrite Hh'. apply log_disk_pending with (id := id'); [done|by rewrite <-Hh']. }
  wpc_steps. rewrite Hadd. fold dir. eapply wpc_mono.
  - apply (wpc_open_for_append_new (segment_name id') dir fs files); [done| |].
    + unfold segment_path, path_join, file_at in Hn. by rewrite Hf in Hn.
    + eapply disk_log_seg_not_dir; [apply Hld|done].
  - intros s [] fs' [-> ->]. wpc_steps. split; [|done].
    exists (ss ++ [(active_id l, rs)]), []. split; simpl; rewrite ?Hadd; try done.
    rewrite Hsealed, fmap_app, Hact. done.
  - intros e [] fs' [HF [-> | ->]]; by split.
  - intros fs' [HF [-> | ->]]; by split.
Qed.

(** ** Group-committed append *)

Lemma log_inv_seg_rep (l : Log) (fs : fsys) ss rs (hist : list LogRecord) :
  log_inv l fs ss rs hist -> seg_rep (active l) fs (encode_all rs).
Proof.
  intros [Hld _ _ Hact _ _]. destruct (log_disk_last _ _ _ _ _ Hld) as [Hf _].
  rewrite Hact. by repeat split.
Qed.

(** Appending records to the active segment. *)
Lemma wpc_append_records (l : Log) (fs : fsys) ss rs (hist rs' : list LogRecord) :
  log_inv l fs ss rs hist -> wf_hist rs' ->
  let ok fs' := log_pending fs' (log_dir l) hist rs' /\ log_frame (log_dir l) fs fs' in
  wpc F (zoom active set_active (map_err LogIo (seg_append_batch rs'))) l fs
    (fun _ l' fs' => (forall n, n = next_of (hist ++ rs') ->
         exists ss' rs'', log_inv (set_next_seq n l') fs' ss' rs'' (hist ++ rs')) /\
       log_dir l' = log_dir l /\ segment_max_bytes l' = segment_max_bytes l /\
       next_seq l' = next_seq l /\ log_frame (log_dir l) fs fs')
    (fun _ _ fs' => may_err F /\ ok fs') (fun fs' => may_crash F /\ ok fs').
Proof.
  intros Hinv Hrs' ok. pose proof (log_inv_seg_rep _ _ _ _ _ Hinv) as Hrep.
  pose proof Hinv as [Hld Hh Hwf Hact Hsealed Hnext].
  pose proof (log_disk_id_u64 _ _ _ _ _ Hld) as Hu.
  assert (seg_path (active l) = segment_path (log_dir l) (active_id l)) as Hp by by rewrite Hact.
  assert (forall n, ok (put_file (seg_path (active l))
    (mkFile (encode_all rs ++ take n (encode_all rs')) (length (encode_all rs))) fs)) as Hok.
  { intros n. rewrite Hp. split; [|by apply log_frame_put].
    exists ss, (active_id l), rs, n. split; [|done]. by eapply log_disk_put. }
  wpc_steps. eapply wpc_mono; [by apply wpc_seg_append_batch| | |].
  - intros offs s' fs' (_ & Hp' & (Hf' & Hh' & Hl') & ->). rewrite <-encode_all_app in *.
    rewrite Hp. split; [|by split_all; try done; apply log_frame_put].
    intros n ->. exists ss, (rs ++ rs'). split; simpl; try done.
    + by eapply log_disk_put.
    + by rewrite Hh, app_assoc.
    + by apply wf_hist_app.
    + rewrite Hp', Hp in *. destruct s' as [p h len]. simpl in *. by subst.
  - intros e s' fs' [HF [n [-> ->]]]. by split.
  - intros fs' [HF [n ->]]. by split.
Qed.

(** [append_batch]: on success the batch is durable, numbered from [next_seq]; a failure or a
    crash leaves the committed history durable and a part of the batch behind it. *)
Lemma wpc_log_append_batch (l : Log) (fs : fsys) (hist : list LogRecord) (ops : list LogOp) :
  log_holds l fs hist -> (active_id l + 1 < 2 ^ 64)%Z -> Forall wf_op ops ->
  (next_of hist + Z.of_nat (length ops) < 2 ^ 64)%Z ->
  let records := batch_records (next_of hist) ops in
  let ok fs' := log_pending fs' (log_dir l) hist records /\ log_frame (log_dir l) fs fs' in
  wpc F (log_append_batch ops) l fs
    (fun a l' fs' => a = records /\ log_holds l' fs' (hist ++ records) /\
       log_dir l' = log_dir l /\ segment_max_bytes l' = segment_max_bytes l /\
       log_frame (log_dir l) fs fs')
    (fun _ _ fs' => may_err F /\ ok fs') (fun fs' => may_crash F /\ ok fs').
Proof.
  intros (ss & rs & Hinv) Hid Hops Hn records ok.
  pose proof (next_of_range hist) as Hr. pose proof (li_next _ _ _ _ _ Hinv) as Hnext.
  pose proof (li_wf _ _ _ _ _ Hinv) as Hwf.
  assert (wf_hist records) as Hwr by (apply batch_records_wf; [lia|done|done]).
  destruct (next_of_batch hist ops Hwf Hops Hn) as [_ Hnb].
  unfold log_append_batch. wpc_steps. rewrite Hnext, assign_seqs_spec by lia. fold records.
  wpc_steps. eapply wpc_mono; [by eapply wpc_roll_over| | |].
  - intros [] l1 fs1 ((ss1 & rs1 & Hinv1) & Hd1 & Hm1 & Hfr1).
    wpc_step. eapply wpc_mono; [by eapply wpc_append_records| | |].
    + intros offs l2 fs2 (Hinv2 & Hd2 & Hm2 & _ & Hfr2). wpc_steps.
      rewrite Hd1 in Hfr2. split; [done|].
      split; [by apply Hinv2|]. split; [congruence|]. split; [congruence|]. by etrans.
    + intros e l2 fs2 (HF & Hp & Hfr2). rewrite Hd1 in *. split; [done|]. split; [done|by etrans].
    + intros fs2 (HF & Hp & Hfr2). rewrite Hd1 in *. split; [done|]. split; [done|by etrans].
  - intros e l1 fs1 (HF & Hp & Hfr1). split; [done|]. by split.
  - intros fs1 (HF & Hp & Hfr1). split; [done|]. by split.
Qed.

Lemma wpc_append_verbatim (l : Log) (fs : fsys) (records : list LogRecord) :
  log_holds l fs [] -> (active_id l + 1 < 2 ^ 64)%Z -> wf_hist records ->
  let ok fs' := log_pending fs' (log_dir l) [] records /\ log_frame (log_dir l) fs fs' in
  wpc F (append_records_verbatim records) l fs
    (fun _ l' fs' => log_holds l' fs' records /\ log_dir l' = log_dir l /\
       segment_max_bytes l' = segment_max_bytes l /\ log_frame (log_dir l) fs fs')
    (fun _ _ fs' => may_err F /\ ok fs') (fun fs' => may_crash F /\ ok fs').
Proof.
  intros Hh Hid Hwf ok. destruct records as [|r records]; simpl; [by wpc_steps|].
  destruct Hh as (ss & rs & Hinv). pose proof (li_next _ _ _ _ _ Hinv) as Hnext.
  unfold append_records_verbatim. wpc_steps. eapply wpc_mono; [by eapply wpc_roll_over| | |].
  - intros [] l1 fs1 ((ss1 & rs1 & Hinv1) & Hd1 & Hm1 & Hfr1).
    wpc_step. eapply wpc_mono; [by eapply wpc_append_records| | |].
    + intros offs l2 fs2 (Hinv2 & Hd2 & Hm2 & Hn2 & Hfr2). rewrite Hd1 in *.
      pose proof (next_of_range (r :: records)) as Hrange.
      assert (forall n, n = next_of (r :: records) -> log_holds (set_next_seq n l2) fs2 (r :: records)) as Hl2
        by (intros n ->; by apply Hinv2).
      pose proof (max_seq_of_spec None (r :: records)) as Hmax.
      unfold next_of in Hl2, Hrange.
      destruct (max_seq_of None (r :: records)) as [m|] eqn:E; [|by destruct Hmax].
      wpc_steps. split; [|split; [done|split; [congruence|by etrans]]].
      apply Hl2. rewrite Hn2. rewrite (li_next _ _ _ _ _ Hinv1), next_of_nil.
      simpl in Hrange |- *. lia.
    + intros e l2 fs2 (HF & Hp & Hfr2). rewrite Hd1 in *. split; [done|]. split; [done|by etrans].
    + intros fs2 (HF & Hp & Hfr2). rewrite Hd1 in *. split; [done|]. split; [done|by etrans].
  - intros e l1 fs1 (HF & Hp & Hfr1). split; [done|]. by split.
  - intros fs1 (HF & Hp & Hfr1). split; [done|]. by split.
Qed.
End append_specs.

(** ** Crashes *)

Section crash_specs.
Context `{Crc32}.

Lemma lookup_crash_fs (cut : path -> nat) (fs : fsys) (d : path) :
  crash_fs cut fs !! d =
    map_imap (fun n f => Some (crash_file (cut (n :: d)) f)) <$> (fs !! d).
Proof. unfold crash_fs. rewrite map_lookup_imap. by destruct (fs !! d). Qed.

Lemma crash_fs_is_Some (cut : path -> nat) (fs : fsys) (d : path) :
  is_Some (crash_fs cut fs !! d) <-> is_Some (fs !! d).
Proof. by rewrite lookup_crash_fs, fmap_is_Some. Qed.

Lemma file_at_crash (cut : path -> nat) (fs : fsys) (p : path) :
  file_at (crash_fs cut fs) p = crash_file (cut p) <$> file_at fs p.
Proof.
  destruct p as [|n d]; [done|]. unfold file_at. rewrite lookup_crash_fs.
  destruct (fs !! d) as [files|]; simpl; [|done]. rewrite map_lookup_imap.
  by destruct (files !! n).
Qed.

Lemma crash_fs_mkdir (cut : path -> nat) (fs : fsys) (d : path) :
  crash_fs cut (<[d := ∅]> fs) = <[d := ∅]> (crash_fs cut fs).
Proof.
  apply map_eq. intros d'. rewrite lookup_crash_fs. destruct (decide (d = d')) as [<-|Hne].
  - rewrite !lookup_insert_eq. simpl. by rewrite map_imap_empty.
  - by rewrite !lookup_insert_ne, lookup_crash_fs.
Qed.

Lemma mk_dirs_crash (cut : path -> nat) (dir : path) (fs fs1 : fsys) :
  mk_dirs dir fs = Some fs1 -> mk_dirs dir (crash_fs cut fs) = Some (crash_fs cut fs1).
Proof.
  revert fs1. induction dir as [|n d IH]; intros fs1 Hm; simpl in *.
  - injection Hm as <-. rewrite lookup_crash_fs. destruct (fs !! []); simpl; [done|].
    by rewrite crash_fs_mkdir.
  - destruct (mk_dirs d fs) as [fs2|]; simpl in *; [|done].
    rewrite (IH fs2) by done. simpl. rewrite lookup_crash_fs, file_at_crash.
    destruct (fs2 !! (n :: d)); simpl; [congruence|].
    destruct (file_at fs2 (n :: d)); simpl in *; [done|]. injection Hm as <-.
    by rewrite crash_fs_mkdir.
Qed.

Lemma disk_log_crash (cut : path -> nat) (fs : fsys) (dir : path) (m : gmap Z File) :
  disk_log fs dir m ->
  disk_log (crash_fs cut fs) dir
    (map_imap (fun id f => Some (crash_file (cut (segment_path dir id)) f)) m).
Proof.
  intros [Hok Hfile Hu Hname Hsub]. split.
  - intros q Hq. rewrite crash_fs_is_Some. by apply Hok.
  - intros id Hid. rewrite file_at_crash, map_lookup_imap, Hfile by done. by destruct (m !! id).
  - intros id. rewrite map_lookup_imap. intros [f Hf]. apply Hu. by destruct (m !! id).
  - intros name id. rewrite file_at_crash, fmap_is_Some. apply Hname.
  - intros name. rewrite crash_fs_is_Some. apply Hsub.
Qed.

Lemma crash_file_synced (k : nat) (rs : list LogRecord) : crash_file k (sfile rs) = sfile rs.
Proof. unfold crash_file, sfile. simpl. by rewrite take_ge by lia. Qed.

Lemma log_disk_crash (cut : path -> nat) (fs : fsys) (dir : path) ss (id : Z) (f : File) :
  log_disk fs dir ss id f ->
  log_disk (crash_fs cut fs) dir ss id (crash_file (cut (segment_path dir id)) f).
Proof.
  intros [Hd Hs Hw]. split; [|done|done]. apply (disk_log_crash cut) in Hd.
  replace (segs_map ss id (crash_file _ f)) with
    (map_imap (fun id f => Some (crash_file (cut (segment_path dir id)) f)) (segs_map ss id f));
    [done|].
  apply map_eq. intros i. rewrite map_lookup_imap. unfold segs_map.
  destruct (decide (id = i)) as [<-|Hne]; [by rewrite !lookup_insert_eq|].
  rewrite !lookup_insert_ne by done.
  destruct (list_to_map _ !! i) as [g|] eqn:E; [|done]. simpl.
  apply elem_of_list_to_map_2, list_elem_of_fmap in E as [[i' rs] [[= -> ->] _]].
  by rewrite crash_file_synced.
Qed.

(** What recovery cannot decode it cannot decode either when it is cut. *)
Lemma undecodable_take (n : nat) (tail : bytes) : undecodable tail -> undecodable (take n tail).
Proof.
  intros Hu r len Hd. apply decode_sound in Hd as (Hwf & -> & rest & Heq).
  apply (Hu r (encoded_len r)). rewrite <-(take_drop n tail), Heq, <-app_assoc.
  by apply decode_encode_app.
Qed.

Lemma log_recoverable_crash (cut : path -> nat) (fs : fsys) (dir : path)
    (hist : list LogRecord) (torn : bool) :
  log_recoverable fs dir hist torn ->
  exists torn', log_recoverable (crash_fs cut fs) dir hist torn'.
Proof.
  intros (ss & id & f & rs & tail & Hld & (Hdata & Hw & Hu) & Hs1 & Hs2 & -> & Hwf & ->).
  set (k := f_synced f `max` cut (segment_path dir id)).
  eexists. exists ss, id, (crash_file (cut (segment_path dir id)) f), rs,
    (take (k - length (encode_all rs)) tail).
  split; [by apply log_disk_crash|]. unfold crash_file. simpl. fold k.
  rewrite Hdata, take_app_ge by (unfold k; lia). split.
  { split; [done|]. split; [done|]. by apply undecodable_take. }
  split; [rewrite length_app; lia|]. done.
Qed.

(** A crash during an append keeps the committed history and a prefix of the batch. *)
Lemma log_pending_crash (cut : path -> nat) (fs : fsys) (dir : path)
    (hist pending : list LogRecord) :
  log_pending fs dir hist pending -> wf_hist pending ->
  exists k torn, log_recoverable (crash_fs cut fs) dir (hist ++ take k pending) torn.
Proof.
  intros (ss & id & rs & n & Hld & -> & Hwf) Hwp.
  set (c := length (encode_all rs) `max` cut (segment_path dir id)).
  destruct (holds_records_take ((c - length (encode_all rs)) `min` n) pending)
    as (k & tail & (Hd & Hwk & Hu) & _); [apply Hwp|].
  eexists k, _. eexists ss, id, _, (rs ++ take k pending), tail.
  split; [by apply log_disk_crash|]. unfold crash_file. simpl. fold c.
  rewrite take_app_ge by (unfold c; lia). rewrite take_take, Hd.
  pose proof Hwf as Hwf'. apply wf_hist_app in Hwf' as [_ [Hrs _]].
  split; [split; [by rewrite encode_all_app, app_assoc|split; [by apply Forall_app|done]]|].
  rewrite encode_all_app, !length_app. split; [lia|]. split; [lia|]. split; [by rewrite app_assoc|].
  split; [|done]. apply wf_hist_app. split; [done|]. by apply wf_hist_take.
Qed.

Lemma log_ready_crash (cut : path -> nat) (fs : fsys) (dir : path) (hist : list LogRecord)
    (torn : bool) :
  log_ready fs dir hist torn -> exists torn', log_ready (crash_fs cut fs) dir hist torn'.
Proof.
  intros [Hr|((fs1 & Hm & Hd) & -> & ->)].
  - apply (log_recoverable_crash cut) in Hr as [torn' Hr]. exists torn'. by left.
  - exists false. right. split; [|done]. exists (crash_fs cut fs1).
    split; [by apply mk_dirs_crash|]. apply (disk_log_crash cut) in Hd.
    by rewrite map_imap_empty in Hd.
Qed.
End crash_specs.

(** ** A concrete log *)

Lemma disk_log_empty_dir (fs : fsys) (dir : path) :
  dir_ok fs dir -> fs !! dir = Some ∅ -> (forall n, fs !! (n :: dir) = None) -> disk_log fs dir ∅.
Proof.
  intros Hok Hd Hsub.
  assert (forall n, file_at fs (n :: dir) = None) as Hf by (intros n; unfold file_at; by rewrite Hd).
  split.
  - done.
  - intros id _. apply Hf.
  - intros id. rewrite lookup_empty. by intros [].
  - intros name id. rewrite Hf. by intros [].
  - intros name. rewrite Hsub. by intros [].
Qed.

(** A machine with one directory, empty. *)
Definition example_dir : path := [ascii "vault"].

Definition example_root : fsys := <[example_dir := ∅]> empty_fs.

Lemma example_root_sub (n : bytes) : example_root !! (n :: example_dir) = None.
Proof.
  unfold example_root, empty_fs. rewrite lookup_insert_ne by by intros [=].
  by apply lookup_singleton_ne.
Qed.

Lemma example_root_log : disk_log example_root example_dir ∅.
Proof.
  apply disk_log_empty_dir.
  - intros q Hq. apply suffix_cons_or in Hq as [-> | Hq].
    + exists ∅. apply lookup_insert_eq.
    + apply suffix_nil_inv in Hq as ->. exists ∅. unfold example_root.
      by rewrite lookup_insert_ne by done.
  - apply lookup_insert_eq.
  - apply example_root_sub.
Qed.

(** The log of one record in it. *)
Definition example_record : LogRecord := record_put 0 [x61] [x62].

Section example_log.
#[local] Existing Instance sum_crc32.

Definition example_fs : fsys :=
  put_file (segment_path example_dir 0) (sfile [example_record]) example_root.

Definition example_log : Log :=
  (opened example_dir DEFAULT_SEGMENT_MAX_BYTES [] 0 [example_record] false).1.

Lemma example_log_disk : log_disk example_fs example_dir [] 0 (sfile [example_record]).
Proof. apply disk_log_put_new; [apply example_root_log|by_compute]. Qed.

Lemma example_wf : wf_hist [example_record].
Proof. by_compute. Qed.

Lemma example_recoverable : log_recoverable example_fs example_dir [example_record] false.
Proof. apply (log_disk_recoverable _ _ [] 0 _ example_log_disk example_wf). Qed.

Lemma example_log_holds : log_holds example_log example_fs [example_record].
Proof. apply (opened_holds _ _ _ [] 0 _ false example_log_disk example_wf). Qed.
End example_log.

(** ** The properties of the log *)

Section log_properties.
Context `{Crc32, DirOrder}.

(** Segment file names parse back: the name of segment [id] is recognised as [id], for every
    [u64] id, so that distinct segments have distinct names. *)
Theorem segment_names_roundtrip (a b : Z) :
  in_u64 a -> in_u64 b ->
  parse_segment_name (segment_name a) = Some a /\ (segment_name a = segment_name b -> a = b).
Proof. intros Ha Hb. split; [by apply parse_segment_name_of|by apply segment_name_inj]. Qed.

(** C3: Opening recovers the log: from a directory that holds the history [hist], possibly with a
    torn tail behind it, in any directory order, [open_with_segment_size] returns a log that holds
    exactly [hist], reports its records in commit order and whether a tail was cut, and touches
    nothing but segment files. If the process crashes at any point of the recovery, the directory
    still holds exactly [hist]. *)
Theorem open_recovers_history (fs : fsys) (dir : path) (mb : Z) (hist : list LogRecord)
    (torn : bool) :
  log_recoverable fs dir hist torn ->
  wpc crashes_only (open_with_segment_size dir mb) tt fs
    (fun a _ fs' => log_holds a.1 fs' hist /\ a.2 = mkReport hist torn /\ log_frame dir fs fs')
    (fun _ _ _ => False)
    (fun fs' => (exists torn', log_recoverable fs' dir hist torn') /\ log_frame dir fs fs').
Proof.
  intros Hr. eapply wpc_mono; [apply wpc_open_recoverable; [by intros []|done]| |done|].
  - intros a s fs' (Hh & _ & _ & Hrep & Hfr). done.
  - by intros fs' (_ & Hrec & Hfr).
Qed.

(** C2: Group commit is durable: when [append_batch] returns, under any faults of the disk, it
    returns the batch's records numbered consecutively from [next_seq], the log holds the old
    history followed by them, and after a crash at any later time, with whatever part of the file
    cache lost, opening recovers exactly that history. *)
Theorem append_batch_durable (l : Log) (fs : fsys) (hist : list LogRecord) (ops : list LogOp) :
  log_holds l fs hist -> (active_id l + 1 < 2 ^ 64)%Z -> Forall wf_op ops ->
  (next_of hist + Z.of_nat (length ops) < 2 ^ 64)%Z ->
  wpc any_fault (log_append_batch ops) l fs
    (fun records l' fs' => records = batch_records (next_seq l) ops /\
       log_holds l' fs' (hist ++ records) /\ log_dir l' = log_dir l /\
       forall cut, exists torn,
         log_recoverable (crash_fs cut fs') (log_dir l) (hist ++ records) torn)
    (fun _ _ _ => True) (fun _ => True).
Proof.
  intros Hl Hid Hops Hn. pose proof Hl as (ss & rs & Hi). rewrite (li_next _ _ _ _ _ Hi).
  eapply wpc_mono; [by apply (wpc_log_append_batch l fs hist)| |done|done].
  intros a l' fs' (-> & Hl' & Hd & _). split; [done|]. split; [done|]. split; [done|].
  intros cut. rewrite <-Hd. eapply log_recoverable_crash. by apply log_holds_recoverable.
Qed.

(** Crash recovery of a batch: if [append_batch] fails or the process dies inside it, at any
    of its operations and after any part of them, then after a restart, with whatever part of the
    unsynced bytes lost, opening recovers the committed history followed by a prefix of the
    batch. Nothing committed is lost and nothing is invented. *)
Theorem append_batch_crash_prefix (l : Log) (fs : fsys) (hist : list LogRecord)
    (ops : list LogOp) (cut : path -> nat) :
  log_holds l fs hist -> (active_id l + 1 < 2 ^ 64)%Z -> Forall wf_op ops ->
  (next_of hist + Z.of_nat (length ops) < 2 ^ 64)%Z ->
  let recovers fs' := exists k torn,
    log_recoverable (crash_fs cut fs') (log_dir l) (hist ++ take k (batch_records (next_of hist) ops))
      torn in
  wpc any_fault (log_append_batch ops) l fs
    (fun _ _ _ => True) (fun _ _ fs' => recovers fs') recovers.
Proof.
  intros Hl Hid Hops Hn recovers. pose proof Hl as (ss & rs & Hi).
  assert (wf_hist (batch_records (next_of hist) ops)) as Hwf.
  { apply batch_records_wf; [apply next_of_range|done|done]. }
  eapply wpc_mono; [by apply (wpc_log_append_batch l fs hist)|done| |].
  - intros e l' fs' (_ & Hp & _). by apply log_pending_crash.
  - intros fs' (_ & Hp & _). by apply log_pending_crash.
Qed.
End log_properties.

Section log_witnesses.
#[local] Existing Instances sum_crc32 map_order.

Lemma segment_names_roundtrip_witness :
  parse_segment_name (segment_name 12) = Some 12%Z /\
  (segment_name 12 = segment_name 7 -> 12%Z = 7%Z).
Proof. apply segment_names_roundtrip; by_compute. Defined.

Lemma open_recovers_history_witness :
  wpc crashes_only (open_with_segment_size example_dir 64) tt example_fs
    (fun a _ fs' => log_holds a.1 fs' [example_record] /\
       a.2 = mkReport [example_record] false /\ log_frame example_dir example_fs fs')
    (fun _ _ _ => False)
    (fun fs' => (exists torn', log_recoverable fs' example_dir [example_record] torn') /\
       log_frame example_dir example_fs fs').
Proof. apply open_recovers_history, example_recoverable. Defined.

Lemma append_batch_durable_witness :
  wpc any_fault (log_append_batch [OpDelete [x61]]) example_log example_fs
    (fun records l' fs' => records = [record_delete 1 [x61]] /\
       log_holds l' fs' (example_record :: records) /\ log_dir l' = log_dir example_log /\
       forall cut, exists torn,
         log_recoverable (crash_fs cut fs') (log_dir example_log) (example_record :: records) torn)
    (fun _ _ _ => True) (fun _ => True).
Proof.
  apply (append_batch_durable example_log example_fs [example_record] [OpDelete [x61]]).
  - apply example_log_holds.
  - by_compute.
  - by_compute.
  - by_compute.
Defined.

Lemma append_batch_crash_prefix_witness :
  let cut := fun _ : path => 30 in
  let recovers fs' := exists k torn,
    log_recoverable (crash_fs cut fs') example_dir
      ([example_record] ++ take k [record_delete 1 [x61]]) torn in
  wpc any_fault (log_append_batch [OpDelete [x61]]) example_log example_fs
    (fun _ _ _ => True) (fun _ _ fs' => recovers fs') recovers.
Proof.
  intros cut. apply (append_batch_crash_prefix example_log example_fs [example_record] [OpDelete [x61]]).
  - apply example_log_holds.
  - by_compute.
  - by_compute.
  - by_compute.
Defined.
End log_witnesses.
