(* ===== verification/Swap.v ===== *)
(** * Swap: the commit protocol of compaction on the file system

    Models the free functions at the end of [crates/storage/src/store.rs]: the swap that replaces
    the segments of a store by the compacted ones, and its completion when a store is opened. *)
From S2P Require Export LogSpec.

Definition COMPACT_TMP_DIR : bytes := ascii ".compact-tmp".

Definition COMPACT_READY_MARKER : bytes := ascii ".compaction-ready".

Definition COMPACT_OLD_BACKUP_DIR : bytes := ascii ".compact-old-backup".

Definition COMPACT_PLACEHOLDER_DIR : bytes := ascii ".compact-placeholder".

(** [enum StoreError]. *)
Inductive StoreError :=
| StLog (e : LogError)
| StIo (e : IoError).

Definition remove_if_exists (p : path) : M unit IoError unit :=
  catch (remove_file p) (fun e => if decide (e = NotFound) then mret tt else throw e).

Section swap_ops.
Context `{DirOrder}.

Definition remove_dir_if_exists (p : path) : M unit IoError unit :=
  catch (remove_dir_all p) (fun e => if decide (e = NotFound) then mret tt else throw e).

(** The test of step 1: the name of a segment file. *)
Definition is_segment_name (name : bytes) : bool :=
  starts_with (ascii "seg-") name && ends_with (ascii ".log") name.

(** Step 1: the segments of [dir] move to the backup directory. *)
Definition move_segments (dir backup_dir : path) : M unit IoError unit :=
  entries ← read_dir dir;
  for_each (fun name =>
    if is_segment_name name then rename_file (path_join dir name) (path_join backup_dir name)
    else mret tt) entries.

(** Step 2: the entries of the temporary directory move to [dir]. *)
Definition move_compacted (dir tmp_dir : path) : M unit IoError unit :=
  entries ← read_dir tmp_dir;
  for_each (fun name => rename_file (path_join tmp_dir name) (path_join dir name)) entries.

Definition finish_pending_compaction (dir : path) : M unit IoError unit :=
  let tmp_dir := path_join dir COMPACT_TMP_DIR in
  let backup_dir := path_join dir COMPACT_OLD_BACKUP_DIR in
  tmp_exists ← path_exists tmp_dir;
  backup_exists ← (if tmp_exists : bool then mret true else path_exists backup_dir);
  if negb backup_exists then remove_if_exists (path_join dir COMPACT_READY_MARKER)
  else
    backup_exists ← path_exists backup_dir;
    (if negb backup_exists then create_dir_all backup_dir;; move_segments dir backup_dir
     else mret tt);;
    tmp_exists ← path_exists tmp_dir;
    (if tmp_exists : bool then move_compacted dir tmp_dir else mret tt);;
    remove_dir_if_exists tmp_dir;;
    remove_dir_if_exists backup_dir;;
    remove_if_exists (path_join dir COMPACT_READY_MARKER).

Definition finish_or_discard_pending_compaction (dir : path) : M unit IoError unit :=
  let marker := path_join dir COMPACT_READY_MARKER in
  marker_exists ← path_exists marker;
  (if marker_exists : bool then finish_pending_compaction dir
   else remove_dir_if_exists (path_join dir COMPACT_TMP_DIR));;
  remove_dir_if_exists (path_join dir COMPACT_PLACEHOLDER_DIR).
End swap_ops.
