(* ===== verification/SwapSpec.v ===== *)
(** * SwapSpec: what the commit protocol does to the directory of a store

    Frame conditions for the scratch directories of compaction, and the specifications of the
    discard of an uncommitted compaction and of the completion of a committed one. *)
From S2P Require Export Swap.

Definition tmp_of (dir : path) : path := path_join dir COMPACT_TMP_DIR.

Definition marker_of (dir : path) : path := path_join dir COMPACT_READY_MARKER.

Definition backup_of (dir : path) : path := path_join dir COMPACT_OLD_BACKUP_DIR.

Definition placeholder_of (dir : path) : path := path_join dir COMPACT_PLACEHOLDER_DIR.

(** The file systems differ at [p] and below it only. *)
Definition below (p : path) (fs fs' : fsys) : Prop := forall q, ~ p `suffix_of` q -> fs' !! q = fs !! q.

#[export] Instance below_refl (p : path) : Reflexive (below p).
Proof. by intros fs q. Qed.

#[export] Instance below_trans (p : path) : Transitive (below p).
Proof. intros fs1 fs2 fs3 H1 H2 q Hq. by rewrite H2, H1. Qed.

(** Neither a file nor a directory. *)
Definition no_entry (fs : fsys) (p : path) : Prop := fs !! p = None /\ file_at fs p = None.

(** ** Frames *)

Lemma not_suffix_parent (n : bytes) (dir q : path) : q `suffix_of` dir -> ~ (n :: dir) `suffix_of` q.
Proof.
  intros H1%suffix_length H2%suffix_length. simpl in H2. lia.
Qed.

Lemma not_suffix_sibling (n n' : bytes) (dir : path) : n <> n' -> ~ (n :: dir) `suffix_of` (n' :: dir).
Proof.
  intros Hne [Heq|H]%suffix_cons_or; [congruence|].
  apply suffix_length in H. simpl in H. lia.
Qed.

Lemma below_dir (n : bytes) (dir : path) (fs fs' : fsys) :
  below (n :: dir) fs fs' -> fs' !! dir = fs !! dir.
Proof. intros Hb. apply Hb. by apply not_suffix_parent. Qed.

Lemma below_sibling (n n' : bytes) (dir : path) (fs fs' : fsys) :
  below (n :: dir) fs fs' -> n <> n' -> fs' !! (n' :: dir) = fs !! (n' :: dir).
Proof. intros Hb Hne. apply Hb. by apply not_suffix_sibling. Qed.

Lemma below_file (n n' : bytes) (dir : path) (fs fs' : fsys) :
  below (n :: dir) fs fs' -> file_at fs' (n' :: dir) = file_at fs (n' :: dir).
Proof. intros Hb. unfold file_at. by rewrite (below_dir _ _ _ _ Hb). Qed.

Lemma below_no_entry (n n' : bytes) (dir : path) (fs fs' : fsys) :
  below (n :: dir) fs fs' -> n <> n' -> no_entry fs (n' :: dir) -> no_entry fs' (n' :: dir).
Proof.
  intros Hb Hne [H1 H2]. split; [by rewrite (below_sibling _ _ _ _ _ Hb)|].
  by rewrite (below_file _ _ _ _ _ Hb).
Qed.

Lemma below_insert (p : path) (fs : fsys) (files : gmap bytes File) : below p fs (<[p := files]> fs).
Proof. intros q Hq. apply lookup_insert_ne. by intros <-. Qed.

Lemma below_remove_tree (p : path) (fs : fsys) : below p fs (remove_tree p fs).
Proof.
  intros q Hq. unfold remove_tree. rewrite map_lookup_filter. simpl.
  destruct (fs !! q); simpl; [|done]. by rewrite option_guard_True.
Qed.

Lemma lookup_remove_tree (p q : path) (fs : fsys) : p `suffix_of` q -> remove_tree p fs !! q = None.
Proof.
  intros Hq. apply eq_None_not_Some. intros [files Hf]. unfold remove_tree in Hf.
  by apply map_lookup_filter_Some in Hf as [_ Hf].
Qed.

Lemma below_log_frame (dir : path) (fs fs' : fsys) : log_frame dir fs fs' -> below dir fs fs'.
Proof. intros (Hd & _) q Hq. apply Hd. by intros ->. Qed.

Lemma disk_log_below (n : bytes) (dir : path) (fs fs' : fsys) (m : gmap Z File) :
  parse_segment_name n = None -> below (n :: dir) fs fs' -> disk_log fs dir m -> disk_log fs' dir m.
Proof.
  intros Hn Hb [Hok Hf Hu Hname Hsub]. split.
  - intros q Hq. rewrite (Hb q) by (by apply not_suffix_parent). by apply Hok.
  - intros id Hid. unfold segment_path, path_join. rewrite (below_file n _ _ _ _ Hb). by apply Hf.
  - done.
  - intros name id. rewrite (below_file _ _ _ _ _ Hb). apply Hname.
  - intros name Hs. destruct (decide (name = n)) as [->|Hne]; [done|].
    rewrite (below_sibling n _ _ _ _ Hb) in Hs by done. by apply Hsub.
Qed.

Section below_log.
Context `{Crc32}.

Lemma log_disk_below (n : bytes) (dir : path) (fs fs' : fsys) ss (id : Z) (f : File) :
  parse_segment_name n = None -> below (n :: dir) fs fs' ->
  log_disk fs dir ss id f -> log_disk fs' dir ss id f.
Proof. intros Hn Hb [Hd Hs Hw]. split; [|done|done]. by eapply disk_log_below. Qed.

Lemma log_recoverable_below (n : bytes) (dir : path) (fs fs' : fsys) (hist : list LogRecord)
    (torn : bool) :
  parse_segment_name n = None -> below (n :: dir) fs fs' ->
  log_recoverable fs dir hist torn -> log_recoverable fs' dir hist torn.
Proof.
  intros Hn Hb (ss & id & f & rs & tail & Hld & Hrest).
  exists ss, id, f, rs, tail. split; [by eapply log_disk_below|done].
Qed.
End below_log.

(** ** Removing scratch directories *)

Section discard.
Context `{DirOrder}.
Context {F : FaultModel}.

Lemma wpc_remove_dir_all {S : Type} (p : path) (s : S) (fs : fsys) (files : gmap bytes File) :
  fs !! p = Some files ->
  wpc F (remove_dir_all p) s fs
    (fun _ s' fs' => s' = s /\ fs' = remove_tree p fs)
    (fun e s' fs' => may_err F /\ e = EOther /\ exists files', fs' = <[p := files']> fs /\ files' ⊆ files)
    (fun fs' => may_crash F /\ exists files', fs' = <[p := files']> fs /\ files' ⊆ files).
Proof.
  intros Hp. assert (forall (l : list bytes), foldr delete files l ⊆ files) as Hsub.
  { induction l as [|x l IH]; simpl; [done|]. etrans; [apply delete_subseteq|done]. }
  apply wpc_prim; simpl.
  - by rewrite Hp.
  - intros HF k. rewrite Hp. eauto.
  - intros HF k. rewrite Hp. eauto.
Qed.

(** The states between a directory and its removal: some of its files are gone. *)
Definition removing (p : path) (fs fs' : fsys) : Prop :=
  fs' = fs \/ exists files files', fs !! p = Some files /\ files' ⊆ files /\ fs' = <[p := files']> fs.

Lemma removing_below (p : path) (fs fs' : fsys) : removing p fs fs' -> below p fs fs'.
Proof. intros [-> | (files & files' & _ & _ & ->)]; [done|apply below_insert]. Qed.

(** A directory is removed with everything below it, and nothing appears. *)
Definition removed (p : path) (fs fs' : fsys) : Prop :=
  fs' !! p = None /\ below p fs fs' /\ (forall q, fs !! q = None -> fs' !! q = None) /\
  (fs !! p = None -> fs' = fs).

Lemma wpc_remove_dir_if_exists (p : path) (fs : fsys) :
  wpc F (remove_dir_if_exists p) tt fs
    (fun _ _ fs' => removed p fs fs')
    (fun _ _ fs' => may_err F /\ removing p fs fs')
    (fun fs' => may_crash F /\ removing p fs fs').
Proof.
  unfold remove_dir_if_exists. wpc_step. destruct (fs !! p) as [files|] eqn:Hp.
  - eapply wpc_mono; [by apply wpc_remove_dir_all| | |].
    + intros [] [] fs' [_ ->]. split; [by apply lookup_remove_tree|].
      split; [apply below_remove_tree|]. split; [|by rewrite Hp].
      intros q Hq. unfold remove_tree. rewrite map_lookup_filter, Hq. done.
    + intros e [] fs' (HF & -> & files' & -> & Hsub). simpl. wpc_steps.
      split; [done|]. right. eauto.
    + intros fs' (HF & files' & -> & Hsub). split; [done|]. right. eauto.
  - apply wpc_prim; simpl.
    + rewrite Hp. simpl. wpc_steps. done.
    + intros HF k. rewrite Hp. simpl. wpc_steps. split; [done|by left].
    + intros HF k. rewrite Hp. split; [done|by left].
Qed.

Lemma wpc_remove_if_exists (n : bytes) (dir : path) (fs : fsys) :
  wpc F (remove_if_exists (n :: dir)) tt fs
    (fun _ _ fs' => fs' = del_file (n :: dir) fs)
    (fun _ _ fs' => may_err F /\ fs' = fs)
    (fun fs' => may_crash F /\ fs' = fs).
Proof.
  unfold remove_if_exists. wpc_step. apply wpc_atomic.
  - destruct (file_at fs (n :: dir)) as [f|] eqn:Hf; [done|]. simpl. wpc_steps.
    unfold file_at in Hf. unfold del_file. apply map_eq. intros d.
    destruct (decide (dir = d)) as [<-|Hne]; [|by rewrite lookup_alter_ne].
    rewrite lookup_alter_eq. destruct (fs !! dir) as [files|]; simpl in *; [|done].
    by rewrite delete_id.
  - intros HF. simpl. wpc_steps. done.
  - done.
Qed.

Lemma wpc_create_sub (n : bytes) (dir : path) (fs : fsys) :
  ~ may_err F -> dir_ok fs dir -> no_entry fs (n :: dir) ->
  wpc F (create_dir_all (n :: dir)) tt fs
    (fun _ _ fs' => fs' = <[n :: dir := ∅]> fs) (fun _ _ _ => False)
    (fun fs' => may_crash F /\ (fs' = fs \/ fs' = <[n :: dir := ∅]> fs)).
Proof.
  intros HF Hok [Hb Hbf].
  assert (mk_dirs (n :: dir) fs = Some (<[n :: dir := ∅]> fs)) as Hmk.
  { simpl. rewrite mk_dirs_ok by done. simpl. by rewrite Hb, Hbf. }
  apply wpc_prim; [by rewrite Hmk|done|]. intros HC k. split; [done|].
  cbn [fst snd]. destruct (length (n :: dir) - k) as [|m].
  - right. rewrite drop_0. by rewrite Hmk.
  - left. simpl. rewrite mk_dirs_ok; [done|].
    intros q Hq. apply Hok. etrans; [done|]. apply suffix_drop.
Qed.

(** ** Opening a store without a committed compaction *)

Lemma wpc_discard (dir : path) (fs : fsys) (P : fsys -> Prop) :
  no_entry fs (marker_of dir) ->
  (forall fs1 fs2, P fs1 -> below (tmp_of dir) fs1 fs2 -> P fs2) ->
  (forall fs1 fs2, P fs1 -> below (placeholder_of dir) fs1 fs2 -> P fs2) ->
  P fs ->
  wpc F (finish_or_discard_pending_compaction dir) tt fs
    (fun _ _ fs' => P fs' /\ fs' !! tmp_of dir = None /\ fs' !! placeholder_of dir = None /\
       (fs !! tmp_of dir = None -> fs !! placeholder_of dir = None -> fs' = fs))
    (fun _ _ fs' => may_err F /\ P fs') (fun fs' => may_crash F /\ P fs').
Proof.
  intros [Hm1 Hm2] Ht Hpl Hfs. unfold finish_or_discard_pending_compaction. wpc_steps.
  assert (wpc F (remove_dir_if_exists (tmp_of dir);; remove_dir_if_exists (placeholder_of dir))
    tt fs (fun _ _ fs' => P fs' /\ fs' !! tmp_of dir = None /\ fs' !! placeholder_of dir = None /\
      (fs !! tmp_of dir = None -> fs !! placeholder_of dir = None -> fs' = fs))
    (fun _ _ fs' => may_err F /\ P fs') (fun fs' => may_crash F /\ P fs')) as Hw.
  { wpc_step. eapply wpc_mono; [apply wpc_remove_dir_if_exists| | |].
    - intros [] [] fs1 (Hn1 & Hb1 & _ & He1).
      eapply wpc_mono; [apply wpc_remove_dir_if_exists| | |].
      + intros [] [] fs2 (Hn2 & Hb2 & _ & He2). split; [by eauto|]. split; [|split; [done|]].
        * rewrite <-Hn1. apply (below_sibling COMPACT_PLACEHOLDER_DIR); [done|by vm_compute].
        * intros H1 H2. rewrite He2; [auto|]. by rewrite He1.
      + intros e [] fs2 [HF Hb2%removing_below]. eauto.
      + intros fs2 [HF Hb2%removing_below]. eauto.
    - intros e [] fs1 [HF Hb1%removing_below]. eauto.
    - intros fs1 [HF Hb1%removing_below]. eauto. }
  apply wpc_path_exists; [|done|done].
  rewrite bool_decide_eq_false_2 by (unfold marker_of in *; rewrite Hm1, Hm2; by intros [[]|[]]).
  exact Hw.
Qed.
End discard.

(** ** Completing a committed compaction *)

(** Only the directory of the store and the two scratch directories of the swap differ. *)
Definition swap_frame (dir : path) (fs fs' : fsys) : Prop :=
  forall q, q <> dir -> ~ tmp_of dir `suffix_of` q -> ~ backup_of dir `suffix_of` q ->
    fs' !! q = fs !! q.

#[export] Instance swap_frame_refl (dir : path) : Reflexive (swap_frame dir).
Proof. by intros fs q. Qed.

#[export] Instance swap_frame_trans (dir : path) : Transitive (swap_frame dir).
Proof. intros fs1 fs2 fs3 H1 H2 q Hq Ht Hb. by rewrite H2, H1. Qed.

(** The files of the store while the compacted segments [T0] move in: [D1] are the files that are
    not segments and [T] the compacted segments still to move. *)
Definition moved (T0 D1 T : gmap bytes File) : gmap bytes File := (T0 ∖ T) ∪ D1.

(** A committed compaction whose first step is done: the old segments are out of the directory,
    the compacted ones are in it or in the temporary directory, and the backup directory is there
    as long as anything is left to do. *)
Definition committed (dir : path) (T0 D1 : gmap bytes File) (fs : fsys) : Prop :=
  exists T, fs !! dir = Some (moved T0 D1 T) /\ T ⊆ T0 /\
    (forall n, is_Some (T0 !! n) -> fs !! (n :: dir) = None) /\
    (forall n, fs !! (n :: tmp_of dir) = None) /\
    ((is_Some (fs !! backup_of dir) /\ default ∅ (fs !! tmp_of dir) = T) \/
     (fs !! backup_of dir = None /\ fs !! tmp_of dir = None /\ T = ∅)).

Lemma moved_step (T0 D1 T : gmap bytes File) (n : bytes) (f : File) :
  T0 !! n = Some f -> <[n := f]> (moved T0 D1 T) = moved T0 D1 (delete n T).
Proof.
  intros Hn. apply map_eq. intros n'. unfold moved.
  destruct (decide (n = n')) as [<-|Hne].
  - rewrite lookup_insert_eq. symmetry. apply lookup_union_Some_l.
    apply lookup_difference_Some. split; [done|apply lookup_delete_eq].
  - rewrite lookup_insert_ne by done. rewrite !lookup_union, !lookup_difference.
    by rewrite lookup_delete_ne by done.
Qed.

Lemma moved_empty (T0 D1 : gmap bytes File) : moved T0 D1 ∅ = T0 ∪ D1.
Proof. unfold moved. by rewrite map_difference_empty. Qed.

Lemma dir_ne_sub (n : bytes) (dir : path) : dir <> n :: dir.
Proof. intros Heq%(f_equal length). simpl in Heq. lia. Qed.

Section finish.
Context `{DirOrder}.
Context {F : FaultModel}.

Lemma rename_effect (n : bytes) (a b : path) (f : File) (A B : gmap bytes File) (fs : fsys) :
  a <> b -> fs !! a = Some A -> fs !! b = Some B ->
  let fs' := put_file (n :: b) f (del_file (n :: a) fs) in
  fs' !! a = Some (delete n A) /\ fs' !! b = Some (<[n := f]> B) /\
  (forall q, q <> a -> q <> b -> fs' !! q = fs !! q).
Proof.
  intros Hab Ha Hb fs'. unfold fs', put_file, del_file. split; [|split].
  - rewrite lookup_alter_ne by done. by rewrite lookup_alter_eq, Ha.
  - by rewrite lookup_alter_eq, lookup_alter_ne, Hb.
  - intros q H1 H2. by rewrite !lookup_alter_ne.
Qed.

Lemma wpc_rename (n : bytes) (a b : path) (f : File) (A B : gmap bytes File) (fs : fsys) :
  fs !! a = Some A -> A !! n = Some f -> fs !! b = Some B -> fs !! (n :: b) = None ->
  wpc F (rename_file (n :: a) (n :: b)) tt fs
    (fun _ _ fs' => fs' = put_file (n :: b) f (del_file (n :: a) fs))
    (fun _ _ fs' => may_err F /\ fs' = fs) (fun fs' => may_crash F /\ fs' = fs).
Proof.
  intros Ha Hn Hb Hd. apply wpc_atomic; [|done..].
  unfold file_at. rewrite Ha. simpl. by rewrite Hn, Hb, Hd.
Qed.

(** One compacted segment moves in. *)
Lemma committed_step (dir : path) (T0 D1 T : gmap bytes File) (n : bytes) (f : File) (fs : fsys) :
  fs !! dir = Some (moved T0 D1 T) -> fs !! tmp_of dir = Some T -> T ⊆ T0 -> T !! n = Some f ->
  is_Some (fs !! backup_of dir) ->
  (forall n, is_Some (T0 !! n) -> fs !! (n :: dir) = None) ->
  (forall n, fs !! (n :: tmp_of dir) = None) ->
  let fs' := put_file (n :: dir) f (del_file (n :: tmp_of dir) fs) in
  fs' !! dir = Some (moved T0 D1 (delete n T)) /\ fs' !! tmp_of dir = Some (delete n T) /\
  is_Some (fs' !! backup_of dir) /\ (forall n, is_Some (T0 !! n) -> fs' !! (n :: dir) = None) /\
  (forall n, fs' !! (n :: tmp_of dir) = None) /\ swap_frame dir fs fs'.
Proof.
  intros Hd Ht Hsub Hn Hb Hs1 Hs2 fs'.
  assert (T0 !! n = Some f) as Hn0 by by eapply lookup_weaken.
  destruct (rename_effect n (tmp_of dir) dir f T (moved T0 D1 T) fs) as (E1 & E2 & E3);
    [by apply not_eq_sym, dir_ne_sub|done|done|]. fold fs' in E1, E2, E3.
  split; [by rewrite E2, (moved_step _ _ _ _ _ Hn0)|]. split; [done|].
  split; [rewrite E3; [done|by vm_compute|by apply not_eq_sym, dir_ne_sub]|].
  split; [|split].
  - intros n' Hn'. destruct (decide (n' :: dir = tmp_of dir)) as [Heq|Hne].
    + exfalso. specialize (Hs1 n' Hn'). rewrite Heq, Ht in Hs1. done.
    + rewrite E3; [by apply Hs1|done|by apply not_eq_sym, dir_ne_sub].
  - intros n'. rewrite E3; [done|by apply not_eq_sym, dir_ne_sub|].
    intros Heq%(f_equal length). simpl in Heq. lia.
  - intros q Hq1 Hq2 Hq3. apply E3; [|done]. intros ->. by apply Hq2.
Qed.

Lemma wpc_move_entries (dir : path) (T0 D1 : gmap bytes File) (l : list bytes) (T : gmap bytes File)
    (fs : fsys) :
  NoDup l -> (forall n, n ∈ l <-> is_Some (T !! n)) ->
  fs !! dir = Some (moved T0 D1 T) -> fs !! tmp_of dir = Some T -> T ⊆ T0 ->
  is_Some (fs !! backup_of dir) -> (forall n, is_Some (T0 !! n) -> fs !! (n :: dir) = None) ->
  (forall n, fs !! (n :: tmp_of dir) = None) ->
  wpc F (for_each (fun name => rename_file (path_join (tmp_of dir) name) (path_join dir name)) l) tt fs
    (fun _ _ fs' => committed dir T0 D1 fs' /\ fs' !! tmp_of dir = Some ∅ /\
       is_Some (fs' !! backup_of dir) /\ swap_frame dir fs fs')
    (fun _ _ fs' => may_err F /\ committed dir T0 D1 fs' /\ swap_frame dir fs fs')
    (fun fs' => may_crash F /\ committed dir T0 D1 fs' /\ swap_frame dir fs fs').
Proof.
  intros Hnd. revert T fs. induction Hnd as [|n l Hn Hnd IH]; intros T fs Hl Hd Ht Hsub Hb Hs1 Hs2.
  - assert (T = ∅) as ->.
    { apply map_empty. intros n. apply eq_None_not_Some. rewrite <-Hl. by intros ?%not_elem_of_nil. }
    simpl. wpc_steps. split; [|done]. exists ∅. rewrite Ht. by repeat split; auto.
  - assert (is_Some (T !! n)) as [f Hf] by (apply Hl; by left).
    assert (committed dir T0 D1 fs /\ swap_frame dir fs fs) as Hc.
    { split; [|done]. exists T. rewrite Ht. by repeat split; auto. }
    simpl for_each. wpc_step. eapply wpc_mono; [eapply (wpc_rename n (tmp_of dir) dir); try done| | |].
    + apply Hs1. by eexists; eapply lookup_weaken.
    + intros [] [] fs' ->.
      destruct (committed_step dir T0 D1 T n f fs) as (E1 & E2 & E3 & E4 & E5 & E6); try done.
      eapply wpc_mono; [apply (IH (delete n T)); try done| | |].
      * intros n'. rewrite lookup_delete_is_Some, <-Hl, elem_of_cons. split.
        -- intros Hn'. split; [by intros ->|by right].
        -- by intros [Hne [-> | Hn']].
      * etrans; [apply delete_subseteq|done].
      * intros [] [] fs2 (G1 & G2 & G3 & G4). split_all; try done. by etrans.
      * intros e [] fs2 (HF & G1 & G2). split_all; try done. by etrans.
      * intros fs2 (HF & G1 & G2). split_all; try done. by etrans.
    + intros e [] fs' [HF ->]. done.
    + intros fs' [HF ->]. done.
Qed.

Lemma entry_names_no_dirs (fs : fsys) (p : path) (files : gmap bytes File) :
  (forall n, fs !! (n :: p) = None) -> entry_names fs p files = (map_to_list files).*1.
Proof.
  intros Hs. unfold entry_names. rewrite (omap_nil _ (map_to_list fs)); [by rewrite app_nil_r|].
  intros [[|n d] fl] Hq; [done|]. apply elem_of_map_to_list in Hq. simpl.
  case_decide as Hd; [|done]. subst d. by rewrite Hs in Hq.
Qed.

Lemma wpc_move_compacted (dir : path) (T0 D1 T : gmap bytes File) (fs : fsys) :
  fs !! dir = Some (moved T0 D1 T) -> fs !! tmp_of dir = Some T -> T ⊆ T0 ->
  is_Some (fs !! backup_of dir) -> (forall n, is_Some (T0 !! n) -> fs !! (n :: dir) = None) ->
  (forall n, fs !! (n :: tmp_of dir) = None) ->
  wpc F (move_compacted dir (tmp_of dir)) tt fs
    (fun _ _ fs' => committed dir T0 D1 fs' /\ fs' !! tmp_of dir = Some ∅ /\
       is_Some (fs' !! backup_of dir) /\ swap_frame dir fs fs')
    (fun _ _ fs' => may_err F /\ committed dir T0 D1 fs' /\ swap_frame dir fs fs')
    (fun fs' => may_crash F /\ committed dir T0 D1 fs' /\ swap_frame dir fs fs').
Proof.
  intros Hd Ht Hsub Hb Hs1 Hs2. unfold move_compacted. wpc_step.
  assert (committed dir T0 D1 fs /\ swap_frame dir fs fs) as Hc.
  { split; [|done]. exists T. rewrite Ht. by repeat split; auto. }
  apply wpc_atomic; [|done|done]. rewrite Ht, entry_names_no_dirs by done.
  apply (wpc_move_entries dir T0 D1 _ T); try done.
  - rewrite (dir_order_perm (tmp_of dir)). apply NoDup_fst_map_to_list.
  - intros n. rewrite (dir_order_perm (tmp_of dir)), list_elem_of_fmap. split.
    + intros ([n' f] & -> & Hin%elem_of_map_to_list). by eexists.
    + intros [f Hf]. exists (n, f). by rewrite elem_of_map_to_list.
Qed.

(** The names of the scratch directories are not files. *)
Definition names_free (T0 D1 : gmap bytes File) : Prop :=
  forall n, n = COMPACT_TMP_DIR \/ n = COMPACT_OLD_BACKUP_DIR -> T0 !! n = None /\ D1 !! n = None.

(** The swap is complete and its marker is gone. *)
Definition swapped (dir : path) (T0 D1 : gmap bytes File) (fs : fsys) : Prop :=
  fs !! dir = Some (delete COMPACT_READY_MARKER (T0 ∪ D1)) /\
  fs !! tmp_of dir = None /\ fs !! backup_of dir = None.

Lemma moved_free (T0 D1 T : gmap bytes File) (dir : path) (fs : fsys) (n : bytes) :
  names_free T0 D1 -> n = COMPACT_TMP_DIR \/ n = COMPACT_OLD_BACKUP_DIR ->
  fs !! dir = Some (moved T0 D1 T) -> file_at fs (n :: dir) = None.
Proof.
  intros Hf Hn Hd. destruct (Hf n Hn) as [H1 H2]. unfold file_at. rewrite Hd. simpl.
  unfold moved. rewrite lookup_union, lookup_difference, H1, H2. by destruct (T !! n).
Qed.

Lemma removing_tmp_frame (dir : path) (fs fs' : fsys) :
  below (tmp_of dir) fs fs' -> swap_frame dir fs fs'.
Proof. intros Hb q _ Ht _. by apply Hb. Qed.

Lemma removing_backup_frame (dir : path) (fs fs' : fsys) :
  below (backup_of dir) fs fs' -> swap_frame dir fs fs'.
Proof. intros Hb q _ _ Ht. by apply Hb. Qed.

Lemma below_moved (dir : path) (n : bytes) (T0 D1 T : gmap bytes File) (fs fs' : fsys) :
  n = COMPACT_TMP_DIR \/ n = COMPACT_OLD_BACKUP_DIR -> names_free T0 D1 ->
  below (n :: dir) fs fs' -> fs !! dir = Some (moved T0 D1 T) ->
  (forall n', is_Some (T0 !! n') -> fs !! (n' :: dir) = None) ->
  fs' !! dir = Some (moved T0 D1 T) /\ (forall n', is_Some (T0 !! n') -> fs' !! (n' :: dir) = None).
Proof.
  intros Hn Hf Hb Hd Hs. split; [by rewrite (below_dir _ _ _ _ Hb)|].
  intros n' Hn'. rewrite (below_sibling _ _ _ _ _ Hb); [by apply Hs|].
  intros ->. destruct (Hf _ Hn) as [H1 _]. rewrite H1 in Hn'. by destruct Hn'.
Qed.

Lemma tmp_sub_not (dir : path) (n : bytes) : ~ backup_of dir `suffix_of` n :: tmp_of dir.
Proof.
  intros [Heq|Hs]%suffix_cons_or; [apply (f_equal length) in Heq; simpl in Heq; lia|].
  by apply not_suffix_sibling in Hs; [|by vm_compute].
Qed.

(** Removing the scratch directories keeps the compaction committed. *)
Lemma removing_tmp_committed (dir : path) (T0 D1 : gmap bytes File) (fs fs' : fsys) :
  names_free T0 D1 -> fs !! dir = Some (moved T0 D1 ∅) -> is_Some (fs !! backup_of dir) ->
  default ∅ (fs !! tmp_of dir) = ∅ ->
  (forall n, is_Some (T0 !! n) -> fs !! (n :: dir) = None) ->
  (forall n, fs !! (n :: tmp_of dir) = None) ->
  removing (tmp_of dir) fs fs' \/ removed (tmp_of dir) fs fs' ->
  fs' !! dir = Some (moved T0 D1 ∅) /\ is_Some (fs' !! backup_of dir) /\
  (forall n, is_Some (T0 !! n) -> fs' !! (n :: dir) = None) /\
  committed dir T0 D1 fs' /\ swap_frame dir fs fs'.
Proof.
  intros Hf Hd Hb Ht Hs1 Hs2 Hr.
  assert (below (tmp_of dir) fs fs') as Hbl by (destruct Hr as [Hr%removing_below|(_ & Hr & _)]; done).
  destruct (below_moved dir _ T0 D1 ∅ fs fs' (or_introl eq_refl) Hf Hbl Hd Hs1) as [Hd' Hs1'].
  assert (is_Some (fs' !! backup_of dir)) as Hb'.
  { unfold backup_of, path_join. by rewrite (below_sibling _ _ _ _ _ Hbl) by by vm_compute. }
  split; [done|]. split; [done|]. split; [done|]. split; [|by apply removing_tmp_frame].
  exists ∅. split; [done|]. split; [apply map_empty_subseteq|]. split; [done|]. split.
  - intros n. destruct Hr as [[-> | (fi & fi' & Hp & Hsub & ->)]|(_ & _ & Hnone & _)].
    + done.
    + rewrite lookup_insert_ne by (apply dir_ne_sub). done.
    + by apply Hnone.
  - left. split; [done|]. destruct Hr as [[-> | (fi & fi' & Hp & Hsub & ->)]|(Hn & _)].
    + done.
    + rewrite lookup_insert_eq. simpl. rewrite Hp in Ht. simpl in Ht. subst fi.
      apply (anti_symm (⊆)); [done|apply map_empty_subseteq].
    + by rewrite Hn.
Qed.

Lemma removing_backup_committed (dir : path) (T0 D1 : gmap bytes File) (fs fs' : fsys) :
  names_free T0 D1 -> fs !! dir = Some (moved T0 D1 ∅) -> is_Some (fs !! backup_of dir) ->
  fs !! tmp_of dir = None -> (forall n, is_Some (T0 !! n) -> fs !! (n :: dir) = None) ->
  (forall n, fs !! (n :: tmp_of dir) = None) ->
  removing (backup_of dir) fs fs' \/ removed (backup_of dir) fs fs' ->
  fs' !! dir = Some (moved T0 D1 ∅) /\ fs' !! tmp_of dir = None /\
  committed dir T0 D1 fs' /\ swap_frame dir fs fs'.
Proof.
  intros Hf Hd Hb Ht Hs1 Hs2 Hr.
  assert (below (backup_of dir) fs fs') as Hbl by (destruct Hr as [Hr%removing_below|(_ & Hr & _)]; done).
  destruct (below_moved dir _ T0 D1 ∅ fs fs' (or_intror eq_refl) Hf Hbl Hd Hs1) as [Hd' Hs1'].
  assert (fs' !! tmp_of dir = None) as Ht'.
  { unfold tmp_of, path_join. by rewrite (below_sibling _ _ _ _ _ Hbl) by by vm_compute. }
  split; [done|]. split; [done|]. split; [|by apply removing_backup_frame].
  exists ∅. split; [done|]. split; [apply map_empty_subseteq|]. split; [done|]. split.
  - intros n. rewrite Hbl; [done|apply tmp_sub_not].
  - destruct Hr as [[-> | (fi & fi' & Hp & Hsub & ->)]|(Hn & _)].
    + left. by rewrite Ht.
    + left. rewrite lookup_insert_eq, Ht'. split; [by eexists|done].
    + right. done.
Qed.

Lemma committed_marker (dir : path) (T0 D1 : gmap bytes File) (fs : fsys) :
  fs !! dir = Some (moved T0 D1 ∅) -> fs !! tmp_of dir = None -> fs !! backup_of dir = None ->
  swapped dir T0 D1 (del_file (marker_of dir) fs) /\ swap_frame dir fs (del_file (marker_of dir) fs).
Proof.
  intros Hd Ht Hb. unfold del_file, marker_of, path_join. split; [split; [|split]|].
  - by rewrite lookup_alter_eq, Hd, moved_empty.
  - rewrite lookup_alter_ne; [done|apply dir_ne_sub].
  - rewrite lookup_alter_ne; [done|apply dir_ne_sub].
  - intros q Hq _ _. by rewrite lookup_alter_ne.
Qed.

(** Removing what is left of the scratch directories, and the marker. *)
Lemma wpc_clear_scratch (dir : path) (T0 D1 : gmap bytes File) (fs : fsys) :
  names_free T0 D1 -> fs !! dir = Some (moved T0 D1 ∅) -> is_Some (fs !! backup_of dir) ->
  default ∅ (fs !! tmp_of dir) = ∅ ->
  (forall n, is_Some (T0 !! n) -> fs !! (n :: dir) = None) ->
  (forall n, fs !! (n :: tmp_of dir) = None) ->
  wpc F (remove_dir_if_exists (tmp_of dir);; remove_dir_if_exists (backup_of dir);;
         remove_if_exists (marker_of dir)) tt fs
    (fun _ _ fs' => swapped dir T0 D1 fs' /\ swap_frame dir fs fs')
    (fun _ _ fs' => may_err F /\ committed dir T0 D1 fs' /\ swap_frame dir fs fs')
    (fun fs' => may_crash F /\ committed dir T0 D1 fs' /\ swap_frame dir fs fs').
Proof.
  intros Hf Hd Hb Ht Hs1 Hs2. wpc_step. eapply wpc_mono; [apply wpc_remove_dir_if_exists| | |].
  - intros [] [] fs1 Hr1.
    destruct (removing_tmp_committed dir T0 D1 fs fs1) as (Hd1 & Hb1 & Hs11 & Hc1 & Hf1); auto.
    destruct Hr1 as (Ht1 & _ & Hn1 & _).
    assert (forall n, fs1 !! (n :: tmp_of dir) = None) as Hs21 by auto.
    wpc_step. eapply wpc_mono; [apply wpc_remove_dir_if_exists| | |].
    + intros [] [] fs2 Hr2.
      destruct (removing_backup_committed dir T0 D1 fs1 fs2) as (Hd2 & Ht2 & Hc2 & Hf2); auto.
      destruct Hr2 as (Hb2 & _).
      destruct (committed_marker dir T0 D1 fs2 Hd2 Ht2 Hb2) as [Hsw Hf3].
      eapply wpc_mono; [apply wpc_remove_if_exists| | |].
      * intros [] [] fs3 ->. split; [done|]. etrans; [done|]. by etrans.
      * intros e [] fs3 [HF ->]. split; [done|]. split; [done|]. by etrans.
      * intros fs3 [HF ->]. split; [done|]. split; [done|]. by etrans.
    + intros e [] fs2 [HF Hr2].
      destruct (removing_backup_committed dir T0 D1 fs1 fs2) as (_ & _ & Hc2 & Hf2); auto.
      split; [done|]. split; [done|]. by etrans.
    + intros fs2 [HF Hr2].
      destruct (removing_backup_committed dir T0 D1 fs1 fs2) as (_ & _ & Hc2 & Hf2); auto.
      split; [done|]. split; [done|]. by etrans.
  - intros e [] fs1 [HF Hr1].
    destruct (removing_tmp_committed dir T0 D1 fs fs1) as (_ & _ & _ & Hc1 & Hf1); auto.
  - intros fs1 [HF Hr1].
    destruct (removing_tmp_committed dir T0 D1 fs fs1) as (_ & _ & _ & Hc1 & Hf1); auto.
Qed.

(** The tests of [Path::exists] that the proofs evaluate. *)
Lemma exists_dir (fs : fsys) (p : path) :
  is_Some (fs !! p) -> bool_decide (is_Some (fs !! p) \/ is_Some (file_at fs p)) = true.
Proof. intros Hp. apply bool_decide_eq_true. by left. Qed.

Lemma exists_none (fs : fsys) (p : path) :
  no_entry fs p -> bool_decide (is_Some (fs !! p) \/ is_Some (file_at fs p)) = false.
Proof. intros [H1 H2]. apply bool_decide_eq_false. rewrite H1, H2. by intros [[]|[]]. Qed.

(** Steps 2 and 3. *)
Lemma wpc_steps_2_3 (dir : path) (T0 D1 : gmap bytes File) (fs : fsys) :
  ~ may_err F -> names_free T0 D1 -> committed dir T0 D1 fs -> is_Some (fs !! backup_of dir) ->
  wpc F (tmp_exists ← path_exists (tmp_of dir);
         (if tmp_exists : bool then move_compacted dir (tmp_of dir) else mret tt);;
         remove_dir_if_exists (tmp_of dir);; remove_dir_if_exists (backup_of dir);;
         remove_if_exists (marker_of dir)) tt fs
    (fun _ _ fs' => swapped dir T0 D1 fs' /\ swap_frame dir fs fs')
    (fun _ _ _ => False)
    (fun fs' => may_crash F /\ committed dir T0 D1 fs' /\ swap_frame dir fs fs').
Proof.
  intros HF Hf Hc Hb. pose proof Hc as (T & Hd & Hsub & Hs1 & Hs2 & Hcase).
  destruct Hcase as [[_ Ht]|(Hb' & _)]; [|rewrite Hb' in Hb; by destruct Hb].
  assert (file_at fs (tmp_of dir) = None) as Hft by (eapply moved_free; [done|by left|done]).
  assert (committed dir T0 D1 fs /\ swap_frame dir fs fs) as Hc0 by done.
  wpc_step. apply wpc_path_exists; [|done|done].
  destruct (fs !! tmp_of dir) as [T'|] eqn:Et; simpl in Ht; subst.
  - rewrite bool_decide_eq_true_2 by (left; by eexists). wpc_step.
    eapply wpc_mono; [by apply (wpc_move_compacted dir T0 D1 T)| | |].
    + intros [] [] fs1 (Hc1 & Ht1 & Hb1 & Hf1).
      destruct Hc1 as (T1 & Hd1 & _ & Hs11 & Hs21 & [[_ HT1]|(Hb1' & _ & _)]);
        [|by rewrite Hb1' in Hb1; destruct Hb1].
      rewrite Ht1 in HT1. simpl in HT1. subst T1.
      eapply wpc_mono; [by apply (wpc_clear_scratch dir T0 D1); rewrite ?Ht1| | |].
      * intros [] [] fs2 [Hsw Hf2]. split; [done|by etrans].
      * by intros e [] fs2 [? _].
      * intros fs2 (HC & Hc2 & Hf2). split; [done|]. split; [done|by etrans].
    + by intros e [] fs1 [? _].
    + done.
  - rewrite bool_decide_eq_false_2 by (rewrite Hft; by intros [[]|[]]). wpc_step. wpc_step.
    eapply wpc_mono; [by apply (wpc_clear_scratch dir T0 D1); rewrite ?Et| | |].
    + done.
    + by intros e [] fs2 [? _].
    + done.
Qed.

(** From any state after step 1 the swap is completed, and a crash leaves such a state. *)
Lemma wpc_finish_committed (dir : path) (T0 D1 : gmap bytes File) (fs : fsys) :
  ~ may_err F -> names_free T0 D1 -> committed dir T0 D1 fs ->
  wpc F (finish_pending_compaction dir) tt fs
    (fun _ _ fs' => swapped dir T0 D1 fs' /\ swap_frame dir fs fs')
    (fun _ _ _ => False)
    (fun fs' => may_crash F /\ committed dir T0 D1 fs' /\ swap_frame dir fs fs').
Proof.
  intros HF Hf Hc. pose proof Hc as (T & Hd & Hsub & Hs1 & Hs2 & Hcase).
  assert (file_at fs (tmp_of dir) = None) as Hft by (eapply moved_free; [done|by left|done]).
  assert (file_at fs (backup_of dir) = None) as Hfb by (eapply moved_free; [done|by right|done]).
  assert (committed dir T0 D1 fs /\ swap_frame dir fs fs) as Hc0 by done.
  unfold finish_pending_compaction. fold (tmp_of dir) (backup_of dir) (marker_of dir).
  wpc_step. apply wpc_path_exists; [|done|done].
  destruct Hcase as [[Hb Ht]|(Hb & Ht & ->)].
  - assert (wpc F (backup_exists ← path_exists (backup_of dir);
      (if negb backup_exists then create_dir_all (backup_of dir);; move_segments dir (backup_of dir)
       else mret tt);;
      tmp_exists ← path_exists (tmp_of dir);
      (if tmp_exists : bool then move_compacted dir (tmp_of dir) else mret tt);;
      remove_dir_if_exists (tmp_of dir);; remove_dir_if_exists (backup_of dir);;
      remove_if_exists (marker_of dir)) tt fs
      (fun _ _ fs' => swapped dir T0 D1 fs' /\ swap_frame dir fs fs') (fun _ _ _ => False)
      (fun fs' => may_crash F /\ committed dir T0 D1 fs' /\ swap_frame dir fs fs')) as Hrest.
    { wpc_step. apply wpc_path_exists; [|done|done]. rewrite exists_dir by done. cbn [negb].
      wpc_step. wpc_step. by apply wpc_steps_2_3. }
    wpc_step. destruct (bool_decide (is_Some (fs !! tmp_of dir) \/ is_Some (file_at fs (tmp_of dir)))).
    + wpc_step. cbn [negb]. done.
    + apply wpc_path_exists; [|done|done]. rewrite exists_dir by done. cbn [negb]. done.
  - rewrite exists_none by done. apply wpc_bind, wpc_path_exists; [|done|done].
    rewrite exists_none by done. cbn [negb]. unfold marker_of, path_join.
    eapply wpc_mono; [apply wpc_remove_if_exists| | |].
    + intros [] [] fs' ->. by apply committed_marker.
    + by intros e [] fs' [? _].
    + by intros fs' [HC ->].
Qed.
End finish.

(** ** The first step *)

(** The files of a directory that are not segments. *)
Definition non_segments (D : gmap bytes File) : gmap bytes File :=
  filter (fun e => is_segment_name e.1 = false) D.

(** A compaction that has just been committed: the compacted segments [T0] are in the temporary
    directory, the old ones among the files [D0] of the store. *)
Record ready (dir : path) (T0 D0 : gmap bytes File) (fs : fsys) : Prop := {
  rd_dir : fs !! dir = Some D0;
  rd_tmp : fs !! tmp_of dir = Some T0;
  rd_backup : no_entry fs (backup_of dir);
  rd_ok : dir_ok fs dir;
  rd_dirs : forall n, is_Some (fs !! (n :: dir)) -> is_segment_name n = false;
  rd_tmp_dirs : forall n, fs !! (n :: tmp_of dir) = None;
  rd_backup_dirs : forall n, fs !! (n :: backup_of dir) = None;
  rd_names : forall n, is_Some (T0 !! n) -> is_segment_name n = true;
}.

(** The files of the store while its segments move out: some segments of [D0] are gone. *)
Definition thinned (D D0 : gmap bytes File) : Prop :=
  D ⊆ D0 /\ forall n, is_segment_name n = false -> D !! n = D0 !! n.

#[export] Instance thinned_refl : Reflexive thinned.
Proof. by intros D. Qed.

Lemma thinned_delete (n : bytes) (D D0 : gmap bytes File) :
  is_segment_name n = true -> thinned D (delete n D0) -> thinned D D0.
Proof.
  intros Hn [H1 H2]. split; [etrans; [done|apply delete_subseteq]|].
  intros n' Hn'. rewrite H2 by done. apply lookup_delete_ne. congruence.
Qed.

Section step1.
Context `{DirOrder}.
Context {F : FaultModel}.

Lemma wpc_move_segments_loop (dir : path) (l : list bytes) (D B : gmap bytes File) (fs : fsys) :
  ~ may_err F ->
  NoDup (filter (fun n => is_segment_name n = true) l) ->
  (forall n, n ∈ l -> is_segment_name n = true -> is_Some (D !! n)) ->
  fs !! dir = Some D -> fs !! backup_of dir = Some B -> (forall n, fs !! (n :: backup_of dir) = None) ->
  wpc F
    (for_each (fun name =>
       if is_segment_name name
       then rename_file (path_join dir name) (path_join (backup_of dir) name)
       else mret tt) l) tt fs
    (fun _ _ fs' => exists D', fs' !! dir = Some D' /\ is_Some (fs' !! backup_of dir) /\
       (forall n, D' !! n = if decide (n ∈ l /\ is_segment_name n = true) then None else D !! n) /\
       (forall q, q <> dir -> q <> backup_of dir -> fs' !! q = fs !! q))
    (fun _ _ _ => False)
    (fun fs' => may_crash F /\ exists D', thinned D' D /\ fs' !! dir = Some D' /\
       is_Some (fs' !! backup_of dir) /\
       (forall q, q <> dir -> q <> backup_of dir -> fs' !! q = fs !! q)).
Proof.
  intros HF. revert D B fs. induction l as [|n l IH]; intros D B fs Hnd Hl Hd Hb Hs.
  { cbn [for_each]. wpc_step. exists D. split; [done|]. split; [by eexists|]. split; [|done].
    intros n. rewrite decide_False; [done|]. by intros [?%not_elem_of_nil _]. }
  cbn [for_each]. wpc_step. destruct (is_segment_name n) eqn:En.
  - rewrite filter_cons_True in Hnd by done. apply NoDup_cons in Hnd as [Hn Hnd].
    rewrite list_elem_of_filter in Hn.
    destruct (Hl n) as [f Hf]; [by left|done|].
    eapply wpc_mono; [by apply (wpc_rename n dir (backup_of dir) f D B)| |by intros ? ? ? [? _]|].
    2: { intros fs' [HC ->]. split; [done|]. exists D. by rewrite Hb. }
    intros [] [] fs' ->.
    destruct (rename_effect n dir (backup_of dir) f D B fs) as (E1 & E2 & E3);
      [apply dir_ne_sub|done|done|].
    eapply wpc_mono; [apply (IH (delete n D) (<[n := f]> B))| |done|].
    + done.
    + intros n' Hn' Hs'. rewrite lookup_delete_ne by (intros ->; tauto).
      apply Hl; [by right|done].
    + done.
    + done.
    + intros n'. rewrite E3; [done| |].
      * intros Heq%(f_equal length). simpl in Heq. lia.
      * intros Heq%(f_equal length). simpl in Heq. lia.
    + intros [] [] fs' (D' & G1 & G2 & G3 & G4). exists D'. split; [done|]. split; [done|].
      split; [|intros q H1 H2; by rewrite G4, E3].
      intros n'. rewrite G3. destruct (decide (n = n')) as [<-|Hne].
      * rewrite lookup_delete_eq. rewrite (decide_True (P := n ∈ n :: l /\ _)).
        -- by case_decide.
        -- split; [by left|done].
      * rewrite lookup_delete_ne by done. apply decide_ext. rewrite elem_of_cons.
        split; [tauto|]. by intros [[<- | ?] ?].
    + intros fs' (HC & D' & G0 & G1 & G2 & G4). split; [done|]. exists D'.
      split; [by eapply thinned_delete|]. split; [done|]. split; [done|].
      intros q H1 H2. by rewrite G4, E3.
  - rewrite filter_cons_False in Hnd by by rewrite En.
    wpc_step. eapply wpc_mono; [apply (IH D B)| |done|done]; try done.
    + intros n' Hn'. apply Hl. by right.
    + intros [] [] fs' (D' & G1 & G2 & G3 & G4). exists D'. split; [done|]. split; [done|].
      split; [|done]. intros n'. rewrite G3. apply decide_ext. rewrite elem_of_cons.
      split; [tauto|]. intros [[-> | ?] ?]; [congruence|done].
Qed.

Lemma elem_of_entry_names (fs : fsys) (p : path) (files : gmap bytes File) (n : bytes) :
  n ∈ entry_names fs p files <-> is_Some (files !! n) \/ is_Some (fs !! (n :: p)).
Proof.
  unfold entry_names. rewrite elem_of_app, list_elem_of_fmap, list_elem_of_omap. split.
  - intros [([n' f] & -> & Hin%elem_of_map_to_list)|([[|n' d] fl] & Hin & He)]; [left; by eexists|done|].
    case_decide; simplify_eq. right. apply elem_of_map_to_list in Hin. by eexists.
  - intros [[f Hf]|[fl Hf]].
    + left. exists (n, f). by rewrite elem_of_map_to_list.
    + right. exists (n :: p, fl). rewrite elem_of_map_to_list. by rewrite decide_True.
Qed.

Lemma filter_entry_names (fs : fsys) (p : path) (files : gmap bytes File) (P : bytes -> Prop)
    `{forall n, Decision (P n)} :
  (forall n, is_Some (fs !! (n :: p)) -> ~ P n) -> NoDup (filter P (entry_names fs p files)).
Proof.
  intros Hp. unfold entry_names. rewrite filter_app. rewrite (filter_none P (omap _ _)).
  - rewrite app_nil_r. apply NoDup_filter, NoDup_fst_map_to_list.
  - apply Forall_forall. intros n ([[|n' d] fl] & Hin & He)%list_elem_of_omap; [done|].
    case_decide; simplify_eq. apply Hp. apply elem_of_map_to_list in Hin. by eexists.
Qed.

Lemma thinned_non_segments (D : gmap bytes File) : thinned (non_segments D) D.
Proof.
  split; [apply map_filter_subseteq|]. intros n Hn. unfold non_segments. rewrite map_lookup_filter.
  destruct (D !! n); simpl; [|done]. by rewrite option_guard_True.
Qed.

(** A state of step 1: the backup directory is there, some of the segments are still in place. *)
Lemma step1_committed (dir : path) (T0 D0 D : gmap bytes File) (fs fs' : fsys) :
  ready dir T0 D0 fs -> fs' !! dir = Some D -> is_Some (fs' !! backup_of dir) ->
  (forall q, q <> dir -> q <> backup_of dir -> fs' !! q = fs !! q) ->
  committed dir T0 D fs' /\ swap_frame dir fs fs'.
Proof.
  intros [Hd Ht _ _ Hdirs Htd _ Hnames] Hd2 Hb2 Hfr. split.
  - exists T0. split; [|split; [done|split; [|split; [|left]]]].
    + rewrite Hd2. unfold moved. by rewrite map_difference_diag, map_empty_union.
    + intros n Hn. rewrite Hfr; [| by apply not_eq_sym, dir_ne_sub|].
      * apply eq_None_not_Some. intros Hs. apply Hdirs in Hs. by rewrite Hnames in Hs.
      * intros Heq. injection Heq as ->. by apply Hnames in Hn.
    + intros n. rewrite Hfr; [done| |].
      * intros Heq%(f_equal length). simpl in Heq. lia.
      * intros Heq%(f_equal length). simpl in Heq. lia.
    + split; [done|]. rewrite Hfr; [by rewrite Ht|by apply not_eq_sym, dir_ne_sub|by vm_compute].
  - intros q H1 _ H2. apply Hfr; [done|]. by intros ->.
Qed.

(** The complete swap from the commit point. A crash leaves the state before it, or a committed
    state from which some of the old segments have gone. *)
Lemma wpc_finish_ready (dir : path) (T0 D0 : gmap bytes File) (fs : fsys) :
  ~ may_err F -> ready dir T0 D0 fs -> names_free T0 (non_segments D0) ->
  wpc F (finish_pending_compaction dir) tt fs
    (fun _ _ fs' => swapped dir T0 (non_segments D0) fs' /\ swap_frame dir fs fs')
    (fun _ _ _ => False)
    (fun fs' => may_crash F /\ (fs' = fs \/
       exists D, thinned D D0 /\ committed dir T0 D fs' /\ swap_frame dir fs fs')).
Proof.
  intros HF Hrd Hf. pose proof Hrd as [Hd Ht [Hb Hbf] Hok Hdirs Htd Hbd Hnames].
  unfold finish_pending_compaction. fold (tmp_of dir) (backup_of dir) (marker_of dir).
  wpc_step. apply wpc_path_exists; [|done|by auto].
  rewrite bool_decide_eq_true_2 by (left; by rewrite Ht). cbn [negb]. wpc_step. wpc_step. cbn [negb].
  wpc_step. apply wpc_path_exists; [|done|by auto].
  rewrite bool_decide_eq_false_2 by (rewrite Hb, Hbf; by intros [[]|[]]). cbn [negb].
  set (fs1 := <[backup_of dir := ∅]> fs).
  assert (forall q, q <> backup_of dir -> fs1 !! q = fs !! q) as Hfs1.
  { intros q Hq. by apply lookup_insert_ne. }
  assert (is_Some (fs1 !! backup_of dir)) as Hb1 by (unfold fs1; rewrite lookup_insert_eq; by eexists).
  assert (exists D, thinned D D0 /\ committed dir T0 D fs1 /\ swap_frame dir fs fs1) as Hc1.
  { exists D0. split; [done|]. eapply step1_committed; [done| |done|].
    - rewrite Hfs1; [done|apply dir_ne_sub].
    - intros q _. apply Hfs1. }
  wpc_step. wpc_step.
  eapply wpc_mono; [by apply wpc_create_sub| |done|by intros fs' (HC & [-> | ->]); auto].
  intros [] [] fs' ->. fold fs1. unfold move_segments. wpc_step.
  apply wpc_atomic; [|done|by auto].
  rewrite Hfs1, Hd by apply dir_ne_sub.
  eapply wpc_mono; [apply (wpc_move_segments_loop dir _ D0 ∅ fs1)| |done|].
  - done.
  - rewrite (dir_order_perm dir). apply filter_entry_names.
    intros n Hn. destruct (decide (n = COMPACT_OLD_BACKUP_DIR)) as [->|Hnb]; [by vm_compute|].
    rewrite Hfs1 in Hn by (unfold backup_of, path_join; congruence). by rewrite Hdirs.
  - intros n. rewrite (dir_order_perm dir), elem_of_entry_names. intros [Hn|Hn] Hs; [done|].
    destruct (decide (n = COMPACT_OLD_BACKUP_DIR)) as [->|Hnb]; [by vm_compute in Hs|].
    rewrite Hfs1 in Hn by (unfold backup_of, path_join; congruence). by rewrite Hdirs in Hs.
  - rewrite Hfs1; [done|apply dir_ne_sub].
  - apply lookup_insert_eq.
  - intros n. rewrite Hfs1 by (by apply not_eq_sym, dir_ne_sub). apply Hbd.
  - intros [] [] fs2 (D' & Hd2 & Hb2 & HD' & Hfr2).
    assert (D' = non_segments D0) as ->.
    { apply map_eq. intros n. rewrite HD'. unfold non_segments.
      rewrite map_lookup_filter. destruct (D0 !! n) as [f|] eqn:En; simpl.
      - destruct (is_segment_name n) eqn:Es; simpl.
        + rewrite decide_True; [done|]. split; [|done].
          rewrite (dir_order_perm dir), elem_of_entry_names. left. rewrite En. by eexists.
        + rewrite decide_False by by intros [_ ?]. done.
      - by case_decide. }
    destruct (step1_committed dir T0 D0 (non_segments D0) fs fs2) as [Hc Hsf]; [done..| |].
    { intros q H1 H2. by rewrite Hfr2, Hfs1. }
    eapply wpc_mono; [by apply wpc_steps_2_3| |done|].
    + intros [] [] fs' [Hsw Hf']. split; [done|]. by etrans.
    + intros fs' (HC & Hc' & Hf'). split; [done|]. right. exists (non_segments D0).
      split; [apply thinned_non_segments|]. split; [done|by etrans].
  - intros fs2 (HC & D' & Hbt & Hd2 & Hb2 & Hfr2). split; [done|]. right. exists D'. split; [done|].
    apply (step1_committed dir T0 D0); [done..|]. intros q H1 H2. by rewrite Hfr2, Hfs1.
Qed.
End step1.
