(* ===== verification/Store.v ===== *)
(** * Store: the multi-version key-value store

    Models [crates/storage/src/store.rs]: the index of versions, reads, writes, snapshots and
    their guards, and compaction. *)
From S2P Require Export Swap.

(** [type WriteOp = LogOp]. *)
Abbreviation WriteOp := LogOp.

(** [struct CompactionReport]. *)
Record CompactionReport := mkCompactionReport {
  live_keys : nat;
  segments_before : nat;
  segments_after : nat;
}.

(** [struct VersionEntry]; [None] is a tombstone. *)
Record VersionEntry := mkVersion {
  ve_seq : Z;
  ve_value : option bytes;
}.

(** [struct Snapshot]. *)
Record Snapshot := mkSnapshot { as_of_seq : Z }.

(** The index: the versions of every key, oldest first. *)
Abbreviation Index := (gmap bytes (list VersionEntry)).

(** The registry of held snapshots, which the store and its guards share: how many live guards
    hold each sequence number. *)
Abbreviation Registry := (gmap Z nat).

(** [struct SnapshotGuard]; its registry is the store's. *)
Record SnapshotGuard := mkGuard { guard_snapshot : Snapshot }.

(** [SnapshotGuard::drop]. *)
Definition guard_drop (g : SnapshotGuard) (registry : Registry) : Registry :=
  let s := as_of_seq (guard_snapshot g) in
  match registry !! s with
  | Some count => if decide (count - 1 = 0) then delete s registry else <[s := count - 1]> registry
  | None => registry
  end.

(** [struct Store]. *)
Record Store := mkStore {
  st_dir : path;
  st_log : Log;
  st_index : Index;
  recovered_from_torn_tail : bool;
  held_snapshots : Registry;
}.

Definition set_log (l : Log) (st : Store) : Store :=
  mkStore (st_dir st) l (st_index st) (recovered_from_torn_tail st) (held_snapshots st).

Definition set_index (idx : Index) (st : Store) : Store :=
  mkStore (st_dir st) (st_log st) idx (recovered_from_torn_tail st) (held_snapshots st).

Definition set_held (r : Registry) (st : Store) : Store :=
  mkStore (st_dir st) (st_log st) (st_index st) (recovered_from_torn_tail st) r.

(** [self.index.entry(key).or_default().push(v)]. *)
Definition index_push (key : bytes) (v : VersionEntry) (idx : Index) : Index :=
  <[key := default [] (idx !! key) ++ [v]]> idx.

(** The version a record becomes. *)
Definition record_version (r : LogRecord) : VersionEntry :=
  mkVersion (seq r) (match record_type r with Put => Some (value r) | Delete => None end).

(** The replay loop of [open]. *)
Definition index_of (records : list LogRecord) : Index :=
  foldl (fun idx r => index_push (key r) (record_version r) idx) ∅ records.

Definition op_key (op : WriteOp) : bytes :=
  match op with
  | OpPut k _ => k
  | OpDelete k => k
  end.

(** ** Reads *)

Definition store_get (st : Store) (key : bytes) : option bytes :=
  versions ← st_index st !! key;
  v ← last versions;
  ve_value v.

(** The version of a key that a snapshot sees. *)
Definition version_at (versions : list VersionEntry) (snapshot : Snapshot) : option bytes :=
  v ← rfind (fun v => ve_seq v <? as_of_seq snapshot)%Z versions;
  ve_value v.

Definition get_at (st : Store) (key : bytes) (snapshot : Snapshot) : option bytes :=
  versions ← st_index st !! key;
  version_at versions snapshot.

(** The common shape of [scan] and [scan_at]: the index from [prefix] on, while the keys start
    with it, each key with what [value_of] reads in its versions. *)
Definition scan_with (value_of : list VersionEntry -> option bytes) (idx : Index) (prefix : bytes) :
    list (bytes * bytes) :=
  omap (fun e => val ← value_of e.2; Some (e.1, val))
    (take_while (fun e => starts_with prefix e.1)
       (filter (fun e => bytes_leb prefix e.1 = true) (bt_iter idx))).

Definition scan (st : Store) (prefix : bytes) : list (bytes * bytes) :=
  scan_with (fun versions => v ← last versions; ve_value v) (st_index st) prefix.

Definition scan_at (st : Store) (prefix : bytes) (snapshot : Snapshot) : list (bytes * bytes) :=
  scan_with (fun versions => version_at versions snapshot) (st_index st) prefix.

Definition snapshot (st : Store) : Snapshot := mkSnapshot (next_seq (st_log st)).

Definition latest_seq (st : Store) (key : bytes) : option Z :=
  versions ← st_index st !! key;
  v ← last versions;
  Some (ve_seq v).

(** ** Snapshot guards *)

Definition hold_snapshot (st : Store) : SnapshotGuard * Store :=
  let s := snapshot st in
  let registry := held_snapshots st in
  (mkGuard s, set_held (<[as_of_seq s := default 0 (registry !! as_of_seq s) + 1]> registry) st).

(** The smallest key of the registry. *)
Definition oldest_held_snapshot_seq (st : Store) : option Z :=
  head (sort_by Z.leb (map_to_list (held_snapshots st)).*1).

(** ** What compaction retains *)

Definition is_live (v : VersionEntry) : bool := bool_decide (is_Some (ve_value v)).

(** The versions of a key that survive. *)
Definition retained (retain_from : option Z) (versions : list VersionEntry) : list VersionEntry :=
  match retain_from with
  | None => filter (fun v => is_live v = true) (option_list (last versions))
  | Some threshold =>
      option_list (rfind (fun v => ve_seq v <? threshold)%Z versions) ++
      filter (fun v => threshold <= ve_seq v)%Z versions
  end.

Definition version_record (key : bytes) (v : VersionEntry) : LogRecord :=
  match ve_value v with
  | Some val => record_put (ve_seq v) key val
  | None => record_delete (ve_seq v) key
  end.

Definition last_live (versions : list VersionEntry) : bool :=
  match last versions with Some v => is_live v | None => false end.

(** The loop over the index: the surviving records and the number of live keys. *)
Definition compact_loop (retain_from : option Z) (entries : list (bytes * list VersionEntry)) :
    list LogRecord * nat :=
  foldl (fun acc e =>
    let '(records, live) := acc in
    let kept := retained retain_from e.2 in
    match kept with
    | [] => (records, live)
    | _ :: _ => (records ++ (version_record e.1 <$> kept),
                 if last_live kept then S live else live)
    end) ([], 0) entries.

Definition seq_leb (r1 r2 : LogRecord) : bool := (seq r1 <=? seq r2)%Z.

(** The records of the compacted log, in the order of their sequence numbers. *)
Definition compact_records (st : Store) : list LogRecord * nat :=
  let '(records, live) := compact_loop (oldest_held_snapshot_seq st) (bt_iter (st_index st)) in
  (sort_by seq_leb records, live).

Section store_ops.
Context `{Crc32, DirOrder}.

(** [Store::open]. *)
Definition store_open (dir : path) : M unit StoreError Store :=
  map_err StIo (finish_or_discard_pending_compaction dir);;
  '(log, report) ← map_err StLog (log_open dir);
  mret (mkStore dir log (index_of (rep_records report)) (rep_torn report) ∅).

(** ** Writes *)

Definition store_put (key value : bytes) : M Store StoreError unit :=
  record ← zoom st_log set_log (map_err StLog (append_put key value));
  modify (fun st => set_index (index_push key (mkVersion (seq record) (Some (LogRecord.value record)))
                                 (st_index st)) st).

Definition store_delete (key : bytes) : M Store StoreError unit :=
  record ← zoom st_log set_log (map_err StLog (append_delete key));
  modify (fun st => set_index (index_push key (mkVersion (seq record) None) (st_index st)) st).

Definition apply_batch (ops : list WriteOp) : M Store StoreError unit :=
  let keys := op_key <$> ops in
  records ← zoom st_log set_log (map_err StLog (log_append_batch ops));
  modify (fun st => set_index (foldl (fun idx kr => index_push kr.1 (record_version kr.2) idx)
                                 (st_index st) (zip keys records)) st).

(** ** Compaction *)

(** The part of [compact] before the commit point: the compacted log is built in a temporary
    directory. *)
Definition build_compacted (tmp_dir : path) (records : list LogRecord) : M unit StoreError unit :=
  ex ← path_exists tmp_dir;
  (if ex : bool then map_err StIo (remove_dir_all tmp_dir) else mret tt);;
  map_err StIo (create_dir_all tmp_dir);;
  '(tmp_log, _) ← map_err StLog (log_open tmp_dir);
  _ ← on tmp_log (map_err StLog (append_records_verbatim records));
  mret tt.

(** The throwaway log that releases the handles on the old segments. *)
Definition open_placeholder (placeholder_dir : path) : M unit StoreError Log :=
  ex ← path_exists placeholder_dir;
  (if ex : bool then map_err StIo (remove_dir_all placeholder_dir) else mret tt);;
  map_err StIo (create_dir_all placeholder_dir);;
  '(placeholder_log, _) ← map_err StLog (log_open placeholder_dir);
  mret placeholder_log.

Definition compact : M Store StoreError CompactionReport :=
  st ← get_state;
  let dir := st_dir st in
  let segments_before := segment_count (st_log st) in
  let '(records, live_keys) := compact_records st in
  io (build_compacted (path_join dir COMPACT_TMP_DIR) records);;
  map_err StIo (write_empty_file (path_join dir COMPACT_READY_MARKER));;
  let placeholder_dir := path_join dir COMPACT_PLACEHOLDER_DIR in
  placeholder_log ← io (open_placeholder placeholder_dir);
  modify (set_log placeholder_log);;
  io (map_err StIo (finish_pending_compaction dir));;
  '(log, _report) ← io (map_err StLog (log_open dir));
  let segments_after := segment_count log in
  modify (set_log log);;
  map_err StIo (remove_dir_all placeholder_dir);;
  mret (mkCompactionReport live_keys segments_before segments_after).
End store_ops.
