(* ===== verification/StoreSpec.v ===== *)
(** * StoreSpec: the store as a history of key-value maps

    The abstract specification of the store: a history of records denotes a finite map from keys
    to values, and each prefix of it (a snapshot) the map of an earlier time. The reads of the
    store are those maps, its writes extend the history, and opening recovers it. *)
From S2P Require Export SwapSpec Store.

(** ** The specification: finite maps *)

Definition apply_record (kv : gmap bytes bytes) (r : LogRecord) : gmap bytes bytes :=
  match record_type r with
  | Put => <[key r := value r]> kv
  | Delete => delete (key r) kv
  end.

(** The map a history denotes. *)
Definition kv_of (hist : list LogRecord) : gmap bytes bytes := foldl apply_record ∅ hist.

(** The part of a history before the sequence number [s]. *)
Definition hist_before (s : Z) (hist : list LogRecord) : list LogRecord :=
  filter (fun r => seq r < s)%Z hist.

(** The map as of the sequence number [s]. *)
Definition kv_at (s : Z) (hist : list LogRecord) : gmap bytes bytes := kv_of (hist_before s hist).

Definition apply_op (kv : gmap bytes bytes) (op : WriteOp) : gmap bytes bytes :=
  match op with
  | OpPut k v => <[k := v]> kv
  | OpDelete k => delete k kv
  end.

(** The entries of a map whose keys start with [prefix]. *)
Definition with_prefix (prefix : bytes) (kv : gmap bytes bytes) : gmap bytes bytes :=
  filter (fun e => starts_with prefix e.1 = true) kv.

(** The versions of a key in a history. *)
Definition hist_versions (hist : list LogRecord) (k : bytes) : list VersionEntry :=
  record_version <$> filter (fun r => key r = k) hist.

(** ** The index *)

Lemma hist_versions_app (h1 h2 : list LogRecord) (k : bytes) :
  hist_versions (h1 ++ h2) k = hist_versions h1 k ++ hist_versions h2 k.
Proof. unfold hist_versions. by rewrite filter_app, fmap_app. Qed.

Lemma hist_versions_single (r : LogRecord) (k : bytes) :
  hist_versions [r] k = if decide (key r = k) then [record_version r] else [].
Proof. unfold hist_versions. rewrite filter_cons. by case_decide. Qed.

Lemma index_of_snoc (hist : list LogRecord) (r : LogRecord) :
  index_of (hist ++ [r]) = index_push (key r) (record_version r) (index_of hist).
Proof. unfold index_of. by rewrite foldl_app. Qed.

Lemma index_of_app (h1 h2 : list LogRecord) :
  index_of (h1 ++ h2) =
    foldl (fun idx r => index_push (key r) (record_version r) idx) (index_of h1) h2.
Proof. unfold index_of. by rewrite foldl_app. Qed.

Lemma lookup_index_of (hist : list LogRecord) (k : bytes) :
  index_of hist !! k =
    match hist_versions hist k with [] => None | vs => Some vs end.
Proof.
  induction hist as [|r hist IH] using rev_ind; [done|].
  rewrite index_of_snoc, hist_versions_app, hist_versions_single. unfold index_push.
  destruct (decide (key r = k)) as [->|Hne].
  - rewrite lookup_insert_eq, IH. by destruct (hist_versions hist k).
  - rewrite lookup_insert_ne by done. by rewrite app_nil_r.
Qed.

(** Reading a function of the versions of a key, where an absent key has none. *)
Lemma index_of_bind (hist : list LogRecord) (k : bytes)
    (f : list VersionEntry -> option bytes) :
  f [] = None -> (vs ← index_of hist !! k; f vs) = f (hist_versions hist k).
Proof. intros Hf. rewrite lookup_index_of. by destruct (hist_versions hist k). Qed.

(** ** The maps *)

Lemma kv_of_app (h1 h2 : list LogRecord) : kv_of (h1 ++ h2) = foldl apply_record (kv_of h1) h2.
Proof. unfold kv_of. by rewrite foldl_app. Qed.

Lemma kv_of_snoc (hist : list LogRecord) (r : LogRecord) :
  kv_of (hist ++ [r]) = apply_record (kv_of hist) r.
Proof. by rewrite kv_of_app. Qed.

(** A key has the value of its last version. *)
Lemma kv_of_lookup (hist : list LogRecord) (k : bytes) :
  kv_of hist !! k = (v ← last (hist_versions hist k); ve_value v).
Proof.
  induction hist as [|r hist IH] using rev_ind; [done|].
  rewrite kv_of_snoc, hist_versions_app, hist_versions_single. unfold apply_record.
  destruct (decide (key r = k)) as [->|Hne].
  - rewrite last_snoc. unfold record_version. simpl.
    destruct (record_type r); [by rewrite lookup_insert_eq|by rewrite lookup_delete_eq].
  - rewrite app_nil_r, <-IH.
    destruct (record_type r); [by rewrite lookup_insert_ne|by rewrite lookup_delete_ne].
Qed.

Lemma rfind_last {A} (f : A -> bool) (l : list A) :
  rfind f l = last (filter (fun x => f x = true) l).
Proof.
  induction l as [|x l IH] using rev_ind; [done|].
  rewrite rfind_app, filter_app, filter_cons. simpl. destruct (f x).
  - rewrite decide_True by done. by rewrite filter_nil, last_snoc.
  - rewrite decide_False by done. by rewrite filter_nil, app_nil_r.
Qed.

Lemma filter_hist_versions (hist : list LogRecord) (k : bytes) (s : Z) :
  filter (fun v => (ve_seq v <? s)%Z = true) (hist_versions hist k) =
    hist_versions (hist_before s hist) k.
Proof.
  unfold hist_versions, hist_before. induction hist as [|r hist IH]; [done|].
  rewrite !filter_cons. destruct (decide (key r = k)) as [Hk|Hk].
  - rewrite fmap_cons, filter_cons, IH. simpl.
    destruct (decide (seq r < s)%Z) as [Hs|Hs].
    + rewrite decide_True by (by apply Z.ltb_lt). rewrite filter_cons. by rewrite decide_True.
    + by rewrite decide_False by (rewrite Z.ltb_lt; lia).
  - rewrite IH. case_decide; [|done]. rewrite filter_cons. by rewrite decide_False.
Qed.

Lemma kv_at_lookup (hist : list LogRecord) (k : bytes) (s : Z) :
  kv_at s hist !! k = version_at (hist_versions hist k) (mkSnapshot s).
Proof.
  unfold kv_at, version_at. by rewrite kv_of_lookup, <-filter_hist_versions, rfind_last.
Qed.

(** ** Scans *)

(** Between a prefix and a key that starts with it, every key starts with it. *)
Lemma starts_with_between (p a b : bytes) :
  bytes_leb p a = true -> bytes_leb a b = true -> starts_with p b = true ->
  starts_with p a = true.
Proof.
  intros Hpa Hab Hb. apply starts_with_spec in Hb as [k ->]. apply starts_with_spec.
  revert a Hpa Hab. induction p as [|x p IH]; intros a Hpa Hab; [by exists a|].
  destruct a as [|y a]; simpl in *; [done|].
  destruct (Z.ltb_spec (byte_to_Z x) (byte_to_Z y)), (Z.ltb_spec (byte_to_Z y) (byte_to_Z x));
    try done; try lia.
  destruct (IH a) as [k' ->]; [done|done|]. exists k'. simpl. f_equal.
  apply byte_to_Z_inj. lia.
Qed.

Lemma starts_with_leb (p k : bytes) : starts_with p k = true -> bytes_leb p k = true.
Proof. intros [k' ->]%starts_with_spec. apply bytes_leb_prefix. Qed.

Lemma take_while_prefix {V} (p : bytes) (l : list (bytes * V)) :
  StronglySorted key_lt l -> Forall (fun e => bytes_leb p e.1 = true) l ->
  take_while (fun e => starts_with p e.1) l = filter (fun e => starts_with p e.1 = true) l.
Proof.
  induction 1 as [|x l Hs IH Hx]; intros Hp; [done|].
  apply Forall_cons in Hp as [Hpx Hp]. simpl. rewrite filter_cons.
  destruct (starts_with p x.1) eqn:E.
  - rewrite decide_True by done. by rewrite IH.
  - rewrite decide_False by done. symmetry. apply filter_none.
    eapply Forall_impl; [exact Hx|]. intros y Hy Hsy. cbv beta in *.
    rewrite (starts_with_between p x.1 y.1) in E; [done|done|by apply bytes_ltb_leb|done].
Qed.

Lemma sorted_omap_values {V W} (f : V -> option W) (l : list (bytes * V)) :
  StronglySorted key_lt l ->
  StronglySorted key_lt (omap (fun e => val ← f e.2; Some (e.1, val)) l).
Proof.
  induction 1 as [|[k v] l Hs IH Hx]; simpl; [constructor|].
  destruct (f v) as [w|]; simpl; [|done]. constructor; [done|].
  rewrite Forall_forall in Hx. apply Forall_forall. intros e He. apply list_elem_of_omap in He as ([k' v'] & Hin & He).
  simpl in He. destruct (f v'); simplify_eq/=. by apply (Hx _ Hin).
Qed.

(** A scan is the ordered iteration over the values with the prefix. *)
Lemma scan_with_spec (f : list VersionEntry -> option bytes) (idx : Index) (p : bytes)
    (kv : gmap bytes bytes) :
  (forall k, kv !! k = (vs ← idx !! k; f vs)) -> scan_with f idx p = bt_iter (with_prefix p kv).
Proof.
  intros Hkv. unfold scan_with.
  pose proof (StronglySorted_filter key_lt (fun e => bytes_leb p e.1 = true) _
    (bt_iter_sorted idx)) as Hs.
  rewrite take_while_prefix; [|done|apply Forall_forall; by intros e [? _]%list_elem_of_filter].
  apply key_sorted_unique.
  - by apply sorted_omap_values, StronglySorted_filter.
  - apply bt_iter_sorted.
  - intros [k v]. rewrite elem_of_bt_iter. unfold with_prefix.
    rewrite map_lookup_filter_Some, Hkv, list_elem_of_omap. simpl. split.
    + intros ([k' vs] & Hin & He). simpl in He. destruct (f vs) as [w|] eqn:Ef; simplify_eq/=.
      apply list_elem_of_filter in Hin as [Hp Hin]. apply list_elem_of_filter in Hin as [_ Hin].
      apply elem_of_bt_iter in Hin. rewrite Hin. simpl. by rewrite Ef.
    + intros [Hf Hp]. destruct (idx !! k) as [vs|] eqn:E; simpl in Hf; [|done].
      exists (k, vs). simpl. rewrite Hf. split; [|done].
      apply list_elem_of_filter. split; [done|]. apply list_elem_of_filter.
      split; [by apply starts_with_leb|]. by apply elem_of_bt_iter.
Qed.

(** ** The state in memory *)

(** A history in the order of its sequence numbers. *)
Definition sorted_hist (hist : list LogRecord) : Prop := StronglySorted Z.lt (seq <$> hist).

(** The part of the invariant that no I/O error can break: the index is that of the history [ih],
    whose sequence numbers are below the next one. *)
Record mem_inv (st : Store) (ih : list LogRecord) : Prop := {
  mi_index : st_index st = index_of ih;
  mi_sorted : sorted_hist ih;
  mi_next : Forall (fun r => seq r < next_seq (st_log st))%Z ih;
  mi_pos : (0 <= next_seq (st_log st))%Z;
}.

Lemma store_get_kv (st : Store) (ih : list LogRecord) (k : bytes) :
  mem_inv st ih -> store_get st k = kv_of ih !! k.
Proof.
  intros Hm. unfold store_get. rewrite (mi_index _ _ Hm), kv_of_lookup.
  by rewrite (index_of_bind ih k (fun vs => v ← last vs; ve_value v)).
Qed.

Lemma get_at_kv (st : Store) (ih : list LogRecord) (k : bytes) (s : Snapshot) :
  mem_inv st ih -> get_at st k s = kv_at (as_of_seq s) ih !! k.
Proof.
  intros Hm. unfold get_at. rewrite (mi_index _ _ Hm), kv_at_lookup.
  rewrite (index_of_bind ih k (fun vs => version_at vs s)) by done. by destruct s.
Qed.

Lemma scan_kv (st : Store) (ih : list LogRecord) (p : bytes) :
  mem_inv st ih -> scan st p = bt_iter (with_prefix p (kv_of ih)).
Proof.
  intros Hm. apply scan_with_spec. intros k. rewrite <-(store_get_kv st ih k Hm). done.
Qed.

Lemma scan_at_kv (st : Store) (ih : list LogRecord) (p : bytes) (s : Snapshot) :
  mem_inv st ih -> scan_at st p s = bt_iter (with_prefix p (kv_at (as_of_seq s) ih)).
Proof.
  intros Hm. apply scan_with_spec. intros k. rewrite <-(get_at_kv st ih k s Hm). done.
Qed.

(** The history before a sequence number does not depend on later records. *)
Lemma hist_before_app (s : Z) (h1 h2 : list LogRecord) :
  Forall (fun r => s <= seq r)%Z h2 -> hist_before s (h1 ++ h2) = hist_before s h1.
Proof.
  intros H2. unfold hist_before. rewrite filter_app, (filter_none _ h2), app_nil_r; [done|].
  eapply Forall_impl; [done|]. intros r Hr. cbv beta in *. lia.
Qed.

Lemma hist_before_all (s : Z) (h : list LogRecord) :
  Forall (fun r => seq r < s)%Z h -> hist_before s h = h.
Proof. apply filter_all. Qed.

Lemma sorted_batch (s : Z) (ops : list LogOp) : sorted_hist (batch_records s ops).
Proof.
  unfold sorted_hist. revert s. induction ops as [|op ops IH]; intros s; simpl; constructor; [done|].
  apply Forall_fmap, Forall_forall. intros r Hr%batch_records_seqs. rewrite seq_op_record. simpl. lia.
Qed.

Lemma sorted_hist_app (h1 h2 : list LogRecord) (b : Z) :
  sorted_hist h1 -> sorted_hist h2 -> Forall (fun r => seq r < b)%Z h1 ->
  Forall (fun r => b <= seq r)%Z h2 -> sorted_hist (h1 ++ h2).
Proof.
  intros S1 S2 H1 H2. unfold sorted_hist. rewrite fmap_app.
  apply StronglySorted_app_2; [|done|done].
  intros x y (r1 & -> & Hr1)%list_elem_of_fmap (r2 & -> & Hr2)%list_elem_of_fmap.
  rewrite Forall_forall in H1, H2. specialize (H1 _ Hr1). specialize (H2 _ Hr2).
  cbv beta in *. lia.
Qed.

Lemma batch_records_ge (s : Z) (ops : list LogOp) :
  Forall (fun r => s <= seq r)%Z (batch_records s ops).
Proof. apply Forall_forall. intros r Hr%batch_records_seqs. lia. Qed.

(** The pushes of a batch extend the index by the records of the batch. *)
Lemma push_batch (s : Z) (ops : list LogOp) (ih : list LogRecord) :
  foldl (fun idx kr => index_push kr.1 (record_version kr.2) idx) (index_of ih)
    (zip (op_key <$> ops) (batch_records s ops)) = index_of (ih ++ batch_records s ops).
Proof.
  revert s ih. induction ops as [|op ops IH]; intros s ih; simpl; [by rewrite app_nil_r|].
  replace (index_push (op_key op) (record_version (op_record s op)) (index_of ih))
    with (index_of (ih ++ [op_record s op])).
  - by rewrite IH, <-app_assoc.
  - rewrite index_of_snoc. by destruct op.
Qed.

Lemma kv_of_batch (s : Z) (ops : list LogOp) (ih : list LogRecord) :
  kv_of (ih ++ batch_records s ops) = foldl apply_op (kv_of ih) ops.
Proof.
  revert s ih. induction ops as [|op ops IH]; intros s ih; simpl; [by rewrite app_nil_r|].
  rewrite cons_middle, app_assoc, IH, kv_of_snoc. by destruct op.
Qed.

Section store_specs.
Context `{Crc32, DirOrder}.

(** ** Writes in memory *)

Lemma roll_over_next_seq (n : Z) (l : Log) (w : World) :
  next_seq (roll_over_if_needed n l w).1.2 = next_seq l.
Proof.
  unfold roll_over_if_needed, get_state, modify, mbind, M_bind, io, zoom, map_err. simpl.
  case_match; [done|]. by destruct (open_for_append _ _ _ _) as [[[]] ?].
Qed.

(** Whatever the disk does, a batch that returns has numbered its records from [next_seq], and one
    that does not leaves [next_seq] alone. *)
Lemma log_append_batch_mem (ops : list LogOp) (l : Log) (w : World) :
  (0 <= next_seq l)%Z -> (next_seq l + Z.of_nat (length ops) < 2 ^ 64)%Z ->
  let '(r, l', w') := log_append_batch ops l w in
  match r with
  | Ok records => records = batch_records (next_seq l) ops /\
                  next_seq l' = (next_seq l + Z.of_nat (length ops))%Z
  | _ => next_seq l' = next_seq l
  end.
Proof.
  intros H1 H2. unfold log_append_batch, get_state, mbind, M_bind. simpl.
  rewrite assign_seqs_spec by done.
  pose proof (roll_over_next_seq (Z.of_nat (length (encode_all (batch_records (next_seq l) ops))))
    l w) as Hr.
  destruct (roll_over_if_needed _ l w) as [[[[]|e| |] l1] w1]; [|done..]. simpl in Hr.
  unfold zoom, map_err. by destruct (seg_append_batch _ _ _) as [[[]] ?].
Qed.

Lemma apply_batch_mem (ops : list WriteOp) (st : Store) (ih : list LogRecord) (w : World) :
  mem_inv st ih -> (next_seq (st_log st) + Z.of_nat (length ops) < 2 ^ 64)%Z ->
  let '(r, st', w') := apply_batch ops st w in
  held_snapshots st' = held_snapshots st /\
  match r with
  | Ok _ => mem_inv st' (ih ++ batch_records (next_seq (st_log st)) ops) /\
            next_seq (st_log st') = (next_seq (st_log st) + Z.of_nat (length ops))%Z
  | _ => mem_inv st' ih /\ next_seq (st_log st') = next_seq (st_log st)
  end.
Proof.
  intros [Hidx Hs Hn Hp] Hb.
  pose proof (log_append_batch_mem ops (st_log st) w Hp Hb) as Hm.
  unfold apply_batch, mbind, M_bind, zoom, map_err.
  destruct (log_append_batch ops (st_log st) w) as [[[a|e| |] l'] w'];
    [|by (split; [done|]); split; [split; simpl; rewrite ?Hm|]..].
  destruct Hm as [-> Hn']. simpl. split; [done|]. split; [|done]. split; simpl.
  - rewrite Hidx. apply push_batch.
  - eapply sorted_hist_app; [done|apply sorted_batch|done|apply batch_records_ge].
  - rewrite Hn'. apply Forall_app. split.
    + eapply Forall_impl; [done|]. intros r Hr. cbv beta in *. lia.
    + apply Forall_forall. intros r Hr%batch_records_seqs. lia.
  - lia.
Qed.

(** A single write is a batch of one. *)
Lemma store_put_batch (k v : bytes) (st : Store) (w : World) :
  (0 <= next_seq (st_log st))%Z -> (next_seq (st_log st) + 1 < 2 ^ 64)%Z ->
  store_put k v st w = apply_batch [OpPut k v] st w.
Proof.
  intros H1 H2. pose proof (log_append_batch_mem [OpPut k v] (st_log st) w H1 H2) as Hm.
  unfold store_put, apply_batch, append_put, log_append, get_state, modify, mbind, M_bind, mret,
    M_ret, zoom, map_err. simpl.
  destruct (log_append_batch _ _ _) as [[[a|e| |] l'] w']; [|done..].
  by destruct Hm as [-> _].
Qed.

Lemma store_delete_batch (k : bytes) (st : Store) (w : World) :
  (0 <= next_seq (st_log st))%Z -> (next_seq (st_log st) + 1 < 2 ^ 64)%Z ->
  store_delete k st w = apply_batch [OpDelete k] st w.
Proof.
  intros H1 H2. pose proof (log_append_batch_mem [OpDelete k] (st_log st) w H1 H2) as Hm.
  unfold store_delete, apply_batch, append_delete, log_append, get_state, modify, mbind, M_bind,
    mret, M_ret, zoom, map_err. simpl.
  destruct (log_append_batch _ _ _) as [[[a|e| |] l'] w']; [|done..].
  by destruct Hm as [-> _].
Qed.

(** ** The invariant of a store *)

(** The store on the file system [fs]: the log holds [dh], the index is that of [ih]; both denote
    the same map and continue with the same sequence number. *)
Record store_inv (st : Store) (fs : fsys) (dh ih : list LogRecord) : Prop := {
  si_log : log_holds (st_log st) fs dh;
  si_dir : log_dir (st_log st) = st_dir st;
  si_mem : mem_inv st ih;
  si_wf : wf_hist ih;
  si_next : next_of dh = next_of ih;
  si_sorted : sorted_hist dh;
  si_kv : kv_of dh = kv_of ih;
}.

Lemma log_holds_next (l : Log) (fs : fsys) (hist : list LogRecord) :
  log_holds l fs hist -> next_seq l = next_of hist /\ wf_hist hist.
Proof. intros (ss & rs & Hi). split; apply Hi. Qed.

Lemma wf_hist_lt_next (hist : list LogRecord) :
  wf_hist hist -> Forall (fun r => seq r < next_of hist)%Z hist.
Proof. intros Hwf. apply Forall_forall. intros r Hr. by apply next_of_gt. Qed.

Lemma wpc_apply_batch {F : FaultModel} (st : Store) (fs : fsys) (dh ih : list LogRecord)
    (ops : list WriteOp) :
  store_inv st fs dh ih -> (active_id (st_log st) + 1 < 2 ^ 64)%Z -> Forall wf_op ops ->
  (next_of ih + Z.of_nat (length ops) < 2 ^ 64)%Z ->
  let records := batch_records (next_of ih) ops in
  wpc F (apply_batch ops) st fs
    (fun _ st' fs' => store_inv st' fs' (dh ++ records) (ih ++ records) /\
       st_dir st' = st_dir st /\ held_snapshots st' = held_snapshots st /\
       log_frame (st_dir st) fs fs')
    (fun _ _ fs' => may_err F /\ log_pending fs' (st_dir st) dh records /\
       log_frame (st_dir st) fs fs')
    (fun fs' => may_crash F /\ log_pending fs' (st_dir st) dh records /\
       log_frame (st_dir st) fs fs').
Proof.
  intros [Hl Hd Hm Hwf Hnx Hs Hkv] Hid Hops Hn records.
  destruct (log_holds_next _ _ _ Hl) as [Hseq Hwfd].
  destruct (next_of_batch ih ops Hwf Hops Hn) as [Hwf' Hnx'].
  rewrite <-Hnx in Hn.
  destruct (next_of_batch dh ops Hwfd Hops Hn) as [Hwfd' Hnxd']. rewrite Hnx in *.
  unfold apply_batch. wpc_step. wpc_step. wpc_step. rewrite <-Hd.
  eapply wpc_mono; [apply (wpc_log_append_batch _ _ dh); rewrite ?Hnx; done| | |].
  - intros a l' fs' (-> & Hl' & Hd' & _ & Hfr). wpc_steps.
    split; [|split; [done|split; [done|done]]].
    rewrite Hnx in *. fold records in Hl', Hwf', Hnx', Hwfd', Hnxd'.
    destruct (log_holds_next _ _ _ Hl') as [Hseq' _].
    split; simpl.
    + done.
    + congruence.
    + split; simpl.
      * rewrite (mi_index _ _ Hm). apply push_batch.
      * eapply sorted_hist_app; [apply Hm|apply sorted_batch|by apply wf_hist_lt_next|].
        apply batch_records_ge.
      * rewrite Hseq', Hnxd', <-Hnx'. by apply wf_hist_lt_next.
      * rewrite Hseq'. apply next_of_range.
    + done.
    + congruence.
    + eapply sorted_hist_app; [done|apply sorted_batch|by apply wf_hist_lt_next|].
      rewrite Hnx. apply batch_records_ge.
    + unfold records. by rewrite !kv_of_batch, Hkv.
  - intros e l' fs' (HF & Hp & Hfr). by rewrite Hnx in Hp.
  - intros fs' (HF & Hp & Hfr). by rewrite Hnx in Hp.
Qed.

(** ** Opening *)

(** No compaction is pending in the directory, and the names of its scratch entries are free. *)
Record store_clean (fs : fsys) (dir : path) : Prop := {
  sc_marker : no_entry fs (marker_of dir);
  sc_backup : no_entry fs (backup_of dir);
  sc_tmp : file_at fs (tmp_of dir) = None;
  sc_placeholder : file_at fs (placeholder_of dir) = None;
  sc_dirs : forall n, is_Some (fs !! (n :: dir)) -> is_segment_name n = false;
}.

(** A directory from which [open] recovers the history [hist]. *)
Record store_disk (fs : fsys) (dir : path) (hist : list LogRecord) (torn : bool) : Prop := {
  sd_clean : store_clean fs dir;
  sd_log : log_recoverable fs dir hist torn;
  sd_sorted : sorted_hist hist;
}.

Lemma store_clean_below (n : bytes) (fs fs' : fsys) (dir : path) :
  n = COMPACT_TMP_DIR \/ n = COMPACT_PLACEHOLDER_DIR ->
  below (n :: dir) fs fs' -> store_clean fs dir -> store_clean fs' dir.
Proof.
  intros Hn Hb [Hm Hbk Ht Hp Hds].
  split.
  - eapply below_no_entry; [done|destruct Hn as [-> | ->]; by vm_compute|done].
  - eapply below_no_entry; [done|destruct Hn as [-> | ->]; by vm_compute|done].
  - unfold tmp_of, path_join. by rewrite (below_file n _ _ _ _ Hb).
  - unfold placeholder_of, path_join. by rewrite (below_file n _ _ _ _ Hb).
  - intros n' Hs. destruct (decide (n' = n)) as [-> | Hne].
    + by destruct Hn as [-> | ->].
    + rewrite (below_sibling n _ _ _ _ Hb) in Hs by done. by apply Hds.
Qed.

Lemma cons_ne_self {A} (x : A) (l : list A) : x :: l <> l.
Proof. intros Heq%(f_equal length). simpl in Heq. lia. Qed.

Lemma log_frame_no_entry (n : bytes) (dir : path) (fs fs' : fsys) :
  parse_segment_name n = None -> log_frame dir fs fs' ->
  no_entry fs (n :: dir) -> no_entry fs' (n :: dir).
Proof.
  intros Hn (H1 & _ & H3 & _) [G1 G2]. split; [rewrite H1; [done|apply cons_ne_self]|by rewrite H3].
Qed.

Lemma store_clean_frame (fs fs' : fsys) (dir : path) :
  log_frame dir fs fs' -> store_clean fs dir -> store_clean fs' dir.
Proof.
  intros Hfr [Hm Hbk Ht Hp Hds]. split.
  - by eapply log_frame_no_entry.
  - by eapply log_frame_no_entry.
  - unfold tmp_of, path_join. by rewrite (proj1 (proj2 (proj2 Hfr))).
  - unfold placeholder_of, path_join. by rewrite (proj1 (proj2 (proj2 Hfr))).
  - intros n. rewrite (proj1 Hfr) by apply cons_ne_self. apply Hds.
Qed.

Lemma no_entry_crash (cut : path -> nat) (fs : fsys) (p : path) :
  no_entry fs p -> no_entry (crash_fs cut fs) p.
Proof. intros [H1 H2]. split; [by rewrite lookup_crash_fs, H1|by rewrite file_at_crash, H2]. Qed.

Lemma store_clean_crash (cut : path -> nat) (fs : fsys) (dir : path) :
  store_clean fs dir -> store_clean (crash_fs cut fs) dir.
Proof.
  intros [Hm Hbk Ht Hp Hds]. split; [by apply no_entry_crash|by apply no_entry_crash|..].
  - by rewrite file_at_crash, Ht.
  - by rewrite file_at_crash, Hp.
  - intros n. rewrite crash_fs_is_Some. apply Hds.
Qed.

Lemma store_disk_below (n : bytes) (fs fs' : fsys) (dir : path) (hist : list LogRecord)
    (torn : bool) :
  n = COMPACT_TMP_DIR \/ n = COMPACT_PLACEHOLDER_DIR ->
  below (n :: dir) fs fs' -> store_disk fs dir hist torn -> store_disk fs' dir hist torn.
Proof.
  intros Hn Hb [Hc Hl Hs]. split; [by eapply store_clean_below| |done].
  eapply log_recoverable_below; [|done|done]. by destruct Hn as [-> | ->].
Qed.

Lemma store_opened_inv (l : Log) (fs : fsys) (dir : path) (hist : list LogRecord) (torn : bool) :
  log_holds l fs hist -> log_dir l = dir -> sorted_hist hist ->
  store_inv (mkStore dir l (index_of hist) torn ∅) fs hist hist.
Proof.
  intros Hl Hd Hs. destruct (log_holds_next _ _ _ Hl) as [Hn Hwf].
  split; try done. split; simpl; rewrite ?Hn; try done.
  - by apply wf_hist_lt_next.
  - apply next_of_range.
Qed.

(** The store appends to a segment that was there before. *)
Lemma wpc_store_open_id {F : FaultModel} (fs : fsys) (dir : path) (hist : list LogRecord)
    (torn : bool) :
  ~ may_err F -> store_disk fs dir hist torn ->
  wpc F (store_open dir) tt fs
    (fun st _ fs' => (store_inv st fs' hist hist /\ st_dir st = dir /\
       recovered_from_torn_tail st = torn /\ held_snapshots st = ∅ /\ store_clean fs' dir) /\
       is_Some (file_at fs (segment_path dir (active_id (st_log st)))))
    (fun _ _ _ => False)
    (fun fs' => may_crash F /\ exists torn', store_disk fs' dir hist torn').
Proof.
  intros HF Hsd. unfold store_open. wpc_step. wpc_step.
  set (P fs' := store_disk fs' dir hist torn /\ forall n, file_at fs' (n :: dir) = file_at fs (n :: dir)).
  assert (forall n fs1 fs2, n = COMPACT_TMP_DIR \/ n = COMPACT_PLACEHOLDER_DIR -> P fs1 ->
    below (n :: dir) fs1 fs2 -> P fs2) as HP.
  { intros n fs1 fs2 Hn [H1 H2] Hb. split; [by eapply store_disk_below|].
    intros n'. by rewrite (below_file n n' dir fs1 fs2 Hb). }
  eapply wpc_mono; [apply (wpc_discard dir fs P)| | |].
  - apply Hsd.
  - intros fs1 fs2 H1 Hb. by apply (HP COMPACT_TMP_DIR fs1); [left| |].
  - intros fs1 fs2 H1 Hb. by apply (HP COMPACT_PLACEHOLDER_DIR fs1); [right| |].
  - by split.
  - intros [] [] fs1 ((Hsd1 & Hfs1) & _). wpc_step. wpc_step.
    eapply wpc_mono; [apply (wpc_open_recoverable_id _ _ _ hist torn); [done|apply Hsd1]| | |].
    + intros [l rep] [] fs2 (Hl & Hd & _ & Hrep & Hfr & Ha). cbn [fst snd] in *. subst rep. wpc_steps.
      unfold segment_path, path_join in Ha. rewrite Hfs1 in Ha. split; [|exact Ha].
      split; [apply store_opened_inv; [done|done|apply Hsd1]|].
      split; [done|]. split; [done|]. split; [done|]. eapply store_clean_frame; [done|apply Hsd1].
    + done.
    + intros fs2 (HC & [torn' Hr] & Hfr). split; [done|]. exists torn'.
      split; [|done|apply Hsd1]. eapply store_clean_frame; [done|apply Hsd1].
  - intros e [] fs1 [HFe _]. done.
  - intros fs1 [HC [Hsd1 _]]. split; [done|]. by exists torn.
Qed.

Lemma wpc_store_open {F : FaultModel} (fs : fsys) (dir : path) (hist : list LogRecord)
    (torn : bool) :
  ~ may_err F -> store_disk fs dir hist torn ->
  wpc F (store_open dir) tt fs
    (fun st _ fs' => store_inv st fs' hist hist /\ st_dir st = dir /\
       recovered_from_torn_tail st = torn /\ held_snapshots st = ∅ /\ store_clean fs' dir)
    (fun _ _ _ => False)
    (fun fs' => may_crash F /\ exists torn', store_disk fs' dir hist torn').
Proof.
  intros HF Hsd. eapply wpc_mono; [by apply wpc_store_open_id| |done|done].
  intros st [] fs' [Hst _]. exact Hst.
Qed.

(** Opening a directory that does not exist, or has no segments yet. *)
Lemma wpc_store_open_new (fs fs1 : fsys) (dir : path) :
  mk_dirs dir fs = Some fs1 -> disk_log fs1 dir ∅ -> store_clean fs1 dir ->
  no_entry fs (marker_of dir) -> fs !! tmp_of dir = None -> fs !! placeholder_of dir = None ->
  wpc no_faults (store_open dir) tt fs
    (fun st _ fs' => store_inv st fs' [] [] /\ st_dir st = dir /\
       recovered_from_torn_tail st = false /\ active_id (st_log st) = 0%Z /\ store_clean fs' dir)
    (fun _ _ _ => False) (fun _ => False).
Proof.
  intros Hm Hd Hc Hmk Ht Hp. unfold store_open. wpc_step. wpc_step.
  eapply wpc_mono; [by apply (wpc_discard dir fs (fun _ => True))| |by intros ? ? ? [[] ?]|by intros ? [[] ?]].
  intros [] [] fs' (_ & _ & _ & Hsame). rewrite Hsame by done. wpc_step. wpc_step.
  eapply wpc_mono; [apply (wpc_open_new fs fs1); [by intros []|done|done]| |done|by intros ? [[] ?]].
  intros [l rep] [] fs2 (Hl & Hld & Ha & Hrep & Hfr). simpl in *. subst rep. wpc_steps.
  split; [apply (store_opened_inv _ _ _ []); [done|done|constructor]|]. split; [done|]. split; [done|]. split; [done|].
  by eapply store_clean_frame.
Qed.

Lemma store_disk_crash (cut : path -> nat) (fs : fsys) (dir : path) (hist : list LogRecord)
    (torn : bool) :
  store_disk fs dir hist torn -> exists torn', store_disk (crash_fs cut fs) dir hist torn'.
Proof.
  intros [Hc Hl Hs]. destruct (log_recoverable_crash cut _ _ _ _ Hl) as [torn' Hl'].
  exists torn'. split; [by apply store_clean_crash|done|done].
Qed.

(** What is recovered after a crash in the middle of a batch. *)
Lemma store_crash_recovers (fs : fsys) (dir : path) (dh records : list LogRecord) (fs0 : fsys)
    (cut : path -> nat) :
  log_pending fs dir dh records -> log_frame dir fs0 fs -> store_clean fs0 dir ->
  wf_hist records -> sorted_hist (dh ++ records) ->
  exists k torn, store_disk (crash_fs cut fs) dir (dh ++ take k records) torn.
Proof.
  intros Hp Hfr Hc Hwf Hs. destruct (log_pending_crash cut _ _ _ _ Hp Hwf) as (k & torn & Hr).
  exists k, torn. split; [|done|].
  - apply store_clean_crash. by eapply store_clean_frame.
  - unfold sorted_hist in *. rewrite fmap_app in *. rewrite fmap_take.
    rewrite <-(take_drop k (seq <$> records)), app_assoc in Hs.
    by apply StronglySorted_app in Hs as (_ & ? & _).
Qed.
End store_specs.
