(* ===== verification/StoreProps.v ===== *)
(** * StoreProps: the correctness of the store

    Sessions of writes under arbitrary faults, snapshot isolation, durability across crashes, and
    the refinement of the store by finite maps. *)
From S2P Require Export StoreSpec.

(** ** Sessions *)

(** A write through the public interface. *)
Inductive WriteCall :=
| CallPut (key value : bytes)
| CallDelete (key : bytes)
| CallBatch (ops : list WriteOp).

Definition call_ops (c : WriteCall) : list WriteOp :=
  match c with
  | CallPut k v => [OpPut k v]
  | CallDelete k => [OpDelete k]
  | CallBatch ops => ops
  end.

(** The number of records the calls would write. *)
Definition calls_length (calls : list WriteCall) : nat := sum_list (length <$> (call_ops <$> calls)).

Section session.
Context `{Crc32, DirOrder}.

Definition run_call (c : WriteCall) : M Store StoreError unit :=
  match c with
  | CallPut k v => store_put k v
  | CallDelete k => store_delete k
  | CallBatch ops => apply_batch ops
  end.

(** A caller that makes one call after the other, whatever errors they return, until the process
    crashes. *)
Fixpoint session (calls : list WriteCall) (st : Store) (w : World) : Store * World :=
  match calls with
  | [] => (st, w)
  | c :: calls' =>
      match run_call c st w with
      | (Crash, st', w') => (st', w')
      | (_, st', w') => session calls' st' w'
      end
  end.

Lemma run_call_batch (c : WriteCall) (st : Store) (w : World) :
  (0 <= next_seq (st_log st))%Z ->
  (next_seq (st_log st) + Z.of_nat (length (call_ops c)) < 2 ^ 64)%Z ->
  run_call c st w = apply_batch (call_ops c) st w.
Proof.
  intros H1 H2. destruct c as [k v|k|ops]; simpl in *.
  - by apply store_put_batch.
  - by apply store_delete_batch.
  - done.
Qed.

(** A session only adds records, numbered from the next sequence number on. *)
Lemma session_mem (calls : list WriteCall) (st : Store) (ih : list LogRecord) (w : World) :
  mem_inv st ih -> (next_seq (st_log st) + Z.of_nat (calls_length calls) < 2 ^ 64)%Z ->
  exists added, mem_inv (session calls st w).1 (ih ++ added) /\
    Forall (fun r => next_seq (st_log st) <= seq r)%Z added.
Proof.
  revert st ih w. induction calls as [|c calls IH]; intros st ih w Hm Hb; simpl.
  { exists []. by rewrite app_nil_r. }
  change (calls_length (c :: calls)) with (length (call_ops c) + calls_length calls) in Hb.
  pose proof (mi_pos _ _ Hm) as Hpos.
  rewrite run_call_batch by lia.
  pose proof (apply_batch_mem (call_ops c) st ih w Hm ltac:(lia)) as Hc.
  destruct (apply_batch (call_ops c) st w) as [[r st'] w']. destruct Hc as [_ Hc].
  assert (exists a1, mem_inv st' (ih ++ a1) /\
    Forall (fun r => next_seq (st_log st) <= seq r)%Z a1 /\
    (next_seq (st_log st) <= next_seq (st_log st') <=
      next_seq (st_log st) + Z.of_nat (length (call_ops c)))%Z) as (a1 & Hm1 & Ha1 & Hn1).
  { destruct r; [|exists []; rewrite app_nil_r; destruct Hc; split_all; (done || lia)..].
    eexists. destruct Hc as [Hc ->]. split; [exact Hc|]. split; [apply batch_records_ge|lia]. }
  assert (exists added, mem_inv (session calls st' w').1 (ih ++ added) /\
    Forall (fun r => next_seq (st_log st) <= seq r)%Z added) as Hrest.
  { destruct (IH st' (ih ++ a1) w' Hm1) as (a2 & Hm2 & Ha2); [lia|].
    exists (a1 ++ a2). rewrite app_assoc. split; [done|]. apply Forall_app. split; [done|].
    eapply Forall_impl; [done|]. intros x Hx. cbv beta in *. lia. }
  destruct r; [done|done|done|]. by exists a1.
Qed.
End session.

(** ** Combining the two kinds of facts about a computation *)

Lemma wpc_and {F : FaultModel} {S E A : Type} (m : M S E A) (s : S) (fs : fsys)
    (Q : A -> S -> fsys -> Prop) (X : E -> S -> fsys -> Prop) (C : fsys -> Prop)
    (P : Res E A -> S -> Prop) :
  wpc F m s fs Q X C -> (forall w, P (m s w).1.1 (m s w).1.2) ->
  wpc F m s fs (fun a s' fs' => Q a s' fs' /\ P (Ok a) s') (fun e s' fs' => X e s' fs' /\ P (Err e) s') C.
Proof.
  intros Hw Hp faults Hf. specialize (Hw faults Hf). specialize (Hp (mkWorld fs faults)).
  destruct (m s _) as [[[a|e| |] s'] w']; simpl in *; destruct Hw as [Hfl Hw]; by repeat split.
Qed.

Lemma wpc_ext {F : FaultModel} {S E A : Type} (m m' : M S E A) (s : S) (fs : fsys)
    (Q : A -> S -> fsys -> Prop) (X : E -> S -> fsys -> Prop) (C : fsys -> Prop) :
  (forall w, m s w = m' s w) -> wpc F m' s fs Q X C -> wpc F m s fs Q X C.
Proof. intros He Hw faults Hf. rewrite He. by apply Hw. Qed.

Section store_properties.
Context `{Crc32, DirOrder}.

(** C8: The store refines a finite map. In every state that satisfies the invariant, whose index
    is that of the history [ih], [get] is the lookup in the map the history denotes, [scan] is the
    ordered iteration over its entries with the prefix, and [get_at] and [scan_at] are the same
    for the map as of the snapshot's sequence number. *)
Theorem reads_refine_map (st : Store) (ih : list LogRecord) :
  mem_inv st ih ->
  (forall k, store_get st k = kv_of ih !! k) /\
  (forall p, scan st p = bt_iter (with_prefix p (kv_of ih))) /\
  (forall k s, get_at st k s = kv_at (as_of_seq s) ih !! k) /\
  (forall p s, scan_at st p s = bt_iter (with_prefix p (kv_at (as_of_seq s) ih))).
Proof.
  intros Hm. split; [|split; [|split]].
  - intros k. by apply store_get_kv.
  - intros p. by apply scan_kv.
  - intros k s. by apply get_at_kv.
  - intros p s. by apply scan_at_kv.
Qed.

(** C9: Writes refine map updates, and failures change nothing: under any faults of the disk, if
    [apply_batch] succeeds the store denotes the map with all the operations applied in order, and
    the invariant holds again; if it fails, every read of the store is what it was. *)
Theorem apply_batch_refines_map (st : Store) (fs : fsys) (dh ih : list LogRecord)
    (ops : list WriteOp) :
  store_inv st fs dh ih -> (active_id (st_log st) + 1 < 2 ^ 64)%Z -> Forall wf_op ops ->
  (next_of ih + Z.of_nat (length ops) < 2 ^ 64)%Z ->
  wpc any_fault (apply_batch ops) st fs
    (fun _ st' fs' => exists dh' ih', store_inv st' fs' dh' ih' /\
       kv_of ih' = foldl apply_op (kv_of ih) ops /\ kv_of dh' = kv_of ih' /\
       forall k, store_get st' k = foldl apply_op (kv_of ih) ops !! k)
    (fun _ st' _ => (forall k, store_get st' k = store_get st k) /\
       (forall k s, get_at st' k s = get_at st k s) /\ snapshot st' = snapshot st)
    (fun _ => True).
Proof.
  intros Hi Hid Hops Hn. pose proof (si_mem _ _ _ _ Hi) as Hm.
  destruct (log_holds_next _ _ _ (si_log _ _ _ _ Hi)) as [Hseq _]. rewrite (si_next _ _ _ _ Hi) in Hseq.
  eapply wpc_mono; [apply (wpc_and _ _ _ _ _ _ (fun r st' => match r with
    | Err _ => mem_inv st' ih /\ snapshot st' = snapshot st | _ => True end)
    (wpc_apply_batch st fs dh ih ops Hi Hid Hops Hn))| | |done].
  - intros w. pose proof (apply_batch_mem ops st ih w Hm ltac:(lia)) as Hb.
    destruct (apply_batch ops st w) as [[r st'] w']. destruct Hb as [_ Hb]. destruct r; simpl; try done.
    destruct Hb as [Hb Hn']. split; [done|]. unfold snapshot. by rewrite Hn'.
  - intros [] st' fs' [(Hi' & _) _]. eexists _, _. split; [done|]. rewrite kv_of_batch.
    split; [done|]. split; [by rewrite (si_kv _ _ _ _ Hi'), kv_of_batch|].
    intros k. by rewrite (store_get_kv _ _ _ (si_mem _ _ _ _ Hi')), kv_of_batch.
  - intros e st' fs' [_ [Hm' Hs]]. split; [|split; [|done]].
    + intros k. by rewrite !(store_get_kv _ ih).
    + intros k s. by rewrite !(get_at_kv _ ih).
Qed.

(** A single [put] or [delete] is exactly a batch of one: the two paths through the log and
    the index compute the same result, state and file system, under any fault plan. *)
Theorem single_write_is_batch (st : Store) (w : World) (k v : bytes) :
  (0 <= next_seq (st_log st))%Z -> (next_seq (st_log st) + 1 < 2 ^ 64)%Z ->
  store_put k v st w = apply_batch [OpPut k v] st w /\
  store_delete k st w = apply_batch [OpDelete k] st w.
Proof. intros H1 H2. split; [by apply store_put_batch|by apply store_delete_batch]. Qed.

(** C10: Snapshot isolation: a snapshot taken now reads, for every key and after any session of
    later puts, deletes and batches, each succeeding or failing in any way, the value the key has
    now; and so does a scan. *)
Theorem snapshot_isolation (st : Store) (ih : list LogRecord) (calls : list WriteCall) (w : World) :
  mem_inv st ih -> (next_seq (st_log st) + Z.of_nat (calls_length calls) < 2 ^ 64)%Z ->
  let st' := (session calls st w).1 in
  (forall k, get_at st' k (snapshot st) = store_get st k) /\
  (forall p, scan_at st' p (snapshot st) = scan st p).
Proof.
  intros Hm Hb st'. destruct (session_mem calls st ih w Hm Hb) as (added & Hm' & Ha).
  assert (kv_at (as_of_seq (snapshot st)) (ih ++ added) = kv_of ih) as Hkv.
  { unfold kv_at. rewrite hist_before_app by done. by rewrite hist_before_all by apply Hm. }
  split.
  - intros k. by rewrite (get_at_kv _ _ _ _ Hm'), Hkv, (store_get_kv _ _ _ Hm).
  - intros p. by rewrite (scan_at_kv _ _ _ _ Hm'), Hkv, (scan_kv _ _ _ Hm).
Qed.

(** C11: Opening recovers the store: from a directory whose log holds [hist], with any torn tail
    and any leftovers of an uncommitted compaction, [open] returns a store that denotes the map of
    [hist], reports the torn tail and holds no snapshot; and if the process crashes inside
    [open], the directory still holds [hist]. *)
Theorem open_recovers_store (fs : fsys) (dir : path) (hist : list LogRecord) (torn : bool) :
  store_disk fs dir hist torn ->
  wpc crashes_only (store_open dir) tt fs
    (fun st _ fs' => store_inv st fs' hist hist /\ recovered_from_torn_tail st = torn /\
       (forall k, store_get st k = kv_of hist !! k) /\ held_snapshots st = ∅)
    (fun _ _ _ => False)
    (fun fs' => exists torn', store_disk fs' dir hist torn').
Proof.
  intros Hd. eapply wpc_mono; [apply (wpc_store_open fs dir hist torn); [by intros []|done]| |done|].
  - intros st [] fs' (Hi & _ & Ht & Hh & _). split; [done|]. split; [done|]. split; [|done].
    intros k. apply store_get_kv. apply Hi.
  - by intros fs' [_ ?].
Qed.

(** C4: Durability across crashes: whatever happens to the disk during [apply_batch], after a
    restart that keeps the durable bytes and any part of the others, [open] returns a store that
    denotes the map of the committed history with the whole batch applied if the call succeeded,
    and with a prefix of the batch applied if it failed or crashed. *)
Theorem apply_batch_crash_durable (st : Store) (fs : fsys) (dh ih : list LogRecord)
    (ops : list WriteOp) (cut : path -> nat) :
  store_inv st fs dh ih -> store_clean fs (st_dir st) -> (active_id (st_log st) + 1 < 2 ^ 64)%Z ->
  Forall wf_op ops -> (next_of ih + Z.of_nat (length ops) < 2 ^ 64)%Z ->
  let reopens n fs' :=
    wpc no_faults (store_open (st_dir st)) tt (crash_fs cut fs')
      (fun st' _ _ => forall k, store_get st' k = foldl apply_op (kv_of dh) (take n ops) !! k)
      (fun _ _ _ => False) (fun _ => False) in
  wpc any_fault (apply_batch ops) st fs
    (fun _ _ fs' => reopens (length ops) fs')
    (fun _ _ fs' => exists n, reopens n fs') (fun fs' => exists n, reopens n fs').
Proof.
  intros Hi Hc Hid Hops Hn reopens.
  assert (wf_hist (batch_records (next_of ih) ops)) as Hwf.
  { apply batch_records_wf; [apply next_of_range|done|done]. }
  destruct (log_holds_next _ _ _ (si_log _ _ _ _ Hi)) as [_ Hwfd].
  assert (sorted_hist (dh ++ batch_records (next_of ih) ops)) as Hs.
  { eapply sorted_hist_app; [apply Hi|apply sorted_batch|by apply wf_hist_lt_next|].
    rewrite (si_next _ _ _ _ Hi). apply batch_records_ge. }
  assert (forall fs' n torn, store_disk (crash_fs cut fs') (st_dir st)
    (dh ++ take n (batch_records (next_of ih) ops)) torn -> reopens n fs') as Hre.
  { intros fs' n torn Hd. eapply wpc_mono; [eapply wpc_store_open; [by intros []|exact Hd]| |done|by intros ? [[] _]].
    intros st' [] fs2 (Hi' & _) k. rewrite (store_get_kv _ _ _ (si_mem _ _ _ _ Hi')).
    by rewrite take_batch, kv_of_batch. }
  eapply wpc_mono; [by apply (wpc_apply_batch st fs dh ih ops)| | |].
  - intros [] st' fs' (Hi' & Hd' & _ & Hfr). 
    destruct (log_recoverable_crash cut _ _ _ _ (log_holds_recoverable _ _ _ (si_log _ _ _ _ Hi')))
      as [torn Hr]. rewrite (si_dir _ _ _ _ Hi'), Hd' in Hr.
    apply (Hre _ _ torn). rewrite take_ge by (by rewrite length_batch_records).
    split; [|done|done]. apply store_clean_crash. by eapply store_clean_frame.
  - intros e st' fs' (_ & Hp & Hfr).
    destruct (store_crash_recovers _ _ _ _ _ cut Hp Hfr Hc Hwf Hs) as (n & torn & Hd). eauto.
  - intros fs' (_ & Hp & Hfr).
    destruct (store_crash_recovers _ _ _ _ _ cut Hp Hfr Hc Hwf Hs) as (n & torn & Hd). eauto.
Qed.
End store_properties.

(** ** A concrete store *)

Section store_witnesses.
#[local] Existing Instances sum_crc32 map_order.

Definition example_store : Store :=
  mkStore example_dir example_log (index_of [example_record]) false ∅.

Lemma example_store_inv : store_inv example_store example_fs [example_record] [example_record].
Proof.
  apply (store_opened_inv example_log); [apply example_log_holds|done|by repeat constructor].
Qed.

Lemma example_store_clean : store_clean example_fs example_dir.
Proof.
  split; [split; by_compute|split; by_compute|by_compute|by_compute|].
  intros n Hn. exfalso. unfold example_fs in Hn. rewrite put_file_is_Some in Hn.
  rewrite example_root_sub in Hn. by destruct Hn.
Qed.

Lemma example_store_disk : store_disk example_fs example_dir [example_record] false.
Proof.
  split; [apply example_store_clean|apply example_recoverable|by repeat constructor].
Qed.

Lemma reads_refine_map_witness :
  (forall k, store_get example_store k = kv_of [example_record] !! k) /\
  (forall p, scan example_store p = bt_iter (with_prefix p (kv_of [example_record]))) /\
  (forall k s, get_at example_store k s = kv_at (as_of_seq s) [example_record] !! k) /\
  (forall p s, scan_at example_store p s =
     bt_iter (with_prefix p (kv_at (as_of_seq s) [example_record]))).
Proof. apply reads_refine_map, (si_mem _ _ _ _ example_store_inv). Defined.

Definition example_ops : list WriteOp := [OpDelete [x61]; OpPut [x62] [x63]].

Lemma apply_batch_refines_map_witness :
  wpc any_fault (apply_batch example_ops) example_store example_fs
    (fun _ st' fs' => exists dh' ih', store_inv st' fs' dh' ih' /\
       kv_of ih' = foldl apply_op (kv_of [example_record]) example_ops /\ kv_of dh' = kv_of ih' /\
       forall k, store_get st' k = foldl apply_op (kv_of [example_record]) example_ops !! k)
    (fun _ st' _ => (forall k, store_get st' k = store_get example_store k) /\
       (forall k s, get_at st' k s = get_at example_store k s) /\
       snapshot st' = snapshot example_store)
    (fun _ => True).
Proof.
  apply (apply_batch_refines_map _ _ [example_record]);
    [apply example_store_inv|by_compute|by_compute|by_compute].
Defined.

Lemma single_write_is_batch_witness :
  let w := mkWorld example_fs [FNone; FErr 3] in
  store_put [x61] [x62] example_store w = apply_batch [OpPut [x61] [x62]] example_store w /\
  store_delete [x61] example_store w = apply_batch [OpDelete [x61]] example_store w.
Proof. apply single_write_is_batch; by_compute. Defined.

Lemma snapshot_isolation_witness :
  let calls := [CallPut [x61] [x63]; CallBatch example_ops; CallDelete [x62]] in
  let st' := (session calls example_store (mkWorld example_fs [FNone; FErr 2])).1 in
  (forall k, get_at st' k (snapshot example_store) = store_get example_store k) /\
  (forall p, scan_at st' p (snapshot example_store) = scan example_store p).
Proof.
  apply (snapshot_isolation _ [example_record]);
    [apply (si_mem _ _ _ _ example_store_inv)|by_compute].
Defined.

Lemma open_recovers_store_witness :
  wpc crashes_only (store_open example_dir) tt example_fs
    (fun st _ fs' => store_inv st fs' [example_record] [example_record] /\
       recovered_from_torn_tail st = false /\
       (forall k, store_get st k = kv_of [example_record] !! k) /\ held_snapshots st = ∅)
    (fun _ _ _ => False)
    (fun fs' => exists torn', store_disk fs' example_dir [example_record] torn').
Proof. apply open_recovers_store, example_store_disk. Defined.

Lemma apply_batch_crash_durable_witness :
  let cut := fun _ : path => 40 in
  let reopens n fs' :=
    wpc no_faults (store_open (st_dir example_store)) tt (crash_fs cut fs')
      (fun st' _ _ => forall k,
         store_get st' k = foldl apply_op (kv_of [example_record]) (take n example_ops) !! k)
      (fun _ _ _ => False) (fun _ => False) in
  wpc any_fault (apply_batch example_ops) example_store example_fs
    (fun _ _ fs' => reopens (length example_ops) fs')
    (fun _ _ fs' => exists n, reopens n fs') (fun fs' => exists n, reopens n fs').
Proof.
  intros cut. apply (apply_batch_crash_durable _ _ _ [example_record]);
    [apply example_store_inv|apply example_store_clean|by_compute|by_compute|by_compute].
Defined.

(** A batch is not atomic: there is a batch of two puts during which the process can crash so
    that, after the restart, [open] returns a store with the first of them and without the second.
    (The crash interrupts the second write; the bytes of the first reached the disk.) *)
Theorem interrupted_batch_half_applied :
  exists (ops : list WriteOp) (faults : list Fault) (cut : path -> nat) (st' st2 : Store)
      (w' w2 : World),
    ops = [OpPut [x62] [x31]; OpPut [x63] [x32]] /\
    apply_batch ops example_store (mkWorld example_fs faults) = (Crash, st', w') /\
    store_open example_dir tt (mkWorld (crash_fs cut (w_fs w')) []) = (Ok st2, tt, w2) /\
    store_get st2 [x62] = Some [x31] /\ store_get st2 [x63] = None.
Proof.
  set (ops := [OpPut [x62] [x31]; OpPut [x63] [x32]]). set (faults := [FNone; FCrash 5]).
  set (cut := fun _ : path => 1000).
  destruct (apply_batch ops example_store (mkWorld example_fs faults)) as [[r st'] w'] eqn:E1.
  destruct (store_open example_dir tt (mkWorld (crash_fs cut (w_fs w')) [])) as [[r2 []] w2] eqn:E2.
  assert (match r, r2 with
    | Crash, Ok st2 => bool_decide (store_get st2 [x62] = Some [x31] /\ store_get st2 [x63] = None)
    | _, _ => false end = true) as Hc.
  { change r with (r, st', w').1.1. rewrite <-E1. change r2 with (r2, tt, w2).1.1. rewrite <-E2.
    change w' with (r, st', w').2. rewrite <-E1. vm_compute. reflexivity. }
  destruct r; try done. destruct r2 as [st2| | |]; try done.
  apply bool_decide_eq_true in Hc as [H1 H2].
  by exists ops, faults, cut, st', st2, w', w2.
Qed.
End store_witnesses.
