(* ===== verification/CompactSpec.v ===== *)
(** * CompactSpec: what compaction keeps

    The records of a compacted log, as a function of the history of the store and the oldest held
    snapshot: every read of the current state and of every held snapshot is unchanged. *)
From S2P Require Export StoreSpec.

Definition seq_lt (r1 r2 : LogRecord) : Prop := (seq r1 < seq r2)%Z.

Definition ve_lt (v1 v2 : VersionEntry) : Prop := (ve_seq v1 < ve_seq v2)%Z.

Lemma sorted_hist_seq_lt (h : list LogRecord) : sorted_hist h <-> StronglySorted seq_lt h.
Proof. apply (StronglySorted_fmap_iff Z.lt seq). Qed.

Lemma hist_versions_sorted (h : list LogRecord) (k : bytes) :
  sorted_hist h -> StronglySorted ve_lt (hist_versions h k).
Proof.
  intros Hs%sorted_hist_seq_lt. unfold hist_versions.
  apply (StronglySorted_fmap_iff ve_lt record_version). by apply StronglySorted_filter.
Qed.

Lemma record_version_record (k : bytes) (v : VersionEntry) : record_version (version_record k v) = v.
Proof. destruct v as [s [val|]]; done. Qed.

Lemma version_record_key (k : bytes) (v : VersionEntry) : key (version_record k v) = k.
Proof. unfold version_record. by destruct (ve_value v). Qed.

Lemma version_record_seq (k : bytes) (v : VersionEntry) : seq (version_record k v) = ve_seq v.
Proof. unfold version_record. by destruct (ve_value v). Qed.

Lemma elem_of_hist_versions (h : list LogRecord) (k : bytes) (v : VersionEntry) :
  v ∈ hist_versions h k <-> exists r, r ∈ h /\ key r = k /\ record_version r = v.
Proof.
  unfold hist_versions. rewrite list_elem_of_fmap. split.
  - intros (r & -> & [Hk Hr]%list_elem_of_filter). eauto.
  - intros (r & Hr & Hk & <-). exists r. split; [done|]. by apply list_elem_of_filter.
Qed.

(** ** The versions of one key *)

Lemma last_elem_of {A} (l : list A) (x : A) : last l = Some x -> x ∈ l.
Proof. intros [l' ->]%last_Some. apply elem_of_app. right. by left. Qed.

Lemma retained_elem_of (t : option Z) (vs : list VersionEntry) (v : VersionEntry) :
  v ∈ retained t vs -> v ∈ vs.
Proof.
  destruct t as [t|]; simpl.
  - intros [Hv|Hv]%elem_of_app.
    + destruct (rfind _ vs) as [b|] eqn:E; simpl in Hv; [|by apply not_elem_of_nil in Hv].
      apply list_elem_of_singleton in Hv as ->. by apply rfind_Some in E as [? _].
    + by apply list_elem_of_filter in Hv as [_ ?].
  - intros [_ Hv]%list_elem_of_filter.
    destruct (last vs) as [b|] eqn:E; simpl in Hv; [|by apply not_elem_of_nil in Hv].
    apply list_elem_of_singleton in Hv as ->. by apply last_elem_of.
Qed.

Lemma retained_sorted (t : option Z) (vs : list VersionEntry) :
  StronglySorted ve_lt vs -> StronglySorted ve_lt (retained t vs).
Proof.
  intros Hs. destruct t as [t|]; simpl.
  - apply StronglySorted_app_2.
    + intros a b Ha [Hb _]%list_elem_of_filter.
      destruct (rfind _ vs) as [x|] eqn:E; simpl in Ha; [|by apply not_elem_of_nil in Ha].
      apply list_elem_of_singleton in Ha as ->. apply rfind_Some in E as [_ E%Z.ltb_lt].
      unfold ve_lt. lia.
    + destruct (rfind _ vs); repeat constructor.
    + by apply StronglySorted_filter.
  - apply StronglySorted_filter. destruct (last vs); repeat constructor.
Qed.

(** A sorted list of versions is the part before a sequence number and the part from it on. *)
Lemma sorted_versions_split (t : Z) (vs : list VersionEntry) :
  StronglySorted ve_lt vs ->
  vs = filter (fun v => (ve_seq v <? t)%Z = true) vs ++ filter (fun v => t <= ve_seq v)%Z vs.
Proof.
  induction 1 as [|x vs Hs IH Hx]; [done|].
  rewrite !filter_cons. destruct (decide (ve_seq x < t)%Z) as [Hlt|Hge].
  - rewrite decide_True by (by apply Z.ltb_lt). rewrite decide_False by lia. simpl.
    by rewrite <-IH.
  - rewrite decide_False by (rewrite Z.ltb_lt; lia). rewrite decide_True by lia.
    rewrite (filter_none (fun v => (ve_seq v <? t)%Z = true)).
    + simpl. rewrite filter_all; [done|]. eapply Forall_impl; [done|]. intros y. unfold ve_lt. lia.
    + eapply Forall_impl; [done|]. intros y. unfold ve_lt. rewrite Z.ltb_lt. lia.
Qed.

Definition before (t : Z) (vs : list VersionEntry) : list VersionEntry :=
  filter (fun v => (ve_seq v <? t)%Z = true) vs.

Definition from_on (t : Z) (vs : list VersionEntry) : list VersionEntry :=
  filter (fun v => t <= ve_seq v)%Z vs.

Lemma retained_Some (t : Z) (vs : list VersionEntry) :
  retained (Some t) vs = option_list (last (before t vs)) ++ from_on t vs.
Proof. unfold retained, before, from_on. by rewrite rfind_last. Qed.

Lemma last_option_list {A} (o : option A) : last (option_list o) = o.
Proof. by destruct o. Qed.

Lemma last_retained_Some (t : Z) (vs : list VersionEntry) :
  StronglySorted ve_lt vs -> last (retained (Some t) vs) = last vs.
Proof.
  intros Hs. pose proof (sorted_versions_split t vs Hs) as Hsp.
  fold (before t vs) (from_on t vs) in Hsp. rewrite retained_Some.
  transitivity (last (before t vs ++ from_on t vs)); [|by rewrite <-Hsp].
  by rewrite !last_app, last_option_list.
Qed.

(** The current value of a key survives. *)
Lemma retained_value (t : option Z) (vs : list VersionEntry) :
  StronglySorted ve_lt vs ->
  (v ← last (retained t vs); ve_value v) = (v ← last vs; ve_value v).
Proof.
  intros Hs. destruct t as [t|]; [by rewrite last_retained_Some|]. simpl.
  destruct (last vs) as [v|]; [|done]. simpl. rewrite filter_cons.
  assert (is_live v = true <-> is_Some (ve_value v)) as Hl by apply bool_decide_eq_true.
  destruct (ve_value v) as [val|] eqn:E.
  - rewrite decide_True by (apply Hl; by eexists). simpl. by rewrite E.
  - rewrite decide_False; [done|]. rewrite Hl. by intros [? ?].
Qed.

(** What a snapshot from the threshold on reads survives. *)
Lemma retained_before (t s : Z) (vs : list VersionEntry) :
  StronglySorted ve_lt vs -> (t <= s)%Z ->
  last (before s (retained (Some t) vs)) = last (before s vs).
Proof.
  intros Hs Hts. pose proof (sorted_versions_split t vs Hs) as Hsp.
  fold (before t vs) (from_on t vs) in Hsp. rewrite retained_Some.
  transitivity (last (before s (before t vs ++ from_on t vs))); [|by rewrite <-Hsp].
  unfold before at 1 3. rewrite !filter_app, !last_app.
  case_match; [done|].
  assert (Forall (fun v => (ve_seq v <? s)%Z = true) (before t vs)) as Ha.
  { apply Forall_forall. intros v [Hv%Z.ltb_lt _]%list_elem_of_filter. apply Z.ltb_lt. lia. }
  rewrite (filter_all _ (before t vs)) by done.
  destruct (last (before t vs)) as [b|] eqn:E; simpl; [|done].
  apply last_elem_of in E. rewrite Forall_forall in Ha. rewrite filter_cons.
  by rewrite decide_True by (by apply Ha).
Qed.

(** ** The records of the compacted log *)

Lemma compact_loop_spec (t : option Z) (entries : list (bytes * list VersionEntry)) :
  compact_loop t entries =
    (entries ≫= (fun e => version_record e.1 <$> retained t e.2),
     length (filter (fun e => last_live (retained t e.2) = true) entries)).
Proof.
  unfold compact_loop. cut (forall rs n, foldl (fun acc e => let '(records, live) := acc in
      let kept := retained t e.2 in
      match kept with
      | [] => (records, live)
      | _ :: _ => (records ++ (version_record e.1 <$> kept), if last_live kept then S live else live)
      end) (rs, n) entries =
    (rs ++ (entries ≫= (fun e => version_record e.1 <$> retained t e.2)),
     n + length (filter (fun e => last_live (retained t e.2) = true) entries))).
  { intros Hc. apply (Hc [] 0). }
  induction entries as [|e es IH]; intros rs n; [by rewrite app_nil_r, Nat.add_0_r|].
  cbn [foldl]. rewrite bind_cons, filter_cons. destruct (retained t e.2) as [|v vs] eqn:E; cbv beta zeta iota.
  - rewrite IH. by rewrite decide_False.
  - rewrite IH, <-app_assoc. destruct (last_live (v :: vs)) eqn:El.
    + rewrite decide_True by done. cbn [length]. by rewrite Nat.add_succ_r.
    + by rewrite decide_False.
Qed.

Section compacted.
Context (st : Store) (ih : list LogRecord).
Hypothesis (Hidx : st_index st = index_of ih) (Hsort : sorted_hist ih).

Lemma bt_iter_index (k : bytes) (vs : list VersionEntry) :
  (k, vs) ∈ bt_iter (st_index st) <-> vs = hist_versions ih k /\ vs <> [].
Proof.
  rewrite elem_of_bt_iter, Hidx, lookup_index_of. destruct (hist_versions ih k) as [|v l].
  - split; [done|by intros [-> ?]].
  - split; [by intros [= <-]|by intros [-> _]].
Qed.

Lemma elem_of_compact_records (r : LogRecord) :
  r ∈ (compact_records st).1 <->
  exists k v, v ∈ retained (oldest_held_snapshot_seq st) (hist_versions ih k) /\
    r = version_record k v.
Proof.
  unfold compact_records. rewrite compact_loop_spec. simpl.
  rewrite elem_of_sort_by, list_elem_of_bind. split.
  - intros ([k vs] & Hr & Hin). apply bt_iter_index in Hin as [-> _].
    apply list_elem_of_fmap in Hr as (v & -> & Hv). by exists k, v.
  - intros (k & v & Hv & ->). exists (k, hist_versions ih k). split.
    + apply list_elem_of_fmap. by exists v.
    + apply bt_iter_index. split; [done|]. intros Hn. apply retained_elem_of in Hv.
      rewrite Hn in Hv. by apply not_elem_of_nil in Hv.
Qed.

(** Two records of the history with the same sequence number are the same. *)
Lemma sorted_hist_inj (r1 r2 : LogRecord) : r1 ∈ ih -> r2 ∈ ih -> seq r1 = seq r2 -> r1 = r2.
Proof.
  intros H1 H2 Heq. assert (NoDup (seq <$> ih)) as Hnd.
  { eapply strict_sorted_NoDup; [|exact Hsort]. intros a. lia. }
  clear Hidx Hsort. induction ih as [|r h IH]; [by apply not_elem_of_nil in H1|].
  assert (NoDup (seq r :: (seq <$> h))) as [Hn Hnd']%NoDup_cons by exact Hnd.
  apply elem_of_cons in H1 as [-> | H1], H2 as [-> | H2]; [done|..].
  - destruct Hn. rewrite Heq. by apply list_elem_of_fmap_2.
  - destruct Hn. rewrite <-Heq. by apply list_elem_of_fmap_2.
  - by apply IH.
Qed.

Lemma survivor_origin (k : bytes) (v : VersionEntry) :
  v ∈ retained (oldest_held_snapshot_seq st) (hist_versions ih k) ->
  exists r, r ∈ ih /\ key r = k /\ record_version r = v.
Proof. intros Hv%retained_elem_of. by apply elem_of_hist_versions. Qed.

Lemma survivor_inj (k1 k2 : bytes) (v1 v2 : VersionEntry) :
  v1 ∈ retained (oldest_held_snapshot_seq st) (hist_versions ih k1) ->
  v2 ∈ retained (oldest_held_snapshot_seq st) (hist_versions ih k2) ->
  ve_seq v1 = ve_seq v2 -> k1 = k2 /\ v1 = v2.
Proof.
  intros (r1 & H1 & <- & <-)%survivor_origin (r2 & H2 & <- & <-)%survivor_origin Heq.
  by rewrite (sorted_hist_inj r1 r2).
Qed.

Lemma compact_records_NoDup : NoDup (compact_records st).1.
Proof.
  unfold compact_records. rewrite compact_loop_spec. simpl. rewrite sort_by_perm.
  apply NoDup_bind.
  - intros [k1 vs1] [k2 vs2] r Hi1 Hi2 (v1 & -> & _)%list_elem_of_fmap (v2 & Heq & _)%list_elem_of_fmap.
    simpl in *. apply (f_equal key) in Heq. rewrite !version_record_key in Heq. subst k2.
    apply bt_iter_index in Hi1 as [-> _], Hi2 as [-> _]. done.
  - intros [k vs] Hi. apply bt_iter_index in Hi as [-> _]. simpl. apply NoDup_fmap_2_strong.
    + intros v1 v2 _ _ Heq. apply (f_equal record_version) in Heq.
      by rewrite !record_version_record in Heq.
    + eapply strict_sorted_NoDup; [|apply retained_sorted, hist_versions_sorted, Hsort].
      unfold ve_lt. intros a. lia.
  - apply (NoDup_fmap_1 fst), bt_iter_NoDup.
Qed.

Lemma compact_records_sorted : sorted_hist (compact_records st).1.
Proof.
  apply sorted_hist_seq_lt.
  assert (StronglySorted (fun a b => seq_leb a b = true) (compact_records st).1) as Hle.
  { unfold compact_records. rewrite compact_loop_spec. simpl. apply sort_by_sorted.
    - intros a b. unfold seq_leb. rewrite Z.leb_gt, Z.leb_le. lia.
    - intros a b c. unfold seq_leb. rewrite !Z.leb_le. lia. }
  pose proof compact_records_NoDup as Hnd.
  assert (forall r1 r2, r1 ∈ (compact_records st).1 -> r2 ∈ (compact_records st).1 ->
    seq r1 = seq r2 -> r1 = r2) as Hinj.
  { intros r1 r2 (k1 & v1 & H1 & ->)%elem_of_compact_records
      (k2 & v2 & H2 & ->)%elem_of_compact_records Heq.
    rewrite !version_record_seq in Heq. by destruct (survivor_inj _ _ _ _ H1 H2 Heq) as [-> ->]. }
  induction Hle as [|x l Hs IH Hx]; constructor.
  - apply IH; [by apply NoDup_cons in Hnd as [_ ?]|]. intros r1 r2 H1 H2. apply Hinj; by right.
  - apply NoDup_cons in Hnd as [Hn _]. rewrite Forall_forall in Hx. apply Forall_forall.
    intros y Hy. specialize (Hx y Hy). unfold seq_leb in Hx. apply Z.leb_le in Hx.
    unfold seq_lt. destruct (decide (seq x = seq y)) as [Heq|]; [|lia].
    apply Hinj in Heq; [|by left|by right]. by subst.
Qed.

(** The compacted log holds, for every key, exactly the retained versions. *)
Lemma compact_records_versions (k : bytes) :
  hist_versions (compact_records st).1 k =
    retained (oldest_held_snapshot_seq st) (hist_versions ih k).
Proof.
  apply (strict_sorted_unique ve_lt).
  - unfold ve_lt. intros a. lia.
  - unfold ve_lt. intros a b c. lia.
  - apply hist_versions_sorted, compact_records_sorted.
  - by apply retained_sorted, hist_versions_sorted.
  - intros v. rewrite elem_of_hist_versions. split.
    + intros (r & (k' & v' & Hv' & ->)%elem_of_compact_records & Hk & <-).
      rewrite version_record_key in Hk. by rewrite record_version_record, <-Hk.
    + intros Hv. exists (version_record k v). rewrite version_record_key, record_version_record.
      split; [|done]. apply elem_of_compact_records. by exists k, v.
Qed.

(** The current map survives. *)
Lemma compact_records_kv : kv_of (compact_records st).1 = kv_of ih.
Proof.
  apply map_eq. intros k. rewrite !kv_of_lookup, compact_records_versions.
  by apply retained_value, hist_versions_sorted.
Qed.

(** So does the map of every snapshot that is not older than the oldest held one. *)
Lemma compact_records_kv_at (t s : Z) :
  oldest_held_snapshot_seq st = Some t -> (t <= s)%Z ->
  kv_at s (compact_records st).1 = kv_at s ih.
Proof.
  intros Ht Hts. apply map_eq. intros k. rewrite !kv_at_lookup, compact_records_versions, Ht.
  unfold version_at. rewrite !rfind_last.
  change ((v ← last (before s (retained (Some t) (hist_versions ih k))); ve_value v) =
    (v ← last (before s (hist_versions ih k)); ve_value v)).
  by rewrite retained_before by (done || by apply hist_versions_sorted).
Qed.

Lemma compact_records_wf : wf_hist ih -> wf_hist (compact_records st).1.
Proof.
  intros [Hw Hs]. rewrite Forall_forall in Hw, Hs.
  assert (forall r, r ∈ (compact_records st).1 -> exists r', r' ∈ ih /\ seq r = seq r' /\
    key r = key r' /\ (value r = value r' \/ value r = [])) as Ho.
  { intros r (k & v & Hv & ->)%elem_of_compact_records.
    apply survivor_origin in Hv as (r' & Hr' & <- & <-). exists r'.
    rewrite version_record_seq, version_record_key. split; [done|]. split; [done|]. split; [done|].
    unfold version_record, record_version. destruct (record_type r'); simpl; [by left|by right]. }
  split; apply Forall_forall; intros r Hr; destruct (Ho r Hr) as (r' & Hr' & Hse & Hk & Hv).
  - destruct (Hw r' Hr') as (W1 & W2 & W3). unfold wf_record. rewrite Hse, Hk.
    split; [done|]. split; [done|]. destruct Hv as [-> | ->]; [done|]. simpl. lia.
  - rewrite Hse. by apply Hs.
Qed.

(** The newest record decides whether the next sequence number survives. *)
Definition keeps_newest : Prop :=
  is_Some (oldest_held_snapshot_seq st) \/
  match last ih with Some r => record_type r = Put | None => True end.

Lemma newest_survives (r : LogRecord) :
  keeps_newest -> last ih = Some r -> exists r', r' ∈ (compact_records st).1 /\ seq r' = seq r.
Proof.
  intros Hk Hl. assert (last (hist_versions ih (key r)) = Some (record_version r)) as Hv.
  { apply last_Some in Hl as [h ->]. rewrite hist_versions_app, hist_versions_single.
    rewrite decide_True by done. by rewrite last_snoc. }
  assert (last (retained (oldest_held_snapshot_seq st) (hist_versions ih (key r))) =
    Some (record_version r)) as Hr.
  { destruct (oldest_held_snapshot_seq st) as [t|] eqn:E.
    - rewrite last_retained_Some; [done|by apply hist_versions_sorted].
    - destruct Hk as [Hk|Hk]; [rewrite E in Hk; by destruct Hk|]. rewrite Hl in Hk.
      simpl. rewrite Hv. simpl. unfold record_version. rewrite Hk. done. }
  exists (version_record (key r) (record_version r)). rewrite version_record_seq. split; [|done].
  apply elem_of_compact_records. exists (key r), (record_version r).
  split; [|done]. by apply last_elem_of.
Qed.

Lemma compact_records_next : wf_hist ih -> keeps_newest -> next_of (compact_records st).1 = next_of ih.
Proof.
  intros Hwf Hk. pose proof (compact_records_wf Hwf) as Hwf'. pose proof (next_of_range ih).
  pose proof (next_of_range (compact_records st).1). apply Z.le_antisymm.
  - apply next_of_le; [lia|done|]. intros r (k & v & Hv & ->)%elem_of_compact_records.
    apply survivor_origin in Hv as (r' & Hr' & _ & <-). rewrite version_record_seq.
    by apply next_of_gt.
  - apply next_of_le; [lia|done|]. intros r Hr.
    destruct (last ih) as [r0|] eqn:El; [|apply last_None in El as ->; by apply not_elem_of_nil in Hr].
    destruct (newest_survives r0 Hk El) as (r' & Hr' & Hs).
    apply (next_of_gt _ _ Hwf') in Hr'. apply last_Some in El as [h Heq].
    assert (seq r <= seq r0)%Z; [|lia]. rewrite Heq in Hr.
    apply elem_of_app in Hr as [Hr|Hr%list_elem_of_singleton]; [|subst; lia].
    pose proof (proj1 (sorted_hist_seq_lt ih) Hsort) as Hss. rewrite Heq in Hss.
    assert (seq_lt r r0); [|unfold seq_lt in *; lia].
    eapply StronglySorted_app_1_elem_of; [exact Hss|done|by left].
Qed.

(** The report counts the keys of the map. *)
Lemma compact_live_keys : (compact_records st).2 = size (kv_of ih).
Proof.
  unfold compact_records. rewrite compact_loop_spec. simpl.
  assert (forall k, is_Some (kv_of ih !! k) <->
    exists vs, (k, vs) ∈ filter (fun e => last_live (retained (oldest_held_snapshot_seq st) e.2) = true)
      (bt_iter (st_index st))) as Hk.
  { intros k. rewrite kv_of_lookup.
    rewrite <-(retained_value (oldest_held_snapshot_seq st)) by by apply hist_versions_sorted.
    split.
    - intros [val Hv]. exists (hist_versions ih k). apply list_elem_of_filter. simpl.
      unfold last_live. destruct (last _) as [v|] eqn:E; simpl in Hv; [|done].
      split; [apply bool_decide_eq_true; by rewrite Hv|]. apply bt_iter_index. split; [done|].
      intros Hn. rewrite Hn in E. destruct (oldest_held_snapshot_seq st); simpl in E; done.
    - intros (vs & [Hl Hin]%list_elem_of_filter). simpl in Hl. apply bt_iter_index in Hin as [-> _].
      unfold last_live in Hl. destruct (last _) as [v|]; [|done]. simpl.
      by apply bool_decide_eq_true in Hl. }
  rewrite <-(length_fmap fst), <-length_map_to_list.
  rewrite <-(length_fmap fst (map_to_list (kv_of ih))). apply Permutation_length.
  apply NoDup_Permutation.
  - assert (StronglySorted key_lt (filter (fun e => last_live (retained (oldest_held_snapshot_seq st) e.2) = true)
      (bt_iter (st_index st)))) as Hs by apply StronglySorted_filter, bt_iter_sorted.
    apply (strict_sorted_NoDup (fun a b => bytes_ltb a b = true)).
    + intros a. by rewrite bytes_ltb_irrefl.
    + by apply (StronglySorted_fmap_iff (fun a b => bytes_ltb a b = true) fst).
  - apply NoDup_fst_map_to_list.
  - intros k. rewrite !list_elem_of_fmap. split.
    + intros ([k' vs] & -> & Hin). assert (is_Some (kv_of ih !! k')) as [v Hv].
      { apply Hk. by exists vs. }
      exists (k', v). split; [done|]. by apply elem_of_map_to_list.
    + intros ([k' v] & -> & Hin%elem_of_map_to_list). simpl.
      assert (is_Some (kv_of ih !! k')) as [vs Hvs]%Hk by by eexists. by exists (k', vs).
Qed.
End compacted.
