(* ===== verification/Rooted.v ===== *)
(** * Rooted: the shape of the file system

    Every directory has a parent. No operation of the vault breaks this, whatever fails: the
    closure of the primitives under the combinators of the monad, as a hint database. *)
From S2P Require Export Frame Store.

Definition rooted (fs : fsys) : Prop := forall n d, is_Some (fs !! (n :: d)) -> is_Some (fs !! d).

(** The computation preserves [rooted], however it ends. *)
Definition keeps_rooted {S E A : Type} (m : M S E A) : Prop := keeps any rooted any m.

Create HintDb rooted.

(** ** File systems *)

Lemma rooted_same (fs fs' : fsys) :
  (forall d, is_Some (fs' !! d) <-> is_Some (fs !! d)) -> rooted fs -> rooted fs'.
Proof. intros Hs Hr n d. rewrite !Hs. apply Hr. Qed.

Lemma rooted_put (p : path) (f : File) (fs : fsys) : rooted fs -> rooted (put_file p f fs).
Proof. apply rooted_same. intros d. apply put_file_is_Some. Qed.

Lemma rooted_del (p : path) (fs : fsys) : rooted fs -> rooted (del_file p fs).
Proof.
  apply rooted_same. intros d. destruct p as [|n q]; [done|]. apply lookup_alter_is_Some.
Qed.

Lemma rooted_insert (p : path) (files : gmap bytes File) (fs : fsys) :
  (forall n d, p = n :: d -> is_Some (fs !! d)) -> rooted fs -> rooted (<[p := files]> fs).
Proof.
  intros Hp Hr n d. rewrite !lookup_insert_is_Some. intros [He|[_ Hs]].
  - destruct (decide (p = d)) as [|Hne]; [by left|right]. split; [done|by eapply Hp].
  - destruct (decide (p = d)) as [|Hne]; [by left|right]. split; [done|by eapply Hr].
Qed.

Lemma mk_dirs_rooted (p : path) (fs fs' : fsys) :
  mk_dirs p fs = Some fs' -> rooted fs -> rooted fs' /\ is_Some (fs' !! p).
Proof.
  revert fs'. induction p as [|n d IH]; intros fs' Hm Hr; simpl in Hm.
  - destruct (fs !! []) as [files|] eqn:E; simplify_eq; [by rewrite E|].
    split; [by apply rooted_insert|by rewrite lookup_insert_eq].
  - destruct (mk_dirs d fs) as [fs1|]; [|done]. simpl in Hm.
    destruct (IH fs1 eq_refl Hr) as [Hr1 Hd]. destruct (fs1 !! (n :: d)) eqn:E; simplify_eq.
    + split; [done|by rewrite E].
    + destruct (file_at fs1 (n :: d)); simplify_eq.
      split; [apply rooted_insert; [by intros ? ? [= <- <-]|done]|by rewrite lookup_insert_eq].
Qed.

Lemma rooted_remove_tree (p : path) (fs : fsys) : rooted fs -> rooted (remove_tree p fs).
Proof.
  intros Hr n d [files Hf]. unfold remove_tree in *.
  apply map_lookup_filter_Some in Hf as [Hf Hn]. simpl in Hn.
  destruct (Hr n d) as [files' Hf']; [by eexists|]. exists files'.
  apply map_lookup_filter_Some. split; [done|]. simpl. intros Hs. apply Hn. by apply suffix_cons_r.
Qed.

(** ** Combinators *)

Section combinators.
Context {S E : Type}.

Lemma rooted_ret {A : Type} (a : A) : keeps_rooted (mret a : M S E A).
Proof. by apply (keeps_ret any rooted any). Qed.

Lemma rooted_bind {A B : Type} (m : M S E A) (f : A -> M S E B) :
  keeps_rooted m -> (forall a, keeps_rooted (f a)) -> keeps_rooted (m ≫= f).
Proof. intros Hm Hf. apply (keeps_bind any rooted any any); [exact Hm|intros a _; apply Hf]. Qed.

Lemma rooted_get_state : keeps_rooted (get_state : M S E S).
Proof. apply keeps_get_state. Qed.

Lemma rooted_modify (f : S -> S) : keeps_rooted (modify f : M S E unit).
Proof. by apply (keeps_modify any rooted any). Qed.

Lemma rooted_throw {A : Type} (e : E) : keeps_rooted (throw e : M S E A).
Proof. apply keeps_throw. Qed.

Lemma rooted_panic {A : Type} : keeps_rooted (panic : M S E A).
Proof. apply keeps_panic. Qed.

Lemma rooted_zoom {T A : Type} (get : S -> T) (set : T -> S -> S) (m : M T E A) :
  keeps_rooted m -> keeps_rooted (zoom get set m).
Proof. intros Hm. by apply (keeps_zoom any rooted any any). Qed.

Lemma rooted_io {A : Type} (m : M unit E A) : keeps_rooted m -> keeps_rooted (io m : M S E A).
Proof. apply keeps_io. Qed.

Lemma rooted_map_err {E1 A : Type} (f : E1 -> E) (m : M S E1 A) :
  keeps_rooted m -> keeps_rooted (map_err f m).
Proof. apply keeps_map_err. Qed.

Lemma rooted_catch {A : Type} (m : M S E A) (h : E -> M S E A) :
  keeps_rooted m -> (forall e, keeps_rooted (h e)) -> keeps_rooted (catch m h).
Proof. apply keeps_catch. Qed.

Lemma rooted_on {T A : Type} (t : T) (m : M T E A) : keeps_rooted m -> keeps_rooted (on t m : M S E _).
Proof. intros Hm. by eapply keeps_any, (keeps_on any rooted any any). Qed.

Lemma rooted_for_each {A : Type} (f : A -> M S E unit) (l : list A) :
  (forall a, keeps_rooted (f a)) -> keeps_rooted (for_each f l).
Proof. intros Hf. apply (keeps_for_each any rooted). intros a _. apply Hf. Qed.
End combinators.

#[export] Hint Resolve rooted_ret rooted_get_state rooted_modify rooted_throw rooted_panic : rooted.
#[export] Hint Resolve rooted_zoom rooted_io rooted_map_err rooted_on : rooted.
#[export] Hint Resolve rooted_bind rooted_catch rooted_for_each | 2 : rooted.

(** ** Primitives *)

Section primitives.
Context {S : Type}.

Lemma rooted_prim {A : Type} (full : S -> fsys -> Res IoError A * S * fsys)
    (partial : nat -> S -> fsys -> S * fsys) :
  (forall s fs, rooted fs -> rooted (full s fs).2) ->
  (forall k s fs, rooted fs -> rooted (partial k s fs).2) -> keeps_rooted (prim full partial).
Proof. intros Hf Hp. apply (keeps_prim any rooted); [intros s fs _ Hr|intros k s fs _ Hr]; auto. Qed.

Lemma rooted_atomic {A : Type} (full : S -> fsys -> Res IoError A * S * fsys) :
  (forall s fs, rooted fs -> rooted (full s fs).2) -> keeps_rooted (atomic full).
Proof. intros Hf. by apply rooted_prim. Qed.

Lemma rooted_query {A : Type} (f : fsys -> Res IoError A) : keeps_rooted (query f : M S IoError A).
Proof. apply keeps_query. Qed.

Lemma rooted_path_exists {E : Type} (p : path) : keeps_rooted (path_exists p : M S E bool).
Proof. apply keeps_path_exists. Qed.

Lemma rooted_create_dir_all (p : path) : keeps_rooted (create_dir_all p : M S IoError unit).
Proof.
  apply rooted_prim.
  - intros s fs Hr. destruct (mk_dirs p fs) as [fs'|] eqn:E; [|done]. by apply mk_dirs_rooted in E as [? _].
  - intros k s fs Hr. simpl. destruct (mk_dirs _ fs) as [fs'|] eqn:E; [|done].
    by apply mk_dirs_rooted in E as [? _].
Qed.

Lemma rooted_read_dir `{DirOrder} (p : path) : keeps_rooted (read_dir p : M S IoError (list bytes)).
Proof. apply rooted_query. Qed.

Lemma rooted_read_file (p : path) : keeps_rooted (read_file p : M S IoError bytes).
Proof. apply rooted_query. Qed.

Lemma rooted_read_exact_at (h : Handle) (pos len : nat) :
  keeps_rooted (read_exact_at h pos len : M S IoError bytes).
Proof. apply rooted_query. Qed.

Lemma rooted_write_empty_file (p : path) : keeps_rooted (write_empty_file p : M S IoError unit).
Proof.
  apply rooted_atomic. intros s fs Hr. destruct p as [|n d]; [done|].
  destruct (fs !! d); [by apply rooted_put|done].
Qed.

Lemma rooted_remove_file (p : path) : keeps_rooted (remove_file p : M S IoError unit).
Proof.
  apply rooted_atomic. intros s fs Hr. destruct (file_at fs p); [by apply rooted_del|done].
Qed.

Lemma rooted_remove_dir_all `{DirOrder} (p : path) : keeps_rooted (remove_dir_all p : M S IoError unit).
Proof.
  apply rooted_prim.
  - intros s fs Hr. destruct (fs !! p); [by apply rooted_remove_tree|done].
  - intros k s fs Hr. simpl. destruct (fs !! p) eqn:E; [|done]. apply rooted_insert; [|done].
    intros n d ->. eapply Hr. by rewrite E.
Qed.

Lemma rooted_rename_file (src dst : path) : keeps_rooted (rename_file src dst : M S IoError unit).
Proof.
  apply rooted_atomic. intros s fs Hr. destruct (file_at fs src); [|done]. destruct dst as [|n d]; [done|].
  destruct (fs !! d), (fs !! (n :: d)); try done. by apply rooted_put, rooted_del.
Qed.

Lemma rooted_open_rw_create (p : path) : keeps_rooted (open_rw_create p : M S IoError Handle).
Proof.
  apply rooted_atomic. intros s fs Hr. destruct p as [|n d]; [done|].
  destruct (fs !! (n :: d)), (fs !! d) as [files|]; try done.
  destruct (files !! n); [done|by apply rooted_put].
Qed.
End primitives.

Lemma rooted_set_len (len : nat) : keeps_rooted (set_len len).
Proof.
  apply rooted_atomic. intros h fs Hr. destruct (file_at fs (h_path h)); [by apply rooted_put|done].
Qed.

Lemma rooted_seek (pos : nat) : keeps_rooted (seek pos).
Proof. by apply rooted_atomic. Qed.

Lemma rooted_write_all (bs : bytes) : keeps_rooted (write_all bs).
Proof.
  assert (forall bs h fs, rooted fs -> rooted (write_step bs h fs).2) as Hw.
  { intros bs' h fs Hr. simpl. destruct (file_at fs (h_path h)); [by apply rooted_put|done]. }
  apply rooted_prim; [|by intros; apply Hw]. intros h fs Hr. specialize (Hw bs h fs Hr).
  destruct (file_at fs (h_path h)); [|done]. by destruct (write_step bs h fs).
Qed.

Lemma rooted_sync_data : keeps_rooted sync_data.
Proof.
  apply rooted_atomic. intros h fs Hr. destruct (file_at fs (h_path h)); [by apply rooted_put|done].
Qed.

#[export] Hint Resolve rooted_query rooted_path_exists rooted_create_dir_all rooted_read_dir
  rooted_read_file rooted_read_exact_at rooted_write_empty_file rooted_remove_file
  rooted_remove_dir_all rooted_rename_file rooted_open_rw_create rooted_set_len rooted_seek
  rooted_write_all rooted_sync_data : rooted.

(** Decomposes a computation down to its primitives. *)
Ltac keeps :=
  repeat match goal with
  | |- keeps_rooted (match ?x with _ => _ end) => destruct x
  | |- keeps_rooted (let '(_, _) := ?x in _) => destruct x
  | |- keeps_rooted _ => solve [auto with rooted]
  | |- keeps_rooted (_ ≫= _) => apply rooted_bind; [|intros]
  | |- keeps_rooted (catch _ _) => apply rooted_catch; [|intros]
  | |- keeps_rooted (map_err _ _) => apply rooted_map_err
  | |- keeps_rooted (zoom _ _ _) => apply rooted_zoom
  | |- keeps_rooted (io _) => apply rooted_io
  | |- keeps_rooted (on _ _) => apply rooted_on
  | |- keeps_rooted (for_each _ _) => apply rooted_for_each; intros
  end.

(** ** The operations of the store *)

Section operations.
Context `{Crc32, DirOrder}.

Lemma rooted_open_for_append (p : path) (len : Z) : keeps_rooted (open_for_append p len).
Proof. unfold open_for_append. keeps. Qed.

Lemma rooted_append_loop (rs : list LogRecord) (offset : Z) (offsets : list Z) :
  keeps_rooted (append_loop rs offset offsets).
Proof.
  revert offset offsets. induction rs as [|r rs IH]; intros offset offsets; simpl; keeps.
Qed.

#[local] Hint Resolve rooted_open_for_append rooted_append_loop : rooted.

Lemma rooted_seg_append_batch (rs : list LogRecord) : keeps_rooted (seg_append_batch rs).
Proof. unfold seg_append_batch. keeps. Qed.

Lemma rooted_open_loop (dir : path) (mb : Z) (last_id : option Z) (rs : list LogRecord)
    (sl : list (Z * path)) (torn : bool) (mx : option Z) (ids : list Z) :
  keeps_rooted (open_loop dir mb last_id rs sl torn mx ids).
Proof.
  revert rs sl torn mx. induction ids as [|id ids IH]; intros rs sl torn mx; cbn [open_loop];
    unfold recover; keeps.
Qed.

#[local] Hint Resolve rooted_seg_append_batch rooted_open_loop : rooted.

Lemma rooted_log_open (dir : path) (mb : Z) : keeps_rooted (open_with_segment_size dir mb).
Proof. unfold open_with_segment_size, list_segment_ids. keeps. Qed.

Lemma rooted_roll_over (n : Z) : keeps_rooted (roll_over_if_needed n).
Proof. unfold roll_over_if_needed. keeps. Qed.

#[local] Hint Resolve rooted_log_open rooted_roll_over : rooted.

Lemma rooted_log_append_batch (ops : list LogOp) : keeps_rooted (log_append_batch ops).
Proof. unfold log_append_batch. keeps. Qed.

Lemma rooted_append_verbatim (rs : list LogRecord) : keeps_rooted (append_records_verbatim rs).
Proof. unfold append_records_verbatim. keeps. Qed.

Lemma rooted_remove_if_exists (p : path) : keeps_rooted (remove_if_exists p).
Proof. unfold remove_if_exists. keeps. Qed.

Lemma rooted_remove_dir_if_exists (p : path) : keeps_rooted (remove_dir_if_exists p).
Proof. unfold remove_dir_if_exists. keeps. Qed.

#[local] Hint Resolve rooted_log_append_batch rooted_append_verbatim rooted_remove_if_exists
  rooted_remove_dir_if_exists : rooted.

Lemma rooted_finish (dir : path) : keeps_rooted (finish_pending_compaction dir).
Proof. unfold finish_pending_compaction, move_segments, move_compacted. keeps. Qed.

#[local] Hint Resolve rooted_finish : rooted.

Lemma rooted_store_open (dir : path) : keeps_rooted (store_open dir).
Proof. unfold store_open, log_open, finish_or_discard_pending_compaction. keeps. Qed.

Lemma rooted_apply_batch (ops : list WriteOp) : keeps_rooted (apply_batch ops).
Proof. unfold apply_batch. keeps. Qed.

Lemma rooted_build_compacted (dir : path) (rs : list LogRecord) : keeps_rooted (build_compacted dir rs).
Proof. unfold build_compacted, log_open. keeps. Qed.

Lemma rooted_compact : keeps_rooted compact.
Proof. unfold compact, build_compacted, open_placeholder, log_open. keeps. Qed.
End operations.

(** ** In the program logic *)

Lemma wpc_rooted {F : FaultModel} {S E A : Type} (m : M S E A) (s : S) (fs : fsys)
    (Q : A -> S -> fsys -> Prop) (X : E -> S -> fsys -> Prop) (C : fsys -> Prop) :
  keeps_rooted m -> rooted fs -> wpc F m s fs Q X C ->
  wpc F m s fs (fun a s' fs' => Q a s' fs' /\ rooted fs') (fun e s' fs' => X e s' fs' /\ rooted fs')
    (fun fs' => C fs' /\ rooted fs').
Proof.
  intros Hk Hr Hw. eapply wpc_mono; [by apply (wpc_keeps any rooted any m s fs Q X C Hk)| | |].
  - by intros a s' fs' (HQ & _ & Hr' & _).
  - by intros e s' fs' (HX & _ & Hr').
  - done.
Qed.

Lemma rooted_crash (cut : path -> nat) (fs : fsys) : rooted fs -> rooted (crash_fs cut fs).
Proof. apply rooted_same. intros d. apply crash_fs_is_Some. Qed.
