(* ===== verification/Pending.v ===== *)
(** * Pending: restarting after a committed compaction

    The directory of a store whose compaction is committed and not finished: it denotes the
    history of the compacted log, [open] finishes the swap and recovers it, and a crash at any
    point of that, as often as it happens, leaves such a directory again. *)
From S2P Require Export CompactSpec Rooted.

(** ** Segment files *)

Lemma parse_is_segment (n : bytes) (i : Z) :
  parse_segment_name n = Some i -> is_segment_name n = true.
Proof.
  intros [H1 H2]%parse_segment_name_affixes. unfold is_segment_name. apply andb_true_iff. done.
Qed.

Lemma is_segment_name_of (i : Z) : in_u64 i -> is_segment_name (segment_name i) = true.
Proof. intros Hi. by eapply parse_is_segment, parse_segment_name_of. Qed.

Section pending.
Context `{Crc32}.

(** The files [T0] are exactly the segments of a log that holds [hist], all durable. *)
Definition log_files (T0 : gmap bytes File) (hist : list LogRecord) : Prop :=
  exists ss id rs,
    (forall i, in_u64 i -> T0 !! segment_name i = segs_map ss id (sfile rs) !! i) /\
    (forall i, is_Some (segs_map ss id (sfile rs) !! i) -> in_u64 i) /\
    (forall n, is_Some (T0 !! n) -> exists i, parse_segment_name n = Some i /\ n = segment_name i) /\
    StronglySorted Z.lt (ss.*1 ++ [id]) /\ Forall (fun s => Forall wf_record s.2) ss /\
    hist = sealed_records ss ++ rs /\ wf_hist hist.

Lemma log_files_parse (T0 : gmap bytes File) (hist : list LogRecord) (n : bytes) :
  log_files T0 hist -> is_Some (T0 !! n) -> exists i, parse_segment_name n = Some i.
Proof. intros (ss & id & rs & _ & _ & Hn & _) Hs. destruct (Hn n Hs) as (i & ? & _). eauto. Qed.

Lemma log_files_not_segment (T0 : gmap bytes File) (hist : list LogRecord) (n : bytes) :
  log_files T0 hist -> is_segment_name n = false -> T0 !! n = None.
Proof.
  intros Hl Hn. apply eq_None_not_Some. intros Hs.
  destruct (log_files_parse _ _ _ Hl Hs) as [i Hi%parse_is_segment]. congruence.
Qed.

Lemma log_files_synced (T0 : gmap bytes File) (hist : list LogRecord) (n : bytes) (f : File) :
  log_files T0 hist -> T0 !! n = Some f -> exists rs, f = sfile rs.
Proof.
  intros (ss & id & rs & Hf & Hu & Hn & Hs & _) Hl.
  destruct (Hn n) as (i & Hp & ->); [by eexists|].
  pose proof (parse_segment_name_range _ _ Hp) as Hi. rewrite Hf in Hl by done.
  unfold segs_map in Hl. apply lookup_insert_Some in Hl as [[_ <-]|[_ Hl]]; [by eexists|].
  apply elem_of_list_to_map_2, list_elem_of_fmap in Hl as ([j rs'] & Hl & _).
  simplify_eq. by eexists.
Qed.

Lemma log_files_of_dir (l : Log) (fs : fsys) (hist : list LogRecord) (T0 : gmap bytes File) :
  log_holds l fs hist -> fs !! log_dir l = Some T0 ->
  (forall n, is_Some (T0 !! n) -> is_Some (parse_segment_name n)) -> log_files T0 hist.
Proof.
  intros (ss & rs & Hi) Hd Hn. exists ss, (active_id l), rs.
  destruct (li_disk _ _ _ _ _ Hi) as [Hdl Hs Hw].
  assert (forall n, file_at fs (n :: log_dir l) = T0 !! n) as Hf by (intros n; unfold file_at; by rewrite Hd).
  split; [|split; [apply Hdl|split; [|split; [done|split; [done|split; [apply Hi|apply Hi]]]]]].
  - intros i Hu. rewrite <-Hf. by apply (dl_file _ _ _ Hdl).
  - intros n Hs'. destruct (Hn n Hs') as [i Hp]. exists i. split; [done|].
    apply (dl_name _ _ _ Hdl); [by rewrite Hf|done].
Qed.

(** The segments of the directory are among the compacted ones. *)
Definition covers (T0 D1 : gmap bytes File) : Prop :=
  forall n i, parse_segment_name n = Some i -> is_Some (D1 !! n) -> is_Some (T0 !! n).

Lemma covers_non_segments (T0 D0 : gmap bytes File) : covers T0 (non_segments D0).
Proof.
  intros n i Hp%parse_is_segment [f Hf]. unfold non_segments in Hf.
  apply map_lookup_filter_Some in Hf as [_ Hf]. simpl in Hf. congruence.
Qed.

Lemma swapped_file (dir : path) (T0 D1 : gmap bytes File) (fs : fsys) (n : bytes) :
  swapped dir T0 D1 fs -> n <> COMPACT_READY_MARKER -> file_at fs (n :: dir) = (T0 ∪ D1) !! n.
Proof. intros (Hd & _) Hn. unfold file_at. rewrite Hd. simpl. by rewrite lookup_delete_ne. Qed.

(** After the swap the directory holds the compacted log. *)
Lemma swapped_recoverable (dir : path) (T0 D1 : gmap bytes File) (fs : fsys) (hist : list LogRecord) :
  swapped dir T0 D1 fs -> log_files T0 hist -> covers T0 D1 -> dir_ok fs dir ->
  (forall n, is_Some (fs !! (n :: dir)) -> is_segment_name n = false) ->
  log_recoverable fs dir hist false.
Proof.
  intros Hsw Hlf Hc Hok Hsub. pose proof Hlf as (ss & id & rs & Hf & Hu & Hn & Hs & Hw & -> & Hwf).
  assert (forall n i, parse_segment_name n = Some i -> file_at fs (n :: dir) = T0 !! n) as Hfile.
  { intros n i Hp. rewrite (swapped_file _ _ _ _ _ Hsw) by (intros ->; by vm_compute in Hp).
    rewrite lookup_union. destruct (T0 !! n) as [f|] eqn:E; [by destruct (D1 !! n)|].
    destruct (D1 !! n) eqn:E2; [|done]. destruct (Hc n i Hp) as [f' Hf']; [by rewrite E2|].
    congruence. }
  apply (log_disk_recoverable fs dir ss id rs); [|done]. split; [|done|done]. split.
  - done.
  - intros i Hi. rewrite <-Hf by done. eapply Hfile. by apply parse_segment_name_of.
  - done.
  - intros n i Hs' Hp. rewrite (Hfile n i Hp) in Hs'. destruct (Hn n Hs') as (j & Hp' & ->).
    congruence.
  - intros n Hs'. apply Hsub in Hs'. destruct (parse_segment_name n) as [i|] eqn:E; [|done].
    apply parse_is_segment in E. congruence.
Qed.

(** ** Directories with a committed compaction *)

(** The facts about the directory that the swap relies on and does not change. *)
Record pending (dir : path) (T0 D1 : gmap bytes File) (hist : list LogRecord) (fs : fsys) : Prop := {
  pd_files : log_files T0 hist;
  pd_sorted : sorted_hist hist;
  pd_ok : dir_ok fs dir;
  pd_dirs : forall n, is_Some (fs !! (n :: dir)) -> is_segment_name n = false;
  pd_marker_dir : fs !! marker_of dir = None;
  pd_marker : is_Some (D1 !! COMPACT_READY_MARKER);
  pd_free : forall n, n = COMPACT_TMP_DIR \/ n = COMPACT_OLD_BACKUP_DIR \/ n = COMPACT_PLACEHOLDER_DIR ->
    D1 !! n = None;
}.

(** A compaction into the segments [T0], which hold [hist], is committed and the swap is not over:
    no rename of its first step is done, or its backup directory exists, or it is complete but for
    the marker. There may be any number of old segments in the directory. *)
Definition unfinished (dir : path) (T0 : gmap bytes File) (hist : list LogRecord) (fs : fsys) : Prop :=
  exists D1, pending dir T0 D1 hist fs /\ (committed dir T0 D1 fs \/ ready dir T0 D1 fs).

(** The swap has not begun: its first step has not made the backup directory. *)
Definition not_begun (dir : path) (fs : fsys) : Prop :=
  fs !! backup_of dir = None /\ is_Some (fs !! tmp_of dir).

(** Every segment in the directory has the name of a compacted one: no old segment is left that the
    compacted ones do not replace. *)
Definition no_old_segment (dir : path) (T0 : gmap bytes File) (fs : fsys) : Prop :=
  forall n i, parse_segment_name n = Some i -> is_Some (file_at fs (n :: dir)) -> is_Some (T0 !! n).

(** The directories of unfinished compactions that stay recoverable through any further crash. *)
Definition swap_pending (dir : path) (hist : list LogRecord) (fs : fsys) : Prop :=
  exists T0, unfinished dir T0 hist fs /\ no_old_segment dir T0 fs.

Lemma unfinished_file (dir : path) (T0 D1 : gmap bytes File) (fs : fsys) (n : bytes) :
  committed dir T0 D1 fs \/ ready dir T0 D1 fs -> T0 !! n = None -> file_at fs (n :: dir) = D1 !! n.
Proof.
  unfold file_at. intros [(T & -> & _)|[-> _ _ _ _ _ _ _]] Hn; [|done]. simpl. unfold moved.
  rewrite lookup_union, lookup_difference, Hn. destruct (T !! n), (D1 !! n); done.
Qed.

Lemma no_old_segment_covers (dir : path) (T0 D1 : gmap bytes File) (fs : fsys) :
  committed dir T0 D1 fs \/ ready dir T0 D1 fs -> no_old_segment dir T0 fs <-> covers T0 D1.
Proof.
  intros Hs. split; intros Hc n i Hp Hn; destruct (T0 !! n) eqn:E; [by eexists| |by eexists|].
  - rewrite <-E. apply (Hc n i Hp). by rewrite (unfinished_file _ _ _ _ _ Hs E).
  - rewrite <-E. apply (Hc n i Hp). by rewrite <-(unfinished_file _ _ _ _ _ Hs E).
Qed.

Lemma unfinished_not_begun (dir : path) (T0 : gmap bytes File) (hist : list LogRecord) (fs : fsys) :
  unfinished dir T0 hist fs -> not_begun dir fs ->
  exists D0, pending dir T0 D0 hist fs /\ ready dir T0 D0 fs.
Proof.
  intros (D0 & Hp & [(T & _ & _ & _ & _ & [[[? Hb] _]|(_ & Ht & _)])|Hr]) [Hb' Ht']; [congruence| |eauto].
  rewrite Ht in Ht'. by destruct Ht'.
Qed.

Lemma pending_thinned (dir : path) (T0 D D0 : gmap bytes File) (hist : list LogRecord) (fs : fsys) :
  thinned D D0 -> pending dir T0 D0 hist fs -> pending dir T0 D hist fs.
Proof.
  intros [H1 H2] [Hf Hs Hok Hds Hmd Hm Hfr]. split; try done.
  - by rewrite H2 by by vm_compute.
  - intros n Hn. apply eq_None_not_Some. intros [f Hfn]. eapply lookup_weaken in Hfn; [|done].
    by rewrite Hfr in Hfn.
Qed.

Lemma covers_thinned (T0 D D0 : gmap bytes File) : thinned D D0 -> covers T0 D0 -> covers T0 D.
Proof.
  intros [H1 _] Hc n i Hp [f Hf]. apply (Hc n i Hp). exists f. by eapply lookup_weaken.
Qed.

Lemma pending_names_free (dir : path) (T0 D1 : gmap bytes File) (hist : list LogRecord) (fs : fsys) :
  pending dir T0 D1 hist fs -> names_free T0 D1.
Proof.
  intros Hp n Hn. split.
  - eapply log_files_not_segment; [apply Hp|]. by destruct Hn as [-> | ->].
  - apply Hp. tauto.
Qed.

Lemma not_below_dir (n : bytes) (dir q : path) : q `suffix_of` dir -> ~ (n :: dir) `suffix_of` q.
Proof. apply not_suffix_parent. Qed.

Lemma swap_frame_dir_ok (dir : path) (fs fs' : fsys) :
  swap_frame dir fs fs' -> is_Some (fs' !! dir) -> dir_ok fs dir -> dir_ok fs' dir.
Proof.
  intros Hf Hd Hok q Hq. destruct (decide (q = dir)) as [->|Hne]; [done|].
  rewrite Hf; [by apply Hok|done|by apply not_suffix_parent|by apply not_suffix_parent].
Qed.

Lemma swap_frame_sub (dir : path) (n : bytes) (fs fs' : fsys) :
  swap_frame dir fs fs' -> n <> COMPACT_TMP_DIR -> n <> COMPACT_OLD_BACKUP_DIR ->
  fs' !! (n :: dir) = fs !! (n :: dir).
Proof.
  intros Hf H1 H2. apply Hf; [by apply not_eq_sym, dir_ne_sub|..]; by apply not_suffix_sibling.
Qed.

Lemma pending_frame (dir : path) (T0 D1 : gmap bytes File) (hist : list LogRecord) (fs fs' : fsys) :
  swap_frame dir fs fs' -> is_Some (fs' !! dir) -> pending dir T0 D1 hist fs ->
  pending dir T0 D1 hist fs'.
Proof.
  intros Hf Hd [H1 H2 Hok Hds Hmd Hm Hfr]. split; try done.
  - by eapply swap_frame_dir_ok.
  - intros n Hn. destruct (decide (n = COMPACT_TMP_DIR)) as [->|Ht]; [done|].
    destruct (decide (n = COMPACT_OLD_BACKUP_DIR)) as [->|Hb]; [done|].
    rewrite (swap_frame_sub _ _ _ _ Hf) in Hn by done. by apply Hds.
  - unfold marker_of, path_join. by rewrite (swap_frame_sub _ _ _ _ Hf).
Qed.

Lemma committed_dir (dir : path) (T0 D1 : gmap bytes File) (fs : fsys) :
  committed dir T0 D1 fs -> is_Some (fs !! dir).
Proof. intros (T & Hd & _). rewrite Hd. by eexists. Qed.

(** The complete swap leaves the directory of a store without a compaction. *)
Lemma swapped_store_disk (dir : path) (T0 D1 : gmap bytes File) (hist : list LogRecord) (fs fs' : fsys) :
  pending dir T0 D1 hist fs -> covers T0 D1 -> swap_frame dir fs fs' -> swapped dir T0 D1 fs' ->
  store_disk fs' dir hist false.
Proof.
  intros Hp Hc Hf Hsw. pose proof Hsw as (Hd & Ht & Hb).
  assert (is_Some (fs' !! dir)) as Hd' by (rewrite Hd; by eexists).
  pose proof (pending_frame _ _ _ _ _ _ Hf Hd' Hp) as [Hlf Hs Hok Hds Hmd Hm Hfr].
  assert (forall n, n = COMPACT_TMP_DIR \/ n = COMPACT_OLD_BACKUP_DIR \/ n = COMPACT_PLACEHOLDER_DIR ->
    file_at fs' (n :: dir) = None) as Hnone.
  { intros n Hn. rewrite (swapped_file _ _ _ _ _ Hsw) by (by destruct Hn as [-> | [-> | ->]]).
    apply lookup_union_None. split; [|by apply Hfr].
    eapply log_files_not_segment; [done|]. by destruct Hn as [-> | [-> | ->]]. }
  split; [|by eapply swapped_recoverable|done]. split.
  - split; [done|]. unfold file_at, marker_of, path_join. rewrite Hd. apply lookup_delete_eq.
  - split; [done|]. apply Hnone. tauto.
  - apply Hnone. tauto.
  - apply Hnone. tauto.
  - done.
Qed.

(** ** Crashes *)

Definition crash_dir (cut : path -> nat) (dir : path) (files : gmap bytes File) : gmap bytes File :=
  map_imap (fun n f => Some (crash_file (cut (n :: dir)) f)) files.

Lemma lookup_crash_dir (cut : path -> nat) (dir : path) (files : gmap bytes File) (n : bytes) :
  crash_dir cut dir files !! n = crash_file (cut (n :: dir)) <$> files !! n.
Proof. unfold crash_dir. rewrite map_lookup_imap. by destruct (files !! n). Qed.

Lemma lookup_crash (cut : path -> nat) (fs : fsys) (d : path) :
  crash_fs cut fs !! d = crash_dir cut d <$> fs !! d.
Proof. apply lookup_crash_fs. Qed.

Lemma crash_dir_log_files (cut : path -> nat) (dir : path) (T0 T : gmap bytes File)
    (hist : list LogRecord) :
  log_files T0 hist -> T ⊆ T0 -> crash_dir cut dir T = T.
Proof.
  intros Hl Hsub. apply map_eq. intros n. rewrite lookup_crash_dir.
  destruct (T !! n) as [f|] eqn:E; [|done]. simpl. eapply lookup_weaken in E; [|done].
  destruct (log_files_synced _ _ _ _ Hl E) as [rs ->]. by rewrite crash_file_synced.
Qed.

Lemma crash_dir_moved (cut : path -> nat) (dir : path) (T0 D1 T : gmap bytes File)
    (hist : list LogRecord) :
  log_files T0 hist -> crash_dir cut dir (moved T0 D1 T) = moved T0 (crash_dir cut dir D1) T.
Proof.
  intros Hl. apply map_eq. intros n. unfold moved. rewrite lookup_crash_dir, !lookup_union, lookup_crash_dir.
  destruct ((T0 ∖ T) !! n) as [f|] eqn:E.
  - apply lookup_difference_Some in E as [E _]. destruct (log_files_synced _ _ _ _ Hl E) as [rs ->].
    rewrite <-(crash_file_synced (cut (n :: dir)) rs) at 2. by destruct (D1 !! n).
  - by destruct (D1 !! n).
Qed.

Lemma committed_crash (cut : path -> nat) (dir : path) (T0 D1 : gmap bytes File)
    (hist : list LogRecord) (fs : fsys) :
  log_files T0 hist -> committed dir T0 D1 fs ->
  committed dir T0 (crash_dir cut dir D1) (crash_fs cut fs).
Proof.
  intros Hl (T & Hd & Hsub & Hs1 & Hs2 & Hc). exists T.
  assert (forall q, fs !! q = None -> crash_fs cut fs !! q = None) as Hnone.
  { intros q Hq. by rewrite lookup_crash, Hq. }
  split; [by rewrite lookup_crash, Hd; simpl; erewrite crash_dir_moved|]. split; [done|].
  split; [intros n Hn; by apply Hnone, Hs1|]. split; [intros n; by apply Hnone|].
  destruct Hc as [[Hb Ht]|(Hb & Ht & ->)]; [left|right; split; [by apply Hnone|split; [by apply Hnone|done]]].
  split; [by apply crash_fs_is_Some|]. rewrite lookup_crash.
  destruct (fs !! tmp_of dir) as [T'|]; simpl in *; [|done]. subst T'.
  by eapply crash_dir_log_files.
Qed.

Lemma ready_crash (cut : path -> nat) (dir : path) (T0 D0 : gmap bytes File)
    (hist : list LogRecord) (fs : fsys) :
  log_files T0 hist -> ready dir T0 D0 fs -> ready dir T0 (crash_dir cut dir D0) (crash_fs cut fs).
Proof.
  intros Hl [Hd Ht Hb Hok Hds Htd Hbd Hn].
  assert (forall q, fs !! q = None -> crash_fs cut fs !! q = None) as Hnone.
  { intros q Hq. by rewrite lookup_crash, Hq. }
  split.
  - by rewrite lookup_crash, Hd.
  - rewrite lookup_crash, Ht. simpl. f_equal. by eapply crash_dir_log_files.
  - by apply no_entry_crash.
  - intros q Hq. apply crash_fs_is_Some. by apply Hok.
  - intros n. rewrite crash_fs_is_Some. apply Hds.
  - intros n. by apply Hnone.
  - intros n. by apply Hnone.
  - done.
Qed.

Lemma pending_crash (cut : path -> nat) (dir : path) (T0 D1 : gmap bytes File)
    (hist : list LogRecord) (fs : fsys) :
  pending dir T0 D1 hist fs -> pending dir T0 (crash_dir cut dir D1) hist (crash_fs cut fs).
Proof.
  intros [H1 H2 Hok Hds Hmd Hm Hfr]. split; try done.
  - intros q Hq. apply crash_fs_is_Some. by apply Hok.
  - intros n. rewrite crash_fs_is_Some. apply Hds.
  - by rewrite lookup_crash, Hmd.
  - rewrite lookup_crash_dir. by apply fmap_is_Some.
  - intros n Hn. by rewrite lookup_crash_dir, Hfr.
Qed.

Lemma covers_crash (cut : path -> nat) (dir : path) (T0 D1 : gmap bytes File) :
  covers T0 D1 -> covers T0 (crash_dir cut dir D1).
Proof. intros Hc n i Hp. rewrite lookup_crash_dir, fmap_is_Some. by eapply Hc. Qed.

Lemma unfinished_crash (cut : path -> nat) (dir : path) (T0 : gmap bytes File)
    (hist : list LogRecord) (fs : fsys) :
  unfinished dir T0 hist fs -> unfinished dir T0 hist (crash_fs cut fs).
Proof.
  intros (D1 & Hp & Hs). exists (crash_dir cut dir D1). split; [by apply pending_crash|].
  destruct Hs; [left; eapply committed_crash|right; eapply ready_crash]; (apply Hp || done).
Qed.

Lemma no_old_segment_crash (cut : path -> nat) (dir : path) (T0 : gmap bytes File) (fs : fsys) :
  no_old_segment dir T0 fs -> no_old_segment dir T0 (crash_fs cut fs).
Proof.
  intros Hn n i Hp Hs. apply (Hn n i Hp). unfold file_at in *. simpl in *. rewrite lookup_crash in Hs.
  destruct (fs !! dir) as [files|]; simpl in *; [|done]. rewrite lookup_crash_dir in Hs.
  by apply fmap_is_Some in Hs.
Qed.

(** A directory from which [open] recovers the history [hist], with or without a compaction
    in flight. *)
Definition store_recoverable (fs : fsys) (dir : path) (hist : list LogRecord) : Prop :=
  (exists torn, store_disk fs dir hist torn) \/ swap_pending dir hist fs.

(** A machine crash loses nothing of it. *)
Lemma store_recoverable_crash (cut : path -> nat) (fs : fsys) (dir : path) (hist : list LogRecord) :
  store_recoverable fs dir hist -> store_recoverable (crash_fs cut fs) dir hist.
Proof.
  intros [[torn Hd]|(T0 & Hu & Hn)].
  - left. by eapply store_disk_crash.
  - right. exists T0. split; [by apply unfinished_crash|by apply no_old_segment_crash].
Qed.
End pending.

Section open_pending.
Context `{Crc32, DirOrder}.
Context {F : FaultModel}.

(** What [open] needs of the directory of an unfinished compaction to recover its history. *)
Definition finishable (dir : path) (T0 : gmap bytes File) (fs : fsys) : Prop :=
  not_begun dir fs \/ no_old_segment dir T0 fs.

(** What a crash of [open] on the directory [fs] of an unfinished compaction leaves: the compacted
    log alone, or the compaction unfinished, with no old segment that was not there before. *)
Definition finished_or_not (dir : path) (T0 : gmap bytes File) (hist : list LogRecord)
    (fs fs' : fsys) : Prop :=
  (exists torn, store_disk fs' dir hist torn) \/
  (unfinished dir T0 hist fs' /\ (no_old_segment dir T0 fs -> no_old_segment dir T0 fs')).

Lemma finished_or_not_crash (cut : path -> nat) (dir : path) (T0 : gmap bytes File)
    (hist : list LogRecord) (fs fs' : fsys) :
  finished_or_not dir T0 hist fs fs' -> finished_or_not dir T0 hist fs (crash_fs cut fs').
Proof.
  intros [[torn Hd]|[Hu Hn]].
  - left. by eapply store_disk_crash.
  - right. split; [by apply unfinished_crash|]. intros H1. by apply no_old_segment_crash, Hn.
Qed.

(** Later stages of the swap are unfinished compactions as well. *)
Lemma unfinished_step (dir : path) (T0 D1 D : gmap bytes File) (hist : list LogRecord) (fs fs' : fsys) :
  pending dir T0 D1 hist fs -> committed dir T0 D1 fs \/ ready dir T0 D1 fs ->
  thinned D D1 -> committed dir T0 D fs' -> swap_frame dir fs fs' ->
  unfinished dir T0 hist fs' /\ (no_old_segment dir T0 fs -> no_old_segment dir T0 fs').
Proof.
  intros Hp Hs Ht Hcm Hf. split.
  - exists D. split; [|by left]. eapply pending_frame; [done|by eapply committed_dir|].
    by eapply pending_thinned.
  - rewrite (no_old_segment_covers _ _ _ _ Hs), (no_old_segment_covers dir T0 D) by by left.
    by apply covers_thinned.
Qed.

Lemma wpc_finish_pending (dir : path) (T0 : gmap bytes File) (hist : list LogRecord) (fs : fsys) :
  ~ may_err F -> unfinished dir T0 hist fs -> finishable dir T0 fs ->
  wpc F (finish_pending_compaction dir) tt fs
    (fun _ _ fs' => store_disk fs' dir hist false) (fun _ _ _ => False)
    (fun fs' => may_crash F /\ unfinished dir T0 hist fs' /\
       (no_old_segment dir T0 fs -> no_old_segment dir T0 fs')).
Proof.
  intros HF Hu Hfi.
  assert ((exists D1, pending dir T0 D1 hist fs /\ covers T0 D1 /\ committed dir T0 D1 fs) \/
    (exists D0, pending dir T0 D0 hist fs /\ ready dir T0 D0 fs)) as [(D1 & Hp & Hc & Hs)|(D1 & Hp & Hs)].
  { destruct Hfi as [Hn|Hn]; [right; by apply unfinished_not_begun|].
    destruct Hu as (D1 & Hp & Hs). rewrite (no_old_segment_covers _ _ _ _ Hs) in Hn.
    destruct Hs; [left|right]; eauto. }
  - pose proof (pending_names_free _ _ _ _ _ Hp) as Hnf.
    eapply wpc_mono; [by apply (wpc_finish_committed dir T0 D1)| |done|].
    + intros [] [] fs' [Hsw Hf]. by eapply swapped_store_disk.
    + intros fs' (HC & Hcm' & Hf). split; [done|].
      eapply (unfinished_step dir T0 D1 D1); [done|by left|done|done|done].
  - pose proof (pending_names_free _ _ _ _ _ Hp) as Hnf.
    assert (names_free T0 (non_segments D1)) as Hnf'.
    { intros n Hn. split; [by apply Hnf|]. unfold non_segments. rewrite map_lookup_filter.
      by rewrite (proj2 (Hnf n Hn)). }
    eapply wpc_mono; [by apply (wpc_finish_ready dir T0 D1)| |done|].
    + intros [] [] fs' [Hsw Hf]. eapply (swapped_store_disk dir T0 (non_segments D1)); try done.
      * eapply pending_thinned; [|done]. apply thinned_non_segments.
      * apply covers_non_segments.
    + intros fs' (HC & [-> | (D & Ht & Hcm' & Hf)]); (split; [done|]).
      * split; [|done]. exists D1. auto.
      * eapply (unfinished_step dir T0 D1 D); [done|by right|done|done|done].
Qed.

Lemma unfinished_marker_exists (dir : path) (T0 : gmap bytes File) (hist : list LogRecord) (fs : fsys) :
  unfinished dir T0 hist fs -> is_Some (file_at fs (marker_of dir)).
Proof.
  intros (D1 & Hp & Hs). unfold file_at, marker_of, path_join.
  destruct (pd_marker _ _ _ _ _ Hp) as [f Hf]. destruct Hs as [(T & Hd & _)|[Hd _ _ _ _ _ _ _]].
  - rewrite Hd. simpl. unfold moved. rewrite lookup_union, Hf.
    destruct ((T0 ∖ T) !! COMPACT_READY_MARKER); by eexists.
  - rewrite Hd. simpl. rewrite Hf. by eexists.
Qed.

(** The clean-up of [open], when a compaction is unfinished. *)
Lemma wpc_finish_unfinished (dir : path) (T0 : gmap bytes File) (hist : list LogRecord) (fs : fsys) :
  ~ may_err F -> unfinished dir T0 hist fs -> finishable dir T0 fs ->
  wpc F (finish_or_discard_pending_compaction dir) tt fs
    (fun _ _ fs' => exists torn, store_disk fs' dir hist torn) (fun _ _ _ => False)
    (fun fs' => may_crash F /\ finished_or_not dir T0 hist fs fs').
Proof.
  intros HF Hu Hfi. unfold finish_or_discard_pending_compaction. fold (marker_of dir) (tmp_of dir).
  assert (finished_or_not dir T0 hist fs fs) as Hr by (right; by split).
  wpc_step. apply wpc_path_exists; [|done|done].
  rewrite bool_decide_eq_true_2 by (right; by eapply unfinished_marker_exists).
  wpc_step. eapply wpc_mono; [by apply (wpc_finish_pending dir T0 hist)| |done|].
  2: { intros fs' [HC Hs']. split; [done|]. by right. }
  intros [] [] fs1 Hd. eapply wpc_mono; [apply wpc_remove_dir_if_exists| | |].
  - intros [] [] fs2 (_ & Hb & _). exists false. eapply store_disk_below; [by right|done|done].
  - by intros e [] fs2 [? _].
  - intros fs2 [HC Hb%removing_below]. split; [done|]. left. exists false.
    eapply store_disk_below; [by right|done|done].
Qed.

(** The clean-up of [open]. *)
Lemma wpc_finish_or_discard (dir : path) (hist : list LogRecord) (fs : fsys) :
  ~ may_err F -> store_recoverable fs dir hist ->
  wpc F (finish_or_discard_pending_compaction dir) tt fs
    (fun _ _ fs' => exists torn, store_disk fs' dir hist torn) (fun _ _ _ => False)
    (fun fs' => may_crash F /\ store_recoverable fs' dir hist).
Proof.
  intros HF [[torn Hd]|(T0 & Hu & Hn)].
  - eapply wpc_mono; [apply (wpc_discard dir fs (fun fs' => store_disk fs' dir hist torn))| | |].
    + apply Hd.
    + intros fs1 fs2 H1 Hb. eapply store_disk_below; [by left|done|done].
    + intros fs1 fs2 H1 Hb. eapply store_disk_below; [by right|done|done].
    + done.
    + intros [] [] fs1 [Hd1 _]. by exists torn.
    + by intros e [] fs1 [? _].
    + intros fs1 [HC Hd1]. split; [done|]. left. by exists torn.
  - eapply wpc_mono; [apply (wpc_finish_unfinished dir T0 hist); [done|done|by right]|done|done|].
    intros fs' [HC [Hd|[Hu' Hn']]]; (split; [done|]); [by left|].
    right. exists T0. auto.
Qed.

(** [open] behind its clean-up: from the clean-up's outcomes to those of [open]. *)
Lemma wpc_open_after_cleanup (dir : path) (hist : list LogRecord) (fs : fsys) (C : fsys -> Prop) :
  ~ may_err F ->
  wpc F (finish_or_discard_pending_compaction dir) tt fs
    (fun _ _ fs' => exists torn, store_disk fs' dir hist torn) (fun _ _ _ => False)
    (fun fs' => may_crash F /\ C fs') ->
  (forall fs' torn, store_disk fs' dir hist torn -> C fs') ->
  wpc F (store_open dir) tt fs
    (fun st _ fs' => store_inv st fs' hist hist /\ st_dir st = dir /\ held_snapshots st = ∅ /\
       store_clean fs' dir)
    (fun _ _ _ => False)
    (fun fs' => may_crash F /\ C fs').
Proof.
  intros HF Hcl HC0. unfold store_open. wpc_step. wpc_step.
  eapply wpc_mono; [exact Hcl| |done|done].
  intros [] [] fs1 [torn Hd]. wpc_step. wpc_step.
  eapply wpc_mono; [apply (wpc_open_recoverable _ _ _ hist torn); [done|apply Hd]| |done|].
  - intros [l rep] [] fs2 (Hl & Hld & _ & Hrep & Hfr). simpl in *. subst rep. wpc_steps.
    split; [apply store_opened_inv; [done|done|apply Hd]|].
    split; [done|]. split; [done|]. eapply store_clean_frame; [done|apply Hd].
  - intros fs2 (HC & [torn' Hr'] & Hfr). split; [done|]. apply (HC0 fs2 torn').
    split; [|done|apply Hd]. eapply store_clean_frame; [done|apply Hd].
Qed.

Lemma wpc_store_open_any (fs : fsys) (dir : path) (hist : list LogRecord) :
  ~ may_err F -> store_recoverable fs dir hist ->
  wpc F (store_open dir) tt fs
    (fun st _ fs' => store_inv st fs' hist hist /\ st_dir st = dir /\ held_snapshots st = ∅ /\
       store_clean fs' dir)
    (fun _ _ _ => False)
    (fun fs' => may_crash F /\ store_recoverable fs' dir hist).
Proof.
  intros HF Hr. apply wpc_open_after_cleanup; [done|by apply wpc_finish_or_discard|].
  intros fs' torn Hd. left. by exists torn.
Qed.

Lemma wpc_store_open_unfinished (fs : fsys) (dir : path) (T0 : gmap bytes File) (hist : list LogRecord) :
  ~ may_err F -> unfinished dir T0 hist fs -> finishable dir T0 fs ->
  wpc F (store_open dir) tt fs
    (fun st _ fs' => store_inv st fs' hist hist /\ st_dir st = dir /\ held_snapshots st = ∅ /\
       store_clean fs' dir)
    (fun _ _ _ => False)
    (fun fs' => may_crash F /\ finished_or_not dir T0 hist fs fs').
Proof.
  intros HF Hu Hfi. apply wpc_open_after_cleanup; [done|by apply wpc_finish_unfinished|].
  intros fs' torn Hd. left. by exists torn.
Qed.
End open_pending.
