(* ===== verification/CompactProps.v ===== *)
(** * CompactProps: the correctness of compaction

    Compaction from start to end: the compacted log is built, committed and swapped in; what a
    reader, a held snapshot, a restart and a crash at any of its steps see of it. *)
From S2P Require Export StoreProps Pending.

Section fresh.
Context `{Crc32, DirOrder}.
Context {F : FaultModel}.

(** A directory that nothing is in yet. *)
Definition fresh_dir (fs : fsys) (p : path) : Prop :=
  fs !! p = Some ∅ /\ (forall n, fs !! (n :: p) = None) /\ dir_ok fs p.

Lemma below_dir_ok (n : bytes) (dir : path) (fs fs' : fsys) :
  below (n :: dir) fs fs' -> dir_ok fs dir -> dir_ok fs' dir.
Proof. intros Hb Hok q Hq. rewrite Hb by (by apply not_suffix_parent). by apply Hok. Qed.

Lemma fresh_insert (n : bytes) (dir : path) (fs : fsys) :
  dir_ok fs dir -> (forall m, fs !! (m :: n :: dir) = None) ->
  fresh_dir (<[n :: dir := ∅]> fs) (n :: dir).
Proof.
  intros Hok Hs. split; [apply lookup_insert_eq|]. split.
  - intros m. rewrite lookup_insert_ne; [done|]. apply dir_ne_sub.
  - apply dir_ok_cons. rewrite lookup_insert_eq. split; [by eexists|].
    eapply below_dir_ok; [apply below_insert|done].
Qed.

(** The part that [build_compacted] and [open_placeholder] share: a log in a new directory. *)
Lemma wpc_fresh_log {A : Type} (n : bytes) (dir : path) (fs : fsys)
    (k : Log * OpenReport -> M unit StoreError A) (Q : A -> unit -> fsys -> Prop) (C : fsys -> Prop) :
  ~ may_err F -> dir_ok fs dir -> file_at fs (n :: dir) = None -> rooted fs ->
  (may_crash F -> forall fs', below (n :: dir) fs fs' -> C fs') ->
  (forall l rep fs1 fs', log_holds l fs' [] -> log_dir l = n :: dir -> active_id l = 0%Z ->
     fresh_dir fs1 (n :: dir) -> log_frame (n :: dir) fs1 fs' -> below (n :: dir) fs fs' ->
     wpc F (k (l, rep)) tt fs' Q (fun _ _ _ => False) C) ->
  wpc F (ex ← path_exists (n :: dir);
         (if ex : bool then map_err StIo (remove_dir_all (n :: dir)) else mret tt);;
         map_err StIo (create_dir_all (n :: dir));;
         x ← map_err StLog (log_open (n :: dir));
         k x) tt fs Q (fun _ _ _ => False) C.
Proof.
  intros HF Hok Hnf Hr HC Hk.
  assert (forall fs1, below (n :: dir) fs fs1 -> fs1 !! (n :: dir) = None ->
    (forall m, fs1 !! (m :: n :: dir) = None) ->
    wpc F (map_err StIo (create_dir_all (n :: dir));;
           x ← map_err StLog (log_open (n :: dir)); k x) tt fs1 Q (fun _ _ _ => False) C) as Hrest.
  { intros fs1 Hb Hn Hs. pose proof (below_dir_ok _ _ _ _ Hb Hok) as Hok1.
    pose proof (fresh_insert n dir fs1 Hok1 Hs) as Hfr. pose proof Hfr as (Hd & Hs2 & Hok2).
    assert (below (n :: dir) fs (<[n :: dir := ∅]> fs1)) as Hb2 by (etrans; [done|apply below_insert]).
    assert (forall fs2, log_frame (n :: dir) (<[n :: dir := ∅]> fs1) fs2 -> below (n :: dir) fs fs2) as Hb3.
    { intros fs2 Hf. etrans; [exact Hb2|]. by apply below_log_frame. }
    wpc_step. wpc_step. eapply wpc_mono; [apply (wpc_create_sub n dir)| |done|].
    - done.
    - done.
    - split; [done|]. by rewrite (below_file _ _ _ _ _ Hb).
    - intros [] [] fs2 ->. wpc_step. wpc_step.
      eapply wpc_mono; [apply (wpc_open_new _ (<[n :: dir := ∅]> fs1))| |done|].
      + done.
      + by apply mk_dirs_ok.
      + by apply disk_log_empty_dir.
      + intros [l rep] [] fs' (Hl & Hld & Hid & _ & Hf). simpl in *.
        apply (Hk l rep (<[n :: dir := ∅]> fs1) fs'); auto.
      + intros fs' (HCr & _ & (d & fs2 & Hsuf & Hm & Hf)). apply HC; [done|].
        rewrite mk_dirs_ok in Hm; [|intros q Hq; apply Hok2; by etrans]. injection Hm as <-. by apply Hb3.
    - intros fs' [HCr [-> | ->]]; by apply HC. }
  wpc_step. apply wpc_path_exists; [|done|by intros; apply HC].
  rewrite Hnf. destruct (fs !! (n :: dir)) as [files|] eqn:E.
  - rewrite bool_decide_eq_true_2 by (left; by eexists). wpc_step. wpc_step.
    eapply wpc_mono; [by apply wpc_remove_dir_all| | |].
    + intros [] [] fs1 [_ ->]. apply Hrest.
      * apply below_remove_tree.
      * by apply lookup_remove_tree.
      * intros m. apply lookup_remove_tree. by apply suffix_cons_r.
    + by intros e [] fs1 [? _].
    + intros fs1 (HCr & files' & -> & _). apply HC; [done|apply below_insert].
  - rewrite bool_decide_eq_false_2 by (by intros [[]|[]]). wpc_step. wpc_step.
    apply Hrest; [done|done|]. intros m. apply eq_None_not_Some. intros Hs%Hr. rewrite E in Hs. by destruct Hs.
Qed.

(** The files of a directory that was fresh and then only a log's. *)
Lemma fresh_log_files (l : Log) (p : path) (fs fs' : fsys) (hist : list LogRecord) :
  fresh_dir fs p -> log_frame p fs fs' -> log_dir l = p -> log_holds l fs' hist ->
  exists T0, fs' !! p = Some T0 /\ log_files T0 hist /\ (forall n, fs' !! (n :: p) = None).
Proof.
  intros (Hd & Hs & _) (H1 & H2 & H3 & H4) <- Hl.
  destruct (proj2 H2) as [T0 HT0]; [rewrite Hd; by eexists|]. exists T0. split; [done|]. split.
  - apply (log_files_of_dir l fs' hist); [done|done|]. intros n Hn.
    destruct (parse_segment_name n) as [i|] eqn:E; [by eexists|]. specialize (H3 n E).
    unfold file_at in H3. rewrite HT0, Hd in H3. simpl in H3. rewrite lookup_empty in H3.
    rewrite H3 in Hn. by destruct Hn.
  - intros n. rewrite H1; [done|]. apply cons_ne_self.
Qed.

(** The state in which the compacted log is complete in the temporary directory. *)
Definition built (dir : path) (T0 : gmap bytes File) (records : list LogRecord) (fs fs' : fsys) : Prop :=
  fs' !! tmp_of dir = Some T0 /\ (forall n, fs' !! (n :: tmp_of dir) = None) /\
  log_files T0 records /\ is_Some (T0 !! segment_name 0) /\ below (tmp_of dir) fs fs'.

Lemma wpc_build_compacted (dir : path) (fs : fsys) (records : list LogRecord) :
  ~ may_err F -> dir_ok fs dir -> file_at fs (tmp_of dir) = None -> rooted fs -> wf_hist records ->
  wpc F (build_compacted (tmp_of dir) records) tt fs
    (fun _ _ fs' => exists T0, built dir T0 records fs fs') (fun _ _ _ => False)
    (fun fs' => may_crash F /\ below (tmp_of dir) fs fs').
Proof.
  intros HF Hok Hnf Hr Hwf. unfold build_compacted, tmp_of, path_join.
  apply wpc_fresh_log; [done|done|done|done|done|].
  intros l rep fs1 fs2 Hl Hld Hid Hfr Hf Hb. wpc_step. wpc_step. wpc_step. rewrite <-Hld in *.
  assert (is_Some (file_at fs2 (segment_name 0 :: log_dir l))) as Hs0.
  { destruct Hl as (ss & rs & Hi). destruct (log_disk_last _ _ _ _ _ (li_disk _ _ _ _ _ Hi)) as [Hl0 _].
    rewrite Hid in Hl0. eexists. exact Hl0. }
  eapply wpc_mono; [apply (wpc_append_verbatim l fs2 records); [done|lia|done]| | |].
  - intros [] l' fs3 (Hl' & Hld' & _ & Hf').
    destruct (fresh_log_files l' (log_dir l) fs1 fs3 records) as (T0 & HT0 & Hlf & Hs); [done|by etrans|done|done|].
    wpc_steps. exists T0. unfold built, tmp_of, path_join. rewrite <-Hld.
    split; [done|]. split; [done|]. split; [done|]. split.
    + apply Hf' in Hs0. unfold file_at in Hs0. by rewrite HT0 in Hs0.
    + etrans; [done|]. by apply below_log_frame.
  - by intros e l' fs3 [? _].
  - intros fs3 (HC & _ & Hf'). split; [done|]. etrans; [done|]. by apply below_log_frame.
Qed.

Lemma wpc_open_placeholder (dir : path) (fs : fsys) :
  ~ may_err F -> dir_ok fs dir -> file_at fs (placeholder_of dir) = None -> rooted fs ->
  wpc F (open_placeholder (placeholder_of dir)) tt fs
    (fun _ _ fs' => is_Some (fs' !! placeholder_of dir) /\ below (placeholder_of dir) fs fs')
    (fun _ _ _ => False)
    (fun fs' => may_crash F /\ below (placeholder_of dir) fs fs').
Proof.
  intros HF Hok Hnf Hr. unfold open_placeholder, placeholder_of, path_join.
  apply wpc_fresh_log; [done|done|done|done|done|].
  intros l rep fs1 fs2 Hl Hld Hid (Hd & _) Hf Hb. wpc_steps. split; [|done].
  apply Hf. rewrite Hd. by eexists.
Qed.
End fresh.

(** ** The commit point *)

Section commit.
Context `{Crc32}.

Definition empty_file : File := mkFile [] 0.

Lemma put_marker_other (dir q : path) (fs : fsys) :
  q <> dir -> put_file (marker_of dir) empty_file fs !! q = fs !! q.
Proof. intros Hq. by apply put_file_dir_ne. Qed.

Lemma rooted_child (n m : bytes) (dir : path) (fs : fsys) :
  rooted fs -> fs !! (n :: dir) = None -> fs !! (m :: n :: dir) = None.
Proof. intros Hr Hn. apply eq_None_not_Some. intros Hs%Hr. rewrite Hn in Hs. by destruct Hs. Qed.

(** Writing the marker commits the compaction. *)
Lemma commit_ready (dir : path) (T0 D : gmap bytes File) (records : list LogRecord) (fs fs1 : fsys) :
  store_clean fs dir -> dir_ok fs dir -> rooted fs -> fs !! dir = Some D ->
  built dir T0 records fs fs1 -> sorted_hist records ->
  let fs2 := put_file (marker_of dir) empty_file fs1 in
  let D0 := <[COMPACT_READY_MARKER := empty_file]> D in
  ready dir T0 D0 fs2 /\ pending dir T0 D0 records fs2.
Proof.
  intros [[Hm Hmf] [Hb Hbf] Ht Hpl Hds] Hok Hr Hd (HT0 & Hts & Hlf & H0 & Hbl) Hs fs2 D0.
  assert (fs1 !! dir = Some D) as Hd1 by by rewrite (below_dir _ _ _ _ Hbl).
  assert (forall q, q <> dir -> ~ tmp_of dir `suffix_of` q -> fs2 !! q = fs !! q) as Hq.
  { intros q H1 H2. unfold fs2. rewrite put_marker_other by done. by apply Hbl. }
  assert (forall n, n <> COMPACT_TMP_DIR -> fs2 !! (n :: dir) = fs !! (n :: dir)) as Hsub.
  { intros n Hn. apply Hq; [apply cons_ne_self|]. by apply not_suffix_sibling. }
  assert (dir_ok fs2 dir) as Hok2 by (by apply dir_ok_put; eapply below_dir_ok).
  assert (forall n, is_Some (fs2 !! (n :: dir)) -> is_segment_name n = false) as Hds2.
  { intros n Hn. destruct (decide (n = COMPACT_TMP_DIR)) as [->|Hne]; [done|].
    rewrite Hsub in Hn by done. by apply Hds. }
  assert (forall n, file_at fs (n :: dir) = D !! n) as Hfile by (intros n; unfold file_at; by rewrite Hd).
  unfold tmp_of, path_join in Ht. unfold placeholder_of, path_join in Hpl.
  unfold backup_of, path_join in Hbf. rewrite Hfile in Ht, Hpl, Hbf.
  split; split.
  - unfold fs2, marker_of, path_join. by rewrite (put_file_dir _ _ _ _ _ Hd1).
  - unfold fs2. rewrite put_marker_other; [done|apply cons_ne_self].
  - unfold backup_of, path_join in *. split; [by rewrite Hsub by by vm_compute|].
    unfold fs2. rewrite file_at_put_ne by by vm_compute.
    by rewrite (below_file _ _ _ _ _ Hbl), Hfile.
  - done.
  - done.
  - intros n. unfold fs2. rewrite put_marker_other; [done|].
    intros Heq%(f_equal length). simpl in Heq. lia.
  - intros n. rewrite Hq; [by apply rooted_child| |].
    + intros Heq%(f_equal length). simpl in Heq. lia.
    + intros [Heq|Hsuf]%suffix_cons_or; [apply (f_equal length) in Heq; simpl in Heq; lia|].
      by apply not_suffix_sibling in Hsuf; [|by vm_compute].
  - intros n Hn. destruct (log_files_parse _ _ _ Hlf Hn) as [i Hi]. by eapply parse_is_segment.
  - done.
  - done.
  - done.
  - done.
  - unfold marker_of, path_join. by rewrite Hsub by by vm_compute.
  - unfold D0. rewrite lookup_insert_eq. by eexists.
  - intros n Hn. unfold D0. rewrite lookup_insert_ne by (by destruct Hn as [-> | [-> | ->]]).
    by destruct Hn as [-> | [-> | ->]].
Qed.

Lemma ready_below (dir : path) (T0 D0 : gmap bytes File) (fs fs' : fsys) :
  below (placeholder_of dir) fs fs' -> ready dir T0 D0 fs -> ready dir T0 D0 fs'.
Proof.
  intros Hb [Hd Ht Hbk Hok Hds Htd Hbd Hn].
  assert (forall n m, n <> COMPACT_PLACEHOLDER_DIR -> fs' !! (m :: n :: dir) = fs !! (m :: n :: dir)) as Hsub.
  { intros n m Hne. apply Hb. intros [Heq|Hsuf]%suffix_cons_or.
    - apply (f_equal length) in Heq. simpl in Heq. lia.
    - by apply not_suffix_sibling in Hsuf. }
  split.
  - by rewrite (below_dir _ _ _ _ Hb).
  - unfold tmp_of, path_join. by rewrite (below_sibling _ _ _ _ _ Hb) by by vm_compute.
  - eapply below_no_entry; [done|by vm_compute|done].
  - by eapply below_dir_ok.
  - intros n Hs. destruct (decide (n = COMPACT_PLACEHOLDER_DIR)) as [->|Hne]; [done|].
    rewrite (below_sibling _ _ _ _ _ Hb) in Hs by done. by apply Hds.
  - intros n. unfold tmp_of, path_join. rewrite Hsub by by vm_compute. apply Htd.
  - intros n. unfold backup_of, path_join. rewrite Hsub by by vm_compute. apply Hbd.
  - done.
Qed.

Lemma pending_below (dir : path) (T0 D0 : gmap bytes File) (records : list LogRecord) (fs fs' : fsys) :
  below (placeholder_of dir) fs fs' -> pending dir T0 D0 records fs -> pending dir T0 D0 records fs'.
Proof.
  intros Hb [H1 H2 Hok Hds Hmd Hm Hfr]. split; try done.
  - by eapply below_dir_ok.
  - intros n Hs. destruct (decide (n = COMPACT_PLACEHOLDER_DIR)) as [->|Hne]; [done|].
    rewrite (below_sibling _ _ _ _ _ Hb) in Hs by done. by apply Hds.
  - unfold marker_of, path_join. by rewrite (below_sibling _ _ _ _ _ Hb) by by vm_compute.
Qed.

Lemma log_holds_below (l : Log) (n : bytes) (dir : path) (fs fs' : fsys) (hist : list LogRecord) :
  parse_segment_name n = None -> log_dir l = dir -> below (n :: dir) fs fs' ->
  log_holds l fs hist -> log_holds l fs' hist.
Proof.
  intros Hn <- Hb (ss & rs & [Hld Hh Hw Ha Hse Hx]). exists ss, rs. split; try done.
  by eapply log_disk_below.
Qed.

(** A compaction of [records] interrupted after its commit point, started from the file system
    [fs0]: the directory holds the compacted log and what is left of the old segments. *)
Definition interrupted (dir : path) (records : list LogRecord) (fs0 fs : fsys) : Prop :=
  exists T0 D, pending dir T0 D records fs /\ is_Some (T0 !! segment_name 0) /\
    (committed dir T0 D fs \/ ready dir T0 D fs) /\
    (forall n i, parse_segment_name n = Some i -> is_Some (D !! n) -> is_Some (file_at fs0 (n :: dir))).
End commit.

(** ** The whole of [compact] *)

Section compact.
Context `{Crc32, DirOrder}.
Context {F : FaultModel}.

(** What the end of [compact] does, once the segments are swapped. *)
Lemma wpc_reopen_swapped (st : Store) (fs : fsys) (records : list LogRecord) (live before : nat) :
  ~ may_err F -> store_disk fs (st_dir st) records false -> is_Some (fs !! placeholder_of (st_dir st)) ->
  wpc F ('(log, _) ← io (map_err StLog (log_open (st_dir st)));
         let segments_after := segment_count log in
         modify (set_log log);;
         map_err StIo (remove_dir_all (placeholder_of (st_dir st)));;
         mret (mkCompactionReport live before segments_after)) st fs
    (fun rep st' fs' => exists l, st' = set_log l st /\
       rep = mkCompactionReport live before (segment_count l) /\
       log_holds l fs' records /\ log_dir l = st_dir st /\ store_clean fs' (st_dir st))
    (fun _ _ _ => False)
    (fun fs' => may_crash F /\ exists torn, store_disk fs' (st_dir st) records torn).
Proof.
  intros HF [Hc Hl Hs] Hpl. wpc_step. wpc_step. wpc_step.
  eapply wpc_mono; [apply (wpc_open_recoverable _ _ _ records false); [done|done]| |done|].
  - intros [l rep] [] fs1 (Hh & Hld & _ & _ & Hf). simpl in Hh, Hld.
    cbv beta iota zeta. wpc_step. wpc_step.
    assert (store_clean fs1 (st_dir st)) as Hc1 by by eapply store_clean_frame.
    assert (fs1 !! placeholder_of (st_dir st) = fs !! placeholder_of (st_dir st)) as Hp1.
    { apply Hf. apply cons_ne_self. }
    destruct Hpl as [files Hpl].
    wpc_step. wpc_step. eapply wpc_mono; [apply (wpc_remove_dir_all _ _ _ files)| | |].
    + by rewrite Hp1.
    + intros [] s fs2 [-> ->]. wpc_step. exists l. split; [done|]. split; [done|].
      split; [|split; [done|]].
      * eapply (log_holds_below l COMPACT_PLACEHOLDER_DIR); [done|done| |done]. apply below_remove_tree.
      * eapply (store_clean_below COMPACT_PLACEHOLDER_DIR); [by right| |done]. apply below_remove_tree.
    + by intros e s fs2 [? _].
    + intros fs2 (HC & files' & -> & _). split; [done|]. exists false.
      eapply (store_disk_below COMPACT_PLACEHOLDER_DIR); [by right|apply below_insert|].
      split; [done| |done]. rewrite <-Hld. by apply log_holds_recoverable.
  - intros fs1 (HC & [torn Hr] & Hf). split; [done|]. exists torn.
    split; [by eapply store_clean_frame|done|done].
Qed.

(** From the commit point to the end. *)
Lemma wpc_swap_and_reopen (st : Store) (fs0 fs : fsys) (T0 D0 : gmap bytes File)
    (records : list LogRecord) (live before : nat) :
  let dir := st_dir st in
  ~ may_err F -> ready dir T0 D0 fs -> pending dir T0 D0 records fs -> rooted fs ->
  is_Some (T0 !! segment_name 0) ->
  (forall n i, parse_segment_name n = Some i -> is_Some (D0 !! n) -> is_Some (file_at fs0 (n :: dir))) ->
  wpc F (placeholder_log ← io (open_placeholder (placeholder_of dir));
         modify (set_log placeholder_log);;
         io (map_err StIo (finish_pending_compaction dir));;
         '(log, _report) ← io (map_err StLog (log_open dir));
         let segments_after := segment_count log in
         modify (set_log log);;
         map_err StIo (remove_dir_all (placeholder_of dir));;
         mret (mkCompactionReport live before segments_after)) st fs
    (fun rep st' fs' => exists l, st' = set_log l st /\
       rep = mkCompactionReport live before (segment_count l) /\
       log_holds l fs' records /\ log_dir l = dir /\ store_clean fs' dir)
    (fun _ _ _ => False)
    (fun fs' => may_crash F /\
       ((exists torn, store_disk fs' dir records torn) \/ interrupted dir records fs0 fs')).
Proof.
  intros dir HF Hrd Hpd Hr Hseg0 HD0.
  assert (forall fs', below (placeholder_of dir) fs fs' -> interrupted dir records fs0 fs') as Hint.
  { intros fs' Hb. exists T0, D0. split; [by eapply pending_below|]. split; [done|].
    split; [right; by eapply ready_below|done]. }
  wpc_step. wpc_step. eapply wpc_mono; [apply (wpc_open_placeholder dir fs); [done|apply Hrd| |done]| |done|].
  { unfold file_at, placeholder_of, path_join. rewrite (rd_dir _ _ _ _ Hrd). apply Hpd. tauto. }
  2: { intros fs' [HC Hb]. auto. }
  intros placeholder [] fs3 [Hpl Hb3]. wpc_step. wpc_step. wpc_step. wpc_step. wpc_step.
  pose proof (ready_below _ _ _ _ _ Hb3 Hrd) as Hrd3.
  pose proof (pending_below _ _ _ _ _ _ Hb3 Hpd) as Hpd3.
  pose proof (pending_thinned _ _ _ _ _ _ (thinned_non_segments D0) Hpd3) as Hpd3'.
  eapply wpc_mono; [apply (wpc_finish_ready dir T0 D0); [done|done|by eapply pending_names_free]| |done|].
  - intros [] [] fs4 [Hsw Hf4].
    assert (store_disk fs4 dir records false) as Hsd.
    { eapply (swapped_store_disk dir T0 (non_segments D0)); try done. apply covers_non_segments. }
    eapply wpc_mono; [apply (wpc_reopen_swapped (set_log placeholder st) fs4 records); try done| |done|].
    + unfold placeholder_of, path_join. by rewrite (swap_frame_sub _ _ _ _ Hf4) by by vm_compute.
    + intros rep st' fs5 (l & -> & -> & Hrest). by exists l.
    + intros fs5 [HC Hd5]. auto.
  - intros fs4 (HC & [-> | (D1 & Hth & Hcm & Hf)]); (split; [done|]); right; [by apply Hint|].
    exists T0, D1. split; [|split; [done|split; [by left|]]].
    + eapply pending_frame; [done|by eapply committed_dir|]. by eapply pending_thinned.
    + intros n i Hp [f Hf']. apply (HD0 n i Hp). exists f. eapply lookup_weaken; [done|apply Hth].
Qed.

Lemma wpc_compact (st : Store) (fs : fsys) (dh ih : list LogRecord) :
  ~ may_err F -> store_inv st fs dh ih -> store_clean fs (st_dir st) -> rooted fs ->
  let records := (compact_records st).1 in
  wpc F compact st fs
    (fun rep st' fs' => exists l, st' = set_log l st /\
       rep = mkCompactionReport (size (kv_of ih)) (segment_count (st_log st)) (segment_count l) /\
       log_holds l fs' records /\ log_dir l = st_dir st /\ store_clean fs' (st_dir st))
    (fun _ _ _ => False)
    (fun fs' => may_crash F /\
       ((exists torn, store_disk fs' (st_dir st) dh torn) \/
        (exists torn, store_disk fs' (st_dir st) records torn) \/
        interrupted (st_dir st) records fs fs')).
Proof.
  intros HF Hi Hc Hr records. set (dir := st_dir st) in *.
  pose proof (si_mem _ _ _ _ Hi) as Hm.
  pose proof (compact_live_keys st ih (mi_index _ _ Hm) (mi_sorted _ _ Hm)) as Hlive.
  pose proof (compact_records_sorted st ih (mi_index _ _ Hm) (mi_sorted _ _ Hm)) as Hsort.
  pose proof (compact_records_wf st ih (mi_index _ _ Hm) (si_wf _ _ _ _ Hi)) as Hwf.
  fold records in Hsort, Hwf.
  assert (store_disk fs dir dh false) as Hold.
  { split; [done| |apply Hi]. unfold dir. rewrite <-(si_dir _ _ _ _ Hi).
    apply log_holds_recoverable, Hi. }
  assert (dir_ok fs dir) as Hok.
  { destruct (sd_log _ _ _ _ Hold) as (ss & id & f & rs & tail & Hld & _). apply Hld. }
  destruct (Hok dir ltac:(done)) as [D Hd].
  unfold compact. wpc_step. wpc_step. fold dir.
  rewrite (surjective_pairing (compact_records st)), Hlive. fold records. cbv beta iota zeta.
  wpc_step. wpc_step. fold (tmp_of dir) (marker_of dir) (placeholder_of dir).
  eapply wpc_mono; [apply wpc_rooted; [apply rooted_build_compacted|exact Hr|];
    by apply (wpc_build_compacted dir fs records); [done|done|apply Hc|done|done]| |by intros ? ? ? [? _]|].
  2: { intros fs' [[HC Hb] _]. split; [done|]. left. exists false.
       eapply store_disk_below; [by left|done|done]. }
  intros [] [] fs1 [[T0 Hbt] Hr1]. wpc_step. wpc_step. apply wpc_atomic; [|done|].
  2: { intros HC. split; [done|]. left. exists false.
       eapply store_disk_below; [by left|apply Hbt|done]. }
  unfold marker_of, path_join. rewrite (below_dir _ _ _ _ (proj2 (proj2 (proj2 (proj2 Hbt))))), Hd.
  fold (path_join dir COMPACT_READY_MARKER) (marker_of dir). fold empty_file.
  destruct (commit_ready dir T0 D records fs fs1 Hc Hok Hr Hd Hbt Hsort) as [Hrd Hpd].
  eapply wpc_mono; [apply (wpc_swap_and_reopen st fs _ T0 (<[COMPACT_READY_MARKER := empty_file]> D)
    records); try done| |done|].
  - by apply rooted_put.
  - apply Hbt.
  - intros n i Hp. unfold file_at. fold dir. rewrite Hd. simpl. rewrite lookup_insert_ne; [done|].
    intros <-. by vm_compute in Hp.
  - done.
  - intros fs' [HC Hd']. auto.
Qed.
End compact.

(** ** Held snapshots *)

(** A sequence number is held by some guard. *)
Definition held (st : Store) (s : Z) : Prop := is_Some (held_snapshots st !! s).

Lemma oldest_held_le (st : Store) (s : Z) :
  held st s -> exists t, oldest_held_snapshot_seq st = Some t /\ (t <= s)%Z.
Proof.
  intros Hs. unfold oldest_held_snapshot_seq.
  set (l := (map_to_list (held_snapshots st)).*1).
  assert (s ∈ l) as Hin.
  { destruct Hs as [c Hc]. apply list_elem_of_fmap. exists (s, c). by rewrite elem_of_map_to_list. }
  assert (StronglySorted (fun a b => Z.leb a b = true) (sort_by Z.leb l)) as Hsort.
  { apply sort_by_sorted; intros a b; [|intros c]; rewrite ?Z.leb_nle, ?Z.leb_le; lia. }
  rewrite <-(elem_of_sort_by Z.leb) in Hin.
  destruct (sort_by Z.leb l) as [|t l']; [by apply not_elem_of_nil in Hin|].
  exists t. split; [done|]. apply elem_of_cons in Hin as [->|Hin]; [lia|].
  apply StronglySorted_inv in Hsort as [_ Hsort]. rewrite Forall_forall in Hsort.
  by apply Z.leb_le, Hsort.
Qed.

(** ** What is kept without snapshots *)

Lemma retained_None_length (vs : list VersionEntry) :
  length (retained None vs) = if last_live (retained None vs) then 1 else 0.
Proof.
  simpl. destruct (last vs) as [v|]; [|done]. simpl. rewrite filter_cons.
  case_decide as Hd; [|done]. unfold last_live. simpl. by rewrite Hd.
Qed.

Lemma compact_bind_length (entries : list (bytes * list VersionEntry)) :
  length (entries ≫= (fun e => version_record e.1 <$> retained None e.2)) =
    length (filter (fun e => last_live (retained None e.2) = true) entries).
Proof.
  induction entries as [|e es IH]; [done|].
  rewrite bind_cons, length_app, length_fmap, retained_None_length, filter_cons, IH.
  destruct (last_live (retained None e.2)).
  - by rewrite decide_True.
  - by rewrite decide_False.
Qed.

Lemma compact_length (st : Store) :
  oldest_held_snapshot_seq st = None -> length (compact_records st).1 = (compact_records st).2.
Proof.
  intros Hn. unfold compact_records. rewrite Hn, compact_loop_spec. simpl.
  rewrite <-compact_bind_length. apply Permutation_length, sort_by_perm.
Qed.

Section compact_properties.
Context `{Crc32, DirOrder}.

(** The store's log is one segment, the first. *)
Definition single_segment (st : Store) : Prop :=
  sealed (st_log st) = [] /\ active_id (st_log st) = 0%Z.

Lemma single_segment_files (st : Store) (fs : fsys) (dh ih : list LogRecord) (n : bytes) (i : Z) :
  store_inv st fs dh ih -> single_segment st -> parse_segment_name n = Some i ->
  is_Some (file_at fs (n :: st_dir st)) -> n = segment_name 0.
Proof.
  intros Hi [Hse Hid] Hp Hs. pose proof (si_log _ _ _ _ Hi) as (ss & rs & Hl).
  rewrite <-(si_dir _ _ _ _ Hi) in Hs. destruct (li_disk _ _ _ _ _ Hl) as [Hd _ _].
  pose proof (li_sealed _ _ _ _ _ Hl) as Hss. rewrite Hse in Hss.
  symmetry in Hss. apply fmap_nil_inv in Hss as ->. rewrite Hid in Hd.
  pose proof (dl_name _ _ _ Hd n i Hs Hp) as ->.
  pose proof (dl_file _ _ _ Hd i (parse_segment_name_range _ _ Hp)) as Hf.
  unfold segment_path, path_join in Hf. rewrite Hf in Hs. destruct Hs as [f Hs].
  unfold segs_map in Hs. apply lookup_insert_Some in Hs as [[<- _]|[_ Hs]]; [done|].
  simpl in Hs. by rewrite lookup_empty in Hs.
Qed.

Lemma interrupted_unfinished (dir : path) (records : list LogRecord) (fs fs' : fsys) :
  interrupted dir records fs fs' -> exists T0, unfinished dir T0 records fs'.
Proof. intros (T0 & D & Hp & _ & Hs & _). exists T0, D. done. Qed.

Lemma interrupted_pending (st : Store) (fs fs' : fsys) (dh ih records : list LogRecord) :
  store_inv st fs dh ih -> single_segment st -> interrupted (st_dir st) records fs fs' ->
  swap_pending (st_dir st) records fs'.
Proof.
  intros Hi Hss (T0 & D & Hp & Hz & Hs & Hf). exists T0. split; [by exists D|].
  apply (no_old_segment_covers _ _ _ _ Hs).
  intros n i Hpn Hn. by rewrite (single_segment_files st fs dh ih n i Hi Hss Hpn (Hf n i Hpn Hn)).
Qed.

(** C5: Compaction loses nothing: run without faults on a store that satisfies its invariant, it
    succeeds and reports the number of live keys and the segment counts; every current read and
    every read through a snapshot is unchanged; the new log denotes the same map, and the same map
    as of every held snapshot, so that a restart, whatever it cuts from the file cache, finds it;
    and if a snapshot is held or the newest record is a put, the invariant holds again. *)
Theorem compact_preserves_store (st : Store) (fs : fsys) (dh ih : list LogRecord) :
  store_inv st fs dh ih -> store_clean fs (st_dir st) -> rooted fs ->
  wpc no_faults compact st fs
    (fun rep st' fs' => exists records,
       rep = mkCompactionReport (size (kv_of ih)) (segment_count (st_log st))
               (segment_count (st_log st')) /\
       (forall k, store_get st' k = store_get st k) /\
       (forall k s, get_at st' k s = get_at st k s) /\
       kv_of records = kv_of ih /\ (forall s, held st s -> kv_at s records = kv_at s ih) /\
       (forall cut, exists torn, store_disk (crash_fs cut fs') (st_dir st) records torn) /\
       (keeps_newest st ih -> store_inv st' fs' records ih))
    (fun _ _ _ => False) (fun _ => False).
Proof.
  intros Hi Hc Hr. pose proof (si_mem _ _ _ _ Hi) as [Hidx Hsort Hlt Hpos].
  eapply wpc_mono; [apply (wpc_compact st fs dh ih); try done; by intros []| |done|by intros ? [[] _]].
  intros rep st' fs' (l & -> & -> & Hl & Hld & Hc'). exists (compact_records st).1.
  split; [done|]. split; [done|]. split; [done|].
  split; [by apply compact_records_kv|]. split; [|split].
  - intros s (t & Ht & Hts)%oldest_held_le. by eapply compact_records_kv_at.
  - intros cut. eapply (store_disk_crash cut fs' _ _ false). split; [done| |].
    + rewrite <-Hld. by apply log_holds_recoverable.
    + by apply (compact_records_sorted st ih).
  - intros Hk. destruct (log_holds_next _ _ _ Hl) as [Hn Hwf].
    pose proof (compact_records_next st ih Hidx Hsort (si_wf _ _ _ _ Hi) Hk) as Hnx.
    split; try done; [split; simpl|apply Hi| |].
    + done.
    + done.
    + rewrite Hn, Hnx. apply wf_hist_lt_next, Hi.
    + rewrite Hn. apply next_of_range.
    + by apply (compact_records_sorted st ih).
    + by apply compact_records_kv.
Qed.

(** C6: Compaction is crash-safe for a log of one segment: whatever operation the process dies in,
    and after any part of it, the machine restarts, with whatever part of the file cache lost, on
    a directory from which [open] recovers a history that denotes the same map, be it the old log,
    the compacted one, or a swap to be finished. *)
Theorem compact_crash_safe (st : Store) (fs : fsys) (dh ih : list LogRecord) (cut : path -> nat) :
  store_inv st fs dh ih -> store_clean fs (st_dir st) -> rooted fs -> single_segment st ->
  wpc crashes_only compact st fs
    (fun _ _ _ => True) (fun _ _ _ => False)
    (fun fs' => exists hist, kv_of hist = kv_of ih /\
       store_recoverable (crash_fs cut fs') (st_dir st) hist).
Proof.
  intros Hi Hc Hr Hss. pose proof (si_mem _ _ _ _ Hi) as [Hidx Hsort _ _].
  pose proof (compact_records_kv st ih Hidx Hsort) as Hkv.
  eapply wpc_mono; [apply (wpc_compact st fs dh ih); try done; by intros []|done|done|].
  intros fs' (_ & [Hd|[Hd|Hint]]).
  - exists dh. split; [apply Hi|]. apply store_recoverable_crash. by left.
  - exists (compact_records st).1. split; [done|]. apply store_recoverable_crash. by left.
  - exists (compact_records st).1. split; [done|]. apply store_recoverable_crash. right.
    by eapply interrupted_pending.
Qed.

(** Whatever the number of segments, a crash inside [compact] leaves the old log, the compacted
    one, or an unfinished compaction whose compacted log denotes the same map. *)
Theorem compact_crash_states (st : Store) (fs : fsys) (dh ih : list LogRecord) (cut : path -> nat) :
  store_inv st fs dh ih -> store_clean fs (st_dir st) -> rooted fs ->
  wpc crashes_only compact st fs
    (fun _ _ _ => True) (fun _ _ _ => False)
    (fun fs' => exists hist, kv_of hist = kv_of ih /\
       ((exists torn, store_disk (crash_fs cut fs') (st_dir st) hist torn) \/
        exists T0, unfinished (st_dir st) T0 hist (crash_fs cut fs'))).
Proof.
  intros Hi Hc Hr. pose proof (si_mem _ _ _ _ Hi) as [Hidx Hsort _ _].
  pose proof (compact_records_kv st ih Hidx Hsort) as Hkv.
  eapply wpc_mono; [apply (wpc_compact st fs dh ih); try done; by intros []|done|done|].
  intros fs' (_ & [[torn Hd]|[[torn Hd]|Hint]]).
  - exists dh. split; [apply Hi|]. left. by eapply store_disk_crash.
  - exists (compact_records st).1. split; [done|]. left. by eapply store_disk_crash.
  - exists (compact_records st).1. split; [done|]. right.
    destruct (interrupted_unfinished _ _ _ _ Hint) as [T0 Hu]. exists T0. by apply unfinished_crash.
Qed.

(** C7: Recovery of an interrupted compaction, for any number of segments. The compaction into the
    segments [T0] is committed and unfinished, and either the swap has not begun, or no old segment
    is left in the directory but those that a compacted one of the same name replaces; in between,
    when a crash hits the renames of the first step and leaves such a segment behind, an old value
    can come back (C36). Then [open] finishes the swap and returns a store that denotes the
    compacted history, with all scratch entries gone. If the process crashes again inside [open],
    the directory that is left holds the compacted log alone or is again that of the unfinished
    compaction, and when no old segment was left before none is left after, so that the same holds
    of the next [open], however often it crashes. *)
Theorem open_finishes_compaction (fs : fsys) (dir : path) (T0 : gmap bytes File) (hist : list LogRecord) :
  unfinished dir T0 hist fs ->
  not_begun dir fs \/ no_old_segment dir T0 fs ->
  wpc crashes_only (store_open dir) tt fs
    (fun st _ fs' => store_inv st fs' hist hist /\ (forall k, store_get st k = kv_of hist !! k) /\
       store_clean fs' dir)
    (fun _ _ _ => False)
    (fun fs' => forall cut, let fs'' := crash_fs cut fs' in
       (exists torn, store_disk fs'' dir hist torn) \/
       (unfinished dir T0 hist fs'' /\ (no_old_segment dir T0 fs -> no_old_segment dir T0 fs''))).
Proof.
  intros Hu Hfi.
  eapply wpc_mono; [apply (wpc_store_open_unfinished fs dir T0 hist); [by intros []|done|done]| |done|].
  - intros st [] fs' (Hi & _ & _ & Hc). split; [done|]. split; [|done].
    intros k. apply store_get_kv, Hi.
  - intros fs' [_ Hr] cut. by apply finished_or_not_crash.
Qed.

(** Compaction reclaims everything that cannot be read: when no snapshot is held, the
    compacted log has exactly one record for every live key, in the order of the original
    sequence numbers, and no tombstone. *)
Theorem compact_minimal (st : Store) (ih : list LogRecord) :
  mem_inv st ih -> held_snapshots st = ∅ ->
  length (compact_records st).1 = size (kv_of ih) /\
  sorted_hist (compact_records st).1 /\
  Forall (fun r => record_type r = Put /\ kv_of ih !! key r = Some (value r)) (compact_records st).1.
Proof.
  intros [Hidx Hsort _ _] Hh. assert (oldest_held_snapshot_seq st = None) as Hn.
  { unfold oldest_held_snapshot_seq. rewrite Hh, map_to_list_empty. done. }
  split; [by rewrite compact_length, (compact_live_keys st ih)|].
  split; [by apply (compact_records_sorted st ih)|].
  apply Forall_forall. intros r (k & v & Hv & ->)%(elem_of_compact_records st ih Hidx).
  rewrite Hn in Hv. simpl in Hv. apply list_elem_of_filter in Hv as [Hl Hv].
  unfold is_live in Hl. apply bool_decide_eq_true in Hl as [val Hval].
  rewrite version_record_key, kv_of_lookup.
  destruct (last (hist_versions ih k)) as [v'|]; simpl in Hv; [|by apply not_elem_of_nil in Hv].
  apply list_elem_of_singleton in Hv as <-. simpl. unfold version_record. by rewrite Hval.
Qed.
End compact_properties.

(** ** Concrete compactions *)

Section compact_witnesses.
#[local] Existing Instances sum_crc32 map_order.

Lemma example_fs_rooted : rooted example_fs.
Proof.
  unfold example_fs. apply rooted_put. unfold example_root. apply rooted_insert.
  - intros n d [= <- <-]. unfold empty_fs. rewrite lookup_singleton_eq. by eexists.
  - intros n d. unfold empty_fs. rewrite lookup_singleton_ne by done. by intros [].
Qed.

(** The example store in the middle of a swap: the old segment is in the backup directory, the
    compacted one still in the temporary directory. *)
Definition example_segments : gmap bytes File := {[segment_name 0 := sfile [example_record]]}.

Definition example_swap : fsys :=
  <[example_dir := {[COMPACT_READY_MARKER := empty_file]}]>
    (<[tmp_of example_dir := example_segments]>
      (<[backup_of example_dir := example_segments]> example_root)).

Lemma example_swap_other (q : path) :
  q <> example_dir -> q <> tmp_of example_dir -> q <> backup_of example_dir ->
  example_swap !! q = example_root !! q.
Proof. intros H1 H2 H3. unfold example_swap. by rewrite !lookup_insert_ne by done. Qed.

Lemma example_swap_deep (n m : bytes) : example_swap !! (n :: m :: example_dir) = None.
Proof.
  rewrite example_swap_other by (intros [=]). unfold example_root, empty_fs.
  rewrite lookup_insert_ne by (by intros [=]). by apply lookup_singleton_ne.
Qed.

Lemma example_swap_sub (n : bytes) :
  is_Some (example_swap !! (n :: example_dir)) -> n = COMPACT_TMP_DIR \/ n = COMPACT_OLD_BACKUP_DIR.
Proof.
  intros Hs. destruct (decide (n = COMPACT_TMP_DIR)) as [|H1]; [by left|].
  destruct (decide (n = COMPACT_OLD_BACKUP_DIR)) as [|H2]; [by right|].
  rewrite example_swap_other in Hs; [|by intros [=]|by intros [=]|by intros [=]].
  rewrite example_root_sub in Hs. by destruct Hs.
Qed.

Lemma example_swap_unfinished :
  unfinished example_dir example_segments [example_record] example_swap.
Proof.
  exists {[COMPACT_READY_MARKER := empty_file]}.
  assert (log_files example_segments [example_record]) as Hlf.
  { apply (log_files_of_dir example_log example_fs); [apply example_log_holds| |].
    { change (put_file (segment_name 0 :: example_dir) (sfile [example_record]) example_root
        !! example_dir = Some example_segments).
      rewrite (put_file_dir _ _ _ _ ∅) by apply lookup_insert_eq. by rewrite insert_empty. }
    intros n Hn. unfold example_segments in Hn. apply lookup_singleton_is_Some in Hn as <-. by_compute. }
  split; [|left].
  - split.
    + done.
    + by repeat constructor.
    + intros q [-> | ->%suffix_nil_inv]%suffix_cons_or; by_compute.
    + intros n [-> | ->]%example_swap_sub; by_compute.
    + by_compute.
    + by_compute.
    + intros n [-> | [-> | ->]]; by_compute.
  - exists example_segments. split.
    { unfold example_swap. rewrite lookup_insert_eq. unfold moved.
      by rewrite map_difference_diag, map_empty_union. }
    split; [done|]. split; [|split; [|left]].
    + intros n Hn. unfold example_segments in Hn. apply lookup_singleton_is_Some in Hn as <-. by_compute.
    + intros n. apply example_swap_deep.
    + assert (example_swap !! tmp_of example_dir = Some example_segments) as ->.
      { unfold example_swap. rewrite lookup_insert_ne by by intros [=]. apply lookup_insert_eq. }
      split; [by_compute|done].
Qed.

Lemma example_swap_no_old_segment : no_old_segment example_dir example_segments example_swap.
Proof.
  intros n i Hp Hn. exfalso. unfold file_at, example_swap in Hn. simpl in Hn.
  rewrite lookup_insert_eq in Hn. simpl in Hn.
  apply lookup_singleton_is_Some in Hn as <-. by vm_compute in Hp.
Qed.

Lemma compact_preserves_store_witness :
  wpc no_faults compact example_store example_fs
    (fun rep st' fs' => exists records,
       rep = mkCompactionReport (size (kv_of [example_record])) (segment_count (st_log example_store))
               (segment_count (st_log st')) /\
       (forall k, store_get st' k = store_get example_store k) /\
       (forall k s, get_at st' k s = get_at example_store k s) /\
       kv_of records = kv_of [example_record] /\
       (forall s, held example_store s -> kv_at s records = kv_at s [example_record]) /\
       (forall cut, exists torn, store_disk (crash_fs cut fs') (st_dir example_store) records torn) /\
       (keeps_newest example_store [example_record] -> store_inv st' fs' records [example_record]))
    (fun _ _ _ => False) (fun _ => False).
Proof.
  apply (compact_preserves_store _ _ [example_record]);
    [apply example_store_inv|apply example_store_clean|apply example_fs_rooted].
Defined.

Lemma compact_crash_safe_witness :
  let cut := fun _ : path => 7 in
  wpc crashes_only compact example_store example_fs
    (fun _ _ _ => True) (fun _ _ _ => False)
    (fun fs' => exists hist, kv_of hist = kv_of [example_record] /\
       store_recoverable (crash_fs cut fs') (st_dir example_store) hist).
Proof.
  intros cut. apply (compact_crash_safe _ _ [example_record]);
    [apply example_store_inv|apply example_store_clean|apply example_fs_rooted|by split].
Defined.

Lemma compact_crash_states_witness :
  let cut := fun _ : path => 7 in
  wpc crashes_only compact example_store example_fs
    (fun _ _ _ => True) (fun _ _ _ => False)
    (fun fs' => exists hist, kv_of hist = kv_of [example_record] /\
       ((exists torn, store_disk (crash_fs cut fs') (st_dir example_store) hist torn) \/
        exists T0, unfinished (st_dir example_store) T0 hist (crash_fs cut fs'))).
Proof.
  intros cut. apply (compact_crash_states _ _ [example_record]);
    [apply example_store_inv|apply example_store_clean|apply example_fs_rooted].
Defined.

Lemma open_finishes_compaction_witness :
  wpc crashes_only (store_open example_dir) tt example_swap
    (fun st _ fs' => store_inv st fs' [example_record] [example_record] /\
       (forall k, store_get st k = kv_of [example_record] !! k) /\ store_clean fs' example_dir)
    (fun _ _ _ => False)
    (fun fs' => forall cut, let fs'' := crash_fs cut fs' in
       (exists torn, store_disk fs'' example_dir [example_record] torn) \/
       (unfinished example_dir example_segments [example_record] fs'' /\
        (no_old_segment example_dir example_segments example_swap ->
         no_old_segment example_dir example_segments fs''))).
Proof.
  apply open_finishes_compaction; [exact example_swap_unfinished|].
  right. exact example_swap_no_old_segment.
Defined.

Lemma compact_minimal_witness :
  length (compact_records example_store).1 = size (kv_of [example_record]) /\
  sorted_hist (compact_records example_store).1 /\
  Forall (fun r => record_type r = Put /\ kv_of [example_record] !! key r = Some (value r))
    (compact_records example_store).1.
Proof. apply compact_minimal; [apply (si_mem _ _ _ _ example_store_inv)|by_compute]. Defined.
End compact_witnesses.
