(* ===== verification/Stranded.v ===== *)
(** * Stranded: writes after a failed compaction

    A [compact] that fails behind its commit point leaves a store that still accepts writes, into
    the old log or into the placeholder log, and a directory whose next [open] takes neither of
    them: what happens to those writes. *)
From S2P Require Export CompactProps.

Section stranded.
Context `{Crc32, DirOrder}.

(** ** Writes into the placeholder directory *)

Lemma committed_below (dir : path) (T0 D1 : gmap bytes File) (hist : list LogRecord) (fs fs' : fsys) :
  log_files T0 hist -> below (placeholder_of dir) fs fs' -> committed dir T0 D1 fs ->
  committed dir T0 D1 fs'.
Proof.
  intros Hl Hb (T & Hd & Hsub & H1 & H2 & Hc). exists T.
  assert (fs' !! tmp_of dir = fs !! tmp_of dir) as Ht by (by eapply below_sibling; [exact Hb|by vm_compute]).
  assert (fs' !! backup_of dir = fs !! backup_of dir) as Hbk
    by (by eapply below_sibling; [exact Hb|by vm_compute]).
  split; [by rewrite (below_dir _ _ _ _ Hb)|]. split; [done|]. split; [|split; [|by rewrite Ht, Hbk]].
  - intros n Hn. rewrite (below_sibling _ _ _ _ _ Hb); [by apply H1|].
    intros <-. destruct (log_files_parse _ _ _ Hl Hn) as [i Hi]. by vm_compute in Hi.
  - intros n. rewrite Hb; [apply H2|]. unfold placeholder_of, tmp_of, path_join.
    intros [Heq|Hsuf]%suffix_cons_or; [apply (f_equal length) in Heq; simpl in Heq; lia|].
    by apply not_suffix_sibling in Hsuf; [|by vm_compute].
Qed.

Lemma unfinished_below (dir : path) (T0 : gmap bytes File) (hist : list LogRecord) (fs fs' : fsys) :
  below (placeholder_of dir) fs fs' -> unfinished dir T0 hist fs -> unfinished dir T0 hist fs'.
Proof.
  intros Hb (D1 & Hp & Hs). exists D1. split; [by eapply pending_below|].
  destruct Hs as [Hs|Hs]; [left; eapply committed_below; [apply Hp|done|done]|right; by eapply ready_below].
Qed.

Lemma finishable_below (dir : path) (T0 : gmap bytes File) (fs fs' : fsys) :
  below (placeholder_of dir) fs fs' -> finishable dir T0 fs -> finishable dir T0 fs'.
Proof.
  intros Hb [[Hbk Ht]|Hn]; [left|right].
  - unfold not_begun, backup_of, tmp_of, path_join in *. by split; rewrite (below_sibling _ _ _ _ _ Hb) by by vm_compute.
  - intros n i Hp. rewrite (below_file _ _ _ _ _ Hb). apply (Hn n i Hp).
Qed.

(** ** Writes into the old log *)

(** The segments of the old log change, and [open] will throw them away. *)
Lemma not_begun_frame (dir : path) (fs fs' : fsys) :
  log_frame dir fs fs' -> not_begun dir fs -> not_begun dir fs'.
Proof. intros (Hd & _) [Hb Ht]. split; rewrite Hd; try done; apply cons_ne_self. Qed.

Lemma ready_frame (dir : path) (T0 D0 D : gmap bytes File) (fs fs' : fsys) :
  log_frame dir fs fs' -> fs' !! dir = Some D -> ready dir T0 D0 fs -> ready dir T0 D fs'.
Proof.
  intros (Hf & Hs & Hn & _) HD [Hd Ht Hb Hok Hds Htd Hbd Hnm].
  assert (forall n : bytes, fs' !! (n :: dir) = fs !! (n :: dir)) as Hsub by (intros n; apply Hf, cons_ne_self).
  assert (forall n m : bytes, fs' !! (n :: m :: dir) = fs !! (n :: m :: dir)) as Hsub2.
  { intros n m. apply Hf. intros Heq%(f_equal length). simpl in Heq. lia. }
  split; try done.
  - unfold tmp_of, path_join. by rewrite Hsub.
  - destruct Hb as [Hb Hbf]. unfold backup_of, path_join in *. split; [by rewrite Hsub|].
    by rewrite Hn by by vm_compute.
  - intros q Hq. destruct (decide (q = dir)) as [->|Hne]; [by rewrite HD|]. rewrite Hf by done. by apply Hok.
  - intros n. rewrite Hsub. apply Hds.
  - intros n. unfold tmp_of, path_join. by rewrite Hsub2.
  - intros n. unfold backup_of, path_join. by rewrite Hsub2.
Qed.

Lemma pending_frame_log (dir : path) (T0 D0 D : gmap bytes File) (hist : list LogRecord) (fs fs' : fsys) :
  log_frame dir fs fs' -> fs !! dir = Some D0 -> fs' !! dir = Some D ->
  pending dir T0 D0 hist fs -> pending dir T0 D hist fs'.
Proof.
  intros (Hf & Hs & Hn & _) HD0 HD [H1 H2 Hok Hds Hmd Hm Hfr].
  assert (forall n, parse_segment_name n = None -> D !! n = D0 !! n) as HDn.
  { intros n Hp. specialize (Hn n Hp). unfold file_at in Hn. by rewrite HD, HD0 in Hn. }
  split; try done.
  - intros q Hq. destruct (decide (q = dir)) as [->|Hne]; [by rewrite HD|]. rewrite Hf by done. by apply Hok.
  - intros n. rewrite Hf by apply cons_ne_self. apply Hds.
  - rewrite Hf by apply cons_ne_self. done.
  - by rewrite HDn by by vm_compute.
  - intros n Hsc. rewrite HDn; [by apply Hfr|]. by destruct Hsc as [-> | [-> | ->]]; vm_compute.
Qed.

Lemma unfinished_frame (dir : path) (T0 : gmap bytes File) (hist : list LogRecord) (fs fs' : fsys) :
  log_frame dir fs fs' -> not_begun dir fs -> unfinished dir T0 hist fs -> unfinished dir T0 hist fs'.
Proof.
  intros Hf Hn Hu. destruct (unfinished_not_begun _ _ _ _ Hu Hn) as (D0 & Hp & Hr).
  pose proof (rd_dir _ _ _ _ Hr) as HD0. pose proof Hf as (_ & [_ Hs] & _).
  destruct Hs as [D HD]; [by rewrite HD0|].
  exists D. split; [by eapply pending_frame_log|right; by eapply ready_frame].
Qed.

(** ** Stranded stores *)

(** What a failed [compact] can leave: a store that writes to a log which the next [open] of its
    directory, from which it recovers [hist], does not read. The compaction failed
    - behind the commit marker and before the placeholder log was installed,
    - inside the swap, with the placeholder as the log of the store, or
    - behind the swap, when the compacted log could not be opened. *)
Inductive stranded (st : Store) (fs : fsys) (hist : list LogRecord) : Prop :=
| stranded_committed (T0 : gmap bytes File) :
    log_dir (st_log st) = st_dir st -> unfinished (st_dir st) T0 hist fs -> not_begun (st_dir st) fs ->
    stranded st fs hist
| stranded_swapping (T0 : gmap bytes File) :
    log_dir (st_log st) = placeholder_of (st_dir st) -> unfinished (st_dir st) T0 hist fs ->
    not_begun (st_dir st) fs \/ no_old_segment (st_dir st) T0 fs -> stranded st fs hist
| stranded_swapped (torn : bool) :
    log_dir (st_log st) = placeholder_of (st_dir st) -> store_disk fs (st_dir st) hist torn ->
    stranded st fs hist.

Lemma stranded_frame (st st' : Store) (fs fs' : fsys) (hist : list LogRecord) :
  log_frame (log_dir (st_log st)) fs fs' -> st_dir st' = st_dir st ->
  log_dir (st_log st') = log_dir (st_log st) -> stranded st fs hist -> stranded st' fs' hist.
Proof.
  intros Hf Hd Hl [T0 Hld Hu Hn|T0 Hld Hu Hn|torn Hld Hs].
  - rewrite Hld in Hf. apply (stranded_committed _ _ _ T0); rewrite ?Hd; [congruence|by eapply unfinished_frame|].
    by eapply not_begun_frame.
  - rewrite Hld in Hf. apply below_log_frame in Hf.
    apply (stranded_swapping _ _ _ T0); rewrite ?Hd; [congruence|by eapply unfinished_below|].
    by eapply finishable_below.
  - rewrite Hld in Hf. apply below_log_frame in Hf.
    apply (stranded_swapped _ _ _ torn); rewrite ?Hd; [congruence|].
    eapply store_disk_below; [by right|done|done].
Qed.

(** The next [open] recovers [hist]. *)
Lemma wpc_open_stranded (st : Store) (fs : fsys) (hist : list LogRecord) :
  stranded st fs hist ->
  wpc no_faults (store_open (st_dir st)) tt fs
    (fun st2 _ fs' => store_inv st2 fs' hist hist /\ (forall k, store_get st2 k = kv_of hist !! k))
    (fun _ _ _ => False) (fun _ => False).
Proof.
  assert (~ may_err no_faults) as HF by by intros [].
  assert (forall C, wpc no_faults (store_open (st_dir st)) tt fs
      (fun st2 _ fs' => store_inv st2 fs' hist hist /\ st_dir st2 = st_dir st /\
         held_snapshots st2 = ∅ /\ store_clean fs' (st_dir st)) (fun _ _ _ => False)
      (fun fs' => may_crash no_faults /\ C fs') ->
    wpc no_faults (store_open (st_dir st)) tt fs
      (fun st2 _ fs' => store_inv st2 fs' hist hist /\ (forall k, store_get st2 k = kv_of hist !! k))
      (fun _ _ _ => False) (fun _ => False)) as Hw.
  { intros C Hw. eapply wpc_mono; [exact Hw| |done|by intros fs' [[] _]].
    intros st2 [] fs' (Hi & _). split; [done|]. intros k. apply store_get_kv, Hi. }
  intros [T0 _ Hu Hn|T0 _ Hu Hn|torn _ Hd]; eapply Hw.
  - apply (wpc_store_open_unfinished fs (st_dir st) T0 hist); [done|done|by left].
  - by apply (wpc_store_open_unfinished fs (st_dir st) T0 hist).
  - apply (wpc_store_open_any fs (st_dir st) hist); [done|left; by exists torn].
Qed.

(** ** A write to a stranded store *)

Definition write (op : WriteOp) : M Store StoreError unit :=
  match op with OpPut k v => store_put k v | OpDelete k => store_delete k end.

Definition op_value (op : WriteOp) : option bytes :=
  match op with OpPut _ v => Some v | OpDelete _ => None end.

Lemma store_get_push (k : bytes) (v : VersionEntry) (idx : Index) (st : Store) :
  store_get (set_index (index_push k v idx) st) k = ve_value v.
Proof.
  unfold store_get, index_push. simpl. rewrite lookup_insert_eq. simpl. by rewrite last_snoc.
Qed.

Lemma wpc_write (op : WriteOp) (st : Store) (fs : fsys) (lh : list LogRecord) :
  log_holds (st_log st) fs lh -> (active_id (st_log st) + 1 < 2 ^ 64)%Z -> wf_op op ->
  (next_of lh + 1 < 2 ^ 64)%Z ->
  wpc no_faults (write op) st fs
    (fun _ st' fs' => log_holds (st_log st') fs' (lh ++ batch_records (next_of lh) [op]) /\
       st_dir st' = st_dir st /\ log_dir (st_log st') = log_dir (st_log st) /\
       log_frame (log_dir (st_log st)) fs fs' /\ store_get st' (op_key op) = op_value op)
    (fun _ _ _ => False) (fun _ => False).
Proof.
  intros Hl Hid Hop Hn. pose proof (next_of_range lh) as Hr.
  destruct (log_holds_next _ _ _ Hl) as [Hseq _]. eapply (wpc_ext _ (apply_batch [op])).
  { intros w. destruct op; [apply store_put_batch|apply store_delete_batch]; lia. }
  unfold apply_batch. wpc_step. wpc_step. wpc_step.
  eapply wpc_mono; [apply (wpc_log_append_batch _ _ lh [op]); [done|done|by constructor|done]| | |].
  - intros a l' fs' (-> & Hl' & Hd' & _ & Hfr). wpc_steps. split; [exact Hl'|]. split; [done|].
    split; [done|]. split; [done|].
    by destruct op; (etrans; [apply store_get_push|]).
  - by intros e l' fs' [[] _].
  - by intros fs' [[] _].
Qed.

(** C37: A failed compaction makes the store lose its later writes, without any crash. A store is
    [stranded] when its compaction is committed, so that the next [open] of its directory recovers
    the compacted history, while its log is still the old one, or the placeholder log: the
    situation that a [compact] leaves which fails behind its commit marker. Every later write to
    such a store is acknowledged, synced to that log and read back, and leaves the store in the same
    situation; the next [open], without a fault or a crash, returns the compacted history, without
    the write. The witness takes the store from a [compact] that fails inside the swap;
    [failed_compaction_loses_next_write] in Limits evaluates the failures of the other operations. *)
Theorem failed_compaction_loses_writes (st : Store) (fs : fsys) (hist lh : list LogRecord) (op : WriteOp) :
  stranded st fs hist ->
  log_holds (st_log st) fs lh -> (active_id (st_log st) + 1 < 2 ^ 64)%Z -> wf_op op ->
  (next_of lh + 1 < 2 ^ 64)%Z ->
  wpc no_faults (write op) st fs
    (fun _ st' fs' =>
       store_get st' (op_key op) = op_value op /\ stranded st' fs' hist /\
       log_holds (st_log st') fs' (lh ++ batch_records (next_of lh) [op]) /\
       wpc no_faults (store_open (st_dir st)) tt fs'
         (fun st2 _ fs2 => store_inv st2 fs2 hist hist /\ (forall k, store_get st2 k = kv_of hist !! k))
         (fun _ _ _ => False) (fun _ => False))
    (fun _ _ _ => False) (fun _ => False).
Proof.
  intros Hs Hl Hid Hop Hn. eapply wpc_mono; [by apply (wpc_write op st fs lh)| |done|done].
  intros [] st' fs' (Hl' & Hd & Hld & Hf & Hg).
  pose proof (stranded_frame _ _ _ _ _ Hf Hd Hld Hs) as Hs'.
  split; [done|]. split; [done|]. split; [done|]. rewrite <-Hd. by apply wpc_open_stranded.
Qed.
End stranded.

(** ** A concrete failure *)

Section stranded_witness.
#[local] Existing Instances sum_crc32 map_order.

(** The example store compacts itself and the swap fails in its second step: the old segment is in
    the backup directory, the compacted one not in place, and the log of the store is the
    placeholder. *)
Definition failed_fs : fsys :=
  put_file (segment_path (placeholder_of example_dir) 0) (sfile [])
    (<[placeholder_of example_dir := ∅]> example_swap).

Definition placeholder_log : Log :=
  (opened (placeholder_of example_dir) DEFAULT_SEGMENT_MAX_BYTES [] 0 [] false).1.

Definition stranded_store : Store := set_log placeholder_log example_store.

Lemma example_compact_fails :
  compact example_store (mkWorld example_fs (replicate 25 FNone ++ [FErr 0])) =
    (Err (StIo EOther), stranded_store, mkWorld failed_fs []).
Proof. vm_compute. reflexivity. Qed.

Lemma failed_fs_fresh :
  fresh_dir (<[placeholder_of example_dir := ∅]> example_swap) (placeholder_of example_dir).
Proof.
  apply fresh_insert; [|intros m; apply example_swap_deep].
  destruct example_swap_unfinished as (D1 & Hp & _). apply Hp.
Qed.

Lemma placeholder_log_holds : log_holds placeholder_log failed_fs [].
Proof.
  apply (opened_holds _ _ _ [] 0 [] false); [|by_compute].
  apply disk_log_put_new; [|by_compute]. destruct failed_fs_fresh as (Hd & Hs & Hok).
  by apply disk_log_empty_dir.
Qed.

Lemma failed_fs_below : below (placeholder_of example_dir) example_swap failed_fs.
Proof.
  etrans; [apply (below_insert (placeholder_of example_dir) _ ∅)|].
  apply below_log_frame, log_frame_put. by_compute.
Qed.

Lemma example_stranded : stranded stranded_store failed_fs [example_record].
Proof.
  apply (stranded_swapping _ _ _ example_segments); [done| |].
  - eapply unfinished_below; [apply failed_fs_below|apply example_swap_unfinished].
  - eapply finishable_below; [apply failed_fs_below|right; apply example_swap_no_old_segment].
Qed.

Lemma failed_compaction_loses_writes_witness :
  exists st w,
    compact example_store (mkWorld example_fs (replicate 25 FNone ++ [FErr 0])) =
      (Err (StIo EOther), st, w) /\
    wpc no_faults (write (OpPut [x63] [x32])) st (w_fs w)
      (fun _ st' fs' =>
         store_get st' [x63] = Some [x32] /\ stranded st' fs' [example_record] /\
         log_holds (st_log st') fs' [record_put 0 [x63] [x32]] /\
         wpc no_faults (store_open example_dir) tt fs'
           (fun st2 _ fs2 => store_inv st2 fs2 [example_record] [example_record] /\
              (forall k, store_get st2 k = kv_of [example_record] !! k))
           (fun _ _ _ => False) (fun _ => False))
      (fun _ _ _ => False) (fun _ => False) /\
    kv_of [example_record] !! [x63] = None.
Proof.
  exists stranded_store, (mkWorld failed_fs []).
  split; [exact example_compact_fails|]. split; [|by_compute].
  apply (failed_compaction_loses_writes stranded_store failed_fs [example_record] [] (OpPut [x63] [x32]));
    [exact example_stranded|exact placeholder_log_holds|by_compute|by_compute|by_compute].
Defined.
End stranded_witness.
