(* ===== verification/Limits.v ===== *)
(** * Limits: executions that the guarantees do not cover

    Concrete runs of the vault, evaluated, that show where its promises end: sequence numbers that
    regress, interrupted operations that are not resumable, and failures after which an
    acknowledged write is lost. *)
From S2P Require Export Stranded.

(** A run that returns, decided by evaluation. *)
Lemma run_ok {S E A : Type} (m : M S E A) (s : S) (w : World) (P : A -> S -> World -> bool) :
  match m s w with (Ok a, s', w') => P a s' w' | _ => false end = true ->
  exists a s' w', m s w = (Ok a, s', w') /\ P a s' w' = true.
Proof. destruct (m s w) as [[[a|e| |] s'] w']; [eauto|done..]. Qed.

(** A run that crashes. *)
Lemma run_crash {S E A : Type} (m : M S E A) (s : S) (w : World) (P : World -> bool) :
  match m s w with (Crash, _, w') => P w' | _ => false end = true ->
  exists s' w', m s w = (Crash, s', w') /\ P w' = true.
Proof. destruct (m s w) as [[[a|e| |] s'] w']; [done|done|done|eauto]. Qed.

(** What a run that cannot fail ends in. *)
Lemma wpc_run {S E A : Type} (m : M S E A) (s : S) (fs : fsys) (Q : A -> S -> fsys -> Prop) :
  wpc no_faults m s fs Q (fun _ _ _ => False) (fun _ => False) ->
  exists a s' w', m s (mkWorld fs []) = (Ok a, s', w') /\ Q a s' (w_fs w').
Proof.
  intros Hw. specialize (Hw [] (Forall_nil_2 _)). destruct (m s (mkWorld fs [])) as [[[a|e| |] s'] w'];
    [|by destruct Hw..]. exists a, s', w'. by destruct Hw.
Qed.

(** The result of an operation, as a value: the failure of a call that a client survives. *)
Definition attempt {S E A : Type} (m : M S E A) : M S E bool := fun s w =>
  match m s w with
  | (Ok _, s', w') => (Ok true, s', w')
  | (Err _, s', w') => (Ok false, s', w')
  | (Panic, s', w') => (Panic, s', w')
  | (Crash, s', w') => (Crash, s', w')
  end.

Section limits.
#[local] Existing Instances sum_crc32 map_order.

(** Under the faults [fl] the operation [op] fails, the next [put] succeeds and is read back, and
    after a restart without any crash it is gone. *)
Definition loses_later_write {A : Type} (op : M Store StoreError A) (fl : list Fault) : Prop :=
  exists st w st2 w2,
    (ok ← attempt op; store_put [x63] [x32];; mret ok)
      example_store (mkWorld example_fs fl) = (Ok false, st, w) /\
    store_open example_dir tt w = (Ok st2, tt, w2) /\
    store_get st [x63] = Some [x32] /\ store_get st2 [x63] = None.

Lemma loses_later_write_run {A : Type} (op : M Store StoreError A) (fl : list Fault) :
  match (ok ← attempt op; store_put [x63] [x32];; mret ok) example_store (mkWorld example_fs fl) with
  | (Ok ok, st, w) =>
      match store_open example_dir tt w with
      | (Ok st2, _, _) =>
          bool_decide (ok = false /\ store_get st [x63] = Some [x32] /\ store_get st2 [x63] = None)
      | _ => false end
  | _ => false end = true -> loses_later_write op fl.
Proof.
  intros (ok & st & w & Hr & Hc)%(run_ok _ _ _ (fun ok st w => match store_open example_dir tt w with
    | (Ok st2, _, _) => bool_decide (ok = false /\ store_get st [x63] = Some [x32] /\ store_get st2 [x63] = None)
    | _ => false end)).
  destruct (store_open example_dir tt w) as [[[st2|e| |] []] w2] eqn:E; try discriminate Hc.
  apply bool_decide_eq_true in Hc as (-> & H1 & H2).
  exists st, w, st2, w2. exact (conj Hr (conj E (conj H1 H2))).
Qed.

(** A failed append loses the write behind it: wherever inside the record, of 23 bytes, its write
    stops, the bytes it wrote stay in the file before the cursor, and recovery cuts off the record
    behind them. *)
Theorem failed_append_loses_next_write (k : nat) :
  0 < k < 23 -> loses_later_write (store_put [x62] [x31]) [FErr k].
Proof.
  intros Hk. do 23 (destruct k as [|k]; [try lia; apply loses_later_write_run; vm_compute; reflexivity|]). lia.
Qed.

(** The operations of the compaction of the example store behind its commit point, up to the
    opening of the compacted log, but for the [exists] queries, whose failure is taken for an
    answer. *)
Definition behind_commit : list nat := [12; 13; 15; 16; 17; 18; 21; 22; 23; 25; 26; 27; 28; 29; 30; 32; 33; 34; 35; 36].

(** The failure of any of them makes the store lose its next write. *)
Theorem failed_compaction_loses_next_write :
  Forall (fun n => loses_later_write compact (replicate n FNone ++ [FErr 0])) behind_commit.
Proof. repeat constructor; apply loses_later_write_run; vm_compute; reflexivity. Qed.

(** A transient failure to inspect the temporary directory inside the swap erases the store: it is
    taken not to exist, its segments are not moved, it is removed with them, and so are the old
    segments; the compaction reports success, and the next [open] finds nothing. *)
Theorem failed_query_erases_swap :
  exists rep st w st2 w2,
    compact example_store (mkWorld example_fs (replicate 24 FNone ++ [FErr 0])) = (Ok rep, st, w) /\
    store_open example_dir tt w = (Ok st2, tt, w2) /\
    store_get example_store [x61] = Some [x62] /\ store_get st2 [x61] = None.
Proof.
  destruct (run_ok compact example_store (mkWorld example_fs (replicate 24 FNone ++ [FErr 0]))
    (fun _ _ w =>
      match store_open example_dir tt w with
      | (Ok st2, _, _) =>
          bool_decide (store_get example_store [x61] = Some [x62] /\ store_get st2 [x61] = None)
      | _ => false end)) as (rep & st & w & Hr & Hc); [vm_compute; reflexivity|].
  destruct (store_open example_dir tt w) as [[[st2|e| |] []] w2] eqn:E; try discriminate Hc.
  apply bool_decide_eq_true in Hc as [H1 H2].
  exists rep, st, w, st2, w2. exact (conj Hr (conj E (conj H1 H2))).
Qed.

(** What [open] reads need not be durable: the process is killed between the write of a record and
    its [sync_data]; the next [open] takes the record from the file cache, serves it and does not
    sync it, and after a loss of power it is gone. *)
Theorem recovered_record_not_durable :
  exists st1 w1 st2 w2 st3 w3,
    store_put [x62] [x63] example_store (mkWorld example_fs [FNone; FCrash 0]) = (Crash, st1, w1) /\
    store_open example_dir tt (mkWorld (w_fs w1) []) = (Ok st2, tt, w2) /\
    store_get st2 [x62] = Some [x63] /\
    store_open example_dir tt (mkWorld (crash_fs (fun _ => 0) (w_fs w2)) []) = (Ok st3, tt, w3) /\
    store_get st3 [x62] = None.
Proof.
  assert (match store_put [x62] [x63] example_store (mkWorld example_fs [FNone; FCrash 0]) with
    | (Crash, _, w1) =>
        match store_open example_dir tt (mkWorld (w_fs w1) []) with
        | (Ok st2, _, w2) => bool_decide (store_get st2 [x62] = Some [x63]) &&
            match store_open example_dir tt (mkWorld (crash_fs (fun _ => 0) (w_fs w2)) []) with
            | (Ok st3, _, _) => bool_decide (store_get st3 [x62] = None)
            | _ => false end
        | _ => false end
    | _ => false end = true) as Hc by (vm_compute; reflexivity).
  destruct (store_put [x62] [x63] example_store _) as [[[]st1] w1]; try discriminate Hc.
  destruct (store_open example_dir tt (mkWorld (w_fs w1) [])) as [[[st2|e| |] []] w2] eqn:E2; try discriminate Hc.
  apply andb_true_iff in Hc as [H2 Hc].
  destruct (store_open example_dir tt (mkWorld (crash_fs _ (w_fs w2)) [])) as [[[st3|e| |] []] w3] eqn:E3; try discriminate Hc.
  apply bool_decide_eq_true in H2, Hc.
  exists st1, w1, st2, w2, st3, w3. exact (conj eq_refl (conj E2 (conj H2 (conj E3 Hc)))).
Qed.

(** A directory with three segments that write the same key. *)
Definition three_segments : fsys :=
  put_file (segment_path example_dir 0) (sfile [record_put 0 [x61] [x31]])
    (put_file (segment_path example_dir 1) (sfile [record_put 1 [x61] [x32]])
      (put_file (segment_path example_dir 2) (sfile [record_put 2 [x61] [x33]]) example_root)).

(** C36: Two ways in which a compaction brings old values back. When the newest record is a tombstone and
    no snapshot is held, [compact] drops it and the reopened log numbers the next write below it:
    after one more [put], a snapshot taken then reads the deleted value, while [get] does not. And
    the first step of the swap is not resumable: with several segments, a crash between its
    renames leaves the backup directory incomplete; the next [open] takes the step for done, keeps
    an old segment behind the compacted one, and an overwritten value comes back. *)
Theorem compaction_revives_values :
  (exists st w,
    (store_put [x62] [x31];; store_delete [x62];; _ ← compact; store_put [x63] [x32])
      example_store (mkWorld example_fs []) = (Ok tt, st, w) /\
    store_get st [x62] = None /\ get_at st [x62] (snapshot st) = Some [x31]) /\
  exists w st2 w2,
    (st ← store_open example_dir; _ ← on st compact; mret tt)
      tt (mkWorld three_segments (replicate 36 FNone ++ [FCrash 0])) = (Crash, tt, w) /\
    (exists st0 w0, store_open example_dir tt (mkWorld three_segments []) = (Ok st0, tt, w0) /\
       store_get st0 [x61] = Some [x33]) /\
    store_open example_dir tt w = (Ok st2, tt, w2) /\ store_get st2 [x61] = Some [x32].
Proof.
  split.
  { destruct (run_ok (store_put [x62] [x31];; store_delete [x62];; _ ← compact; store_put [x63] [x32])
      example_store (mkWorld example_fs []) (fun _ st _ => bool_decide
        (store_get st [x62] = None /\ get_at st [x62] (snapshot st) = Some [x31])))
      as ([] & st & w & Hr & Hc%bool_decide_eq_true); [vm_compute; reflexivity|].
    exists st, w. exact (conj Hr Hc). }
  destruct (run_crash (st ← store_open example_dir; _ ← on st compact; mret tt)
    tt (mkWorld three_segments (replicate 36 FNone ++ [FCrash 0])) (fun w =>
      match store_open example_dir tt w with
      | (Ok st2, _, _) => bool_decide (store_get st2 [x61] = Some [x32])
      | _ => false end)) as ([] & w & Hr & Hc); [vm_compute; reflexivity|].
  destruct (run_ok (store_open example_dir) tt (mkWorld three_segments [])
    (fun st _ _ => bool_decide (store_get st [x61] = Some [x33]))) as (st0 & [] & w0 & Hr0 & Hc0);
    [vm_compute; reflexivity|]. apply bool_decide_eq_true in Hc0.
  destruct (store_open example_dir tt w) as [[[st2|e| |] []] w2] eqn:E; try discriminate Hc.
  apply bool_decide_eq_true in Hc. exists w, st2, w2.
  exact (conj Hr (conj (ex_intro _ st0 (ex_intro _ w0 (conj Hr0 Hc0))) (conj E Hc))).
Qed.

(** A transient failure to inspect the directory erases the log: [Path::exists] answers false
    when the query fails, so that [open] takes the log for empty, truncates the first segment and
    succeeds; the next [open] finds nothing. *)
Theorem failed_query_erases_log :
  exists st w st2 w2,
    store_open example_dir tt (mkWorld example_fs (replicate 4 FNone ++ [FErr 0])) = (Ok st, tt, w) /\
    store_open example_dir tt w = (Ok st2, tt, w2) /\
    store_get example_store [x61] = Some [x62] /\ store_get st2 [x61] = None.
Proof.
  destruct (run_ok (store_open example_dir) tt (mkWorld example_fs (replicate 4 FNone ++ [FErr 0]))
    (fun _ _ w =>
      match store_open example_dir tt w with
      | (Ok st2, _, _) =>
          bool_decide (store_get example_store [x61] = Some [x62] /\ store_get st2 [x61] = None)
      | _ => false end)) as (st & [] & w & Hr & Hc); [vm_compute; reflexivity|].
  destruct (store_open example_dir tt w) as [[[st2|e| |] []] w2] eqn:E; try discriminate Hc.
  apply bool_decide_eq_true in Hc as [H1 H2].
  exists st, w, st2, w2. exact (conj Hr (conj E (conj H1 H2))).
Qed.
End limits.
