(* ===== verification/Cli.v ===== *)
(** * Cli: the command line

    Models [crates/cli/src/main.rs]: each invocation of [vaultc] opens the vault in a directory,
    executes one command and prints lines. What the parser of the command line (clap) has read is
    the argument [cmd]; a line is what [println!] is given, in UTF-8. Includes the part of the
    standard library that prints bytes, [String::from_utf8_lossy]. *)
From S2P Require Export StoreProps.

(** ** [String::from_utf8_lossy] *)

Definition byte_in (lo hi : Z) (b : byte) : bool :=
  (lo <=? byte_to_Z b)%Z && (byte_to_Z b <=? hi)%Z.

(** The number of bytes of the character that starts with the byte; 0 when none does. *)
Definition utf8_char_width (lead : byte) : nat :=
  if byte_in 0 127 lead then 1
  else if byte_in 194 223 lead then 2
  else if byte_in 224 239 lead then 3
  else if byte_in 240 244 lead then 4
  else 0.

Definition continuation (b : byte) : bool := byte_in 128 191 b.

(** The second byte excludes overlong forms, surrogates and what is above the last character. *)
Definition second_ok (lead b : byte) : bool :=
  let l := byte_to_Z lead in
  if (l =? 224)%Z then byte_in 160 191 b
  else if (l =? 237)%Z then byte_in 128 159 b
  else if (l =? 240)%Z then byte_in 144 191 b
  else if (l =? 244)%Z then byte_in 128 143 b
  else continuation b.

(** Matches the bytes with the tests in order: whether all match, and how many did. *)
Fixpoint match_bytes (tests : list (byte -> bool)) (bs : bytes) : bool * nat :=
  match tests, bs with
  | [], _ => (true, 0)
  | ok :: tests', b :: bs' =>
      if ok b then let '(r, k) := match_bytes tests' bs' in (r, S k) else (false, 0)
  | _ :: _, [] => (false, 0)
  end.

(** The character that starts with [lead] and goes on in [bs]: whether it is whole, and how many
    bytes of [bs] belong to it. *)
Definition scan_char (lead : byte) (bs : bytes) : bool * nat :=
  match utf8_char_width lead with
  | 0 => (false, 0)
  | 1 => (true, 0)
  | w => match_bytes (second_ok lead :: replicate (w - 2) continuation) bs
  end.

(** U+FFFD in UTF-8. *)
Definition REPLACEMENT : bytes := [xef; xbf; xbd].

(** Every maximal broken part is replaced; each step takes at least one byte. *)
Fixpoint lossy_loop (fuel : nat) (bs : bytes) : bytes :=
  match fuel, bs with
  | S fuel', lead :: rest =>
      let '(ok, k) := scan_char lead rest in
      (if ok then lead :: take k rest else REPLACEMENT) ++ lossy_loop fuel' (drop k rest)
  | _, _ => []
  end.

Definition from_utf8_lossy (bs : bytes) : bytes := lossy_loop (length bs) bs.

(** ** The program *)

(** [enum Command]; a [String] is its bytes. *)
Inductive Command :=
| CmdPut (key value : bytes)
| CmdGet (key : bytes)
| CmdDelete (key : bytes)
| CmdScan (prefix : bytes)
| CmdStatus.

(** [format!("{} = {}", ..)] of an entry. *)
Definition entry_line (e : bytes * bytes) : bytes :=
  from_utf8_lossy e.1 ++ ascii " = " ++ from_utf8_lossy e.2.

Definition get_line (v : option bytes) : bytes :=
  match v with Some v => from_utf8_lossy v | None => ascii "(not found)" end.

Definition status_line (torn : bool) : bytes :=
  ascii "recovered_from_torn_tail: " ++ ascii (if torn then "true" else "false").

Section cli_ops.
Context `{Crc32, DirOrder}.

(** [main], from the parsed command line to the lines it prints; an error ends the process with a
    message and a non-zero exit code. *)
Definition main (dir : path) (cmd : Command) : M unit StoreError (list bytes) :=
  store ← store_open dir;
  match cmd with
  | CmdPut key value => '(_, _) ← on store (store_put key value); mret [ascii "ok"]
  | CmdGet key => mret [get_line (store_get store key)]
  | CmdDelete key => '(_, _) ← on store (store_delete key); mret [ascii "ok"]
  | CmdScan prefix => mret (entry_line <$> scan store prefix)
  | CmdStatus => mret [status_line (recovered_from_torn_tail store)]
  end.
End cli_ops.

(** ** Text prints as it is *)

(** The UTF-8 encoding of a Unicode scalar value, and the bytes of a [String]. *)
Definition is_char (c : Z) : Prop := (0 <= c < 55296 \/ 57344 <= c < 1114112)%Z.

Definition encode_char (c : Z) : bytes :=
  if (c <? 128)%Z then [byte_of_Z c]
  else if (c <? 2048)%Z then [byte_of_Z (192 + c / 64); byte_of_Z (128 + c mod 64)]
  else if (c <? 65536)%Z then
    [byte_of_Z (224 + c / 4096); byte_of_Z (128 + c / 64 mod 64); byte_of_Z (128 + c mod 64)]
  else
    [byte_of_Z (240 + c / 262144); byte_of_Z (128 + c / 4096 mod 64);
     byte_of_Z (128 + c / 64 mod 64); byte_of_Z (128 + c mod 64)].

Definition utf8 (bs : bytes) : Prop := exists cs, Forall is_char cs /\ bs = concat (encode_char <$> cs).

Lemma byte_in_of_Z (lo hi z : Z) :
  (0 <= z < 256)%Z -> byte_in lo hi (byte_of_Z z) = ((lo <=? z) && (z <=? hi))%Z.
Proof. intros Hz. unfold byte_in. by rewrite byte_to_of_Z, Z.mod_small. Qed.

Lemma continuation_of_Z (z : Z) : (0 <= z < 64)%Z -> continuation (byte_of_Z (128 + z)) = true.
Proof. intros Hz. unfold continuation. rewrite byte_in_of_Z; lia. Qed.

(** Evaluates the tests on the bytes of a character. *)
Ltac utf8_tests :=
  unfold utf8_char_width, second_ok, continuation; rewrite ?byte_to_of_Z, ?Z.mod_small, ?byte_in_of_Z by lia;
  repeat match goal with
    | |- context [(?a <=? ?b)%Z] => destruct (Z.leb_spec a b); try lia; cbn [andb]
    | |- context [(?a =? ?b)%Z] => destruct (Z.eqb_spec a b); try lia
    end; try reflexivity; lia.

Lemma scan_char_encode (c : Z) (tl : bytes) :
  is_char c ->
  exists lead rest, encode_char c = lead :: rest /\ scan_char lead (rest ++ tl) = (true, length rest).
Proof.
  unfold is_char, encode_char. intros Hc.
  pose proof (Z.mod_pos_bound c 64 ltac:(lia)). pose proof (Z.mod_pos_bound (c / 64) 64 ltac:(lia)).
  pose proof (Z.mod_pos_bound (c / 4096) 64 ltac:(lia)).
  assert (c = 64 * (c / 64) + c mod 64)%Z by (apply Z.div_mod; lia).
  assert (c / 64 = 64 * (c / 4096) + c / 64 mod 64)%Z.
  { change 4096%Z with (64 * 64)%Z. rewrite <-Z.div_div by lia. apply Z.div_mod. lia. }
  assert (c / 4096 = 64 * (c / 262144) + c / 4096 mod 64)%Z.
  { change 262144%Z with (4096 * 64)%Z. rewrite <-Z.div_div by lia. apply Z.div_mod. lia. }
  set (c1 := (c / 64)%Z) in *. set (c2 := (c / 4096)%Z) in *. set (c3 := (c / 262144)%Z) in *.
  set (m0 := (c mod 64)%Z) in *. set (m1 := (c1 mod 64)%Z) in *. set (m2 := (c2 mod 64)%Z) in *.
  clearbody c1 c2 c3 m0 m1 m2.
  destruct (Z.ltb_spec c 128); [|destruct (Z.ltb_spec c 2048); [|destruct (Z.ltb_spec c 65536)]];
    (eexists _, _; split; [reflexivity|]); unfold scan_char.
  - assert (utf8_char_width (byte_of_Z c) = 1) as Hw by utf8_tests. by rewrite Hw.
  - assert (utf8_char_width (byte_of_Z (192 + c1)) = 2) as Hw by utf8_tests.
    assert (second_ok (byte_of_Z (192 + c1)) (byte_of_Z (128 + m0)) = true) as Hok by utf8_tests.
    rewrite Hw. cbn [match_bytes app replicate Nat.sub]. by rewrite Hok.
  - assert (utf8_char_width (byte_of_Z (224 + c2)) = 3) as Hw by utf8_tests.
    assert (second_ok (byte_of_Z (224 + c2)) (byte_of_Z (128 + m1)) = true) as Hok by utf8_tests.
    rewrite Hw. cbn [match_bytes app replicate Nat.sub]. by rewrite Hok, continuation_of_Z.
  - assert (utf8_char_width (byte_of_Z (240 + c3)) = 4) as Hw by utf8_tests.
    assert (second_ok (byte_of_Z (240 + c3)) (byte_of_Z (128 + m2)) = true) as Hok by utf8_tests.
    rewrite Hw. cbn [match_bytes app replicate Nat.sub]. by rewrite Hok, !continuation_of_Z.
Qed.

Lemma encode_char_length (c : Z) : 0 < length (encode_char c).
Proof. unfold encode_char. repeat case_match; simpl; lia. Qed.

(** Text is printed as it is. *)
Lemma from_utf8_lossy_utf8 (bs : bytes) : utf8 bs -> from_utf8_lossy bs = bs.
Proof.
  intros (cs & Hcs & ->). unfold from_utf8_lossy.
  assert (forall fuel, length (concat (encode_char <$> cs)) <= fuel ->
    lossy_loop fuel (concat (encode_char <$> cs)) = concat (encode_char <$> cs)) as Hl; [|by apply Hl].
  induction Hcs as [|c cs Hc Hcs IH]; intros fuel Hf; [by destruct fuel|].
  cbn [fmap list_fmap concat] in *.
  destruct (scan_char_encode c (concat (encode_char <$> cs)) Hc) as (lead & rest & He & Hs).
  rewrite He in *. rewrite length_app in Hf. cbn [length app] in *. destruct fuel as [|fuel]; [lia|]. cbn [lossy_loop app].
  rewrite Hs. rewrite take_app_length, drop_app_length. cbn [app]. rewrite IH by lia. done.
Qed.
