(* ===== verification/CliProps.v ===== *)
(** * CliProps: the vault as a machine that answers commands

    A machine executes invocations of [vaultc] one after the other and may go down at any moment.
    Every run of it is a run of an abstract machine whose state is a map: acknowledged commands
    take effect in order, and a command during which the machine went down takes effect or not. *)
From S2P Require Export Cli.

(** ** The abstract machine *)

Definition cmd_op (cmd : Command) : option WriteOp :=
  match cmd with
  | CmdPut k v => Some (OpPut k v)
  | CmdDelete k => Some (OpDelete k)
  | _ => None
  end.

(** The effect of a command, and what it may print. *)
Definition run_cmd (kv : gmap bytes bytes) (cmd : Command) : gmap bytes bytes :=
  match cmd_op cmd with Some op => apply_op kv op | None => kv end.

Definition answers (kv : gmap bytes bytes) (cmd : Command) (out : list bytes) : Prop :=
  match cmd with
  | CmdPut _ _ | CmdDelete _ => out = [ascii "ok"]
  | CmdGet k => out = [get_line (kv !! k)]
  | CmdScan p => out = entry_line <$> bt_iter (with_prefix p kv)
  | CmdStatus => exists torn, out = [status_line torn]
  end.

(** A trace: the commands with what they printed, or nothing when the machine went down. *)
Abbreviation trace := (list (Command * option (list bytes))).

Inductive kv_run : gmap bytes bytes -> trace -> gmap bytes bytes -> Prop :=
| kv_run_nil kv : kv_run kv [] kv
| kv_run_answer kv cmd out tr kv' :
    answers kv cmd out -> kv_run (run_cmd kv cmd) tr kv' -> kv_run kv ((cmd, Some out) :: tr) kv'
| kv_run_lost kv cmd tr kv' : kv_run kv tr kv' -> kv_run kv ((cmd, None) :: tr) kv'
| kv_run_kept kv cmd tr kv' : kv_run (run_cmd kv cmd) tr kv' -> kv_run kv ((cmd, None) :: tr) kv'.

Definition wf_cmd (cmd : Command) : Prop :=
  match cmd_op cmd with Some op => wf_op op | None => True end.

Section cli_specs.
Context `{Crc32, DirOrder}.

Implicit Types (dir : path) (fs : fsys) (kv : gmap bytes bytes) (hist : list LogRecord).

(** ** The machine *)

(** Segment ids have not run out. *)
Definition room dir fs : Prop :=
  forall id, in_u64 id -> is_Some (file_at fs (segment_path dir id)) -> (id + 1 < 2 ^ 64)%Z.

(** Invocations in the directory [dir]: each one ends, or the machine goes down in the middle of it
    with whatever part of the file cache lost; between two of them the machine can go down too. *)
Inductive vault_run dir : fsys -> trace -> fsys -> Prop :=
| vault_run_nil fs : vault_run dir fs [] fs
| vault_run_answer fs cmd faults out w tr fs' :
    room dir fs -> wf_cmd cmd -> Forall (fault_ok crashes_only) faults ->
    main dir cmd tt (mkWorld fs faults) = (Ok out, tt, w) ->
    vault_run dir (w_fs w) tr fs' -> vault_run dir fs ((cmd, Some out) :: tr) fs'
| vault_run_down fs cmd faults w cut tr fs' :
    room dir fs -> wf_cmd cmd -> Forall (fault_ok crashes_only) faults ->
    main dir cmd tt (mkWorld fs faults) = (Crash, tt, w) ->
    vault_run dir (crash_fs cut (w_fs w)) tr fs' -> vault_run dir fs ((cmd, None) :: tr) fs'
| vault_run_power fs cut tr fs' :
    vault_run dir (crash_fs cut fs) tr fs' -> vault_run dir fs tr fs'.

(** The directory denotes the map, and [n] more writes can be numbered. *)
Definition vault_disk dir (n : nat) kv fs : Prop :=
  exists hist torn, store_disk fs dir hist torn /\ kv_of hist = kv /\
    (next_of hist + Z.of_nat n < 2 ^ 64)%Z.

Lemma vault_disk_crash (cut : path -> nat) dir (n : nat) kv fs :
  vault_disk dir n kv fs -> vault_disk dir n kv (crash_fs cut fs).
Proof.
  intros (hist & torn & Hd & Hrest). destruct (store_disk_crash cut _ _ _ _ Hd) as [torn' Hd'].
  by exists hist, torn'.
Qed.

Lemma vault_disk_weaken dir (n n' : nat) kv fs : n' <= n -> vault_disk dir n kv fs -> vault_disk dir n' kv fs.
Proof. intros Hn (hist & torn & Hd & Hk & Hx). exists hist, torn. split; [done|]. split; [done|lia]. Qed.

(** A closed store leaves its directory. *)
Lemma store_inv_disk (st : Store) fs dh ih :
  store_inv st fs dh ih -> store_clean fs (st_dir st) -> store_disk fs (st_dir st) dh false.
Proof.
  intros Hi Hc. split; [done| |apply (si_sorted _ _ _ _ Hi)].
  rewrite <-(si_dir _ _ _ _ Hi). apply log_holds_recoverable, Hi.
Qed.

(** The write of an invocation. *)
Definition write_cmd (op : WriteOp) : M Store StoreError unit :=
  match op with OpPut k v => store_put k v | OpDelete k => store_delete k end.

Lemma wpc_write_cmd dir (n : nat) (st : Store) fs hist (op : WriteOp) :
  store_inv st fs hist hist -> st_dir st = dir -> store_clean fs dir ->
  (active_id (st_log st) + 1 < 2 ^ 64)%Z -> wf_op op -> (next_of hist + Z.of_nat (S n) < 2 ^ 64)%Z ->
  wpc crashes_only (write_cmd op) st fs
    (fun _ _ fs' => vault_disk dir n (apply_op (kv_of hist) op) fs')
    (fun _ _ _ => False)
    (fun fs' => forall cut, vault_disk dir n (kv_of hist) (crash_fs cut fs') \/
       vault_disk dir n (apply_op (kv_of hist) op) (crash_fs cut fs')).
Proof.
  intros Hi <- Hc Ha Hop Hn. pose proof (next_of_range hist) as Hrange.
  destruct (log_holds_next _ _ _ (si_log _ _ _ _ Hi)) as [Hseq Hwf].
  assert (next_of hist + Z.of_nat (length [op]) < 2 ^ 64)%Z as Hn1 by (cbn [length]; lia).
  assert (Forall wf_op [op]) as Hops by by constructor.
  destruct (next_of_batch hist [op] Hwf Hops Hn1) as [Hwf' Hnx].
  assert (kv_of (hist ++ batch_records (next_of hist) [op]) = apply_op (kv_of hist) op) as Hkv
    by apply kv_of_batch.
  assert (sorted_hist (hist ++ batch_records (next_of hist) [op])) as Hs.
  { apply (sorted_hist_app _ _ (next_of hist)); [apply (si_sorted _ _ _ _ Hi)|apply sorted_batch|by apply wf_hist_lt_next|apply batch_records_ge]. }
  eapply (wpc_ext _ (apply_batch [op])).
  { intros w. destruct op; [apply store_put_batch|apply store_delete_batch]; lia. }
  eapply wpc_mono; [by apply (wpc_apply_batch (F := crashes_only) st fs hist hist [op])| | |].
  - intros [] st' fs' (Hi' & Hd & _ & Hfr). exists (hist ++ batch_records (next_of hist) [op]), false.
    rewrite <-Hd. split; [apply (store_inv_disk _ _ _ _ Hi'); rewrite Hd; by eapply store_clean_frame|].
    split; [done|]. rewrite Hnx. cbn [length]. lia.
  - by intros e st' fs' [[] _].
  - intros fs' (_ & Hp & Hfr) cut.
    apply wf_hist_app in Hwf' as [_ Hwr].
    destruct (store_crash_recovers _ _ _ _ _ cut Hp Hfr Hc Hwr Hs) as (k & torn & Hd).
    destruct k as [|k].
    + left. exists hist, torn. cbn [take] in Hd. rewrite app_nil_r in Hd. split; [done|]. split; [done|lia].
    + right. exists (hist ++ batch_records (next_of hist) [op]), torn.
      rewrite take_ge in Hd by (rewrite length_batch_records; cbn [length]; lia).
      split; [done|]. split; [done|]. rewrite Hnx. cbn [length]. lia.
Qed.

(** One invocation. *)
Lemma wpc_main dir (n : nat) kv fs (cmd : Command) :
  vault_disk dir (S n) kv fs -> room dir fs -> wf_cmd cmd ->
  wpc crashes_only (main dir cmd) tt fs
    (fun out _ fs' => answers kv cmd out /\ vault_disk dir n (run_cmd kv cmd) fs')
    (fun _ _ _ => False)
    (fun fs' => forall cut, vault_disk dir n kv (crash_fs cut fs') \/
       vault_disk dir n (run_cmd kv cmd) (crash_fs cut fs')).
Proof.
  intros (hist & torn & Hd & <- & Hn) Hroom Hcmd. unfold main. wpc_step.
  eapply wpc_mono; [apply (wpc_store_open_id (F := crashes_only) fs dir hist torn); [by intros []|done]| |done|].
  2: { intros fs' (_ & torn' & Hd') cut. left. apply vault_disk_crash. exists hist, torn'.
       split; [done|]. split; [done|lia]. }
  intros st [] fs' [(Hi & Hdir & Ht & _ & Hc) Hact].
  pose proof (si_log _ _ _ _ Hi) as (ss & rs & Hli).
  pose proof (Hroom _ (log_disk_id_u64 _ _ _ _ _ (li_disk _ _ _ _ _ Hli)) Hact) as Ha.
  assert (vault_disk dir n (kv_of hist) fs') as Hsame.
  { exists hist, false. rewrite <-Hdir. split; [|split; [done|lia]]. apply (store_inv_disk _ _ _ _ Hi).
    by rewrite Hdir. }
  assert (forall op, wf_op op ->
    wpc crashes_only ('(_, _) ← on st (write_cmd op); mret [ascii "ok"] : M unit StoreError _) tt fs'
      (fun out _ fs2 => out = [ascii "ok"] /\ vault_disk dir n (apply_op (kv_of hist) op) fs2)
      (fun _ _ _ => False)
      (fun fs2 => forall cut, vault_disk dir n (kv_of hist) (crash_fs cut fs2) \/
         vault_disk dir n (apply_op (kv_of hist) op) (crash_fs cut fs2))) as Hw.
  { intros op Hop. wpc_step. wpc_step.
    eapply wpc_mono; [by apply (wpc_write_cmd dir n st fs' hist op)| |done|done].
    intros [] st' fs2 Hd2. wpc_step. done. }
  unfold run_cmd, wf_cmd in *. destruct cmd as [k v|k|k|p|]; cbn [cmd_op answers] in *.
  - by apply (Hw (OpPut k v)).
  - wpc_step. split; [|done]. by rewrite (store_get_kv st hist k (si_mem _ _ _ _ Hi)).
  - by apply (Hw (OpDelete k)).
  - wpc_step. split; [|done]. by rewrite (scan_kv st hist p (si_mem _ _ _ _ Hi)).
  - wpc_step. split; [|done]. by exists torn; rewrite Ht.
Qed.

(** C1: End to end, the vault is a map: from a directory that denotes [kv], every run of invocations
    of the command line, of which any may be cut short by the machine going down at any operation
    and after any part of it, losing any part of the unsynced bytes, is a run of the abstract
    machine: what each command prints is right for the map at that time, acknowledged writes are
    never lost, an interrupted one takes effect entirely or not at all, and the directory left
    denotes the map left. In between, no invocation fails or panics. *)
Theorem vault_refines_map dir fs (tr : trace) fs' kv (n : nat) :
  vault_run dir fs tr fs' -> vault_disk dir (length tr + n) kv fs ->
  exists kv', kv_run kv tr kv' /\ vault_disk dir n kv' fs' /\
    forall cmd faults r s w, room dir fs' -> wf_cmd cmd -> Forall (fault_ok crashes_only) faults -> 0 < n ->
      main dir cmd tt (mkWorld fs' faults) = (r, s, w) -> (exists out, r = Ok out) \/ r = Crash.
Proof.
  intros Hrun. revert kv n. induction Hrun as [fs|fs cmd faults out w tr fs' Hr Hc Hf Hm _ IH|
    fs cmd faults w cut tr fs' Hr Hc Hf Hm _ IH|fs cut tr fs' _ IH]; intros kv n Hd.
  - exists kv. split; [constructor|]. split; [done|]. intros cmd faults r s w Hr Hc Hf Hn Hm.
    destruct n as [|n]; [lia|]. pose proof (wpc_main dir n kv fs cmd Hd Hr Hc faults Hf) as Hw.
    rewrite Hm in Hw. destruct Hw as [_ Hw]. destruct r; [left; eauto|done|done|by right].
  - pose proof (wpc_main dir _ kv fs cmd Hd Hr Hc faults Hf) as Hw. rewrite Hm in Hw.
    destruct Hw as (_ & Ha & Hd'). destruct (IH _ _ Hd') as (kv' & Hk & Hrest). exists kv'.
    split; [by constructor|exact Hrest].
  - pose proof (wpc_main dir _ kv fs cmd Hd Hr Hc faults Hf) as Hw. rewrite Hm in Hw.
    destruct Hw as (_ & Hcr). destruct (Hcr cut) as [Hd'|Hd'];
      destruct (IH _ _ Hd') as (kv' & Hk & Hrest); exists kv'; (split; [|exact Hrest]).
    + by apply kv_run_lost.
    + by apply kv_run_kept.
  - by apply IH, vault_disk_crash.
Qed.
End cli_specs.

(** ** A concrete run *)

Section cli_witnesses.
#[local] Existing Instances sum_crc32 map_order.

(** [room], decided on the names in the directory. *)
Definition has_room (dir : path) (fs : fsys) : bool :=
  forallb (fun name => match parse_segment_name name with
    | Some id => id + 1 <? 2 ^ 64
    | None => true end)%Z (map_to_list (default ∅ (fs !! dir))).*1.

Lemma has_room_spec (dir : path) (fs : fsys) : has_room dir fs = true -> room dir fs.
Proof.
  unfold has_room. rewrite forallb_forall. intros Hb id Hu [f Hf].
  unfold segment_path, path_join, file_at in Hf. destruct (fs !! dir) as [files|]; [|done].
  cbn [default from_option] in Hb. specialize (Hb (segment_name id)).
  rewrite (parse_segment_name_of id Hu) in Hb.
  assert (segment_name id ∈ (map_to_list files).*1) as Hin.
  { apply list_elem_of_fmap. exists (segment_name id, f). split; [done|]. by apply elem_of_map_to_list. }
  by apply list_elem_of_In, Hb, Z.ltb_lt in Hin.
Qed.

(** A read, a write cut short by the machine going down in the middle of its append, and a read. *)
Definition cli_world_1 : World := (main example_dir (CmdGet [x61]) tt (mkWorld example_fs [])).2.

Definition cli_faults : list Fault := replicate 10 FNone ++ [FCrash 5].

Definition cli_world_2 : World :=
  (main example_dir (CmdPut [x62] [x63]) tt (mkWorld (w_fs cli_world_1) cli_faults)).2.

Definition cli_fs_2 : fsys := crash_fs (fun _ => 30) (w_fs cli_world_2).

Definition cli_world_3 : World := (main example_dir CmdStatus tt (mkWorld cli_fs_2 [])).2.

Definition cli_trace : trace :=
  [(CmdGet [x61], Some [[x62]]); (CmdPut [x62] [x63], None); (CmdStatus, Some [status_line true])].

Lemma cli_run : vault_run example_dir example_fs cli_trace (w_fs cli_world_3).
Proof.
  apply (vault_run_answer _ _ _ [] _ cli_world_1); [by apply has_room_spec|done|done|vm_compute; reflexivity|].
  apply (vault_run_down _ _ _ cli_faults cli_world_2 (fun _ => 30));
    [apply has_room_spec; vm_compute; reflexivity|by vm_compute|by repeat constructor|vm_compute; reflexivity|].
  apply (vault_run_answer _ _ _ [] _ cli_world_3);
    [apply has_room_spec; vm_compute; reflexivity|done|done|vm_compute; reflexivity|constructor].
Qed.

Lemma vault_refines_map_witness :
  vault_run example_dir example_fs cli_trace (w_fs cli_world_3) /\
  exists kv', kv_run {[ [x61] := [x62] ]} cli_trace kv' /\ vault_disk example_dir 2 kv' (w_fs cli_world_3) /\
    forall cmd faults r s w, room example_dir (w_fs cli_world_3) -> wf_cmd cmd ->
      Forall (fault_ok crashes_only) faults -> 0 < 2 ->
      main example_dir cmd tt (mkWorld (w_fs cli_world_3) faults) = (r, s, w) ->
      (exists out, r = Ok out) \/ r = Crash.
Proof.
  split; [apply cli_run|]. apply (vault_refines_map _ example_fs); [apply cli_run|].
  exists [example_record], false. split; [apply example_store_disk|]. split; by_compute.
Defined.
End cli_witnesses.
