(* ===== verification/Txn.v ===== *)
(** * Txn: transactions with snapshot isolation

    Models [crates/storage/src/txn.rs]: transactions that buffer their writes against a held
    snapshot and commit under first-committer-wins conflict detection. The operations of the
    shared [TransactionalStore] run under its mutex, one at a time: each is a computation on the
    [Store] it protects, and a run of concurrent threads is a sequence of them. *)
From S2P Require Export StoreSpec.

(** [enum TxnError]. *)
Inductive TxnError :=
| Conflict (key : bytes)
| TxnStore (e : StoreError).

(** [struct Transaction]; the store it refers to is the state of the computations. *)
Record Transaction := mkTransaction {
  tx_snapshot : Snapshot;
  tx_guard : SnapshotGuard;
  tx_writes : gmap bytes (option bytes);
}.

Section txn_ops.
Context `{Crc32, DirOrder}.

(** [TransactionalStore::open]. *)
Definition txn_open (dir : path) : M unit StoreError Store := store_open dir.

(** [TransactionalStore::begin]. *)
Definition txn_begin {E : Type} : M Store E Transaction :=
  st ← get_state;
  let '(guard, st') := hold_snapshot st in
  modify (fun _ => st');;
  mret (mkTransaction (guard_snapshot guard) guard ∅).

(** [TransactionalStore::get] and [TransactionalStore::compact]. *)
Definition txn_store_get (st : Store) (key : bytes) : option bytes := store_get st key.

Definition txn_compact : M Store StoreError CompactionReport := compact.

(** [Transaction::get]. *)
Definition txn_get (tx : Transaction) (st : Store) (key : bytes) : option bytes :=
  match tx_writes tx !! key with
  | Some buffered => buffered
  | None => get_at st key (tx_snapshot tx)
  end.

Definition txn_put (key value : bytes) (tx : Transaction) : Transaction :=
  mkTransaction (tx_snapshot tx) (tx_guard tx) (<[key := Some value]> (tx_writes tx)).

Definition txn_delete (key : bytes) (tx : Transaction) : Transaction :=
  mkTransaction (tx_snapshot tx) (tx_guard tx) (<[key := None]> (tx_writes tx)).

(** The test of the conflict loop: a newer version was committed since the snapshot. *)
Definition conflicts (st : Store) (s : Snapshot) (key : bytes) : bool :=
  match latest_seq st key with
  | Some latest => (as_of_seq s <=? latest)%Z
  | None => false
  end.

(** The loop over the written keys: the first one that conflicts. *)
Definition find_conflict (st : Store) (s : Snapshot) (keys : list bytes) : option bytes :=
  head (filter (fun k => conflicts st s k = true) keys).

Definition write_op (e : bytes * option bytes) : WriteOp :=
  match e.2 with
  | Some v => OpPut e.1 v
  | None => OpDelete e.1
  end.

(** The body of [Transaction::commit]. *)
Definition commit_body (tx : Transaction) : M Store TxnError unit :=
  if decide (tx_writes tx = ∅) then mret tt
  else
    st ← get_state;
    match find_conflict st (tx_snapshot tx) (bt_keys (tx_writes tx)) with
    | Some key => throw (Conflict key)
    | None => map_err TxnStore (apply_batch (write_op <$> bt_iter (tx_writes tx)))
    end.

(** Dropping the transaction drops its guard. *)
Definition drop_txn (tx : Transaction) (st : Store) : Store :=
  set_held (guard_drop (tx_guard tx) (held_snapshots st)) st.

(** [Transaction::commit]: it consumes the transaction, which is dropped on every path. *)
Definition commit (tx : Transaction) : M Store TxnError unit := fun st w =>
  let '(r, st', w') := commit_body tx st w in (r, drop_txn tx st', w').

(** [Transaction::abort]. *)
Definition abort {E : Type} (tx : Transaction) : M Store E unit := modify (drop_txn tx).
End txn_ops.
