(* ===== verification/TxnSpec.v ===== *)
(** * TxnSpec: snapshot isolation of concurrent transactions

    The outcome of a commit, and the system of concurrent transactions over a shared store as a
    step relation: in every reachable state each open transaction reads the map the store denoted
    when it began, and the registry of held snapshots counts exactly the open transactions. *)
From S2P Require Export Limits Txn.

(** ** Applying the buffered writes *)

Lemma list_to_map_bt_iter {V} (m : gmap bytes V) : (list_to_map (bt_iter m) : gmap bytes V) = m.
Proof.
  apply map_eq. intros k. apply option_eq. intros v.
  rewrite <-elem_of_list_to_map by apply bt_iter_NoDup. apply elem_of_bt_iter.
Qed.

Lemma apply_write_ops (es : list (bytes * option bytes)) (kv : gmap bytes bytes) (k : bytes) :
  NoDup es.*1 ->
  foldl apply_op kv (write_op <$> es) !! k =
    match (list_to_map es : gmap bytes (option bytes)) !! k with Some b => b | None => kv !! k end.
Proof.
  revert kv. induction es as [|[k' b] es IH]; intros kv Hnd; [done|].
  apply NoDup_cons in Hnd as [Hn Hnd]. simpl. rewrite IH by done.
  destruct (decide (k' = k)) as [->|Hne].
  - rewrite lookup_insert_eq, (not_elem_of_list_to_map_1 es k) by done.
    unfold write_op. destruct b; simpl; [apply lookup_insert_eq|apply lookup_delete_eq].
  - rewrite lookup_insert_ne by done. case_match; [done|].
    unfold write_op. destruct b; simpl; [by apply lookup_insert_ne|by apply lookup_delete_ne].
Qed.

(** A transaction's view of a map: its buffered writes over it. *)
Definition overlay (writes : gmap bytes (option bytes)) (kv : gmap bytes bytes) (k : bytes) :
    option bytes :=
  match writes !! k with Some b => b | None => kv !! k end.

Lemma apply_writes (writes : gmap bytes (option bytes)) (kv : gmap bytes bytes) (k : bytes) :
  foldl apply_op kv (write_op <$> bt_iter writes) !! k = overlay writes kv k.
Proof.
  rewrite apply_write_ops by apply bt_iter_NoDup. unfold overlay. by rewrite list_to_map_bt_iter.
Qed.

(** ** Conflicts *)

Lemma latest_seq_spec (st : Store) (ih : list LogRecord) (k : bytes) :
  mem_inv st ih -> latest_seq st k = ve_seq <$> last (hist_versions ih k).
Proof.
  intros Hm. unfold latest_seq. rewrite (mi_index _ _ Hm), lookup_index_of.
  destruct (hist_versions ih k) as [|v vs]; [done|]. simpl (_ ≫= _).
  by destruct (last (v :: vs)).
Qed.

(** Without a conflict, every version of the key is older than the snapshot. *)
Lemma no_conflict_before (st : Store) (ih : list LogRecord) (s : Snapshot) (k : bytes) :
  mem_inv st ih -> conflicts st s k = false ->
  filter (fun v => (ve_seq v <? as_of_seq s)%Z = true) (hist_versions ih k) = hist_versions ih k.
Proof.
  intros Hm Hc. unfold conflicts in Hc. rewrite (latest_seq_spec st ih k Hm) in Hc.
  pose proof (hist_versions_sorted ih k (mi_sorted _ _ Hm)) as Hs.
  destruct (last (hist_versions ih k)) as [v|] eqn:E; simpl in Hc.
  - apply Z.leb_gt in Hc. apply last_Some in E as [vs E]. rewrite E in Hs |- *.
    apply filter_all, Forall_forall. intros v' Hv'. apply Z.ltb_lt.
    apply elem_of_app in Hv' as [Hv' | ->%list_elem_of_singleton]; [|lia].
    assert (ve_lt v' v) by (eapply StronglySorted_app_1_elem_of; [exact Hs|done|by left]).
    unfold ve_lt in *. lia.
  - apply last_None in E as ->. done.
Qed.

(** So the key has not changed since. *)
Lemma no_conflict_unchanged (st : Store) (ih : list LogRecord) (s : Snapshot) (k : bytes) :
  mem_inv st ih -> conflicts st s k = false -> store_get st k = get_at st k s.
Proof.
  intros Hm Hc. rewrite (store_get_kv _ _ _ Hm), (get_at_kv _ _ _ _ Hm), kv_of_lookup, kv_at_lookup.
  unfold version_at. rewrite rfind_last. cbn [as_of_seq].
  by rewrite (no_conflict_before st ih s k Hm Hc).
Qed.

Lemma head_elem_of {A} (l : list A) (x : A) : head l = Some x -> x ∈ l.
Proof. destruct l; simpl; [done|]. intros [= ->]. by left. Qed.

Lemma find_conflict_None (st : Store) (s : Snapshot) (keys : list bytes) :
  find_conflict st s keys = None <-> Forall (fun k => conflicts st s k = false) keys.
Proof.
  unfold find_conflict. rewrite head_None. split.
  - intros Hn. apply Forall_forall. intros k Hk. apply not_true_iff_false. intros Hc.
    assert (k ∈ filter (fun k => conflicts st s k = true) keys) as Hin by by apply list_elem_of_filter.
    rewrite Hn in Hin. by apply not_elem_of_nil in Hin.
  - intros Hf. apply filter_none. eapply Forall_impl; [done|]. by intros k ->.
Qed.

Section txn.
Context `{Crc32, DirOrder}.

Lemma mem_inv_held (st : Store) (ih : list LogRecord) (r : Registry) :
  mem_inv st ih -> mem_inv (set_held r st) ih.
Proof. by intros []. Qed.

Lemma length_write_ops (writes : gmap bytes (option bytes)) :
  length (write_op <$> bt_iter writes) = size writes.
Proof.
  rewrite length_fmap. unfold bt_iter. rewrite (Permutation_length (sort_by_perm _ _)).
  apply length_map_to_list.
Qed.

(** What a commit does to the store: nothing to the data, or the whole of its writes. *)
Lemma commit_mem (tx : Transaction) (st : Store) (ih : list LogRecord) (w : World) :
  mem_inv st ih -> (next_seq (st_log st) + Z.of_nat (size (tx_writes tx)) < 2 ^ 64)%Z ->
  let '(r, st', w') := commit tx st w in
  held_snapshots st' = guard_drop (tx_guard tx) (held_snapshots st) /\
  exists added, mem_inv st' (ih ++ added) /\
    Forall (fun r => next_seq (st_log st) <= seq r)%Z added /\
    (next_seq (st_log st) <= next_seq (st_log st'))%Z /\
    match r with
    | Ok _ => (tx_writes tx = ∅ \/
         Forall (fun k => conflicts st (tx_snapshot tx) k = false) (bt_keys (tx_writes tx))) /\
         kv_of (ih ++ added) = foldl apply_op (kv_of ih) (write_op <$> bt_iter (tx_writes tx))
    | Err (Conflict k) => added = [] /\ w' = w /\
         find_conflict st (tx_snapshot tx) (bt_keys (tx_writes tx)) = Some k
    | Err (TxnStore _) => added = []
    | _ => added = []
    end.
Proof.
  intros Hm Hb. unfold commit, commit_body.
  destruct (decide (tx_writes tx = ∅)) as [He|Hne].
  - unfold mret, M_ret. split; [done|]. exists []. rewrite app_nil_r.
    split; [by apply mem_inv_held|]. split; [done|]. split; [done|]. split; [by left|].
    rewrite He, bt_iter_empty. done.
  - unfold get_state, mbind, M_bind.
    destruct (find_conflict st (tx_snapshot tx) (bt_keys (tx_writes tx))) as [k|] eqn:Ec.
    + unfold throw. split; [done|]. exists []. rewrite app_nil_r. split; [by apply mem_inv_held|].
      split; [done|]. split; [done|]. done.
    + unfold map_err. rewrite <-length_write_ops in Hb.
      pose proof (apply_batch_mem (write_op <$> bt_iter (tx_writes tx)) st ih w Hm Hb) as Ha.
      destruct (apply_batch _ st w) as [[[[]|e| |] st'] w']; destruct Ha as [Hh [Ha Hn]];
        (split; [simpl; by rewrite Hh|]).
      * exists (batch_records (next_seq (st_log st)) (write_op <$> bt_iter (tx_writes tx))).
        split; [by apply mem_inv_held|]. split; [apply batch_records_ge|]. split; [simpl; lia|].
        split; [|apply kv_of_batch]. right. by apply find_conflict_None.
      * exists []. rewrite app_nil_r. split; [by apply mem_inv_held|]. split; [done|]. split; [simpl; lia|done].
      * exists []. rewrite app_nil_r. split; [by apply mem_inv_held|]. split; [done|]. split; [simpl; lia|done].
      * exists []. rewrite app_nil_r. split; [by apply mem_inv_held|]. split; [done|]. split; [simpl; lia|done].
Qed.
End txn.

(** ** Concurrent transactions *)

(** The map the store denotes, as its readers see it. *)
Definition current_map (st : Store) : gmap bytes bytes :=
  omap (fun vs => v ← last vs; ve_value v) (st_index st).

Lemma lookup_current_map (st : Store) (k : bytes) : current_map st !! k = store_get st k.
Proof. unfold current_map, store_get. rewrite lookup_omap. by destruct (st_index st !! k). Qed.

(** The store and the open transactions, each with the map the store denoted when it began. *)
Record System := mkSystem {
  sys_store : Store;
  sys_open : gmap nat (Transaction * gmap bytes bytes);
}.

Section system.
Context `{Crc32, DirOrder}.

(** One operation of one thread, under the mutex of the store. Every commit meets its own world:
    the disk may fail in any way. *)
Inductive sys_step : System -> System -> Prop :=
| step_begin i st op tx st' w w' :
    op !! i = None -> (txn_begin : M Store TxnError Transaction) st w = (Ok tx, st', w') ->
    sys_step (mkSystem st op) (mkSystem st' (<[i := (tx, current_map st)]> op))
| step_put i st op tx m k v :
    op !! i = Some (tx, m) -> sys_step (mkSystem st op) (mkSystem st (<[i := (txn_put k v tx, m)]> op))
| step_delete i st op tx m k :
    op !! i = Some (tx, m) -> sys_step (mkSystem st op) (mkSystem st (<[i := (txn_delete k tx, m)]> op))
| step_commit i st op tx m w r st' w' :
    op !! i = Some (tx, m) ->
    (next_seq (st_log st) + Z.of_nat (size (tx_writes tx)) < 2 ^ 64)%Z ->
    commit tx st w = (r, st', w') -> sys_step (mkSystem st op) (mkSystem st' (delete i op))
| step_abort i st op tx m w r st' w' :
    op !! i = Some (tx, m) -> (abort tx : M Store TxnError unit) st w = (r, st', w') ->
    sys_step (mkSystem st op) (mkSystem st' (delete i op)).

(** The number of open transactions whose snapshot is [s]. *)
Definition holders (s : Z) (op : gmap nat (Transaction * gmap bytes bytes)) : nat :=
  size (filter (fun e => as_of_seq (tx_snapshot e.2.1) = s) op).

Definition registry_counts (r : Registry) (op : gmap nat (Transaction * gmap bytes bytes)) : Prop :=
  forall s, r !! s = match holders s op with 0 => None | S n => Some (S n) end.

(** The invariant of the system, for the history [ih] of the store. *)
Record sys_inv (sys : System) (ih : list LogRecord) : Prop := {
  yi_mem : mem_inv (sys_store sys) ih;
  yi_open : forall i tx m, sys_open sys !! i = Some (tx, m) ->
    guard_snapshot (tx_guard tx) = tx_snapshot tx /\
    (as_of_seq (tx_snapshot tx) <= next_seq (st_log (sys_store sys)))%Z /\
    kv_at (as_of_seq (tx_snapshot tx)) ih = m;
  yi_registry : registry_counts (held_snapshots (sys_store sys)) (sys_open sys);
}.

Lemma holders_insert (s : Z) (i : nat) (tx : Transaction) (m : gmap bytes bytes)
    (op : gmap nat (Transaction * gmap bytes bytes)) :
  op !! i = None ->
  holders s (<[i := (tx, m)]> op) =
    if decide (as_of_seq (tx_snapshot tx) = s) then S (holders s op) else holders s op.
Proof.
  intros Hi. unfold holders. case_decide as Hd.
  - rewrite map_filter_insert_True by done. apply map_size_insert_None.
    rewrite map_lookup_filter, Hi. done.
  - rewrite map_filter_insert_False by done. by rewrite delete_id.
Qed.

Lemma holders_delete (s : Z) (i : nat) (tx : Transaction) (m : gmap bytes bytes)
    (op : gmap nat (Transaction * gmap bytes bytes)) :
  op !! i = Some (tx, m) ->
  holders s op =
    if decide (as_of_seq (tx_snapshot tx) = s) then S (holders s (delete i op))
    else holders s (delete i op).
Proof.
  intros Hi. rewrite <-(holders_insert s i tx m) by apply lookup_delete_eq.
  by rewrite insert_delete_id.
Qed.

Lemma holders_update (s : Z) (i : nat) (tx tx' : Transaction) (m : gmap bytes bytes)
    (op : gmap nat (Transaction * gmap bytes bytes)) :
  op !! i = Some (tx, m) -> tx_snapshot tx' = tx_snapshot tx ->
  holders s (<[i := (tx', m)]> op) = holders s op.
Proof.
  intros Hi Hs. rewrite (holders_delete s i tx m op Hi).
  rewrite <-insert_delete_eq, holders_insert by apply lookup_delete_eq. by rewrite Hs.
Qed.

(** Taking and dropping a guard keep the registry a count. *)
Lemma registry_begin (r : Registry) (op : gmap nat (Transaction * gmap bytes bytes)) (i : nat)
    (tx : Transaction) (m : gmap bytes bytes) :
  op !! i = None -> registry_counts r op ->
  let s := as_of_seq (tx_snapshot tx) in
  registry_counts (<[s := default 0 (r !! s) + 1]> r) (<[i := (tx, m)]> op).
Proof.
  intros Hi Hr s s'. rewrite holders_insert by done. fold s. destruct (decide (s = s')) as [<-|Hne].
  - rewrite lookup_insert_eq, (Hr s). destruct (holders s op); simpl; [done|]. f_equal. lia.
  - by rewrite lookup_insert_ne.
Qed.

Lemma registry_drop (r : Registry) (op : gmap nat (Transaction * gmap bytes bytes)) (i : nat)
    (tx : Transaction) (m : gmap bytes bytes) :
  op !! i = Some (tx, m) -> guard_snapshot (tx_guard tx) = tx_snapshot tx -> registry_counts r op ->
  registry_counts (guard_drop (tx_guard tx) r) (delete i op).
Proof.
  intros Hi Hg Hr s. unfold guard_drop. rewrite Hg. set (s0 := as_of_seq (tx_snapshot tx)).
  pose proof (holders_delete s0 i tx m op Hi) as Hs0. rewrite decide_True in Hs0 by done.
  pose proof (holders_delete s i tx m op Hi) as Hs1. fold s0 in Hs1.
  rewrite (Hr s0), Hs0. pose proof (Hr s) as Hs.
  destruct (decide (s0 = s)) as [<-|Hne].
  - replace (S (holders s0 (delete i op)) - 1) with (holders s0 (delete i op)) by lia.
    destruct (holders s0 (delete i op)) as [|n]; case_decide; try done.
    + apply lookup_delete_eq.
    + apply lookup_insert_eq.
  - rewrite <-Hs1, <-Hs. case_decide; [by rewrite lookup_delete_ne|by rewrite lookup_insert_ne].
Qed.

Lemma sys_inv_append (st st' : Store) (op : gmap nat (Transaction * gmap bytes bytes))
    (i : nat) (tx : Transaction) (m : gmap bytes bytes) (ih added : list LogRecord) :
  sys_inv (mkSystem st op) ih -> op !! i = Some (tx, m) -> mem_inv st' (ih ++ added) ->
  Forall (fun r => next_seq (st_log st) <= seq r)%Z added ->
  (next_seq (st_log st) <= next_seq (st_log st'))%Z ->
  held_snapshots st' = guard_drop (tx_guard tx) (held_snapshots st) ->
  sys_inv (mkSystem st' (delete i op)) (ih ++ added).
Proof.
  intros [Hm Ho Hr] Hi Hm' Ha Hn Hh. simpl in *. split; simpl.
  - done.
  - intros j tx' m' [_ Hj]%lookup_delete_Some. destruct (Ho j tx' m' Hj) as (G1 & G2 & G3).
    split; [done|]. split; [lia|]. unfold kv_at. rewrite hist_before_app; [done|].
    eapply Forall_impl; [done|]. intros r Hr'. cbv beta in *. lia.
  - rewrite Hh. eapply registry_drop; [done| |done]. by apply (Ho i tx m).
Qed.

(** Every step preserves the invariant, for a history that only grows. *)
Lemma sys_step_inv (sys sys' : System) (ih : list LogRecord) :
  sys_step sys sys' -> sys_inv sys ih -> exists added, sys_inv sys' (ih ++ added).
Proof.
  assert (forall i st op tx tx' m, op !! i = Some (tx, m) -> tx_guard tx' = tx_guard tx ->
    tx_snapshot tx' = tx_snapshot tx -> sys_inv (mkSystem st op) ih ->
    exists added, sys_inv (mkSystem st (<[i := (tx', m)]> op)) (ih ++ added)) as Hupd.
  { intros i st op tx tx' m Hi Hg Hs [Hm Ho Hr]. exists []. rewrite app_nil_r. split; simpl in *.
    - done.
    - intros j tx2 m2 [[<- [= <- <-]]|[_ Hj]]%lookup_insert_Some; [|by apply (Ho j)].
      rewrite Hg, Hs. by apply (Ho i).
    - intros s. rewrite (holders_update s i tx tx' m op Hi Hs). apply Hr. }
  intros Hstep. destruct Hstep as [i st op tx st' w w' Hi Hb|i st op tx m k v Hi|i st op tx m k Hi|
    i st op tx m w r st' w' Hi Hb Hc|i st op tx m w r st' w' Hi Ha].
  - intros [Hm Ho Hr]. exists []. rewrite app_nil_r. injection Hb as <- <- _. split; simpl in *.
    + by apply mem_inv_held.
    + intros j tx2 m2 [[<- [= <- <-]]|[_ Hj]]%lookup_insert_Some; [|by apply (Ho j)].
      split; [done|]. split; [simpl; lia|]. simpl. apply map_eq. intros k.
      rewrite lookup_current_map, (store_get_kv _ _ _ Hm). unfold kv_at.
      by rewrite hist_before_all by apply Hm.
    + by apply (registry_begin _ _ i (mkTransaction (snapshot st) (mkGuard (snapshot st)) ∅)).
  - by apply (Hupd i st op tx).
  - by apply (Hupd i st op tx).
  - intros Hinv. pose proof (commit_mem tx st ih w (yi_mem _ _ Hinv) Hb) as Hcm. rewrite Hc in Hcm.
    destruct Hcm as (Hh & added & Hm' & Hge & Hn & _). exists added. by eapply sys_inv_append.
  - intros Hinv. injection Ha as _ <- _. exists []. eapply (sys_inv_append st); try done.
    rewrite app_nil_r. by apply mem_inv_held, Hinv.
Qed.

Lemma sys_steps_inv (sys sys' : System) (ih : list LogRecord) :
  rtc sys_step sys sys' -> sys_inv sys ih -> exists added, sys_inv sys' (ih ++ added).
Proof.
  intros Hs. revert ih. induction Hs as [sys|sys1 sys2 sys3 Hs _ IH]; intros ih Hi.
  { exists []. by rewrite app_nil_r. }
  destruct (sys_step_inv _ _ _ Hs Hi) as [a1 H1]. destruct (IH _ H1) as [a2 H2].
  exists (a1 ++ a2). by rewrite app_assoc.
Qed.

Lemma sys_init_inv (st : Store) (ih : list LogRecord) :
  mem_inv st ih -> held_snapshots st = ∅ -> sys_inv (mkSystem st ∅) ih.
Proof.
  intros Hm Hh. split; simpl; [done| |].
  - intros i tx m. by rewrite lookup_empty.
  - intros s. rewrite Hh, lookup_empty. unfold holders. by rewrite map_filter_empty, map_size_empty.
Qed.
End system.

(** ** The properties of transactions *)

Section txn_properties.
Context `{Crc32, DirOrder}.

(** C22: The outcome of a commit, on every branch and whatever the disk does. The written keys that
    have a version since the snapshot decide: if there is one, the commit fails with [Conflict] on
    the first of them in key order, and nothing is read or written; if there is none, the commit
    can only fail with an error of the store, and then the store reads as before; if it succeeds,
    every key reads as the transaction's writes laid over the store. The guard is dropped on every
    branch. *)
Theorem commit_outcome (tx : Transaction) (st st' : Store) (ih : list LogRecord) (w w' : World)
    (r : Res TxnError unit) :
  mem_inv st ih -> (next_seq (st_log st) + Z.of_nat (size (tx_writes tx)) < 2 ^ 64)%Z ->
  commit tx st w = (r, st', w') ->
  let conflicting := filter (fun k => conflicts st (tx_snapshot tx) k = true) (bt_keys (tx_writes tx)) in
  held_snapshots st' = guard_drop (tx_guard tx) (held_snapshots st) /\
  match r with
  | Err (Conflict k) => head conflicting = Some k /\ w' = w /\ forall k', store_get st' k' = store_get st k'
  | Ok _ => conflicting = [] /\ forall k, store_get st' k = overlay (tx_writes tx) (current_map st) k
  | _ => conflicting = [] /\ forall k, store_get st' k = store_get st k
  end.
Proof.
  intros Hm Hb Hc conflicting. pose proof (commit_mem tx st ih w Hm Hb) as Hcm. rewrite Hc in Hcm.
  destruct Hcm as (Hh & added & Hm' & _ & _ & Hr). split; [done|].
  assert (current_map st = kv_of ih) as Hcur.
  { apply map_eq. intros k. by rewrite lookup_current_map, (store_get_kv _ _ _ Hm). }
  assert (added = [] -> forall k, store_get st' k = store_get st k) as Hsame.
  { intros -> k. rewrite app_nil_r in Hm'. by rewrite (store_get_kv _ _ _ Hm'), (store_get_kv _ _ _ Hm). }
  assert ((forall k, r <> Err (Conflict k)) -> conflicting = []) as Hnone.
  { intros Hne. destruct (head conflicting) as [k|] eqn:E; [|by apply head_None].
    exfalso. unfold commit, commit_body in Hc. destruct (decide (tx_writes tx = ∅)) as [He|Hnem].
    - unfold conflicting, bt_keys in E. by rewrite He, bt_iter_empty in E.
    - unfold get_state, mbind, M_bind in Hc.
      assert (find_conflict st (tx_snapshot tx) (bt_keys (tx_writes tx)) = Some k) as Hf by exact E.
      rewrite Hf in Hc. injection Hc as Hc _ _. by apply (Hne k). }
  destruct r as [[]|[k|e]| |].
  - split; [by apply Hnone|]. intros k. destruct Hr as [_ Hr].
    by rewrite (store_get_kv _ _ _ Hm'), Hr, apply_writes, Hcur.
  - destruct Hr as (Ha & Hw & Hf). split; [exact Hf|]. split; [done|by apply Hsame].
  - split; [by apply Hnone|by apply Hsame].
  - split; [by apply Hnone|by apply Hsame].
  - split; [by apply Hnone|by apply Hsame].
Qed.

(** C23: No lost update: when a commit succeeds, no key it writes has changed since the snapshot of
    the transaction: its value when the commit applies is the value the transaction read. *)
Theorem no_lost_update (tx : Transaction) (st st' : Store) (ih : list LogRecord) (w w' : World)
    (k : bytes) :
  mem_inv st ih -> (next_seq (st_log st) + Z.of_nat (size (tx_writes tx)) < 2 ^ 64)%Z ->
  commit tx st w = (Ok tt, st', w') -> is_Some (tx_writes tx !! k) ->
  store_get st k = get_at st k (tx_snapshot tx).
Proof.
  intros Hm Hb Hc Hk. pose proof (commit_mem tx st ih w Hm Hb) as Hcm. rewrite Hc in Hcm.
  destruct Hcm as (_ & added & _ & _ & _ & [He|Hf] & _).
  - rewrite He, lookup_empty in Hk. by destruct Hk.
  - apply (no_conflict_unchanged st ih); [done|]. rewrite Forall_forall in Hf.
    apply Hf. by apply elem_of_bt_keys.
Qed.

(** C21: Snapshot isolation of concurrent transactions: in every state that interleaved
    transactions can reach, whatever they commit and whatever fails, every open transaction reads
    its own buffered writes over the map the store denoted when it began. *)
Theorem transactions_isolated (st : Store) (ih : list LogRecord) (sys : System) (i : nat)
    (tx : Transaction) (m : gmap bytes bytes) (k : bytes) :
  mem_inv st ih -> held_snapshots st = ∅ -> rtc sys_step (mkSystem st ∅) sys ->
  sys_open sys !! i = Some (tx, m) -> txn_get tx (sys_store sys) k = overlay (tx_writes tx) m k.
Proof.
  intros Hm Hh Hs Hi. destruct (sys_steps_inv _ _ ih Hs (sys_init_inv _ _ Hm Hh)) as [added Hinv].
  destruct (yi_open _ _ Hinv i tx m Hi) as (_ & _ & Hkv). unfold txn_get, overlay.
  destruct (tx_writes tx !! k); [done|]. by rewrite (get_at_kv _ _ _ _ (yi_mem _ _ Hinv)), Hkv.
Qed.

(** C24: Compaction never invalidates an open transaction: in every reachable state the registry of
    held snapshots counts exactly the open transactions, the retention threshold is not above any
    of their snapshots, and the compacted log still denotes, as of each of them, the map the
    transaction began with. *)
Theorem compaction_keeps_transactions (st : Store) (ih : list LogRecord) (sys : System) :
  mem_inv st ih -> held_snapshots st = ∅ -> rtc sys_step (mkSystem st ∅) sys ->
  registry_counts (held_snapshots (sys_store sys)) (sys_open sys) /\
  forall i tx m, sys_open sys !! i = Some (tx, m) ->
    (exists t, oldest_held_snapshot_seq (sys_store sys) = Some t /\ (t <= as_of_seq (tx_snapshot tx))%Z) /\
    kv_at (as_of_seq (tx_snapshot tx)) (compact_records (sys_store sys)).1 = m.
Proof.
  intros Hm Hh Hs. destruct (sys_steps_inv _ _ ih Hs (sys_init_inv _ _ Hm Hh)) as [added Hinv].
  pose proof (yi_registry _ _ Hinv) as Hr. split; [done|]. intros i tx m Hi.
  destruct (yi_open _ _ Hinv i tx m Hi) as (_ & _ & Hkv).
  destruct (oldest_held_le (sys_store sys) (as_of_seq (tx_snapshot tx))) as (t & Ht & Hle).
  { unfold held. rewrite Hr, (holders_delete _ i tx m _ Hi), decide_True by done. by eexists. }
  split; [by exists t|]. pose proof (yi_mem _ _ Hinv) as [Hidx Hsort _ _].
  by rewrite (compact_records_kv_at _ _ Hidx Hsort t).
Qed.
End txn_properties.

(** ** Concrete transactions *)

Section txn_witnesses.
#[local] Existing Instances sum_crc32 map_order.

Definition example_world : World := mkWorld example_fs [].

(** A transaction that deletes the key of the example store and writes another. *)
Definition example_txn : Transaction :=
  txn_put [x63] [x64] (txn_delete [x61]
    (mkTransaction (snapshot example_store) (mkGuard (snapshot example_store)) ∅)).

Definition example_held : Store := (hold_snapshot example_store).2.

Lemma example_held_inv : mem_inv example_held [example_record].
Proof. apply mem_inv_held, (si_mem _ _ _ _ example_store_inv). Qed.

(** Two transactions: the first is open, the second has committed. *)
Definition example_begun : Transaction :=
  mkTransaction (snapshot example_store) (mkGuard (snapshot example_store)) ∅.

Definition example_both : Store := (hold_snapshot example_held).2.

Definition example_system : System :=
  mkSystem (commit example_txn example_both example_world).1.2
    {[0 := (example_begun, current_map example_store)]}.

Lemma example_run : rtc sys_step (mkSystem example_store ∅) example_system.
Proof.
  eapply rtc_l; [by eapply (step_begin 0 example_store ∅ example_begun example_held example_world)|].
  eapply rtc_l.
  { eapply (step_begin 1 example_held _ example_begun example_both example_world); [by_compute|done]. }
  eapply rtc_l; [eapply (step_delete 1 _ _ example_begun); apply lookup_insert_eq|].
  eapply rtc_l; [eapply (step_put 1 _ _ (txn_delete [x61] example_begun)); apply lookup_insert_eq|].
  apply rtc_once. unfold example_system.
  match goal with |- sys_step (mkSystem _ ?op) _ =>
    replace ({[0 := (example_begun, current_map example_store)]} :
      gmap nat (Transaction * gmap bytes bytes)) with (delete 1 op) end.
  - eapply (step_commit 1 _ _ example_txn _ example_world); [apply lookup_insert_eq|by_compute|].
    by rewrite <-!surjective_pairing.
  - rewrite delete_insert_eq, delete_insert_eq, delete_insert_eq, delete_insert_ne by done.
    by rewrite delete_empty, insert_empty.
Qed.

Lemma commit_outcome_witness :
  let '(r, st', w') := commit example_txn example_held example_world in
  let conflicting := filter (fun k => conflicts example_held (tx_snapshot example_txn) k = true)
    (bt_keys (tx_writes example_txn)) in
  held_snapshots st' = guard_drop (tx_guard example_txn) (held_snapshots example_held) /\
  match r with
  | Err (Conflict k) => head conflicting = Some k /\ w' = example_world /\
      forall k', store_get st' k' = store_get example_held k'
  | Ok _ => conflicting = [] /\
      forall k, store_get st' k = overlay (tx_writes example_txn) (current_map example_held) k
  | _ => conflicting = [] /\ forall k, store_get st' k = store_get example_held k
  end.
Proof.
  destruct (commit example_txn example_held example_world) as [[r st'] w'] eqn:E.
  apply (commit_outcome example_txn example_held st' [example_record] example_world w' r);
    [apply example_held_inv|by_compute|exact E].
Defined.

Lemma no_lost_update_witness :
  exists st' w', commit example_txn example_held example_world = (Ok tt, st', w') /\
    store_get example_held [x61] = get_at example_held [x61] (tx_snapshot example_txn).
Proof.
  destruct (run_ok (commit example_txn) example_held example_world (fun _ _ _ => true))
    as ([] & st' & w' & Hr & _); [vm_compute; reflexivity|].
  exists st', w'. split; [exact Hr|].
  apply (no_lost_update example_txn example_held st' [example_record] example_world w' [x61]);
    [apply example_held_inv|by_compute|exact Hr|by_compute].
Defined.

Lemma transactions_isolated_witness :
  txn_get example_begun (sys_store example_system) [x61] =
    overlay (tx_writes example_begun) (current_map example_store) [x61].
Proof.
  apply (transactions_isolated example_store [example_record] example_system 0 example_begun);
    [apply (si_mem _ _ _ _ example_store_inv)|done|apply example_run|apply lookup_singleton_eq].
Defined.

Lemma compaction_keeps_transactions_witness :
  registry_counts (held_snapshots (sys_store example_system)) (sys_open example_system) /\
  forall i tx m, sys_open example_system !! i = Some (tx, m) ->
    (exists t, oldest_held_snapshot_seq (sys_store example_system) = Some t /\
       (t <= as_of_seq (tx_snapshot tx))%Z) /\
    kv_at (as_of_seq (tx_snapshot tx)) (compact_records (sys_store example_system)).1 = m.
Proof.
  apply (compaction_keeps_transactions example_store [example_record]);
    [apply (si_mem _ _ _ _ example_store_inv)|done|apply example_run].
Defined.
End txn_witnesses.
