(* ===== verification/Page.v ===== *)
(** * Page: slotted pages

    Models [crates/storage/src/page.rs]: a page of 4096 bytes with a header, a slot directory that
    grows forward and records that grow backward, as the bytes the source keeps. Accesses out of
    range panic, as in the source. *)
From S2P Require Export Fs LogRecord.

Definition PAGE_SIZE : nat := 4096.

Definition PAGE_HEADER_LEN : nat := 16.

Definition SLOT_LEN : nat := 4.

Definition MAGIC : Z := 0x5054.

Definition TOMBSTONE_OFFSET : Z := 65535.

(** [type SlotId = u16]. *)
Abbreviation SlotId := Z.

(** [enum PageType]. *)
Inductive PageType := Data | BTreeLeaf | BTreeInternal | Meta.

#[global] Instance PageType_eq_decision : EqDecision PageType.
Proof. solve_decision. Defined.

(** The discriminants of the enum. *)
Definition page_type_byte (t : PageType) : byte :=
  match t with
  | Data => x00
  | BTreeLeaf => x01
  | BTreeInternal => x02
  | Meta => x03
  end.

Definition page_type_from_byte (b : byte) : option PageType :=
  match b with
  | x00 => Some Data
  | x01 => Some BTreeLeaf
  | x02 => Some BTreeInternal
  | x03 => Some Meta
  | _ => None
  end.

(** [enum PageError]. *)
Inductive PageError :=
| Full (need have : nat)
| InvalidSlot (slot : SlotId)
| BadMagic
| UnknownPageType (b : byte)
| PageChecksumMismatch (stored computed : Z).

#[global] Instance PageError_eq_decision : EqDecision PageError.
Proof. solve_decision. Defined.

(** [struct Page]. *)
Record Page := mkPage {
  page_type : PageType;
  page_bytes : bytes;
}.

Definition read_u16 (bs : bytes) (at_ : nat) : Z := le_val (slice at_ (at_ + 2) bs).

(** [bytes[at..at + len].copy_from_slice(src)], within the bounds. *)
Definition copy_at (bs : bytes) (at_ : nat) (src : bytes) : bytes :=
  take at_ bs ++ src ++ drop (at_ + length src) bs.

Definition write_u16 (bs : bytes) (at_ : nat) (v : Z) : bytes := copy_at bs at_ (le_bytes 2 v).

Definition page_new (t : PageType) : Page :=
  let bs := replicate PAGE_SIZE x00 in
  let bs := copy_at bs 0 (le_bytes 2 MAGIC) in
  let bs := <[2 := page_type_byte t]> bs in
  let bs := write_u16 bs 8 0 in
  let bs := write_u16 bs 10 (Z.of_nat PAGE_HEADER_LEN) in
  let bs := write_u16 bs 12 (Z.of_nat PAGE_SIZE) in
  mkPage t bs.

Definition num_slots (p : Page) : Z := read_u16 (page_bytes p) 8.

Definition free_start (p : Page) : Z := read_u16 (page_bytes p) 10.

Definition free_end (p : Page) : Z := read_u16 (page_bytes p) 12.

Definition set_bytes (bs : bytes) (p : Page) : Page := mkPage (page_type p) bs.

Definition set_num_slots (v : Z) (p : Page) : Page := set_bytes (write_u16 (page_bytes p) 8 v) p.

Definition set_free_start (v : Z) (p : Page) : Page := set_bytes (write_u16 (page_bytes p) 10 v) p.

Definition set_free_end (v : Z) (p : Page) : Page := set_bytes (write_u16 (page_bytes p) 12 v) p.

(** The position of a slot in the directory. *)
Definition slot_base (slot : SlotId) : nat := PAGE_HEADER_LEN + Z.to_nat slot * SLOT_LEN.

(** A slot entry is in range when its four bytes are inside the page; otherwise the access
    panics. *)
Definition slot_in_range (slot : SlotId) (p : Page) : bool :=
  bool_decide (slot_base slot + SLOT_LEN <= length (page_bytes p)).

Definition slot_offset_len (p : Page) (slot : SlotId) : Z * Z :=
  (read_u16 (page_bytes p) (slot_base slot), read_u16 (page_bytes p) (slot_base slot + 2)).

Definition set_slot (slot : SlotId) (offset len : Z) (p : Page) : Page :=
  set_bytes (write_u16 (write_u16 (page_bytes p) (slot_base slot) offset) (slot_base slot + 2) len) p.

(** [free_end - free_start] as [usize], with the wrap-around of a release build when the header of
    a page is inconsistent. *)
Definition free_space (p : Page) : Z := u64 (free_end p - free_start p).

(** [Page::insert]. *)
Definition page_insert (record : bytes) (p : Page) : Res PageError SlotId * Page :=
  let needed := SLOT_LEN + length record in
  if (free_space p <? Z.of_nat needed)%Z then (Err (Full needed (Z.to_nat (free_space p))), p)
  else
    let start := u64 (free_end p - Z.of_nat (length record)) in
    if (start + Z.of_nat (length record) <=? Z.of_nat (length (page_bytes p)))%Z then
      let p := set_bytes (copy_at (page_bytes p) (Z.to_nat start) record) p in
      let slot := num_slots p in
      if slot_in_range slot p then
        let p := set_slot slot (u16 start) (u16 (Z.of_nat (length record))) p in
        let p := set_num_slots (u16 (slot + 1)) p in
        let p := set_free_start (u16 (free_start p + Z.of_nat SLOT_LEN)) p in
        let p := set_free_end (u16 start) p in
        (Ok slot, p)
      else (Panic, p)
    else (Panic, p).

(** [Page::get]. *)
Definition page_get (slot : SlotId) (p : Page) : Res PageError bytes :=
  if (num_slots p <=? slot)%Z then Err (InvalidSlot slot)
  else if slot_in_range slot p then
    let '(offset, len) := slot_offset_len p slot in
    if (offset =? TOMBSTONE_OFFSET)%Z then Err (InvalidSlot slot)
    else if (offset + len <=? Z.of_nat (length (page_bytes p)))%Z
         then Ok (slice (Z.to_nat offset) (Z.to_nat (offset + len)) (page_bytes p))
         else Panic
  else Panic.

(** [Page::delete]. *)
Definition page_delete (slot : SlotId) (p : Page) : Res PageError unit * Page :=
  if (num_slots p <=? slot)%Z then (Err (InvalidSlot slot), p)
  else if slot_in_range slot p then
    let '(offset, len) := slot_offset_len p slot in
    if (offset =? TOMBSTONE_OFFSET)%Z then (Err (InvalidSlot slot), p)
    else (Ok tt, set_slot slot TOMBSTONE_OFFSET len p)
  else (Panic, p).

(** [Page::slot_ids]: the slots that are not deleted. [None]: the directory does not fit the page
    and reading it panics. *)
Definition slot_ids (p : Page) : option (list SlotId) :=
  let slots := Z.of_nat <$> List.seq 0 (Z.to_nat (num_slots p)) in
  if forallb (fun s => slot_in_range s p) slots
  then Some (filter (fun s => (slot_offset_len p s).1 <> TOMBSTONE_OFFSET) slots)
  else None.

Section page_codec.
Context `{Crc32}.

Definition compute_checksum (bs : bytes) : Z := crc32 (slice 0 4 bs ++ drop 8 bs).

(** [Page::encode]. *)
Definition page_encode (p : Page) : bytes :=
  copy_at (page_bytes p) 4 (le_bytes 4 (compute_checksum (page_bytes p))).

(** [Page::decode]. *)
Definition page_decode (bs : bytes) : Res PageError Page :=
  if negb (length bs =? PAGE_SIZE) then Err BadMagic
  else if negb (read_u16 bs 0 =? MAGIC)%Z then Err BadMagic
  else
    let b := default x00 (bs !! 2) in
    match page_type_from_byte b with
    | None => Err (UnknownPageType b)
    | Some t =>
        let stored := le_val (slice 4 8 bs) in
        let computed := compute_checksum bs in
        if negb (stored =? computed)%Z then Err (PageChecksumMismatch stored computed)
        else Ok (mkPage t bs)
    end.
End page_codec.
