(* ===== verification/PageSpec.v ===== *)
(** * PageSpec: a slotted page is a list of records

    The representation invariant of a page: slot [i] of the directory points at the bytes of record
    [i], or is deleted; records lie between the free space and the end of the page. Insertion,
    lookup, deletion and the codec are correct against the list of records. *)
From S2P Require Export Page.

(** ** Bytes under a write *)

Lemma lookup_slice {A} (lo hi i : nat) (l : list A) :
  slice lo hi l !! i = if decide (lo + i < hi) then l !! (lo + i) else None.
Proof.
  unfold slice. case_decide.
  - rewrite lookup_take_lt, lookup_drop by lia. done.
  - apply lookup_take_ge. lia.
Qed.

Lemma length_copy_at (bs src : bytes) (at_ : nat) :
  at_ + length src <= length bs -> length (copy_at bs at_ src) = length bs.
Proof. intros. unfold copy_at. rewrite !length_app, length_take, length_drop. lia. Qed.

Lemma lookup_copy_at (bs src : bytes) (at_ i : nat) :
  at_ + length src <= length bs ->
  copy_at bs at_ src !! i =
    if decide (at_ <= i < at_ + length src) then src !! (i - at_) else bs !! i.
Proof.
  intros Hl. unfold copy_at. case_decide as Hd.
  - rewrite lookup_app_r; rewrite length_take; [|lia].
    rewrite lookup_app_l by lia. f_equal. lia.
  - destruct (decide (i < at_)).
    + rewrite lookup_app_l by (rewrite length_take; lia). by apply lookup_take_lt.
    + rewrite lookup_app_r; rewrite length_take; [|lia]. rewrite lookup_app_r by lia.
      rewrite lookup_drop. f_equal. lia.
Qed.

Lemma slice_copy_same (bs src : bytes) (at_ hi : nat) :
  hi = at_ + length src -> hi <= length bs -> slice at_ hi (copy_at bs at_ src) = src.
Proof.
  intros -> Hl. apply list_eq. intros i. rewrite lookup_slice, lookup_copy_at by done.
  destruct (decide (i < length src)).
  - rewrite !decide_True by lia. f_equal. lia.
  - rewrite decide_False by lia. symmetry. apply lookup_ge_None. lia.
Qed.

Lemma slice_copy_other (bs src : bytes) (at_ lo hi : nat) :
  at_ + length src <= length bs -> hi <= at_ \/ at_ + length src <= lo ->
  slice lo hi (copy_at bs at_ src) = slice lo hi bs.
Proof.
  intros Hl Hd. apply list_eq. intros i. rewrite !lookup_slice. case_decide; [|done].
  rewrite lookup_copy_at by done. by rewrite decide_False by lia.
Qed.

Lemma read_write_u16_same (bs : bytes) (at_ : nat) (v : Z) :
  at_ + 2 <= length bs -> (0 <= v < 2 ^ 16)%Z -> read_u16 (write_u16 bs at_ v) at_ = v.
Proof.
  intros Hl Hv. unfold read_u16, write_u16.
  rewrite slice_copy_same by (rewrite ?length_le_bytes; lia). apply le_val_bytes_small. lia.
Qed.

Lemma read_write_u16_other (bs : bytes) (at_ i : nat) (v : Z) :
  at_ + 2 <= length bs -> i + 2 <= at_ \/ at_ + 2 <= i ->
  read_u16 (write_u16 bs at_ v) i = read_u16 bs i.
Proof.
  intros Hl Hd. unfold read_u16, write_u16. f_equal.
  apply slice_copy_other; rewrite ?length_le_bytes; lia.
Qed.

Lemma length_write_u16 (bs : bytes) (at_ : nat) (v : Z) :
  at_ + 2 <= length bs -> length (write_u16 bs at_ v) = length bs.
Proof. intros. apply length_copy_at. rewrite length_le_bytes. lia. Qed.

Lemma slice_write_u16_other (bs : bytes) (at_ lo hi : nat) (v : Z) :
  at_ + 2 <= length bs -> hi <= at_ \/ at_ + 2 <= lo ->
  slice lo hi (write_u16 bs at_ v) = slice lo hi bs.
Proof. intros. apply slice_copy_other; rewrite ?length_le_bytes; lia. Qed.

(** ** The representation invariant *)

(** The directory entry [(off, len)] of a slot that holds [r], or is deleted. *)
Definition slot_holds (bs : bytes) (lo : Z) (e : Z * Z) (r : option bytes) : Prop :=
  match r with
  | None => e.1 = TOMBSTONE_OFFSET
  | Some r => (lo <= e.1)%Z /\ (e.1 + e.2 <= Z.of_nat PAGE_SIZE)%Z /\ e.2 = Z.of_nat (length r) /\
      slice (Z.to_nat e.1) (Z.to_nat (e.1 + e.2)) bs = r
  end.

(** The page [p] holds the records [rs]; [None] is a deleted one. *)
Record page_rep (p : Page) (rs : list (option bytes)) : Prop := {
  pr_len : length (page_bytes p) = PAGE_SIZE;
  pr_magic : read_u16 (page_bytes p) 0 = MAGIC;
  pr_type : page_bytes p !! 2 = Some (page_type_byte (page_type p));
  pr_slots : num_slots p = Z.of_nat (length rs);
  pr_start : free_start p = Z.of_nat (PAGE_HEADER_LEN + length rs * SLOT_LEN);
  pr_end : (free_start p <= free_end p <= Z.of_nat PAGE_SIZE)%Z;
  pr_holds : forall i r, rs !! i = Some r ->
    slot_holds (page_bytes p) (free_end p) (slot_offset_len p (Z.of_nat i)) r;
}.

(** The free bytes of a page with those records, as the code counts them. *)
Lemma page_rep_bounds (p : Page) (rs : list (option bytes)) :
  page_rep p rs -> PAGE_HEADER_LEN + length rs * SLOT_LEN <= PAGE_SIZE.
Proof. intros [_ _ _ _ Hs He _]. unfold PAGE_SIZE in *. lia. Qed.

Lemma page_new_rep (t : PageType) : page_rep (page_new t) [].
Proof.
  split; destruct t; by vm_compute.
Qed.

Lemma free_space_rep (p : Page) (rs : list (option bytes)) :
  page_rep p rs -> free_space p = (free_end p - free_start p)%Z.
Proof.
  intros [_ _ _ _ Hs He _]. unfold free_space. apply u64_small. unfold PAGE_SIZE in *. width_lia.
Qed.

(** ** Insertion *)

(** The bytes of a page after an insertion. *)
Definition inserted_bytes (bs : bytes) (n : nat) (start : Z) (record : bytes) : bytes :=
  let bs := copy_at bs (Z.to_nat start) record in
  let bs := write_u16 bs (slot_base (Z.of_nat n)) start in
  let bs := write_u16 bs (slot_base (Z.of_nat n) + 2) (Z.of_nat (length record)) in
  let bs := write_u16 bs 8 (Z.of_nat (S n)) in
  let bs := write_u16 bs 10 (Z.of_nat (PAGE_HEADER_LEN + S n * SLOT_LEN)) in
  write_u16 bs 12 start.

Ltac page_lia := unfold slot_base, PAGE_HEADER_LEN, SLOT_LEN, PAGE_SIZE in *; lia.

Ltac lengths :=
  first [page_lia | rewrite length_write_u16; lengths | rewrite length_copy_at; lengths].

Section inserted.
Context (bs record : bytes) (n : nat) (start : Z).
Hypothesis (Hbs : length bs = PAGE_SIZE).
Hypothesis (Hlo : (Z.of_nat (PAGE_HEADER_LEN + S n * SLOT_LEN) <= start)%Z).
Hypothesis (Hhi : (start + Z.of_nat (length record) <= Z.of_nat PAGE_SIZE)%Z).

Lemma length_inserted : length (inserted_bytes bs n start record) = PAGE_SIZE.
Proof. unfold inserted_bytes. rewrite !length_write_u16 by lengths. rewrite length_copy_at; lengths. Qed.

(** Everything outside of the header fields, the new slot and the new record is unchanged. *)
Lemma slice_inserted_other (lo hi : nat) :
  (hi <= 8 \/ 14 <= lo) -> (hi <= slot_base (Z.of_nat n) \/ slot_base (Z.of_nat (S n)) <= lo) ->
  (hi <= Z.to_nat start \/ Z.to_nat start + length record <= lo) ->
  slice lo hi (inserted_bytes bs n start record) = slice lo hi bs.
Proof.
  intros H1 H2 H3. unfold inserted_bytes.
  rewrite !slice_write_u16_other by lengths. apply slice_copy_other; page_lia.
Qed.

Lemma read_inserted_header :
  read_u16 (inserted_bytes bs n start record) 8 = Z.of_nat (S n) /\
  read_u16 (inserted_bytes bs n start record) 10 = Z.of_nat (PAGE_HEADER_LEN + S n * SLOT_LEN) /\
  read_u16 (inserted_bytes bs n start record) 12 = start.
Proof.
  unfold inserted_bytes. split; [|split].
  - rewrite !read_write_u16_other by lengths. apply read_write_u16_same; lengths.
  - rewrite read_write_u16_other by lengths. apply read_write_u16_same; lengths.
  - apply read_write_u16_same; lengths.
Qed.

Lemma read_inserted_slot :
  read_u16 (inserted_bytes bs n start record) (slot_base (Z.of_nat n)) = start /\
  read_u16 (inserted_bytes bs n start record) (slot_base (Z.of_nat n) + 2) = Z.of_nat (length record) /\
  slice (Z.to_nat start) (Z.to_nat (start + Z.of_nat (length record)))
    (inserted_bytes bs n start record) = record.
Proof.
  unfold inserted_bytes. split; [|split].
  - rewrite !read_write_u16_other by lengths. apply read_write_u16_same; lengths.
  - rewrite !read_write_u16_other by lengths. apply read_write_u16_same; lengths.
  - rewrite !slice_write_u16_other by lengths. apply slice_copy_same; page_lia.
Qed.

Lemma read_inserted_other (i : nat) :
  (i + 2 <= 8 \/ 14 <= i) -> (i + 2 <= slot_base (Z.of_nat n) \/ slot_base (Z.of_nat (S n)) <= i) ->
  (i + 2 <= Z.to_nat start \/ Z.to_nat start + length record <= i) ->
  read_u16 (inserted_bytes bs n start record) i = read_u16 bs i.
Proof. intros H1 H2 H3. unfold read_u16. f_equal. by apply slice_inserted_other. Qed.

Lemma lookup_inserted_type : inserted_bytes bs n start record !! 2 = bs !! 2.
Proof.
  pose proof (slice_inserted_other 2 3) as Hs.
  assert (forall l : bytes, slice 2 3 l !! 0 = l !! 2) as Hl.
  { intros l. rewrite lookup_slice. by rewrite decide_True by lia. }
  rewrite <-Hl, Hs, Hl; [done|page_lia|page_lia|page_lia].
Qed.
End inserted.

(** ** The operations *)

Lemma slot_holds_mono (bs bs' : bytes) (lo lo' : Z) (e : Z * Z) (r : option bytes) :
  (lo' <= lo)%Z -> (0 <= lo)%Z ->
  (forall hi a, (lo <= Z.of_nat a)%Z -> slice a hi bs' = slice a hi bs) ->
  slot_holds bs lo e r -> slot_holds bs' lo' e r.
Proof.
  intros Hlo Hpos Hsl. destruct r as [r|]; [|done]. intros (H1 & H2 & H3 & H4).
  split; [lia|]. split; [done|]. split; [done|]. rewrite Hsl; [done|lia].
Qed.

(** The page after a successful insertion. *)
Definition inserted_page (p : Page) (rs : list (option bytes)) (record : bytes) : Page :=
  mkPage (page_type p)
    (inserted_bytes (page_bytes p) (length rs) (free_end p - Z.of_nat (length record)) record).

Lemma page_insert_eq (p : Page) (rs : list (option bytes)) (record : bytes) :
  page_rep p rs ->
  page_insert record p =
    if decide (Z.of_nat (SLOT_LEN + length record) <= free_end p - free_start p)%Z
    then (Ok (Z.of_nat (length rs)), inserted_page p rs record)
    else (Err (Full (SLOT_LEN + length record) (Z.to_nat (free_end p - free_start p))), p).
Proof.
  intros Hp. pose proof Hp as [Hl _ _ Hn Hfs He _]. pose proof (page_rep_bounds _ _ Hp) as Hb.
  unfold page_insert. rewrite (free_space_rep _ _ Hp).
  destruct (Z.ltb_spec (free_end p - free_start p) (Z.of_nat (SLOT_LEN + length record))) as [Hlt|Hge].
  { by rewrite decide_False by lia. }
  rewrite decide_True by lia. unfold PAGE_SIZE, PAGE_HEADER_LEN, SLOT_LEN in *.
  rewrite u64_small by width_lia.
  set (start := (free_end p - Z.of_nat (length record))%Z) in *.
  rewrite (proj2 (Z.leb_le _ _)) by (rewrite Hl; lia).
  assert (length (copy_at (page_bytes p) (Z.to_nat start) record) = 4096) as Hl1.
  { rewrite length_copy_at; lia. }
  assert (num_slots (set_bytes (copy_at (page_bytes p) (Z.to_nat start) record) p) =
    Z.of_nat (length rs)) as Hn1.
  { rewrite <-Hn. unfold num_slots, read_u16. simpl. f_equal. apply slice_copy_other; lia. }
  assert (free_start (set_bytes (copy_at (page_bytes p) (Z.to_nat start) record) p) =
    free_start p) as Hf1.
  { unfold free_start, read_u16. simpl. f_equal. apply slice_copy_other; lia. }
  rewrite Hn1. unfold slot_in_range. simpl page_bytes. rewrite Hl1.
  rewrite bool_decide_eq_true_2 by (unfold slot_base, PAGE_HEADER_LEN, SLOT_LEN; lia).
  set (b := slot_base (Z.of_nat (length rs))) in *.
  assert (14 <= b /\ b + 4 <= Z.to_nat start) as [Hb1 Hb2].
  { unfold b, slot_base, PAGE_HEADER_LEN, SLOT_LEN. lia. }
  unfold inserted_page, inserted_bytes, set_free_end, set_free_start, set_num_slots, set_slot,
    set_bytes. cbn [page_type page_bytes]. fold start b.
  unfold set_bytes, free_start in Hf1, Hfs |- *. cbn [page_bytes] in Hf1 |- *.
  rewrite !read_write_u16_other by lengths. rewrite Hf1, Hfs.
  rewrite !u16_small by lia. unfold PAGE_HEADER_LEN, SLOT_LEN.
  replace (Z.of_nat (16 + length rs * 4) + Z.of_nat 4)%Z with (Z.of_nat (16 + S (length rs) * 4)) by lia.
  replace (Z.of_nat (length rs) + 1)%Z with (Z.of_nat (S (length rs))) by lia. done.
Qed.

Lemma page_insert_rep (p : Page) (rs : list (option bytes)) (record : bytes) :
  page_rep p rs -> (Z.of_nat (SLOT_LEN + length record) <= free_end p - free_start p)%Z ->
  page_rep (inserted_page p rs record) (rs ++ [Some record]) /\
  (free_end (inserted_page p rs record) - free_start (inserted_page p rs record) =
     free_end p - free_start p - Z.of_nat (SLOT_LEN + length record))%Z.
Proof.
  intros [Hl Hm Ht Hn Hfs He Hh] Hfit. set (start := (free_end p - Z.of_nat (length record))%Z).
  assert (Z.of_nat (PAGE_HEADER_LEN + S (length rs) * SLOT_LEN) <= start)%Z as Hlo.
  { unfold start. rewrite Hfs in *. unfold PAGE_HEADER_LEN, SLOT_LEN in *. lia. }
  assert (start + Z.of_nat (length record) <= Z.of_nat PAGE_SIZE)%Z as Hhi by (unfold start; lia).
  destruct (read_inserted_header (page_bytes p) record (length rs) start Hl Hlo Hhi) as (R1 & R2 & R3).
  destruct (read_inserted_slot (page_bytes p) record (length rs) start Hl Hlo Hhi) as (R4 & R5 & R6).
  assert (free_end (inserted_page p rs record) = start) as Hfe' by exact R3.
  assert (free_start (inserted_page p rs record) = Z.of_nat (PAGE_HEADER_LEN + S (length rs) * SLOT_LEN))
    as Hfs' by exact R2.
  split; [|rewrite Hfe', Hfs', Hfs; unfold start, PAGE_HEADER_LEN, SLOT_LEN; lia]. split.
  - by apply length_inserted.
  - rewrite <-Hm. unfold inserted_page. cbn [page_bytes]. apply read_inserted_other; page_lia.
  - unfold inserted_page. cbn [page_bytes page_type]. by rewrite lookup_inserted_type.
  - rewrite length_app. cbn [length]. rewrite Nat.add_1_r. exact R1.
  - rewrite length_app. cbn [length]. by rewrite Nat.add_1_r.
  - rewrite Hfe', Hfs'. lia.
  - rewrite Hfe'. intros i r Hi. unfold slot_offset_len, inserted_page. cbn [page_bytes].
    fold start. apply lookup_app_Some in Hi as [Hi|[Hge Hi]].
    + pose proof (lookup_lt_Some _ _ _ Hi) as Hlt. rewrite !read_inserted_other by page_lia.
      eapply (slot_holds_mono _ _ (free_end p)); [| | |by apply Hh].
      * unfold start. lia.
      * lia.
      * intros hi a Ha. apply slice_inserted_other; page_lia.
    + assert (i = length rs) as ->.
      { apply lookup_lt_Some in Hi. simpl in Hi. lia. }
      rewrite Nat.sub_diag in Hi. injection Hi as <-. rewrite R4, R5. split; [simpl; lia|].
      split; [done|]. split; [done|]. exact R6.
Qed.

Lemma slot_range_rep (p : Page) (rs : list (option bytes)) (i : nat) :
  page_rep p rs -> i < length rs -> slot_in_range (Z.of_nat i) p = true.
Proof.
  intros Hp Hi. pose proof (page_rep_bounds _ _ Hp). unfold slot_in_range.
  rewrite (pr_len _ _ Hp). apply bool_decide_eq_true. page_lia.
Qed.

Lemma slot_offset_live (p : Page) (rs : list (option bytes)) (i : nat) (r : option bytes) :
  page_rep p rs -> rs !! i = Some r ->
  (slot_offset_len p (Z.of_nat i)).1 = TOMBSTONE_OFFSET <-> r = None.
Proof.
  intros Hp Hi. pose proof (pr_holds _ _ Hp i r Hi) as Hh. destruct r as [r|]; unfold slot_holds in Hh.
  - split; [|done]. intros Heq. destruct Hh as (_ & H1 & H2 & _). rewrite Heq, H2 in H1.
    unfold TOMBSTONE_OFFSET, PAGE_SIZE in H1. lia.
  - done.
Qed.

Lemma page_get_rep (p : Page) (rs : list (option bytes)) (i : nat) :
  page_rep p rs ->
  page_get (Z.of_nat i) p =
    match rs !! i with Some (Some r) => Ok r | _ => Err (InvalidSlot (Z.of_nat i)) end.
Proof.
  intros Hp. unfold page_get. rewrite (pr_slots _ _ Hp).
  destruct (rs !! i) as [r|] eqn:Hi.
  2: { apply lookup_ge_None in Hi. by rewrite (proj2 (Z.leb_le _ _)) by lia. }
  pose proof (lookup_lt_Some _ _ _ Hi) as Hlt. rewrite (proj2 (Z.leb_gt _ _)) by lia.
  rewrite (slot_range_rep p rs i Hp Hlt).
  pose proof (slot_offset_live p rs i r Hp Hi) as Ht. pose proof (pr_holds _ _ Hp i r Hi) as Hh.
  destruct (slot_offset_len p (Z.of_nat i)) as [offset len]. cbn [fst] in Ht.
  destruct r as [r|].
  - destruct (Z.eqb_spec offset TOMBSTONE_OFFSET) as [He|_]; [by apply Ht in He|].
    destruct Hh as (H1 & H2 & H3 & H4). cbn [fst snd] in *. rewrite (pr_len _ _ Hp).
    rewrite (proj2 (Z.leb_le _ _)) by lia. by rewrite H4.
  - by rewrite (proj2 (Z.eqb_eq _ _)) by by apply Ht.
Qed.

(** Deleting the record of a slot. *)
Lemma set_slot_rep (p : Page) (rs : list (option bytes)) (i : nat) (len : Z) :
  page_rep p rs -> i < length rs ->
  page_rep (set_slot (Z.of_nat i) TOMBSTONE_OFFSET len p) (<[i := None]> rs).
Proof.
  intros Hp Hi. pose proof (page_rep_bounds _ _ Hp) as Hb. destruct Hp as [Hl Hm Ht Hn Hfs He Hh].
  set (b := slot_base (Z.of_nat i)).
  assert (b = 16 + i * 4) as Hbi by (unfold b, slot_base, PAGE_HEADER_LEN, SLOT_LEN; lia).
  assert (b + 4 <= PAGE_SIZE) as Hb2 by page_lia.
  assert (forall a, a + 2 <= b \/ b + 4 <= a ->
    read_u16 (page_bytes (set_slot (Z.of_nat i) TOMBSTONE_OFFSET len p)) a = read_u16 (page_bytes p) a) as Hread.
  { intros a Ha. unfold set_slot, set_bytes. cbn [page_bytes]. fold b.
    rewrite !read_write_u16_other by lengths. done. }
  assert (free_end (set_slot (Z.of_nat i) TOMBSTONE_OFFSET len p) = free_end p) as Hfe'
    by (apply Hread; lia).
  split.
  - unfold set_slot, set_bytes. cbn [page_bytes]. fold b. rewrite !length_write_u16 by lengths. done.
  - rewrite <-Hm. apply Hread. lia.
  - unfold set_slot, set_bytes. cbn [page_bytes page_type]. fold b. rewrite <-Ht.
    unfold write_u16. rewrite !lookup_copy_at; rewrite ?length_copy_at; rewrite ?length_le_bytes; try lia.
    by rewrite !decide_False by lia.
  - rewrite length_insert, <-Hn. apply Hread. lia.
  - rewrite length_insert, <-Hfs. apply Hread. lia.
  - rewrite Hfe'. unfold free_start. rewrite Hread by lia. exact He.
  - rewrite Hfe'. intros j r Hj. apply list_lookup_insert_Some in Hj as [(-> & <- & _)|[Hne Hj]].
    + unfold slot_holds, slot_offset_len, set_slot, set_bytes. cbn [page_bytes fst]. fold b.
      rewrite read_write_u16_other by lengths. apply read_write_u16_same; [lengths|by vm_compute].
    + pose proof (lookup_lt_Some _ _ _ Hj) as Hlt.
      assert (slot_offset_len (set_slot (Z.of_nat i) TOMBSTONE_OFFSET len p) (Z.of_nat j) =
        slot_offset_len p (Z.of_nat j)) as ->.
      { unfold slot_offset_len. f_equal; apply Hread; page_lia. }
      eapply (slot_holds_mono _ _ (free_end p)); [done|lia| |by apply Hh].
      intros hi a Ha. unfold set_slot, set_bytes. cbn [page_bytes]. fold b.
      rewrite !slice_write_u16_other by lengths. done.
Qed.

Lemma page_delete_rep (p : Page) (rs : list (option bytes)) (i : nat) :
  page_rep p rs ->
  match rs !! i with
  | Some (Some _) =>
      exists p', page_delete (Z.of_nat i) p = (Ok tt, p') /\ page_rep p' (<[i := None]> rs)
  | _ => page_delete (Z.of_nat i) p = (Err (InvalidSlot (Z.of_nat i)), p)
  end.
Proof.
  intros Hp. unfold page_delete. rewrite (pr_slots _ _ Hp).
  destruct (rs !! i) as [r|] eqn:Hi.
  2: { apply lookup_ge_None in Hi. by rewrite (proj2 (Z.leb_le _ _)) by lia. }
  pose proof (lookup_lt_Some _ _ _ Hi) as Hlt. rewrite (proj2 (Z.leb_gt _ _)) by lia.
  rewrite (slot_range_rep p rs i Hp Hlt).
  pose proof (slot_offset_live p rs i r Hp Hi) as Ht.
  destruct (slot_offset_len p (Z.of_nat i)) as [offset len]. simpl in Ht. destruct r as [r|].
  - destruct (Z.eqb_spec offset TOMBSTONE_OFFSET) as [He|_]; [by apply Ht in He|].
    eexists. split; [done|]. by apply set_slot_rep.
  - by rewrite (proj2 (Z.eqb_eq _ _)) by by apply Ht.
Qed.

(** The slots in use. *)
Definition live_slots (rs : list (option bytes)) : list SlotId :=
  Z.of_nat <$> filter (fun i => is_Some (mjoin (rs !! i))) (List.seq 0 (length rs)).

Lemma slot_ids_rep (p : Page) (rs : list (option bytes)) :
  page_rep p rs -> slot_ids p = Some (live_slots rs).
Proof.
  intros Hp. unfold slot_ids. rewrite (pr_slots _ _ Hp), Nat2Z.id.
  assert (forallb (fun s => slot_in_range s p) (Z.of_nat <$> List.seq 0 (length rs)) = true) as ->.
  { apply forallb_forall. intros s Hs. apply list_elem_of_In, list_elem_of_fmap in Hs as (i & -> & Hi).
    apply list_elem_of_In, in_seq in Hi. apply (slot_range_rep p rs); [done|lia]. }
  f_equal. apply filter_fmap_ext. intros i Hi. apply list_elem_of_In, in_seq in Hi.
  destruct (lookup_lt_is_Some_2 rs i) as [r Hr]; [lia|].
  rewrite (slot_offset_live p rs i r Hp Hr), Hr. simpl. destruct r; [|by split; [|intros []]].
  split; [by eexists|done].
Qed.

(** ** The codec *)

Section page_codec_spec.
Context `{Crc32}.

Lemma length_page_encode (p : Page) :
  length (page_bytes p) = PAGE_SIZE -> length (page_encode p) = PAGE_SIZE.
Proof.
  intros Hl. unfold page_encode. rewrite length_copy_at; [done|]. rewrite length_le_bytes. page_lia.
Qed.

Lemma slice_encode_other (p : Page) (lo hi : nat) :
  length (page_bytes p) = PAGE_SIZE -> hi <= 4 \/ 8 <= lo ->
  slice lo hi (page_encode p) = slice lo hi (page_bytes p).
Proof.
  intros Hl Hd. unfold page_encode. apply slice_copy_other; rewrite length_le_bytes; page_lia.
Qed.

Lemma drop_as_slice {A} (n : nat) (l : list A) : drop n l = slice n (length l) l.
Proof. unfold slice. rewrite take_ge; [done|]. rewrite length_drop. lia. Qed.

Lemma checksum_encode (p : Page) :
  length (page_bytes p) = PAGE_SIZE ->
  compute_checksum (page_encode p) = compute_checksum (page_bytes p).
Proof.
  intros Hl. unfold compute_checksum. rewrite slice_encode_other by (done || lia).
  rewrite !(drop_as_slice 8), (length_page_encode p Hl), slice_encode_other, Hl by (done || lia). done.
Qed.

(** The encoding of a page represents the same records. *)
(** A page that differs only in the checksum field. *)
Lemma page_rep_slices (p q : Page) (rs : list (option bytes)) :
  page_rep p rs -> page_type q = page_type p -> length (page_bytes q) = PAGE_SIZE ->
  (forall lo hi, hi <= 4 \/ 8 <= lo -> slice lo hi (page_bytes q) = slice lo hi (page_bytes p)) ->
  page_rep q rs.
Proof.
  intros [Hl Hm Ht Hn Hfs He Hh] Hty Hlq Hsl.
  assert (forall a, a + 2 <= 4 \/ 8 <= a -> read_u16 (page_bytes q) a = read_u16 (page_bytes p) a) as Hr.
  { intros a Ha. unfold read_u16. by rewrite Hsl. }
  assert (free_end q = free_end p) as Hfe by (apply Hr; lia).
  split; [done| | | | | |].
  - rewrite <-Hm. apply Hr. lia.
  - rewrite Hty, <-Ht. pose proof (Hsl 2 3 ltac:(lia)) as H23.
    assert (forall l : bytes, slice 2 3 l !! 0 = l !! 2) as H0 by (intros l; by rewrite lookup_slice).
    by rewrite <-!H0, H23.
  - rewrite <-Hn. apply Hr. lia.
  - rewrite <-Hfs. apply Hr. lia.
  - rewrite Hfe. unfold free_start. rewrite Hr by lia. exact He.
  - rewrite Hfe. intros i r Hi. unfold slot_offset_len.
    rewrite !Hr by page_lia. eapply (slot_holds_mono _ _ (free_end p)); [done|lia| |by apply Hh].
    intros hi a Ha. apply Hsl. unfold free_start in *. page_lia.
Qed.

Lemma page_rep_encode (p : Page) (rs : list (option bytes)) :
  page_rep p rs -> page_rep (mkPage (page_type p) (page_encode p)) rs.
Proof.
  intros Hp. pose proof (pr_len _ _ Hp) as Hl.
  apply (page_rep_slices p); [done|done|by apply length_page_encode|]. intros lo hi. by apply slice_encode_other.
Qed.

Lemma page_type_from_byte_of (t : PageType) : page_type_from_byte (page_type_byte t) = Some t.
Proof. by destruct t. Qed.

Lemma page_decode_encode (p : Page) (rs : list (option bytes)) :
  page_rep p rs -> page_decode (page_encode p) = Ok (mkPage (page_type p) (page_encode p)).
Proof.
  intros Hp. pose proof (page_rep_encode p rs Hp) as [Hl Hm Ht _ _ _ _].
  cbn [page_bytes page_type] in *. unfold page_decode.
  rewrite Hl, Nat.eqb_refl, Hm, Z.eqb_refl, Ht. cbn [negb from_option id].
  rewrite page_type_from_byte_of, (checksum_encode p (pr_len _ _ Hp)).
  unfold page_encode at 1. rewrite slice_copy_same by (rewrite ?length_le_bytes, ?(pr_len _ _ Hp); page_lia).
  pose proof (crc32_range (slice 0 4 (page_bytes p) ++ drop 8 (page_bytes p))) as Hc.
  fold (compute_checksum (page_bytes p)) in Hc.
  rewrite le_val_bytes_small by lia. by rewrite Z.eqb_refl.
Qed.

(** What a successful decoding means. *)
Lemma page_decode_sound (bs : bytes) (p : Page) :
  page_decode bs = Ok p ->
  page_bytes p = bs /\ length bs = PAGE_SIZE /\ read_u16 bs 0 = MAGIC /\
  le_val (slice 4 8 bs) = compute_checksum bs.
Proof.
  unfold page_decode. intros Hd.
  destruct (Nat.eqb_spec (length bs) PAGE_SIZE) as [Hl|]; [|done]. cbn [negb] in Hd.
  destruct (Z.eqb_spec (read_u16 bs 0) MAGIC) as [Hm|]; [|done]. cbn [negb] in Hd.
  destruct (page_type_from_byte (default x00 (bs !! 2))); [|done].
  destruct (Z.eqb_spec (le_val (slice 4 8 bs)) (compute_checksum bs)) as [Hc|]; [|done].
  cbn [negb] in Hd. by injection Hd as <-.
Qed.
End page_codec_spec.

(** ** The properties of pages *)

(** Insertion into a page: on a page that holds the records [rs], [insert] fails with [Full]
    exactly when the record and its slot do not fit the free space, and changes nothing then;
    otherwise it never panics, returns the next slot, and the page holds [rs] with the record
    behind them, its free space smaller by the record and the slot. *)
Theorem page_insert_correct (p : Page) (rs : list (option bytes)) (record : bytes) :
  page_rep p rs ->
  let needed := SLOT_LEN + length record in
  if decide (Z.of_nat needed <= free_space p)%Z then
    exists p', page_insert record p = (Ok (Z.of_nat (length rs)), p') /\
      page_rep p' (rs ++ [Some record]) /\ free_space p' = (free_space p - Z.of_nat needed)%Z
  else page_insert record p = (Err (Full needed (Z.to_nat (free_space p))), p).
Proof.
  intros Hp needed. rewrite (page_insert_eq p rs record Hp), (free_space_rep p rs Hp).
  fold needed. case_decide as Hfit; [|done].
  destruct (page_insert_rep p rs record Hp Hfit) as [Hp' Hf].
  exists (inserted_page p rs record). split; [done|]. split; [done|].
  by rewrite (free_space_rep _ _ Hp').
Qed.

(** Lookup, deletion and iteration: on a page that holds the records [rs], [get] returns the
    record of a slot in use and [InvalidSlot] for every other slot; [delete] frees a slot in use
    and no other; [slot_ids] lists the slots in use in order; none of them panics. *)
Theorem page_slots_correct (p : Page) (rs : list (option bytes)) (i : nat) :
  page_rep p rs ->
  page_get (Z.of_nat i) p =
    match rs !! i with Some (Some r) => Ok r | _ => Err (InvalidSlot (Z.of_nat i)) end /\
  match rs !! i with
  | Some (Some _) => exists p', page_delete (Z.of_nat i) p = (Ok tt, p') /\ page_rep p' (<[i := None]> rs)
  | _ => page_delete (Z.of_nat i) p = (Err (InvalidSlot (Z.of_nat i)), p)
  end /\
  slot_ids p = Some (live_slots rs).
Proof.
  intros Hp. split; [by apply page_get_rep|]. split; [by apply page_delete_rep|by apply slot_ids_rep].
Qed.

(** Pages survive the codec: the encoding of a page that holds the records [rs] has exactly
    [PAGE_SIZE] bytes, decodes without error, and the decoded page holds the same records and has
    the same type; and whatever decodes carries the checksum of its own bytes. *)
Theorem page_codec_roundtrip `{Crc32} (p : Page) (rs : list (option bytes)) :
  page_rep p rs ->
  length (page_encode p) = PAGE_SIZE /\
  (exists p', page_decode (page_encode p) = Ok p' /\ page_rep p' rs /\ page_type p' = page_type p) /\
  forall bs p', page_decode bs = Ok p' ->
    page_bytes p' = bs /\ length bs = PAGE_SIZE /\ le_val (slice 4 8 bs) = compute_checksum bs.
Proof.
  intros Hp. split; [apply length_page_encode, Hp|]. split.
  - eexists. split; [by eapply page_decode_encode|]. split; [by apply page_rep_encode|done].
  - intros bs p' (H1 & H2 & _ & H3)%page_decode_sound. done.
Qed.

(** ** A concrete page *)

Definition example_page : Page := (page_insert [x61; x62] (page_new BTreeLeaf)).2.

Lemma example_page_rep : page_rep example_page [Some [x61; x62]].
Proof.
  unfold example_page. rewrite (page_insert_eq _ [] _ (page_new_rep BTreeLeaf)).
  rewrite decide_True by by vm_compute.
  apply (page_insert_rep _ [] _ (page_new_rep BTreeLeaf)). by vm_compute.
Qed.

Lemma page_insert_correct_witness :
  exists p', page_insert [x63] example_page = (Ok 1%Z, p') /\
    page_rep p' [Some [x61; x62]; Some [x63]] /\
    free_space p' = (free_space example_page - 5)%Z.
Proof.
  pose proof (page_insert_correct example_page [Some [x61; x62]] [x63] example_page_rep) as Hi.
  cbv zeta in Hi. rewrite decide_True in Hi by by_compute. exact Hi.
Defined.

Lemma page_slots_correct_witness :
  page_get 0 example_page = Ok [x61; x62] /\
  (exists p', page_delete 0 example_page = (Ok tt, p') /\ page_rep p' [None]) /\
  slot_ids example_page = Some [0%Z].
Proof. exact (page_slots_correct example_page [Some [x61; x62]] 0 example_page_rep). Defined.

Section page_witness.
#[local] Existing Instance sum_crc32.

Lemma page_codec_roundtrip_witness :
  length (page_encode example_page) = PAGE_SIZE /\
  (exists p', page_decode (page_encode example_page) = Ok p' /\ page_rep p' [Some [x61; x62]] /\
     page_type p' = page_type example_page) /\
  forall bs p', page_decode bs = Ok p' ->
    page_bytes p' = bs /\ length bs = PAGE_SIZE /\ le_val (slice 4 8 bs) = compute_checksum bs.
Proof. apply page_codec_roundtrip, example_page_rep. Defined.
End page_witness.
