(* ===== verification/PageRun.v ===== *)
(** * PageRun: pages through their public operations

    A slotted page as an abstract table of records with a count of free bytes, and the refinement of
    any sequence of the page's operations, on every branch and through the codec. *)
From S2P Require Export PageSpec.

(** A call of the public interface, and its result. *)
Inductive PageCall :=
| PageInsert (record : bytes)
| PageDelete (slot : nat)
| PageGet (slot : nat)
| PageSlots
| PageReload.

Inductive PageAnswer :=
| AnsSlot (r : Res PageError SlotId)
| AnsUnit (r : Res PageError unit)
| AnsRecord (r : Res PageError bytes)
| AnsSlots (r : option (list SlotId)).

(** The call on a page. [PageReload] writes the page out and reads it back. *)
Definition page_call `{Crc32} (c : PageCall) (p : Page) : PageAnswer * Page :=
  match c with
  | PageInsert record => let '(r, p') := page_insert record p in (AnsSlot r, p')
  | PageDelete slot => let '(r, p') := page_delete (Z.of_nat slot) p in (AnsUnit r, p')
  | PageGet slot => (AnsRecord (page_get (Z.of_nat slot) p), p)
  | PageSlots => (AnsSlots (slot_ids p), p)
  | PageReload =>
      match page_decode (page_encode p) with
      | Ok p' => (AnsUnit (Ok tt), p')
      | Err e => (AnsUnit (Err e), p)
      | Panic => (AnsUnit Panic, p)
      | Crash => (AnsUnit Crash, p)
      end
  end.

(** What a page promises: the records by slot, [None] for a deleted one, and the free bytes, which a
    deletion does not give back. *)
Record Table := mkTable {
  tb_records : list (option bytes);
  tb_free : Z;
}.

Definition empty_table : Table := mkTable [] (Z.of_nat (PAGE_SIZE - PAGE_HEADER_LEN)).

Definition table_call (c : PageCall) (t : Table) : PageAnswer * Table :=
  let '(mkTable rs free) := t in
  match c with
  | PageInsert record =>
      let needed := SLOT_LEN + length record in
      if decide (Z.of_nat needed <= free)%Z
      then (AnsSlot (Ok (Z.of_nat (length rs))), mkTable (rs ++ [Some record]) (free - Z.of_nat needed))
      else (AnsSlot (Err (Full needed (Z.to_nat free))), t)
  | PageDelete slot =>
      match rs !! slot with
      | Some (Some _) => (AnsUnit (Ok tt), mkTable (<[slot := None]> rs) free)
      | _ => (AnsUnit (Err (InvalidSlot (Z.of_nat slot))), t)
      end
  | PageGet slot =>
      (AnsRecord (match rs !! slot with Some (Some r) => Ok r | _ => Err (InvalidSlot (Z.of_nat slot)) end), t)
  | PageSlots => (AnsSlots (Some (live_slots rs)), t)
  | PageReload => (AnsUnit (Ok tt), t)
  end.

(** The answers to a list of calls, and the state after them. *)
Fixpoint run_calls {St : Type} (step : PageCall -> St -> PageAnswer * St) (cs : list PageCall) (st : St) :
    list PageAnswer * St :=
  match cs with
  | [] => ([], st)
  | c :: cs' =>
      let '(a, st') := step c st in
      let '(r, st2) := run_calls step cs' st' in
      (a :: r, st2)
  end.

(** ** The refinement *)

(** The page holds the table. *)
Definition holds_table (t : PageType) (p : Page) (tb : Table) : Prop :=
  page_type p = t /\ page_rep p (tb_records tb) /\ free_space p = tb_free tb.

Lemma same_free (p p' : Page) (rs rs' : list (option bytes)) :
  page_rep p rs -> page_rep p' rs' -> length rs' = length rs -> free_end p' = free_end p ->
  free_space p' = free_space p.
Proof.
  intros Hp Hp' Hl He. rewrite (free_space_rep _ _ Hp), (free_space_rep _ _ Hp'), He.
  by rewrite (pr_start _ _ Hp), (pr_start _ _ Hp'), Hl.
Qed.

Section page_run.
Context `{Crc32}.

Lemma page_new_table (t : PageType) : holds_table t (page_new t) empty_table.
Proof. split; [done|]. split; [apply page_new_rep|]. by destruct t; vm_compute. Qed.

Lemma page_insert_table (t : PageType) (record : bytes) (p : Page) (tb : Table) :
  holds_table t p tb ->
  (page_call (PageInsert record) p).1 = (table_call (PageInsert record) tb).1 /\
  holds_table t (page_call (PageInsert record) p).2 (table_call (PageInsert record) tb).2.
Proof.
  destruct tb as [rs free]. intros (Ht & Hp & Hf). cbn [tb_records tb_free page_call table_call] in *.
  rewrite (page_insert_eq p rs record Hp), <-(free_space_rep p rs Hp), Hf. case_decide as Hd; [|by split].
  rewrite <-Hf, (free_space_rep p rs Hp) in Hd. destruct (page_insert_rep p rs record Hp Hd) as [Hp' Hf'].
  split; [done|]. split; [done|]. split; [done|]. cbn [snd tb_free].
  by rewrite (free_space_rep _ _ Hp'), Hf', <-(free_space_rep p rs Hp), Hf.
Qed.

Lemma free_end_set_slot (p : Page) (rs : list (option bytes)) (i : nat) (offset len : Z) :
  page_rep p rs -> i < length rs -> free_end (set_slot (Z.of_nat i) offset len p) = free_end p.
Proof.
  intros Hp Hi. pose proof (page_rep_bounds _ _ Hp). pose proof (pr_len _ _ Hp).
  unfold free_end, set_slot, set_bytes. cbn [page_bytes].
  rewrite !read_write_u16_other; rewrite ?length_write_u16; page_lia.
Qed.

Lemma page_delete_table (t : PageType) (slot : nat) (p : Page) (tb : Table) :
  holds_table t p tb ->
  (page_call (PageDelete slot) p).1 = (table_call (PageDelete slot) tb).1 /\
  holds_table t (page_call (PageDelete slot) p).2 (table_call (PageDelete slot) tb).2.
Proof.
  destruct tb as [rs free]. intros (Ht & Hp & Hf). cbn [tb_records tb_free page_call table_call] in *.
  pose proof (page_delete_rep p rs slot Hp) as Hd.
  destruct (rs !! slot) as [[r|]|] eqn:E; [|by rewrite Hd..].
  destruct Hd as (p' & Hd & Hp'). rewrite Hd. split; [done|]. cbn [snd].
  pose proof (lookup_lt_Some _ _ _ E) as Hi.
  assert (exists len, p' = set_slot (Z.of_nat slot) TOMBSTONE_OFFSET len p) as [len ->].
  { unfold page_delete in Hd. destruct (_ <=? _)%Z; [done|]. destruct (slot_in_range _ p); [|done].
    destruct (slot_offset_len p _) as [o l]. destruct (_ =? _)%Z; [done|]. injection Hd as <-. by eexists. }
  split; [done|]. split; [done|]. cbn [tb_free]. rewrite <-Hf.
  apply (same_free p _ rs (<[slot := None]> rs)); [done|done|by rewrite length_insert|].
  by apply (free_end_set_slot p rs).
Qed.

Lemma page_reload_table (t : PageType) (p : Page) (tb : Table) :
  holds_table t p tb ->
  (page_call PageReload p).1 = (table_call PageReload tb).1 /\
  holds_table t (page_call PageReload p).2 (table_call PageReload tb).2.
Proof.
  destruct tb as [rs free]. intros (Ht & Hp & Hf). cbn [tb_records tb_free page_call table_call] in *.
  rewrite (page_decode_encode p rs Hp). pose proof (page_rep_encode p rs Hp) as Hp'.
  split; [done|]. split; [done|]. split; [done|]. cbn [snd tb_free]. rewrite <-Hf.
  apply (same_free p _ rs rs); [done|done|done|].
  unfold free_end, read_u16. cbn [page_bytes]. rewrite slice_encode_other; [done|apply Hp|lia].
Qed.

(** One call. *)
Lemma page_call_table (t : PageType) (c : PageCall) (p : Page) (tb : Table) :
  holds_table t p tb ->
  (page_call c p).1 = (table_call c tb).1 /\ holds_table t (page_call c p).2 (table_call c tb).2.
Proof.
  intros Hh. destruct c as [record|slot|slot| |];
    [by apply page_insert_table|by apply page_delete_table| | |by apply page_reload_table];
    destruct tb as [rs free]; (split; [|exact Hh]); destruct Hh as (_ & Hp & _); cbn [tb_records] in Hp;
    cbn [page_call table_call fst]; [by rewrite (page_get_rep p rs slot Hp)|by rewrite (slot_ids_rep p rs Hp)].
Qed.

Lemma run_calls_table (t : PageType) (cs : list PageCall) (p : Page) (tb : Table) :
  holds_table t p tb ->
  (run_calls page_call cs p).1 = (run_calls table_call cs tb).1 /\
  holds_table t (run_calls page_call cs p).2 (run_calls table_call cs tb).2.
Proof.
  revert p tb. induction cs as [|c cs IH]; intros p tb Hh; [done|]. cbn [run_calls].
  destruct (page_call_table t c p tb Hh) as [Ha Hh'].
  destruct (page_call c p) as [a p'], (table_call c tb) as [a' tb']. cbn [fst snd] in *. subst a'.
  destruct (IH p' tb' Hh') as [Hr Hh2].
  destruct (run_calls page_call cs p') as [r p2], (run_calls table_call cs tb') as [r' tb2].
  cbn [fst snd] in *. by subst r'.
Qed.

(** C34: A page is a table of records: from a new page, whatever is inserted, deleted, looked up, listed,
    and written out and read back, in any order, every call answers what the table answers, errors
    and the byte counts in them included, so that no call panics; and the page stays well formed
    in every state: header, slot directory and records lie in the page without overlapping the
    free space, every slot in use has exactly the bytes that were inserted, and the type of the
    page never changes. *)
Theorem page_is_table (t : PageType) (cs : list PageCall) :
  let run := run_calls page_call cs (page_new t) in
  let spec := run_calls table_call cs empty_table in
  run.1 = spec.1 /\ page_type run.2 = t /\ page_rep run.2 (tb_records spec.2) /\
  free_space run.2 = tb_free spec.2.
Proof. apply run_calls_table, page_new_table. Qed.
End page_run.

(** Concrete answers: a page that fills up. *)
Lemma example_page_run :
  (run_calls (@page_call sum_crc32)
    [PageInsert [x61]; PageInsert (replicate 4072 x62); PageReload; PageDelete 0; PageGet 0; PageSlots; PageGet 1]
    (page_new Data)).1 =
  [AnsSlot (Ok 0%Z); AnsSlot (Err (Full 4076 4075)); AnsUnit (Ok tt); AnsUnit (Ok tt);
   AnsRecord (Err (InvalidSlot 0%Z)); AnsSlots (Some []); AnsRecord (Err (InvalidSlot 1%Z))].
Proof. vm_compute. reflexivity. Qed.
