(* ===== verification/PageStore.v ===== *)
(** * PageStore: the storage backends of the buffer pool

    Models [crates/storage/src/page_store.rs]: the trait [PageStore] as a type class, the
    in-memory implementation and the one over a [Store]. *)
From S2P Require Export StoreSpec Page.

(** [type PageId = u64]. *)
Abbreviation PageId := Z.

(** [trait PageStore]: the operations of a backend of state [S] whose errors are [E]. *)
Class PageStore (S E : Type) := {
  read_page : PageId -> M S E (option Page);
  write_page : PageId -> Page -> M S E unit;
  allocate_page_id : M S E PageId;
}.

(** The [?] of a pure fallible function. *)
Definition lift_res {S E1 E A : Type} (f : E1 -> E) (r : Res E1 A) : M S E A := fun s w =>
  match r with
  | Ok a => (Ok a, s, w)
  | Err e => (Err (f e), s, w)
  | Panic => (Panic, s, w)
  | Crash => (Crash, s, w)
  end.

(** [Option::unwrap] and [expect]. *)
Definition unwrap {S E A : Type} (o : option A) : M S E A :=
  match o with
  | Some a => mret a
  | None => panic
  end.

(** ** The in-memory backend *)

(** [struct MemPageStore]. *)
Record MemPageStore := mkMem {
  mem_pages : gmap PageId Page;
  mem_next_id : PageId;
}.

Definition mem_new : MemPageStore := mkMem ∅ 1.

Definition mem_read_page (id : PageId) : M MemPageStore Empty_set (option Page) :=
  self ← get_state;
  mret (mem_pages self !! id).

Definition mem_write_page (id : PageId) (page : Page) : M MemPageStore Empty_set unit :=
  modify (fun self => mkMem (<[id := page]> (mem_pages self)) (mem_next_id self)).

Definition mem_allocate_page_id : M MemPageStore Empty_set PageId :=
  self ← get_state;
  modify (fun self => mkMem (mem_pages self) (u64_add (mem_next_id self) 1));;
  mret (mem_next_id self).

#[export] Instance MemPageStore_PageStore : PageStore MemPageStore Empty_set := {|
  read_page := mem_read_page;
  write_page := mem_write_page;
  allocate_page_id := mem_allocate_page_id;
|}.

(** ** The backend over a store *)

(** [enum LogPageStoreError]. *)
Inductive LogPageStoreError :=
| LpsStore (e : StoreError)
| LpsPage (e : PageError)
| WrongLength (id : PageId) (len : nat).

(** [struct LogPageStore]. *)
Record LogPageStore := mkLps {
  lps_store : Store;
  lps_next_id : PageId;
}.

Definition set_lps_store (st : Store) (s : LogPageStore) : LogPageStore := mkLps st (lps_next_id s).

(** [LogPageStore::key]. *)
Definition lps_key (id : PageId) : bytes := be_bytes 8 id.

(** The greatest page id among the keys of a scan. *)
Definition max_page_id (entries : list (bytes * bytes)) : option PageId :=
  foldl (fun m e =>
    if length e.1 =? 8 then Some (match m with Some m => Z.max m (be_val e.1) | None => be_val e.1 end)
    else m) None entries.

(** [max_id.map(|m| m + 1).unwrap_or(1)]. *)
Definition next_page_id_after (m : option PageId) : PageId :=
  match m with
  | Some m => u64_add m 1
  | None => 1
  end.

Section log_page_store.
Context `{Crc32, DirOrder}.

(** [LogPageStore::open]. *)
Definition lps_open (dir : path) : M unit LogPageStoreError LogPageStore :=
  store ← map_err LpsStore (store_open dir);
  mret (mkLps store (next_page_id_after (max_page_id (scan store [])))).

Definition lps_read_page (id : PageId) : M LogPageStore LogPageStoreError (option Page) :=
  self ← get_state;
  match store_get (lps_store self) (lps_key id) with
  | None => mret None
  | Some bs =>
      if negb (length bs =? PAGE_SIZE) then throw (WrongLength id (length bs))
      else page ← lift_res LpsPage (page_decode bs); mret (Some page)
  end.

Definition lps_write_page (id : PageId) (page : Page) : M LogPageStore LogPageStoreError unit :=
  zoom lps_store set_lps_store (map_err LpsStore (store_put (lps_key id) (page_encode page))).

Definition lps_allocate_page_id : M LogPageStore LogPageStoreError PageId :=
  self ← get_state;
  modify (fun self => mkLps (lps_store self) (u64_add (lps_next_id self) 1));;
  mret (lps_next_id self).

#[export] Instance LogPageStore_PageStore : PageStore LogPageStore LogPageStoreError := {|
  read_page := lps_read_page;
  write_page := lps_write_page;
  allocate_page_id := lps_allocate_page_id;
|}.
End log_page_store.
