(* ===== verification/LogClient.v ===== *)
(** * LogClient: a log as a part of a larger directory

    What a component that owns a log among other files needs of it: when a change elsewhere in the
    file system leaves the log alone, how far its segment ids can get, and the contract of the
    single appends. *)
From S2P Require Export StoreProps.

(** ** Changes elsewhere *)

(** [fs'] has what a log in [dir] looks at as [fs] has it. *)
Record log_agrees (dir : path) (fs fs' : fsys) : Prop := {
  la_dirs : forall q, q `suffix_of` dir -> is_Some (fs !! q) -> is_Some (fs' !! q);
  la_files : fs' !! dir = fs !! dir;
  la_subs : forall n, is_Some (fs' !! (n :: dir)) -> is_Some (fs !! (n :: dir));
}.

Lemma log_agrees_put (dir : path) (fs : fsys) (n : bytes) (d : path) (f : File) :
  d <> dir -> log_agrees dir fs (put_file (n :: d) f fs).
Proof.
  intros Hd. split.
  - intros q _ Hq. by apply put_file_is_Some.
  - by apply put_file_dir_ne.
  - intros n'. apply put_file_is_Some.
Qed.

(** Two directories of which none is below the other. *)
Definition apart (d1 d2 : path) : Prop := ~ d1 `suffix_of` d2 /\ ~ d2 `suffix_of` d1.

Lemma apart_siblings (n1 n2 : bytes) (d : path) : n1 <> n2 -> apart (n1 :: d) (n2 :: d).
Proof. intros Hne. split; by apply not_suffix_sibling. Qed.

Lemma log_agrees_below (d dir : path) (fs fs' : fsys) :
  apart d dir -> below d fs fs' -> log_agrees dir fs fs'.
Proof.
  intros [H1 H2] Hb.
  assert (forall q, q `suffix_of` dir -> fs' !! q = fs !! q) as Hq.
  { intros q Hq. apply Hb. intros Hs. apply H1. by etrans. }
  split.
  - intros q Hs. by rewrite Hq.
  - by apply Hq.
  - intros n. rewrite Hb; [done|]. intros [->|Hs]%suffix_cons_or; [|done].
    apply H2. by apply suffix_cons_r.
Qed.

Section agrees.
Context `{Crc32}.

Lemma disk_log_agrees (dir : path) (fs fs' : fsys) (m : gmap Z File) :
  log_agrees dir fs fs' -> disk_log fs dir m -> disk_log fs' dir m.
Proof.
  intros [Hd Hf Hs] [Hok Hfile Hu Hname Hsub].
  assert (forall n, file_at fs' (n :: dir) = file_at fs (n :: dir)) as Hat.
  { intros n. unfold file_at. by rewrite Hf. }
  split; [|intros id Hid; unfold segment_path, path_join; rewrite Hat; by apply Hfile|done| |].
  - intros q Hq. apply Hd; [done|]. by apply Hok.
  - intros name id. rewrite Hat. apply Hname.
  - intros name Hn. apply Hsub. by apply Hs.
Qed.

Lemma log_disk_agrees (dir : path) (fs fs' : fsys) ss (id : Z) (f : File) :
  log_agrees dir fs fs' -> log_disk fs dir ss id f -> log_disk fs' dir ss id f.
Proof. intros Ha [Hd Hs Hw]. split; [by eapply disk_log_agrees|done|done]. Qed.

Lemma log_holds_agrees (l : Log) (fs fs' : fsys) (hist : list LogRecord) :
  log_agrees (log_dir l) fs fs' -> log_holds l fs hist -> log_holds l fs' hist.
Proof.
  intros Ha (ss & rs & [Hld Hh Hw Hact Hse Hx]). exists ss, rs. split; try done.
  by eapply log_disk_agrees.
Qed.

Lemma log_recoverable_agrees (dir : path) (fs fs' : fsys) (hist : list LogRecord) (torn : bool) :
  log_agrees dir fs fs' -> log_recoverable fs dir hist torn -> log_recoverable fs' dir hist torn.
Proof.
  intros Ha (ss & id & f & rs & tail & Hld & Hrest). exists ss, id, f, rs, tail.
  split; [by eapply log_disk_agrees|done].
Qed.

(** ** Segment ids *)

(** Every segment of the directory has an id up to [b]. *)
Definition segments_upto (fs : fsys) (dir : path) (b : Z) : Prop :=
  forall id, in_u64 id -> is_Some (file_at fs (segment_path dir id)) -> (id <= b)%Z.

Lemma log_holds_segments (l : Log) (fs : fsys) (hist : list LogRecord) :
  log_holds l fs hist -> segments_upto fs (log_dir l) (active_id l).
Proof.
  intros (ss & rs & [Hld _ _ _ _ _]) id Hu Hs. rewrite (dl_file _ _ _ (ld_disk _ _ _ _ _ Hld) id Hu) in Hs.
  apply lookup_segs_map_is_Some, elem_of_app in Hs as [Hin|Hin%list_elem_of_singleton]; [|lia].
  pose proof (sorted_snoc_ne _ _ (ld_sorted _ _ _ _ _ Hld) _ Hin). lia.
Qed.

Lemma segments_upto_agrees (dir : path) (fs fs' : fsys) (b : Z) :
  log_agrees dir fs fs' -> segments_upto fs dir b -> segments_upto fs' dir b.
Proof.
  intros [_ Hf _] Hb id Hu. unfold segment_path, path_join, file_at. rewrite Hf. by apply Hb.
Qed.

Lemma segments_upto_crash (cut : path -> nat) (fs : fsys) (dir : path) (b : Z) :
  segments_upto fs dir b -> segments_upto (crash_fs cut fs) dir b.
Proof. intros Hb id Hu. rewrite file_at_crash, fmap_is_Some. by apply Hb. Qed.
End agrees.

(** ** Appends *)

Section appends.
Context `{Crc32, DirOrder}.

Lemma log_holds_active_id (l : Log) (fs : fsys) (hist : list LogRecord) :
  log_holds l fs hist -> (0 <= active_id l)%Z.
Proof.
  intros (ss & rs & Hi). pose proof (log_disk_id_u64 _ _ _ _ _ (li_disk _ _ _ _ _ Hi)) as Hu.
  unfold in_u64 in Hu. lia.
Qed.

(** A batch seals at most one segment. *)
Lemma roll_over_active_id (n : Z) (l : Log) (w : World) :
  (0 <= active_id l)%Z ->
  (active_id (roll_over_if_needed n l w).1.2 <= active_id l + 1)%Z.
Proof.
  intros Hp. assert (u64_add (active_id l) 1 <= active_id l + 1)%Z as Hu.
  { unfold u64_add, u64. apply Z.mod_le; lia. }
  unfold roll_over_if_needed, get_state, modify, mbind, M_bind, io, zoom, map_err. simpl.
  case_match; simpl; [lia|]. by destruct (open_for_append _ _ _ _) as [[[]] ?].
Qed.

Lemma log_append_batch_active_id (ops : list WriteOp) (l : Log) (w : World) :
  (0 <= active_id l)%Z -> (active_id (log_append_batch ops l w).1.2 <= active_id l + 1)%Z.
Proof.
  intros Hp. unfold log_append_batch, get_state, mbind, M_bind. simpl.
  destruct (assign_seqs _ ops) as [[records sq] total].
  pose proof (roll_over_active_id total l w Hp) as Hr.
  destruct (roll_over_if_needed total l w) as [[[[]|e| |] l1] w1]; simpl in *; try lia.
  unfold zoom, map_err. by destruct (seg_append_batch _ _ _) as [[[]] ?].
Qed.

(** A single append is the append of a batch of one. *)
Lemma wpc_append_op {F : FaultModel} (op : LogOp) (l : Log) (fs : fsys) (hist : list LogRecord) :
  log_holds l fs hist -> (active_id l + 1 < 2 ^ 64)%Z -> wf_op op -> (next_of hist + 1 < 2 ^ 64)%Z ->
  let record := op_record (next_of hist) op in
  let ok fs' := log_pending fs' (log_dir l) hist [record] /\ log_frame (log_dir l) fs fs' in
  wpc F (match op with OpPut k v => append_put k v | OpDelete k => append_delete k end) l fs
    (fun r l' fs' => r = record /\ log_holds l' fs' (hist ++ [record]) /\ log_dir l' = log_dir l /\
       (active_id l' <= active_id l + 1)%Z /\ log_frame (log_dir l) fs fs')
    (fun _ _ fs' => may_err F /\ ok fs') (fun fs' => may_crash F /\ ok fs').
Proof.
  intros Hl Ha Hop Hn record ok.
  assert (wpc F (log_append_batch [op]) l fs
    (fun a l' fs' => a = [record] /\ log_holds l' fs' (hist ++ [record]) /\ log_dir l' = log_dir l /\
       (active_id l' <= active_id l + 1)%Z /\ log_frame (log_dir l) fs fs')
    (fun _ _ fs' => may_err F /\ ok fs') (fun fs' => may_crash F /\ ok fs')) as Hb.
  { eapply wpc_mono; [apply (wpc_and _ _ _ _ _ _ (fun _ l' => (active_id l' <= active_id l + 1)%Z)
      (wpc_log_append_batch (F := F) l fs hist [op] Hl Ha ltac:(by constructor) Hn))| | |].
    - intros w. apply log_append_batch_active_id. by eapply log_holds_active_id.
    - intros a l' fs' [(-> & Hl' & Hd & _ & Hf) Hact]. done.
    - by intros e l' fs' [Hok _].
    - done. }
  destruct op as [k v|k]; unfold append_put, append_delete, log_append; cbn [record_type record_put record_delete key value];
    wpc_step; wpc_step; wpc_step; (eapply wpc_mono; [exact Hb| |done|done]);
    intros a l' fs' (-> & Hrest); wpc_step; done.
Qed.
End appends.
