(* ===== verification/PageStoreSpec.v ===== *)
(** * PageStoreSpec: what a backend of the buffer pool promises

    The laws of [trait PageStore] as a type class over an abstract view (a finite map of pages,
    the next free id, and a budget of operations that keeps the 64-bit counters from wrapping),
    and the proofs that the in-memory backend and the backend over a store satisfy them. A page
    read back is the page written up to the checksum field, which the codec fills in. *)
From S2P Require Export StoreProps LogClient PageSpec PageStore.

(** ** Pages up to the checksum *)

Section page_equiv.
Context `{Crc32}.

(** Two pages that are written as the same bytes. *)
#[export] Instance page_equiv : Equiv Page := fun p q =>
  page_type p = page_type q /\ page_encode p = page_encode q.

#[export] Instance page_equivalence : Equivalence (≡@{Page}).
Proof.
  split.
  - by intros p.
  - intros p q [H1 H2]. by split.
  - intros p q r [H1 H2] [G1 G2]. split; by etrans.
Qed.

(** A page of the size of the format. *)
Definition wf_page (p : Page) : Prop :=
  length (page_bytes p) = PAGE_SIZE /\ read_u16 (page_bytes p) 0 = MAGIC /\
  page_bytes p !! 2 = Some (page_type_byte (page_type p)).

Lemma wf_page_new (t : PageType) : wf_page (page_new t).
Proof. destruct (page_new_rep t) as [H1 H2 H3 _ _ _ _]. done. Qed.

Lemma wf_page_rep (p : Page) (rs : list (option bytes)) : page_rep p rs -> wf_page p.
Proof. by intros []. Qed.

Lemma page_equiv_length (p q : Page) :
  p ≡ q -> length (page_bytes p) = PAGE_SIZE -> length (page_bytes q) = PAGE_SIZE.
Proof.
  intros [_ He] Hl. pose proof (length_page_encode p Hl) as Hp. rewrite He in Hp. revert Hp.
  unfold page_encode, copy_at. rewrite !length_app, length_take, length_drop, !length_le_bytes.
  unfold PAGE_SIZE. lia.
Qed.

(** Equivalent pages hold the same records. *)
Lemma page_rep_equiv (p q : Page) (rs : list (option bytes)) : p ≡ q -> page_rep p rs -> page_rep q rs.
Proof.
  intros He Hp. pose proof (page_equiv_length p q He (pr_len _ _ Hp)) as Hq. destruct He as [Ht He].
  apply (page_rep_slices p); [done|done|done|].
  intros lo hi Hd. by rewrite <-!slice_encode_other, He by (done || apply Hp).
Qed.

Lemma page_encode_encode (p : Page) :
  length (page_bytes p) = PAGE_SIZE ->
  page_encode (mkPage (page_type p) (page_encode p)) = page_encode p.
Proof.
  intros Hl. unfold page_encode at 1. cbn [page_bytes]. rewrite (checksum_encode p Hl).
  apply list_eq. intros i. rewrite lookup_copy_at by (rewrite length_le_bytes, length_page_encode; [page_lia|done]).
  rewrite length_le_bytes. unfold page_encode. rewrite lookup_copy_at by (rewrite length_le_bytes; page_lia).
  rewrite length_le_bytes. by case_decide.
Qed.

(** Decoding what was encoded gives an equivalent page. *)
Lemma page_decode_encode_equiv (p : Page) :
  wf_page p -> exists q, page_decode (page_encode p) = Ok q /\ q ≡ p /\ wf_page q.
Proof.
  intros (Hl & Hm & Ht). exists (mkPage (page_type p) (page_encode p)).
  assert (read_u16 (page_encode p) 0 = MAGIC) as Hm'.
  { rewrite <-Hm. unfold read_u16. rewrite slice_encode_other; [done|done|lia]. }
  assert (page_encode p !! 2 = Some (page_type_byte (page_type p))) as Ht'.
  { rewrite <-Ht. unfold page_encode. rewrite lookup_copy_at by (rewrite length_le_bytes; page_lia).
    by rewrite decide_False by lia. }
  split; [|split; [split; [done|by apply page_encode_encode]|]].
  - unfold page_decode. rewrite (length_page_encode p Hl), Nat.eqb_refl.
    rewrite Hm', Ht'.
    rewrite Z.eqb_refl. cbn [negb from_option id]. rewrite page_type_from_byte_of, (checksum_encode p Hl).
    unfold page_encode at 1. rewrite slice_copy_same by (rewrite ?length_le_bytes, ?Hl; page_lia).
    pose proof (crc32_range (slice 0 4 (page_bytes p) ++ drop 8 (page_bytes p))) as Hc.
    fold (compute_checksum (page_bytes p)) in Hc.
    rewrite le_val_bytes_small by lia. by rewrite Z.eqb_refl.
  - split; [by apply length_page_encode|done].
Qed.

(** Equivalent pages agree outside of the checksum. *)
Lemma page_equiv_slice (p q : Page) (lo hi : nat) :
  length (page_bytes p) = PAGE_SIZE -> length (page_bytes q) = PAGE_SIZE -> p ≡ q ->
  hi <= 4 \/ 8 <= lo -> slice lo hi (page_bytes p) = slice lo hi (page_bytes q).
Proof.
  intros Hp Hq [_ He] Hd. rewrite <-(slice_encode_other p), <-(slice_encode_other q) by done. by rewrite He.
Qed.
End page_equiv.

(** ** The laws *)

(** [ps_view n s fs m next]: the backend holds the pages [m], gives out [next] next, and [n] more
    operations cannot wrap its counters. *)
Class PageStoreLaws (S E : Type) `{Crc32, PageStore S E} := {
  ps_view : nat -> S -> fsys -> gmap PageId Page -> PageId -> Prop;
  ps_fresh : forall n s fs m next id,
    ps_view n s fs m next -> is_Some (m !! id) -> (0 <= id < next)%Z;
  ps_next_range : forall n s fs m next,
    ps_view n s fs m next -> (0 <= next)%Z /\ (next + Z.of_nat n < 2 ^ 64)%Z;
  ps_read : forall n s fs m next id,
    ps_view n s fs m next -> (0 <= id < next)%Z ->
    wpc no_faults (read_page id) s fs
      (fun r s' fs' => (r ≡ m !! id /\ forall p, r = Some p -> wf_page p) /\ s' = s /\ fs' = fs)
      (fun _ _ _ => False) (fun _ => False);
  ps_write : forall n s fs m next id page,
    ps_view (Datatypes.S n) s fs m next -> (0 <= id < next)%Z -> wf_page page ->
    wpc no_faults (write_page id page) s fs
      (fun _ s' fs' => ps_view n s' fs' (<[id := page]> m) next) (fun _ _ _ => False) (fun _ => False);
  ps_allocate : forall n s fs m next,
    ps_view (Datatypes.S n) s fs m next ->
    wpc no_faults allocate_page_id s fs
      (fun id s' fs' => id = next /\ ps_view n s' fs' m (next + 1)) (fun _ _ _ => False) (fun _ => False);
  ps_weaken : forall n n' s fs m next, n' <= n -> ps_view n s fs m next -> ps_view n' s fs m next;
}.

(** ** The in-memory backend *)

Section mem.
Context `{Crc32}.

Definition mem_view (n : nat) (s : MemPageStore) (fs : fsys) (m : gmap PageId Page) (next : PageId) : Prop :=
  mem_pages s = m /\ mem_next_id s = next /\ (0 <= next)%Z /\ (next + Z.of_nat n < 2 ^ 64)%Z /\
  forall id p, m !! id = Some p -> (0 <= id < next)%Z /\ wf_page p.

#[export] Program Instance MemPageStore_laws : PageStoreLaws MemPageStore Empty_set := {| ps_view := mem_view |}.
Next Obligation. intros n s fs m next id (_ & _ & _ & _ & Hf) [p Hp]. by eapply Hf. Qed.
Next Obligation. by intros n s fs m next (_ & _ & Hp & Hb & _). Qed.
Next Obligation.
  intros n s fs m next id (<- & _ & _ & _ & Hf) _. cbn [read_page MemPageStore_PageStore].
  unfold mem_read_page. wpc_steps. split; [|done]. split; [done|]. intros p Hp. by eapply Hf.
Qed.
Next Obligation.
  intros n s fs m next id page (<- & <- & Hp & Hb & Hf) Hid Hpg. cbn [write_page MemPageStore_PageStore].
  unfold mem_write_page. wpc_steps. split; [done|]. split; [done|]. split; [done|]. split; [lia|].
  intros id' p [[<- <-]|[_ Hs]]%lookup_insert_Some; [done|by apply Hf].
Qed.
Next Obligation.
  intros n s fs m next (<- & <- & Hp & Hb & Hf). cbn [allocate_page_id MemPageStore_PageStore].
  unfold mem_allocate_page_id. wpc_steps. split; [done|]. split; [done|].
  unfold u64_add. simpl. rewrite u64_small by width_lia. split; [done|]. split; [lia|]. split; [lia|].
  intros id p Hs. destruct (Hf id p Hs). split; [lia|done].
Qed.
Next Obligation.
  intros n n' s fs m next Hn (? & ? & ? & ? & ?). split; [done|]. split; [done|]. split; [done|].
  split; [lia|done].
Qed.

Lemma mem_new_view (n : nat) (fs : fsys) : (1 + Z.of_nat n < 2 ^ 64)%Z -> ps_view n mem_new fs ∅ 1.
Proof.
  intros Hn. split; [done|]. split; [done|]. split; [lia|]. split; [done|].
  intros id p. by rewrite lookup_empty.
Qed.
End mem.

(** ** The backend over a store *)

Lemma lps_key_inj (a b : PageId) : in_u64 a -> in_u64 b -> lps_key a = lps_key b -> a = b.
Proof.
  intros Ha Hb Heq. apply (f_equal be_val) in Heq. unfold lps_key, in_u64 in *.
  rewrite !be_val_bytes_small in Heq by (change (256 ^ Z.of_nat 8)%Z with (2 ^ 64)%Z; lia). done.
Qed.

Section log_backend.
Context `{Crc32, DirOrder}.

Lemma apply_batch_active_id (ops : list WriteOp) (st : Store) (w : World) :
  (0 <= active_id (st_log st))%Z ->
  (active_id (st_log (apply_batch ops st w).1.2) <= active_id (st_log st) + 1)%Z.
Proof.
  intros Hp. unfold apply_batch, mbind, M_bind, zoom, map_err.
  pose proof (log_append_batch_active_id ops (st_log st) w Hp) as Hl.
  by destruct (log_append_batch ops (st_log st) w) as [[[a|e| |] l'] w'].
Qed.

Record lps_view (dir : path) (n : nat) (s : LogPageStore) (fs : fsys) (m : gmap PageId Page) (next : PageId) : Prop := {
  lv_store : exists dh ih, store_inv (lps_store s) fs dh ih /\ (next_of ih + Z.of_nat n < 2 ^ 64)%Z /\
    forall id, in_u64 id -> kv_of ih !! lps_key id = page_encode <$> m !! id;
  lv_active : (active_id (st_log (lps_store s)) + Z.of_nat n < 2 ^ 64)%Z;
  lv_next : lps_next_id s = next;
  lv_bound : (0 <= next)%Z /\ (next + Z.of_nat n < 2 ^ 64)%Z;
  lv_fresh : forall id, is_Some (m !! id) -> (0 <= id < next)%Z;
  lv_wf : forall id p, m !! id = Some p -> wf_page p;
  lv_dir : st_dir (lps_store s) = dir;
  lv_clean : store_clean fs dir;
}.

Lemma lps_write_view (dir : path) (n : nat) (s : LogPageStore) (fs : fsys) (m : gmap PageId Page) (next id : PageId)
    (page : Page) :
  lps_view dir (S n) s fs m next -> (0 <= id < next)%Z -> wf_page page ->
  wpc no_faults (lps_write_page id page) s fs
    (fun _ s' fs' => lps_view dir n s' fs' (<[id := page]> m) next) (fun _ _ _ => False) (fun _ => False).
Proof.
  intros [(dh & ih & Hi & Hb & Hkv) Ha Hn Hnb Hf Hw Hd Hc] Hid Hpg.
  pose proof (next_of_range ih) as Hrange.
  destruct (log_holds_next _ _ _ (si_log _ _ _ _ Hi)) as [Hseq _]. rewrite (si_next _ _ _ _ Hi) in Hseq.
  pose proof (si_log _ _ _ _ Hi) as (ss & rs & Hli).
  pose proof (log_disk_id_u64 _ _ _ _ _ (li_disk _ _ _ _ _ Hli)) as Hu.
  assert (Forall wf_op [OpPut (lps_key id) (page_encode page)]) as Hops.
  { constructor; [|constructor]. unfold wf_op, lps_key.
    rewrite length_be_bytes, (length_page_encode page (proj1 Hpg)). by vm_compute. }
  assert (active_id (st_log (lps_store s)) + 1 < 2 ^ 64)%Z as Ha1 by lia.
  assert (next_of ih + Z.of_nat (length [OpPut (lps_key id) (page_encode page)]) < 2 ^ 64)%Z as Hb1
    by (cbn [length]; lia).
  unfold lps_write_page. wpc_step. wpc_step.
  eapply (wpc_ext _ (apply_batch [OpPut (lps_key id) (page_encode page)])).
  { intros w. apply store_put_batch; lia. }
  eapply wpc_mono; [apply (wpc_and _ _ _ _ _ _
    (fun _ st' => (active_id (st_log st') <= active_id (st_log (lps_store s)) + 1)%Z)
    (wpc_apply_batch _ fs dh ih _ Hi Ha1 Hops Hb1))| | |].
  - intros w. apply apply_batch_active_id. unfold in_u64 in Hu. lia.
  - intros [] st' fs' [(Hi' & Hd' & _ & Hfr) Ha']. split; simpl; try done.
    + eexists _, _. split; [exact Hi'|]. split.
      * destruct (next_of_batch ih _ (si_wf _ _ _ _ Hi) Hops Hb1) as [_ ->]. cbn [length]. lia.
      * intros id' Hid'. rewrite kv_of_batch. simpl. destruct (decide (id = id')) as [<-|Hne].
        -- by rewrite !lookup_insert_eq.
        -- rewrite !lookup_insert_ne; [by apply Hkv|done|].
           intros Heq%lps_key_inj; [done|width_lia|width_lia].
    + lia.
    + lia.
    + intros id' Hs. destruct (decide (id = id')) as [<-|Hne]; [done|].
      rewrite lookup_insert_ne in Hs by done. by apply Hf.
    + intros id' p [[_ <-]|[_ Hp]]%lookup_insert_Some; [done|by eapply Hw].
    + congruence.
    + rewrite Hd in Hfr. by eapply store_clean_frame.
  - intros e st' fs' [[[] _] _].
  - by intros fs' [[] _].
Qed.

Lemma wpc_lps_read (s : LogPageStore) (fs : fsys) (ih : list LogRecord) (m : gmap PageId Page)
    (id : PageId) :
  mem_inv (lps_store s) ih -> kv_of ih !! lps_key id = page_encode <$> m !! id ->
  (forall p, m !! id = Some p -> wf_page p) ->
  wpc no_faults (lps_read_page id) s fs
    (fun r s' fs' => (r ≡ m !! id /\ forall p, r = Some p -> wf_page p) /\ s' = s /\ fs' = fs)
    (fun _ _ _ => False) (fun _ => False).
Proof.
  intros Hm Hkv Hw. unfold lps_read_page. wpc_step. wpc_step. rewrite (store_get_kv _ _ _ Hm), Hkv.
  destruct (m !! id) as [p|]; simpl.
  - pose proof (Hw p eq_refl) as Hp. rewrite (length_page_encode p (proj1 Hp)), Nat.eqb_refl. cbn [negb].
    destruct (page_decode_encode_equiv p Hp) as (q & -> & Hq & Hwq). wpc_step.
    intros faults Hfa. split; [done|]. simpl. wpc_step. split; [|done]. split; [by constructor|].
    by intros p' [= <-].
  - wpc_step. done.
Qed.

Program Definition lps_laws (dir : path) : PageStoreLaws LogPageStore LogPageStoreError :=
  {| ps_view := lps_view dir |}.
Next Obligation. intros dir n s fs m next id Hv. apply (lv_fresh _ _ _ _ _ _ Hv). Qed.
Next Obligation. intros dir n s fs m next Hv. apply (lv_bound _ _ _ _ _ _ Hv). Qed.
Next Obligation.
  intros dir n s fs m next id [(dh & ih & Hi & Hb & Hkv) Ha Hn Hnb Hf Hw Hd Hc] Hid.
  cbn [read_page LogPageStore_PageStore].
  apply (wpc_lps_read _ _ ih); [apply Hi|apply Hkv; width_lia|apply Hw].
Qed.
Next Obligation. intros dir n s fs m next id page Hv Hid Hp. by apply lps_write_view. Qed.
Next Obligation.
  intros dir n s fs m next [(dh & ih & Hi & Hb & Hkv) Ha Hn Hnb Hf Hw Hd Hc].
  cbn [allocate_page_id LogPageStore_PageStore]. unfold lps_allocate_page_id. wpc_steps.
  split; [done|]. split; simpl; try done.
  - exists dh, ih. split; [done|]. split; [lia|done].
  - lia.
  - unfold u64_add. rewrite u64_small by width_lia. lia.
  - lia.
  - intros id Hs. apply Hf in Hs. lia.
Qed.
Next Obligation.
  intros dir n n' s fs m next Hn [(dh & ih & Hi & Hb & Hkv) Ha Hne Hnb Hf Hw Hd Hc]. split; try done.
  - exists dh, ih. split; [done|]. split; [lia|done].
  - lia.
  - lia.
Qed.

(** ** Reopening *)

Lemma max_page_id_spec (entries : list (bytes * bytes)) :
  match max_page_id entries with
  | None => forall e, e ∈ entries -> length e.1 <> 8
  | Some x => (forall e, e ∈ entries -> length e.1 = 8 -> (be_val e.1 <= x)%Z) /\
      exists e, e ∈ entries /\ length e.1 = 8 /\ be_val e.1 = x
  end.
Proof.
  unfold max_page_id. induction entries as [|e es IH] using rev_ind; simpl.
  { by intros e ?%not_elem_of_nil. }
  rewrite foldl_app. simpl. set (mx := foldl _ None es) in *. clearbody mx.
  destruct (Nat.eqb_spec (length e.1) 8) as [Hl|Hl].
  - destruct mx as [x|].
    + destruct IH as [IH (e0 & He0 & Hl0 & Hx)]. split.
      * intros e' [He'|He'%list_elem_of_singleton]%elem_of_app Hl'; [specialize (IH e' He' Hl')|subst]; lia.
      * destruct (Z.max_spec x (be_val e.1)) as [[_ ->]|[_ ->]].
        -- exists e. split; [|done]. apply elem_of_app. right. by left.
        -- exists e0. split; [|done]. apply elem_of_app. by left.
    + split.
      * intros e' [He'|He'%list_elem_of_singleton]%elem_of_app Hl'; [by apply IH in He'|by subst].
      * exists e. split; [|done]. apply elem_of_app. right. by left.
  - destruct mx as [x|].
    + destruct IH as [IH (e0 & He0 & Hx)]. split.
      * intros e' [He'|He'%list_elem_of_singleton]%elem_of_app Hl'; [by apply IH|by subst].
      * exists e0. split; [|done]. apply elem_of_app. by left.
    + intros e' [He'|He'%list_elem_of_singleton]%elem_of_app; [by apply IH|by subst].
Qed.

Lemma key_of_eight_bytes (k : bytes) :
  length k = 8 -> exists id, in_u64 id /\ k = lps_key id /\ be_val k = id.
Proof.
  intros Hl. exists (be_val k). unfold lps_key. rewrite (be_bytes_val_n 8 k Hl). split; [|done].
  unfold be_val, in_u64. pose proof (le_val_range (reverse k)) as Hr. rewrite length_reverse, Hl in Hr.
  change (256 ^ Z.of_nat 8)%Z with (2 ^ 64)%Z in Hr. lia.
Qed.

Lemma next_page_id_spec (kv : gmap bytes bytes) (m : gmap PageId Page) (next : PageId) :
  (forall id, in_u64 id -> kv !! lps_key id = page_encode <$> m !! id) ->
  (forall id, is_Some (m !! id) -> (0 <= id < next)%Z) -> (0 <= next < 2 ^ 64)%Z ->
  let n := next_page_id_after (max_page_id (bt_iter (with_prefix [] kv))) in
  (forall id, is_Some (m !! id) -> (id < n)%Z) /\ (0 < n <= Z.max 1 next)%Z.
Proof.
  intros Hkv Hf Hn. pose proof (max_page_id_spec (bt_iter (with_prefix [] kv))) as Hmax.
  assert (forall k v, (k, v) ∈ bt_iter (with_prefix [] kv) <-> kv !! k = Some v) as Hin.
  { intros k v. rewrite elem_of_bt_iter. unfold with_prefix. rewrite map_lookup_filter_Some.
    split; [by intros [? _]|by split]. }
  assert (forall id, is_Some (m !! id) -> in_u64 id /\ exists v, (lps_key id, v) ∈ bt_iter (with_prefix [] kv))
    as Hpages.
  { intros id Hs. pose proof (Hf id Hs). assert (in_u64 id) as Hu by width_lia. split; [done|].
    destruct Hs as [p Hp]. exists (page_encode p). apply Hin. by rewrite Hkv, Hp. }
  destruct (max_page_id _) as [x|]; simpl.
  - destruct Hmax as [Hmax ([k v] & Hk & Hl & <-)]. simpl in *.
    destruct (key_of_eight_bytes k Hl) as (id & Hu & -> & Hx). rewrite Hx in *.
    apply Hin in Hk. rewrite Hkv in Hk by done.
    assert (is_Some (m !! id)) as Hid by (destruct (m !! id); [by eexists|done]).
    pose proof (Hf id Hid) as Hlt. unfold u64_add. rewrite u64_small by width_lia. split; [|lia].
    intros id' Hs. destruct (Hpages id' Hs) as [Hu' [v' Hv']].
    specialize (Hmax _ Hv'). cbn [fst] in Hmax. unfold lps_key in Hmax. rewrite length_be_bytes in Hmax.
    rewrite be_val_bytes_small in Hmax by (change (256 ^ Z.of_nat 8)%Z with (2 ^ 64)%Z; width_lia).
    specialize (Hmax eq_refl). lia.
  - split; [|lia]. intros id Hs. destruct (Hpages id Hs) as [_ [v Hv]].
    exfalso. apply (Hmax _ Hv). cbn [fst]. unfold lps_key. apply length_be_bytes.
Qed.

(** Opening on a directory whose history holds the pages [m]. *)
Lemma wpc_lps_open (dir : path) (n : nat) (fs : fsys) (hist : list LogRecord) (torn : bool)
    (m : gmap PageId Page) (next b : Z) :
  store_disk fs dir hist torn -> segments_upto fs dir b ->
  (forall id, in_u64 id -> kv_of hist !! lps_key id = page_encode <$> m !! id) ->
  (forall id, is_Some (m !! id) -> (0 <= id < next)%Z) -> (forall id p, m !! id = Some p -> wf_page p) ->
  (0 <= next)%Z -> (Z.max 1 next + Z.of_nat n < 2 ^ 64)%Z -> (b + Z.of_nat n < 2 ^ 64)%Z ->
  (next_of hist + Z.of_nat n < 2 ^ 64)%Z ->
  wpc no_faults (lps_open dir) tt fs
    (fun s' _ fs' => exists next', (0 < next' <= Z.max 1 next)%Z /\ lps_view dir n s' fs' m next')
    (fun _ _ _ => False) (fun _ => False).
Proof.
  intros Hd Hseg Hkv Hf Hw Hpos Hn Hb Hh. unfold lps_open. wpc_step. wpc_step.
  eapply wpc_mono; [apply (wpc_store_open_id (F := no_faults) _ _ hist torn); [by intros []|exact Hd]| |done|by intros fs' [[] _]].
  intros st [] fs' ((Hi & Hdir & _ & _ & Hc) & Ha). wpc_step.
  rewrite (scan_kv st hist [] (si_mem _ _ _ _ Hi)).
  destruct (next_page_id_spec (kv_of hist) m next Hkv Hf ltac:(lia)) as [Hfresh Hnext].
  eexists. split; [exact Hnext|]. split; cbn [lps_store lps_next_id]; try done.
  - by exists hist, hist.
  - pose proof (si_log _ _ _ _ Hi) as (ss & rs & Hli).
    pose proof (log_disk_id_u64 _ _ _ _ _ (li_disk _ _ _ _ _ Hli)) as Hu.
    pose proof (Hseg _ Hu Ha). lia.
  - lia.
  - intros id Hid. split; [apply (Hf id Hid)|by apply Hfresh].
Qed.

(** A fresh backend in a new directory. *)
Lemma wpc_lps_open_new (dir : path) (n : nat) (fs fs1 : fsys) :
  mk_dirs dir fs = Some fs1 -> disk_log fs1 dir ∅ -> store_clean fs1 dir ->
  no_entry fs (marker_of dir) -> fs !! tmp_of dir = None -> fs !! placeholder_of dir = None ->
  (Z.of_nat n < 2 ^ 63)%Z ->
  wpc no_faults (lps_open dir) tt fs
    (fun s' _ fs' => lps_view dir n s' fs' ∅ 1) (fun _ _ _ => False) (fun _ => False).
Proof.
  intros Hm Hd Hc Hmk Ht Hp Hn. unfold lps_open. wpc_step. wpc_step.
  eapply wpc_mono; [by apply (wpc_store_open_new fs fs1 dir)| |done|done].
  intros st [] fs' (Hi & Hdir & _ & Ha & Hc'). wpc_step. rewrite (scan_kv st [] [] (si_mem _ _ _ _ Hi)).
  split; cbn [lps_store lps_next_id]; try done; try lia.
  - exists [], []. split; [done|]. split; [|done]. change (next_of []) with 0%Z. lia.
  - intros id [p Hid]. by rewrite lookup_empty in Hid.
Qed.

(** The disk behind a backend. *)
Lemma lps_view_disk (dir : path) (n : nat) (s : LogPageStore) (fs : fsys) (m : gmap PageId Page) (next : PageId) :
  lps_view dir n s fs m next -> exists hist torn b, store_disk fs dir hist torn /\
    segments_upto fs dir b /\ (b + Z.of_nat n < 2 ^ 64)%Z /\ (next_of hist + Z.of_nat n < 2 ^ 64)%Z /\
    forall id, in_u64 id -> kv_of hist !! lps_key id = page_encode <$> m !! id.
Proof.
  intros [(dh & ih & Hi & Hb & Hkv) Ha Hn Hnb Hf Hw Hd Hc].
  pose proof (log_holds_recoverable _ _ _ (si_log _ _ _ _ Hi)) as Hr.
  rewrite (si_dir _ _ _ _ Hi), Hd in Hr. exists dh, false, (active_id (st_log (lps_store s))).
  split; [split; [done|done|apply Hi]|].
  split; [rewrite <-Hd, <-(si_dir _ _ _ _ Hi); by eapply log_holds_segments, Hi|].
  split; [done|]. split; [|by rewrite (si_kv _ _ _ _ Hi)].
  by rewrite (si_next _ _ _ _ Hi).
Qed.

(** A backend that is opened again holds the same pages. *)
Lemma wpc_lps_reopen (dir : path) (n : nat) (s : LogPageStore) (fs : fsys) (m : gmap PageId Page) (next : PageId) :
  lps_view dir (Datatypes.S n) s fs m next ->
  wpc no_faults (lps_open dir) tt fs
    (fun s' _ fs' => exists next', (0 < next' <= Z.max 1 next)%Z /\ lps_view dir n s' fs' m next')
    (fun _ _ _ => False) (fun _ => False).
Proof.
  intros Hv. destruct (lps_view_disk dir _ s fs m next Hv) as (hist & torn & b & Hd & Hs & Hb & Hh & Hkv).
  destruct Hv as [_ _ _ Hnb Hf Hw _ _]. apply (wpc_lps_open dir n _ hist torn m next b); done || lia.
Qed.

(** Pages written through the store survive a restart: when the backend over a store has taken
    the pages [m], then after a crash, with whatever part of the file cache lost, [open] returns a
    backend from which every page id reads as in [m] (up to the checksum field), and which gives
    out only ids that no page of [m] has. *)
Theorem lps_pages_durable (dir : path) (n : nat) (s : LogPageStore) (fs : fsys) (m : gmap PageId Page)
    (next : PageId) (cut : path -> nat) :
  lps_view dir n s fs m next ->
  wpc no_faults (lps_open dir) tt (crash_fs cut fs)
    (fun s' _ fs' =>
       (forall id, in_u64 id -> wpc no_faults (lps_read_page id) s' fs'
          (fun r s2 fs2 => r ≡ m !! id /\ s2 = s' /\ fs2 = fs') (fun _ _ _ => False) (fun _ => False)) /\
       (forall id, is_Some (m !! id) -> (id < lps_next_id s')%Z))
    (fun _ _ _ => False) (fun _ => False).
Proof.
  intros Hv. destruct (lps_view_disk dir n s fs m next Hv) as (hist & torn0 & b & Hd & Hs & Hb & Hh & Hkv).
  destruct Hv as [_ _ _ Hnb Hf Hw _ _]. apply (segments_upto_crash cut) in Hs.
  destruct (store_disk_crash cut _ _ _ _ Hd) as [torn Hd'].
  eapply wpc_mono; [apply (wpc_lps_open dir 0 _ hist torn m next b); (done || lia)| |done|done].
  intros s' [] fs' (next' & Hn' & [(dh & ih & Hi & _ & Hkv') _ Hnx _ Hf' _ _ _]). split.
  - intros id Hid. eapply wpc_mono; [apply (wpc_lps_read _ _ ih m); [apply Hi|by apply Hkv'|apply Hw]| |done|done].
    by intros r s2 fs2 [[Hr2 _] Hrest].
  - intros id Hid. rewrite Hnx. by apply Hf'.
Qed.
End log_backend.

Section backend_properties.
Context `{PageStoreLaws St Er}.

Lemma wpc_write_others (n : nat) (s : St) (fs : fsys) (m : gmap PageId Page) (next id : PageId)
    (others : list (PageId * Page)) :
  ps_view (length others + n) s fs m next ->
  Forall (fun o => (0 <= o.1 < next)%Z /\ o.1 <> id /\ wf_page o.2) others ->
  wpc no_faults (for_each (fun o => write_page o.1 o.2) others) s fs
    (fun _ s' fs' => exists m', ps_view n s' fs' m' next /\ m' !! id = m !! id)
    (fun _ _ _ => False) (fun _ => False).
Proof.
  intros Hv Ho. revert s fs m Hv.
  induction Ho as [|[id' p'] others (Hid' & Hne & Hp') Ho IH]; intros s fs m Hv; cbn [for_each].
  - wpc_step. by exists m.
  - wpc_step. eapply wpc_mono; [by apply (ps_write (length others + n))| |done|done].
    intros [] s1 fs1 Hv1. eapply wpc_mono; [by apply (IH s1 fs1 _ Hv1)| |done|done].
    intros [] s2 fs2 (m2 & Hv2 & Hm2). exists m2. split; [done|]. rewrite Hm2. by apply lookup_insert_ne.
Qed.

(** Read your writes, for every backend that satisfies the laws: after a page has been written
    under an allocated id, and then any sequence of other pages under other ids, reading the id
    returns the page, up to the checksum field. *)
Theorem backend_reads_writes (n : nat) (s : St) (fs : fsys) (m : gmap PageId Page) (next id : PageId)
    (page : Page) (others : list (PageId * Page)) :
  ps_view (Datatypes.S (length others) + n) s fs m next -> (0 <= id < next)%Z -> wf_page page ->
  Forall (fun o => (0 <= o.1 < next)%Z /\ o.1 <> id /\ wf_page o.2) others ->
  wpc no_faults (write_page id page;; for_each (fun o => write_page o.1 o.2) others;; read_page id) s fs
    (fun r _ _ => r ≡ Some page) (fun _ _ _ => False) (fun _ => False).
Proof.
  intros Hv Hid Hp Ho. wpc_step. eapply wpc_mono; [by apply (ps_write (length others + n))| |done|done].
  intros [] s1 fs1 Hv1. wpc_step. eapply wpc_mono; [by apply (wpc_write_others n s1 fs1 (<[id := page]> m) next id)| |done|done].
  intros [] s2 fs2 (m2 & Hv2 & Hm2). eapply wpc_mono; [by apply (ps_read n s2 fs2 m2 next id)| |done|done].
  intros r s3 fs3 [[Hr _] _]. by rewrite Hm2, lookup_insert_eq in Hr.
Qed.
End backend_properties.

(** ** Concrete backends *)

Section backend_witnesses.
#[local] Existing Instances sum_crc32 map_order.

Definition example_pages : MemPageStore := mkMem ∅ 3.

Lemma example_pages_view (n : nat) : (3 + Z.of_nat n < 2 ^ 64)%Z -> ps_view n example_pages empty_fs ∅ 3.
Proof.
  intros Hn. split; [done|]. split; [done|]. split; [lia|]. split; [done|].
  intros id p. by rewrite lookup_empty.
Qed.

Lemma backend_reads_writes_witness :
  wpc no_faults (write_page 1 example_page;;
      for_each (fun o => write_page o.1 o.2) [(2%Z, page_new Data)];; read_page 1)
    example_pages empty_fs (fun r _ _ => r ≡ Some example_page) (fun _ _ _ => False) (fun _ => False).
Proof.
  apply (backend_reads_writes 0 example_pages empty_fs ∅ 3);
    [by apply example_pages_view|lia|apply (wf_page_rep _ _ example_page_rep)|].
  constructor; [|constructor]. split; [simpl; lia|]. split; [done|apply wf_page_new].
Defined.

(** A backend over a store that has taken one page. *)
Definition page_record : LogRecord := record_put 0 (lps_key 1) (page_encode example_page).

Definition page_log_fs : fsys := put_file (segment_path example_dir 0) (sfile [page_record]) example_root.

Definition page_log_store : LogPageStore :=
  mkLps (mkStore example_dir (opened example_dir DEFAULT_SEGMENT_MAX_BYTES [] 0 [page_record] false).1
    (index_of [page_record]) false ∅) 2.

Lemma page_log_wf : wf_hist [page_record].
Proof.
  assert (wf_record page_record) as Hw.
  { unfold wf_record, page_record, lps_key. cbn [seq key value record_put].
    rewrite length_be_bytes, (length_page_encode _ (pr_len _ _ example_page_rep)). by_compute. }
  split; constructor; [done|constructor|by vm_compute|constructor].
Qed.

Lemma page_log_inv : store_inv (lps_store page_log_store) page_log_fs [page_record] [page_record].
Proof.
  apply store_opened_inv; [|done|by repeat constructor].
  apply (opened_holds _ _ _ [] 0 _ false); [|apply page_log_wf].
  apply disk_log_put_new; [apply example_root_log|by_compute].
Qed.

Lemma page_log_clean : store_clean page_log_fs example_dir.
Proof.
  split; [split; by_compute|split; by_compute|by_compute|by_compute|].
  intros n Hn. exfalso. unfold page_log_fs in Hn. rewrite put_file_is_Some in Hn.
  rewrite example_root_sub in Hn. by destruct Hn.
Qed.

Lemma page_log_view : lps_view example_dir 5 page_log_store page_log_fs {[1%Z := example_page]} 2.
Proof.
  split; [|by vm_compute|done|done| | |done|apply page_log_clean].
  - exists [page_record], [page_record]. split; [apply page_log_inv|]. split; [by vm_compute|].
    intros id Hid. unfold kv_of. simpl. unfold apply_record. cbn [record_type page_record record_put key value].
    destruct (decide (id = 1%Z)) as [->|Hne].
    + by rewrite lookup_insert_eq, lookup_singleton_eq.
    + assert (lps_key 1 <> lps_key id) as Hk by (intros Heq%lps_key_inj; [done|by vm_compute|done]).
      by rewrite lookup_insert_ne, lookup_empty, lookup_singleton_ne by done.
  - intros id Hs. apply lookup_singleton_is_Some in Hs as <-. lia.
  - intros id p [<- <-]%lookup_singleton_Some. apply (wf_page_rep _ _ example_page_rep).
Qed.

Lemma lps_pages_durable_witness :
  let cut := fun _ : path => 5 in
  let m : gmap PageId Page := {[1%Z := example_page]} in
  wpc no_faults (lps_open example_dir) tt (crash_fs cut page_log_fs)
    (fun s' _ fs' =>
       (forall id, in_u64 id -> wpc no_faults (lps_read_page id) s' fs'
          (fun r s2 fs2 => r ≡ m !! id /\ s2 = s' /\ fs2 = fs')
          (fun _ _ _ => False) (fun _ => False)) /\
       (forall id, is_Some (m !! id) -> (id < lps_next_id s')%Z))
    (fun _ _ _ => False) (fun _ => False).
Proof.
  intros cut m. apply (lps_pages_durable example_dir 5 page_log_store page_log_fs m 2). apply page_log_view.
Defined.
End backend_witnesses.
