(* ===== verification/HeapPageStore.v ===== *)
(** * HeapPageStore: pages in a heap file with a location log

    Models [crates/storage/src/heap_page_store.rs]: an append-only file of pages, and a log that
    maps page ids to their offsets. *)
From S2P Require Export PageStore.

Definition HEAP_FILE_NAME : bytes := ascii "heap.dat".

(** [enum HeapPageStoreError]. *)
Inductive HeapPageStoreError :=
| HpsLog (e : LogError)
| HpsPage (e : PageError)
| HpsIo (e : IoError).

(** [struct HeapPageStore]. *)
Record HeapPageStore := mkHeap {
  heap_file : Handle;
  heap_len : Z;
  location_log : Log;
  locations : gmap PageId Z;
  next_page_id : PageId;
}.

Definition set_heap_file (h : Handle) (s : HeapPageStore) : HeapPageStore :=
  mkHeap h (heap_len s) (location_log s) (locations s) (next_page_id s).

Definition set_heap_len (n : Z) (s : HeapPageStore) : HeapPageStore :=
  mkHeap (heap_file s) n (location_log s) (locations s) (next_page_id s).

Definition set_location_log (l : Log) (s : HeapPageStore) : HeapPageStore :=
  mkHeap (heap_file s) (heap_len s) l (locations s) (next_page_id s).

Definition set_locations (m : gmap PageId Z) (s : HeapPageStore) : HeapPageStore :=
  mkHeap (heap_file s) (heap_len s) (location_log s) m (next_page_id s).

Definition set_next_page_id (id : PageId) (s : HeapPageStore) : HeapPageStore :=
  mkHeap (heap_file s) (heap_len s) (location_log s) (locations s) id.

Definition encode_location (offset : Z) : bytes := le_bytes 8 offset.

(** [None]: the record is not 8 bytes long and [expect] panics. *)
Definition decode_location (bs : bytes) : option Z :=
  if length bs =? 8 then Some (le_val bs) else None.

(** The loop of [open] over the records of the location log: the map and the greatest id. *)
Fixpoint load_locations (records : list LogRecord) (locs : gmap PageId Z) (max_id : option PageId) :
    option (gmap PageId Z * option PageId) :=
  match records with
  | [] => Some (locs, max_id)
  | r :: records' =>
      id ← decode_location (key r);
      offset ← decode_location (value r);
      load_locations records' (<[id := offset]> locs)
        (Some (match max_id with Some m => Z.max m id | None => id end))
  end.

Definition heap_path (dir : path) : path := path_join dir HEAP_FILE_NAME.

Definition LOCATIONS_DIR : bytes := ascii "locations".

Section heap_page_store.
Context `{Crc32, DirOrder}.

(** [HeapPageStore::open]. *)
Definition hps_open (dir : path) : M unit HeapPageStoreError HeapPageStore :=
  map_err HpsIo (create_dir_all dir);;
  heap_file ← map_err HpsIo (open_rw_create (heap_path dir));
  '(len, heap_file) ← on heap_file (map_err HpsIo metadata_len);
  let torn_bytes := len `mod` PAGE_SIZE in
  '(heap_len, heap_file) ←
    (if decide (torn_bytes <> 0) then
       '(_, heap_file) ← on heap_file (map_err HpsIo (set_len (len - torn_bytes)));
       mret (len - torn_bytes, heap_file)
     else mret (len, heap_file));
  '(location_log, report) ← map_err HpsLog (log_open (path_join dir LOCATIONS_DIR));
  '(locations, max_id) ← unwrap (load_locations (rep_records report) ∅ None);
  mret (mkHeap heap_file (Z.of_nat heap_len) location_log locations (next_page_id_after max_id)).

(** The read goes through a clone of the handle; [write_page] seeks before it writes, so the shared
    cursor is not part of the contract. *)
Definition hps_read_page (id : PageId) : M HeapPageStore HeapPageStoreError (option Page) :=
  self ← get_state;
  match locations self !! id with
  | None => mret None
  | Some offset =>
      buf ← map_err HpsIo (read_exact_at (heap_file self) (Z.to_nat offset) PAGE_SIZE);
      page ← lift_res HpsPage (page_decode buf);
      mret (Some page)
  end.

Definition hps_write_page (id : PageId) (page : Page) : M HeapPageStore HeapPageStoreError unit :=
  self ← get_state;
  let offset := heap_len self in
  let bs := page_encode page in
  zoom heap_file set_heap_file (map_err HpsIo (
    seek (Z.to_nat offset);;
    write_all bs;;
    sync_data));;
  modify (fun self => set_heap_len (u64_add (heap_len self) (Z.of_nat PAGE_SIZE)) self);;
  zoom location_log set_location_log
    (map_err HpsLog (append_put (le_bytes 8 id) (encode_location offset)));;
  modify (fun self => set_locations (<[id := offset]> (locations self)) self).

Definition hps_allocate_page_id : M HeapPageStore HeapPageStoreError PageId :=
  self ← get_state;
  modify (fun self => set_next_page_id (u64_add (next_page_id self) 1) self);;
  mret (next_page_id self).

#[export] Instance HeapPageStore_PageStore : PageStore HeapPageStore HeapPageStoreError := {|
  read_page := hps_read_page;
  write_page := hps_write_page;
  allocate_page_id := hps_allocate_page_id;
|}.
End heap_page_store.
