(* ===== verification/HeapPageStoreSpec.v ===== *)
(** * HeapPageStoreSpec: the heap file backend

    The heap file with its location log satisfies the laws of a backend, keeps what it wrote
    across crashes, and writes a page entirely or not at all. The view is relative to a file
    system from which only the directory of the backend differs, so that a component that owns
    more directories can use the laws. *)
From S2P Require Export PageStoreSpec HeapPageStore.

Definition loc_dir (dir : path) : path := path_join dir LOCATIONS_DIR.

(** ** The location log *)

(** [mx] is the greatest id of [locs]. *)
Definition max_location (locs : gmap PageId Z) (mx : option PageId) : Prop :=
  match mx with
  | None => locs = ∅
  | Some x => is_Some (locs !! x) /\ forall id, is_Some (locs !! id) -> (id <= x)%Z
  end.

Lemma load_locations_max (rs : list LogRecord) (locs locs' : gmap PageId Z) (mx mx' : option PageId) :
  load_locations rs locs mx = Some (locs', mx') -> max_location locs mx -> max_location locs' mx'.
Proof.
  revert locs mx. induction rs as [|r rs IH]; intros locs mx Hl Hm; simpl in Hl; [by simplify_eq|].
  destruct (decode_location (key r)) as [id|]; simpl in Hl; [|done].
  destruct (decode_location (value r)) as [off|]; simpl in Hl; [|done].
  apply IH in Hl; [done|]. destruct mx as [x|]; simpl in Hm |- *.
  - destruct Hm as [Hx Hmax]. split.
    + destruct (Z.max_spec x id) as [[_ ->]|[_ ->]]; [rewrite lookup_insert_eq; by eexists|].
      destruct (decide (id = x)) as [->|Hne]; [rewrite lookup_insert_eq; by eexists|by rewrite lookup_insert_ne].
    + intros id' Hs. destruct (decide (id = id')) as [->|Hne]; [lia|]. rewrite lookup_insert_ne in Hs by done.
      specialize (Hmax id' Hs). lia.
  - subst locs. split; [rewrite lookup_insert_eq; by eexists|].
    intros id' [o [[<- _]|[_ Ho]]%lookup_insert_Some]; [lia|by rewrite lookup_empty in Ho].
Qed.

Lemma load_locations_app (rs1 rs2 : list LogRecord) (locs : gmap PageId Z) (mx : option PageId) :
  load_locations (rs1 ++ rs2) locs mx =
  (r ← load_locations rs1 locs mx; load_locations rs2 r.1 r.2).
Proof.
  revert locs mx. induction rs1 as [|r rs1 IH]; intros locs mx; simpl; [done|].
  destruct (decode_location (key r)) as [id|]; simpl; [|done].
  destruct (decode_location (value r)) as [off|]; simpl; [apply IH|done].
Qed.

Lemma decode_location_bytes (x : Z) : in_u64 x -> decode_location (le_bytes 8 x) = Some x.
Proof.
  intros Hx. unfold decode_location. rewrite length_le_bytes, Nat.eqb_refl.
  rewrite le_val_bytes_small; [done|width_lia].
Qed.

(** The location record of a page. *)
Lemma load_location_record (locs : gmap PageId Z) (mx : option PageId) (sq : Z) (id : PageId) (off : Z) :
  in_u64 id -> in_u64 off ->
  exists mx', load_locations [record_put sq (le_bytes 8 id) (encode_location off)] locs mx =
    Some (<[id := off]> locs, mx').
Proof.
  intros Hid Hoff. eexists. cbn [load_locations key value record_put]. unfold encode_location.
  by rewrite !decode_location_bytes by done.
Qed.

(** ** Pages in a heap file *)

Section heap.
Context `{Crc32}.

Record page_at (data : bytes) (off : Z) (pg : Page) : Prop := {
  pa_pos : (0 <= off)%Z;
  pa_aligned : Z.to_nat off mod PAGE_SIZE = 0;
  pa_len : Z.to_nat off + PAGE_SIZE <= length data;
  pa_bytes : slice (Z.to_nat off) (Z.to_nat off + PAGE_SIZE) data = page_encode pg;
  pa_wf : wf_page pg;
}.

Definition pages_at (data : bytes) (locs : gmap PageId Z) (m : gmap PageId Page) : Prop :=
  forall id, option_Forall2 (page_at data) (locs !! id) (m !! id).

Lemma page_at_prefix (data data' : bytes) (off : Z) (pg : Page) :
  data `prefix_of` data' -> page_at data off pg -> page_at data' off pg.
Proof.
  intros [k ->] [H1 H2 H3 H4 H5]. split; try done.
  - rewrite length_app. lia.
  - rewrite <-H4. unfold slice. rewrite drop_app_le by lia. rewrite take_app_le; [done|].
    rewrite length_drop. lia.
Qed.

Lemma page_at_take (data : bytes) (n : nat) (off : Z) (pg : Page) :
  Z.to_nat off + PAGE_SIZE <= n -> page_at data off pg -> page_at (take n data) off pg.
Proof.
  intros Hn [H1 H2 H3 H4 H5]. split; try done.
  - rewrite length_take. lia.
  - rewrite <-H4. unfold slice. replace n with (Z.to_nat off + (n - Z.to_nat off)) by lia.
    rewrite <-take_drop_commute, take_take. f_equal. lia.
Qed.

Lemma pages_at_prefix (data data' : bytes) (locs : gmap PageId Z) (m : gmap PageId Page) :
  data `prefix_of` data' -> pages_at data locs m -> pages_at data' locs m.
Proof.
  intros Hp Hm id. specialize (Hm id). inversion Hm; constructor. by eapply page_at_prefix.
Qed.

Lemma pages_at_insert (data : bytes) (locs : gmap PageId Z) (m : gmap PageId Page) (id : PageId)
    (off : Z) (pg : Page) :
  pages_at data locs m -> page_at data off pg -> pages_at data (<[id := off]> locs) (<[id := pg]> m).
Proof.
  intros Hm Hp id'. destruct (decide (id = id')) as [<-|Hne].
  - rewrite !lookup_insert_eq. by constructor.
  - rewrite !lookup_insert_ne by done. apply Hm.
Qed.

(** A page behind data of whole pages. *)
Lemma page_at_end (data : bytes) (pg : Page) :
  length data mod PAGE_SIZE = 0 -> wf_page pg ->
  page_at (data ++ page_encode pg) (Z.of_nat (length data)) pg.
Proof.
  intros Hd Hw. pose proof (length_page_encode pg (proj1 Hw)) as Hl. split; try done.
  - lia.
  - by rewrite Nat2Z.id.
  - rewrite Nat2Z.id, length_app. lia.
  - rewrite Nat2Z.id. rewrite <-(app_nil_r (page_encode pg)) at 1.
    apply slice_app_mid; lia.
Qed.

(** ** The backend and what a crash leaves of it *)

(** The heap file [f] and the locations [locs] hold the pages [m], durably. *)
Record heap_pages (f : File) (locs : gmap PageId Z) (m : gmap PageId Page) : Prop := {
  hp_synced : f_synced f <= length (f_data f);
  hp_pages : pages_at (take (f_synced f) (f_data f)) locs m;
}.

(** The open backend [s] in [dir]: it holds the pages [m], gives out [next] next, and has room for
    [n] more writes and allocations. *)
Record heap_view (dir : path) (n : nat) (s : HeapPageStore) (fs : fsys) (m : gmap PageId Page)
    (next : PageId) : Prop := {
  hv_file : exists f, file_at fs (heap_path dir) = Some f /\ heap_pages f (locations s) m /\
    heap_len s = Z.of_nat (length (f_data f)) /\ length (f_data f) mod PAGE_SIZE = 0;
  hv_path : h_path (heap_file s) = heap_path dir;
  hv_dir : fs !! heap_path dir = None;
  hv_log : exists hist mx, log_holds (location_log s) fs hist /\
    load_locations hist ∅ None = Some (locations s, mx) /\ (next_of hist + Z.of_nat n < 2 ^ 64)%Z;
  hv_log_dir : log_dir (location_log s) = loc_dir dir;
  hv_active : (active_id (location_log s) + Z.of_nat n < 2 ^ 64)%Z;
  hv_len : (heap_len s + Z.of_nat n * Z.of_nat PAGE_SIZE < 2 ^ 64)%Z;
  hv_next : next_page_id s = next;
  hv_bound : (0 < next)%Z /\ (next + Z.of_nat n < 2 ^ 64)%Z;
  hv_fresh : forall id, is_Some (m !! id) -> (0 <= id < next)%Z;
}.

(** A directory from which [open] recovers the pages [m]. *)
Record heap_disk (dir : path) (n : nat) (fs : fsys) (m : gmap PageId Page) (next : PageId) : Prop := {
  hd_data : exists f hist locs mx torn, file_at fs (heap_path dir) = Some f /\ heap_pages f locs m /\
    log_recoverable fs (loc_dir dir) hist torn /\ load_locations hist ∅ None = Some (locs, mx) /\
    (next_of hist + Z.of_nat n < 2 ^ 64)%Z /\
    (Z.of_nat (length (f_data f)) + Z.of_nat n * Z.of_nat PAGE_SIZE < 2 ^ 64)%Z;
  hd_dir : fs !! heap_path dir = None;
  hd_segs : exists b, segments_upto fs (loc_dir dir) b /\ (b + Z.of_nat n < 2 ^ 64)%Z;
  hd_bound : (0 < next)%Z /\ (next + Z.of_nat n < 2 ^ 64)%Z;
  hd_fresh : forall id, is_Some (m !! id) -> (0 <= id < next)%Z;
}.

Lemma heap_view_disk (dir : path) (n : nat) (s : HeapPageStore) (fs : fsys) (m : gmap PageId Page)
    (next : PageId) :
  heap_view dir n s fs m next -> heap_disk dir n fs m next.
Proof.
  intros [(f & Hf & Hp & Hl & Ha) H1 H2 (hist & mx & Hlog & Hload & Hn) H4 H5 H6 H7 H8 H9]. split; try done.
  - exists f, hist, (locations s), mx, false. split; [done|]. split; [done|]. rewrite <-H4.
    split; [by apply log_holds_recoverable|]. split; [done|]. split; [done|]. by rewrite <-Hl.
  - exists (active_id (location_log s)). rewrite <-H4. split; [by eapply log_holds_segments|done].
Qed.

Lemma heap_pages_crash (k : nat) (f : File) (locs : gmap PageId Z) (m : gmap PageId Page) :
  heap_pages f locs m -> heap_pages (crash_file k f) locs m.
Proof.
  intros [Hs Hp]. split; simpl; [done|]. eapply pages_at_prefix; [|exact Hp].
  rewrite firstn_all. exists (drop (f_synced f) (take (f_synced f `max` k) (f_data f))).
  rewrite <-(take_drop (f_synced f) (take (f_synced f `max` k) (f_data f))) at 1. f_equal.
  rewrite take_take. f_equal. lia.
Qed.

Lemma heap_disk_crash (dir : path) (n : nat) (fs : fsys) (m : gmap PageId Page) (next : PageId)
    (cut : path -> nat) :
  heap_disk dir n fs m next -> heap_disk dir n (crash_fs cut fs) m next.
Proof.
  intros [(f & hist & locs & mx & torn & Hf & Hp & Hlog & Hload & Hn & Hl) H2 (b & Hb & Hbn) H4 H5].
  destruct (log_recoverable_crash cut _ _ _ _ Hlog) as [torn' Hlog']. split; try done.
  - exists (crash_file (cut (heap_path dir)) f), hist, locs, mx, torn'.
    split; [by rewrite file_at_crash, Hf|]. split; [by apply heap_pages_crash|].
    split; [done|]. split; [done|]. split; [done|]. simpl. rewrite length_take. lia.
  - rewrite lookup_crash_fs, H2. done.
  - exists b. split; [by apply segments_upto_crash|done].
Qed.

Lemma heap_disk_weaken (dir : path) (n n' : nat) (fs : fsys) (m : gmap PageId Page) (next : PageId) :
  n' <= n -> heap_disk dir n fs m next -> heap_disk dir n' fs m next.
Proof.
  intros Hn [(f & hist & locs & mx & torn & Hf & Hp & Hlog & Hload & Hnx & Hl) H2 (b & Hb & Hbn) H4 H5].
  split; [|done|exists b; split; [done|lia]|lia|done].
  exists f, hist, locs, mx, torn. unfold PAGE_SIZE in *. split_and!; (done || lia).
Qed.

Lemma heap_view_weaken (dir : path) (n n' : nat) (s : HeapPageStore) (fs : fsys)
    (m : gmap PageId Page) (next : PageId) :
  n' <= n -> heap_view dir n s fs m next -> heap_view dir n' s fs m next.
Proof.
  intros Hn [H0 H1 H2 (hist & mx & Hlog & Hload & Hnx) H4 H5 H6 H7 H8 H9].
  split; try done; try (unfold PAGE_SIZE in *; lia). exists hist, mx. split_and!; (done || lia).
Qed.

(** ** Reading *)

Lemma wpc_hps_read (dir : path) (n : nat) (s : HeapPageStore) (fs : fsys) (m : gmap PageId Page)
    (next id : PageId) :
  heap_view dir n s fs m next ->
  wpc no_faults (hps_read_page id) s fs
    (fun r s' fs' => (r ≡ m !! id /\ forall p, r = Some p -> wf_page p) /\ s' = s /\ fs' = fs)
    (fun _ _ _ => False) (fun _ => False).
Proof.
  intros [(f & Hf & [Hsy Hp] & _) Hpath _ _ _ _ _ _ _ _]. unfold hps_read_page. wpc_step. wpc_step.
  specialize (Hp id). destruct Hp as [off pg [P1 P2 P3 P4 P5]|].
  2: { wpc_step. split; [|done]. by split. }
  assert (page_at (f_data f) off pg) as [Q1 Q2 Q3 Q4 Q5].
  { eapply page_at_prefix; [|by split]. exists (drop (f_synced f) (f_data f)). by rewrite take_drop. }
  wpc_step. wpc_step. unfold read_exact_at, query. apply wpc_atomic; [|done|done].
  rewrite Hpath, Hf, decide_True by done. rewrite Q4. wpc_step.
  destruct (page_decode_encode_equiv pg P5) as (q & -> & Hq & Hwq).
  apply wpc_ret. wpc_step. split; [|done]. split; [by constructor|]. by intros p [= <-].
Qed.

(** ** Writing *)

Section write.
Context {F : FaultModel}.

Lemma heap_file_put (f : File) (k : nat) (bs : bytes) (locs : gmap PageId Z) (m : gmap PageId Page) :
  heap_pages f locs m -> heap_pages (mkFile (f_data f ++ take k bs) (f_synced f)) locs m.
Proof.
  intros [Hs Hp]. split; simpl; [rewrite length_app; lia|]. by rewrite take_app_le by done.
Qed.

(** The bytes of a page at the end of the heap file, synced. *)
Lemma wpc_heap_append (h : Handle) (fs : fsys) (f : File) (bs : bytes) (off : nat) :
  file_at fs (h_path h) = Some f -> off = length (f_data f) -> f_synced f <= length (f_data f) ->
  let ok fs' := exists k, fs' = put_file (h_path h) (mkFile (f_data f ++ take k bs) (f_synced f)) fs in
  wpc F (seek off;; write_all bs;; sync_data) h fs
    (fun _ h' fs' => h_path h' = h_path h /\
       fs' = put_file (h_path h) (mkFile (f_data f ++ bs) (length (f_data f ++ bs))) fs)
    (fun _ _ fs' => may_err F /\ ok fs') (fun fs' => may_crash F /\ ok fs').
Proof.
  intros Hf -> Hs ok.
  assert (forall b, write_at (length (f_data f)) b f = mkFile (f_data f ++ b) (f_synced f)) as Hw.
  { intros b. unfold write_at. rewrite firstn_all, Nat.sub_diag, drop_ge by lia. simpl.
    rewrite app_nil_r. f_equal. lia. }
  assert (ok fs) as Hok0.
  { exists 0. rewrite take_0, app_nil_r. symmetry. apply put_file_id. rewrite Hf. by destruct f. }
  wpc_step. unfold seek. apply wpc_atomic; [|done|done].
  wpc_step. unfold write_all. apply wpc_prim.
  - cbn [h_path]. rewrite Hf. unfold write_step. cbn [h_path h_pos]. rewrite Hf, Hw.
    unfold sync_data. apply wpc_atomic; cbn [h_path].
    + rewrite file_at_put_eq by (rewrite Hf; by eexists). cbn [f_data]. split; [done|].
      by rewrite put_file_put.
    + intros HF. split; [done|]. exists (length bs). by rewrite firstn_all.
    + intros HF. split; [done|]. exists (length bs). by rewrite firstn_all.
  - intros HF k. split; [done|]. unfold write_step. cbn [h_path h_pos snd]. rewrite Hf, Hw. by exists k.
  - intros HF k. split; [done|]. unfold write_step. cbn [h_path h_pos snd]. rewrite Hf, Hw. by exists k.
Qed.
End write.
End heap.

Section heap_ops.
Context `{Crc32, DirOrder}.

Lemma heap_path_ne (dir : path) : heap_path dir <> loc_dir dir.
Proof. unfold heap_path, loc_dir, path_join. by intros [=]. Qed.

Lemma loc_dir_ne (dir : path) : dir <> loc_dir dir.
Proof. intros Heq. symmetry in Heq. unfold loc_dir, path_join in Heq. by apply cons_ne_self in Heq. Qed.

Lemma heap_file_frame (dir : path) (fs fs' : fsys) :
  log_frame (loc_dir dir) fs fs' ->
  file_at fs' (heap_path dir) = file_at fs (heap_path dir) /\
  fs' !! heap_path dir = fs !! heap_path dir.
Proof.
  intros (Hf & _). split.
  - unfold file_at, heap_path, path_join. rewrite Hf; [done|apply loc_dir_ne].
  - apply Hf. apply heap_path_ne.
Qed.

Lemma below_heap_put (dir : path) (fs : fsys) (f : File) : below dir fs (put_file (heap_path dir) f fs).
Proof. intros q Hq. apply put_file_dir_ne. by intros <-. Qed.

Lemma below_locations (dir : path) (fs fs' : fsys) : log_frame (loc_dir dir) fs fs' -> below dir fs fs'.
Proof.
  intros Hf%below_log_frame q Hq. apply Hf. intros Hs. apply Hq. etrans; [|exact Hs]. by apply suffix_cons_r.
Qed.

(** What is left of a directory of which the location log is [hist], whatever the segments. *)
Lemma heap_disk_pages (dir : path) (fs : fsys) (f : File) (hist : list LogRecord)
    (locs : gmap PageId Z) (mx : option PageId) (torn : bool) (m : gmap PageId Page) (next : PageId) :
  file_at fs (heap_path dir) = Some f -> heap_pages f locs m ->
  log_recoverable fs (loc_dir dir) hist torn -> load_locations hist ∅ None = Some (locs, mx) ->
  (Z.of_nat (length (f_data f)) < 2 ^ 64)%Z -> fs !! heap_path dir = None ->
  (0 < next < 2 ^ 64)%Z -> (forall id, is_Some (m !! id) -> (0 <= id < next)%Z) ->
  heap_disk dir 0 fs m next.
Proof.
  intros Hf Hp Hlog Hload Hlen Hd Hn Hfr. pose proof (next_of_range hist). split; [|done| |lia|done].
  - exists f, hist, locs, mx, torn. split_and!; (done || lia).
  - exists (2 ^ 64 - 1)%Z. split; [|lia]. intros id Hu _. unfold in_u64 in Hu. lia.
Qed.

(** The heap file after a page has been appended and synced: it holds the pages it held, and the new
    one where a location says so. *)
Definition appended (f : File) (page : Page) : File :=
  mkFile (f_data f ++ page_encode page) (length (f_data f ++ page_encode page)).

Lemma appended_pages (f : File) (locs : gmap PageId Z) (m : gmap PageId Page) (id : PageId) (page : Page) :
  heap_pages f locs m -> length (f_data f) mod PAGE_SIZE = 0 -> wf_page page ->
  heap_pages (appended f page) locs m /\
  heap_pages (appended f page) (<[id := Z.of_nat (length (f_data f))]> locs) (<[id := page]> m).
Proof.
  intros [Hs Hp] Ha Hw.
  assert (pages_at (f_data f ++ page_encode page) locs m) as Hall.
  { eapply pages_at_prefix; [|exact Hp]. exists (drop (f_synced f) (f_data f) ++ page_encode page).
    by rewrite app_assoc, take_drop. }
  split; (split; [done|]); cbn [appended f_data f_synced]; rewrite firstn_all; [done|].
  apply pages_at_insert; [done|by apply page_at_end].
Qed.

(** Part of a page at the end of the heap file leaves what was there. *)
Lemma heap_torn_page (dir : path) (n : nat) (s : HeapPageStore) (fs : fsys) (m : gmap PageId Page)
    (next : PageId) (f : File) (bs : bytes) (k : nat) (cut : path -> nat) :
  heap_view dir (Datatypes.S n) s fs m next -> file_at fs (heap_path dir) = Some f -> length bs = PAGE_SIZE ->
  heap_disk dir 0
    (crash_fs cut (put_file (heap_path dir) (mkFile (f_data f ++ take k bs) (f_synced f)) fs)) m next.
Proof.
  intros [(f' & Hf' & Hp & Hl & _) _ Hdir (hist & mx & Hlog & Hload & _) Hld _ Hlen _ Hb Hfr] Hf Hbs.
  simplify_eq. apply heap_disk_crash. eapply heap_disk_pages.
  - apply file_at_put_eq. by eexists.
  - by apply heap_file_put.
  - eapply log_recoverable_agrees; [apply log_agrees_put, loc_dir_ne|]. rewrite <-Hld.
    by apply log_holds_recoverable.
  - exact Hload.
  - simpl. rewrite length_app, length_take. unfold PAGE_SIZE in *. lia.
  - by apply put_file_None.
  - lia.
  - done.
Qed.

(** A location record that may not be durable yet: the page is there or it is not. *)
Lemma heap_location_crash (dir : path) (fs1 fs2 : fsys) (g : File) (hist : list LogRecord)
    (locs : gmap PageId Z) (mx : option PageId) (m : gmap PageId Page) (next id : PageId) (off : Z)
    (page : Page) (cut : path -> nat) :
  let op := OpPut (le_bytes 8 id) (encode_location off) in
  file_at fs1 (heap_path dir) = Some g -> fs1 !! heap_path dir = None ->
  (Z.of_nat (length (f_data g)) < 2 ^ 64)%Z ->
  heap_pages g locs m -> heap_pages g (<[id := off]> locs) (<[id := page]> m) ->
  load_locations hist ∅ None = Some (locs, mx) -> (next_of hist + 1 < 2 ^ 64)%Z ->
  in_u64 id -> in_u64 off -> wf_op op ->
  (0 < next < 2 ^ 64)%Z -> (forall x, is_Some (m !! x) -> (0 <= x < next)%Z) -> (0 <= id < next)%Z ->
  log_pending fs2 (loc_dir dir) hist [op_record (next_of hist) op] -> log_frame (loc_dir dir) fs1 fs2 ->
  heap_disk dir 0 (crash_fs cut fs2) m next \/ heap_disk dir 0 (crash_fs cut fs2) (<[id := page]> m) next.
Proof.
  intros op Hg Hd Hlen Hp Hp' Hload Hn Hid Hoff Hop Hb Hfr Hr Hpe Hframe.
  destruct (heap_file_frame dir _ _ Hframe) as [Hf2 Hd2].
  assert (wf_hist [op_record (next_of hist) op]) as Hwr.
  { apply (batch_records_wf (next_of hist) [op]); [apply next_of_range|cbn [length]; lia|by constructor]. }
  destruct (log_pending_crash cut _ _ _ _ Hpe Hwr) as (k & torn & Hrec).
  assert (file_at (crash_fs cut fs2) (heap_path dir) = Some (crash_file (cut (heap_path dir)) g)) as Hgc
    by by rewrite file_at_crash, Hf2, Hg.
  assert (crash_fs cut fs2 !! heap_path dir = None) as Hnone by by rewrite lookup_crash_fs, Hd2, Hd.
  assert (Z.of_nat (length (f_data (crash_file (cut (heap_path dir)) g))) < 2 ^ 64)%Z as Hlg
    by (simpl; rewrite length_take; lia).
  destruct k as [|k].
  - left. rewrite app_nil_r in Hrec.
    by eapply heap_disk_pages; [exact Hgc|apply heap_pages_crash|exact Hrec|exact Hload|..].
  - right. destruct (load_location_record locs mx (next_of hist) id off Hid Hoff) as [mx' Hl].
    eapply heap_disk_pages; [exact Hgc|by apply heap_pages_crash|exact Hrec| |done|done|done|].
    + rewrite load_locations_app, Hload. cbn [take]. by rewrite take_nil.
    + intros x [q [[<- _]|[_ Hq]]%lookup_insert_Some]; [done|]. apply Hfr. by eexists.
Qed.

(** The backend once the page is in the heap file and its location in the log. *)
Lemma heap_located (dir : path) (n : nat) (s : HeapPageStore) (fs fs2 : fsys) (f : File) (h : Handle)
    (l : Log) (hist : list LogRecord) (mx : option PageId) (m : gmap PageId Page) (next id : PageId) (page : Page) :
  let op := OpPut (le_bytes 8 id) (encode_location (heap_len s)) in
  heap_view dir (Datatypes.S n) s fs m next -> (0 <= id < next)%Z -> wf_page page ->
  file_at fs (heap_path dir) = Some f -> wf_hist hist -> load_locations hist ∅ None = Some (locations s, mx) ->
  (next_of hist + Z.of_nat (Datatypes.S n) < 2 ^ 64)%Z -> wf_op op ->
  h_path h = heap_path dir -> file_at fs2 (heap_path dir) = Some (appended f page) ->
  fs2 !! heap_path dir = None ->
  log_holds l fs2 (hist ++ [op_record (next_of hist) op]) -> log_dir l = log_dir (location_log s) ->
  (active_id l <= active_id (location_log s) + 1)%Z ->
  heap_view dir n (mkHeap h (u64_add (heap_len s) (Z.of_nat PAGE_SIZE)) l (<[id := heap_len s]> (locations s))
    (next_page_id s)) fs2 (<[id := page]> m) next.
Proof.
  intros op [(f' & Hf' & Hp & Hlen & Ha) Hpath Hdir _ Hld Hact Hroom Hnext Hb Hfr] Hid Hpg Hf Hwf Hload Hn Hop
    Hh Hf2 Hd2 Hl Hdl Hal. assert (f' = f) as -> by congruence.
  pose proof (length_page_encode page (proj1 Hpg)) as Hpl.
  assert (in_u64 id /\ in_u64 (heap_len s)) as [Hidu Hoff] by (rewrite Hlen; split; width_lia).
  assert (u64_add (heap_len s) (Z.of_nat PAGE_SIZE) = heap_len s + Z.of_nat PAGE_SIZE)%Z as Hadd.
  { unfold u64_add. apply u64_small. rewrite Hlen in *. unfold PAGE_SIZE in *. width_lia. }
  split; cbn [heap_file heap_len location_log locations next_page_id]; rewrite ?Hadd, ?Hdl; try done; try lia.
  - exists (appended f page). split; [done|]. rewrite Hlen. split; [by apply appended_pages|].
    unfold appended. cbn [f_data]. rewrite length_app, Hpl. split; [lia|]. by rewrite Nat.Div0.add_mod, Ha.
  - destruct (load_location_record (locations s) mx (next_of hist) id (heap_len s) Hidu Hoff) as [mx' Hrec].
    exists (hist ++ [op_record (next_of hist) op]), mx'. split; [done|]. split.
    + by rewrite load_locations_app, Hload.
    + destruct (next_of_batch hist [op] Hwf) as [_ Hnb]; [by constructor|cbn [length]; lia|].
      cbn [batch_records length] in Hnb. rewrite Hnb. lia.
  - intros x [q [[<- _]|[_ Hq]]%lookup_insert_Some]; [done|]. apply Hfr. by eexists.
Qed.

Lemma wpc_hps_write {F : FaultModel} (dir : path) (n : nat) (s : HeapPageStore) (fs : fsys)
    (m : gmap PageId Page) (next id : PageId) (page : Page) :
  heap_view dir (Datatypes.S n) s fs m next -> (0 <= id < next)%Z -> wf_page page ->
  let ok fs' := forall cut, heap_disk dir 0 (crash_fs cut fs') m next \/
    heap_disk dir 0 (crash_fs cut fs') (<[id := page]> m) next in
  wpc F (hps_write_page id page) s fs
    (fun _ s' fs' => heap_view dir n s' fs' (<[id := page]> m) next /\ below dir fs fs')
    (fun _ _ fs' => may_err F /\ ok fs') (fun fs' => may_crash F /\ ok fs').
Proof.
  intros Hv Hid Hpg ok. pose proof (length_page_encode page (proj1 Hpg)) as Hpl.
  pose proof Hv as [(f & Hf & Hp & Hl & Ha) Hpath Hdir (hist & mx & Hlog & Hload & Hnx) Hld Hact Hlen Hnext Hb Hfr].
  assert (forall k, ok (put_file (heap_path dir) (mkFile (f_data f ++ take k (page_encode page)) (f_synced f)) fs)) as Hok1.
  { intros k cut. left. by eapply heap_torn_page. }
  set (g := appended f page). set (fs1 := put_file (heap_path dir) g fs).
  assert (file_at fs1 (heap_path dir) = Some g) as Hg by (apply file_at_put_eq; rewrite Hf; by eexists).
  assert (fs1 !! heap_path dir = None) as Hd1 by by apply put_file_None.
  assert (log_holds (location_log s) fs1 hist) as Hlog1.
  { eapply log_holds_agrees; [|exact Hlog]. rewrite Hld. apply log_agrees_put, loc_dir_ne. }
  destruct (appended_pages f (locations s) m id page Hp Ha Hpg) as [Hp1 Hp2]. fold g in Hp1, Hp2. rewrite <-Hl in Hp2.
  assert (length (f_data g) = length (f_data f) + PAGE_SIZE) as Hgl by (unfold g; simpl; rewrite length_app; lia).
  assert (in_u64 id /\ in_u64 (heap_len s)) as [Hidu Hoff] by (rewrite Hl; split; width_lia).
  set (op := OpPut (le_bytes 8 id) (encode_location (heap_len s))).
  assert (wf_op op) as Hop by (unfold op, encode_location, wf_op; rewrite !length_le_bytes; lia).
  assert (forall fs2, log_pending fs2 (loc_dir dir) hist [op_record (next_of hist) op] ->
    log_frame (loc_dir dir) fs1 fs2 -> ok fs2) as Hcrash.
  { intros fs2 Hpe Hfr2 cut. eapply (heap_location_crash dir fs1 fs2 g); try done; unfold PAGE_SIZE in *; lia. }
  unfold hps_write_page. wpc_step. wpc_step. cbv zeta. wpc_step. wpc_step. wpc_step.
  eapply wpc_mono; [apply (wpc_heap_append (heap_file s) fs f (page_encode page) _);
    [by rewrite Hpath|by rewrite Hl, Nat2Z.id|apply (hp_synced _ _ _ Hp)]| | |].
  2: { intros e h' fs' [HF [k ->]]. split; [done|]. rewrite Hpath. apply Hok1. }
  2: { intros fs' [HF [k ->]]. split; [done|]. rewrite Hpath. apply Hok1. }
  intros [] h' fs' [Hh' ->]. rewrite Hpath in *. fold (appended f page) g fs1.
  wpc_step. wpc_step. wpc_step. wpc_step. wpc_step. cbn [location_log set_heap_len set_heap_file].
  eapply wpc_mono; [apply (wpc_append_op op (location_log s) fs1 hist Hlog1); [lia|done|lia]| | |].
  - intros r l' fs2 (-> & Hl' & Hd' & Ha' & Hfr2). wpc_step. rewrite Hld in Hfr2.
    split; [|by etrans; [apply below_heap_put|apply below_locations]].
    destruct (heap_file_frame dir _ _ Hfr2) as [Hf2 Hd2]. destruct Hlog as (ss & rs & Hli).
    apply (heap_located dir n s fs fs2 f h' l' hist mx m next id page); try done;
      [apply (li_wf _ _ _ _ _ Hli)|by rewrite Hf2|by rewrite Hd2].
  - intros e l' fs2 [HF [Hpe Hfr2]]. rewrite Hld in *. by split; [|apply Hcrash].
  - intros fs2 [HF [Hpe Hfr2]]. rewrite Hld in *. by split; [|apply Hcrash].
Qed.

(** ** Opening *)

(** The cut of the heap file to whole pages keeps every page. *)
Lemma heap_pages_resize (f : File) (len : nat) (locs : gmap PageId Z) (m : gmap PageId Page) :
  heap_pages f locs m -> len = length (f_data f) - length (f_data f) mod PAGE_SIZE ->
  heap_pages (resize_file len f) locs m.
Proof.
  intros [Hs Hp] Hlen. pose proof (Nat.Div0.mod_le (length (f_data f)) PAGE_SIZE) as Hle.
  assert (f_data (resize_file len f) = take len (f_data f)) as Hd.
  { simpl. replace (len - length (f_data f)) with 0 by lia. by rewrite app_nil_r. }
  split; rewrite Hd; cbn [f_synced resize_file]; [rewrite length_take; lia|].
  rewrite take_take. intros id. specialize (Hp id). inversion Hp as [off pg Hpa|]; constructor.
  replace (take ((f_synced f `min` len) `min` len) (f_data f))
    with (take len (take (f_synced f) (f_data f))) by (rewrite take_take; f_equal; lia).
  apply page_at_take; [|done]. destruct Hpa as [_ G2 G3 _ _]. rewrite length_take in G3.
  assert (Z.to_nat off + PAGE_SIZE <= length (f_data f)) as Hle2 by lia.
  apply Nat.Div0.mod_divides in G2 as [q Hq]. rewrite Hq in *. rewrite Hlen.
  rewrite (Nat.div_mod_eq (length (f_data f)) PAGE_SIZE) at 1.
  assert (q + 1 <= length (f_data f) / PAGE_SIZE) as Hq1.
  { apply Nat.div_le_lower_bound; unfold PAGE_SIZE in *; lia. }
  unfold PAGE_SIZE in *. nia.
Qed.

Lemma next_page_id_of_locations (locs : gmap PageId Z) (mx : option PageId) (m : gmap PageId Page)
    (data : bytes) (next : PageId) :
  max_location locs mx -> pages_at data locs m -> (0 < next < 2 ^ 64)%Z ->
  (forall id, is_Some (m !! id) -> (0 <= id < next)%Z) ->
  (0 < next_page_id_after mx <= next)%Z /\
  forall id, is_Some (m !! id) -> (0 <= id < next_page_id_after mx)%Z.
Proof.
  intros Hmx Hp Hn Hfr.
  assert (forall id, is_Some (m !! id) <-> is_Some (locs !! id)) as Hdom.
  { intros id. destruct (Hp id); split; intros [? ?]; (done || by eexists). }
  destruct mx as [x|]; simpl in Hmx |- *.
  - destruct Hmx as [Hx Hmax]. apply Hdom in Hx. pose proof (Hfr x Hx) as Hxr.
    unfold u64_add. rewrite u64_small by width_lia. split; [lia|].
    intros id Hid. pose proof (Hfr id Hid). apply Hdom, Hmax in Hid. lia.
  - split; [lia|]. intros id Hid. apply Hdom in Hid. subst locs. by destruct Hid.
Qed.

(** The first part of [open]: the heap file is cut to whole pages. *)
Lemma wpc_cut_heap {S : Type} (s : S) (h : Handle) (fs : fsys) (f : File) :
  file_at fs (h_path h) = Some f -> f_synced f <= length (f_data f) ->
  let torn := length (f_data f) mod PAGE_SIZE in
  let len := length (f_data f) - torn in
  wpc no_faults (if decide (torn <> 0) then
      ('(_, heap_file) ← on h (map_err HpsIo (set_len len));
       mret (len, heap_file))
    else mret (length (f_data f), h) : M S HeapPageStoreError _) s fs
    (fun a s' fs' => a.1 = len /\ h_path a.2 = h_path h /\ s' = s /\
       fs' = put_file (h_path h) (resize_file len f) fs)
    (fun _ _ _ => False) (fun _ => False).
Proof.
  intros Hf Hs torn len. case_decide as Ht.
  - wpc_step. wpc_step. wpc_step. unfold set_len. apply wpc_atomic; [|done|done]. rewrite Hf.
    wpc_step. done.
  - wpc_step. unfold len. assert (torn = 0) as -> by lia. rewrite Nat.sub_0_r. split_and!; try done.
    symmetry. apply put_file_id. rewrite Hf. destruct f as [data sy]. unfold resize_file. simpl in *.
    rewrite Nat.sub_diag, firstn_all, app_nil_r. do 2 f_equal. lia.
Qed.

Lemma mod_cut (a b : nat) : (a - a mod b) mod b = 0.
Proof.
  destruct b as [|b]; [simpl; lia|]. rewrite (Nat.div_mod_eq a (S b)) at 1.
  rewrite Nat.add_sub, Nat.mul_comm. apply Nat.Div0.mod_mul.
Qed.

Lemma wpc_hps_open (dir : path) (n : nat) (fs : fsys) (m : gmap PageId Page) (next : PageId) :
  heap_disk dir n fs m next ->
  wpc no_faults (hps_open dir) tt fs
    (fun s _ fs' => below dir fs fs' /\ exists next', (0 < next' <= next)%Z /\ heap_view dir n s fs' m next')
    (fun _ _ _ => False) (fun _ => False).
Proof.
  intros [(f & hist & locs & mx & torn & Hf & Hp & Hlog & Hload & Hnx & Hlen) Hdir (b & Hb & Hbn) [Hn1 Hn2] Hfr].
  assert (dir_ok fs dir) as Hok.
  { destruct Hlog as (ss & id & f' & rs & tail & Hld & _). intros q Hq. apply (dl_ok _ _ _ (ld_disk _ _ _ _ _ Hld)).
    unfold loc_dir, path_join. by apply suffix_cons_r. }
  destruct (Hok dir (reflexivity dir)) as [files Hfiles].
  assert (files !! HEAP_FILE_NAME = Some f) as Hfile.
  { unfold file_at, heap_path, path_join in Hf. by rewrite Hfiles in Hf. }
  pose proof (Nat.Div0.mod_le (length (f_data f)) PAGE_SIZE) as Hmod.
  unfold hps_open. wpc_step. wpc_step.
  eapply wpc_mono; [by apply wpc_create_dir_ok| |by intros ? ? ? [[] _]|by intros ? [[] _]].
  intros [] [] fs0 ->. wpc_step. wpc_step. unfold open_rw_create. apply wpc_atomic; [|done|done].
  unfold heap_path, path_join. fold (path_join dir HEAP_FILE_NAME). fold (heap_path dir).
  rewrite Hdir, Hfiles, Hfile. wpc_step. wpc_step. wpc_step. unfold metadata_len. apply wpc_atomic; [|done|done].
  cbn [h_path]. rewrite Hf. cbv zeta. wpc_step.
  eapply wpc_mono; [apply (wpc_cut_heap tt (mkHandle (heap_path dir) 0) fs f Hf (hp_synced _ _ _ Hp))| |done|done].
  cbn [h_path]. set (len := length (f_data f) - length (f_data f) mod PAGE_SIZE).
  intros [len0 h] [] fs1 (Hlen0 & Hh & _ & ->). cbn [fst snd] in Hlen0, Hh. subst len0.
  set (g := resize_file len f). set (fs1 := put_file (heap_path dir) g fs).
  assert (log_agrees (loc_dir dir) fs fs1) as Hagr by (apply log_agrees_put, loc_dir_ne).
  assert (heap_pages g locs m) as Hp1 by by apply heap_pages_resize.
  assert (length (f_data g) = len) as Hglen.
  { simpl. rewrite length_app, length_take, length_replicate. lia. }
  pose proof (load_locations_max _ _ _ _ _ Hload eq_refl) as Hmx.
  destruct (next_page_id_of_locations _ _ _ _ next Hmx (hp_pages _ _ _ Hp1)) as [Hnext Hfr']; [lia|done|].
  wpc_step. wpc_step. unfold log_open.
  eapply wpc_mono; [apply (wpc_open_recoverable_id fs1 (loc_dir dir) DEFAULT_SEGMENT_MAX_BYTES hist torn); [by intros []|]| |done|by intros ? [[] _]].
  { by eapply log_recoverable_agrees. }
  intros [l rep] [] fs2 (Hl & Hld & _ & Hrep & Hfr2 & Hact). cbn [fst snd] in *. subst rep.
  destruct (heap_file_frame dir _ _ Hfr2) as [Hf2 Hd2].
  wpc_step. cbn [rep_records]. rewrite Hload. apply wpc_ret. wpc_step.
  split; [by etrans; [apply below_heap_put|apply below_locations]|].
  exists (next_page_id_after mx). split; [done|].
  assert (file_at fs2 (heap_path dir) = Some g) as Hg by (rewrite Hf2; apply file_at_put_eq; rewrite Hf; by eexists).
  split; cbn [heap_file heap_len location_log locations next_page_id]; try done.
  - exists g. rewrite Hglen. split_and!; try done. apply mod_cut.
  - rewrite Hd2. by apply put_file_None.
  - exists hist, mx. done.
  - destruct Hl as (ss & rs & Hli). pose proof (log_disk_id_u64 _ _ _ _ _ (li_disk _ _ _ _ _ Hli)) as Hu.
    pose proof (segments_upto_agrees _ _ _ _ Hagr Hb (active_id l) Hu Hact). lia.
  - unfold PAGE_SIZE in *. lia.
  - lia.
Qed.

(** ** The laws *)

Lemma wpc_hps_allocate (dir : path) (n : nat) (s : HeapPageStore) (fs : fsys) (m : gmap PageId Page)
    (next : PageId) :
  heap_view dir (Datatypes.S n) s fs m next ->
  wpc no_faults hps_allocate_page_id s fs
    (fun id s' fs' => id = next /\ heap_view dir n s' fs' m (next + 1) /\ fs' = fs)
    (fun _ _ _ => False) (fun _ => False).
Proof.
  intros [H0' H1 H2 (hist & mx & Hlog & Hload & Hnx) H4 H5 H6 H7 [H8 H9] Hfr].
  unfold hps_allocate_page_id. wpc_steps. split; [done|]. split; [|done].
  split; cbn [heap_file heap_len location_log locations next_page_id set_next_page_id]; try done; try lia.
  - exists hist, mx. split_and!; (done || lia).
  - unfold u64_add. rewrite u64_small by width_lia. lia.
  - intros id Hid. pose proof (Hfr id Hid). lia.
Qed.

(** The backend in [dir] in a file system that differs from [fs0] in that directory only. *)
Definition framed_view (dir : path) (fs0 : fsys) (n : nat) (s : HeapPageStore) (fs : fsys)
    (m : gmap PageId Page) (next : PageId) : Prop :=
  heap_view dir n s fs m next /\ below dir fs0 fs.

Program Definition heap_laws (dir : path) (fs0 : fsys) : PageStoreLaws HeapPageStore HeapPageStoreError :=
  {| ps_view := framed_view dir fs0 |}.
Next Obligation. intros dir fs0 n s fs m next id [Hv _]. apply (hv_fresh _ _ _ _ _ _ Hv). Qed.
Next Obligation. intros dir fs0 n s fs m next [Hv _]. pose proof (hv_bound _ _ _ _ _ _ Hv). lia. Qed.
Next Obligation. intros dir fs0 n s fs m next id [Hv _] Hid. by eapply wpc_hps_read. Qed.
Next Obligation.
  intros dir fs0 n s fs m next id page [Hv Hb] Hid Hp.
  eapply wpc_mono; [by apply (wpc_hps_write dir n)| |by intros ? ? ? [[] _]|by intros ? [[] _]].
  intros [] s' fs' [Hv' Hb']. split; [done|]. by etrans.
Qed.
Next Obligation.
  intros dir fs0 n s fs m next [Hv Hb].
  eapply wpc_mono; [by apply (wpc_hps_allocate dir n)| |done|done].
  by intros id s' fs' (-> & Hv' & ->).
Qed.
Next Obligation. intros dir fs0 n n' s fs m next Hn [Hv Hb]. split; [by eapply heap_view_weaken|done]. Qed.

(** ** Durability *)

(** After a restart on [fs], every page id reads as in [m]. *)
Definition reopens (dir : path) (fs : fsys) (m : gmap PageId Page) : Prop :=
  wpc no_faults (hps_open dir) tt fs
    (fun s _ fs' => (forall id, wpc no_faults (hps_read_page id) s fs'
         (fun r s2 fs2 => r ≡ m !! id /\ s2 = s /\ fs2 = fs') (fun _ _ _ => False) (fun _ => False)) /\
       forall id, is_Some (m !! id) -> (id < next_page_id s)%Z)
    (fun _ _ _ => False) (fun _ => False).

Lemma heap_disk_reopens (dir : path) (n : nat) (fs : fsys) (m : gmap PageId Page) (next : PageId) :
  heap_disk dir n fs m next -> reopens dir fs m.
Proof.
  intros Hd. eapply wpc_mono; [by apply wpc_hps_open| |done|done].
  intros s [] fs' (_ & next' & _ & Hv). split.
  - intros id. eapply wpc_mono; [by eapply wpc_hps_read| |done|done]. by intros r s2 fs2 [[Hr _] Hrest].
  - intros id Hid. rewrite (hv_next _ _ _ _ _ _ Hv). by apply (hv_fresh _ _ _ _ _ _ Hv).
Qed.

(** C20: A page write is atomic and durable: under any faults of the disk, when [write_page] returns,
    a restart after any later crash, whatever part of the file cache is lost, reads the page under
    its id and every other page as before; when it fails or the process dies inside it, at
    whatever byte of the heap file or of the location log, a restart reads either all pages as
    before or all pages with the new one. *)
Theorem heap_write_atomic (dir : path) (n : nat) (s : HeapPageStore) (fs : fsys) (m : gmap PageId Page)
    (next id : PageId) (page : Page) :
  heap_view dir (Datatypes.S n) s fs m next -> (0 <= id < next)%Z -> wf_page page ->
  let old_or_new fs' := forall cut, reopens dir (crash_fs cut fs') m \/
    reopens dir (crash_fs cut fs') (<[id := page]> m) in
  wpc any_fault (hps_write_page id page) s fs
    (fun _ s' fs' => heap_view dir n s' fs' (<[id := page]> m) next /\
       forall cut, reopens dir (crash_fs cut fs') (<[id := page]> m))
    (fun _ _ fs' => old_or_new fs') old_or_new.
Proof.
  intros Hv Hid Hp old_or_new. eapply wpc_mono; [by apply (wpc_hps_write dir n)| | |].
  - intros [] s' fs' [Hv' _]. split; [done|]. intros cut.
    eapply heap_disk_reopens, heap_disk_crash, heap_view_disk, Hv'.
  - intros e s' fs' [_ Hok] cut. destruct (Hok cut); [left|right]; by eapply heap_disk_reopens.
  - intros fs' [_ Hok] cut. destruct (Hok cut); [left|right]; by eapply heap_disk_reopens.
Qed.
End heap_ops.

(** ** A concrete backend *)

Section heap_witnesses.
#[local] Existing Instances sum_crc32 map_order.

(** The directories of a store that has been opened once: a log and an index, all empty. *)
Definition example_index : path := path_join example_dir (ascii "index").

Definition example_log_dir : path := path_join example_dir (ascii "log").

Definition example_dirs : fsys :=
  <[loc_dir example_index := ∅]> (<[example_index := ∅]> (<[example_log_dir := ∅]> example_root)).

Definition example_store_fs : fsys :=
  put_file (segment_path example_log_dir 0) (sfile [])
    (put_file (heap_path example_index) (mkFile [] 0)
      (put_file (segment_path (loc_dir example_index) 0) (sfile []) example_dirs)).

Lemma example_dirs_sub (n : bytes) (d : path) :
  d = example_log_dir \/ d = loc_dir example_index -> example_dirs !! (n :: d) = None.
Proof.
  intros Hd. unfold example_dirs. rewrite !lookup_insert_ne.
  - unfold example_root, empty_fs. rewrite lookup_insert_ne by by destruct Hd as [-> | ->].
    apply lookup_singleton_ne. by destruct Hd as [-> | ->].
  - by destruct Hd as [-> | ->]; intros [=].
  - by destruct Hd as [-> | ->]; intros [=].
  - destruct Hd as [-> | ->]; by intros [=].
Qed.

Lemma example_dirs_log (d : path) :
  d = example_log_dir \/ d = loc_dir example_index -> disk_log example_dirs d ∅.
Proof.
  intros Hd. assert (forall q, q ∈ [example_dir; example_index; example_log_dir; loc_dir example_index; []] ->
    is_Some (example_dirs !! q)) as Hs.
  { intros q Hq. repeat (apply elem_of_cons in Hq as [->|Hq]; [by_compute|]). by apply not_elem_of_nil in Hq. }
  apply disk_log_empty_dir.
  - intros q Hq. apply Hs. destruct Hd as [-> | ->];
      repeat (apply suffix_cons_or in Hq as [->|Hq]; [by_compute|]); apply suffix_nil_inv in Hq as ->; by_compute.
  - destruct Hd as [-> | ->]; reflexivity.
  - intros n. by apply example_dirs_sub.
Qed.

Lemma example_store_fs_logs :
  log_disk example_store_fs example_log_dir [] 0 (sfile []) /\
  log_disk example_store_fs (loc_dir example_index) [] 0 (sfile []).
Proof.
  assert (in_u64 0) as H0' by by_compute. split.
  - apply disk_log_put_new; [|done]. do 2 (eapply disk_log_agrees; [apply log_agrees_put; by intros [=]|]).
    apply example_dirs_log. by left.
  - do 2 (eapply log_disk_agrees; [apply log_agrees_put; by intros [=]|]).
    apply disk_log_put_new; [|done]. apply example_dirs_log. by right.
Qed.

Definition example_heap : HeapPageStore :=
  mkHeap (mkHandle (heap_path example_index) 0) 0
    (opened (loc_dir example_index) DEFAULT_SEGMENT_MAX_BYTES [] 0 [] false).1 ∅ 1.

Lemma example_heap_view (n : nat) :
  (Z.of_nat n < 2 ^ 32)%Z -> heap_view example_index n example_heap example_store_fs ∅ 1.
Proof.
  intros Hn. split; try done.
  - exists (mkFile [] 0). split; [by vm_compute|]. split; [|done]. split; [done|].
    intros id. rewrite !lookup_empty. constructor.
  - exists [], None. split; [|split; [done|rewrite next_of_nil; lia]].
    apply (opened_holds _ _ _ [] 0 [] false); [apply example_store_fs_logs|by_compute].
  - cbn [location_log example_heap opened fst active_id]. lia.
  - cbn [heap_len example_heap]. unfold PAGE_SIZE. lia.
  - lia.
  - intros id. rewrite lookup_empty. by intros [? ?].
Qed.

Lemma heap_write_atomic_witness :
  let old_or_new fs' := forall cut, reopens example_index (crash_fs cut fs') ∅ \/
    reopens example_index (crash_fs cut fs') (<[0%Z := example_page]> ∅) in
  wpc any_fault (hps_write_page 0 example_page) example_heap example_store_fs
    (fun _ s' fs' => heap_view example_index 7 s' fs' (<[0%Z := example_page]> ∅) 1 /\
       forall cut, reopens example_index (crash_fs cut fs') (<[0%Z := example_page]> ∅))
    (fun _ _ fs' => old_or_new fs') old_or_new.
Proof.
  apply heap_write_atomic; [by apply example_heap_view|lia|apply (wf_page_rep _ _ example_page_rep)].
Defined.
End heap_witnesses.
