(* ===== verification/Buffer.v ===== *)
(** * Buffer: the buffer pool

    Models [crates/storage/src/buffer.rs]: a fixed number of frames with pins, dirty bits and
    clock eviction, over any [PageStore]. An index out of the vector of frames panics. *)
From S2P Require Export PageStore.

(** [enum BufferError]. *)
Inductive BufferError (E : Type) :=
| PoolExhausted (capacity : nat)
| NotPinned (id : PageId)
| BufStore (e : E).
Arguments PoolExhausted {E} capacity.
Arguments NotPinned {E} id.
Arguments BufStore {E} e.

(** [struct Frame]. *)
Record Frame := mkFrame {
  fr_page_id : PageId;
  fr_page : Page;
  fr_pin_count : Z;
  fr_dirty : bool;
  fr_ref_bit : bool;
}.

(** [struct BufferPool]. *)
Record BufferPool (S : Type) := mkPool {
  pool_store : S;
  capacity : nat;
  frames : list Frame;
  page_table : gmap PageId nat;
  clock_hand : nat;
}.
Arguments mkPool {S} pool_store capacity frames page_table clock_hand.
Arguments pool_store {S} b.
Arguments capacity {S} b.
Arguments frames {S} b.
Arguments page_table {S} b.
Arguments clock_hand {S} b.

Definition set_pool_store {S : Type} (s : S) (p : BufferPool S) : BufferPool S :=
  mkPool s (capacity p) (frames p) (page_table p) (clock_hand p).

Definition set_frames {S : Type} (fs : list Frame) (p : BufferPool S) : BufferPool S :=
  mkPool (pool_store p) (capacity p) fs (page_table p) (clock_hand p).

Definition set_page_table {S : Type} (t : gmap PageId nat) (p : BufferPool S) : BufferPool S :=
  mkPool (pool_store p) (capacity p) (frames p) t (clock_hand p).

Definition set_clock_hand {S : Type} (n : nat) (p : BufferPool S) : BufferPool S :=
  mkPool (pool_store p) (capacity p) (frames p) (page_table p) n.

Definition set_fr_page (pg : Page) (f : Frame) : Frame :=
  mkFrame (fr_page_id f) pg (fr_pin_count f) (fr_dirty f) (fr_ref_bit f).

Definition set_fr_ref (b : bool) (f : Frame) : Frame :=
  mkFrame (fr_page_id f) (fr_page f) (fr_pin_count f) (fr_dirty f) b.

Definition set_fr_dirty (b : bool) (f : Frame) : Frame :=
  mkFrame (fr_page_id f) (fr_page f) (fr_pin_count f) b (fr_ref_bit f).

Definition set_fr_pin (n : Z) (f : Frame) : Frame :=
  mkFrame (fr_page_id f) (fr_page f) n (fr_dirty f) (fr_ref_bit f).

(** [BufferPool::new]: [None] is the failed assertion. *)
Definition pool_new {S : Type} (store : S) (capacity : nat) : option (BufferPool S) :=
  if decide (0 < capacity) then Some (mkPool store capacity [] ∅ 0) else None.

(** [BufferPool::len]. *)
Definition pool_len {S : Type} (p : BufferPool S) : nat := length (frames p).

Section pool_ops.
Context {S E : Type} `{!PageStore S E}.

(** [self.frames[idx]] read, and replaced by a function of itself. *)
Definition get_frame (idx : nat) : M (BufferPool S) (BufferError E) Frame :=
  self ← get_state;
  unwrap (frames self !! idx).

Definition put_frame (idx : nat) (f : Frame) : M (BufferPool S) (BufferError E) unit :=
  self ← get_state;
  if decide (idx < length (frames self)) then modify (set_frames (<[idx := f]> (frames self)))
  else panic.

(** The loop of clock eviction. It stops with an error after [2 * capacity + 1] steps, so that
    much fuel, and one step more for the error, is enough. *)
Fixpoint clock_loop (fuel scanned : nat) : M (BufferPool S) (BufferError E) nat :=
  match fuel with
  | O => panic
  | Datatypes.S fuel' =>
      self ← get_state;
      if decide (2 * capacity self < scanned) then throw (PoolExhausted (capacity self))
      else
        let idx := clock_hand self in
        modify (set_clock_hand ((clock_hand self + 1) `mod` capacity self));;
        let scanned := scanned + 1 in
        frame ← get_frame idx;
        if decide (0 < fr_pin_count frame)%Z then clock_loop fuel' scanned
        else if fr_ref_bit frame then
          put_frame idx (set_fr_ref false frame);;
          clock_loop fuel' scanned
        else
          (if fr_dirty frame then
             zoom pool_store set_pool_store
               (map_err BufStore (write_page (fr_page_id frame) (fr_page frame)))
           else mret tt);;
          modify (fun p => set_page_table (delete (fr_page_id frame) (page_table p)) p);;
          mret idx
  end.

(** [BufferPool::find_frame_for]. *)
Definition find_frame_for (incoming_id : PageId) : M (BufferPool S) (BufferError E) nat :=
  self ← get_state;
  if decide (length (frames self) < capacity self) then
    modify (set_frames (frames self ++ [mkFrame incoming_id (page_new Data) 0 false false]));;
    self ← get_state;
    mret (length (frames self) - 1)
  else clock_loop (2 * capacity self + 2) 0.

(** [BufferPool::new_page]. *)
Definition new_page (page_type : PageType) : M (BufferPool S) (BufferError E) PageId :=
  id ← zoom pool_store set_pool_store (map_err BufStore allocate_page_id);
  let page := page_new page_type in
  frame_idx ← find_frame_for id;
  put_frame frame_idx (mkFrame id page 1 true true);;
  modify (fun p => set_page_table (<[id := frame_idx]> (page_table p)) p);;
  mret id.

(** [BufferPool::fetch]. *)
Definition fetch (id : PageId) : M (BufferPool S) (BufferError E) unit :=
  self ← get_state;
  match page_table self !! id with
  | Some idx =>
      frame ← get_frame idx;
      put_frame idx (set_fr_ref true (set_fr_pin (u32 (fr_pin_count frame + 1)) frame))
  | None =>
      page ← zoom pool_store set_pool_store (map_err BufStore (read_page id));
      let page := default (page_new Data) page in
      frame_idx ← find_frame_for id;
      put_frame frame_idx (mkFrame id page 1 false true);;
      modify (fun p => set_page_table (<[id := frame_idx]> (page_table p)) p)
  end.

(** [BufferPool::page]: [None] when the page is not cached. *)
Definition pool_page (id : PageId) : M (BufferPool S) (BufferError E) (option Page) :=
  self ← get_state;
  match page_table self !! id with
  | Some idx => frame ← get_frame idx; mret (Some (fr_page frame))
  | None => mret None
  end.

(** [*self.page_mut(id).unwrap() = page]. *)
Definition set_page (id : PageId) (page : Page) : M (BufferPool S) (BufferError E) unit :=
  self ← get_state;
  idx ← unwrap (page_table self !! id);
  frame ← get_frame idx;
  put_frame idx (set_fr_page page frame).

(** [BufferPool::unpin]. *)
Definition unpin (id : PageId) (dirtied : bool) : M (BufferPool S) (BufferError E) unit :=
  self ← get_state;
  match page_table self !! id with
  | None => throw (NotPinned id)
  | Some idx =>
      frame ← get_frame idx;
      if decide (fr_pin_count frame = 0%Z) then throw (NotPinned id)
      else put_frame idx (set_fr_dirty (fr_dirty frame || dirtied)
                            (set_fr_pin (fr_pin_count frame - 1) frame))
  end.

(** [BufferPool::flush]. *)
Definition pool_flush (id : PageId) : M (BufferPool S) (BufferError E) unit :=
  self ← get_state;
  match page_table self !! id with
  | None => throw (NotPinned id)
  | Some idx =>
      frame ← get_frame idx;
      if fr_dirty frame then
        zoom pool_store set_pool_store (map_err BufStore (write_page id (fr_page frame)));;
        put_frame idx (set_fr_dirty false frame)
      else mret tt
  end.

(** [BufferPool::flush_all]. *)
Definition flush_all : M (BufferPool S) (BufferError E) unit :=
  self ← get_state;
  for_each pool_flush (fr_page_id <$> frames self).

(** [BufferPool::is_dirty] and [BufferPool::pin_count]. An index out of range, which panics, is
    excluded by the invariant of the pool. *)
Definition frame_of (p : BufferPool S) (id : PageId) : option Frame :=
  idx ← page_table p !! id;
  frames p !! idx.

Definition is_dirty (p : BufferPool S) (id : PageId) : bool :=
  match frame_of p id with Some f => fr_dirty f | None => false end.

Definition pin_count (p : BufferPool S) (id : PageId) : Z :=
  match frame_of p id with Some f => fr_pin_count f | None => 0 end.
End pool_ops.
