(* ===== verification/BufferSpec.v ===== *)
(** * BufferSpec: the buffer pool is a transparent cache

    The invariant of the pool over any backend that satisfies the laws of [PageStore], and the
    specification of its operations: caching, eviction and flushing never change the contents a
    client sees; pinned pages stay where they are; the clock always finds an unpinned frame. *)
From S2P Require Export PageStoreSpec Buffer.

Section buffer.
Context `{PageStoreLaws St Er}.

Implicit Types (p : BufferPool St) (m : gmap PageId Page) (f : Frame) (U : gset PageId).

(** What the pool shows for a page id: the cached page, or what the backend holds. *)
Definition stored m (id : PageId) : Page := default (page_new Data) (m !! id).

Definition content p m (id : PageId) : Page :=
  match frame_of p id with Some f => fr_page f | None => stored m id end.

(** A frame; [U] are the pages that a client has changed and not yet unpinned as dirty. *)
Record frame_ok U m (next : PageId) f : Prop := {
  fo_pin : (0 <= fr_pin_count f < 2 ^ 32)%Z;
  fo_wf : wf_page (fr_page f);
  fo_id : (0 <= fr_page_id f < next)%Z;
  fo_clean : fr_dirty f = false -> fr_page_id f ∉ U -> fr_page f ≡ stored m (fr_page_id f);
  fo_touched : fr_page_id f ∈ U -> (0 < fr_pin_count f)%Z;
}.

(** The invariant; [hole] is the index of a frame that is being replaced. *)
Record pool_inv (n : nat) U (hole : option nat) p (fs : fsys) m (next : PageId) : Prop := {
  pi_view : ps_view n (pool_store p) fs m next;
  pi_cap : 0 < capacity p;
  pi_len : length (frames p) <= capacity p;
  pi_hand : clock_hand p < capacity p;
  pi_table : forall id i, page_table p !! id = Some i <->
    Some i <> hole /\ exists f, frames p !! i = Some f /\ fr_page_id f = id;
  pi_frame : forall i f, Some i <> hole -> frames p !! i = Some f -> frame_ok U m next f;
}.

Lemma frame_of_Some (n : nat) U (hole : option nat) p (fs : fsys) m (next id : PageId) f :
  pool_inv n U hole p fs m next ->
  frame_of p id = Some f <->
    exists i, page_table p !! id = Some i /\ Some i <> hole /\ frames p !! i = Some f /\ fr_page_id f = id.
Proof.
  intros Hi. unfold frame_of. split.
  - destruct (page_table p !! id) as [i|] eqn:E; simpl; [|done]. intros Hf. exists i. split; [done|].
    apply (pi_table _ _ _ _ _ _ _ Hi) in E as (Hh & f' & Hf' & Hid). by simplify_eq.
  - intros (i & -> & _ & Hf & _). done.
Qed.

Lemma frame_of_index (n : nat) U (hole : option nat) p (fs : fsys) m (next : PageId) (i : nat) f :
  pool_inv n U hole p fs m next -> Some i <> hole -> frames p !! i = Some f ->
  frame_of p (fr_page_id f) = Some f /\ page_table p !! fr_page_id f = Some i.
Proof.
  intros Hi Hh Hf. assert (page_table p !! fr_page_id f = Some i) as Ht.
  { apply (pi_table _ _ _ _ _ _ _ Hi). split; [done|]. by exists f. }
  split; [|done]. unfold frame_of. by rewrite Ht.
Qed.

Lemma pool_inv_weaken (n n' : nat) U (hole : option nat) p (fs : fsys) m (next : PageId) :
  n' <= n -> pool_inv n U hole p fs m next -> pool_inv n' U hole p fs m next.
Proof. intros Hn []. split; try done. by eapply ps_weaken. Qed.

(** ** Replacing a frame by one for the same page *)

Definition replace_frame (i : nat) f p : BufferPool St := set_frames (<[i := f]> (frames p)) p.

Lemma frame_of_replace (n : nat) U p (fs : fsys) m (next : PageId) (i : nat) f f' (id : PageId) :
  pool_inv n U None p fs m next -> frames p !! i = Some f -> fr_page_id f' = fr_page_id f ->
  frame_of (replace_frame i f' p) id = if decide (id = fr_page_id f) then Some f' else frame_of p id.
Proof.
  intros Hi Hf Hid. destruct (frame_of_index _ _ _ _ _ _ _ i f Hi) as [_ Ht]; [done|done|].
  unfold frame_of, replace_frame. simpl. case_decide as Hd.
  - subst. rewrite Ht. simpl. apply list_lookup_insert_eq. by eapply lookup_lt_Some.
  - destruct (page_table p !! id) as [j|] eqn:E; simpl; [|done]. apply list_lookup_insert_ne.
    intros ->. apply (pi_table _ _ _ _ _ _ _ Hi) in E as (_ & g & Hg & Hgid). by simplify_eq.
Qed.

Lemma pool_inv_replace (n : nat) U U' p (fs : fsys) m (next : PageId) (i : nat) f f' :
  pool_inv n U None p fs m next -> frames p !! i = Some f -> fr_page_id f' = fr_page_id f ->
  frame_ok U' m next f' ->
  (forall id, id <> fr_page_id f -> id ∈ U' <-> id ∈ U) ->
  pool_inv n U' None (replace_frame i f' p) fs m next.
Proof.
  intros Hi Hf Hid Hok HU. pose proof Hi as [Hv Hc Hl Hh Ht Hfr]. split; simpl; try done.
  - by rewrite length_insert.
  - intros id j. rewrite Ht. split.
    + intros (_ & g & Hg & Hgid). split; [done|]. destruct (decide (i = j)) as [->|Hne].
      * exists f'. rewrite list_lookup_insert_eq by by eapply lookup_lt_Some. simplify_eq. done.
      * exists g. by rewrite list_lookup_insert_ne.
    + intros (_ & g & Hg & Hgid). split; [done|].
      apply list_lookup_insert_Some in Hg as [(-> & -> & _)|[_ Hg]]; [|by exists g].
      exists f. by rewrite <-Hid.
  - intros j g _ Hg. apply list_lookup_insert_Some in Hg as [(-> & <- & _)|[Hne Hg]]; [done|].
    destruct (Hfr j g) as [G1 G2 G3 G4 G5]; [done|done|].
    assert (fr_page_id g <> fr_page_id f) as Hgf.
    { intros Heq. destruct (frame_of_index _ _ _ _ _ _ _ i f Hi) as [_ T1]; [done|done|].
      destruct (frame_of_index _ _ _ _ _ _ _ j g Hi) as [_ T2]; [done|done|].
      rewrite Heq, T1 in T2. by injection T2. }
    split; try done; rewrite HU by done; done.
Qed.

Lemma content_replace (n : nat) U p (fs : fsys) m (next : PageId) (i : nat) f f' (id : PageId) :
  pool_inv n U None p fs m next -> frames p !! i = Some f -> fr_page_id f' = fr_page_id f ->
  content (replace_frame i f' p) m id =
    if decide (id = fr_page_id f) then fr_page f' else content p m id.
Proof.
  intros Hi Hf Hid. unfold content. rewrite (frame_of_replace n U p fs m next i f f' id Hi Hf Hid).
  by case_decide.
Qed.

Lemma wpc_get_frame (i : nat) f p (fs : fsys) (Q : Frame -> BufferPool St -> fsys -> Prop) X C :
  frames p !! i = Some f -> Q f p fs ->
  wpc no_faults (get_frame i : M _ (BufferError Er) Frame) p fs Q X C.
Proof. intros Hf HQ. unfold get_frame. wpc_step. wpc_step. rewrite Hf. simpl. by wpc_step. Qed.

Lemma wpc_put_frame (i : nat) f p (fs : fsys) (Q : unit -> BufferPool St -> fsys -> Prop) X C :
  i < length (frames p) -> Q tt (replace_frame i f p) fs ->
  wpc no_faults (put_frame i f : M _ (BufferError Er) unit) p fs Q X C.
Proof.
  intros Hi HQ. unfold put_frame. wpc_step. wpc_step. rewrite decide_True by done. by wpc_step.
Qed.

(** ** The clock *)

(** The steps of the hand [h] to the index [j]. *)
Definition distance (cap h j : nat) : nat := if decide (h <= j) then j - h else j + cap - h.

Lemma next_hand (cap h : nat) :
  h < cap -> (h + 1) `mod` cap = if decide (h + 1 = cap) then 0 else h + 1.
Proof.
  intros Hh. case_decide as Hd; [subst; apply Nat.Div0.mod_same|apply Nat.mod_small; lia].
Qed.

Lemma distance_next (cap h j : nat) :
  h < cap -> j < cap ->
  distance cap ((h + 1) `mod` cap) j = if decide (j = h) then cap - 1 else distance cap h j - 1.
Proof. intros Hh Hj. rewrite next_hand by done. unfold distance. repeat case_decide; lia. Qed.

Lemma distance_self (cap h : nat) : h < cap -> distance cap h h = 0.
Proof. intros. unfold distance. case_decide; lia. Qed.

Lemma distance_pos (cap h j : nat) : h < cap -> j < cap -> j <> h -> 0 < distance cap h j < cap.
Proof. intros. unfold distance. case_decide; lia. Qed.

(** The steps after which the clock takes an unpinned frame, if it takes no other before. *)
Definition wait p (j : nat) f : nat :=
  distance (capacity p) (clock_hand p) j + if fr_ref_bit f then capacity p else 0.

(** The pins a client holds on a page. *)
Definition pins p (id : PageId) : Z := match frame_of p id with Some f => fr_pin_count f | None => 0 end.

(** What a client sees of the pool is the same, and the pinned pages are where they were. *)
Definition same_view p m p' m' : Prop :=
  (forall id, content p' m' id ≡ content p m id) /\
  (forall id f, frame_of p id = Some f -> (0 < fr_pin_count f)%Z -> frame_of p' id = Some f) /\
  (forall id, page_table p !! id = None -> page_table p' !! id = None) /\
  capacity p' = capacity p /\ length (frames p) <= length (frames p') /\
  (forall id, pins p' id = pins p id).

Lemma same_view_refl p m : same_view p m p m.
Proof. repeat split; done. Qed.

Lemma same_view_trans p1 m1 p2 m2 p3 m3 :
  same_view p1 m1 p2 m2 -> same_view p2 m2 p3 m3 -> same_view p1 m1 p3 m3.
Proof.
  intros (A1 & A2 & A3 & A4 & A5 & A6) (B1 & B2 & B3 & B4 & B5 & B6).
  split; [|split; [|split; [|split; [|split]]]].
  - intros id. by rewrite B1.
  - intros id f Hf Hp. apply B2; [by apply A2|done].
  - auto.
  - congruence.
  - lia.
  - intros id. by rewrite B6, A6.
Qed.

Lemma pool_inv_hand (n : nat) U (hole : option nat) p (fs : fsys) m (next : PageId) (h : nat) :
  h < capacity p -> pool_inv n U hole p fs m next -> pool_inv n U hole (set_clock_hand h p) fs m next.
Proof. intros Hh []. by split. Qed.

(** Clearing the second chance of an unpinned frame. *)
Lemma clear_ref (n : nat) U p (fs : fsys) m (next : PageId) (i : nat) f :
  pool_inv n U None p fs m next -> frames p !! i = Some f -> fr_pin_count f = 0%Z ->
  pool_inv n U None (replace_frame i (set_fr_ref false f) p) fs m next /\
  same_view p m (replace_frame i (set_fr_ref false f) p) m.
Proof.
  intros Hi Hf Hpin. split.
  - eapply pool_inv_replace; [done|done|done| |done].
    destruct (pi_frame _ _ _ _ _ _ _ Hi i f) as [G1 G2 G3 G4 G5]; [done|done|]. by split.
  - split; [|split; [|split; [|split; [|split]]]]; simpl; try done.
    + intros id. rewrite (content_replace n U p fs m next i f) by done.
      case_decide as Hd; [|done]. subst id. unfold content.
      destruct (frame_of_index _ _ _ _ _ _ _ i f Hi) as [-> _]; done.
    + intros id g Hg Hpos. rewrite (frame_of_replace n U p fs m next i f) by done.
      case_decide as Hd; [|done]. subst id.
      destruct (frame_of_index _ _ _ _ _ _ _ i f Hi) as [Hff _]; [done|done|].
      rewrite Hff in Hg. injection Hg as <-. lia.
    + by rewrite length_insert.
    + intros id. unfold pins. rewrite (frame_of_replace n U p fs m next i f) by done.
      case_decide as Hd; [|done]. subst id.
      destruct (frame_of_index _ _ _ _ _ _ _ i f Hi) as [-> _]; done.
Qed.

(** Evicting an unpinned frame whose page the backend holds. *)
Lemma evict (n : nat) U p (s' : St) (fs' : fsys) (fs : fsys) m m' (next : PageId) (i : nat) f :
  pool_inv (Datatypes.S n) U None p fs m next -> frames p !! i = Some f -> fr_pin_count f = 0%Z ->
  ps_view n s' fs' m' next -> fr_page f ≡ stored m' (fr_page_id f) ->
  (forall id, id <> fr_page_id f -> m' !! id = m !! id) ->
  let p' := set_page_table (delete (fr_page_id f) (page_table p)) (set_pool_store s' p) in
  pool_inv n U (Some i) p' fs' m' next /\ same_view p m p' m'.
Proof.
  intros Hi Hf Hpin Hv Hpg Hm p'. pose proof Hi as [_ Hc Hl Hh Ht Hfr].
  destruct (frame_of_index _ _ _ _ _ _ _ i f Hi) as [Hfo Hti]; [done|done|].
  assert (forall id, id <> fr_page_id f -> frame_of p' id = frame_of p id) as Hother.
  { intros id Hne. unfold frame_of, p'. simpl. by rewrite lookup_delete_ne. }
  split.
  - split; simpl; try done.
    + intros id j. split.
      * intros [Hne Hj]%lookup_delete_Some. apply Ht in Hj as (_ & g & Hg & Hgid). split; [|by exists g].
        intros [= ->]. by simplify_eq.
      * intros (Hne & g & Hg & Hgid). apply lookup_delete_Some. split; [|apply Ht; split; [done|by exists g]].
        intros Heq. assert (page_table p !! id = Some j) as Hj by (apply Ht; split; [done|by exists g]).
        rewrite <-Heq, Hti in Hj. congruence.
    + intros j g Hne Hg. destruct (Hfr j g) as [G1 G2 G3 G4 G5]; [done|done|].
      assert (fr_page_id g <> fr_page_id f) as Hgf.
      { intros Heq. destruct (frame_of_index _ _ _ _ _ _ _ j g Hi) as [_ T2]; [done|done|].
        rewrite Heq, Hti in T2. congruence. }
      split; try done. unfold stored. rewrite Hm by done. done.
  - split; [|split; [|split; [|split; [|split]]]]; simpl; try done.
    + intros id. unfold content. destruct (decide (id = fr_page_id f)) as [->|Hne].
      * rewrite Hfo. unfold frame_of, p'. simpl. by rewrite lookup_delete_eq.
      * rewrite Hother by done. destruct (frame_of p id); [done|]. unfold stored. by rewrite Hm.
    + intros id g Hg Hpos. rewrite Hother; [done|]. intros ->. rewrite Hfo in Hg. injection Hg as <-. lia.
    + intros id Hn. by rewrite lookup_delete_None; right.
    + intros id. unfold pins. destruct (decide (id = fr_page_id f)) as [->|Hne].
      * rewrite Hfo. unfold frame_of, p'. simpl. by rewrite lookup_delete_eq.
      * by rewrite Hother.
Qed.

(** The result of looking for a frame: one that holds no page any more. *)
Definition found (n : nat) U (next : PageId) p m (i : nat) p' (fs' : fsys) : Prop :=
  exists m', pool_inv n U (Some i) p' fs' m' next /\ same_view p m p' m' /\ i < length (frames p').

(** The failure: the pool is as it was, and its unpinned frames have not had [2 * capacity]
    steps. *)
Definition exhausted (n : nat) U (next : PageId) p m (scanned : nat) (e : BufferError Er) p'
    (fs' : fsys) : Prop :=
  e = PoolExhausted (capacity p) /\ pool_inv n U None p' fs' m next /\ same_view p m p' m /\
  forall j f, frames p !! j = Some f -> fr_pin_count f = 0%Z -> 2 * capacity p < scanned + wait p j f.

Lemma found_view (n : nat) U (next : PageId) p p2 m (i : nat) p' fs' :
  same_view p m p2 m -> found n U next p2 m i p' fs' -> found n U next p m i p' fs'.
Proof.
  intros Hs (m' & G1 & G2 & G3). exists m'. split; [done|]. split; [by eapply same_view_trans|done].
Qed.

(** One step of the hand, after which every unpinned frame has one step less to wait. *)
Lemma exhausted_step (n : nat) U (next : PageId) p p2 m (scanned : nat) e p' fs' :
  same_view p m p2 m -> capacity p2 = capacity p ->
  (forall j f, frames p !! j = Some f -> fr_pin_count f = 0%Z ->
     exists g, frames p2 !! j = Some g /\ fr_pin_count g = 0%Z /\ wait p2 j g + 1 = wait p j f) ->
  exhausted n U next p2 m (scanned + 1) e p' fs' -> exhausted n U next p m scanned e p' fs'.
Proof.
  intros Hs Hc Hw (-> & G1 & G2 & G3). rewrite Hc in *. split; [done|]. split; [done|].
  split; [by eapply same_view_trans|]. intros j f Hf Hpin.
  destruct (Hw j f Hf Hpin) as (g & Hg & Hgp & Heq). specialize (G3 j g Hg Hgp). lia.
Qed.

(** The hand moves past its frame. *)
Lemma wait_next p (j : nat) f :
  clock_hand p < capacity p -> length (frames p) = capacity p -> frames p !! j = Some f -> j <> clock_hand p ->
  wait (set_clock_hand ((clock_hand p + 1) `mod` capacity p) p) j f + 1 = wait p j f.
Proof.
  intros Hh Hl Hf Hne. apply lookup_lt_Some in Hf. unfold wait. simpl.
  rewrite distance_next by lia. rewrite decide_False by done.
  pose proof (distance_pos (capacity p) (clock_hand p) j Hh ltac:(lia) Hne). lia.
Qed.

(** The eviction of an unpinned frame: a dirty page is written to the backend before its frame is
    given away. *)
Lemma wpc_evict (n : nat) U p (fs : fsys) m (next : PageId) (i : nat) f
    (X : BufferError Er -> BufferPool St -> fsys -> Prop) (C : fsys -> Prop) :
  pool_inv (Datatypes.S n) U None p fs m next -> frames p !! i = Some f -> fr_pin_count f = 0%Z ->
  wpc no_faults
    ((if fr_dirty f then
        zoom pool_store set_pool_store (map_err BufStore (write_page (fr_page_id f) (fr_page f)))
      else mret tt);;
     modify (fun p => set_page_table (delete (fr_page_id f) (page_table p)) p);;
     mret i : M _ (BufferError Er) nat) p fs (found n U next p m) X C.
Proof.
  intros Hi Hf Hp0. pose proof Hi as [Hv _ _ _ _ Hfr].
  assert (forall s' fs' m', ps_view n s' fs' m' next -> fr_page f ≡ stored m' (fr_page_id f) ->
    (forall id, id <> fr_page_id f -> m' !! id = m !! id) ->
    wpc no_faults (modify (fun p => set_page_table (delete (fr_page_id f) (page_table p)) p);;
      mret i : M _ (BufferError Er) nat) (set_pool_store s' p) fs' (found n U next p m) X C) as Hev.
  { intros s' fs' m' Hv' Hpg Hm. wpc_step. wpc_step. wpc_step. exists m'.
    destruct (evict n U p s' fs' fs m m' next i f Hi Hf Hp0 Hv' Hpg Hm) as [G1 G2].
    split; [done|]. split; [done|]. simpl. by eapply lookup_lt_Some. }
  destruct (Hfr i f ltac:(done) Hf) as [_ Hwf Hid Hclean Htouch].
  wpc_step. destruct (fr_dirty f) eqn:Hd.
  - wpc_step. wpc_step. eapply wpc_mono; [by apply (ps_write n _ _ m next)| |done|done].
    intros [] s' fs' Hv'. apply Hev with (m' := <[fr_page_id f := fr_page f]> m); [done| |].
    + unfold stored. by rewrite lookup_insert_eq.
    + intros id Hne. by apply lookup_insert_ne.
  - wpc_step. replace p with (set_pool_store (pool_store p) p) at 1 by by destruct p.
    apply Hev with (m' := m); [|apply Hclean; [done|]|done].
    + eapply ps_weaken; [|done]. lia.
    + intros Hin%Htouch. lia.
Qed.

Lemma wpc_clock_loop (n : nat) U (fuel scanned : nat) p (fs : fsys) m (next : PageId) :
  pool_inv (Datatypes.S n) U None p fs m next -> length (frames p) = capacity p ->
  scanned <= 2 * capacity p + 1 -> 2 * capacity p + 2 <= fuel + scanned ->
  wpc no_faults (clock_loop fuel scanned : M _ (BufferError Er) nat) p fs
    (found n U next p m) (exhausted (Datatypes.S n) U next p m scanned) (fun _ => False).
Proof.
  revert scanned p fs. induction fuel as [|fuel IH]; intros scanned p fs Hi Hfull Hsc Hfuel; [lia|].
  pose proof Hi as [_ _ _ Hh _ Hfr]. cbn [clock_loop].
  wpc_step. wpc_step. destruct (decide (2 * capacity p < scanned)) as [Hlt|Hge].
  { wpc_step. split; [done|]. split; [done|]. split; [apply same_view_refl|]. intros j f _ _. lia. }
  cbv zeta. wpc_step. wpc_step. set (p1 := set_clock_hand _ p).
  assert (((clock_hand p + 1) `mod` capacity p) < capacity p) as Hh1 by (apply Nat.mod_upper_bound; lia).
  pose proof (pool_inv_hand _ _ _ _ _ _ _ _ Hh1 Hi) as Hi1. fold p1 in Hi1.
  assert (same_view p m p1 m) as Hs1 by (repeat split; done).
  destruct (lookup_lt_is_Some_2 (frames p) (clock_hand p)) as [f Hf]; [lia|].
  wpc_step. apply (wpc_get_frame _ f); [done|].
  pose proof (fo_pin _ _ _ _ (Hfr _ _ ltac:(done) Hf)) as Hpin.
  destruct (decide (0 < fr_pin_count f)%Z) as [Hpos|Hzero].
  { eapply wpc_mono; [apply IH; [done|done|simpl; lia|simpl; lia]|by intros; eapply found_view| |done].
    intros e p' fs'. apply exhausted_step; [done|done|]. intros j g Hg Hg0. exists g. split; [done|].
    split; [done|]. apply wait_next; [done|done|done|]. intros ->. simplify_eq. lia. }
  assert (fr_pin_count f = 0%Z) as Hp0 by lia.
  destruct (fr_ref_bit f) eqn:Href.
  2: { eapply wpc_mono; [by apply (wpc_evict n U p1 fs m next (clock_hand p) f (fun _ _ _ => False) (fun _ => False))|by intros; eapply found_view|done|done]. }
  wpc_step. apply wpc_put_frame; [simpl; lia|].
  destruct (clear_ref _ _ p1 fs m next (clock_hand p) f Hi1 Hf Hp0) as [Hi2 Hs2].
  pose proof (same_view_trans _ _ _ _ _ _ Hs1 Hs2) as Hs.
  eapply wpc_mono; [apply IH; [done|simpl; by rewrite length_insert|simpl; lia|simpl; lia]|by intros; eapply found_view| |done].
  intros e p' fs'. apply exhausted_step; [done|done|]. intros j g Hg Hg0.
  destruct (decide (j = clock_hand p)) as [->|Hne].
  - simplify_eq. exists (set_fr_ref false f). simpl. rewrite list_lookup_insert_eq by lia. split; [done|].
    split; [done|]. unfold wait. simpl. rewrite distance_next, decide_True, Href by lia.
    rewrite distance_self by done. lia.
  - exists g. simpl. rewrite list_lookup_insert_ne by done. split; [done|]. split; [done|]. by apply wait_next.
Qed.

(** ** Finding a frame *)

Lemma frame_of_grow p f (id : PageId) (n : nat) U (fs : fsys) m (next : PageId) :
  pool_inv n U None p fs m next ->
  frame_of (set_frames (frames p ++ [f]) p) id = frame_of p id.
Proof.
  intros Hi. unfold frame_of. simpl. destruct (page_table p !! id) as [i|] eqn:E; simpl; [|done].
  apply (pi_table _ _ _ _ _ _ _ Hi) in E as (_ & g & Hg & _).
  rewrite lookup_app_l; [done|]. by eapply lookup_lt_Some.
Qed.

(** Every frame is pinned. *)
Definition all_pinned p : Prop := forall j f, frames p !! j = Some f -> (0 < fr_pin_count f)%Z.

(** The clock finds a frame unless the pool is full of pinned pages. *)
Lemma wpc_find_frame_for (n : nat) U p (fs : fsys) m (next id : PageId) :
  pool_inv (Datatypes.S n) U None p fs m next ->
  wpc no_faults (find_frame_for id : M _ (BufferError Er) nat) p fs
    (found n U next p m)
    (fun e p' fs' => e = PoolExhausted (capacity p) /\ length (frames p) = capacity p /\ all_pinned p /\
       pool_inv (Datatypes.S n) U None p' fs' m next /\ same_view p m p' m)
    (fun _ => False).
Proof.
  intros Hi. pose proof Hi as [Hv Hc Hl Hh Ht Hfr]. unfold find_frame_for. wpc_step. wpc_step.
  case_decide as Hlen.
  - wpc_step. wpc_step. wpc_step. wpc_step. wpc_step. set (f0 := mkFrame id (page_new Data) 0 false false).
    simpl. rewrite length_app. simpl. replace (length (frames p) + 1 - 1) with (length (frames p)) by lia.
    exists m. split; [|split; [|simpl; rewrite length_app; simpl; lia]].
    + split; simpl; try done; [by eapply ps_weaken; [|done]; lia|rewrite length_app; simpl; lia| |].
      * intros id' i. rewrite Ht. split.
        -- intros (_ & f & Hf & Hid). pose proof (lookup_lt_Some _ _ _ Hf). split; [intros [= ->]; lia|].
           exists f. by rewrite lookup_app_l.
        -- intros (Hne & f & Hf & Hid). split; [done|]. exists f. split; [|done].
           apply lookup_app_Some in Hf as [Hf|[Hge Hf]]; [done|].
           apply list_lookup_singleton_Some in Hf as [Hz _]. assert (i = length (frames p)) as -> by lia. done.
      * intros i f Hne Hf. apply lookup_app_Some in Hf as [Hf|[Hge Hf]]; [by eapply Hfr|].
        apply list_lookup_singleton_Some in Hf as [Hz _]. assert (i = length (frames p)) as -> by lia. done.
    + split; [|split; [|split; [done|split; [done|split]]]].
      * intros id'. unfold content. by rewrite (frame_of_grow p f0 id' _ _ _ _ _ Hi).
      * intros id' f Hf _. by rewrite (frame_of_grow p f0 id' _ _ _ _ _ Hi).
      * simpl. rewrite length_app. simpl. lia.
      * intros id'. unfold pins. by rewrite (frame_of_grow p f0 id' _ _ _ _ _ Hi).
  - eapply wpc_mono; [apply (wpc_clock_loop n U _ 0 p fs m next Hi); lia|done| |done].
    intros e p' fs' (-> & G1 & G2 & G3). split; [done|]. split; [lia|]. split; [|done].
    intros j f Hf. pose proof (fo_pin _ _ _ _ (Hfr j f ltac:(done) Hf)) as Hp.
    destruct (decide (fr_pin_count f = 0%Z)) as [Hz|]; [|lia]. specialize (G3 j f Hf Hz).
    apply lookup_lt_Some in Hf. unfold wait, distance in G3.
    destruct (fr_ref_bit f); case_decide; lia.
Qed.

(** Filling the frame that was found. *)
Definition install (i : nat) f p : BufferPool St :=
  set_page_table (<[fr_page_id f := i]> (page_table p)) (replace_frame i f p).

Lemma install_inv (n : nat) U p (fs : fsys) m (next : PageId) (i : nat) f :
  pool_inv n U (Some i) p fs m next -> i < length (frames p) ->
  page_table p !! fr_page_id f = None -> frame_ok U m next f ->
  pool_inv n U None (install i f p) fs m next /\
  (forall id, frame_of (install i f p) id = if decide (id = fr_page_id f) then Some f else frame_of p id).
Proof.
  intros Hi Hlt Hn Hok. pose proof Hi as [Hv Hc Hl Hh Ht Hfr]. split; [split|]; simpl; try done.
  - by rewrite length_insert.
  - intros id j. split.
    + intros [[<- <-]|[Hne Hj]]%lookup_insert_Some.
      * split; [done|]. exists f. by rewrite list_lookup_insert_eq.
      * apply Ht in Hj as (Hij & g & Hg & Hgid). split; [done|]. exists g.
        by rewrite list_lookup_insert_ne by congruence.
    + intros (_ & g & Hg & Hgid). apply list_lookup_insert_Some in Hg as [(-> & -> & _)|[Hne Hg]].
      * rewrite Hgid. apply lookup_insert_eq.
      * assert (page_table p !! id = Some j) as Hj by (apply Ht; split; [congruence|by exists g]).
        rewrite lookup_insert_ne; [done|]. intros Heq. rewrite Heq in Hn. congruence.
  - intros j g _ Hg. apply list_lookup_insert_Some in Hg as [(-> & <- & _)|[Hne Hg]]; [done|].
    apply (Hfr j); [congruence|done].
  - intros id. unfold frame_of, install. simpl. case_decide as Hd.
    + subst. rewrite lookup_insert_eq. simpl. by apply list_lookup_insert_eq.
    + rewrite lookup_insert_ne by done. destruct (page_table p !! id) as [j|] eqn:E; simpl; [|done].
      apply Ht in E as (Hij & g & Hg & _). by rewrite list_lookup_insert_ne by congruence.
Qed.

(** ** The operations of the pool *)

(** What a client sees of the other pages is unchanged. *)
Definition others_same (id : PageId) p m p' m' : Prop :=
  capacity p' = capacity p /\
  forall id', id' <> id ->
    content p' m' id' ≡ content p m id' /\ ((0 < pins p id')%Z -> frame_of p' id' = frame_of p id') /\
    pins p' id' = pins p id'.

Lemma same_view_others (id : PageId) p m p' m' : same_view p m p' m' -> others_same id p m p' m'.
Proof.
  intros (H1' & H2' & _ & H4' & _ & H6'). split; [done|]. intros id' _. split; [apply H1'|].
  split; [|apply H6']. unfold pins. destruct (frame_of p id') as [f|] eqn:E.
  - intros Hp. by apply H2'.
  - lia.
Qed.

(** The result of a call that pins [id]: it is cached, with one pin more. *)
Definition pinned_page (n : nat) U (next id : PageId) p m (page : Page) p' (fs' : fsys) : Prop :=
  exists m' f, pool_inv n U None p' fs' m' next /\ frame_of p' id = Some f /\
    fr_page f ≡ page /\ fr_pin_count f = (pins p id + 1)%Z /\ others_same id p m p' m'.

(** The failure of a call that needs a frame. *)
Definition no_frame (n : nat) U (next : PageId) p m (e : BufferError Er) p' (fs' : fsys) : Prop :=
  e = PoolExhausted (capacity p) /\ length (frames p) = capacity p /\ all_pinned p /\
  pool_inv n U None p' fs' m next /\ same_view p m p' m.

Lemma install_pinned (n : nat) U (next id : PageId) p m (page : Page) (i : nat) f p1 (fs1 : fsys) :
  found n U next p m i p1 fs1 -> page_table p !! id = None -> fr_page_id f = id ->
  fr_pin_count f = 1%Z -> fr_page f ≡ page ->
  (forall m', same_view p m p1 m' -> frame_ok U m' next f) ->
  pinned_page n U next id p m page (install i f p1) fs1.
Proof.
  intros (m' & Hi & Hs & Hlt) Hn Hid Hpin Hpg Hok. pose proof Hs as (S1 & S2 & S3 & S4 & _).
  destruct (install_inv n U p1 fs1 m' next i f Hi Hlt) as [Hi' Hfo]; [by rewrite Hid; apply S3|by apply Hok|].
  exists m', f. split; [done|]. split; [by rewrite Hfo, Hid, decide_True|]. split; [done|]. split.
  - rewrite Hpin. unfold pins, frame_of. by rewrite Hn.
  - split; [done|]. intros id' Hne.
    destruct (proj2 (same_view_others id _ _ _ _ Hs) id' Hne) as (O1 & O2 & O3).
    unfold content, pins in *. rewrite Hfo, Hid, decide_False by done. done.
Qed.

Lemma wpc_fetch (n : nat) U p (fs : fsys) m (next id : PageId) :
  pool_inv (Datatypes.S n) U None p fs m next -> (0 <= id < next)%Z -> (pins p id + 1 < 2 ^ 32)%Z ->
  id ∉ U \/ is_Some (frame_of p id) ->
  wpc no_faults (fetch id : M _ (BufferError Er) unit) p fs
    (fun _ p' fs' => pinned_page n U next id p m (content p m id) p' fs')
    (no_frame (Datatypes.S n) U next p m) (fun _ => False).
Proof.
  intros Hi Hid Hpins HU. pose proof Hi as [Hv Hc Hl Hh Ht Hfr]. unfold fetch. wpc_step. wpc_step.
  destruct (page_table p !! id) as [i|] eqn:E.
  - pose proof E as Hj. apply Ht in Hj as (_ & f & Hf & Hfid).
    destruct (frame_of_index _ _ _ _ _ _ _ i f Hi) as [Hfo _]; [done|done|]. rewrite Hfid in Hfo.
    assert (pins p id = fr_pin_count f) as Hpf by (unfold pins; by rewrite Hfo).
    pose proof (Hfr i f ltac:(done) Hf) as Hok. pose proof (fo_pin _ _ _ _ Hok) as Hpin.
    wpc_step. apply (wpc_get_frame _ f); [done|].
    apply wpc_put_frame; [by eapply lookup_lt_Some|]. unfold u32. rewrite Z.mod_small by lia.
    set (f' := set_fr_ref true (set_fr_pin (fr_pin_count f + 1) f)).
    exists m, f'. split; [|split; [|split; [|split]]].
    + eapply pool_inv_weaken with (n := Datatypes.S n); [lia|].
      apply (pool_inv_replace _ U U p fs m next i f f'); try done. destruct Hok as [G1 G2 G3 G4 G5].
      split; try done; simpl; [lia|]. intros Hin. lia.
    + rewrite (frame_of_replace _ U p fs m next i f f' id Hi Hf); [|done]. by rewrite Hfid, decide_True.
    + unfold content. by rewrite Hfo.
    + by rewrite Hpf.
    + split; [done|]. intros id' Hne. unfold pins at 2.
      rewrite (content_replace _ U p fs m next i f f' id' Hi Hf) by done.
      rewrite (frame_of_replace _ U p fs m next i f f' id' Hi Hf) by done. rewrite Hfid.
      by rewrite !decide_False.
  - assert (frame_of p id = None) as Hnf by (unfold frame_of; by rewrite E).
    wpc_step. wpc_step. wpc_step. eapply wpc_mono; [by apply (ps_read (Datatypes.S n) _ _ m next)| |done|done].
    intros r s1 fs1 [[Hr Hrw] [-> ->]]. replace (set_pool_store (pool_store p) p) with p by by destruct p.
    set (page := default (page_new Data) r). assert (page ≡ content p m id) as Hpg.
    { unfold content. rewrite Hnf. unfold stored, page. by inversion Hr. }
    assert (wf_page page) as Hwf.
    { unfold page. destruct r as [q|]; simpl; [by apply Hrw|apply wf_page_new]. }
    wpc_step. eapply wpc_mono; [by apply wpc_find_frame_for| |done|done].
    intros i p1 fs1 Hfound. pose proof Hfound as (m' & Hi1 & (S1 & _) & Hlt).
    wpc_step. apply wpc_put_frame; [done|]. wpc_step.
    apply (install_pinned n U next id p m (content p m id) i (mkFrame id page 1 false true) p1 fs1);
      try done. intros m1 Hs1. split; simpl; try done.
    intros _ _. destruct Hs1 as (S1' & _ & S3' & _). specialize (S1' id). rewrite Hpg, <-S1'.
    unfold content, frame_of. by rewrite (S3' id E).
Qed.

Lemma wpc_new_page (n : nat) U p (fs : fsys) m (next : PageId) (t : PageType) :
  pool_inv (Datatypes.S (Datatypes.S n)) U None p fs m next -> (forall id, id ∈ U -> (id < next)%Z) ->
  wpc no_faults (new_page t : M _ (BufferError Er) PageId) p fs
    (fun id p' fs' => id = next /\ pinned_page n U (next + 1) id p m (page_new t) p' fs')
    (no_frame (Datatypes.S n) U (next + 1) p m) (fun _ => False).
Proof.
  intros Hi HU. pose proof Hi as [Hv Hc Hl Hh Ht Hfr]. unfold new_page.
  wpc_step. wpc_step. wpc_step. eapply wpc_mono; [by apply (ps_allocate (Datatypes.S n))| |done|done].
  intros id s1 fs1 [-> Hv1].
  assert (page_table p !! next = None) as Hn.
  { destruct (page_table p !! next) as [i|] eqn:E; [|done]. apply Ht in E as (_ & f & Hf & Hfid).
    pose proof (fo_id _ _ _ _ (Hfr i f ltac:(done) Hf)). lia. }
  destruct (ps_next_range _ _ _ _ _ Hv) as [Hpos _].
  assert (pool_inv (Datatypes.S n) U None (set_pool_store s1 p) fs1 m (next + 1)) as Hi1.
  { split; simpl; try done. intros i f Hne Hf. destruct (Hfr i f Hne Hf) as [G1 G2 G3 G4 G5].
    split; try done. lia. }
  wpc_step. eapply wpc_mono; [by apply wpc_find_frame_for| |done|done].
  intros i p1 fs2 Hfound. pose proof Hfound as (m' & _ & _ & Hlt).
  wpc_step. apply wpc_put_frame; [done|]. wpc_step. wpc_step. wpc_step. split; [done|].
  assert (frame_of p next = None) as Hnf by (unfold frame_of; by rewrite Hn).
  apply (install_pinned n U (next + 1) next (set_pool_store s1 p) m (page_new t) i
    (mkFrame next (page_new t) 1 true true) p1 fs2); try done.
  intros m1 _. split; simpl; try done; try lia; apply wf_page_new.
Qed.

(** A client changes a page it has pinned. *)
Lemma wpc_set_page (n : nat) U p (fs : fsys) m (next id : PageId) f (page : Page) :
  pool_inv n U None p fs m next -> frame_of p id = Some f -> (0 < fr_pin_count f)%Z -> wf_page page ->
  wpc no_faults (set_page id page : M _ (BufferError Er) unit) p fs
    (fun _ p' fs' => fs' = fs /\ pool_inv n ({[id]} ∪ U) None p' fs m next /\
       frame_of p' id = Some (set_fr_page page f) /\ others_same id p m p' m)
    (fun _ _ _ => False) (fun _ => False).
Proof.
  intros Hi Hf Hpin Hwf.
  apply (frame_of_Some _ _ _ _ _ _ _ id f Hi) in Hf as (i & Ht & _ & Hf & Hfid).
  unfold set_page. wpc_step. wpc_step. wpc_step. rewrite Ht. simpl. wpc_step.
  wpc_step. apply (wpc_get_frame _ f); [done|]. apply wpc_put_frame; [by eapply lookup_lt_Some|].
  split; [done|]. destruct (pi_frame _ _ _ _ _ _ _ Hi i f) as [G1 G2 G3 G4 G5]; [done|done|].
  assert (fr_page_id (set_fr_page page f) = fr_page_id f) as Hsame by done.
  split; [|split].
  - apply (pool_inv_replace _ U _ p fs m next i f); try done.
    + split; try done. intros _ Hn. simpl in Hn. set_solver.
    + intros id' Hne. set_solver.
  - rewrite (frame_of_replace _ U p fs m next i f _ id Hi Hf Hsame). by rewrite Hfid, decide_True.
  - split; [done|]. intros id' Hne. unfold pins at 2.
    rewrite (content_replace _ U p fs m next i f _ id' Hi Hf Hsame).
    rewrite (frame_of_replace _ U p fs m next i f _ id' Hi Hf Hsame), Hfid. by rewrite !decide_False.
Qed.

(** Dropping a pin; a changed page must be given back as dirty. *)
Lemma wpc_unpin (n : nat) U p (fs : fsys) m (next id : PageId) f (dirtied : bool) :
  pool_inv n U None p fs m next -> frame_of p id = Some f -> (0 < fr_pin_count f)%Z ->
  (id ∈ U -> dirtied = true) ->
  wpc no_faults (unpin id dirtied : M _ (BufferError Er) unit) p fs
    (fun _ p' fs' => fs' = fs /\ pool_inv n (U ∖ {[id]}) None p' fs m next /\
       pins p' id = (fr_pin_count f - 1)%Z /\ (forall id', content p' m id' = content p m id') /\
       others_same id p m p' m)
    (fun _ _ _ => False) (fun _ => False).
Proof.
  intros Hi Hf Hpin HU. pose proof Hf as Hfo.
  apply (frame_of_Some _ _ _ _ _ _ _ id f Hi) in Hf as (i & Ht & _ & Hf & Hfid).
  unfold unpin. wpc_step. wpc_step. rewrite Ht. wpc_step. apply (wpc_get_frame _ f); [done|].
  rewrite decide_False by lia. apply wpc_put_frame; [by eapply lookup_lt_Some|].
  split; [done|]. destruct (pi_frame _ _ _ _ _ _ _ Hi i f) as [G1 G2 G3 G4 G5]; [done|done|].
  set (f' := set_fr_dirty (fr_dirty f || dirtied) (set_fr_pin (fr_pin_count f - 1) f)).
  assert (fr_page_id f' = fr_page_id f) as Hsame by done.
  split; [|split; [|split]].
  - apply (pool_inv_replace _ U _ p fs m next i f); try done.
    + split; simpl; try done; [lia| |rewrite Hfid; set_solver].
      intros [Hd ->]%orb_false_iff _. apply G4; [done|]. rewrite Hfid. intros Hin. by apply HU in Hin.
    + intros id' Hne. rewrite Hfid in Hne. set_solver.
  - unfold pins. rewrite (frame_of_replace _ U p fs m next i f _ id Hi Hf Hsame).
    by rewrite Hfid, decide_True.
  - intros id'. rewrite (content_replace _ U p fs m next i f _ id' Hi Hf Hsame), Hfid.
    case_decide as Hd; [|done]. subst id'. unfold content. by rewrite Hfo.
  - split; [done|]. intros id' Hne. unfold pins at 2.
    rewrite (content_replace _ U p fs m next i f _ id' Hi Hf Hsame).
    rewrite (frame_of_replace _ U p fs m next i f _ id' Hi Hf Hsame), Hfid. by rewrite !decide_False.
Qed.

(** Writing a cached page to the backend. *)
Lemma wpc_pool_flush (n : nat) U p (fs : fsys) m (next id : PageId) f :
  pool_inv (Datatypes.S n) U None p fs m next -> frame_of p id = Some f -> id ∉ U ->
  wpc no_faults (pool_flush id : M _ (BufferError Er) unit) p fs
    (fun _ p' fs' => exists m', pool_inv n U None p' fs' m' next /\ stored m' id ≡ fr_page f /\
       (forall id', content p' m' id' = content p m id') /\
       (forall id', id' <> id -> m' !! id' = m !! id') /\
       (forall id', is_Some (frame_of p id') -> is_Some (frame_of p' id')) /\
       capacity p' = capacity p /\ (forall id', pins p' id' = pins p id'))
    (fun _ _ _ => False) (fun _ => False).
Proof.
  intros Hi Hf HU. pose proof Hf as Hfo.
  apply (frame_of_Some _ _ _ _ _ _ _ id f Hi) in Hf as (i & Ht & _ & Hf & Hfid).
  pose proof Hi as [Hv Hc Hl Hh Htab Hfr].
  destruct (Hfr i f) as [G1 G2 G3 G4 G5]; [done|done|]. rewrite Hfid in *.
  unfold pool_flush. wpc_step. wpc_step. rewrite Ht. wpc_step. apply (wpc_get_frame _ f); [done|].
  destruct (fr_dirty f) eqn:Hd.
  - wpc_step. wpc_step. wpc_step. eapply wpc_mono; [by apply (ps_write n _ _ m next)| |done|done].
    intros [] s1 fs1 Hv1. set (m' := <[id := fr_page f]> m) in *. set (p1 := set_pool_store s1 p).
    assert (pool_inv n U None p1 fs1 m' next) as Hi1.
    { split; simpl; try done. intros j g Hne Hg. destruct (Hfr j g Hne Hg) as [K1 K2 K3 K4 K5].
      split; try done. intros Hgd Hgu. unfold stored, m'.
      destruct (decide (fr_page_id g = id)) as [He|Hne'].
      - rewrite He, lookup_insert_eq. simpl.
        destruct (frame_of_index _ _ _ _ _ _ _ j g Hi Hne Hg) as [Hgo _]. rewrite He, Hfo in Hgo.
        by injection Hgo as ->.
      - rewrite lookup_insert_ne by done. by apply K4. }
    set (f' := set_fr_dirty false f). assert (fr_page_id f' = fr_page_id f) as Hsame by done.
    apply wpc_put_frame; [by eapply lookup_lt_Some|].
    exists m'. split; [|split; [|split; [|split; [|split; [|split]]]]].
    + apply (pool_inv_replace _ U _ p1 fs1 m' next i f); try done. split; simpl; try done; rewrite Hfid; try done.
      intros _ _. unfold stored, m'. by rewrite lookup_insert_eq.
    + unfold stored, m'. by rewrite lookup_insert_eq.
    + intros id'. rewrite (content_replace _ U p1 fs1 m' next i f f' id' Hi1 Hf Hsame), Hfid.
      unfold content. change (frame_of p1 id') with (frame_of p id'). case_decide as Hde.
      * subst id'. by rewrite Hfo.
      * destruct (frame_of p id'); [done|]. unfold stored, m'. by rewrite lookup_insert_ne.
    + intros id' Hne. by apply lookup_insert_ne.
    + intros id' Hs. rewrite (frame_of_replace _ U p1 fs1 m' next i f f' id' Hi1 Hf Hsame).
      case_decide; [by eexists|done].
    + done.
    + intros id'. unfold pins. rewrite (frame_of_replace _ U p1 fs1 m' next i f f' id' Hi1 Hf Hsame), Hfid.
      change (frame_of p1 id') with (frame_of p id'). case_decide as Hde; [|done]. subst id'. by rewrite Hfo.
  - wpc_step. exists m. split; [by eapply pool_inv_weaken; [|done]; lia|].
    split; [symmetry; by apply G4|]. done.
Qed.

(** Flushing a list of cached pages. *)
Lemma wpc_flush_list (n : nat) (ids : list PageId) p (fs : fsys) m (next : PageId) :
  pool_inv (length ids + n) ∅ None p fs m next ->
  Forall (fun id => is_Some (frame_of p id)) ids ->
  wpc no_faults (for_each pool_flush ids : M _ (BufferError Er) unit) p fs
    (fun _ p' fs' => exists m', pool_inv n ∅ None p' fs' m' next /\
       (forall id, content p' m' id = content p m id) /\
       (forall id, id ∈ ids -> stored m' id ≡ content p m id) /\
       (forall id, stored m id ≡ content p m id -> stored m' id ≡ content p m id) /\
       capacity p' = capacity p /\ (forall id, pins p' id = pins p id))
    (fun _ _ _ => False) (fun _ => False).
Proof.
  revert p fs m. induction ids as [|id ids IH]; intros p fs m Hi Hall; cbn [for_each].
  - wpc_step. exists m. split; [done|]. split; [done|]. split; [by intros id ?%not_elem_of_nil|done].
  - apply Forall_cons in Hall as [[f Hf] Hall]. wpc_step.
    eapply wpc_mono; [by apply (wpc_pool_flush (length ids + n) ∅ p fs m next id f)| |done|done].
    intros [] p1 fs1 (m1 & Hi1 & Hst & Hco & Hm & Hfr & Hcap & Hpins).
    eapply wpc_mono; [apply (IH p1 fs1 m1 Hi1)| |done|done].
    { eapply Forall_impl; [exact Hall|]. apply Hfr. }
    intros [] p2 fs2 (m2 & Hi2 & Hco2 & Hin2 & Hst2 & Hcap2 & Hpins2).
    assert (content p m id = fr_page f) as Hcf by (unfold content; by rewrite Hf).
    assert (forall id', stored m1 id' ≡ content p m id' -> stored m2 id' ≡ content p m id') as Hkeep.
    { intros id' Hs. rewrite <-Hco in Hs |- *. by apply Hst2. }
    exists m2. split; [done|]. split; [intros id'; by rewrite Hco2|].
    split; [|split; [|split; [by rewrite Hcap2|intros id'; by rewrite Hpins2]]].
    + intros id' [-> | Hin]%elem_of_cons.
      * apply Hkeep. by rewrite Hcf.
      * rewrite <-Hco. by apply Hin2.
    + intros id' Hs. apply Hkeep. destruct (decide (id' = id)) as [->|Hne]; [by rewrite Hcf|].
      unfold stored in *. by rewrite Hm.
Qed.

(** Flushing every cached page. *)
Lemma wpc_flush_all (n : nat) p (fs : fsys) m (next : PageId) :
  pool_inv (length (frames p) + n) ∅ None p fs m next ->
  wpc no_faults (flush_all : M _ (BufferError Er) unit) p fs
    (fun _ p' fs' => exists m', pool_inv n ∅ None p' fs' m' next /\
       (forall id, content p' m' id = content p m id /\ stored m' id ≡ content p m id) /\
       capacity p' = capacity p /\ (forall id, pins p' id = pins p id))
    (fun _ _ _ => False) (fun _ => False).
Proof.
  intros Hi. unfold flush_all. wpc_step. wpc_step.
  eapply wpc_mono; [apply (wpc_flush_list n (fr_page_id <$> frames p) p fs m next)| |done|done].
  - by rewrite length_fmap.
  - apply Forall_fmap, Forall_forall. intros f Hf. apply list_elem_of_lookup in Hf as [i Hf].
    destruct (frame_of_index _ _ _ _ _ _ _ i f Hi) as [Hfo _]; [done|done|]. cbv [compose].
    rewrite Hfo. by eexists.
  - intros [] p' fs' (m' & Hi' & Hco & Hin & Hst & Hrest). exists m'. split; [done|]. split; [|done]. intros id. split; [done|].
    destruct (frame_of p id) as [f|] eqn:E.
    + apply Hin. apply (frame_of_Some _ _ _ _ _ _ _ id f Hi) in E as (i & _ & _ & Hf & <-).
      apply list_elem_of_fmap. exists f. split; [done|]. by eapply list_elem_of_lookup_2.
    + apply Hst. unfold content. by rewrite E.
Qed.

(** ** The properties of the buffer pool *)

(** C33: Fetching is transparent: on a pool that satisfies the invariant, over any backend that
    satisfies the laws, [fetch] caches and pins the page with the contents the client saw before,
    leaves the contents of every other page and the frame of every pinned page unchanged, whatever
    it evicts, and never panics; it fails only with [PoolExhausted], only when every frame is
    pinned, and then nothing has changed. *)
Theorem fetch_transparent (n : nat) p (fs : fsys) m (next id : PageId) :
  pool_inv (Datatypes.S n) ∅ None p fs m next -> (0 <= id < next)%Z -> (pins p id + 1 < 2 ^ 32)%Z ->
  wpc no_faults (fetch id : M _ (BufferError Er) unit) p fs
    (fun _ p' fs' => exists m', pool_inv n ∅ None p' fs' m' next /\ pins p' id = (pins p id + 1)%Z /\
       is_Some (frame_of p' id) /\ (forall id', content p' m' id' ≡ content p m id') /\
       (forall id', id' <> id -> (0 < pins p id')%Z -> frame_of p' id' = frame_of p id'))
    (fun e p' fs' => e = PoolExhausted (capacity p) /\ length (frames p) = capacity p /\
       all_pinned p /\ forall id', content p' m id' ≡ content p m id')
    (fun _ => False).
Proof.
  intros Hi Hid Hpins. eapply wpc_mono; [apply (wpc_fetch n ∅ p fs m next id Hi Hid Hpins); left; set_solver| | |done].
  - intros [] p' fs' (m' & f & G1 & G2 & G3 & G4 & G5). exists m'. split; [done|].
    assert (pins p' id = fr_pin_count f) as Hp by (unfold pins; by rewrite G2).
    split; [by rewrite Hp|]. split; [by rewrite G2; eexists|]. split; [|intros id' Hne; by apply G5].
    intros id'. destruct (decide (id' = id)) as [->|Hne]; [|by apply (proj2 G5)].
    unfold content at 1. by rewrite G2.
  - intros e p' fs' (-> & G1 & G2 & _ & (G3 & _)). done.
Qed.

(** An update through the pool: fetching a page, writing it and unpinning it as dirty makes
    the pool show the new page and leaves every other page as it was, with no pin left over. *)
Theorem pool_update (n : nat) p (fs : fsys) m (next id : PageId) (page : Page) :
  pool_inv (Datatypes.S n) ∅ None p fs m next -> (0 <= id < next)%Z -> (pins p id + 1 < 2 ^ 32)%Z ->
  wf_page page -> ~ all_pinned p ->
  wpc no_faults (fetch id;; set_page id page;; unpin id true : M _ (BufferError Er) unit) p fs
    (fun _ p' fs' => exists m', pool_inv n ∅ None p' fs' m' next /\ pins p' id = pins p id /\
       content p' m' id = page /\ forall id', id' <> id -> content p' m' id' ≡ content p m id')
    (fun _ _ _ => False) (fun _ => False).
Proof.
  intros Hi Hid Hpins Hwf Hnp. wpc_step.
  eapply wpc_mono; [apply (wpc_fetch n ∅ p fs m next id Hi Hid Hpins); left; set_solver| | |done].
  2: { intros e p' fs' (_ & _ & G & _). done. }
  intros [] p1 fs1 (m1 & f1 & Hi1 & Hf1 & Hpg1 & Hp1 & Ho1).
  pose proof Hf1 as Hfr1. apply (frame_of_Some _ _ _ _ _ _ _ id f1 Hi1) in Hfr1 as (i & _ & _ & Hfi & _).
  assert (0 <= pins p id)%Z as Hpos.
  { unfold pins. destruct (frame_of p id) as [f|] eqn:E; [|lia].
    apply (frame_of_Some _ _ _ _ _ _ _ id f Hi) in E as (j & _ & Hh & Hj & _).
    apply (fo_pin _ _ _ _ (pi_frame _ _ _ _ _ _ _ Hi j f Hh Hj)). }
  wpc_step. eapply wpc_mono; [apply (wpc_set_page n ∅ p1 fs1 m1 next id f1); try done; lia| |done|done].
  intros [] p2 fs2 (-> & Hi2 & Hf2 & Ho2).
  eapply wpc_mono; [by apply (wpc_unpin n _ p2 fs1 m1 next id _ true Hi2 Hf2); [simpl; lia|]| |done|done].
  intros [] p3 fs3 (-> & Hi3 & Hp3 & Hc3 & Ho3). exists m1.
  replace (({[id]} ∪ ∅) ∖ {[id]} : gset PageId) with (∅ : gset PageId) in Hi3 by set_solver.
  split; [done|]. split; [rewrite Hp3; simpl; lia|]. split.
  - rewrite Hc3. unfold content. by rewrite Hf2.
  - intros id' Hne. rewrite Hc3. destruct (proj2 Ho2 id' Hne) as [-> _]. by apply (proj2 Ho1).
Qed.

(** Flushing persists: after [flush_all] the backend itself holds, for every page id, what the
    pool shows, and the pool shows what it showed before. *)
Theorem flush_all_persists (n : nat) p (fs : fsys) m (next : PageId) :
  pool_inv (length (frames p) + n) ∅ None p fs m next ->
  wpc no_faults (flush_all : M _ (BufferError Er) unit) p fs
    (fun _ p' fs' => exists m', pool_inv n ∅ None p' fs' m' next /\
       forall id, content p' m' id = content p m id /\ stored m' id ≡ content p m id)
    (fun _ _ _ => False) (fun _ => False).
Proof.
  intros Hi. eapply wpc_mono; [by apply (wpc_flush_all n p fs m next)| |done|done].
  intros [] p' fs' (m' & Hi' & Hco & _). by exists m'.
Qed.
End buffer.

(** ** A concrete pool *)

Section buffer_witnesses.
#[local] Existing Instances sum_crc32.

(** A pool of one frame over the in-memory backend. *)
Definition example_pool : BufferPool MemPageStore := mkPool (mkMem ∅ 3) 1 [] ∅ 0.

Lemma example_pool_inv (n : nat) :
  (3 + Z.of_nat n < 2 ^ 64)%Z -> pool_inv n ∅ None example_pool empty_fs ∅ 3.
Proof.
  intros Hn. split; [by apply example_pages_view|simpl; lia|simpl; lia|simpl; lia| |].
  - intros id i. simpl. rewrite lookup_empty. split; [done|]. by intros (_ & f & Hf & _).
  - intros i f _. simpl. done.
Qed.

Lemma fetch_transparent_witness :
  wpc no_faults (fetch 1 : M _ (BufferError Empty_set) unit) example_pool empty_fs
    (fun _ p' fs' => exists m', pool_inv 0 ∅ None p' fs' m' 3 /\
       pins p' 1 = (pins example_pool 1 + 1)%Z /\ is_Some (frame_of p' 1) /\
       (forall id', content p' m' id' ≡ content example_pool ∅ id') /\
       (forall id', id' <> 1%Z -> (0 < pins example_pool id')%Z ->
          frame_of p' id' = frame_of example_pool id'))
    (fun e p' fs' => e = PoolExhausted (capacity example_pool) /\
       length (frames example_pool) = capacity example_pool /\ all_pinned example_pool /\
       forall id', content p' ∅ id' ≡ content example_pool ∅ id')
    (fun _ => False).
Proof. apply fetch_transparent; [by apply example_pool_inv|lia|by vm_compute]. Defined.

(** The pool with page 1 cached, pinned no more. *)
Definition example_frame : Frame := mkFrame 1 (page_new Data) 0 false true.

Definition example_pool1 : BufferPool MemPageStore :=
  mkPool (mkMem ∅ 3) 1 [example_frame] {[1%Z := 0]} 0.

Lemma example_pool1_inv (n : nat) :
  (3 + Z.of_nat n < 2 ^ 64)%Z -> pool_inv n ∅ None example_pool1 empty_fs ∅ 3.
Proof.
  intros Hn. split; [by apply example_pages_view|simpl; lia|simpl; lia|simpl; lia| |].
  - intros id i. simpl. rewrite lookup_singleton_Some. split.
    + intros [<- <-]. split; [done|]. by exists example_frame.
    + intros (_ & f & [-> <-]%list_lookup_singleton_Some & <-). done.
  - intros i f _ [_ <-]%list_lookup_singleton_Some. split; simpl; try done.
Qed.

Lemma pool_update_witness :
  wpc no_faults (fetch 1;; set_page 1 example_page;; unpin 1 true : M _ (BufferError Empty_set) unit)
    example_pool1 empty_fs
    (fun _ p' fs' => exists m', pool_inv 0 ∅ None p' fs' m' 3 /\ pins p' 1 = pins example_pool1 1 /\
       content p' m' 1 = example_page /\
       forall id', id' <> 1%Z -> content p' m' id' ≡ content example_pool1 ∅ id')
    (fun _ _ _ => False) (fun _ => False).
Proof.
  apply pool_update; [by apply example_pool1_inv|lia|by vm_compute|apply (wf_page_rep _ _ example_page_rep)|].
  intros Hp. specialize (Hp 0 example_frame eq_refl). simpl in Hp. lia.
Defined.

Lemma flush_all_persists_witness :
  wpc no_faults (flush_all : M _ (BufferError Empty_set) unit) example_pool1 empty_fs
    (fun _ p' fs' => exists m', pool_inv 0 ∅ None p' fs' m' 3 /\
       forall id, content p' m' id = content example_pool1 ∅ id /\
         stored m' id ≡ content example_pool1 ∅ id)
    (fun _ _ _ => False) (fun _ => False).
Proof. apply flush_all_persists. by apply example_pool1_inv. Defined.
End buffer_witnesses.
