(* ===== verification/KeyOrder.v ===== *)
(** * KeyOrder: the order of keys

    The lexicographic order of byte vectors as relations, with the decision procedure [order] of
    the Standard Library for it, half-open ranges of keys, and lists of entries in key order: what
    the B+tree and its nodes are ordered by. *)
From Stdlib Require Import OrdersTac.
From S2P Require Export Bytes.

(** ** The total order *)

Definition klt (a b : bytes) : Prop := bytes_ltb a b = true.

Definition kle (a b : bytes) : Prop := bytes_leb a b = true.

Lemma klt_iff (a b : bytes) : klt a b <-> ~ kle b a.
Proof. unfold klt, kle, bytes_ltb. by destruct (bytes_leb b a). Qed.

Lemma kle_iff (a b : bytes) : kle a b <-> klt a b \/ a = b.
Proof.
  unfold klt, kle. split.
  - intros Hle. destruct (decide (a = b)) as [->|Hne]; [by right|left]. by apply bytes_leb_ltb.
  - intros [Hlt| ->]; [by apply bytes_ltb_leb|apply bytes_leb_refl].
Qed.

#[export] Instance klt_strict : StrictOrder klt.
Proof.
  split.
  - intros a Ha. unfold klt in Ha. by rewrite bytes_ltb_irrefl in Ha.
  - intros a b c Hab Hbc. apply (bytes_ltb_trans a b c); [done|]. by apply bytes_ltb_leb.
Qed.

Lemma klt_total (a b : bytes) : klt a b \/ a = b \/ klt b a.
Proof.
  destruct (decide (a = b)) as [->|Hne]; [by right; left|].
  destruct (bytes_leb a b) eqn:E; [left; by apply bytes_leb_ltb|].
  right. right. apply bytes_leb_ltb; [by apply bytes_leb_total|done].
Qed.

Module KeyTotal.
Definition t : Type := bytes.
Definition eq : t -> t -> Prop := @Logic.eq bytes.
Definition lt : t -> t -> Prop := klt.
Definition le : t -> t -> Prop := kle.
Definition eq_equiv : Equivalence eq := eq_equivalence.
Definition lt_strorder : StrictOrder lt := klt_strict.
Lemma lt_compat : Morphisms.Proper (Morphisms.respectful eq (Morphisms.respectful eq iff)) lt.
Proof. by intros ? ? -> ? ? ->. Qed.
Definition le_lteq : forall x y : t, le x y <-> lt x y \/ eq x y := kle_iff.
Definition lt_total : forall x y : t, lt x y \/ eq x y \/ lt y x := klt_total.
End KeyTotal.

Module KeyTac := !MakeOrderTac KeyTotal KeyTotal.

(** Goals over [klt], [kle] and equality of keys. *)
Ltac key_order := KeyTac.order.

Lemma kle_false (a b : bytes) : bytes_leb a b = false <-> klt b a.
Proof. unfold klt, bytes_ltb. by rewrite negb_true_iff. Qed.

Lemma klt_false (a b : bytes) : bytes_ltb a b = false <-> kle b a.
Proof. unfold kle, bytes_ltb. by rewrite negb_false_iff. Qed.

(** ** Ranges of keys *)

(** A bound of a range; [None] is the end of the key space on its side. *)
Abbreviation bound := (option bytes).

Definition above (lo : bound) (k : bytes) : Prop := from_option (fun l => kle l k) True lo.

Definition below (k : bytes) (hi : bound) : Prop := from_option (fun h => klt k h) True hi.

Definition in_range (lo hi : bound) (k : bytes) : Prop := above lo k /\ below k hi.

(** A lower bound strictly under an upper one. *)
Definition proper_range (lo hi : bound) : Prop := from_option (fun l => below l hi) True lo.

Lemma in_range_proper (lo hi : bound) (k : bytes) : in_range lo hi k -> proper_range lo hi.
Proof. destruct lo, hi; simpl; unfold in_range; simpl; intros [? ?]; try done. key_order. Qed.

(** [wider lo hi lo' hi']: the second range contains the first. *)
Definition wider (lo hi lo' hi' : bound) : Prop :=
  match lo' with None => True | Some l' => from_option (fun l => kle l' l) False lo end /\
  match hi' with None => True | Some h' => from_option (fun h => kle h h') False hi end.

Lemma wider_in_range (lo hi lo' hi' : bound) (k : bytes) :
  wider lo hi lo' hi' -> in_range lo hi k -> in_range lo' hi' k.
Proof.
  intros [Hl Hh] [Ha Hb]. split.
  - destruct lo' as [l'|], lo as [l|]; simpl in *; try done. key_order.
  - destruct hi' as [h'|], hi as [h|]; simpl in *; try done. key_order.
Qed.

Lemma wider_proper (lo hi lo' hi' : bound) :
  wider lo hi lo' hi' -> proper_range lo hi -> proper_range lo' hi'.
Proof. destruct lo, hi, lo', hi'; intros [? ?]; simpl in *; try done. key_order. Qed.

Lemma wider_lo (lo hi : bound) (k : bytes) : above lo k -> wider (Some k) hi lo hi.
Proof. intros Ha. split; [by destruct lo|]. destruct hi; simpl; [by apply kle_iff; right|done]. Qed.

Lemma wider_hi (lo hi : bound) (k : bytes) : below k hi -> wider lo (Some k) lo hi.
Proof.
  intros Hb. split; [destruct lo; simpl; [by apply kle_iff; right|done]|].
  destruct hi; simpl in *; [apply kle_iff; by left|done].
Qed.

(** ** Lists of entries in key order *)

(** The entries of a half-open range. *)
Definition in_scan {V} (start end_ : bytes) (e : bytes * V) : Prop := kle start e.1 /\ klt e.1 end_.

#[export] Instance in_scan_dec {V} (start end_ : bytes) (e : bytes * V) : Decision (in_scan start end_ e).
Proof. unfold in_scan, kle, klt. apply _. Defined.

Section entries.
Context {V : Type}.
Implicit Types (es : list (bytes * V)) (k : bytes).

Definition keys_below es k : Prop := Forall (fun e => klt e.1 k) es.

Definition keys_above k es : Prop := Forall (fun e => klt k e.1) es.

Lemma sorted_app es1 es2 :
  StronglySorted key_lt (es1 ++ es2) <->
  StronglySorted key_lt es1 /\ StronglySorted key_lt es2 /\
  forall e1 e2, e1 ∈ es1 -> e2 ∈ es2 -> klt e1.1 e2.1.
Proof.
  induction es1 as [|e es1 IH]; simpl.
  - split; [intros Hs; split; [constructor|split; [done|by intros ? ? ?%not_elem_of_nil]]|by intros (_ & ? & _)].
  - split.
    + intros [Hs Hf]%StronglySorted_inv. apply IH in Hs as (H1 & H2 & H3).
      apply Forall_app in Hf as [Hf1 Hf2]. split; [by constructor|]. split; [done|].
      intros e1 e2 [->|He1]%elem_of_cons He2; [|by apply H3].
      rewrite Forall_forall in Hf2. by apply Hf2.
    + intros ([H1 Hf]%StronglySorted_inv & H2 & H3). constructor.
      * apply IH. split; [done|]. split; [done|]. intros. apply H3; [by right|done].
      * apply Forall_app. split; [done|]. apply Forall_forall. intros e2 He2. apply H3; [by left|done].
Qed.

(** [es'] is [es] with the entries of the key [k], if any, replaced by [new]. *)
Definition entry_update k (new es es' : list (bytes * V)) : Prop :=
  exists l old r, es = l ++ old ++ r /\ es' = l ++ new ++ r /\ keys_below l k /\ keys_above k r /\
    (old = [] \/ exists v, old = [(k, v)]).

(** An update in the middle of a list. *)
Lemma entry_update_app k new es es' a b :
  entry_update k new es es' -> keys_below a k -> keys_above k b ->
  entry_update k new (a ++ es ++ b) (a ++ es' ++ b).
Proof.
  intros (l & old & r & -> & -> & Hl & Hr & Ho) Ha Hb. exists (a ++ l), old, (r ++ b).
  split; [by rewrite <-!app_assoc|]. split; [by rewrite <-!app_assoc|].
  split; [by apply Forall_app|]. split; [by apply Forall_app|done].
Qed.

(** An update keeps the order and the range. *)
Lemma entry_update_sorted k new es es' :
  entry_update k new es es' -> new = [] \/ (exists v, new = [(k, v)]) ->
  StronglySorted key_lt es -> StronglySorted key_lt es'.
Proof.
  intros (l & old & r & -> & -> & Hl & Hr & _) Hn Hs.
  apply sorted_app in Hs as (Hsl & Hso & Hlo). apply sorted_app in Hso as (_ & Hsr & _).
  unfold keys_below, keys_above in *. rewrite Forall_forall in Hl, Hr.
  apply sorted_app. split; [done|]. destruct Hn as [->|[v ->]].
  - split; [done|]. intros e1 e2 He1 He2. apply Hlo; [done|]. apply elem_of_app. by right.
  - split.
    + constructor; [done|]. apply Forall_forall. intros e He. by apply Hr.
    + intros e1 e2 He1 [->|He2]%elem_of_cons; [by apply Hl|]. specialize (Hl e1 He1). specialize (Hr e2 He2). key_order.
Qed.

Lemma entry_update_Forall (P : bytes * V -> Prop) k new es es' :
  entry_update k new es es' -> Forall P new -> Forall P es -> Forall P es'.
Proof.
  intros (l & old & r & -> & -> & _) Hn Hes. rewrite !Forall_app in *. tauto.
Qed.

(** What an ordered list of entries denotes. *)
Definition denotes es (kv : gmap bytes V) : Prop := forall k v, kv !! k = Some v <-> (k, v) ∈ es.

Lemma denotes_bt_iter es (kv : gmap bytes V) :
  denotes es kv -> StronglySorted key_lt es -> bt_iter kv = es.
Proof.
  intros Hd Hs. apply key_sorted_unique; [apply bt_iter_sorted|done|].
  intros [k v]. rewrite elem_of_bt_iter. apply Hd.
Qed.

Lemma denotes_insert k (v : V) es es' (kv : gmap bytes V) :
  denotes es kv -> entry_update k [(k, v)] es es' -> denotes es' (<[k := v]> kv).
Proof.
  intros Hd (l & old & r & -> & -> & Hl & Hr & Ho) k' v'. specialize (Hd k' v').
  unfold keys_below, keys_above in *. rewrite Forall_forall in Hl, Hr.
  rewrite !elem_of_app, list_elem_of_singleton in *. destruct (decide (k = k')) as [<-|Hne].
  - rewrite lookup_insert_eq. split; [intros [= ->]; by right; left|].
    intros [Hin|[[= ->]|Hin]]; [apply Hl in Hin|done|apply Hr in Hin]; simpl in Hin; key_order.
  - rewrite lookup_insert_ne by done. rewrite Hd. split.
    + intros [Hin|[Hin|Hin]]; [by left| |by right; right].
      destruct Ho as [->|[w ->]]; [by apply not_elem_of_nil in Hin|].
      apply list_elem_of_singleton in Hin. congruence.
    + intros [Hin|[[= -> ->]|Hin]]; [by left|done|by right; right].
Qed.

Lemma denotes_delete k es es' (kv : gmap bytes V) :
  denotes es kv -> entry_update k [] es es' -> denotes es' (delete k kv).
Proof.
  intros Hd (l & old & r & -> & -> & Hl & Hr & Ho) k' v'. specialize (Hd k' v').
  unfold keys_below, keys_above in *. rewrite Forall_forall in Hl, Hr.
  cbn [app]. rewrite !elem_of_app in *. destruct (decide (k = k')) as [<-|Hne].
  - rewrite lookup_delete_eq. split; [done|].
    intros [Hin|Hin]; [apply Hl in Hin|apply Hr in Hin]; simpl in Hin; key_order.
  - rewrite lookup_delete_ne by done. rewrite Hd. split; [|tauto].
    intros [Hin|[Hin|Hin]]; [by left| |by right].
    destruct Ho as [->|[w ->]]; [by apply not_elem_of_nil in Hin|].
    apply list_elem_of_singleton in Hin. congruence.
Qed.
End entries.
