(* ===== verification/BTree.v ===== *)
(** * BTree: the B+tree index

    Models [crates/storage/src/btree.rs]: the node codecs, routing, and the recursive operations of
    the tree over the buffer pool. Panics ([unwrap], [expect], slices out of range, unexpected page
    types) are the outcome [Panic]; a recursion that does not end, on a damaged tree, overflows the
    stack of the source and is [Panic] here when the fuel runs out. *)
From S2P Require Export Buffer.

Definition META_PAGE_ID : PageId := 0.

Definition NO_SIBLING : PageId := 0.

Definition SIBLING_SLOT_SENTINEL : Z := 65535.

(** [type Entry]. *)
Abbreviation Entry := (bytes * bytes)%type.

(** [enum BTreeError]. *)
Inductive BTreeError (E : Type) :=
| BtBuffer (e : BufferError E)
| BtPage (e : PageError)
| CorruptMeta.
Arguments BtBuffer {E} e.
Arguments BtPage {E} e.
Arguments CorruptMeta {E}.

(** ** Node codecs *)

(** [&bytes[lo..hi]]; [None] is the panic of a range out of bounds. *)
Definition slice_checked (lo hi : nat) (bs : bytes) : option bytes :=
  if decide (lo <= hi <= length bs) then Some (slice lo hi bs) else None.

(** [u16_at]. *)
Definition u16_at (bs : bytes) (at_ : nat) : option Z := le_val <$> slice_checked at_ (at_ + 2) bs.

Definition encode_leaf_entry (key value : bytes) : bytes :=
  le_bytes 2 (u16 (Z.of_nat (length key))) ++ key ++
  le_bytes 2 (u16 (Z.of_nat (length value))) ++ value.

Definition decode_leaf_entry (bs : bytes) : option Entry :=
  klen ← u16_at bs 0;
  let klen := Z.to_nat klen in
  key ← slice_checked 2 (2 + klen) bs;
  vlen ← u16_at bs (2 + klen);
  let vlen := Z.to_nat vlen in
  value ← slice_checked (4 + klen) (4 + klen + vlen) bs;
  Some (key, value).

Definition encode_leaf_sibling (next : PageId) : bytes :=
  le_bytes 2 SIBLING_SLOT_SENTINEL ++ le_bytes 8 next.

Definition decode_leaf_sibling (bs : bytes) : option PageId :=
  le_val <$> slice_checked 2 10 bs.

(** [struct InternalEntry]. *)
Record InternalEntry := mkInternal {
  ie_key : option bytes;
  ie_child : PageId;
}.

Definition encode_internal_entry (entry : InternalEntry) : bytes :=
  match ie_key entry with
  | Some key => le_bytes 2 (u16 (Z.of_nat (length key))) ++ key
  | None => le_bytes 2 65535
  end ++ le_bytes 8 (ie_child entry).

Definition decode_internal_entry (bs : bytes) : option InternalEntry :=
  key_len_field ← u16_at bs 0;
  if (key_len_field =? 65535)%Z then
    child ← slice_checked 2 10 bs;
    Some (mkInternal None (le_val child))
  else
    let klen := Z.to_nat key_len_field in
    key ← slice_checked 2 (2 + klen) bs;
    child ← slice_checked (2 + klen) (10 + klen) bs;
    Some (mkInternal (Some key) (le_val child)).

(** [page.get(s).unwrap()]. *)
Definition page_get_unwrap (s : SlotId) (page : Page) : option bytes :=
  match page_get s page with
  | Ok bs => Some bs
  | _ => None
  end.

Definition read_leaf_entries (page : Page) : option (list Entry) :=
  slots ← slot_ids page;
  mapM (fun s => bs ← page_get_unwrap s page; decode_leaf_entry bs) (drop 1 slots).

Definition read_leaf_sibling (page : Page) : option PageId :=
  bs ← page_get_unwrap 0 page;
  decode_leaf_sibling bs.

Definition read_internal_entries (page : Page) : option (list InternalEntry) :=
  slots ← slot_ids page;
  mapM (fun s => bs ← page_get_unwrap s page; decode_internal_entry bs) slots.

(** The insertion loop of [build_leaf] and [build_internal]. *)
Fixpoint insert_all (page : Page) (records : list bytes) : Res PageError Page :=
  match records with
  | [] => Ok page
  | r :: records' =>
      match page_insert r page with
      | (Ok _, page') => insert_all page' records'
      | (Err e, _) => Err e
      | (Panic, _) => Panic
      | (Crash, _) => Crash
      end
  end.

Definition build_leaf (entries : list Entry) (next_sibling : PageId) : Res PageError Page :=
  insert_all (page_new BTreeLeaf)
    (encode_leaf_sibling next_sibling :: ((fun e => encode_leaf_entry e.1 e.2) <$> entries)).

Definition build_internal (entries : list InternalEntry) : Res PageError Page :=
  insert_all (page_new BTreeInternal) (encode_internal_entry <$> entries).

Definition split_at_midpoint {A : Type} (entries : list A) : nat := length entries / 2.

(** ** Routing and searching *)

(** The loop of [route_index] from index [i] on. *)
Fixpoint route_loop (i chosen : nat) (entries : list InternalEntry) (search_key : bytes) : nat :=
  match entries with
  | [] => chosen
  | e :: entries' =>
      match ie_key e with
      | Some k => if bytes_leb k search_key then route_loop (S i) i entries' search_key else chosen
      | None => chosen
      end
  end.

Definition route_index (entries : list InternalEntry) (search_key : bytes) : nat :=
  route_loop 1 0 (drop 1 entries) search_key.

(** [None]: the node has no entries and the access panics. *)
Definition route (entries : list InternalEntry) (search_key : bytes) : option PageId :=
  ie_child <$> entries !! route_index entries search_key.

(** [binary_search_by] on the keys of a leaf, which are in strict order: the position of the key,
    or where it belongs. *)
Fixpoint binary_search (entries : list Entry) (key : bytes) : nat + nat :=
  match entries with
  | [] => inr 0
  | (k, _) :: entries' =>
      if decide (k = key) then inl 0
      else if bytes_leb k key then
        match binary_search entries' key with
        | inl i => inl (S i)
        | inr i => inr (S i)
        end
      else inr 0
  end.

(** The index at which a separator enters an internal node: before the first entry, after the
    leftmost, whose key is greater. [None]: an entry has no key and [unwrap] panics. *)
Fixpoint separator_position (i : nat) (entries : list InternalEntry) (sep : bytes) : option nat :=
  match entries with
  | [] => Some i
  | e :: entries' =>
      k ← ie_key e;
      if bytes_ltb sep k then Some i else separator_position (S i) entries' sep
  end.

(** The loop of [scan_range] over the entries of a leaf: what it collects, and whether it met the
    end of the range. *)
Fixpoint range_loop (start end_ : bytes) (entries : list Entry) : list Entry * bool :=
  match entries with
  | [] => ([], false)
  | (k, v) :: entries' =>
      if bytes_leb end_ k then ([], true)
      else
        let '(out, reached) := range_loop start end_ entries' in
        (if bytes_leb start k then (k, v) :: out else out, reached)
  end.

Section tree_ops.
Context {S E : Type} `{!PageStore S E}.

(** A tree is its pool: the struct [BTree] has no other field. *)
Abbreviation T := (M (BufferPool S) (BTreeError E)).

(** The operations of the pool and of pages, under [?]. *)
Definition buf {A : Type} (m : M (BufferPool S) (BufferError E) A) : T A := map_err BtBuffer m.

Definition lift_page {A : Type} (r : Res PageError A) : T A := lift_res BtPage r.

(** [self.pool.page(id).unwrap()]. *)
Definition the_page (id : PageId) : T Page :=
  page ← buf (pool_page id);
  unwrap page.

Definition leaf_entries (page : Page) : T (list Entry) := unwrap (read_leaf_entries page).

Definition internal_entries (page : Page) : T (list InternalEntry) :=
  unwrap (read_internal_entries page).

(** [BTree::open]. *)
Definition tree_open (store : S) (pool_capacity : nat) : M unit (BTreeError E) (BufferPool S) :=
  pool ← unwrap (pool_new store pool_capacity);
  '(_, pool) ← on pool (
    buf (fetch META_PAGE_ID);;
    meta ← the_page META_PAGE_ID;
    slots ← unwrap (slot_ids meta);
    (match slots with
     | [] =>
         root_id ← buf (new_page BTreeLeaf);
         leaf ← lift_page (build_leaf [] NO_SIBLING);
         buf (set_page root_id leaf);;
         buf (unpin root_id true);;
         meta ← the_page META_PAGE_ID;
         let '(r, meta') := page_insert (le_bytes 8 root_id) meta in
         buf (set_page META_PAGE_ID meta');;
         lift_page r;;
         mret tt
     | _ :: _ => mret tt
     end);;
    buf (unpin META_PAGE_ID true));
  mret pool.

Definition root_id : T PageId :=
  buf (fetch META_PAGE_ID);;
  meta ← the_page META_PAGE_ID;
  bs ← lift_page (page_get 0 meta);
  id ← (if length bs =? 8 then mret (le_val bs) else throw CorruptMeta);
  buf (unpin META_PAGE_ID false);;
  mret id.

Definition set_root_id (new_root : PageId) : T unit :=
  buf (fetch META_PAGE_ID);;
  meta ← lift_page (insert_all (page_new Meta) [le_bytes 8 new_root]);
  buf (set_page META_PAGE_ID meta);;
  buf (unpin META_PAGE_ID true).

(** [BTree::get_recursive]. *)
Fixpoint get_recursive (fuel : nat) (page_id : PageId) (key : bytes) : T (option bytes) :=
  match fuel with
  | O => panic
  | Datatypes.S fuel' =>
      buf (fetch page_id);;
      page ← the_page page_id;
      match page_type page with
      | BTreeLeaf =>
          entries ← leaf_entries page;
          let result := snd <$> head (filter (fun e => e.1 = key) entries) in
          buf (unpin page_id false);;
          mret result
      | BTreeInternal =>
          entries ← internal_entries page;
          child ← unwrap (route entries key);
          buf (unpin page_id false);;
          get_recursive fuel' child key
      | _ => panic
      end
  end.

Definition tree_get (fuel : nat) (key : bytes) : T (option bytes) :=
  root ← root_id;
  get_recursive fuel root key.

(** The leaf case of [insert_recursive]. *)
Definition insert_leaf (page_id : PageId) (key value : bytes) : T (option (bytes * PageId)) :=
  page ← the_page page_id;
  old_next_sibling ← unwrap (read_leaf_sibling page);
  entries ← leaf_entries page;
  let entries := match binary_search entries key with
                 | inl i => <[i := (key, value)]> entries
                 | inr i => take i entries ++ (key, value) :: drop i entries
                 end in
  split ← (match build_leaf entries old_next_sibling with
           | Ok page => buf (set_page page_id page);; mret None
           | Err (Full _ _) =>
               let mid := split_at_midpoint entries in
               let left := take mid entries in
               let right := drop mid entries in
               right_id ← buf (new_page BTreeLeaf);
               left_page ← lift_page (build_leaf left right_id);
               buf (set_page page_id left_page);;
               right_page ← lift_page (build_leaf right old_next_sibling);
               buf (set_page right_id right_page);;
               sep ← unwrap (fst <$> head right);
               buf (unpin right_id true);;
               mret (Some (sep, right_id))
           | Err e => throw (BtPage e)
           | _ => panic
           end);
  buf (unpin page_id true);;
  mret split.

(** The internal case after the child split: the separator enters the node, which may split. *)
Definition insert_separator (page_id : PageId) (sep_key : bytes) (new_child : PageId) :
    T (option (bytes * PageId)) :=
  buf (fetch page_id);;
  page ← the_page page_id;
  entries ← internal_entries page;
  insert_at ← unwrap (match entries with
                      | [] => None
                      | _ :: rest => separator_position 1 rest sep_key
                      end);
  let entries := take insert_at entries ++ mkInternal (Some sep_key) new_child :: drop insert_at entries in
  split ← (match build_internal entries with
           | Ok page => buf (set_page page_id page);; mret None
           | Err (Full _ _) =>
               let mid := split_at_midpoint entries `max` 1 in
               mid_entry ← unwrap (entries !! mid);
               promoted_key ← unwrap (ie_key mid_entry);
               let left := take mid entries in
               let right := mkInternal None (ie_child mid_entry) :: drop (mid + 1) entries in
               left_page ← lift_page (build_internal left);
               buf (set_page page_id left_page);;
               right_id ← buf (new_page BTreeInternal);
               right_page ← lift_page (build_internal right);
               buf (set_page right_id right_page);;
               buf (unpin right_id true);;
               mret (Some (promoted_key, right_id))
           | Err e => throw (BtPage e)
           | _ => panic
           end);
  buf (unpin page_id true);;
  mret split.

(** [BTree::insert_recursive]. *)
Fixpoint insert_recursive (fuel : nat) (page_id : PageId) (key value : bytes) :
    T (option (bytes * PageId)) :=
  match fuel with
  | O => panic
  | Datatypes.S fuel' =>
      buf (fetch page_id);;
      page ← the_page page_id;
      match page_type page with
      | BTreeLeaf => insert_leaf page_id key value
      | BTreeInternal =>
          entries ← internal_entries page;
          child ← unwrap (route entries key);
          buf (unpin page_id false);;
          child_split ← insert_recursive fuel' child key value;
          match child_split with
          | None => mret None
          | Some (sep_key, new_child) => insert_separator page_id sep_key new_child
          end
      | _ => panic
      end
  end.

(** [BTree::insert]. *)
Definition tree_insert (fuel : nat) (key value : bytes) : T unit :=
  root ← root_id;
  split ← insert_recursive fuel root key value;
  match split with
  | Some (sep, new_child) =>
      new_root_id ← buf (new_page BTreeInternal);
      page ← lift_page (build_internal [mkInternal None root; mkInternal (Some sep) new_child]);
      buf (set_page new_root_id page);;
      buf (unpin new_root_id true);;
      set_root_id new_root_id
  | None => mret tt
  end.

(** The leaf case of [delete_recursive]. *)
Definition delete_leaf (page_id : PageId) (key : bytes) : T (bool * bool) :=
  page ← the_page page_id;
  next_sibling ← unwrap (read_leaf_sibling page);
  entries ← leaf_entries page;
  let '(entries, found) := match binary_search entries key with
                           | inl i => (take i entries ++ drop (i + 1) entries, true)
                           | inr _ => (entries, false)
                           end in
  (if found : bool then
     page ← lift_page (build_leaf entries next_sibling);
     buf (set_page page_id page)
   else mret tt);;
  buf (unpin page_id found);;
  mret (found, bool_decide (entries = [])).

(** The internal case after the child became empty. *)
Definition delete_child (page_id : PageId) (child_index : nat) : T (bool * bool) :=
  buf (fetch page_id);;
  page ← the_page page_id;
  entries ← internal_entries page;
  if (child_index =? 0) && (length entries =? 1) then
    buf (unpin page_id false);;
    mret (true, true)
  else
    entries ← unwrap (if child_index =? 0 then
                        match entries with
                        | _ :: e :: rest => Some (mkInternal None (ie_child e) :: rest)
                        | _ => None
                        end
                      else if decide (child_index < length entries)
                           then Some (take child_index entries ++ drop (child_index + 1) entries)
                           else None);
    page ← lift_page (build_internal entries);
    buf (set_page page_id page);;
    buf (unpin page_id true);;
    mret (true, bool_decide (length entries = 0)).

(** [BTree::delete_recursive]. *)
Fixpoint delete_recursive (fuel : nat) (page_id : PageId) (key : bytes) : T (bool * bool) :=
  match fuel with
  | O => panic
  | Datatypes.S fuel' =>
      buf (fetch page_id);;
      page ← the_page page_id;
      match page_type page with
      | BTreeLeaf => delete_leaf page_id key
      | BTreeInternal =>
          entries ← internal_entries page;
          let child_index := route_index entries key in
          child ← unwrap (ie_child <$> entries !! child_index);
          buf (unpin page_id false);;
          '(found, child_emptied) ← delete_recursive fuel' child key;
          if negb found then mret (false, false)
          else if negb child_emptied then mret (true, false)
          else delete_child page_id child_index
      | _ => panic
      end
  end.

(** [BTree::delete]. *)
Definition tree_delete (fuel : nat) (key : bytes) : T bool :=
  root ← root_id;
  '(found, root_emptied) ← delete_recursive fuel root key;
  (if root_emptied : bool then
     buf (fetch root);;
     page ← the_page root;
     if decide (page_type page = BTreeInternal) then
       entries ← internal_entries page;
       new_root ← unwrap (ie_child <$> head entries);
       buf (unpin root false);;
       set_root_id new_root
     else buf (unpin root false)
   else mret tt);;
  mret found.

(** [BTree::scan_recursive]. *)
Fixpoint scan_recursive (fuel : nat) (page_id : PageId) : T (list Entry) :=
  match fuel with
  | O => panic
  | Datatypes.S fuel' =>
      buf (fetch page_id);;
      page ← the_page page_id;
      match page_type page with
      | BTreeLeaf =>
          entries ← leaf_entries page;
          buf (unpin page_id false);;
          mret entries
      | BTreeInternal =>
          entries ← internal_entries page;
          buf (unpin page_id false);;
          (fix children (es : list InternalEntry) : T (list Entry) :=
             match es with
             | [] => mret []
             | e :: es' =>
                 out ← scan_recursive fuel' (ie_child e);
                 rest ← children es';
                 mret (out ++ rest)
             end) entries
      | _ => panic
      end
  end.

(** [BTree::scan_all]. *)
Definition scan_all (fuel : nat) : T (list Entry) :=
  root ← root_id;
  scan_recursive fuel root.

(** [BTree::find_leaf_for_key]. *)
Fixpoint find_leaf_for_key (fuel : nat) (page_id : PageId) (key : bytes) : T PageId :=
  match fuel with
  | O => panic
  | Datatypes.S fuel' =>
      buf (fetch page_id);;
      page ← the_page page_id;
      match page_type page with
      | BTreeLeaf => buf (unpin page_id false);; mret page_id
      | BTreeInternal =>
          entries ← internal_entries page;
          child ← unwrap (route entries key);
          buf (unpin page_id false);;
          find_leaf_for_key fuel' child key
      | _ => panic
      end
  end.

(** The loop of [scan_range] along the sibling pointers. *)
Fixpoint scan_leaves (fuel : nat) (leaf_id : PageId) (start end_ : bytes) : T (list Entry) :=
  match fuel with
  | O => panic
  | Datatypes.S fuel' =>
      buf (fetch leaf_id);;
      page ← the_page leaf_id;
      entries ← leaf_entries page;
      next_sibling ← unwrap (read_leaf_sibling page);
      buf (unpin leaf_id false);;
      let '(out, reached_end) := range_loop start end_ entries in
      if reached_end || (next_sibling =? NO_SIBLING)%Z then mret out
      else
        rest ← scan_leaves fuel' next_sibling start end_;
        mret (out ++ rest)
  end.

(** [BTree::scan_range]. *)
Definition scan_range (fuel : nat) (start end_ : bytes) : T (list Entry) :=
  root ← root_id;
  leaf_id ← find_leaf_for_key fuel root start;
  scan_leaves fuel leaf_id start end_.

(** [BTree::flush]. *)
Definition tree_flush : T unit := buf flush_all.

(** The loop of [depth] down the leftmost path. *)
Fixpoint depth_loop (fuel : nat) (page_id : PageId) (depth : nat) : T nat :=
  match fuel with
  | O => panic
  | Datatypes.S fuel' =>
      buf (fetch page_id);;
      page ← the_page page_id;
      next ← (match page_type page with
              | BTreeLeaf => mret None
              | BTreeInternal =>
                  entries ← internal_entries page;
                  child ← unwrap (ie_child <$> head entries);
                  mret (Some child)
              | _ => panic
              end);
      buf (unpin page_id false);;
      match next with
      | None => mret depth
      | Some child => depth_loop fuel' child (depth + 1)
      end
  end.

Definition tree_depth (fuel : nat) : T nat :=
  root ← root_id;
  depth_loop fuel root 1.
End tree_ops.
