(* ===== verification/BTreeNode.v ===== *)
(** * BTreeNode: the nodes of the B+tree as pages

    A node of the tree is an abstract value (the entries of a leaf and its right sibling, the
    entries of an internal node, or the root recorded in the meta page); [node_rep] says which
    page represents it. The codecs of the entries are inverse to each other, the readers of the
    source return the entries of the node, and its builders succeed exactly when the node fits a
    page. *)
From S2P Require Export BufferSpec BTree.

(** ** Codecs *)

Lemma slice_checked_mid (lo hi : nat) (a b c : bytes) :
  lo = length a -> hi = lo + length b -> slice_checked lo hi (a ++ b ++ c) = Some b.
Proof.
  intros -> ->. unfold slice_checked. rewrite !length_app, decide_True by lia.
  f_equal. unfold slice. rewrite drop_app_length.
  replace (length a + length b - length a) with (length b) by lia. apply take_app_length.
Qed.

Lemma u16_at_mid (at_ : nat) (a c : bytes) (z : Z) :
  at_ = length a -> (0 <= z < 2 ^ 16)%Z -> u16_at (a ++ le_bytes 2 z ++ c) at_ = Some z.
Proof.
  intros -> Hz. unfold u16_at. rewrite slice_checked_mid by (rewrite ?length_le_bytes; lia).
  cbn [fmap option_fmap option_map]. rewrite le_val_bytes_small by lia. done.
Qed.

Lemma u16_at_head (c : bytes) (z : Z) : (0 <= z < 2 ^ 16)%Z -> u16_at (le_bytes 2 z ++ c) 0 = Some z.
Proof. apply (u16_at_mid 0 []). done. Qed.

Lemma slice_checked_tail (lo hi : nat) (a b : bytes) :
  lo = length a -> hi = lo + length b -> slice_checked lo hi (a ++ b) = Some b.
Proof. intros. rewrite <-(app_nil_r b) at 1. by apply slice_checked_mid. Qed.

(** The codec of the entries of a leaf, for what a page can hold. *)
Lemma decode_encode_leaf_entry (key value : bytes) :
  (Z.of_nat (length key) < 2 ^ 16)%Z -> (Z.of_nat (length value) < 2 ^ 16)%Z ->
  decode_leaf_entry (encode_leaf_entry key value) = Some (key, value).
Proof.
  intros Hk Hv. unfold encode_leaf_entry, decode_leaf_entry. rewrite !u16_small by lia.
  rewrite u16_at_head by lia. cbn [mbind option_bind]. rewrite Nat2Z.id.
  rewrite slice_checked_mid by (rewrite ?length_le_bytes; lia). cbn [mbind option_bind].
  rewrite (app_assoc _ key), u16_at_mid by (rewrite ?length_app, ?length_le_bytes; lia).
  cbn [mbind option_bind]. rewrite Nat2Z.id, app_assoc.
  rewrite slice_checked_tail by (rewrite ?length_app, ?length_le_bytes; lia). done.
Qed.

Lemma decode_encode_leaf_sibling (next : PageId) :
  in_u64 next -> decode_leaf_sibling (encode_leaf_sibling next) = Some next.
Proof.
  intros Hn. unfold decode_leaf_sibling, encode_leaf_sibling.
  rewrite slice_checked_tail by (rewrite ?length_le_bytes; done).
  cbn [fmap option_fmap option_map]. rewrite le_val_bytes_small; [done|]. width_lia.
Qed.

Lemma decode_encode_internal_entry (e : InternalEntry) :
  in_u64 (ie_child e) -> (forall k, ie_key e = Some k -> (Z.of_nat (length k) < 65535)%Z) ->
  decode_internal_entry (encode_internal_entry e) = Some e.
Proof.
  intros Hc Hk. destruct e as [[k|] c]; simpl in Hc, Hk; unfold encode_internal_entry, decode_internal_entry;
    cbn [ie_key ie_child].
  - specialize (Hk k eq_refl). rewrite u16_small, <-app_assoc by lia.
    rewrite u16_at_head by lia. cbn [mbind option_bind].
    rewrite (proj2 (Z.eqb_neq _ _)) by lia. cbv zeta.
    rewrite Nat2Z.id, (slice_checked_mid 2 (2 + length k)) by (rewrite ?length_le_bytes; lia).
    cbn [mbind option_bind].
    rewrite app_assoc, slice_checked_tail by (rewrite ?length_app, ?length_le_bytes; lia).
    cbn [mbind option_bind]. rewrite le_val_bytes_small; [done|]. width_lia.
  - rewrite u16_at_head by done. cbn [mbind option_bind]. rewrite Z.eqb_refl.
    rewrite slice_checked_tail by (rewrite ?length_le_bytes; done).
    cbn [mbind option_bind]. rewrite le_val_bytes_small; [done|]. width_lia.
Qed.

(** ** Nodes *)

Inductive Node :=
| NLeaf (entries : list Entry) (next_sibling : PageId)
| NInternal (entries : list InternalEntry)
| NMeta (root : PageId)
| NEmpty.

Definition leaf_record (e : Entry) : bytes := encode_leaf_entry e.1 e.2.

(** The records of the page of a node. *)
Definition node_records (nd : Node) : list bytes :=
  match nd with
  | NLeaf entries next => encode_leaf_sibling next :: (leaf_record <$> entries)
  | NInternal entries => encode_internal_entry <$> entries
  | NMeta root => [le_bytes 8 root]
  | NEmpty => []
  end.

(** The page ids a node mentions. *)
Definition node_links (nd : Node) : list PageId :=
  match nd with
  | NLeaf _ next => [next]
  | NInternal entries => ie_child <$> entries
  | NMeta root => [root]
  | NEmpty => []
  end.

(** The meta page starts as an empty page of type [Data], and the tree is created in place. *)
Definition node_type (nd : Node) (t : PageType) : Prop :=
  match nd with
  | NLeaf _ _ => t = BTreeLeaf
  | NInternal _ => t = BTreeInternal
  | NMeta _ => True
  | NEmpty => True
  end.

(** The bytes that records take in a page, each with its slot, and the bytes there are. *)
Definition record_space (rs : list bytes) : nat := sum_list_with (fun r => SLOT_LEN + length r) rs.

Definition NODE_SPACE : nat := PAGE_SIZE - PAGE_HEADER_LEN.

(** The bytes left in a page. *)
Definition space_left (pg : Page) (rs : list bytes) : Prop :=
  (free_end pg - free_start pg = Z.of_nat NODE_SPACE - Z.of_nat (record_space rs))%Z.

Record node_rep (pg : Page) (nd : Node) : Prop := {
  nr_type : node_type nd (page_type pg);
  nr_page : page_rep pg (Some <$> node_records nd);
  nr_left : space_left pg (node_records nd);
  nr_links : Forall in_u64 (node_links nd);
}.

Lemma nr_space (pg : Page) (nd : Node) :
  node_rep pg nd -> record_space (node_records nd) <= NODE_SPACE.
Proof. intros [_ Hp Hl _]. unfold space_left in Hl. pose proof (pr_end _ _ Hp). lia. Qed.

Lemma record_space_app (rs1 rs2 : list bytes) :
  record_space (rs1 ++ rs2) = record_space rs1 + record_space rs2.
Proof. apply sum_list_with_app. Qed.

Lemma record_space_cons (r : bytes) (rs : list bytes) :
  record_space (r :: rs) = SLOT_LEN + length r + record_space rs.
Proof. done. Qed.

Lemma record_space_elem (rs : list bytes) (r : bytes) : r ∈ rs -> SLOT_LEN + length r <= record_space rs.
Proof. intros Hr. by apply (sum_list_with_in r (fun r => SLOT_LEN + length r)). Qed.

Lemma length_leaf_record (e : Entry) : length (leaf_record e) = 4 + length e.1 + length e.2.
Proof. unfold leaf_record, encode_leaf_entry. rewrite !length_app, !length_le_bytes. lia. Qed.

Lemma length_internal_entry (e : InternalEntry) :
  length (encode_internal_entry e) = 10 + length (default [] (ie_key e)).
Proof.
  unfold encode_internal_entry. destruct (ie_key e); rewrite !length_app, ?length_le_bytes; simpl; lia.
Qed.

(** ** Pages up to the checksum represent the same node *)

Section equiv.
Context `{Crc32}.

Lemma space_left_equiv (p q : Page) (rs : list bytes) :
  p ≡ q -> length (page_bytes p) = PAGE_SIZE -> space_left p rs -> space_left q rs.
Proof.
  intros He Hl. pose proof (page_equiv_length p q He Hl) as Hl'.
  unfold space_left, free_end, free_start, read_u16.
  by rewrite !(page_equiv_slice p q _ _ Hl Hl' He) by lia.
Qed.

Lemma node_rep_equiv (p q : Page) (nd : Node) : p ≡ q -> node_rep p nd -> node_rep q nd.
Proof.
  intros He [Ht Hp Hs Hl].
  split; [|by eapply page_rep_equiv|by eapply space_left_equiv; [|apply (pr_len _ _ Hp)|]|done].
  destruct He as [Hty _]. by rewrite <-Hty.
Qed.

#[export] Instance node_rep_proper : Proper ((≡) ==> (=) ==> iff) node_rep.
Proof. intros p q Hpq nd ? <-. split; apply node_rep_equiv; [done|by symmetry]. Qed.
End equiv.

(** ** The readers *)

Section readers.
Context (pg : Page) (rs : list bytes) (Hpg : page_rep pg (Some <$> rs)).

Lemma slot_ids_records : slot_ids pg = Some (Z.of_nat <$> List.seq 0 (length rs)).
Proof.
  rewrite (slot_ids_rep _ _ Hpg). unfold live_slots. rewrite length_fmap, filter_all; [done|].
  apply Forall_forall. intros i Hi%list_elem_of_In%in_seq.
  destruct (lookup_lt_is_Some_2 rs i) as [r Hr]; [lia|]. rewrite list_lookup_fmap, Hr. simpl. by eexists.
Qed.

Lemma page_get_record (i : nat) (r : bytes) :
  rs !! i = Some r -> page_get_unwrap (Z.of_nat i) pg = Some r.
Proof.
  intros Hi. unfold page_get_unwrap. by rewrite (page_get_rep _ _ _ Hpg), list_lookup_fmap, Hi.
Qed.

(** Decoding the records from index [i] on. *)
Lemma mapM_records {A} (enc : A -> bytes) (f : bytes -> option A) (i : nat) (l : list A) :
  drop i rs = enc <$> l -> (forall a, a ∈ l -> f (enc a) = Some a) ->
  mapM (fun s => bs ← page_get_unwrap s pg; f bs) (Z.of_nat <$> List.seq i (length rs - i)) = Some l.
Proof.
  intros Hd Hf. apply mapM_Some.
  assert (length l = length rs - i) as Hl by (rewrite <-(length_fmap enc), <-Hd; apply length_drop).
  rewrite Forall2_fmap_l. apply Forall2_same_length_lookup_2; [by rewrite length_seq|].
  intros j n a [-> Hj]%lookup_seq Ha. cbn beta.
  assert (rs !! (i + j) = Some (enc a)) as Hr.
  { rewrite <-lookup_drop, Hd, list_lookup_fmap, Ha. done. }
  unfold compose. cbn beta. rewrite (page_get_record _ _ Hr). cbn [mbind option_bind]. apply Hf. by eapply list_elem_of_lookup_2.
Qed.
End readers.

(** Every entry of a node on a page has lengths that its fields hold. *)
Lemma leaf_entry_fits (es : list Entry) (next : PageId) (e : Entry) :
  record_space (node_records (NLeaf es next)) <= NODE_SPACE -> e ∈ es ->
  4 + length e.1 + length e.2 + SLOT_LEN <= NODE_SPACE.
Proof.
  intros Hs He. rewrite <-length_leaf_record.
  pose proof (record_space_elem (node_records (NLeaf es next)) (leaf_record e)) as Hr.
  specialize (Hr ltac:(simpl; apply list_elem_of_further, list_elem_of_fmap_2, He)). lia.
Qed.

Lemma internal_entry_fits (es : list InternalEntry) (e : InternalEntry) :
  record_space (node_records (NInternal es)) <= NODE_SPACE -> e ∈ es ->
  10 + length (default [] (ie_key e)) + SLOT_LEN <= NODE_SPACE.
Proof.
  intros Hs He. rewrite <-length_internal_entry.
  pose proof (record_space_elem (node_records (NInternal es)) (encode_internal_entry e)) as Hr.
  specialize (Hr ltac:(simpl; apply list_elem_of_fmap_2, He)). lia.
Qed.

Lemma read_leaf_rep (pg : Page) (es : list Entry) (next : PageId) :
  node_rep pg (NLeaf es next) ->
  read_leaf_entries pg = Some es /\ read_leaf_sibling pg = Some next.
Proof.
  intros Hrep. pose proof (nr_space _ _ Hrep) as Hs. destruct Hrep as [_ Hp _ Hl]. split.
  - unfold read_leaf_entries. rewrite (slot_ids_records _ _ Hp). cbn [mbind option_bind].
    rewrite <-fmap_drop. replace (drop 1 (List.seq 0 (length (node_records (NLeaf es next)))))
      with (List.seq 1 (length (node_records (NLeaf es next)) - 1)) by (cbn [node_records length List.seq drop]; by rewrite Nat.sub_succ, Nat.sub_0_r, drop_0).
    apply (mapM_records _ _ Hp leaf_record); [done|].
    intros e He. pose proof (leaf_entry_fits es next e Hs He) as Hf. destruct e as [k v].
    unfold NODE_SPACE, PAGE_SIZE, PAGE_HEADER_LEN, SLOT_LEN in Hf. simpl in Hf.
    apply decode_encode_leaf_entry; lia.
  - unfold read_leaf_sibling. change 0%Z with (Z.of_nat 0).
    rewrite (page_get_record _ _ Hp 0 (encode_leaf_sibling next)) by done. cbn [mbind option_bind].
    apply decode_encode_leaf_sibling. by apply Forall_inv in Hl.
Qed.

Lemma read_internal_rep (pg : Page) (es : list InternalEntry) :
  node_rep pg (NInternal es) -> read_internal_entries pg = Some es.
Proof.
  intros Hrep. pose proof (nr_space _ _ Hrep) as Hs. destruct Hrep as [_ Hp _ Hl]. unfold read_internal_entries. rewrite (slot_ids_records _ _ Hp).
  cbn [mbind option_bind].
  rewrite <-(Nat.sub_0_r (length (node_records (NInternal es)))).
  apply (mapM_records _ _ Hp encode_internal_entry); [done|].
  intros e He. pose proof (internal_entry_fits es e Hs He) as Hf.
  unfold NODE_SPACE, PAGE_SIZE, PAGE_HEADER_LEN, SLOT_LEN in Hf.
  apply decode_encode_internal_entry.
  - cbn [node_links] in Hl. rewrite Forall_fmap, Forall_forall in Hl. by apply (Hl e).
  - intros k Hk. rewrite Hk in Hf. simpl in Hf. lia.
Qed.

Lemma read_meta_rep (pg : Page) (root : PageId) :
  node_rep pg (NMeta root) -> page_get 0 pg = Ok (le_bytes 8 root).
Proof. intros [_ Hp _ _]. change 0%Z with (Z.of_nat 0). by rewrite (page_get_rep _ _ 0 Hp). Qed.

(** ** The builders *)

Lemma space_left_new (t : PageType) : space_left (page_new t) [].
Proof. unfold space_left. destruct t; by vm_compute. Qed.

Lemma page_insert_type (r : bytes) (pg pg' : Page) (s : SlotId) :
  page_insert r pg = (Ok s, pg') -> page_type pg' = page_type pg.
Proof.
  unfold page_insert. case_match; [done|]. case_match; [|done]. case_match; [|done].
  by intros [= _ <-].
Qed.

Lemma insert_all_spec (pg : Page) (rs new : list bytes) :
  page_rep pg (Some <$> rs) -> space_left pg rs ->
  if decide (record_space (rs ++ new) <= NODE_SPACE)
  then exists pg', insert_all pg new = Ok pg' /\ page_type pg' = page_type pg /\
    page_rep pg' (Some <$> rs ++ new) /\ space_left pg' (rs ++ new)
  else exists a b, insert_all pg new = Err (Full a b).
Proof.
  revert pg rs. induction new as [|r new IH]; intros pg rs Hp Hs; cbn [insert_all].
  - rewrite app_nil_r. unfold space_left in Hs. pose proof (pr_end _ _ Hp).
    rewrite decide_True by lia. by exists pg.
  - rewrite (page_insert_eq _ _ r Hp). unfold space_left in Hs.
    destruct (decide (Z.of_nat (SLOT_LEN + length r) <= free_end pg - free_start pg)%Z) as [Hfit|Hfit].
    + destruct (page_insert_rep _ _ r Hp Hfit) as [Hp' Hs'].
      specialize (IH (inserted_page pg (Some <$> rs) r) (rs ++ [r])).
      rewrite fmap_app, <-app_assoc in IH. apply IH; [done|].
      unfold space_left. rewrite Hs', record_space_app, record_space_cons. change (record_space []) with 0. lia.
    + rewrite decide_False; [by do 2 eexists|].
      rewrite record_space_app, record_space_cons. lia.
Qed.

(** A node fits a page. *)
Definition node_fits (nd : Node) : Prop := record_space (node_records nd) <= NODE_SPACE.

#[export] Instance node_fits_dec (nd : Node) : Decision (node_fits nd).
Proof. unfold node_fits. apply _. Defined.

(** What a builder does for a node: it succeeds exactly when the node fits. *)
Definition builds (r : Res PageError Page) (nd : Node) : Prop :=
  if decide (node_fits nd) then exists pg, r = Ok pg /\ node_rep pg nd
  else exists a b, r = Err (Full a b).

Lemma builds_insert_all (t : PageType) (nd : Node) :
  node_type nd t -> Forall in_u64 (node_links nd) ->
  builds (insert_all (page_new t) (node_records nd)) nd.
Proof.
  intros Ht Hl. unfold builds, node_fits.
  pose proof (insert_all_spec (page_new t) [] (node_records nd) (page_new_rep t) (space_left_new t)) as Hi.
  cbn [app] in Hi. destruct (decide (record_space (node_records nd) <= NODE_SPACE)) as [Hf|Hf]; [|done].
  destruct Hi as (pg & Hi & Hty & Hp & Hs).
  exists pg. split; [done|]. split; [|done|done|done]. rewrite Hty. by destruct t.
Qed.

Lemma build_leaf_builds (es : list Entry) (next : PageId) :
  in_u64 next -> builds (build_leaf es next) (NLeaf es next).
Proof. intros Hn. apply builds_insert_all; [done|by constructor]. Qed.

Lemma build_internal_builds (es : list InternalEntry) :
  Forall in_u64 (ie_child <$> es) -> builds (build_internal es) (NInternal es).
Proof. intros Hl. by apply builds_insert_all. Qed.

Lemma build_meta (root : PageId) :
  in_u64 root -> exists pg, insert_all (page_new Meta) [le_bytes 8 root] = Ok pg /\ node_rep pg (NMeta root).
Proof.
  intros Hr. pose proof (builds_insert_all Meta (NMeta root) I ltac:(by constructor)) as Hb.
  unfold builds in Hb. rewrite decide_True in Hb; [done|]. unfold node_fits, record_space. simpl.
  unfold NODE_SPACE, PAGE_SIZE, PAGE_HEADER_LEN, SLOT_LEN. lia.
Qed.

Lemma builds_fits (r : Res PageError Page) (nd : Node) :
  builds r nd -> node_fits nd -> exists pg, r = Ok pg /\ node_rep pg nd.
Proof. unfold builds. intros Hb Hf. by rewrite decide_True in Hb. Qed.
