(* ===== verification/PoolNodes.v ===== *)
(** * PoolNodes: the buffer pool as a memory of tree nodes

    The client's view of a buffer pool: a finite map from page ids to nodes, the set [X] of pages
    it has pinned, once each, and the set [U] of pages it has changed and not yet given back as
    dirty. The rules for fetching, reading, writing, unpinning and allocating pages carry the whole
    of the pool's contract to the operations of the tree: within the capacity of the pool no call
    fails and none panics. *)
From S2P Require Export BTreeNode.

(** Membership in the set of pinned pages. *)
Ltac pinned := first
  [ by apply elem_of_singleton
  | apply elem_of_union; left; by apply elem_of_singleton
  | apply elem_of_union; right; by apply elem_of_singleton
  | set_solver ].

Section pool_nodes.
Context `{PageStoreLaws St Er}.

Implicit Types (p : BufferPool St) (fs : fsys) (N : gmap PageId Node) (X U : gset PageId).

Record pool_nodes (n cap : nat) X U p fs N (next : PageId) : Prop := {
  pn_pool : exists m, pool_inv n U None p fs m next /\
    forall id nd, N !! id = Some nd -> node_rep (content p m id) nd;
  pn_cap : capacity p = cap;
  pn_pins : forall id, pins p id = if decide (id ∈ X) then 1%Z else 0%Z;
  pn_dirty : U ⊆ X;
  pn_ids : forall id, is_Some (N !! id) -> (0 <= id < next)%Z;
}.

Lemma pool_nodes_weaken (n n' cap : nat) X U p fs N (next : PageId) :
  n' <= n -> pool_nodes n cap X U p fs N next -> pool_nodes n' cap X U p fs N next.
Proof.
  intros Hn [(m & Hi & Hm) ? ? ? ?]. split; try done. exists m. split; [by eapply pool_inv_weaken|done].
Qed.

Lemma pool_nodes_range (n cap : nat) X U p fs N (next : PageId) :
  pool_nodes n cap X U p fs N next -> (0 <= next)%Z /\ (next + Z.of_nat n < 2 ^ 64)%Z.
Proof. intros [(m & Hi & _) _ _ _ _]. apply (ps_next_range _ _ _ _ _ (pi_view _ _ _ _ _ _ _ Hi)). Qed.

(** A pinned page is cached. *)
Lemma pool_nodes_pinned (n cap : nat) X U p fs N (next id : PageId) :
  pool_nodes n cap X U p fs N next -> id ∈ X ->
  exists f, frame_of p id = Some f /\ fr_pin_count f = 1%Z /\ (0 <= id < next)%Z.
Proof.
  intros [(m & Hi & _) _ Hp _ _] Hid. specialize (Hp id). rewrite decide_True in Hp by done.
  unfold pins in Hp. destruct (frame_of p id) as [f|] eqn:E; [|done]. exists f. split; [done|].
  split; [done|]. apply (frame_of_Some _ _ _ _ _ _ _ id f Hi) in E as (i & _ & Hh & Hf & <-).
  apply (fo_id _ _ _ _ (pi_frame _ _ _ _ _ _ _ Hi i f Hh Hf)).
Qed.

(** The pool has a frame to give while fewer pages are pinned than it has frames. *)
Lemma pool_nodes_frame (n cap : nat) X U p fs N (next : PageId) :
  pool_nodes n cap X U p fs N next -> size X < cap -> length (frames p) = cap -> ~ all_pinned p.
Proof.
  intros [(m & Hi & _) _ Hp _ _] Hs Hl Ha.
  assert (NoDup (fr_page_id <$> frames p)) as Hnd.
  { apply NoDup_alt. intros i j id Hid Hjd.
    apply list_lookup_fmap_Some in Hid as (f & -> & Hf), Hjd as (g & Hfg & Hg).
    destruct (frame_of_index _ _ _ _ _ _ _ i f Hi) as [_ T1]; [done|done|].
    destruct (frame_of_index _ _ _ _ _ _ _ j g Hi) as [_ T2]; [done|done|].
    rewrite <-Hfg, T1 in T2. by injection T2. }
  assert (length (fr_page_id <$> frames p) <= size X); [|rewrite length_fmap in *; lia].
  rewrite <-(size_list_to_set (C := gset PageId) _ Hnd). apply subseteq_size. intros id Hid.
  apply elem_of_list_to_set, list_elem_of_fmap in Hid as (f & -> & Hf).
  apply list_elem_of_lookup in Hf as [i Hf].
  destruct (frame_of_index _ _ _ _ _ _ _ i f Hi) as [Hfo _]; [done|done|].
  specialize (Hp (fr_page_id f)). unfold pins in Hp. rewrite Hfo in Hp.
  specialize (Ha i f Hf). case_decide; [done|lia].
Qed.

Section rules.
Context {Q : unit -> BufferPool St -> fsys -> Prop}.
Context {Xp : BTreeError Er -> BufferPool St -> fsys -> Prop} {C : fsys -> Prop}.

Lemma nodes_fetch (n cap : nat) X U p fs N (next id : PageId) (nd : Node) :
  pool_nodes (Datatypes.S n) cap X U p fs N next -> N !! id = Some nd -> id ∉ X -> size X < cap ->
  (forall p' fs', pool_nodes n cap ({[id]} ∪ X) U p' fs' N next -> Q tt p' fs') ->
  wpc no_faults (buf (fetch id)) p fs Q Xp C.
Proof.
  intros Hn Hnd Hid Hs HQ. pose proof Hn as [(m & Hi & Hm) Hc Hp HU Hids].
  assert (pins p id = 0%Z) as Hp0 by (rewrite Hp; by rewrite decide_False).
  unfold buf. wpc_step.
  eapply wpc_mono; [apply (wpc_fetch n U p fs m next id Hi); [by apply Hids|lia|left; set_solver]| | |done].
  - intros [] p' fs' (m' & f & Hi' & Hf & Hpg & Hpin & Hc' & Ho). apply HQ. split.
    + exists m'. split; [done|]. intros id' nd' Hnd'. destruct (decide (id' = id)) as [->|Hne].
      * simplify_eq. unfold content at 1. rewrite Hf. eapply node_rep_equiv; [by symmetry|by apply Hm].
      * eapply node_rep_equiv; [symmetry; by apply Ho|by apply Hm].
    + by rewrite Hc'.
    + intros id'. destruct (decide (id' = id)) as [->|Hne].
      * unfold pins. rewrite Hf, Hpin, Hp0, decide_True by set_solver. done.
      * destruct (Ho id' Hne) as (_ & _ & ->). rewrite Hp. by repeat case_decide; set_solver.
    + set_solver.
    + done.
  - intros e p' fs' (_ & Hl & Ha & _). exfalso. rewrite Hc in Hl.
    exact (pool_nodes_frame _ _ _ _ _ _ _ _ Hn Hs Hl Ha).
Qed.

Lemma nodes_set_page (n cap : nat) X U p fs N (next id : PageId) (page : Page) (nd : Node) :
  pool_nodes n cap X U p fs N next -> id ∈ X -> node_rep page nd ->
  (forall p', pool_nodes n cap X ({[id]} ∪ U) p' fs (<[id := nd]> N) next -> Q tt p' fs) ->
  wpc no_faults (buf (set_page id page)) p fs Q Xp C.
Proof.
  intros Hn Hid Hrep HQ. destruct (pool_nodes_pinned _ _ _ _ _ _ _ _ _ Hn Hid) as (f & Hf & Hpf & Hrange).
  destruct Hn as [(m & Hi & Hm) Hc Hp HU Hids]. unfold buf. wpc_step.
  eapply wpc_mono; [apply (wpc_set_page n U p fs m next id f page Hi Hf); [lia|apply (wf_page_rep _ _ (nr_page _ _ Hrep))]| |done|done].
  intros [] p' fs' (-> & Hi' & Hf' & Hc' & Ho). apply HQ. split.
  - exists m. split; [done|]. intros id' nd' [[<- <-]|[Hne Hnd']]%lookup_insert_Some.
    + unfold content. by rewrite Hf'.
    + eapply node_rep_equiv; [symmetry; by apply Ho|by apply Hm].
  - by rewrite Hc'.
  - intros id'. destruct (decide (id' = id)) as [->|Hne].
    + unfold pins. rewrite Hf'. by rewrite decide_True.
    + destruct (Ho id' Hne) as (_ & _ & ->). apply Hp.
  - set_solver.
  - intros id' [nd' [[<- <-]|[Hne Hnd']]%lookup_insert_Some]; [done|]. apply Hids. by eexists.
Qed.

Lemma nodes_unpin (n cap : nat) X U p fs N (next id : PageId) (dirtied : bool) :
  pool_nodes n cap X U p fs N next -> id ∈ X -> (id ∈ U -> dirtied = true) ->
  (forall p', pool_nodes n cap (X ∖ {[id]}) (U ∖ {[id]}) p' fs N next -> Q tt p' fs) ->
  wpc no_faults (buf (unpin id dirtied)) p fs Q Xp C.
Proof.
  intros Hn Hid Hd HQ. destruct (pool_nodes_pinned _ _ _ _ _ _ _ _ _ Hn Hid) as (f & Hf & Hpf & _).
  destruct Hn as [(m & Hi & Hm) Hc Hp HU Hids]. unfold buf. wpc_step.
  eapply wpc_mono; [apply (wpc_unpin n U p fs m next id f dirtied Hi Hf); [lia|done]| |done|done].
  intros [] p' fs' (-> & Hi' & Hpin & Hco & Hc' & Ho). apply HQ. split.
  - exists m. split; [done|]. intros id' nd' Hnd'. rewrite Hco. by apply Hm.
  - by rewrite Hc'.
  - intros id'. destruct (decide (id' = id)) as [->|Hne].
    + rewrite Hpin, Hpf, decide_False by set_solver. done.
    + destruct (Ho id' Hne) as (_ & _ & ->). rewrite Hp. by repeat case_decide; set_solver.
  - set_solver.
  - done.
Qed.
End rules.

Lemma nodes_the_page (n cap : nat) X U p fs N (next id : PageId) (nd : Node)
    (Q : Page -> BufferPool St -> fsys -> Prop) (Xp : BTreeError Er -> BufferPool St -> fsys -> Prop)
    (C : fsys -> Prop) :
  pool_nodes n cap X U p fs N next -> id ∈ X -> N !! id = Some nd ->
  (forall page, node_rep page nd -> Q page p fs) ->
  wpc no_faults (the_page id) p fs Q Xp C.
Proof.
  intros Hn Hid Hnd HQ. destruct (pool_nodes_pinned _ _ _ _ _ _ _ _ _ Hn Hid) as (f & Hf & _).
  destruct Hn as [(m & Hi & Hm) Hc Hp HU Hids]. pose proof (Hm id nd Hnd) as Hrep.
  unfold content in Hrep. rewrite Hf in Hrep.
  apply (frame_of_Some _ _ _ _ _ _ _ id f Hi) in Hf as (i & Ht & _ & Hf & _).
  unfold the_page, buf, pool_page. wpc_step. wpc_step. wpc_step. wpc_step. rewrite Ht.
  wpc_step. apply (wpc_get_frame _ f); [done|]. wpc_step. cbn [unwrap]. wpc_step. by apply HQ.
Qed.

Lemma nodes_new_page (n cap : nat) X U p fs N (next : PageId) (t : PageType)
    (Q : PageId -> BufferPool St -> fsys -> Prop) (Xp : BTreeError Er -> BufferPool St -> fsys -> Prop)
    (C : fsys -> Prop) :
  pool_nodes (Datatypes.S (Datatypes.S n)) cap X U p fs N next -> size X < cap ->
  (forall p' fs', pool_nodes n cap ({[next]} ∪ X) U p' fs' N (next + 1) ->
     N !! next = None -> next ∉ X -> in_u64 next -> Q next p' fs') ->
  wpc no_faults (buf (new_page t)) p fs Q Xp C.
Proof.
  intros Hn Hs HQ. pose proof (pool_nodes_range _ _ _ _ _ _ _ _ Hn) as [Hpos Hrange].
  pose proof Hn as [(m & Hi & Hm) Hc Hp HU Hids].
  assert (N !! next = None) as Hnone.
  { destruct (N !! next) eqn:E; [|done]. pose proof (Hids next (ex_intro _ _ E)). lia. }
  assert (forall id, id ∈ X -> (id < next)%Z) as Hlt.
  { intros id Hid. destruct (pool_nodes_pinned _ _ _ _ _ _ _ _ _ Hn Hid) as (_ & _ & _ & ?). lia. }
  assert (next ∉ X) as Hnx by (intros Hin; apply Hlt in Hin; lia).
  unfold buf. wpc_step.
  eapply wpc_mono; [apply (wpc_new_page n U p fs m next t Hi); intros id Hid; apply Hlt; set_solver| | |done].
  - intros id p' fs' (-> & m' & f & Hi' & Hf & Hpg & Hpin & Hc' & Ho).
    apply HQ; [|done|done|width_lia]. split.
    + exists m'. split; [done|]. intros id' nd' Hnd'. destruct (decide (id' = next)) as [->|Hne]; [congruence|].
      eapply node_rep_equiv; [symmetry; by apply Ho|by apply Hm].
    + by rewrite Hc'.
    + intros id'. destruct (decide (id' = next)) as [->|Hne].
      * unfold pins. rewrite Hf, Hpin, decide_True by set_solver. by rewrite Hp, decide_False.
      * destruct (Ho id' Hne) as (_ & _ & ->). rewrite Hp. by repeat case_decide; set_solver.
    + set_solver.
    + intros id' Hid'. apply Hids in Hid'. lia.
  - intros e p' fs' (_ & Hl & Ha & _). exfalso. rewrite Hc in Hl.
    exact (pool_nodes_frame _ _ _ _ _ _ _ _ Hn Hs Hl Ha).
Qed.
End pool_nodes.
