(* ===== verification/BTreeSpec.v ===== *)
(** * BTreeSpec: B+trees as ordered trees of nodes

    The abstract tree behind the pages: leaves with their entries, branches with keyed children,
    all leaves at the same depth by construction. [good] says that keys are ordered and lie in the
    ranges their separators promise; [in_mem] that a memory of nodes holds the tree. Routing a key
    and finding the place of a separator or an entry are characterised on this tree. *)
From S2P Require Export KeyOrder PoolNodes.

(** ** Trees of height [h] *)

Record leaf := mkLf { lf_id : PageId; lf_entries : list Entry; lf_next : PageId }.

(** The first child has no key, as in the source. *)
Record branch (T : Type) := mkBr { br_id : PageId; br_kids : list (option bytes * T) }.
Arguments mkBr {T} br_id br_kids.
Arguments br_id {T} b.
Arguments br_kids {T} b.

Fixpoint tree (h : nat) : Type :=
  match h with O => leaf | S h' => branch (tree h') end.

Definition root_of (h : nat) : tree h -> PageId :=
  match h with O => lf_id | S _ => br_id end.

Fixpoint tree_leaves (h : nat) : tree h -> list leaf :=
  match h with
  | O => fun t => [t]
  | S h' => fun t => concat ((fun c => tree_leaves h' c.2) <$> br_kids t)
  end.

(** The pages of a tree. *)
Fixpoint tree_ids (h : nat) : tree h -> list PageId :=
  match h with
  | O => fun t => [lf_id t]
  | S h' => fun t => br_id t :: concat ((fun c => tree_ids h' c.2) <$> br_kids t)
  end.

Definition tree_entries (h : nat) (t : tree h) : list Entry := concat (lf_entries <$> tree_leaves h t).

Definition kid_entry {h : nat} (c : option bytes * tree h) : InternalEntry :=
  mkInternal c.1 (root_of h c.2).

Definition leaf_node (l : leaf) : Node := NLeaf (lf_entries l) (lf_next l).

(** The memory [N] holds the tree. *)
Fixpoint in_mem (N : gmap PageId Node) (h : nat) : tree h -> Prop :=
  match h with
  | O => fun t => N !! lf_id t = Some (leaf_node t)
  | S h' => fun t => N !! br_id t = Some (NInternal (kid_entry <$> br_kids t)) /\
      Forall (fun c => in_mem N h' c.2) (br_kids t)
  end.

(** ** Order *)

(** The upper bound of what precedes the children [m]. *)
Definition next_bound {T} (hi : bound) (m : list (option bytes * T)) : bound :=
  match m with [] => hi | (b, _) :: _ => b end.

Definition keyed {T} (m : list (option bytes * T)) : Prop :=
  match m with (None, _) :: _ => False | _ => True end.

(** The lower bound of a child: its key, or that of the node for the first one. *)
Definition low (lo b : bound) : bound := match b with Some k => Some k | None => lo end.

Section ordered_kids.
Context {T : Type} (P : bound -> bound -> T -> Prop) (lim : nat).

(** The children are in their ranges, and their keys, of at most [lim] bytes, are in order. *)
Fixpoint ordered_kids (lo hi : bound) (m : list (option bytes * T)) : Prop :=
  match m with
  | [] => True
  | (b, c) :: m' =>
      P (low lo b) (next_bound hi m') c /\ proper_range (low lo b) (next_bound hi m') /\ keyed m' /\
      length (default [] b) <= lim /\ ordered_kids lo hi m'
  end.

Lemma ordered_kids_app (lo hi : bound) (m1 m2 : list (option bytes * T)) :
  ordered_kids lo hi (m1 ++ m2) <->
  ordered_kids lo (next_bound hi m2) m1 /\ ordered_kids lo hi m2 /\ (m1 <> [] -> keyed m2).
Proof.
  induction m1 as [|[b c] m1 IH]; simpl; [tauto|].
  assert (next_bound hi (m1 ++ m2) = next_bound (next_bound hi m2) m1) as -> by by destruct m1 as [|[]].
  assert (keyed (m1 ++ m2) <-> keyed m1 /\ (m1 = [] -> keyed m2)) as ->.
  { destruct m1 as [|[]]; simpl; [tauto|]. split; [by split|by intros []]. }
  rewrite IH. destruct m1 as [|x m1]; split; intros; split_and?; try tauto; try naive_solver.
Qed.
End ordered_kids.

(** The tree is ordered within the range, and its entries have at most [lim] bytes of key and
    value. *)
Fixpoint good (lim h : nat) (lo hi : bound) : tree h -> Prop :=
  match h with
  | O => fun t => StronglySorted key_lt (lf_entries t) /\
      Forall (fun e => in_range lo hi e.1) (lf_entries t) /\
      Forall (fun e => length e.1 + length e.2 <= lim) (lf_entries t)
  | S h' => fun t => (exists c m, br_kids t = (None, c) :: m) /\
      ordered_kids (good lim h') lim lo hi (br_kids t)
  end.

Lemma ordered_kids_mono {T} (P P' : bound -> bound -> T -> Prop) (lim : nat) (lo hi lo' hi' : bound)
    (m : list (option bytes * T)) :
  (forall a b a' b' c, wider a b a' b' -> P a b c -> P' a' b' c) ->
  wider lo hi lo' hi' -> ordered_kids P lim lo hi m -> ordered_kids P' lim lo' hi' m.
Proof.
  intros HP Hw. induction m as [|[b c] m IH]; simpl; [done|]. intros (H1 & H2 & H3 & H4 & H5).
  assert (wider (low lo b) (next_bound hi m) (low lo' b) (next_bound hi' m)) as Hw'.
  { destruct Hw as [Hwl Hwh]. split.
    - destruct b as [k|]; simpl; [by apply kle_iff; right|done].
    - destruct m as [|[[k|] c'] m]; simpl; [done| |done]. by apply kle_iff; right. }
  split; [by eapply HP|]. split; [by eapply wider_proper|by auto].
Qed.

Lemma good_wider (lim h : nat) (lo hi lo' hi' : bound) (t : tree h) :
  wider lo hi lo' hi' -> good lim h lo hi t -> good lim h lo' hi' t.
Proof.
  revert lo hi lo' hi' t. induction h as [|h IH]; intros lo hi lo' hi' t Hw; simpl.
  - intros (H1 & H2 & H3). split; [done|]. split; [|done].
    eapply Forall_impl; [exact H2|]. intros e. by apply wider_in_range.
  - intros [H1 H2]. split; [done|]. eapply ordered_kids_mono; [|exact Hw|exact H2].
    intros a b a' b' c. apply IH.
Qed.

(** ** Entries in order *)

Definition kids_leaves {h : nat} (m : list (option bytes * tree h)) : list leaf :=
  concat ((fun c => tree_leaves h c.2) <$> m).

Definition kids_ids {h : nat} (m : list (option bytes * tree h)) : list PageId :=
  concat ((fun c => tree_ids h c.2) <$> m).

Definition kids_entries {h : nat} (m : list (option bytes * tree h)) : list Entry :=
  concat (lf_entries <$> kids_leaves m).

Lemma kids_leaves_app {h : nat} (m1 m2 : list (option bytes * tree h)) :
  kids_leaves (m1 ++ m2) = kids_leaves m1 ++ kids_leaves m2.
Proof. unfold kids_leaves. by rewrite fmap_app, concat_app. Qed.

Lemma kids_leaves_cons {h : nat} (c : option bytes * tree h) (m : list (option bytes * tree h)) :
  kids_leaves (c :: m) = tree_leaves h c.2 ++ kids_leaves m.
Proof. done. Qed.

Lemma kids_ids_app {h : nat} (m1 m2 : list (option bytes * tree h)) :
  kids_ids (m1 ++ m2) = kids_ids m1 ++ kids_ids m2.
Proof. unfold kids_ids. by rewrite fmap_app, concat_app. Qed.

Lemma kids_ids_cons {h : nat} (c : option bytes * tree h) (m : list (option bytes * tree h)) :
  kids_ids (c :: m) = tree_ids h c.2 ++ kids_ids m.
Proof. done. Qed.

Lemma kids_entries_app {h : nat} (m1 m2 : list (option bytes * tree h)) :
  kids_entries (m1 ++ m2) = kids_entries m1 ++ kids_entries m2.
Proof. unfold kids_entries. by rewrite kids_leaves_app, fmap_app, concat_app. Qed.

Lemma kids_entries_cons {h : nat} (c : option bytes * tree h) (m : list (option bytes * tree h)) :
  kids_entries (c :: m) = tree_entries h c.2 ++ kids_entries m.
Proof. unfold kids_entries. by rewrite kids_leaves_cons, fmap_app, concat_app. Qed.

Lemma tree_entries_S (h : nat) (t : tree (Datatypes.S h)) :
  tree_entries (Datatypes.S h) t = kids_entries (br_kids t).
Proof. done. Qed.

(** The span of ordered children. *)
Lemma ordered_kids_span {T} (P : bound -> bound -> T -> Prop) (lim : nat) (lo hi b : bound) (c : T)
    (m : list (option bytes * T)) :
  ordered_kids P lim lo hi ((b, c) :: m) -> proper_range (low lo b) hi.
Proof.
  revert b c. induction m as [|[b' c'] m IH]; intros b c; simpl.
  - tauto.
  - intros (_ & Hp & Hk & _ & Hm). specialize (IH b' c' Hm). destruct b' as [k|]; [|done]. simpl in *.
    destruct (low lo b), hi; simpl in *; try done. key_order.
Qed.

Lemma low_span {T} (P : bound -> bound -> T -> Prop) (lim : nat) (lo hi b : bound) (c : T)
    (m : list (option bytes * T)) (k : bytes) :
  ordered_kids P lim lo hi ((b, c) :: m) -> in_range (low lo b) (next_bound hi m) k ->
  in_range (low lo b) hi k.
Proof.
  intros Ho [Ha Hb]. split; [done|]. destruct m as [|[[k'|] c'] m]; simpl in *; [done| |tauto].
  destruct Ho as (_ & _ & _ & _ & Hm). apply (ordered_kids_span _ lim lo hi (Some k') c' m) in Hm.
  destruct hi; simpl in *; [|done]. key_order.
Qed.

(** The entries of ordered children are ordered and in the range. *)
Lemma ordered_kids_entries (lim h : nat) (lo hi b : bound) (c : tree h) (m : list (option bytes * tree h)) :
  (forall lo hi t, good lim h lo hi t ->
     StronglySorted key_lt (tree_entries h t) /\ Forall (fun e => in_range lo hi e.1) (tree_entries h t)) ->
  ordered_kids (good lim h) lim lo hi ((b, c) :: m) ->
  StronglySorted key_lt (kids_entries ((b, c) :: m)) /\
  Forall (fun e => in_range (low lo b) hi e.1) (kids_entries ((b, c) :: m)).
Proof.
  intros HP. revert b c. induction m as [|[b' c'] m IH]; intros b c Ho; rewrite kids_entries_cons; cbn [snd].
  - rewrite app_nil_r. apply HP, Ho.
  - pose proof Ho as (Hg & _ & Hk & _ & Hm). apply IH in Hm as [Hs Hf]. apply HP in Hg as [Hs1 Hf1].
    destruct b' as [k|]; [|done]. cbn [low next_bound] in *. rewrite Forall_forall in Hf, Hf1.
    split.
    + apply sorted_app. split; [done|]. split; [done|]. intros e1 e2 He1 He2.
      destruct (Hf1 e1 He1) as [_ H1], (Hf e2 He2) as [H2 _]. simpl in *. key_order.
    + apply Forall_app. split; apply Forall_forall; intros e He.
      * by apply (low_span _ _ _ _ _ _ _ _ Ho), Hf1.
      * destruct (Hf e He) as [H1 H2]. split; [|done]. destruct Ho as (_ & Hp & _). simpl in *.
        destruct (low lo b); simpl in *; [|done]. key_order.
Qed.

Lemma good_entries (lim h : nat) (lo hi : bound) (t : tree h) :
  good lim h lo hi t ->
  StronglySorted key_lt (tree_entries h t) /\ Forall (fun e => in_range lo hi e.1) (tree_entries h t).
Proof.
  revert lo hi t. induction h as [|h IH]; intros lo hi t.
  - intros (H1 & H2 & _). unfold tree_entries. simpl. by rewrite app_nil_r.
  - intros [(c & m & Hk) Ho]. rewrite tree_entries_S, Hk in *.
    by apply (ordered_kids_entries lim h lo hi None c m IH Ho).
Qed.

(** A child among its siblings. *)
Lemma kid_siblings (lim h : nat) (lo hi b : bound) (c : tree h) (l r : list (option bytes * tree h)) (k : bytes) :
  ordered_kids (good lim h) lim lo hi (l ++ (b, c) :: r) ->
  (exists c0 m, l ++ (b, c) :: r = (None, c0) :: m) ->
  in_range (low lo b) (next_bound hi r) k ->
  good lim h (low lo b) (next_bound hi r) c /\ (b = None <-> l = []) /\
  keys_below (kids_entries l) k /\ keys_above k (kids_entries r).
Proof.
  intros Ho (c0 & m & Hhead) [Ha Hb]. apply ordered_kids_app in Ho as (Hl & Hr & Hne).
  pose proof Hr as (Hg & _ & Hk & _ & Hm). split; [done|]. split; [|split].
  - destruct l as [|x l]; simpl in Hhead; [by injection Hhead as -> _ _|].
    destruct b; [done|]. by specialize (Hne ltac:(done)).
  - destruct l as [|[b1 c1] l]; [constructor|]. destruct b as [k'|]; [|by specialize (Hne ltac:(done))].
    cbn [next_bound low] in *. apply (ordered_kids_entries lim h lo (Some k') b1 c1 l) in Hl as [_ Hf]; [|apply good_entries].
    eapply Forall_impl; [exact Hf|]. intros e [_ He]. simpl in *. key_order.
  - destruct r as [|[[k'|] c1] r]; [constructor| |done].
    apply (ordered_kids_entries lim h lo hi (Some k') c1 r) in Hm as [_ Hf]; [|apply good_entries].
    eapply Forall_impl; [exact Hf|]. intros e [He _]. simpl in *. key_order.
Qed.

(** ** Routing *)

Lemma route_loop_split {h : nat} (P : bound -> bound -> tree h -> Prop) (lim : nat) (lo hi b : bound)
    (c : tree h) (m : list (option bytes * tree h)) (key : bytes) (i : nat) :
  ordered_kids P lim lo hi ((b, c) :: m) -> in_range (low lo b) hi key ->
  exists l b' c' r, (b, c) :: m = l ++ (b', c') :: r /\
    route_loop (Datatypes.S i) i (kid_entry <$> m) key = i + length l /\
    in_range (low lo b') (next_bound hi r) key.
Proof.
  revert b c i. induction m as [|[b1 c1] m IH]; intros b c i Ho Hr.
  - exists [], b, c, []. split; [done|]. split; [simpl; lia|done].
  - pose proof Ho as (_ & Hp & Hk & _ & Hm). destruct b1 as [k1|]; [|done]. simpl.
    destruct (bytes_leb k1 key) eqn:E.
    + destruct (IH (Some k1) c1 (Datatypes.S i) Hm) as (l & b' & c' & r & Hl & Hi & Hr').
      { split; [exact E|apply Hr]. }
      exists ((b, c) :: l), b', c', r. split; [by rewrite Hl|]. split; [etrans; [exact Hi|simpl; lia]|done].
    + exists [], b, c, ((Some k1, c1) :: m). split; [done|]. split; [simpl; lia|].
      split; [apply Hr|]. by apply kle_false.
Qed.

(** [route_index] finds the child whose range has the key. *)
Lemma route_split {h : nat} (P : bound -> bound -> tree h -> Prop) (lim : nat) (lo hi : bound)
    (kids : list (option bytes * tree h)) (key : bytes) :
  (exists c m, kids = (None, c) :: m) -> ordered_kids P lim lo hi kids -> in_range lo hi key ->
  exists l b c r, kids = l ++ (b, c) :: r /\ route_index (kid_entry <$> kids) key = length l /\
    in_range (low lo b) (next_bound hi r) key.
Proof.
  intros (c & m & ->) Ho Hr. destruct (route_loop_split P lim lo hi None c m key 0 Ho Hr) as (l & b' & c' & r & Hl & Hi & Hr').
  exists l, b', c', r. split; [done|]. split; [|done]. by apply Hi.
Qed.

(** Where a separator goes: behind the child whose range it is in. *)
Lemma separator_split {h : nat} (P : bound -> bound -> tree h -> Prop) (lim i : nat) (lo hi b : bound)
    (c : tree h) (l r : list (option bytes * tree h)) (sep : bytes) :
  ordered_kids P lim lo hi (l ++ (b, c) :: r) -> keyed (l ++ (b, c) :: r) ->
  in_range (low lo b) (next_bound hi r) sep ->
  separator_position i (kid_entry <$> l ++ (b, c) :: r) sep = Some (i + length l + 1).
Proof.
  revert i. induction l as [|[b1 c1] l IH]; intros i Ho Hk [Ha Hb].
  - simpl in *. destruct b as [k|]; [|done]. simpl in *.
    assert (bytes_ltb sep k = false) as -> by by apply klt_false.
    destruct Ho as (_ & _ & Hkr & _). destruct r as [|[[k'|] c'] r]; [simpl; f_equal; lia| |done].
    simpl in *. assert (bytes_ltb sep k' = true) as -> by exact Hb. f_equal. lia.
  - destruct b1 as [k1|]; [|done]. simpl in Ho. destruct Ho as (_ & Hp & Hk' & _ & Ho). simpl in *.
    pose proof Ho as Ho'. rewrite ordered_kids_app in Ho'. destruct Ho' as (Hl & Hbc & Hne).
    assert (kle k1 sep) as Hle.
    { destruct b as [k|]; [|destruct l; [done|by specialize (Hne ltac:(done))]]. simpl in Ha.
      destruct l as [|[[k2|] c2] l]; simpl in *; [key_order| |done].
      pose proof (ordered_kids_span P lim lo (Some k) (Some k2) c2 l Hl) as Hs. simpl in Hs. key_order. }
    assert (bytes_ltb sep k1 = false) as -> by by apply klt_false.
    etrans; [apply (IH (Datatypes.S i)); done|]. f_equal. lia.
Qed.

(** ** Searching a leaf *)

Lemma binary_search_spec (es : list Entry) (key : bytes) :
  StronglySorted key_lt es ->
  match binary_search es key with
  | inl i => exists l v r, es = l ++ (key, v) :: r /\ i = length l /\ keys_below l key /\ keys_above key r
  | inr i => exists l r, es = l ++ r /\ i = length l /\ keys_below l key /\ keys_above key r
  end.
Proof.
  unfold keys_below, keys_above. induction es as [|[k v] es IH]; intros Hs; simpl.
  - by exists [], [].
  - apply StronglySorted_inv in Hs as [Hs Hf]. specialize (IH Hs). case_decide as Hd.
    + subst k. exists [], v, es. split; [done|]. split; [done|]. split; [constructor|exact Hf].
    + destruct (bytes_leb k key) eqn:E.
      * assert (klt k key) as Hlt by (apply kle_iff in E as [?|?]; done).
        destruct (binary_search es key) as [i|i].
        -- destruct IH as (l & w & r & -> & -> & Hl & Hr). exists ((k, v) :: l), w, r.
           split; [done|]. split; [done|]. split; [by constructor|done].
        -- destruct IH as (l & r & -> & -> & Hl & Hr). exists ((k, v) :: l), r.
           split; [done|]. split; [done|]. split; [by constructor|done].
      * exists [], ((k, v) :: es). split; [done|]. split; [done|]. split; [constructor|].
        apply kle_false in E. constructor; [done|]. eapply Forall_impl; [exact Hf|].
        intros e He. unfold key_lt in He. simpl in *. change (klt k e.1) in He. key_order.
Qed.

(** The entry of a key, as [get] looks it up in a leaf. *)
Definition find_entry (key : bytes) (es : list Entry) : option bytes :=
  snd <$> head (filter (fun e => e.1 = key) es).

Lemma find_entry_middle (key : bytes) (a es b : list Entry) :
  keys_below a key -> keys_above key b -> find_entry key (a ++ es ++ b) = find_entry key es.
Proof.
  unfold keys_below, keys_above. rewrite !Forall_forall. intros Ha Hb. unfold find_entry.
  rewrite !filter_app, (filter_none _ a), (filter_none _ b), app_nil_r; [done| |].
  - apply Forall_forall. intros e He Heq. apply Hb in He. rewrite Heq in He. key_order.
  - apply Forall_forall. intros e He Heq. apply Ha in He. rewrite Heq in He. key_order.
Qed.

Lemma find_entry_denotes (key : bytes) (es : list Entry) (kv : gmap bytes bytes) :
  denotes es kv -> find_entry key es = kv !! key.
Proof.
  intros Hd. unfold find_entry. destruct (filter (fun e => e.1 = key) es) as [|[k v] l] eqn:E; simpl.
  - symmetry. apply eq_None_not_Some. intros [v Hv]. apply Hd in Hv.
    assert ((key, v) ∈ filter (fun e => e.1 = key) es) as Hin by by apply list_elem_of_filter.
    rewrite E in Hin. by apply not_elem_of_nil in Hin.
  - assert ((k, v) ∈ filter (fun e => e.1 = key) es) as Hin by (rewrite E; left).
    apply list_elem_of_filter in Hin as [Hk Hin]. simpl in Hk. subst k. symmetry. by apply Hd.
Qed.
