(* ===== verification/BTreeReads.v ===== *)
(** * BTreeReads: lookups and scans of the B+tree

    The representation of a map by the pages of a pool: an ordered tree, and the chain of all the
    leaves ever split off, in key order, of which the leaves that deletion dropped are empty. The
    root, lookups, full scans, range scans along the chain and the depth are correct on it. *)
From S2P Require Export BTreeSpec.

(** ** The chain of leaves *)

Fixpoint linked (after : PageId) (chain : list leaf) : Prop :=
  match chain with
  | [] => True
  | l :: chain' =>
      lf_next l = match chain' with [] => after | l' :: _ => lf_id l' end /\ linked after chain'
  end.

(** The leaves of a tree among the leaves of the chain: the others are empty. *)
Inductive weave : list leaf -> list leaf -> Prop :=
| weave_nil : weave [] []
| weave_live l chain leaves : weave chain leaves -> weave (l :: chain) (l :: leaves)
| weave_dead l chain leaves : lf_entries l = [] -> weave chain leaves -> weave (l :: chain) leaves.

#[export] Hint Constructors weave : vault.

Lemma weave_refl (ls : list leaf) : weave ls ls.
Proof. induction ls; auto with vault. Qed.

Lemma weave_trans (a b c : list leaf) : weave a b -> weave b c -> weave a c.
Proof.
  intros Hab. revert c. induction Hab; intros c Hbc; [done| |by auto with vault].
  inversion Hbc; subst; auto with vault.
Qed.

Lemma weave_app (a b c d : list leaf) : weave a b -> weave c d -> weave (a ++ c) (b ++ d).
Proof. intros Hab Hcd. induction Hab; simpl; auto with vault. Qed.

Lemma weave_split (chain leaves1 leaves2 : list leaf) (l : leaf) :
  weave chain (leaves1 ++ l :: leaves2) ->
  exists c1 c2, chain = c1 ++ l :: c2 /\ weave c1 leaves1 /\ weave c2 leaves2.
Proof.
  revert leaves1. induction chain as [|x chain IH]; intros leaves1 Hw.
  - inversion Hw. by destruct leaves1.
  - inversion Hw as [|x' chain' ls' Hw' E1 E2|x' chain' ls' Hd Hw' E1 E2]; subst.
    + destruct leaves1 as [|y leaves1]; simpl in E2; injection E2 as -> E2.
      * subst. exists [], chain. split; [done|]. split; [constructor|done].
      * subst. destruct (IH leaves1 Hw') as (c1 & c2 & -> & H1 & H2).
        exists (y :: c1), c2. split; [done|]. split; [by constructor|done].
    + destruct (IH leaves1 Hw') as (c1 & c2 & -> & H1 & H2).
      exists (x :: c1), c2. split; [done|]. split; [by constructor|done].
Qed.

Lemma weave_entries (chain leaves : list leaf) :
  weave chain leaves -> concat (lf_entries <$> chain) = concat (lf_entries <$> leaves).
Proof.
  induction 1 as [|l c ls _ IH|l c ls Hd _ IH];
    rewrite ?fmap_cons; cbn [concat]; [done|by rewrite IH|by rewrite Hd, IH].
Qed.

Lemma weave_elem (chain leaves : list leaf) (l : leaf) : weave chain leaves -> l ∈ leaves -> l ∈ chain.
Proof.
  induction 1 as [|x c ls _ IH|x c ls Hd _ IH]; [done| |intros; right; auto].
  intros [->|Hin]%elem_of_cons; [left|right; auto].
Qed.

Lemma linked_app (after : PageId) (c1 c2 : list leaf) (l : leaf) :
  linked after (c1 ++ l :: c2) <-> linked (lf_id l) c1 /\ linked after (l :: c2).
Proof.
  induction c1 as [|x c1 IH]; [simpl; tauto|]. cbn [app linked] in *. rewrite IH.
  destruct c1; simpl; tauto.
Qed.

(** ** Trees in memory *)

Lemma in_mem_root (N : gmap PageId Node) (h : nat) (t : tree h) :
  in_mem N h t -> is_Some (N !! root_of h t).
Proof. destruct h; simpl; [intros ->; by eexists|intros [-> _]; by eexists]. Qed.

Lemma in_mem_ids (N : gmap PageId Node) (h : nat) (t : tree h) (id : PageId) :
  in_mem N h t -> id ∈ tree_ids h t -> is_Some (N !! id).
Proof.
  induction h as [|h IH]; simpl.
  - intros Ht ->%list_elem_of_singleton. rewrite Ht. by eexists.
  - intros [Ht Hk] [->|Hin]%elem_of_cons; [rewrite Ht; by eexists|].
    apply list_elem_of_In, in_concat in Hin as (ids & Hids & Hin).
    apply list_elem_of_In, list_elem_of_fmap in Hids as (c & -> & Hc).
    rewrite Forall_forall in Hk. by apply (IH c.2 (Hk c Hc)), list_elem_of_In.
Qed.

(** The tree depends on its own pages only. *)
Lemma in_mem_frame (N N' : gmap PageId Node) (h : nat) (t : tree h) :
  (forall id, id ∈ tree_ids h t -> N' !! id = N !! id) -> in_mem N h t -> in_mem N' h t.
Proof.
  induction h as [|h IH]; simpl.
  - intros Hf <-. apply Hf. by left.
  - intros Hf [Ht Hk]. split; [rewrite <-Ht; apply Hf; by left|].
    rewrite Forall_forall in *. intros c Hc. apply IH; [|by apply Hk].
    intros id Hid. apply Hf. right. apply list_elem_of_In, in_concat.
    exists (tree_ids h c.2). split; [|by apply list_elem_of_In].
    apply list_elem_of_In, list_elem_of_fmap. by exists c.
Qed.

Lemma in_mem_leaves (N : gmap PageId Node) (h : nat) (t : tree h) :
  in_mem N h t -> Forall (fun l => N !! lf_id l = Some (leaf_node l)) (tree_leaves h t).
Proof.
  induction h as [|h IH]; simpl.
  - intros Ht. by constructor.
  - intros [_ Hk]. apply Forall_concat, Forall_fmap. eapply Forall_impl; [exact Hk|].
    intros c Hc. by apply IH.
Qed.

(** A tree that is ordered has a page on every level. *)
Lemma tree_ids_height (lim h : nat) (lo hi : bound) (t : tree h) :
  good lim h lo hi t -> h < length (tree_ids h t).
Proof.
  revert lo hi t. induction h as [|h IH]; intros lo hi t; simpl; [lia|].
  intros [(c & m & Hk) Ho]. rewrite Hk in *. simpl in *. destruct Ho as (Hc & _).
  apply IH in Hc. rewrite length_app. lia.
Qed.

(** [t] represents what is in memory, with [chain] its chain of leaves. *)
Record tree_holds (lim h : nat) (t : tree h) (chain : list leaf) (N : gmap PageId Node) : Prop := {
  th_meta : N !! META_PAGE_ID = Some (NMeta (root_of h t));
  th_mem : in_mem N h t;
  th_good : good lim h None None t;
  th_ids : NoDup (tree_ids h t);
  th_chain : Forall (fun l => N !! lf_id l = Some (leaf_node l)) chain;
  th_links : linked NO_SIBLING chain;
  th_chain_ids : NoDup (lf_id <$> chain);
  th_weave : weave chain (tree_leaves h t);
}.

(** Page ids of allocated pages, without repetition, are at most as many as were allocated. *)
Lemma allocated_length (ids : list PageId) (next : PageId) :
  NoDup ids -> (forall id, id ∈ ids -> (0 <= id < next)%Z) -> length ids <= Z.to_nat next.
Proof.
  intros Hnd Hin.
  assert ((Z.to_nat <$> ids) ⊆+ List.seq 0 (Z.to_nat next)) as Hsub.
  2: { apply submseteq_length in Hsub. by rewrite length_fmap, length_seq in Hsub. }
  apply NoDup_submseteq.
  - apply NoDup_fmap_2_strong; [|done]. intros a b Ha%Hin Hb%Hin. lia.
  - intros x (id & -> & Hid%Hin)%list_elem_of_fmap. apply elem_of_seq. lia.
Qed.

(** ** The steps of the read operations *)

Section reads.
Context `{PageStoreLaws St Er}.

Implicit Types (p : BufferPool St) (fs : fsys) (N : gmap PageId Node).

Abbreviation T := (M (BufferPool St) (BTreeError Er)).

(** What an operation starts from and ends with: no page is pinned. *)
Abbreviation idle n cap p fs N next := (pool_nodes n cap ∅ ∅ p fs N next).

Lemma wpc_lift_ok {E1 A : Type} (f : E1 -> BTreeError Er) (a : A) p fs (Q : A -> BufferPool St -> fsys -> Prop)
    (X : BTreeError Er -> BufferPool St -> fsys -> Prop) (C : fsys -> Prop) :
  Q a p fs -> wpc no_faults (lift_res f (Ok a) : T A) p fs Q X C.
Proof. apply wpc_ret. Qed.

Lemma wpc_unwrap {A : Type} (a : A) p fs (Q : A -> BufferPool St -> fsys -> Prop)
    (X : BTreeError Er -> BufferPool St -> fsys -> Prop) (C : fsys -> Prop) :
  Q a p fs -> wpc no_faults (unwrap (Some a) : T A) p fs Q X C.
Proof. apply wpc_ret. Qed.

(** Releasing the only page that is pinned. *)
Lemma nodes_release (n cap : nat) (U : gset PageId) p fs N (next id : PageId) (dirtied : bool)
    (Q : unit -> BufferPool St -> fsys -> Prop) (X : BTreeError Er -> BufferPool St -> fsys -> Prop)
    (C : fsys -> Prop) :
  pool_nodes n cap ({[id]} ∪ ∅) U p fs N next -> (id ∈ U -> dirtied = true) ->
  (forall p', idle n cap p' fs N next -> Q tt p' fs) ->
  wpc no_faults (buf (unpin id dirtied)) p fs Q X C.
Proof.
  intros Hn Hd HQ. pose proof (pn_dirty _ _ _ _ _ _ _ _ Hn) as HU.
  eapply nodes_unpin; [exact Hn|set_solver|done|]. intros p' Hn'. apply HQ.
  replace (({[id]} ∪ ∅) ∖ {[id]} : gset PageId) with (∅ : gset PageId) in Hn' by set_solver.
  by replace (U ∖ {[id]}) with (∅ : gset PageId) in Hn' by set_solver.
Qed.

(** Fetching a page and looking at it. *)
Lemma nodes_open {A : Type} (n cap : nat) p fs N (next id : PageId) (nd : Node) (f : Page -> T A)
    (Q : A -> BufferPool St -> fsys -> Prop) (X : BTreeError Er -> BufferPool St -> fsys -> Prop)
    (C : fsys -> Prop) :
  idle (Datatypes.S n) cap p fs N next -> N !! id = Some nd -> 0 < cap ->
  (forall page p' fs', node_rep page nd -> pool_nodes n cap ({[id]} ∪ ∅) ∅ p' fs' N next ->
     wpc no_faults (f page) p' fs' Q X C) ->
  wpc no_faults (buf (fetch id);; page ← the_page id; f page) p fs Q X C.
Proof.
  intros Hn Hnd Hc Hf. wpc_step. eapply nodes_fetch; [exact Hn|exact Hnd|set_solver|by rewrite size_empty|].
  intros p' fs' Hn'. wpc_step. eapply nodes_the_page; [exact Hn'|set_solver|exact Hnd|].
  intros page Hp. by apply Hf.
Qed.

Lemma wpc_root_id (n cap : nat) p fs N (next root : PageId)
    (Q : PageId -> BufferPool St -> fsys -> Prop) (X : BTreeError Er -> BufferPool St -> fsys -> Prop)
    (C : fsys -> Prop) :
  idle (Datatypes.S n) cap p fs N next -> N !! META_PAGE_ID = Some (NMeta root) -> 0 < cap ->
  (forall p' fs', idle n cap p' fs' N next -> Q root p' fs') ->
  wpc no_faults (root_id : T PageId) p fs Q X C.
Proof.
  intros Hn Hm Hc HQ. unfold root_id. eapply nodes_open; [exact Hn|exact Hm|done|].
  intros page p1 fs1 Hrep Hn1. rewrite (read_meta_rep _ _ Hrep). unfold lift_page. wpc_step.
  apply wpc_lift_ok. wpc_step. rewrite length_le_bytes, Nat.eqb_refl. wpc_step. wpc_step.
  eapply nodes_release; [exact Hn1|set_solver|]. intros p2 Hn2. wpc_step.
  pose proof (Forall_inv (nr_links _ _ Hrep)) as Hr. rewrite le_val_bytes_small; [by apply HQ|]. width_lia.
Qed.

(** The page of a branch, and of a leaf. *)
Lemma branch_page (N : gmap PageId Node) (page : Page) (es : list InternalEntry) :
  node_rep page (NInternal es) -> page_type page = BTreeInternal /\ read_internal_entries page = Some es.
Proof. intros Hr. split; [apply (nr_type _ _ Hr)|by apply read_internal_rep]. Qed.

Lemma leaf_page (page : Page) (l : leaf) :
  node_rep page (leaf_node l) -> page_type page = BTreeLeaf /\
  read_leaf_entries page = Some (lf_entries l) /\ read_leaf_sibling page = Some (lf_next l).
Proof. intros Hr. split; [apply (nr_type _ _ Hr)|by apply read_leaf_rep]. Qed.

(** The child that a key is routed to. *)
Lemma branch_route (lim h : nat) (lo hi : bound) (t : tree (Datatypes.S h)) (key : bytes) :
  good lim (Datatypes.S h) lo hi t -> in_range lo hi key ->
  exists l b c r, br_kids t = l ++ (b, c) :: r /\
    route_index (kid_entry <$> br_kids t) key = length l /\
    route (kid_entry <$> br_kids t) key = Some (root_of h c) /\
    in_range (low lo b) (next_bound hi r) key /\
    good lim h (low lo b) (next_bound hi r) c /\ (b = None <-> l = []) /\
    keys_below (kids_entries l) key /\ keys_above key (kids_entries r).
Proof.
  intros [Hhead Ho] Hr. destruct (route_split _ lim lo hi (br_kids t) key Hhead Ho Hr) as (l & b & c & r & Hk & Hi & Hr').
  exists l, b, c, r. split; [done|]. split; [done|].
  rewrite Hk in Ho, Hhead. pose proof (kid_siblings lim h lo hi b c l r key Ho Hhead Hr') as Hs.
  split; [|tauto]. unfold route. rewrite Hi, list_lookup_fmap, Hk. by rewrite list_lookup_middle.
Qed.

Lemma wpc_get_recursive (lim n cap : nat) N (next : PageId) (key : bytes) (h : nat) (t : tree h)
    (lo hi : bound) (fuel : nat) p fs (Q : option bytes -> BufferPool St -> fsys -> Prop)
    (X : BTreeError Er -> BufferPool St -> fsys -> Prop) (C : fsys -> Prop) :
  h < fuel -> idle (Datatypes.S h + n) cap p fs N next -> 0 < cap ->
  in_mem N h t -> good lim h lo hi t -> in_range lo hi key ->
  (forall p' fs', idle n cap p' fs' N next -> Q (find_entry key (tree_entries h t)) p' fs') ->
  wpc no_faults (get_recursive fuel (root_of h t) key : T (option bytes)) p fs Q X C.
Proof.
  revert t lo hi fuel p fs. induction h as [|h IH]; intros t lo hi fuel p fs Hfuel Hn Hc Hm Hg Hr HQ;
    (destruct fuel as [|fuel]; [lia|]); cbn [get_recursive root_of].
  - eapply nodes_open; [exact Hn|exact Hm|done|]. intros page p1 fs1 Hrep Hn1.
    destruct (leaf_page page t Hrep) as (-> & He & _). unfold leaf_entries. rewrite He.
    wpc_step. apply wpc_unwrap. cbv zeta. wpc_step. eapply nodes_release; [exact Hn1|set_solver|]. intros p2 Hn2. wpc_step.
    unfold tree_entries in HQ. cbn [tree_leaves fmap list_fmap concat] in HQ. rewrite app_nil_r in HQ.
    by apply HQ.
  - destruct Hm as [Hroot Hkids]. eapply nodes_open; [exact Hn|exact Hroot|done|]. intros page p1 fs1 Hrep Hn1.
    destruct (branch_page N page _ Hrep) as [-> He]. unfold internal_entries. rewrite He.
    destruct (branch_route lim h lo hi t key Hg Hr) as (l & b & c & r & Hk & _ & Hroute & Hr' & Hg' & _ & Hl & Hrr).
    wpc_step. apply wpc_unwrap. wpc_step. rewrite Hroute. apply wpc_unwrap. wpc_step.
    eapply nodes_release; [exact Hn1|set_solver|]. intros p2 Hn2.
    apply (IH c (low lo b) (next_bound hi r)); try done; [lia| |].
    + rewrite Hk, Forall_app, Forall_cons in Hkids. apply Hkids.
    + intros p3 fs3 Hn3. rewrite tree_entries_S, Hk, kids_entries_app, kids_entries_cons in HQ.
      rewrite (find_entry_middle key (kids_entries l) (tree_entries h c)) in HQ by done. by apply HQ.
Qed.

(** ** Scans *)

Lemma wpc_scan_recursive (cap : nat) N (next : PageId) (h : nat) (t : tree h) (fuel n : nat) p fs
    (Q : list Entry -> BufferPool St -> fsys -> Prop)
    (X : BTreeError Er -> BufferPool St -> fsys -> Prop) (C : fsys -> Prop) :
  h < fuel -> idle (length (tree_ids h t) + n) cap p fs N next -> 0 < cap -> in_mem N h t ->
  (forall p' fs', idle n cap p' fs' N next -> Q (tree_entries h t) p' fs') ->
  wpc no_faults (scan_recursive fuel (root_of h t) : T (list Entry)) p fs Q X C.
Proof.
  revert t fuel n p fs Q. induction h as [|h IH]; intros t fuel n p fs Q Hfuel Hn Hc Hm HQ;
    (destruct fuel as [|fuel]; [lia|]); cbn [scan_recursive root_of].
  - eapply nodes_open; [exact Hn|exact Hm|done|]. intros page p1 fs1 Hrep Hn1.
    destruct (leaf_page page t Hrep) as (-> & He & _). unfold leaf_entries. rewrite He.
    wpc_step. apply wpc_unwrap. wpc_step. eapply nodes_release; [exact Hn1|set_solver|]. intros p2 Hn2. wpc_step.
    unfold tree_entries in HQ. cbn [tree_leaves fmap list_fmap concat] in HQ. rewrite app_nil_r in HQ.
    by apply HQ.
  - destruct Hm as [Hroot Hkids]. cbn [tree_ids length] in Hn. fold (kids_ids (br_kids t)) in Hn.
    eapply nodes_open; [exact Hn|exact Hroot|done|].
    intros page p1 fs1 Hrep Hn1. destruct (branch_page N page _ Hrep) as [-> He].
    unfold internal_entries. rewrite He. wpc_step. apply wpc_unwrap. wpc_step.
    eapply nodes_release; [exact Hn1|set_solver|]. intros p2 Hn2. rewrite tree_entries_S in HQ.
    clear Hn Hn1 Hrep Hroot He. revert n p2 fs1 Q Hn2 HQ.
    induction Hkids as [|[b c] m Hcm Hkids IHm]; intros n p2 fs2 Q Hn2 HQ.
    + apply wpc_ret. by apply HQ.
    + cbn [fmap list_fmap kid_entry ie_child snd] in *. rewrite kids_ids_cons, length_app in Hn2.
      wpc_step. apply (IH c fuel (length (kids_ids m) + n)); [lia|by rewrite Nat.add_assoc|done|done|].
      intros p3 fs3 Hn3. wpc_step. eapply (IHm n p3 fs3); [exact Hn3|]. intros p4 fs4 Hn4. wpc_step.
      rewrite kids_entries_cons in HQ. by apply HQ.
Qed.

Lemma wpc_find_leaf (lim n cap : nat) N (next : PageId) (key : bytes) (h : nat) (t : tree h)
    (lo hi : bound) (fuel : nat) p fs (Q : PageId -> BufferPool St -> fsys -> Prop)
    (X : BTreeError Er -> BufferPool St -> fsys -> Prop) (C : fsys -> Prop) :
  h < fuel -> idle (Datatypes.S h + n) cap p fs N next -> 0 < cap ->
  in_mem N h t -> good lim h lo hi t -> in_range lo hi key ->
  (forall l1 l l2 p' fs', idle n cap p' fs' N next -> tree_leaves h t = l1 ++ l :: l2 ->
     keys_below (concat (lf_entries <$> l1)) key -> Q (lf_id l) p' fs') ->
  wpc no_faults (find_leaf_for_key fuel (root_of h t) key : T PageId) p fs Q X C.
Proof.
  revert t lo hi fuel p fs Q. induction h as [|h IH]; intros t lo hi fuel p fs Q Hfuel Hn Hc Hm Hg Hr HQ;
    (destruct fuel as [|fuel]; [lia|]); cbn [find_leaf_for_key root_of].
  - eapply nodes_open; [exact Hn|exact Hm|done|]. intros page p1 fs1 Hrep Hn1.
    destruct (leaf_page page t Hrep) as (-> & _). wpc_step. eapply nodes_release; [exact Hn1|set_solver|].
    intros p2 Hn2. wpc_step. apply (HQ [] t []); [done|done|constructor].
  - destruct Hm as [Hroot Hkids]. eapply nodes_open; [exact Hn|exact Hroot|done|]. intros page p1 fs1 Hrep Hn1.
    destruct (branch_page N page _ Hrep) as [-> He]. unfold internal_entries. rewrite He.
    destruct (branch_route lim h lo hi t key Hg Hr) as (l & b & c & r & Hk & _ & Hroute & Hr' & Hg' & _ & Hl & _).
    wpc_step. apply wpc_unwrap. wpc_step. rewrite Hroute. apply wpc_unwrap. wpc_step.
    eapply nodes_release; [exact Hn1|set_solver|]. intros p2 Hn2.
    apply (IH c (low lo b) (next_bound hi r)); try done; [lia| |].
    + rewrite Hk, Forall_app, Forall_cons in Hkids. apply Hkids.
    + intros l1 lf l2 p3 fs3 Hn3 Hlv Hb.
      apply (HQ (kids_leaves l ++ l1) lf (l2 ++ kids_leaves r)); [done| |].
      * change (tree_leaves (Datatypes.S h) t) with (kids_leaves (br_kids t)).
        rewrite Hk, kids_leaves_app, kids_leaves_cons. cbn [snd]. rewrite Hlv. by rewrite <-!app_assoc.
      * rewrite fmap_app, concat_app. apply Forall_app. by split.
Qed.

Lemma range_loop_spec (start end_ : bytes) (es rest : list Entry) :
  StronglySorted key_lt (es ++ rest) ->
  (range_loop start end_ es).1 = filter (in_scan start end_) es /\
  ((range_loop start end_ es).2 = true -> filter (in_scan start end_) rest = []).
Proof.
  induction es as [|[k v] es IH]; intros Hs; simpl; [done|].
  apply StronglySorted_inv in Hs as [Hs Hf]. destruct (IH Hs) as [IH1 IH2].
  destruct (bytes_leb end_ k) eqn:E; simpl.
  - change (kle end_ k) in E. assert (forall e, e ∈ (k, v) :: es ++ rest -> ~ in_scan start end_ e) as Hno.
    { intros e [->|He]%elem_of_cons [_ H2]; [simpl in H2; key_order|].
      rewrite Forall_forall in Hf. specialize (Hf e He). change (klt k e.1) in Hf. key_order. }
    split; [|intros _].
    + symmetry. apply (filter_none (in_scan start end_) ((k, v) :: es)). apply Forall_forall.
      intros e He. apply Hno. apply elem_of_cons in He as [->|He]; [left|right; apply elem_of_app; by left].
    + apply filter_none, Forall_forall. intros e He. apply Hno. right. apply elem_of_app. by right.
  - apply kle_false in E. destruct (range_loop start end_ es) as [out reached]. simpl in *. subst out.
    split; [|done]. rewrite filter_cons. destruct (bytes_leb start k) eqn:E2.
    + by rewrite decide_True.
    + rewrite decide_False; [done|]. intros [Hd _]. unfold kle in Hd. simpl in Hd. congruence.
Qed.

Lemma wpc_scan_leaves (cap : nat) N (next : PageId) (start end_ : bytes) (c : list leaf) (l : leaf)
    (fuel n : nat) p fs (Q : list Entry -> BufferPool St -> fsys -> Prop)
    (X : BTreeError Er -> BufferPool St -> fsys -> Prop) (C : fsys -> Prop) :
  length c < fuel -> idle (Datatypes.S (length c + n)) cap p fs N next -> 0 < cap ->
  Forall (fun l => N !! lf_id l = Some (leaf_node l)) (l :: c) -> linked NO_SIBLING (l :: c) ->
  (exists root, N !! META_PAGE_ID = Some (NMeta root)) ->
  StronglySorted key_lt (concat (lf_entries <$> l :: c)) ->
  (forall p' fs', idle n cap p' fs' N next ->
     Q (filter (in_scan start end_) (concat (lf_entries <$> l :: c))) p' fs') ->
  wpc no_faults (scan_leaves fuel (lf_id l) start end_ : T (list Entry)) p fs Q X C.
Proof.
  intros Hfuel Hn Hc Hall Hlink [root Hmeta]. revert l fuel n p fs Q Hfuel Hn Hall Hlink.
  induction c as [|l' c IH]; intros l fuel n p fs Q Hfuel Hn Hall Hlink Hs HQ;
    (destruct fuel as [|fuel]; [simpl in Hfuel; lia|]); cbn [scan_leaves];
    apply Forall_cons in Hall as [Hl Hall]; destruct Hlink as [Hnext Hlink];
    rewrite fmap_cons in Hs, HQ; cbn [concat] in Hs, HQ;
    destruct (range_loop_spec start end_ _ _ Hs) as [Hout Hreach];
    (eapply nodes_open; [exact Hn|exact Hl|done|]); intros page p1 fs1 Hrep Hn1;
    destruct (leaf_page page l Hrep) as (_ & He & Hsib); unfold leaf_entries; rewrite He;
    wpc_step; apply wpc_unwrap; wpc_step; rewrite Hsib; apply wpc_unwrap; wpc_step;
    (eapply nodes_release; [exact Hn1|set_solver|]); intros p2 Hn2;
    destruct (range_loop start end_ (lf_entries l)) as [out reached]; cbn [fst snd] in *; subst out.
  - rewrite Hnext. change (NO_SIBLING =? NO_SIBLING)%Z with true. rewrite orb_true_r. wpc_step.
    simpl in HQ. rewrite app_nil_r in HQ. by apply HQ.
  - assert (lf_id l' <> NO_SIBLING) as Hne.
    { intros Hz. apply Forall_inv in Hall. rewrite Hz in Hall. unfold META_PAGE_ID, NO_SIBLING, leaf_node in *. congruence. }
    rewrite Hnext, (proj2 (Z.eqb_neq _ _) Hne), orb_false_r. rewrite filter_app in HQ. destruct reached.
    + wpc_step. rewrite (Hreach eq_refl), app_nil_r in HQ. apply HQ.
      eapply pool_nodes_weaken; [|exact Hn2]. simpl. lia.
    + wpc_step. apply (IH l' fuel n); try done.
      * simpl in Hfuel. lia.
      * by apply sorted_app in Hs as (_ & Hs & _).
      * intros p3 fs3 Hn3. wpc_step. by apply HQ.
Qed.

Lemma wpc_depth_loop (lim n cap : nat) N (next : PageId) (h : nat) (t : tree h) (lo hi : bound)
    (fuel depth : nat) p fs (Q : nat -> BufferPool St -> fsys -> Prop)
    (X : BTreeError Er -> BufferPool St -> fsys -> Prop) (C : fsys -> Prop) :
  h < fuel -> idle (Datatypes.S h + n) cap p fs N next -> 0 < cap -> in_mem N h t -> good lim h lo hi t ->
  (forall p' fs', idle n cap p' fs' N next -> Q (depth + h) p' fs') ->
  wpc no_faults (depth_loop fuel (root_of h t) depth : T nat) p fs Q X C.
Proof.
  revert t lo hi fuel depth p fs. induction h as [|h IH]; intros t lo hi fuel depth p fs Hfuel Hn Hc Hm Hg HQ;
    (destruct fuel as [|fuel]; [lia|]); cbn [depth_loop root_of].
  - eapply nodes_open; [exact Hn|exact Hm|done|]. intros page p1 fs1 Hrep Hn1.
    destruct (leaf_page page t Hrep) as (-> & _). wpc_step. wpc_step. wpc_step.
    eapply nodes_release; [exact Hn1|set_solver|]. intros p2 Hn2. wpc_step. rewrite Nat.add_0_r in HQ. by apply HQ.
  - destruct Hm as [Hroot Hkids], Hg as [(c & m & Hk) Ho].
    eapply nodes_open; [exact Hn|exact Hroot|done|]. intros page p1 fs1 Hrep Hn1.
    destruct (branch_page N page _ Hrep) as [-> He]. unfold internal_entries. rewrite He, Hk in *.
    wpc_step. wpc_step. apply wpc_unwrap. wpc_step. apply wpc_unwrap. wpc_step. wpc_step.
    eapply nodes_release; [exact Hn1|set_solver|]. intros p2 Hn2. apply Forall_inv in Hkids.
    apply (IH c lo (next_bound hi m)); try done; [lia|apply Ho|].
    intros p3 fs3 Hn3. replace (depth + 1 + h) with (depth + Datatypes.S h) by lia. by apply HQ.
Qed.
End reads.
