(* ===== verification/BTreeInsert.v ===== *)
(** * BTreeInsert: insertion into the B+tree

    Insertion puts the entry into the leaf its key is routed to; a leaf or a branch that does not
    fit its page any more is split at its middle entry, and the separator goes into the parent.
    Entries of at most [MAX_ENTRY] bytes of key and value never make a half that does not fit. *)
From S2P Require Export BTreeReads.

(** ** Space *)

Definition MAX_ENTRY : nat := 168.

Definition entry_space (e : Entry) : nat := 8 + length e.1 + length e.2.

Definition kid_space (e : InternalEntry) : nat := 14 + length (default [] (ie_key e)).

Lemma leaf_space (es : list Entry) (next : PageId) :
  record_space (node_records (NLeaf es next)) = 14 + sum_list_with entry_space es.
Proof.
  unfold node_records. rewrite record_space_cons. unfold encode_leaf_sibling at 1.
  rewrite length_app, !length_le_bytes. unfold SLOT_LEN.
  enough (record_space (leaf_record <$> es) = sum_list_with entry_space es) as -> by lia.
  induction es as [|e es IH]; [done|]. rewrite fmap_cons, record_space_cons, IH, length_leaf_record.
  simpl. unfold entry_space, SLOT_LEN. lia.
Qed.

Lemma internal_space (es : list InternalEntry) :
  record_space (node_records (NInternal es)) = sum_list_with kid_space es.
Proof.
  unfold node_records. induction es as [|e es IH]; [done|].
  rewrite fmap_cons, record_space_cons, IH, length_internal_entry. simpl. unfold kid_space, SLOT_LEN. lia.
Qed.

Lemma sum_list_with_cons {A} (f : A -> nat) (x : A) (l : list A) :
  sum_list_with f (x :: l) = f x + sum_list_with f l.
Proof. done. Qed.

Lemma sum_list_with_bounds {A} (f : A -> nat) (a b : nat) (l : list A) :
  Forall (fun x => a <= f x <= b) l -> a * length l <= sum_list_with f l <= b * length l.
Proof. induction 1; simpl; nia. Qed.

(** Two halves of a list that is a little too long: each of them fits. *)
Lemma halves_fit {A} (f : A -> nat) (a b room mid : nat) (l : list A) :
  Forall (fun x => a <= f x <= b) l -> room < sum_list_with f l <= room + b ->
  2 * mid <= length l <= 2 * mid + 1 -> b * b + a * b < a * room ->
  sum_list_with f (take mid l) <= room /\ sum_list_with f (drop mid l) <= room.
Proof.
  intros Hf Hs Hm Hab.
  pose proof (sum_list_with_bounds f a b (take mid l) (Forall_take _ _ _ Hf)) as [H1 H2].
  pose proof (sum_list_with_bounds f a b (drop mid l) (Forall_drop _ _ _ Hf)) as [H3 H4].
  assert (sum_list_with f l = sum_list_with f (take mid l) + sum_list_with f (drop mid l)) as Ht.
  { rewrite <-(take_drop mid l) at 1. apply sum_list_with_app. }
  rewrite length_take, Nat.min_l in H1, H2 by lia. rewrite length_drop in H3, H4.
  split; nia.
Qed.

Lemma entry_update_space (k : bytes) (new es es' : list Entry) :
  entry_update k new es es' ->
  sum_list_with entry_space es' <= sum_list_with entry_space es + sum_list_with entry_space new.
Proof. intros (l & old & r & -> & -> & _). rewrite !sum_list_with_app. lia. Qed.

Lemma half_bounds {A} (l : list A) : 2 * split_at_midpoint l <= length l <= 2 * split_at_midpoint l + 1.
Proof. unfold split_at_midpoint. pose proof (Nat.div_mod_eq (length l) 2). pose proof (Nat.mod_upper_bound (length l) 2). lia. Qed.

(** A leaf of small entries that outgrew its page splits into two that fit. *)
Lemma leaf_halves_fit (lim : nat) (es es' : list Entry) (k v : bytes) (next n1 n2 : PageId) :
  lim <= MAX_ENTRY -> node_fits (NLeaf es next) -> ~ node_fits (NLeaf es' next) ->
  entry_update k [(k, v)] es es' -> Forall (fun e => length e.1 + length e.2 <= lim) es' ->
  length k + length v <= lim ->
  node_fits (NLeaf (take (split_at_midpoint es') es') n1) /\
  node_fits (NLeaf (drop (split_at_midpoint es') es') n2).
Proof.
  unfold node_fits. rewrite !leaf_space. intros Hlim Hf Hn Hu Hsz Hkv.
  apply entry_update_space in Hu.
  change (sum_list_with entry_space [(k, v)]) with (8 + length k + length v + 0) in Hu.
  unfold NODE_SPACE, PAGE_SIZE, PAGE_HEADER_LEN, MAX_ENTRY in *.
  destruct (halves_fit entry_space 8 176 4066 (split_at_midpoint es') es').
  - eapply Forall_impl; [exact Hsz|]. intros e He. unfold entry_space. simpl in He. lia.
  - lia.
  - apply half_bounds.
  - lia.
  - lia.
Qed.

(** The same for a branch, whose middle key moves up. *)
Lemma branch_halves_fit (lim : nat) (es es' l r : list InternalEntry) (new e : InternalEntry) (c : PageId) :
  lim <= MAX_ENTRY -> node_fits (NInternal es) -> es = l ++ r -> es' = l ++ new :: r ->
  ~ node_fits (NInternal es') -> Forall (fun e => length (default [] (ie_key e)) <= lim) es' ->
  es' !! split_at_midpoint es' = Some e ->
  node_fits (NInternal (take (split_at_midpoint es') es')) /\
  node_fits (NInternal (mkInternal None c :: drop (split_at_midpoint es' + 1) es')).
Proof.
  unfold node_fits. rewrite !internal_space. intros Hlim Hf Hes Hes' Hn Hsz Hmid.
  assert (sum_list_with kid_space es' = sum_list_with kid_space es + kid_space new) as Hsum.
  { rewrite Hes, Hes', !sum_list_with_app, sum_list_with_cons. lia. }
  assert (kid_space new <= 182) as Hnew.
  { rewrite Forall_forall in Hsz. specialize (Hsz new). rewrite Hes' in Hsz.
    specialize (Hsz ltac:(apply elem_of_app; right; left)). unfold kid_space, MAX_ENTRY in *. lia. }
  unfold NODE_SPACE, PAGE_SIZE, PAGE_HEADER_LEN, MAX_ENTRY in *.
  destruct (halves_fit kid_space 14 182 4080 (split_at_midpoint es') es') as [H1 H2].
  - eapply Forall_impl; [exact Hsz|]. intros x Hx. unfold kid_space. simpl in Hx. lia.
  - lia.
  - apply half_bounds.
  - lia.
  - split; [lia|]. rewrite (drop_S _ e) in H2 by done. rewrite Nat.add_1_r, sum_list_with_cons in *.
    unfold kid_space at 1 in H2. unfold kid_space at 1. cbn [ie_key default length]. lia.
Qed.

(** ** The place of an entry in a leaf *)

Definition upsert (key value : bytes) (es : list Entry) : list Entry :=
  match binary_search es key with
  | inl i => <[i := (key, value)]> es
  | inr i => take i es ++ (key, value) :: drop i es
  end.

Lemma upsert_update (key value : bytes) (es : list Entry) :
  StronglySorted key_lt es -> entry_update key [(key, value)] es (upsert key value es).
Proof.
  intros Hs. pose proof (binary_search_spec es key Hs) as Hb. unfold upsert.
  destruct (binary_search es key) as [i|i].
  - destruct Hb as (l & v & r & -> & -> & Hl & Hr). exists l, [(key, v)], r. split; [done|].
    split; [|split; [done|split; [done|right; by eexists]]].
    rewrite insert_app_r_alt by lia. by rewrite Nat.sub_diag.
  - destruct Hb as (l & r & -> & -> & Hl & Hr). exists l, [], r. split; [done|].
    split; [|split; [done|split; [done|by left]]]. by rewrite take_app_length, drop_app_length.
Qed.

(** ** What an update of a subtree changes *)

(** The memory outside of the pages [ids] is unchanged; the pages [ids'] are among [ids] or
    freshly allocated. *)
Record grown (N N' : gmap PageId Node) (next next' : PageId) (ids ids' : list PageId) : Prop := {
  gr_next : (next <= next')%Z;
  gr_frame : forall id, id ∉ ids -> (id < next)%Z -> N' !! id = N !! id;
  gr_ids : forall id, id ∈ ids' -> id ∈ ids \/ (next <= id < next')%Z;
  gr_nodup : NoDup ids';
}.

(** The leaves [new] in the place of [l] of the chain. *)
Definition spliced (next next' : PageId) (l : leaf) (new : list leaf) : Prop :=
  (exists es, new = [mkLf (lf_id l) es (lf_next l)]) \/
  (exists es1 es2 rid, new = [mkLf (lf_id l) es1 rid; mkLf rid es2 (lf_next l)] /\
     (next <= rid < next')%Z).

Definition leaves_spliced (next next' : PageId) (ls ls' : list leaf) : Prop :=
  exists a l new b, ls = a ++ l :: b /\ ls' = a ++ new ++ b /\ spliced next next' l new.

Lemma leaves_spliced_app (next next' : PageId) (ls ls' a b : list leaf) :
  leaves_spliced next next' ls ls' -> leaves_spliced next next' (a ++ ls ++ b) (a ++ ls' ++ b).
Proof.
  intros (a0 & l & new & b0 & -> & -> & Hs). exists (a ++ a0), l, new, (b0 ++ b).
  split; [by rewrite <-!app_assoc|]. split; [by rewrite <-!app_assoc|done].
Qed.

Lemma leaves_spliced_mono (next next' next'' : PageId) (ls ls' : list leaf) :
  (next' <= next'')%Z -> leaves_spliced next next' ls ls' -> leaves_spliced next next'' ls ls'.
Proof.
  intros Hn (a & l & new & b & -> & -> & Hs). exists a, l, new, b. split; [done|]. split; [done|].
  destruct Hs as [Hs|(es1 & es2 & rid & Hnew & Hr)]; [by left|right].
  exists es1, es2, rid. split; [done|lia].
Qed.

(** A part of a list of distinct pages is replaced by pages of that part and fresh ones. *)
Lemma nodup_replace (a ids ids' b : list PageId) (next next' : PageId) :
  NoDup (a ++ ids ++ b) -> NoDup ids' ->
  (forall id, id ∈ ids' -> id ∈ ids \/ (next <= id < next')%Z) ->
  (forall id, id ∈ a ++ b -> (id < next)%Z) -> NoDup (a ++ ids' ++ b).
Proof.
  intros Hnd Hnd' Hin Hlt. apply NoDup_app in Hnd as (Ha & Hab & Hr).
  apply NoDup_app in Hr as (_ & Hib & Hb).
  assert (forall id, id ∈ a ++ b -> id ∉ ids -> id ∉ ids') as Hnot.
  { intros id Hid Hni Hni'. specialize (Hlt id Hid). destruct (Hin id Hni') as [?|?]; [done|lia]. }
  apply NoDup_app. split; [done|]. split.
  - intros id Hid [Hni|Hni]%elem_of_app.
    + apply (Hnot id) in Hni; [done|apply elem_of_app; by left|].
      intros ?. apply (Hab id Hid). apply elem_of_app. by left.
    + apply (Hab id Hid). apply elem_of_app. by right.
  - apply NoDup_app. split; [done|]. split; [|done]. intros id Hid Hb'.
    revert Hid. apply Hnot; [apply elem_of_app; by right|]. intros Hi. by apply (Hib id).
Qed.

(** Children whose keys are their own bounds do not depend on the bound of the node. *)
Lemma ordered_kids_rekey {T} (P : bound -> bound -> T -> Prop) (lim : nat) (lo hi b : bound) (c : T)
    (m : list (option bytes * T)) :
  length (default [] b) <= lim ->
  ordered_kids P lim (low lo b) hi ((None, c) :: m) -> ordered_kids P lim lo hi ((b, c) :: m).
Proof.
  intros Hb. simpl. intros (H1 & H2 & H3 & _ & H5). split; [done|]. split; [done|]. split; [done|].
  split; [done|]. clear -H3 H5. revert H3 H5. generalize (low lo b). intros l.
  induction m as [|[b1 c1] m IH]; simpl; [done|]. intros Hk (H1 & H2 & H3 & H4 & H5).
  destruct b1; [|done]. simpl in *. split_and!; auto.
Qed.

Lemma ordered_kids_unkey {T} (P : bound -> bound -> T -> Prop) (lim : nat) (lo hi : bound) (k : bytes) (c : T)
    (m : list (option bytes * T)) :
  ordered_kids P lim lo hi ((Some k, c) :: m) -> ordered_kids P lim (Some k) hi ((None, c) :: m).
Proof.
  simpl. intros (H1 & H2 & H3 & _ & H5). split; [done|]. split; [done|]. split; [done|].
  split; [simpl; lia|]. clear -H3 H5. revert H3 H5.
  induction m as [|[b1 c1] m IH]; simpl; [done|]. intros Hk (H1 & H2 & H3 & H4 & H5).
  destruct b1; [|done]. simpl in *. split_and!; auto.
Qed.

(** ** The result of an insertion into a subtree *)

(** One tree with the old root, or two with a separator. *)
Definition pieces {h : nat} (t1 : tree h) (more : option (bytes * tree h)) : list (option bytes * tree h) :=
  (None, t1) :: match more with Some (sep, t2) => [(Some sep, t2)] | None => [] end.

Definition split_result {h : nat} (more : option (bytes * tree h)) : option (bytes * PageId) :=
  (fun m => (m.1, root_of h m.2)) <$> more.

Record inserted (lim h : nat) (lo hi : bound) (t : tree h) (N : gmap PageId Node) (next : PageId)
    (key value : bytes) (t1 : tree h) (more : option (bytes * tree h)) (N' : gmap PageId Node)
    (next' : PageId) : Prop := {
  is_root : root_of h t1 = root_of h t;
  is_ordered : ordered_kids (good lim h) lim lo hi (pieces t1 more);
  is_mem : Forall (fun c => in_mem N' h c.2) (pieces t1 more);
  is_entries : entry_update key [(key, value)] (tree_entries h t) (kids_entries (pieces t1 more));
  is_leaves : leaves_spliced next next' (tree_leaves h t) (kids_leaves (pieces t1 more));
  is_grown : grown N N' next next' (tree_ids h t) (kids_ids (pieces t1 more));
  is_room : (next' <= next + Z.of_nat (Datatypes.S h))%Z;
}.

(** The only error, and when it can happen. *)
Definition too_large {Er : Type} (lim : nat) (e : BTreeError Er) : Prop :=
  (exists needed available, e = BtPage (Full needed available)) /\ MAX_ENTRY < lim.

Lemma kids_in_mem_frame (N N' : gmap PageId Node) (h : nat) (m : list (option bytes * tree h)) :
  (forall id, id ∈ kids_ids m -> N' !! id = N !! id) ->
  Forall (fun c => in_mem N h c.2) m -> Forall (fun c => in_mem N' h c.2) m.
Proof.
  intros Hf Hm. rewrite Forall_forall in *. intros c Hc. eapply in_mem_frame; [|by apply Hm].
  intros id Hid. apply Hf. apply list_elem_of_In, in_concat. exists (tree_ids h c.2).
  split; [|by apply list_elem_of_In]. apply list_elem_of_In, list_elem_of_fmap. by exists c.
Qed.

Lemma kids_ids_mem (N : gmap PageId Node) (h : nat) (m : list (option bytes * tree h)) (id : PageId) :
  Forall (fun c => in_mem N h c.2) m -> id ∈ kids_ids m -> is_Some (N !! id).
Proof.
  intros Hm Hid. apply list_elem_of_In, in_concat in Hid as (ids & Hids & Hin).
  apply list_elem_of_In, list_elem_of_fmap in Hids as (c & -> & Hc).
  rewrite Forall_forall in Hm. apply (in_mem_ids N h c.2); [by apply Hm|by apply list_elem_of_In].
Qed.

Lemma ordered_kids_sizes {T} (P : bound -> bound -> T -> Prop) (lim : nat) (lo hi : bound)
    (m : list (option bytes * T)) :
  ordered_kids P lim lo hi m -> Forall (fun c => length (default [] c.1) <= lim) m.
Proof. induction m as [|[b c] m IH]; simpl; constructor; [simpl; tauto|apply IH; tauto]. Qed.

(** ** From a child to its node *)

(** The children [kids] of a node after one of them has taken the entry. *)
Record kids_inserted (lim h : nat) (lo hi : bound) (kids : list (option bytes * tree h))
    (N : gmap PageId Node) (next : PageId) (key value : bytes) (kids' : list (option bytes * tree h))
    (N' : gmap PageId Node) (next' : PageId) : Prop := {
  ki_ordered : ordered_kids (good lim h) lim lo hi kids';
  ki_head : exists c m, kids' = (None, c) :: m;
  ki_mem : Forall (fun c => in_mem N' h c.2) kids';
  ki_entries : entry_update key [(key, value)] (kids_entries kids) (kids_entries kids');
  ki_leaves : leaves_spliced next next' (kids_leaves kids) (kids_leaves kids');
  ki_grown : grown N N' next next' (kids_ids kids) (kids_ids kids');
}.

(** The pieces of a child take its place among its siblings. *)
Definition replace_kid {h : nat} (l : list (option bytes * tree h)) (b : bound) (t1 : tree h)
    (more : option (bytes * tree h)) (r : list (option bytes * tree h)) : list (option bytes * tree h) :=
  l ++ (b, t1) :: match more with Some (sep, t2) => [(Some sep, t2)] | None => [] end ++ r.

Lemma replace_kid_leaves {h : nat} (l : list (option bytes * tree h)) (b : bound) (t1 : tree h)
    (more : option (bytes * tree h)) (r : list (option bytes * tree h)) :
  kids_leaves (replace_kid l b t1 more r) = kids_leaves l ++ kids_leaves (pieces t1 more) ++ kids_leaves r /\
  kids_ids (replace_kid l b t1 more r) = kids_ids l ++ kids_ids (pieces t1 more) ++ kids_ids r /\
  kids_entries (replace_kid l b t1 more r) = kids_entries l ++ kids_entries (pieces t1 more) ++ kids_entries r.
Proof.
  unfold replace_kid, pieces. rewrite kids_leaves_app, kids_ids_app, kids_entries_app.
  rewrite !kids_leaves_cons, !kids_ids_cons, !kids_entries_cons. cbn [snd].
  rewrite kids_leaves_app, kids_ids_app, kids_entries_app. by rewrite <-!app_assoc.
Qed.

Lemma replace_kid_ordered (lim h : nat) (lo hi b : bound) (c t1 : tree h) (more : option (bytes * tree h))
    (l r : list (option bytes * tree h)) :
  ordered_kids (good lim h) lim lo hi (l ++ (b, c) :: r) ->
  ordered_kids (good lim h) lim (low lo b) (next_bound hi r) (pieces t1 more) ->
  ordered_kids (good lim h) lim lo hi (replace_kid l b t1 more r).
Proof.
  intros Ho Hp. apply ordered_kids_app in Ho as (Hl & Hr & Hne). unfold replace_kid.
  apply ordered_kids_app. split; [exact Hl|]. split; [|exact Hne].
  destruct Hr as (_ & _ & Hk & Hb & Hr). unfold pieces in Hp.
  apply (ordered_kids_rekey _ lim lo _ b) in Hp; [|done].
  rewrite app_comm_cons. apply ordered_kids_app. split; [done|]. split; [done|].
  intros _. by destruct r as [|[[?|] ?] ?].
Qed.

Lemma kids_inserted_intro (lim h : nat) (lo hi b : bound) (c t1 : tree h) (more : option (bytes * tree h))
    (l r : list (option bytes * tree h)) (N N' : gmap PageId Node) (next next' : PageId) (key value : bytes) :
  ordered_kids (good lim h) lim lo hi (l ++ (b, c) :: r) ->
  (exists c0 m, l ++ (b, c) :: r = (None, c0) :: m) ->
  in_range (low lo b) (next_bound hi r) key ->
  Forall (fun c => in_mem N h c.2) (l ++ (b, c) :: r) ->
  NoDup (kids_ids (l ++ (b, c) :: r)) -> (forall id, is_Some (N !! id) -> (id < next)%Z) ->
  inserted lim h (low lo b) (next_bound hi r) c N next key value t1 more N' next' ->
  kids_inserted lim h lo hi (l ++ (b, c) :: r) N next key value (replace_kid l b t1 more r) N' next'.
Proof.
  intros Ho Hhead Hr Hm Hnd Hlt [I1 I2 I3 I4 I5 [G1 G2 G3 G4] _].
  destruct (kid_siblings lim h lo hi b c l r key Ho Hhead Hr) as (_ & Hb & Hbl & Har).
  destruct (replace_kid_leaves l b t1 more r) as (El & Ei & Ee).
  rewrite Forall_app, Forall_cons in Hm. destruct Hm as (Hml & _ & Hmr).
  rewrite kids_ids_app, kids_ids_cons in Hnd. cbn [snd] in Hnd.
  assert (forall id, id ∈ kids_ids l ++ kids_ids r -> (id < next)%Z /\ id ∉ tree_ids h c) as Hsib.
  { pose proof Hnd as Hnd2. apply NoDup_app in Hnd2 as (_ & Hd1 & Hd2). apply NoDup_app in Hd2 as (_ & Hd2 & _).
    intros id [Hid|Hid]%elem_of_app; (split; [apply Hlt; eapply kids_ids_mem; [|exact Hid]; done|]); intros Hc.
    - apply (Hd1 id Hid), elem_of_app. by left.
    - by apply (Hd2 id Hc). }
  assert (Forall (fun x => in_mem N' h x.2) l) as Hml'.
  { eapply kids_in_mem_frame; [|exact Hml]. intros id Hid.
    destruct (Hsib id) as [? ?]; [apply elem_of_app; by left|by apply G2]. }
  assert (Forall (fun x => in_mem N' h x.2) r) as Hmr'.
  { eapply kids_in_mem_frame; [|exact Hmr]. intros id Hid.
    destruct (Hsib id) as [? ?]; [apply elem_of_app; by right|by apply G2]. }
  split.
  - by eapply replace_kid_ordered.
  - unfold replace_kid. destruct l as [|x l]; simpl in Hhead |- *.
    + destruct Hhead as (c0 & m & [= -> _ _]). by do 2 eexists.
    + destruct Hhead as (c0 & m & [= -> _]). by do 2 eexists.
  - unfold replace_kid, pieces in *. apply Forall_cons in I3 as [I3 I3'].
    rewrite Forall_app, Forall_cons, Forall_app. done.
  - rewrite Ee, kids_entries_app, kids_entries_cons. by apply entry_update_app.
  - rewrite El, kids_leaves_app, kids_leaves_cons. by apply leaves_spliced_app.
  - rewrite Ei, kids_ids_app, kids_ids_cons. cbn [snd]. split; [done| | |].
    + intros id Hni Hid. apply G2; [|done]. rewrite !elem_of_app in Hni. tauto.
    + intros id. rewrite !elem_of_app. intros [Hid|[Hid|Hid]]; [tauto| |tauto].
      destruct (G3 id Hid); tauto.
    + eapply nodup_replace; [exact Hnd|done|done|]. intros id Hid. by apply Hsib.
Qed.

(** A branch split at a position. *)
Lemma branch_split (lim h : nat) (lo hi : bound) (kids : list (option bytes * tree h)) (mid : nat)
    (id rid : PageId) :
  (exists c m, kids = (None, c) :: m) -> ordered_kids (good lim h) lim lo hi kids ->
  1 <= mid < length kids ->
  exists l k c r, kids = l ++ (Some k, c) :: r /\ length l = mid /\
    ordered_kids (good lim (Datatypes.S h)) lim lo hi
      (pieces (h := Datatypes.S h) (mkBr id l) (Some (k, mkBr rid ((None, c) :: r)))).
Proof.
  intros (c0 & m & Hk) Ho Hmid.
  destruct (lookup_lt_is_Some_2 kids mid) as [[b c] Hlk]; [lia|].
  apply list_elem_of_split_length in Hlk as (l & r & Hkids & Hl). rewrite Hkids in Ho.
  assert (exists l', l = (None, c0) :: l') as [l' ->].
  { destruct l as [|x l']; [simpl in Hl; lia|]. rewrite Hkids in Hk. injection Hk as -> _. by eexists. }
  pose proof Ho as Ho'. apply ordered_kids_app in Ho' as (Hlo & Hr & Hne).
  destruct b as [k|]; [|by specialize (Hne ltac:(done))]. exists ((None, c0) :: l'), k, c, r.
  split; [done|]. split; [done|]. pose proof (ordered_kids_span _ _ _ _ _ _ _ Hlo) as Hs1.
  pose proof (ordered_kids_span _ _ _ _ _ _ _ Hr) as Hs2. pose proof (proj1 (proj2 (proj2 (proj2 Hr)))) as Hlen.
  cbn [next_bound low] in *. unfold pieces. cbn [ordered_kids low next_bound default length].
  split; [split; [by do 2 eexists|exact Hlo]|]. split; [done|]. split; [done|]. split; [lia|].
  split; [split; [by do 2 eexists|by eapply ordered_kids_unkey]|]. done.
Qed.

Section insert.
Context `{PageStoreLaws St Er}.

Implicit Types (p : BufferPool St) (fs : fsys) (N : gmap PageId Node).

Abbreviation T := (M (BufferPool St) (BTreeError Er)).

Lemma pool_nodes_idle (n cap : nat) (X U : gset PageId) p fs N (next : PageId) :
  pool_nodes n cap X U p fs N next -> X ⊆ ∅ -> pool_nodes n cap ∅ ∅ p fs N next.
Proof.
  intros Hn HX. pose proof (pn_dirty _ _ _ _ _ _ _ _ Hn) as HU.
  replace X with (∅ : gset PageId) in * by set_solver. by replace U with (∅ : gset PageId) in Hn by set_solver.
Qed.

Lemma pool_nodes_rep (n cap : nat) (X U : gset PageId) p fs N (next id : PageId) (nd : Node) :
  pool_nodes n cap X U p fs N next -> N !! id = Some nd -> node_fits nd /\ Forall in_u64 (node_links nd).
Proof.
  intros [(m & _ & Hm) _ _ _ _] Hnd. pose proof (Hm id nd Hnd) as Hr. split; [exact (nr_space _ _ Hr)|apply Hr].
Qed.

Lemma wpc_lift_full {A : Type} (r : Res PageError A) (a b : nat) (s : BufferPool St) (fs : fsys)
    (Q : A -> BufferPool St -> fsys -> Prop) (X : BTreeError Er -> BufferPool St -> fsys -> Prop) (C : fsys -> Prop) :
  r = Err (Full a b) -> X (BtPage (Full a b)) s fs -> wpc no_faults (lift_page r : T A) s fs Q X C.
Proof. intros ->. apply (wpc_throw (BtPage (Full a b))). Qed.

(** A page is built, or the error is reported. *)
Lemma wpc_build (r : Res PageError Page) (nd : Node) (s : BufferPool St) (fs : fsys)
    (Q : Page -> BufferPool St -> fsys -> Prop) (X : BTreeError Er -> BufferPool St -> fsys -> Prop) (C : fsys -> Prop) :
  builds r nd -> (forall pg, node_fits nd -> node_rep pg nd -> Q pg s fs) ->
  (forall a b, ~ node_fits nd -> X (BtPage (Full a b)) s fs) ->
  wpc no_faults (lift_page r : T Page) s fs Q X C.
Proof.
  unfold builds. intros Hb HQ HX. case_decide as Hf.
  - destruct Hb as (pg & -> & Hr). apply wpc_lift_ok. by apply HQ.
  - destruct Hb as (a & b & Hr). by eapply wpc_lift_full; [|apply HX].
Qed.

(** ** The leaf case *)

Lemma upsert_good (lim : nat) (lo hi : bound) (t : leaf) (key value : bytes) :
  good lim 0 lo hi t -> in_range lo hi key -> length key + length value <= lim ->
  StronglySorted key_lt (upsert key value (lf_entries t)) /\
  Forall (fun e => in_range lo hi e.1) (upsert key value (lf_entries t)) /\
  Forall (fun e => length e.1 + length e.2 <= lim) (upsert key value (lf_entries t)).
Proof.
  intros (Hs & Hr & Hz) Hk Hkv. pose proof (upsert_update key value _ Hs) as Hu. split; [|split].
  - eapply entry_update_sorted; [exact Hu|right; by eexists|done].
  - eapply entry_update_Forall; [exact Hu|by constructor|done].
  - eapply entry_update_Forall; [exact Hu|by constructor|done].
Qed.

(** Two non-empty halves of a leaf are two pieces. *)
Lemma leaf_pieces (lim : nat) (lo hi : bound) (id rid next : PageId) (l r : list Entry) (e : Entry) :
  StronglySorted key_lt (l ++ e :: r) -> Forall (fun e => in_range lo hi e.1) (l ++ e :: r) ->
  Forall (fun e => length e.1 + length e.2 <= lim) (l ++ e :: r) -> l <> [] ->
  ordered_kids (good lim 0) lim lo hi
    (pieces (h := 0) (mkLf id l rid) (Some (e.1, mkLf rid (e :: r) next))).
Proof.
  intros Hs Hr Hz Hne. apply sorted_app in Hs as (Hsl & Hsr & Hlr).
  apply Forall_app in Hr as [Hrl Hrr], Hz as [Hzl Hzr].
  pose proof (Forall_inv Hrr) as He. pose proof (Forall_inv Hzr) as Hze. simpl in He, Hze.
  assert (Forall (fun x => klt x.1 e.1) l) as Hle.
  { apply Forall_forall. intros x Hx. apply Hlr; [done|left]. }
  assert (forall x, x ∈ e :: r -> kle e.1 x.1) as Her.
  { intros x [->|Hx]%elem_of_cons; [key_order|]. apply StronglySorted_inv in Hsr as [_ Hf].
    rewrite Forall_forall in Hf. specialize (Hf x Hx). change (klt e.1 x.1) in Hf. key_order. }
  simpl. split_and!; try done; try lia.
  - rewrite Forall_forall in *. intros x Hx. split; [by apply Hrl|]. simpl. by apply Hle.
  - destruct l as [|x l]; [done|]. apply Forall_inv in Hle, Hrl. destruct lo; simpl; [|done].
    destruct Hrl as [Ha _]. simpl in Ha. key_order.
  - rewrite Forall_forall in *. intros x Hx. split; [by apply Her|]. by apply Hrr.
  - apply He.
Qed.

(** The leaf with the entry put in, whole. *)
Lemma inserted_leaf (lim : nat) (lo hi : bound) (t : leaf) N (next : PageId) (key value : bytes) :
  let es := upsert key value (lf_entries t) in
  good lim 0 lo hi t -> in_range lo hi key -> length key + length value <= lim ->
  inserted lim 0 lo hi t N next key value (mkLf (lf_id t) es (lf_next t)) None
    (<[lf_id t := NLeaf es (lf_next t)]> N) next.
Proof.
  intros es Hg Hr Hkv. destruct (upsert_good lim lo hi t key value Hg Hr Hkv) as (Hs' & Hr' & Hz').
  pose proof (upsert_update key value (lf_entries t) ltac:(apply Hg)) as Hu. split; [done| | | | | |lia].
  - split_and!; simpl; try done; [|lia]. by eapply in_range_proper.
  - constructor; [|constructor]. apply lookup_insert_eq.
  - unfold tree_entries, kids_entries, kids_leaves. simpl. by rewrite !app_nil_r.
  - exists [], t, [mkLf (lf_id t) es (lf_next t)], []. split; [done|]. split; [done|]. left. by exists es.
  - split; [lia| |by intros id ?; left|apply NoDup_singleton].
    intros id Hni _. apply lookup_insert_ne. set_solver.
Qed.

(** The leaf in two pieces, the second in a new page. *)
Lemma inserted_leaf_split (lim : nat) (lo hi : bound) (t : leaf) N (next : PageId) (key value : bytes)
    (l : list Entry) (e : Entry) (r : list Entry) :
  good lim 0 lo hi t -> in_range lo hi key -> length key + length value <= lim -> (lf_id t < next)%Z ->
  upsert key value (lf_entries t) = l ++ e :: r -> l <> [] ->
  inserted lim 0 lo hi t N next key value (mkLf (lf_id t) l next) (Some (e.1, mkLf next (e :: r) (lf_next t)))
    (<[next := NLeaf (e :: r) (lf_next t)]> (<[lf_id t := NLeaf l next]> N)) (next + 1).
Proof.
  intros Hg Hr Hkv Hid Hes Hne. destruct (upsert_good lim lo hi t key value Hg Hr Hkv) as (Hs' & Hr' & Hz').
  pose proof (upsert_update key value (lf_entries t) ltac:(apply Hg)) as Hu.
  assert (next <> lf_id t) as Hneq by lia. split; [done| | | | | |lia].
  - apply leaf_pieces; rewrite <-?Hes; done.
  - constructor; [|constructor; [|constructor]]; simpl; [|apply lookup_insert_eq].
    rewrite lookup_insert_ne by done. apply lookup_insert_eq.
  - unfold tree_entries, kids_entries, kids_leaves. simpl. rewrite !app_nil_r, <-Hes. done.
  - exists [], t, [mkLf (lf_id t) l next; mkLf next (e :: r) (lf_next t)], [].
    split; [done|]. split; [done|]. right. exists l, (e :: r), next. split; [done|lia].
  - split; [lia| | |].
    + intros id Hni Hlt. rewrite !lookup_insert_ne; [done|set_solver|lia].
    + intros id [->|[->|[]%not_elem_of_nil]%elem_of_cons]%elem_of_cons; [left; left|right; simpl; lia].
    + apply NoDup_cons. split; [|apply NoDup_singleton]. by intros ?%list_elem_of_singleton.
Qed.

(** Entries that do not fit into a page are split with something on both sides. *)
Lemma leaf_split_proper (es : list Entry) (sibling : PageId) :
  ~ node_fits (NLeaf es sibling) ->
  exists e r, drop (split_at_midpoint es) es = e :: r /\ es = take (split_at_midpoint es) es ++ e :: r.
Proof.
  intros Hf. pose proof (half_bounds es) as Hhb. set (mid := split_at_midpoint es) in *.
  destruct (drop mid es) as [|e r] eqn:Ed.
  - exfalso. assert (length (drop mid es) = 0) as Hl0 by by rewrite Ed. rewrite length_drop in Hl0.
    assert (es = []) as -> by (apply nil_length_inv; lia). apply Hf. unfold node_fits.
    rewrite leaf_space. simpl. unfold NODE_SPACE, PAGE_SIZE, PAGE_HEADER_LEN. lia.
  - exists e, r. split; [done|]. by rewrite <-Ed, take_drop.
Qed.

Lemma wpc_insert_leaf (lim n cap : nat) N (next : PageId) (t : leaf) (lo hi : bound) (key value : bytes) p fs
    (Q : option (bytes * PageId) -> BufferPool St -> fsys -> Prop)
    (X : BTreeError Er -> BufferPool St -> fsys -> Prop) (C : fsys -> Prop) :
  pool_nodes (Datatypes.S (Datatypes.S n)) cap ({[lf_id t]} ∪ ∅) ∅ p fs N next -> 1 < cap ->
  in_mem N 0 t -> good lim 0 lo hi t -> in_range lo hi key -> length key + length value <= lim ->
  (forall t1 more N' next' p' fs', pool_nodes n cap ∅ ∅ p' fs' N' next' ->
     inserted lim 0 lo hi t N next key value t1 more N' next' -> Q (split_result more) p' fs') ->
  (forall e p' fs', too_large lim e -> X e p' fs') ->
  wpc no_faults (insert_leaf (lf_id t) key value : T (option (bytes * PageId))) p fs Q X C.
Proof.
  intros Hn Hc Hm Hg Hr Hkv HQ HX.
  destruct (pool_nodes_rep _ _ _ _ _ _ _ _ _ _ Hn Hm) as [Hfit Hlinks]. apply Forall_inv in Hlinks.
  pose proof (pn_ids _ _ _ _ _ _ _ _ Hn (lf_id t) ltac:(by rewrite Hm)) as Hid.
  unfold insert_leaf. wpc_step. eapply nodes_the_page; [exact Hn|set_solver|exact Hm|]. intros page Hrep.
  destruct (leaf_page page t Hrep) as (_ & He & Hsib). unfold leaf_entries. rewrite He, Hsib.
  wpc_step. apply wpc_unwrap. wpc_step. apply wpc_unwrap. cbv zeta. fold (upsert key value (lf_entries t)).
  set (es := upsert key value (lf_entries t)) in *. wpc_step.
  pose proof (build_leaf_builds es (lf_next t) Hlinks) as Hb. unfold builds in Hb. case_decide as Hf.
  - destruct Hb as (pg & -> & Hpg). wpc_step. eapply nodes_set_page; [exact Hn|pinned|exact Hpg|].
    intros p1 Hn1. wpc_step. wpc_step. eapply nodes_release; [exact Hn1|done|]. intros p2 Hn2. wpc_step.
    apply (HQ (mkLf (lf_id t) es (lf_next t)) None (<[lf_id t := NLeaf es (lf_next t)]> N) next p2 fs).
    { eapply pool_nodes_weaken; [|exact Hn2]. lia. }
    by apply inserted_leaf.
  - destruct Hb as (a & b & ->). wpc_step.
    eapply nodes_new_page; [exact Hn|by rewrite union_empty_r_L, size_singleton|].
    intros p1 fs1 Hn1 Hnone Hnx Hu64. set (mid := split_at_midpoint es).
    assert (forall a b, ~ node_fits (NLeaf (take mid es) next) \/ ~ node_fits (NLeaf (drop mid es) (lf_next t)) ->
      forall p fs, X (BtPage (Full a b)) p fs) as Herr.
    { intros a' b' Hno p' fs'. apply HX. split; [by do 2 eexists|].
      destruct (decide (MAX_ENTRY < lim)) as [|Hle]; [done|]. exfalso.
      destruct (upsert_good lim lo hi t key value Hg Hr Hkv) as (_ & _ & Hz').
      destruct (leaf_halves_fit lim (lf_entries t) es key value (lf_next t) next (lf_next t)); try done; [lia|by apply upsert_update, Hg|tauto]. }
    wpc_step. apply (wpc_build _ (NLeaf (take mid es) next)); [by apply build_leaf_builds| |intros; apply Herr; tauto].
    intros pg1 Hf1 Hpg1. wpc_step. eapply nodes_set_page; [exact Hn1|pinned|exact Hpg1|]. intros p2 Hn2.
    wpc_step. apply (wpc_build _ (NLeaf (drop mid es) (lf_next t))); [by apply build_leaf_builds| |intros; apply Herr; tauto].
    intros pg2 Hf2 Hpg2. wpc_step. eapply nodes_set_page; [exact Hn2|pinned|exact Hpg2|]. intros p3 Hn3.
    destruct (leaf_split_proper es (lf_next t) Hf) as (e & r & Ed & Hes). fold mid in Ed, Hes. rewrite Ed in *.
    assert (take mid es <> []) as Hne by (intros Hnil; apply Hf; rewrite Hes, Hnil; exact Hf2).
    wpc_step. apply wpc_unwrap. wpc_step. eapply nodes_unpin; [exact Hn3|pinned|done|]. intros p4 Hn4.
    wpc_step. wpc_step. eapply nodes_unpin; [exact Hn4|pinned|done|]. intros p5 Hn5. wpc_step.
    apply pool_nodes_idle in Hn5; [|set_solver].
    eapply (HQ (mkLf (lf_id t) (take mid es) next) (Some (e.1, mkLf next (e :: r) (lf_next t)))); [exact Hn5|].
    by apply inserted_leaf_split; [..|lia| |].
Qed.

(** ** The internal case *)

(** The position [insert_recursive] computes for a separator. *)
Lemma separator_place (lim h : nat) (lo hi b : bound) (c : tree h) (l r : list (option bytes * tree h)) (sep : bytes) :
  ordered_kids (good lim h) lim lo hi (l ++ (b, c) :: r) ->
  (exists c0 m, l ++ (b, c) :: r = (None, c0) :: m) ->
  in_range (low lo b) (next_bound hi r) sep ->
  match kid_entry <$> l ++ (b, c) :: r with
  | [] => None
  | _ :: rest => separator_position 1 rest sep
  end = Some (Datatypes.S (length l)).
Proof.
  intros Ho (c0 & m & Hhead) Hr. destruct l as [|[b1 c1] l].
  - simpl in *. destruct Ho as (_ & _ & Hk & _). destruct r as [|[[k|] c'] r]; [done| |done].
    simpl. destruct Hr as [_ Hb]. simpl in Hb. unfold klt in Hb. by rewrite Hb.
  - cbn [app ordered_kids fmap list_fmap] in *. destruct Ho as (_ & _ & Hk & _ & Ho).
    etrans; [by apply (separator_split (good lim h) lim 1 lo hi b c l r sep)|]. f_equal. simpl. lia.
Qed.

(** The entries after the separator has been put in its place are those of the new children. *)
Lemma separator_entries (h : nat) (b : bound) (c t1 t2 : tree h) (l r : list (option bytes * tree h)) (sep : bytes) :
  root_of h t1 = root_of h c -> let es := kid_entry <$> l ++ (b, c) :: r in
  take (Datatypes.S (length l)) es ++ mkInternal (Some sep) (root_of h t2) :: drop (Datatypes.S (length l)) es =
  kid_entry <$> replace_kid l b t1 (Some (sep, t2)) r.
Proof.
  intros Hroot es. unfold es, replace_kid. cbn [app]. rewrite !fmap_app, !fmap_cons.
  rewrite (cons_middle (kid_entry (b, c))), app_assoc.
  rewrite take_app_length', drop_app_length' by (rewrite length_app, length_fmap; simpl; lia).
  rewrite <-app_assoc. unfold kid_entry. cbn [fst snd]. by rewrite Hroot.
Qed.

(** What a branch becomes: the node with the children [kids], whole or in two pieces. *)
Record rebuilt (lim h : nat) (lo hi : bound) (id : PageId) (kids : list (option bytes * tree h))
    (N : gmap PageId Node) (next : PageId) (u1 : tree (Datatypes.S h))
    (more : option (bytes * tree (Datatypes.S h))) (N' : gmap PageId Node) (next' : PageId) : Prop := {
  rb_root : root_of (Datatypes.S h) u1 = id;
  rb_ordered : ordered_kids (good lim (Datatypes.S h)) lim lo hi (pieces u1 more);
  rb_mem : Forall (fun c => in_mem N' (Datatypes.S h) c.2) (pieces u1 more);
  rb_leaves : kids_leaves (pieces u1 more) = kids_leaves kids;
  rb_ids : exists new, kids_ids (pieces u1 more) ≡ₚ id :: new ++ kids_ids kids /\ NoDup new /\
    forall x, x ∈ new -> (next <= x < next')%Z;
  rb_next : (next <= next' <= next + 1)%Z;
  rb_frame : forall x, x <> id -> (x < next)%Z -> N' !! x = N !! x;
}.

Lemma rebuilt_whole (lim h : nat) (lo hi : bound) (id : PageId) (kids : list (option bytes * tree h)) N N' (next : PageId) :
  ordered_kids (good lim h) lim lo hi kids -> (exists c m, kids = (None, c) :: m) ->
  N' !! id = Some (NInternal (kid_entry <$> kids)) -> Forall (fun c => in_mem N' h c.2) kids ->
  (forall x, x <> id -> (x < next)%Z -> N' !! x = N !! x) ->
  rebuilt lim h lo hi id kids N next (mkBr id kids) None N' next.
Proof.
  intros Ho Hhead Hid Hm Hf. split; try done; [| | | |lia].
  - split_and!; simpl; try done; [|lia]. destruct Hhead as (c0 & m & Hk). rewrite Hk in Ho.
    by apply ordered_kids_span in Ho.
  - by constructor; [|constructor].
  - unfold pieces. rewrite kids_leaves_cons. change (kids_leaves (h := Datatypes.S h) []) with (@nil leaf).
    by rewrite app_nil_r.
  - exists []. split; [|split; [constructor|by intros ? ?%not_elem_of_nil]].
    unfold pieces. rewrite kids_ids_cons. change (kids_ids (h := Datatypes.S h) []) with (@nil PageId).
    by rewrite app_nil_r.
Qed.

Lemma rebuilt_split (lim h : nat) (lo hi : bound) (id next : PageId) (kl kr : list (option bytes * tree h))
    (k : bytes) (c : tree h) N N' :
  let kids := kl ++ (Some k, c) :: kr in
  let u1 := mkBr id kl in let more := Some (k, mkBr next ((None, c) :: kr)) in
  ordered_kids (good lim (Datatypes.S h)) lim lo hi (pieces (h := Datatypes.S h) u1 more) ->
  N' !! id = Some (NInternal (kid_entry <$> kl)) ->
  N' !! next = Some (NInternal (kid_entry <$> (None, c) :: kr)) -> Forall (fun c => in_mem N' h c.2) kids ->
  (forall x, x <> id -> (x < next)%Z -> N' !! x = N !! x) ->
  rebuilt lim h lo hi id kids N next u1 more N' (next + 1).
Proof.
  intros kids u1 more Ho Hl Hr Hm Hf. unfold kids in *. rewrite Forall_app, Forall_cons in Hm.
  destruct Hm as (Fl & Fc & Fr). split; try done; [| | |lia].
  - constructor; [by split|]. constructor; [|constructor]. split; [done|by constructor].
  - unfold pieces, u1, more. rewrite !kids_leaves_app, !kids_leaves_cons. cbn [snd].
    change (tree_leaves (Datatypes.S h) (mkBr id kl)) with (kids_leaves kl).
    change (tree_leaves (Datatypes.S h) (mkBr next ((None, c) :: kr))) with (kids_leaves ((None, c) :: kr)).
    rewrite kids_leaves_cons. change (kids_leaves (h := Datatypes.S h) []) with (@nil leaf). by rewrite app_nil_r.
  - exists [next]. split; [|split; [apply NoDup_singleton|intros x ->%list_elem_of_singleton; lia]].
    unfold pieces, u1, more. rewrite kids_ids_app, !kids_ids_cons. cbn [snd].
    change (tree_ids (Datatypes.S h) (mkBr id kl)) with (id :: kids_ids kl).
    change (tree_ids (Datatypes.S h) (mkBr next ((None, c) :: kr))) with (next :: kids_ids ((None, c) :: kr)).
    rewrite kids_ids_cons. change (kids_ids (h := Datatypes.S h) []) with (@nil PageId).
    rewrite app_nil_r. cbn [app snd]. apply perm_skip. by rewrite <-Permutation_middle.
Qed.

(** The pages of a branch that is split: the left half in its own page, the right half in a new one. *)
Lemma wpc_write_halves (n cap : nat) N (next id : PageId) (k : bytes) (left right : list InternalEntry) p fs
    (Q : option (bytes * PageId) -> BufferPool St -> fsys -> Prop)
    (X : BTreeError Er -> BufferPool St -> fsys -> Prop) (C : fsys -> Prop) :
  pool_nodes (Datatypes.S (Datatypes.S n)) cap ({[id]} ∪ ∅) ∅ p fs N next -> 1 < cap ->
  Forall in_u64 (ie_child <$> left) -> Forall in_u64 (ie_child <$> right) -> id <> next ->
  (forall U p' fs', pool_nodes n cap ({[id]} ∪ ∅) U p' fs'
     (<[next := NInternal right]> (<[id := NInternal left]> N)) (next + 1) -> Q (Some (k, next)) p' fs') ->
  (forall a b p fs, ~ node_fits (NInternal left) \/ ~ node_fits (NInternal right) -> X (BtPage (Full a b)) p fs) ->
  wpc no_faults (left_page ← lift_page (build_internal left);
    buf (set_page id left_page);;
    right_id ← buf (new_page BTreeInternal);
    right_page ← lift_page (build_internal right);
    buf (set_page right_id right_page);;
    buf (unpin right_id true);;
    mret (Some (k, right_id)) : T (option (bytes * PageId))) p fs Q X C.
Proof.
  intros Hn Hc Hl Hr Hne HQ HX. wpc_step.
  apply (wpc_build _ (NInternal left)); [by apply build_internal_builds| |intros; apply HX; by left].
  intros pg1 _ Hpg1. wpc_step. eapply nodes_set_page; [exact Hn|pinned|exact Hpg1|]. intros p2 Hn2.
  wpc_step. eapply nodes_new_page; [exact Hn2|by rewrite union_empty_r_L, size_singleton|].
  intros p3 fs3 Hn3 _ Hnx _. wpc_step.
  apply (wpc_build _ (NInternal right)); [by apply build_internal_builds| |intros; apply HX; by right].
  intros pg2 _ Hpg2. wpc_step. eapply nodes_set_page; [exact Hn3|pinned|exact Hpg2|]. intros p4 Hn4.
  wpc_step. eapply nodes_unpin; [exact Hn4|pinned|done|]. intros p5 Hn5. wpc_step.
  replace (({[next]} ∪ ({[id]} ∪ ∅)) ∖ {[next]} : gset PageId) with ({[id]} ∪ ∅ : gset PageId) in Hn5 by set_solver.
  by eapply HQ.
Qed.

(** The halves fit when every entry is short. *)
Lemma separator_halves_fit (lim h : nat) (lo hi b : bound) (c t1 t2 c' : tree h)
    (l r kl kr : list (option bytes * tree h)) (sep k : bytes) :
  let kids := replace_kid l b t1 (Some (sep, t2)) r in
  root_of h t1 = root_of h c -> node_fits (NInternal (kid_entry <$> l ++ (b, c) :: r)) ->
  ~ node_fits (NInternal (kid_entry <$> kids)) -> ordered_kids (good lim h) lim lo hi kids ->
  kids = kl ++ (Some k, c') :: kr -> length kl = split_at_midpoint (kid_entry <$> kids) -> lim <= MAX_ENTRY ->
  node_fits (NInternal (kid_entry <$> kl)) /\ node_fits (NInternal (kid_entry <$> (None, c') :: kr)).
Proof.
  intros kids Hroot Hfit Hf Hok Hk Hlen Hlim.
  pose proof (separator_entries h b c t1 t2 l r sep Hroot) as Hes. cbv zeta in Hes. fold kids in Hes.
  set (es := kid_entry <$> l ++ (b, c) :: r) in *.
  destruct (branch_halves_fit lim es (kid_entry <$> kids) (take (Datatypes.S (length l)) es)
    (drop (Datatypes.S (length l)) es) (mkInternal (Some sep) (root_of h t2))
    (mkInternal (Some k) (root_of h c')) (root_of h c')) as [F1 F2];
    [done|exact Hfit|by rewrite take_drop|by rewrite Hes|exact Hf| | |].
  - rewrite Forall_fmap. by eapply ordered_kids_sizes.
  - rewrite list_lookup_fmap, Hk, <-Hk, <-Hlen, Hk. by rewrite list_lookup_middle.
  - rewrite <-Hlen in F1, F2. rewrite Hk, fmap_app in F1, F2.
    rewrite take_app_length' in F1 by by rewrite length_fmap.
    rewrite fmap_cons, cons_middle, app_assoc, drop_app_length' in F2
      by (rewrite length_app, length_fmap; simpl; lia). done.
Qed.

(** The entries around the middle child. *)
Lemma middle_entries (h : nat) (kl kr : list (option bytes * tree h)) (k : bytes) (c : tree h) :
  let es := kid_entry <$> kl ++ (Some k, c) :: kr in
  es !! length kl = Some (mkInternal (Some k) (root_of h c)) /\
  take (length kl) es = kid_entry <$> kl /\ drop (length kl + 1) es = kid_entry <$> kr.
Proof.
  intros es. unfold es. rewrite fmap_app, fmap_cons. split_and!.
  - rewrite lookup_app_r, length_fmap, Nat.sub_diag by by rewrite length_fmap. done.
  - apply take_app_length'. by rewrite length_fmap.
  - rewrite cons_middle, app_assoc. apply drop_app_length'. rewrite length_app, length_fmap. simpl. lia.
Qed.

Lemma kids_u64 (n cap : nat) X U p fs N (next : PageId) (h : nat) (kids : list (option bytes * tree h)) :
  pool_nodes n cap X U p fs N next -> Forall (fun c => in_mem N h c.2) kids ->
  Forall in_u64 (ie_child <$> (kid_entry <$> kids)).
Proof.
  intros Hn Hm. pose proof (pool_nodes_range _ _ _ _ _ _ _ _ Hn) as [_ Hrange]. rewrite !Forall_fmap.
  eapply Forall_impl; [exact Hm|]. intros x Hx.
  pose proof (pn_ids _ _ _ _ _ _ _ _ Hn _ (in_mem_root N h x.2 Hx)). simpl. width_lia.
Qed.

Lemma wpc_insert_separator (lim n cap : nat) N (next id : PageId) (h : nat) (lo hi b : bound)
    (c t1 t2 : tree h) (l r : list (option bytes * tree h)) (sep : bytes) p fs
    (Q : option (bytes * PageId) -> BufferPool St -> fsys -> Prop)
    (X : BTreeError Er -> BufferPool St -> fsys -> Prop) (C : fsys -> Prop) :
  let kids := replace_kid l b t1 (Some (sep, t2)) r in
  pool_nodes (Datatypes.S (Datatypes.S (Datatypes.S n))) cap ∅ ∅ p fs N next -> 1 < cap ->
  N !! id = Some (NInternal (kid_entry <$> l ++ (b, c) :: r)) -> root_of h t1 = root_of h c ->
  ordered_kids (good lim h) lim lo hi (l ++ (b, c) :: r) ->
  (exists c0 m, l ++ (b, c) :: r = (None, c0) :: m) -> in_range (low lo b) (next_bound hi r) sep ->
  ordered_kids (good lim h) lim lo hi kids -> (exists c0 m, kids = (None, c0) :: m) ->
  Forall (fun c => in_mem N h c.2) kids -> id ∉ kids_ids kids ->
  (forall (u1 : tree (Datatypes.S h)) more N' next' p' fs', pool_nodes n cap ∅ ∅ p' fs' N' next' ->
     rebuilt lim h lo hi id kids N next u1 more N' next' -> Q (split_result more) p' fs') ->
  (forall e p' fs', too_large lim e -> X e p' fs') ->
  wpc no_faults (insert_separator id sep (root_of h t2) : T (option (bytes * PageId))) p fs Q X C.
Proof.
  intros kids Hn Hc Hnd Hroot Ho Hhead Hsep Hok Hhead' Hm Hid HQ HX.
  destruct (pool_nodes_rep _ _ _ _ _ _ _ _ _ _ Hn Hnd) as [Hfit Hlinks].
  unfold insert_separator. eapply nodes_open; [exact Hn|exact Hnd|lia|]. intros page p1 fs1 Hrep Hn1.
  destruct (branch_page N page _ Hrep) as [_ He]. unfold internal_entries. rewrite He.
  wpc_step. apply wpc_unwrap. wpc_step. rewrite (separator_place lim h lo hi b c l r sep Ho Hhead Hsep).
  apply wpc_unwrap. cbv zeta. rewrite (separator_entries h b c t1 t2 l r sep Hroot). fold kids. wpc_step.
  pose proof (pn_ids _ _ _ _ _ _ _ _ Hn id ltac:(by rewrite Hnd)) as Hidr.
  pose proof (fun m => kids_u64 _ _ _ _ _ _ _ _ h m Hn) as Hl64.
  assert (forall N', (forall x, x <> id -> (x < next)%Z -> N' !! x = N !! x) ->
    Forall (fun c => in_mem N' h c.2) kids) as Hframe.
  { intros N' HN'. eapply kids_in_mem_frame; [|exact Hm]. intros x Hx.
    apply HN'; [by intros ->|]. apply (pn_ids _ _ _ _ _ _ _ _ Hn). by eapply kids_ids_mem. }
  pose proof (build_internal_builds (kid_entry <$> kids) (Hl64 kids Hm)) as Hb.
  unfold builds in Hb. case_decide as Hf.
  - destruct Hb as (pg & -> & Hpg). wpc_step. eapply nodes_set_page; [exact Hn1|pinned|exact Hpg|].
    intros p2 Hn2. wpc_step. wpc_step. eapply nodes_release; [exact Hn2|done|]. intros p3 Hn3. wpc_step.
    assert (forall x, x <> id -> (x < next)%Z -> <[id := NInternal (kid_entry <$> kids)]> N !! x = N !! x) as HN'
      by (intros x Hx _; by apply lookup_insert_ne).
    apply (HQ (mkBr id kids) None (<[id := NInternal (kid_entry <$> kids)]> N) next p3 fs1); [eapply pool_nodes_weaken; [|exact Hn3]; lia|].
    apply rebuilt_whole; [done|done|apply lookup_insert_eq|by apply Hframe|done].
  - destruct Hb as (e1 & e2 & ->). cbv zeta.
    assert (2 <= length kids) as Hlen by (unfold kids, replace_kid; rewrite length_app; simpl; lia).
    pose proof (half_bounds (kid_entry <$> kids)) as Hhalf. rewrite length_fmap in Hhalf.
    rewrite (Nat.max_l _ 1) by lia. set (mid := split_at_midpoint (kid_entry <$> kids)) in *.
    destruct (branch_split lim h lo hi kids mid id next Hhead' Hok) as (kl & k & c' & kr & Hk & Hkl & Hpieces); [lia|].
    pose proof (separator_halves_fit lim h lo hi b c t1 t2 c' l r kl kr sep k Hroot Hfit Hf Hok Hk Hkl) as Hhv.
    pose proof Hm as Hm'. rewrite Hk, Forall_app, Forall_cons in Hm'. destruct Hm' as (Hml & Hmc & Hmr).
    destruct (middle_entries h kl kr k c') as (Hmid & Htake & Hdrop). rewrite <-Hk, Hkl in Hmid, Htake, Hdrop.
    rewrite Hmid. wpc_step. apply wpc_unwrap. wpc_step. apply wpc_unwrap. cbv zeta. rewrite Htake, Hdrop. cbn [ie_child].
    change (mkInternal None (root_of h c') :: (kid_entry <$> kr)) with (kid_entry <$> (None, c') :: kr).
    apply (wpc_write_halves n cap N next id k (kid_entry <$> kl) (kid_entry <$> (None, c') :: kr));
      [exact Hn1|done|by apply Hl64|by apply (Hl64 ((None, c') :: kr)), Forall_cons|lia| |].
    2: { intros a' b' p' fs' Hno. apply HX. split; [by do 2 eexists|].
         destruct (decide (MAX_ENTRY < lim)) as [|Hle]; [done|]. exfalso. destruct Hhv; [lia|tauto]. }
    intros U p4 fs4 Hn4. wpc_step. eapply nodes_unpin; [exact Hn4|pinned|done|]. intros p6 Hn6. wpc_step.
    apply pool_nodes_idle in Hn6; [|set_solver].
    set (N' := <[next := NInternal (kid_entry <$> (None, c') :: kr)]> (<[id := NInternal (kid_entry <$> kl)]> N)) in *.
    assert (forall x, x <> id -> (x < next)%Z -> N' !! x = N !! x) as HN'.
    { intros x Hx Hlt. unfold N'. rewrite !lookup_insert_ne; [done|done|lia]. }
    specialize (Hframe N' HN').
    apply (HQ (mkBr id kl) (Some (k, mkBr next ((None, c') :: kr))) N' (next + 1)%Z p6 fs4); [done|].
    rewrite Hk in Hframe |- *. apply rebuilt_split; try done; [|apply lookup_insert_eq].
    unfold N'. rewrite lookup_insert_ne by lia. apply lookup_insert_eq.
Qed.

(** ** The recursion *)

Lemma inserted_node (lim h : nat) (lo hi : bound) (t u1 : tree (Datatypes.S h)) (more : option (bytes * tree (Datatypes.S h)))
    (kids' : list (option bytes * tree h)) N N1 N2 (next next1 next2 : PageId) (key value : bytes) :
  kids_inserted lim h lo hi (br_kids t) N next key value kids' N1 next1 ->
  br_id t ∉ kids_ids (br_kids t) -> (br_id t < next)%Z ->
  (forall id, id ∈ kids_ids (br_kids t) -> (id < next)%Z) ->
  (next1 <= next + Z.of_nat (Datatypes.S h))%Z ->
  rebuilt lim h lo hi (br_id t) kids' N1 next1 u1 more N2 next2 ->
  inserted lim (Datatypes.S h) lo hi t N next key value u1 more N2 next2.
Proof.
  intros [K1 K2 K3 K4 K5 [G1 G2 G3 G4]] Hid Hlt Hold Hroom
    [Hroot Ho Hm Hlv (new & Hids & Hnew & Hrng) Hnn Hframe].
  assert (forall x, x ∈ kids_ids kids' -> (x < next1)%Z /\ x <> br_id t) as Hkids.
  { intros x Hx. destruct (G3 x Hx) as [Hx'|Hx']; [|lia]. specialize (Hold x Hx'). split; [lia|].
    intros ->. done. }
  split; [done|done|done| | | |lia].
  - rewrite tree_entries_S. unfold kids_entries at 2. by rewrite Hlv.
  - change (tree_leaves (Datatypes.S h) t) with (kids_leaves (br_kids t)). rewrite Hlv.
    eapply leaves_spliced_mono; [apply Hnn|done].
  - change (tree_ids (Datatypes.S h) t) with (br_id t :: kids_ids (br_kids t)). split; [lia| | |].
    + intros x Hni Hx. apply not_elem_of_cons in Hni as [Hne Hni]. rewrite Hframe; [by apply G2|done|lia].
    + intros x. rewrite Hids, elem_of_cons, elem_of_app. intros [->|[Hx|Hx]]; [left; left| |].
      * specialize (Hrng x Hx). right. lia.
      * destruct (G3 x Hx); [left; by right|right; lia].
    + rewrite Hids. apply NoDup_cons. split.
      * intros [Hx|Hx]%elem_of_app; [specialize (Hrng _ Hx); lia|]. by apply Hkids in Hx as [_ ?].
      * apply NoDup_app. split; [done|]. split; [|done]. intros x Hx Hx'.
        specialize (Hrng x Hx). apply Hkids in Hx' as [? _]. lia.
Qed.

(** The separator of two pieces lies in their range. *)
Lemma pieces_separator (lim h : nat) (lo hi : bound) (t1 t2 : tree h) (sep : bytes) :
  ordered_kids (good lim h) lim lo hi (pieces t1 (Some (sep, t2))) -> in_range lo hi sep.
Proof.
  unfold pieces. cbn [ordered_kids low next_bound]. intros (_ & P1 & _ & _ & _ & P2 & _). split; [|done].
  destruct lo; simpl in *; [|done]. key_order.
Qed.

Lemma wpc_insert_recursive (lim cap : nat) (key value : bytes) (h : nat) (t : tree h) (lo hi : bound)
    (fuel n : nat) N (next : PageId) p fs (Q : option (bytes * PageId) -> BufferPool St -> fsys -> Prop)
    (X : BTreeError Er -> BufferPool St -> fsys -> Prop) (C : fsys -> Prop) :
  h < fuel -> pool_nodes (4 * Datatypes.S h + n) cap ∅ ∅ p fs N next -> 1 < cap ->
  in_mem N h t -> good lim h lo hi t -> in_range lo hi key -> length key + length value <= lim ->
  NoDup (tree_ids h t) ->
  (forall t1 more N' next' p' fs', pool_nodes n cap ∅ ∅ p' fs' N' next' ->
     inserted lim h lo hi t N next key value t1 more N' next' -> Q (split_result more) p' fs') ->
  (forall e p' fs', too_large lim e -> X e p' fs') ->
  wpc no_faults (insert_recursive fuel (root_of h t) key value : T (option (bytes * PageId))) p fs Q X C.
Proof.
  revert t lo hi fuel n N next p fs Q. induction h as [|h IH];
    intros t lo hi fuel n N next p fs Q Hfuel Hn Hc Hm Hg Hr Hkv Hnd HQ HX;
    (destruct fuel as [|fuel]; [lia|]); cbn [insert_recursive root_of].
  - eapply (nodes_open (2 + n)); [eapply pool_nodes_weaken; [|exact Hn]; lia|exact Hm|lia|]. intros page p1 fs1 Hrep Hn1.
    destruct (leaf_page page t Hrep) as (-> & _). by eapply (wpc_insert_leaf lim n cap N next t lo hi).
  - pose proof Hm as [Hroot Hkids].
    eapply (nodes_open (4 * Datatypes.S h + (3 + n))); [eapply pool_nodes_weaken; [|exact Hn]; lia|exact Hroot|lia|].
    intros page p1 fs1 Hrep Hn1. destruct (branch_page N page _ Hrep) as [-> He].
    unfold internal_entries. rewrite He.
    destruct (branch_route lim h lo hi t key Hg Hr) as (l & b & c & r & Hk & _ & Hroute & Hr' & Hg' & Hb & Hl & Hrr).
    wpc_step. apply wpc_unwrap. wpc_step. rewrite Hroute. apply wpc_unwrap. wpc_step.
    eapply nodes_release; [exact Hn1|done|]. intros p2 Hn2. wpc_step.
    change (tree_ids (Datatypes.S h) t) with (br_id t :: kids_ids (br_kids t)) in Hnd.
    apply NoDup_cons in Hnd as [Hni Hnd].
    assert (forall id, is_Some (N !! id) -> (id < next)%Z) as Hlt.
    { intros id Hs. apply (pn_ids _ _ _ _ _ _ _ _ Hn2) in Hs. lia. }
    destruct Hg as [Hhead Ho]. rewrite Hk in Hkids, Hnd, Hhead, Ho, Hni, Hroot.
    pose proof Hnd as Hndc. rewrite kids_ids_app, kids_ids_cons in Hndc.
    apply NoDup_app in Hndc as (_ & _ & Hndc). apply NoDup_app in Hndc as (Hndc & _ & _).
    assert (in_mem N h c) as Hmc by (rewrite Forall_app, Forall_cons in Hkids; apply Hkids).
    apply (IH c (low lo b) (next_bound hi r) fuel (3 + n) N next); try done; [lia|].
    intros t1 more N1 next1 p3 fs3 Hn3 Hins.
    pose proof (kids_inserted_intro lim h lo hi b c t1 more l r N N1 next next1 key value Ho Hhead Hr' Hkids Hnd Hlt Hins) as Hki.
    pose proof (is_room _ _ _ _ _ _ _ _ _ _ _ _ _ Hins) as Hroom.
    set (kids' := replace_kid l b t1 more r) in *.
    assert (forall id, id ∈ kids_ids (br_kids t) -> (id < next)%Z) as Hold.
    { rewrite Hk. intros id Hid. apply Hlt. by eapply kids_ids_mem. }
    assert (br_id t < next)%Z as Hidlt by (apply Hlt; rewrite Hroot; by eexists).
    assert (br_id t ∉ kids_ids (br_kids t)) as Hni' by by rewrite Hk.
    assert (kids_inserted lim h lo hi (br_kids t) N next key value kids' N1 next1) as Hki' by (rewrite Hk; exact Hki).
    clear Hki. rename Hki' into Hki. pose proof (gr_frame _ _ _ _ _ _ (ki_grown _ _ _ _ _ _ _ _ _ _ _ _ Hki) (br_id t) Hni' Hidlt) as Hsame.
    assert (br_id t ∉ kids_ids kids') as Hni2.
    { intros Hin. destruct (gr_ids _ _ _ _ _ _ (ki_grown _ _ _ _ _ _ _ _ _ _ _ _ Hki) _ Hin); [done|lia]. }
    destruct more as [[sep t2]|]; cbn [split_result fmap option_fmap option_map fst snd].
    + pose proof (is_ordered _ _ _ _ _ _ _ _ _ _ _ _ _ Hins) as Hop.
      pose proof (pieces_separator _ _ _ _ _ _ _ Hop) as Hsep.
      eapply (wpc_insert_separator lim n cap N1 next1 (br_id t) h lo hi b c t1 t2 l r sep p3 fs3);
        [exact Hn3|done| |apply (is_root _ _ _ _ _ _ _ _ _ _ _ _ _ Hins)|done|done|done|apply Hki|apply Hki|apply Hki|done| |done].
      * rewrite Hsame. exact Hroot.
      * intros u1 more N' next' p' fs' Hn' Hrb. apply (HQ u1 more N' next'); [done|].
        by eapply (inserted_node lim h lo hi t u1 more kids' N N1 N' next next1 next' key value Hki).
    + wpc_step. apply (HQ (mkBr (br_id t) kids') None N1 next1 p3 fs3); [eapply pool_nodes_weaken; [|exact Hn3]; lia|].
      eapply (inserted_node lim h lo hi t _ None kids' N N1 N1 next next1 next1 key value Hki); [done|done|done|lia|].
      apply rebuilt_whole; [apply Hki|apply Hki| |apply Hki|done].
      rewrite Hsame, Hroot. unfold kids', replace_kid. rewrite !fmap_app, !fmap_cons. cbn [app].
      unfold kid_entry at 2 5. cbn [fst snd]. by rewrite (is_root _ _ _ _ _ _ _ _ _ _ _ _ _ Hins).
Qed.
End insert.
