(* ===== verification/BTreeDelete.v ===== *)
(** * BTreeDelete: deletion from the B+tree

    Deletion removes the entry from its leaf; a child that has become empty is dropped by its
    parent, unless it is the only one, and then the parent has become empty as well. The dropped
    leaves stay in the chain, empty. No deletion fails. *)
From S2P Require Export BTreeInsert.

(** ** Lists of children *)

Lemma weave_drop (ls : list leaf) : concat (lf_entries <$> ls) = [] -> weave ls [].
Proof.
  induction ls as [|l ls IH]; [constructor|]. rewrite fmap_cons. cbn [concat].
  intros [H1 H2]%app_eq_nil. constructor; [done|by apply IH].
Qed.

Lemma ordered_kids_drop (lim h : nat) (lo hi b : bound) (c : tree h) (l r : list (option bytes * tree h)) :
  ordered_kids (good lim h) lim lo hi (l ++ (b, c) :: r) -> l <> [] ->
  ordered_kids (good lim h) lim lo hi (l ++ r).
Proof.
  intros Ho Hne. apply ordered_kids_app in Ho as (Hl & (_ & Hp & Hk & _ & Hr) & Hb). specialize (Hb Hne).
  destruct b as [k|]; [|done]. cbn [next_bound low] in *.
  apply ordered_kids_app. split; [|done]. eapply ordered_kids_mono; [| |exact Hl].
  - intros. by eapply good_wider.
  - by apply wider_hi.
Qed.

Lemma ordered_kids_promote (lim h : nat) (lo hi : bound) (c c1 : tree h) (k : bytes) (r : list (option bytes * tree h)) :
  ordered_kids (good lim h) lim lo hi ((None, c) :: (Some k, c1) :: r) ->
  ordered_kids (good lim h) lim lo hi ((None, c1) :: r).
Proof.
  intros (_ & Hp & _ & _ & Hr). apply ordered_kids_unkey in Hr. cbn [low next_bound] in Hp.
  eapply ordered_kids_mono; [| |exact Hr].
  - intros. by eapply good_wider.
  - apply wider_lo. destruct lo; simpl in *; [|done]. apply kle_iff. by left.
Qed.

(** Replacing a child by one with the same root and range. *)
Lemma ordered_kids_same (lim h : nat) (lo hi b : bound) (c c1 : tree h) (l r : list (option bytes * tree h)) :
  ordered_kids (good lim h) lim lo hi (l ++ (b, c) :: r) -> good lim h (low lo b) (next_bound hi r) c1 ->
  ordered_kids (good lim h) lim lo hi (l ++ (b, c1) :: r).
Proof.
  intros Ho Hg. apply ordered_kids_app in Ho as (Hl & (_ & Hp & Hk & Hb & Hr) & Hne).
  apply ordered_kids_app. split; [exact Hl|]. split; [|exact Hne]. done.
Qed.

(** ** The result of a deletion from a subtree *)

(** A subtree that has become empty is an empty leaf, or a branch with a single child. *)
Definition emptied_shape (h : nat) : tree h -> Prop :=
  match h with
  | O => fun t => lf_entries t = []
  | Datatypes.S h' => fun t => exists c, br_kids t = [(None, c)]
  end.

Record deleted (lim h : nat) (lo hi : bound) (t : tree h) (N : gmap PageId Node) (key : bytes)
    (found emptied : bool) (t1 : tree h) (N' : gmap PageId Node) : Prop := {
  de_root : root_of h t1 = root_of h t;
  de_good : good lim h lo hi t1;
  de_mem : in_mem N' h t1;
  de_entries : entry_update key [] (tree_entries h t) (tree_entries h t1);
  de_found : found = bool_decide (is_Some (find_entry key (tree_entries h t)));
  de_emptied : emptied = true -> tree_entries h t1 = [] /\ emptied_shape h t1;
  de_leaves : exists a l l' b, tree_leaves h t = a ++ l :: b /\ lf_id l' = lf_id l /\ lf_next l' = lf_next l /\
    weave (a ++ l' :: b) (tree_leaves h t1) /\
    Forall (fun x => N' !! lf_id x = Some (leaf_node x)) (a ++ l' :: b);
  de_frame : forall id, id ∉ tree_ids h t -> N' !! id = N !! id;
  de_ids : tree_ids h t1 `sublist_of` tree_ids h t;
}.

(** The entries of a leaf without a key, as [delete_leaf] computes them. *)
Definition remove_entry (key : bytes) (es : list Entry) : list Entry * bool :=
  match binary_search es key with
  | inl i => (take i es ++ drop (i + 1) es, true)
  | inr _ => (es, false)
  end.

Lemma remove_entry_update (key : bytes) (es : list Entry) :
  StronglySorted key_lt es ->
  entry_update key [] es (remove_entry key es).1 /\
  (remove_entry key es).2 = bool_decide (is_Some (find_entry key es)) /\
  sum_list_with entry_space (remove_entry key es).1 <= sum_list_with entry_space es /\
  ((remove_entry key es).2 = false -> (remove_entry key es).1 = es).
Proof.
  intros Hs. pose proof (binary_search_spec es key Hs) as Hb. unfold remove_entry.
  destruct (binary_search es key) as [i|i]; cbn [fst snd].
  - destruct Hb as (l & v & r & -> & -> & Hl & Hr).
    assert (drop (length l + 1) (l ++ (key, v) :: r) = r) as Hd.
    { rewrite cons_middle, app_assoc. apply drop_app_length'. rewrite length_app. simpl. lia. }
    rewrite take_app_length, Hd. split; [|split; [|split; [|done]]].
    + exists l, [(key, v)], r. split; [done|]. split; [done|]. split; [done|]. split; [done|right; by eexists].
    + change ((key, v) :: r) with ([(key, v)] ++ r).
      rewrite (find_entry_middle key l [(key, v)] r Hl Hr). unfold find_entry.
      rewrite filter_cons, decide_True by done. by rewrite bool_decide_true by by eexists.
    + rewrite !sum_list_with_app, sum_list_with_cons. lia.
  - destruct Hb as (l & r & -> & -> & Hl & Hr). split; [|split; [|done]].
    + exists l, [], r. split; [done|]. split; [done|]. split; [done|]. split; [done|by left].
    + change r with ([] ++ r). rewrite (find_entry_middle key l [] r Hl Hr).
      by rewrite bool_decide_false by by intros [].
Qed.

Section delete.
Context `{PageStoreLaws St Er}.

Implicit Types (p : BufferPool St) (fs : fsys) (N : gmap PageId Node).

Abbreviation T := (M (BufferPool St) (BTreeError Er)).

Lemma wpc_delete_leaf (lim n cap : nat) N (next : PageId) (t : leaf) (lo hi : bound) (key : bytes) p fs
    (Q : bool * bool -> BufferPool St -> fsys -> Prop)
    (X : BTreeError Er -> BufferPool St -> fsys -> Prop) (C : fsys -> Prop) :
  pool_nodes n cap ({[lf_id t]} ∪ ∅) ∅ p fs N next ->
  in_mem N 0 t -> good lim 0 lo hi t ->
  (forall found emptied t1 N' p' fs', pool_nodes n cap ∅ ∅ p' fs' N' next ->
     deleted lim 0 lo hi t N key found emptied t1 N' -> Q (found, emptied) p' fs') ->
  wpc no_faults (delete_leaf (lf_id t) key : T (bool * bool)) p fs Q X C.
Proof.
  intros Hn Hm Hg HQ. pose proof Hg as (Hs & Hr & Hz).
  destruct (remove_entry_update key (lf_entries t) Hs) as (Hu & Hfound & Hsp & Hsame).
  destruct (pool_nodes_rep _ _ _ _ _ _ _ _ _ _ Hn Hm) as [Hfit Hlinks]. apply Forall_inv in Hlinks.
  unfold delete_leaf. wpc_step. eapply nodes_the_page; [exact Hn|pinned|exact Hm|]. intros page Hrep.
  destruct (leaf_page page t Hrep) as (_ & He & Hsib). unfold leaf_entries. rewrite He, Hsib.
  wpc_step. apply wpc_unwrap. wpc_step. apply wpc_unwrap. fold (remove_entry key (lf_entries t)).
  destruct (remove_entry key (lf_entries t)) as [es found] eqn:Er0. cbn [fst snd] in *.
  set (t1 := mkLf (lf_id t) es (lf_next t)).
  assert (good lim 0 lo hi t1) as Hg1.
  { split; [|split]; simpl.
    - eapply entry_update_sorted; [exact Hu|by left|done].
    - eapply entry_update_Forall; [exact Hu|constructor|done].
    - eapply entry_update_Forall; [exact Hu|constructor|done]. }
  assert (forall N', N' !! lf_id t = Some (leaf_node t1) -> (forall id, id <> lf_id t -> N' !! id = N !! id) ->
    deleted lim 0 lo hi t N key found (bool_decide (es = [])) t1 N') as Hdel.
  { intros N' HN HN'. split; try done.
    - unfold tree_entries. simpl. by rewrite !app_nil_r.
    - rewrite Hfound. unfold tree_entries. simpl. by rewrite app_nil_r.
    - intros Hd%bool_decide_eq_true. split; [|done]. unfold tree_entries. simpl. by rewrite Hd.
    - exists [], t, t1, []. split; [done|]. split; [done|]. split; [done|]. split; [apply weave_refl|].
      by constructor.
    - intros id Hid. apply HN'. set_solver. }
  wpc_step. destruct found.
  - pose proof (build_leaf_builds es (lf_next t) Hlinks) as Hb.
    destruct (builds_fits _ _ Hb) as (pg & -> & Hpg).
    { unfold node_fits, leaf_node in *. rewrite leaf_space in *. lia. }
    wpc_step. apply wpc_lift_ok. eapply nodes_set_page; [exact Hn|pinned|exact Hpg|]. intros p1 Hn1. wpc_step.
    eapply nodes_release; [exact Hn1|done|]. intros p2 Hn2. wpc_step. eapply HQ; [exact Hn2|].
    apply Hdel; [apply lookup_insert_eq|]. intros id Hid. by apply lookup_insert_ne.
  - wpc_step. wpc_step. eapply nodes_release; [exact Hn|done|]. intros p2 Hn2. wpc_step.
    eapply HQ; [exact Hn2|]. apply Hdel; [|done]. rewrite Hm. unfold leaf_node, t1. simpl. by rewrite (Hsame eq_refl).
Qed.

(** The children after one of them became empty, as [delete_child] computes them. *)
Definition drop_kid {T0 : Type} (l r : list (option bytes * T0)) : list (option bytes * T0) :=
  match l with
  | [] => match r with (_, c) :: r' => (None, c) :: r' | [] => [] end
  | _ => l ++ r
  end.

Lemma drop_kid_ordered (lim h : nat) (lo hi b : bound) (c : tree h) (l r : list (option bytes * tree h)) :
  ordered_kids (good lim h) lim lo hi (l ++ (b, c) :: r) ->
  (exists c0 m, l ++ (b, c) :: r = (None, c0) :: m) -> l ++ r <> [] ->
  ordered_kids (good lim h) lim lo hi (drop_kid l r) /\ exists c0 m, drop_kid l r = (None, c0) :: m.
Proof.
  intros Ho (c0 & m & Hhead) Hne. destruct l as [|x l]; cbn [drop_kid].
  - destruct r as [|[b1 c1] r]; [done|]. injection Hhead as -> _ _. split; [|by do 2 eexists].
    destruct b1 as [k|]; [by eapply ordered_kids_promote|]. by destruct Ho as (_ & _ & [] & _).
  - split; [by eapply ordered_kids_drop|]. injection Hhead as -> _. by do 2 eexists.
Qed.

(** The unkeyed parts of children. *)
Lemma drop_kid_snd {T0 : Type} (l r : list (option bytes * T0)) : snd <$> drop_kid l r = snd <$> l ++ r.
Proof. destruct l as [|x l]; [|done]. by destruct r as [|[]]. Qed.

Lemma kids_snd {h : nat} (m1 m2 : list (option bytes * tree h)) :
  snd <$> m1 = snd <$> m2 -> kids_leaves m1 = kids_leaves m2 /\ kids_ids m1 = kids_ids m2 /\
  kids_entries m1 = kids_entries m2.
Proof.
  intros Hs. assert (kids_leaves m1 = kids_leaves m2) as Hl.
  { unfold kids_leaves. f_equal. change (fun c : option bytes * tree h => tree_leaves h c.2) with (tree_leaves h ∘ @snd (option bytes) (tree h)).
    by rewrite !list_fmap_compose, Hs. }
  split; [done|]. split; [|unfold kids_entries; by rewrite Hl].
  unfold kids_ids. f_equal. change (fun c : option bytes * tree h => tree_ids h c.2) with (tree_ids h ∘ @snd (option bytes) (tree h)).
  by rewrite !list_fmap_compose, Hs.
Qed.

Lemma drop_kid_space {h : nat} (l r : list (option bytes * tree h)) (x : option bytes * tree h) :
  sum_list_with kid_space (kid_entry <$> drop_kid l r) <= sum_list_with kid_space (kid_entry <$> l ++ x :: r).
Proof.
  destruct l as [|y l]; cbn [drop_kid app].
  - destruct r as [|[b1 c1] r]; [simpl; lia|]. rewrite !fmap_cons, !sum_list_with_cons.
    unfold kid_space, kid_entry. simpl. lia.
  - rewrite !app_comm_cons, !fmap_app, (fmap_cons _ x), !sum_list_with_app, (sum_list_with_cons _ (kid_entry x)). lia.
Qed.

Lemma wpc_delete_child (n cap : nat) N (next id : PageId) (h : nat) (l r : list (option bytes * tree h))
    (x : option bytes * tree h) p fs
    (Q : bool * bool -> BufferPool St -> fsys -> Prop)
    (X : BTreeError Er -> BufferPool St -> fsys -> Prop) (C : fsys -> Prop) :
  pool_nodes (Datatypes.S n) cap ∅ ∅ p fs N next -> 0 < cap ->
  N !! id = Some (NInternal (kid_entry <$> l ++ x :: r)) ->
  (l ++ r = [] -> forall p' fs', pool_nodes n cap ∅ ∅ p' fs' N next -> Q (true, true) p' fs') ->
  (l ++ r <> [] -> forall p' fs',
     pool_nodes n cap ∅ ∅ p' fs' (<[id := NInternal (kid_entry <$> drop_kid l r)]> N) next ->
     Q (true, false) p' fs') ->
  wpc no_faults (delete_child id (length l) : T (bool * bool)) p fs Q X C.
Proof.
  intros Hn Hc Hnd HQ1 HQ2. destruct (pool_nodes_rep _ _ _ _ _ _ _ _ _ _ Hn Hnd) as [Hfit Hlinks].
  unfold delete_child. eapply nodes_open; [exact Hn|exact Hnd|lia|]. intros page p1 fs1 Hrep Hn1.
  destruct (branch_page N page _ Hrep) as [_ He]. unfold internal_entries. rewrite He.
  wpc_step. apply wpc_unwrap.
  destruct (decide (l ++ r = [])) as [Hnil|Hne].
  - apply app_nil in Hnil as [-> ->]. cbn [app fmap list_fmap length Nat.eqb andb].
    wpc_step. eapply nodes_release; [exact Hn1|done|]. intros p2 Hn2. wpc_step. by apply HQ1.
  - assert ((length l =? 0) && (length (kid_entry <$> l ++ x :: r) =? 1) = false) as ->.
    { rewrite length_fmap, length_app. destruct l as [|y l]; [|done]. destruct r; [done|]. done. }
    assert ((if length l =? 0
      then match kid_entry <$> l ++ x :: r with
           | _ :: e :: rest => Some (mkInternal None (ie_child e) :: rest)
           | _ => None
           end
      else if decide (length l < length (kid_entry <$> l ++ x :: r))
           then Some (take (length l) (kid_entry <$> l ++ x :: r) ++
                      drop (length l + 1) (kid_entry <$> l ++ x :: r))
           else None) = Some (kid_entry <$> drop_kid l r)) as ->.
    { destruct l as [|y l].
      - destruct r as [|[b1 c1] r]; [done|]. done.
      - cbn [length Nat.eqb]. rewrite decide_True by (rewrite length_fmap, length_app; simpl; lia).
        f_equal. cbn [drop_kid]. rewrite <-fmap_take, <-fmap_drop, <-fmap_app. f_equal.
        rewrite take_app_length' by done. f_equal. rewrite (cons_middle x), app_assoc.
        apply drop_app_length'. rewrite length_app. simpl. lia. }
    wpc_step. apply wpc_unwrap. wpc_step.
    pose proof (build_internal_builds (kid_entry <$> drop_kid l r)) as Hb.
    assert (Forall in_u64 (ie_child <$> (kid_entry <$> drop_kid l r))) as Hl64.
    { cbn [node_links] in Hlinks. rewrite <-!list_fmap_compose in *.
      change (ie_child ∘ kid_entry (h := h)) with (root_of h ∘ (@snd (option bytes) (tree h))) in *.
      rewrite !list_fmap_compose in *. rewrite drop_kid_snd. rewrite fmap_app, fmap_cons in Hlinks.
      rewrite fmap_app in Hlinks. cbn [app] in Hlinks. rewrite fmap_app, fmap_app.
      rewrite Forall_app in *. rewrite fmap_cons, Forall_cons in Hlinks. tauto. }
    destruct (builds_fits _ _ (Hb Hl64)) as (pg & -> & Hpg).
    { unfold node_fits in *. rewrite internal_space in *. pose proof (drop_kid_space l r x). lia. }
    apply wpc_lift_ok. wpc_step. eapply nodes_set_page; [exact Hn1|set_solver|exact Hpg|]. intros p2 Hn2.
    wpc_step. eapply nodes_release; [exact Hn2|done|]. intros p3 Hn3. wpc_step.
    assert (bool_decide (length (kid_entry <$> drop_kid l r) = 0) = false) as ->.
    { apply bool_decide_eq_false. rewrite length_fmap, <-(length_fmap snd), drop_kid_snd, length_fmap.
      intros Hz%nil_length_inv. done. }
    by apply HQ2.
Qed.

(** ** From a child to its node *)

(** A node with a child that has been deleted from. *)
Section node.
Context (lim h : nat) (lo hi b : bound) (id : PageId) (c c1 : tree h) (l r : list (option bytes * tree h)).
Context (N N1 : gmap PageId Node) (key : bytes) (found emptied : bool).

Abbreviation kids := (l ++ (b, c) :: r).

Context (Hgood : good lim (Datatypes.S h) lo hi (mkBr id kids)).
Context (Hmem : in_mem N (Datatypes.S h) (mkBr id kids)).
Context (Hnd : NoDup (tree_ids (Datatypes.S h) (mkBr id kids))).
Context (Hkey : in_range (low lo b) (next_bound hi r) key).
Context (Hdel : deleted lim h (low lo b) (next_bound hi r) c N key found emptied c1 N1).

Lemma kid_deleted_facts :
  Forall (fun x => in_mem N1 h x.2) l /\ Forall (fun x => in_mem N1 h x.2) r /\ N1 !! id = N !! id /\
  keys_below (kids_entries l) key /\ keys_above key (kids_entries r).
Proof using Hgood Hmem Hnd Hkey Hdel.
  destruct Hgood as [Hhead Ho], Hmem as [Hroot Hkids]. cbn [br_kids br_id] in *.
  change (tree_ids (Datatypes.S h) (mkBr id kids)) with (id :: kids_ids kids) in Hnd.
  apply NoDup_cons in Hnd as [Hni Hnd2]. rewrite kids_ids_app, kids_ids_cons in Hni, Hnd2. cbn [snd] in *.
  apply NoDup_app in Hnd2 as (_ & Hd1 & Hd2). apply NoDup_app in Hd2 as (_ & Hd2 & _).
  rewrite !elem_of_app in Hni. rewrite Forall_app, Forall_cons in Hkids. destruct Hkids as (Hl & _ & Hr).
  pose proof (de_frame _ _ _ _ _ _ _ _ _ _ _ Hdel) as Hframe. split; [|split; [|split]].
  - eapply kids_in_mem_frame; [|exact Hl]. intros x Hx. apply Hframe. intros Hc.
    apply (Hd1 x Hx), elem_of_app. by left.
  - eapply kids_in_mem_frame; [|exact Hr]. intros x Hx. apply Hframe. intros Hc. by apply (Hd2 x Hc).
  - apply Hframe. tauto.
  - pose proof (kid_siblings lim h lo hi b c l r key Ho Hhead Hkey) as (_ & _ & Hs). exact Hs.
Qed.

(** The leaves, where the child contributes [ls]. *)
Lemma deleted_leaves (ls : list leaf) (N2 : gmap PageId Node) :
  weave (tree_leaves h c1) ls ->
  (forall x nd, N1 !! x = Some nd -> (forall es, nd <> NInternal es) -> N2 !! x = Some nd) ->
  exists a y y' d, kids_leaves kids = a ++ y :: d /\ lf_id y' = lf_id y /\ lf_next y' = lf_next y /\
    weave (a ++ y' :: d) (kids_leaves l ++ ls ++ kids_leaves r) /\
    Forall (fun x => N2 !! lf_id x = Some (leaf_node x)) (a ++ y' :: d).
Proof using Hgood Hmem Hnd Hkey Hdel.
  intros Hls HN2. destruct kid_deleted_facts as (Hl & Hr & _).
  destruct (de_leaves _ _ _ _ _ _ _ _ _ _ _ Hdel) as (a & y & y' & d & Hlv & Hid & Hnx & Hw & Hall).
  exists (kids_leaves l ++ a), y, y', (d ++ kids_leaves r). split; [|split; [done|split; [done|split]]].
  - rewrite kids_leaves_app, kids_leaves_cons. cbn [snd]. rewrite Hlv. by rewrite <-!app_assoc.
  - rewrite <-app_assoc, app_comm_cons, (app_assoc a). apply weave_app; [apply weave_refl|].
    apply weave_app; [by eapply weave_trans|apply weave_refl].
  - assert (forall m, Forall (fun x => in_mem N1 h x.2) m ->
      Forall (fun x => N2 !! lf_id x = Some (leaf_node x)) (kids_leaves m)) as Hkl.
    { intros m Hm. apply Forall_concat, Forall_fmap. eapply Forall_impl; [exact Hm|]. intros x Hx.
      eapply (Forall_impl _ _ (tree_leaves h x.2)); [exact (in_mem_leaves N1 h x.2 Hx)|].
      intros z Hz. by eapply HN2. }
    rewrite <-app_assoc, app_comm_cons, (app_assoc a). apply Forall_app. split; [by apply Hkl|].
    apply Forall_app. split; [|by apply Hkl]. eapply Forall_impl; [exact Hall|]. intros z Hz. by eapply HN2.
Qed.

Lemma kids_sublist (m : list (option bytes * tree h)) (ids : list PageId) :
  kids_ids m = kids_ids l ++ ids ++ kids_ids r -> ids `sublist_of` tree_ids h c ->
  id :: kids_ids m `sublist_of` id :: kids_ids kids.
Proof.
  intros -> Hs. apply sublist_skip. rewrite kids_ids_app, kids_ids_cons. cbn [snd].
  apply sublist_app; [done|]. by apply sublist_app.
Qed.

(** The child stays. *)
Lemma deleted_keep :
  deleted lim (Datatypes.S h) lo hi (mkBr id kids) N key found
    (emptied && bool_decide (l ++ r = [])) (mkBr id (l ++ (b, c1) :: r)) N1.
Proof using Hgood Hmem Hnd Hkey Hdel.
  destruct kid_deleted_facts as (Hl & Hr & Hid & Hbl & Har). pose proof Hdel as [D1 D2 D3 D4 D5 D6 _ D8 D9].
  pose proof Hgood as [(c0 & m & Hhead) Ho]. cbn [br_kids] in *. split.
  - done.
  - split; [|by eapply ordered_kids_same]. cbn [br_kids]. destruct l as [|x l']; [|injection Hhead as -> _; by do 2 eexists].
    injection Hhead as -> _ _. by do 2 eexists.
  - split; cbn [br_kids br_id].
    + rewrite Hid. destruct Hmem as [Hroot _]. cbn [br_kids br_id] in Hroot. rewrite Hroot. rewrite !fmap_app, !fmap_cons. unfold kid_entry at 2 5.
      cbn [fst snd]. by rewrite D1.
    + rewrite Forall_app, Forall_cons. done.
  - rewrite !tree_entries_S. cbn [br_kids]. rewrite !kids_entries_app, !kids_entries_cons. cbn [snd].
    by apply entry_update_app.
  - rewrite D5, tree_entries_S. cbn [br_kids]. rewrite kids_entries_app, kids_entries_cons. cbn [snd].
    by rewrite find_entry_middle.
  - intros [He Hnil%bool_decide_eq_true]%andb_true_iff. apply D6 in He as [He _].
    apply app_nil in Hnil as [-> ->]. split.
    + rewrite tree_entries_S. cbn [br_kids app]. rewrite kids_entries_cons. cbn [snd]. by rewrite He.
    + cbn [app] in Hhead. injection Hhead as -> _ _. cbn [app emptied_shape br_kids]. by exists c1.
  - change (tree_leaves (Datatypes.S h) (mkBr id (l ++ (b, c1) :: r))) with (kids_leaves (l ++ (b, c1) :: r)).
    rewrite kids_leaves_app, kids_leaves_cons. by apply deleted_leaves; [apply weave_refl|].
  - intros x Hx. apply D8. change (tree_ids (Datatypes.S h) (mkBr id kids)) with (id :: kids_ids kids) in Hx.
    rewrite kids_ids_app, kids_ids_cons in Hx. cbn [snd] in Hx. set_solver.
  - apply (kids_sublist (l ++ (b, c1) :: r) (tree_ids h c1)); [|done]. by rewrite kids_ids_app, kids_ids_cons.
Qed.

(** The child is dropped. *)
Lemma deleted_drop :
  emptied = true -> l ++ r <> [] ->
  deleted lim (Datatypes.S h) lo hi (mkBr id kids) N key found false (mkBr id (drop_kid l r))
    (<[id := NInternal (kid_entry <$> drop_kid l r)]> N1).
Proof using Hgood Hmem Hnd Hkey Hdel.
  intros Hemp Hne. destruct kid_deleted_facts as (Hl & Hr & Hid & Hbl & Har). pose proof Hdel as [D1 D2 D3 D4 D5 D6 _ D8 D9].
  destruct (D6 Hemp) as [He _].
  pose proof Hgood as [Hhead Ho]. cbn [br_kids] in *.
  destruct (drop_kid_ordered lim h lo hi b c l r Ho Hhead Hne) as [Ho' Hhead'].
  destruct (kids_snd _ _ (drop_kid_snd l r)) as (Elv & Eid & Een).
  assert (forall x nd, N1 !! x = Some nd -> (forall es, nd <> NInternal es) ->
    <[id := NInternal (kid_entry <$> drop_kid l r)]> N1 !! x = Some nd) as HN2.
  { intros x nd Hx Hint. rewrite lookup_insert_ne; [done|]. intros <-. rewrite Hid in Hx.
    destruct Hmem as [Hroot _]. cbn [br_id] in Hroot. rewrite Hroot in Hx. injection Hx as <-. by eapply Hint. }
  split.
  - done.
  - done.
  - split; [apply lookup_insert_eq|]. cbn [br_kids].
    assert (Forall (fun x => in_mem N1 h x) (snd <$> drop_kid l r)) as Hk.
    { rewrite drop_kid_snd, Forall_fmap. apply Forall_app. done. }
    rewrite Forall_fmap in Hk. eapply kids_in_mem_frame; [|exact Hk]. intros x Hx.
    apply lookup_insert_ne. intros ->. rewrite Eid, kids_ids_app in Hx.
    change (tree_ids (Datatypes.S h) (mkBr x kids)) with (x :: kids_ids kids) in Hnd.
    apply NoDup_cons in Hnd as [Hni _]. apply Hni. rewrite kids_ids_app, kids_ids_cons. set_solver.
  - rewrite !tree_entries_S. cbn [br_kids]. rewrite Een, !kids_entries_app, kids_entries_cons. cbn [snd].
    rewrite He in D4. by apply (entry_update_app key [] _ [] (kids_entries l) (kids_entries r)) in D4.
  - rewrite D5, tree_entries_S. cbn [br_kids]. rewrite kids_entries_app, kids_entries_cons. cbn [snd].
    by rewrite find_entry_middle.
  - done.
  - change (tree_leaves (Datatypes.S h) (mkBr id (drop_kid l r))) with (kids_leaves (drop_kid l r)).
    rewrite Elv, kids_leaves_app. apply (deleted_leaves []); [|exact HN2]. by apply weave_drop.
  - intros x Hx. change (tree_ids (Datatypes.S h) (mkBr id kids)) with (id :: kids_ids kids) in Hx.
    rewrite kids_ids_app, kids_ids_cons in Hx. cbn [snd] in Hx. rewrite lookup_insert_ne by set_solver.
    apply D8. set_solver.
  - apply (kids_sublist (drop_kid l r) []); [|apply sublist_nil_l]. by rewrite Eid, kids_ids_app.
Qed.
End node.

Lemma wpc_delete_recursive (lim cap : nat) (key : bytes) (h : nat) (t : tree h) (lo hi : bound)
    (fuel n : nat) N (next : PageId) p fs (Q : bool * bool -> BufferPool St -> fsys -> Prop)
    (X : BTreeError Er -> BufferPool St -> fsys -> Prop) (C : fsys -> Prop) :
  h < fuel -> pool_nodes (2 * Datatypes.S h + n) cap ∅ ∅ p fs N next -> 0 < cap ->
  in_mem N h t -> good lim h lo hi t -> in_range lo hi key -> NoDup (tree_ids h t) ->
  (forall found emptied t1 N' p' fs', pool_nodes n cap ∅ ∅ p' fs' N' next ->
     deleted lim h lo hi t N key found emptied t1 N' -> Q (found, emptied) p' fs') ->
  wpc no_faults (delete_recursive fuel (root_of h t) key : T (bool * bool)) p fs Q X C.
Proof.
  revert t lo hi fuel n N next p fs Q. induction h as [|h IH];
    intros t lo hi fuel n N next p fs Q Hfuel Hn Hc Hm Hg Hr Hnd HQ;
    (destruct fuel as [|fuel]; [lia|]); cbn [delete_recursive root_of].
  - eapply (nodes_open n); [eapply pool_nodes_weaken; [|exact Hn]; lia|exact Hm|lia|]. intros page p1 fs1 Hrep Hn1.
    destruct (leaf_page page t Hrep) as (-> & _). by eapply (wpc_delete_leaf lim n cap N next t lo hi).
  - destruct t as [id kids]. pose proof Hm as [Hroot Hkids]. cbn [br_id br_kids] in *.
    eapply (nodes_open (2 * Datatypes.S h + (1 + n))); [eapply pool_nodes_weaken; [|exact Hn]; lia|exact Hroot|lia|].
    intros page p1 fs1 Hrep Hn1. destruct (branch_page N page _ Hrep) as [-> He].
    unfold internal_entries. rewrite He.
    destruct (branch_route lim h lo hi _ key Hg Hr) as (l & b & c & r & Hk & Hi & _ & Hr' & Hg' & _).
    cbn [br_kids] in Hk, Hi. wpc_step. apply wpc_unwrap. cbv zeta. rewrite Hi. wpc_step. subst kids.
    rewrite list_lookup_fmap, list_lookup_middle by done. apply wpc_unwrap. cbn [kid_entry ie_child snd].
    wpc_step. eapply nodes_release; [exact Hn1|done|]. intros p2 Hn2. wpc_step.
    pose proof Hnd as Hndc. change (tree_ids (Datatypes.S h) (mkBr id (l ++ (b, c) :: r)))
      with (id :: kids_ids (l ++ (b, c) :: r)) in Hndc. apply NoDup_cons in Hndc as [_ Hndc].
    rewrite kids_ids_app, kids_ids_cons in Hndc. apply NoDup_app in Hndc as (_ & _ & Hndc). apply NoDup_app in Hndc as (Hndc & _ & _).
    assert (in_mem N h c) as Hmc by (rewrite Forall_app, Forall_cons in Hkids; apply Hkids).
    apply (IH c (low lo b) (next_bound hi r) fuel (1 + n) N next); try done; [lia|].
    intros found emptied c1 N1 p3 fs3 Hn3 Hdel.
    pose proof (deleted_keep lim h lo hi b id c c1 l r N N1 key found emptied Hg Hm Hnd Hr' Hdel) as Hkeep.
    destruct (kid_deleted_facts lim h lo hi b id c c1 l r N N1 key found emptied Hg Hm Hnd Hr' Hdel) as (_ & _ & Hsame & _).
    assert (pool_nodes n cap ∅ ∅ p3 fs3 N1 next) as Hn3' by (eapply pool_nodes_weaken; [|exact Hn3]; lia).
    assert (forall e, e = emptied && bool_decide (l ++ r = []) \/ e = false ->
      deleted lim (Datatypes.S h) lo hi (mkBr id (l ++ (b, c) :: r)) N key found e (mkBr id (l ++ (b, c1) :: r)) N1) as Hkeep'.
    { intros e [->| ->]; [done|]. by destruct Hkeep. }
    destruct found; cbn [negb].
    2: { wpc_step. eapply HQ; [exact Hn3'|]. apply Hkeep'. by right. }
    destruct emptied; cbn [negb].
    2: { wpc_step. eapply HQ; [exact Hn3'|]. apply Hkeep'. by right. }
    apply (wpc_delete_child n cap N1 next id h l r (b, c)); [exact Hn3|done|by rewrite Hsame| |].
    + intros Hnil p4 fs4 Hn4. eapply HQ; [exact Hn4|]. apply Hkeep'. left. by rewrite bool_decide_true.
    + intros Hne p4 fs4 Hn4. eapply HQ; [exact Hn4|].
      by apply (deleted_drop lim h lo hi b id c c1 l r N N1 key true true Hg Hm Hnd Hr' Hdel).
Qed.
End delete.
