(* ===== verification/BTreeProps.v ===== *)
(** * BTreeProps: the B+tree refines a finite map

    The state of a tree behind its pool denotes a finite map from keys to values. Creating,
    reading, inserting, deleting and reopening are correct against that map, for any backend of
    the pool that satisfies the laws, with the number of allocated pages as fuel. *)
From S2P Require Export BTreeDelete.

(** ** The chain under an update *)

Lemma tree_ids_typed (N : gmap PageId Node) (h : nat) (t : tree h) (id : PageId) :
  in_mem N h t -> id ∈ tree_ids h t ->
  (exists l, l ∈ tree_leaves h t /\ lf_id l = id /\ N !! id = Some (leaf_node l)) \/
  (exists es, N !! id = Some (NInternal es)).
Proof.
  revert t. induction h as [|h IH]; intros t; simpl.
  - intros Ht ->%list_elem_of_singleton. left. exists t. split; [left|done].
  - intros [Ht Hk] [->|Hin]%elem_of_cons; [right; by eexists|].
    apply list_elem_of_In, in_concat in Hin as (ids & Hids & Hin).
    apply list_elem_of_In, list_elem_of_fmap in Hids as (c & -> & Hc). apply list_elem_of_In in Hin.
    rewrite Forall_forall in Hk. destruct (IH c.2 (Hk c Hc) Hin) as [(l & Hl & Hid)|Hint]; [left|by right].
    exists l. split; [|done]. apply list_elem_of_In, in_concat. exists (tree_leaves h c.2).
    split; [|by apply list_elem_of_In]. apply list_elem_of_In, list_elem_of_fmap. by exists c.
Qed.

(** A leaf of the chain that is not a leaf of the tree is no page of the tree. *)
Lemma chain_other (N : gmap PageId Node) (h : nat) (t : tree h) (chain : list leaf) (x : leaf) :
  in_mem N h t -> Forall (fun l => N !! lf_id l = Some (leaf_node l)) chain ->
  NoDup (lf_id <$> chain) -> weave chain (tree_leaves h t) -> x ∈ chain ->
  x ∈ tree_leaves h t \/ lf_id x ∉ tree_ids h t.
Proof.
  intros Hm Hch Hnd Hw Hx. destruct (decide (lf_id x ∈ tree_ids h t)) as [Hin|]; [left|by right].
  rewrite Forall_forall in Hch. specialize (Hch x Hx).
  destruct (tree_ids_typed N h t (lf_id x) Hm Hin) as [(l & Hl & Hid & _)|[es Hes]].
  - pose proof (weave_elem _ _ _ Hw Hl) as Hlc.
    apply list_elem_of_lookup in Hx as [i Hi], Hlc as [j Hj].
    assert (i = j) as <-; [|congruence]. eapply NoDup_lookup; [exact Hnd| |].
    + by rewrite list_lookup_fmap, Hi.
    + rewrite list_lookup_fmap, Hj. simpl. by rewrite Hid.
  - unfold leaf_node in Hch. congruence.
Qed.

Lemma meta_other (N : gmap PageId Node) (h : nat) (t : tree h) (root : PageId) :
  in_mem N h t -> N !! META_PAGE_ID = Some (NMeta root) -> META_PAGE_ID ∉ tree_ids h t.
Proof.
  intros Hm Hmeta Hin. destruct (tree_ids_typed N h t _ Hm Hin) as [(l & _ & _ & Hl)|[es Hes]]; [|congruence].
  unfold leaf_node in Hl. congruence.
Qed.

(** The chain after one of the leaves of the tree has been replaced. *)
Lemma chain_update (N N' : gmap PageId Node) (next next' : PageId) (h : nat) (t : tree h)
    (chain a new b leaves' : list leaf) (l : leaf) :
  in_mem N h t -> Forall (fun l => N !! lf_id l = Some (leaf_node l)) chain ->
  NoDup (lf_id <$> chain) -> weave chain (tree_leaves h t) -> linked NO_SIBLING chain ->
  (forall id, is_Some (N !! id) -> (id < next)%Z) ->
  (forall id, id ∉ tree_ids h t -> (id < next)%Z -> N' !! id = N !! id) ->
  tree_leaves h t = a ++ l :: b -> spliced next next' l new ->
  Forall (fun x => N' !! lf_id x = Some (leaf_node x)) (a ++ new ++ b) -> weave (a ++ new ++ b) leaves' ->
  exists chain', Forall (fun l => N' !! lf_id l = Some (leaf_node l)) chain' /\
    NoDup (lf_id <$> chain') /\ weave chain' leaves' /\ linked NO_SIBLING chain'.
Proof.
  intros Hm Hch Hnd Hw Hlink Hlt Hframe Hlv Hsp Hnew Hw'. rewrite Hlv in Hw.
  destruct (weave_split _ _ _ _ Hw) as (c1 & c2 & -> & Hw1 & Hw2). rewrite <-Hlv in Hw.
  exists (c1 ++ new ++ c2). rewrite !Forall_app in Hnew. destruct Hnew as (Hna & Hnn & Hnb).
  pose proof Hnd as Hnd'. rewrite fmap_app, fmap_cons in Hnd'.
  apply NoDup_app in Hnd' as (Hnd1 & Hd1 & Hnd2). apply NoDup_cons in Hnd2 as [Hnl Hnd2].
  assert (forall x, x ∈ c1 ++ c2 -> N' !! lf_id x = Some (leaf_node x)) as Hkeep.
  { intros x Hx. assert (x ∈ c1 ++ l :: c2) as Hxc by set_solver.
    assert (lf_id x <> lf_id l) as Hne.
    { intros Heq. apply elem_of_app in Hx as [Hx|Hx].
      - apply (Hd1 (lf_id x)); [by apply list_elem_of_fmap_2|]. rewrite Heq. left.
      - apply Hnl. rewrite <-Heq. by apply list_elem_of_fmap_2. }
    pose proof (proj1 (Forall_forall _ _) Hch x Hxc) as HxN.
    destruct (chain_other N h t _ x Hm Hch Hnd Hw Hxc) as [Hin|Hni].
    - rewrite Hlv in Hin. rewrite Forall_forall in Hna, Hnb.
      apply elem_of_app in Hin as [Hin|[->|Hin]%elem_of_cons]; [by apply Hna|done|by apply Hnb].
    - rewrite Hframe; [done|done|]. apply Hlt. by rewrite HxN. }
  assert (forall x, x ∈ c1 ++ l :: c2 -> (lf_id x < next)%Z) as Hids.
  { intros x Hx. apply Hlt. rewrite (proj1 (Forall_forall _ _) Hch x Hx). by eexists. }
  assert (forall x, x ∈ (lf_id <$> c1) ++ lf_id l :: (lf_id <$> c2) -> (x < next)%Z) as Hids'.
  { intros x Hx. rewrite <-fmap_cons, <-fmap_app in Hx. apply list_elem_of_fmap in Hx as (y & -> & Hy). by apply Hids. }
  split; [|split; [|split]].
  - rewrite !Forall_app. split; [|split; [done|]]; apply Forall_forall; intros x Hx; apply Hkeep; set_solver.
  - rewrite !fmap_app. destruct Hsp as [[es ->]|(es1 & es2 & rid & -> & Hrid)]; cbn [fmap list_fmap app lf_id].
    + by rewrite fmap_app, fmap_cons in Hnd.
    + rewrite fmap_app, fmap_cons in Hnd. rewrite cons_middle, app_assoc.
      apply (nodup_replace ((lf_id <$> c1) ++ [lf_id l]) [] [rid] (lf_id <$> c2) next next').
      * by rewrite <-app_assoc.
      * apply NoDup_singleton.
      * intros x ->%list_elem_of_singleton. by right.
      * intros x Hx. apply Hids'. rewrite <-app_assoc in Hx. exact Hx.
  - eapply weave_trans; [|exact Hw']. apply weave_app; [done|]. apply weave_app; [apply weave_refl|done].
  - apply linked_app in Hlink as [Hl1 [Hl2 Hl3]].
    destruct Hsp as [[es ->]|(es1 & es2 & rid & -> & Hrid)]; cbn [app].
    + apply linked_app. done.
    + apply linked_app. done.
Qed.

(** ** The state of a tree *)

Section props.
Context `{PageStoreLaws St Er}.

Implicit Types (p : BufferPool St) (fs : fsys) (N : gmap PageId Node) (kv : gmap bytes bytes).

Abbreviation T := (M (BufferPool St) (BTreeError Er)).

(** The pool holds a tree that denotes [kv]: no page is pinned, [next] page ids have been given
    out, entries have at most [lim] bytes of key and value, and [n] more operations on pages
    cannot wrap a counter of the backend. *)
Definition btree_state (lim n cap : nat) p fs kv (next : PageId) : Prop :=
  exists N h (t : tree h) chain, pool_nodes n cap ∅ ∅ p fs N next /\ tree_holds lim h t chain N /\
    denotes (tree_entries h t) kv.

(** The same with the height of the tree. *)
Definition btree_at (h : nat) (lim n cap : nat) p fs kv (next : PageId) : Prop :=
  exists N (t : tree h) chain, pool_nodes n cap ∅ ∅ p fs N next /\ tree_holds lim h t chain N /\
    denotes (tree_entries h t) kv.

Lemma btree_state_at (lim n cap : nat) p fs kv (next : PageId) :
  btree_state lim n cap p fs kv next <-> exists h, btree_at h lim n cap p fs kv next.
Proof.
  split; [intros (N & h & t & chain & Hs); by exists h, N, t, chain|].
  intros (h & N & t & chain & Hs). by exists N, h, t, chain.
Qed.

Lemma btree_at_weaken (h lim n n' cap : nat) p fs kv (next : PageId) :
  n' <= n -> btree_at h lim n cap p fs kv next -> btree_at h lim n' cap p fs kv next.
Proof.
  intros Hn (N & t & chain & Hp & Ht). exists N, t, chain. split; [by eapply pool_nodes_weaken|done].
Qed.

(** The pages are enough fuel. *)
Lemma tree_holds_fuel (lim n cap : nat) p fs N (next : PageId) (h : nat) (t : tree h) (chain : list leaf) :
  pool_nodes n cap ∅ ∅ p fs N next -> tree_holds lim h t chain N ->
  h < length (tree_ids h t) <= Z.to_nat next /\ length chain <= Z.to_nat next.
Proof.
  intros Hn [Hmeta Hm Hg Hnd Hch _ Hcnd _]. pose proof (pn_ids _ _ _ _ _ _ _ _ Hn) as Hids. split; [split|].
  - by eapply tree_ids_height.
  - apply allocated_length; [done|]. intros id Hid. apply Hids. by eapply in_mem_ids.
  - rewrite <-(length_fmap lf_id). apply allocated_length; [done|].
    intros id (l & -> & Hl)%list_elem_of_fmap. apply Hids. rewrite Forall_forall in Hch. rewrite (Hch l Hl). by eexists.
Qed.

(** The page operations of one call, at most. *)
Definition tree_cost (next : PageId) : nat := 4 * (Z.to_nat next + 2).

Lemma btree_at_height (h lim n cap : nat) p fs kv (next : PageId) :
  btree_at h lim n cap p fs kv next -> h < Z.to_nat next /\ (0 <= next)%Z /\ (next + Z.of_nat n < 2 ^ 64)%Z.
Proof.
  intros (N & t & chain & Hn & Ht & _). destruct (tree_holds_fuel _ _ _ _ _ _ _ _ _ _ Hn Ht) as [[F1 F2] _].
  pose proof (pool_nodes_range _ _ _ _ _ _ _ _ Hn). lia.
Qed.

Lemma wpc_tree_get_at (h lim n cap : nat) p fs kv (next : PageId) (fuel : nat) (key : bytes) :
  btree_at h lim (h + 2 + n) cap p fs kv next -> 0 < cap -> Z.to_nat next <= fuel ->
  wpc no_faults (tree_get fuel key : T (option bytes)) p fs
    (fun r p' fs' => r = kv !! key /\ btree_at h lim n cap p' fs' kv next)
    (fun _ _ _ => False) (fun _ => False).
Proof.
  intros (N & t & chain & Hn & Ht & Hd) Hc Hfuel. destruct (tree_holds_fuel _ _ _ _ _ _ _ _ _ _ Hn Ht) as [[F1 F2] F3].
  unfold tree_get. wpc_step. eapply (wpc_root_id (Datatypes.S h + n)); [eapply pool_nodes_weaken; [|exact Hn]; lia|apply Ht|done|].
  intros p1 fs1 Hn1. eapply (wpc_get_recursive lim n cap N next key h t None None); [lia|exact Hn1|done|apply Ht|apply Ht|done|].
  intros p2 fs2 Hn2. split; [by apply find_entry_denotes|]. by exists N, t, chain.
Qed.

Lemma wpc_tree_get (lim n cap : nat) p fs kv (next : PageId) (fuel : nat) (key : bytes) :
  btree_state lim (tree_cost next + n) cap p fs kv next -> 0 < cap -> Z.to_nat next <= fuel ->
  wpc no_faults (tree_get fuel key : T (option bytes)) p fs
    (fun r p' fs' => r = kv !! key /\ btree_state lim n cap p' fs' kv next)
    (fun _ _ _ => False) (fun _ => False).
Proof.
  rewrite btree_state_at. intros [h Hs] Hc Hfuel. pose proof (btree_at_height _ _ _ _ _ _ _ _ Hs) as [Hh _].
  eapply wpc_mono; [eapply (wpc_tree_get_at h lim n); [|done|done]| |done|done].
  { eapply btree_at_weaken; [|exact Hs]. unfold tree_cost. lia. }
  intros r p' fs' [Hr Hs']. split; [done|]. apply btree_state_at. by exists h.
Qed.

Lemma wpc_scan_all_at (h lim n cap : nat) p fs kv (next : PageId) (fuel : nat) :
  btree_at h lim (tree_cost next + n) cap p fs kv next -> 0 < cap -> Z.to_nat next <= fuel ->
  wpc no_faults (scan_all fuel : T (list Entry)) p fs
    (fun r p' fs' => r = bt_iter kv /\ btree_at h lim n cap p' fs' kv next)
    (fun _ _ _ => False) (fun _ => False).
Proof.
  intros (N & t & chain & Hn & Ht & Hd) Hc Hfuel. destruct (tree_holds_fuel _ _ _ _ _ _ _ _ _ _ Hn Ht) as [[F1 F2] F3].
  unfold scan_all. wpc_step. eapply (wpc_root_id (length (tree_ids h t) + n)); [eapply pool_nodes_weaken; [|exact Hn]; unfold tree_cost; lia|apply Ht|done|].
  intros p1 fs1 Hn1. eapply (wpc_scan_recursive cap N next h t fuel n); [lia|exact Hn1|done|apply Ht|].
  intros p2 fs2 Hn2. pose proof (good_entries lim h None None t (th_good _ _ _ _ _ Ht)) as [Hs _].
  split; [symmetry; by apply denotes_bt_iter|]. by exists N, t, chain.
Qed.

Lemma wpc_scan_all (lim n cap : nat) p fs kv (next : PageId) (fuel : nat) :
  btree_state lim (tree_cost next + n) cap p fs kv next -> 0 < cap -> Z.to_nat next <= fuel ->
  wpc no_faults (scan_all fuel : T (list Entry)) p fs
    (fun r p' fs' => r = bt_iter kv /\ btree_state lim n cap p' fs' kv next)
    (fun _ _ _ => False) (fun _ => False).
Proof.
  rewrite btree_state_at. intros [h Hs] Hc Hfuel.
  eapply wpc_mono; [by apply (wpc_scan_all_at h lim n cap p fs kv next)| |done|done].
  intros r p' fs' [Hr Hs']. split; [done|]. apply btree_state_at. by exists h.
Qed.

Lemma wpc_scan_range_at (h lim n cap : nat) p fs kv (next : PageId) (fuel : nat) (start end_ : bytes) :
  btree_at h lim (tree_cost next + n) cap p fs kv next -> 0 < cap -> Z.to_nat next <= fuel ->
  wpc no_faults (scan_range fuel start end_ : T (list Entry)) p fs
    (fun r p' fs' => r = filter (in_scan start end_) (bt_iter kv) /\ btree_at h lim n cap p' fs' kv next)
    (fun _ _ _ => False) (fun _ => False).
Proof.
  intros (N & t & chain & Hn & Ht & Hd) Hc Hfuel. destruct (tree_holds_fuel _ _ _ _ _ _ _ _ _ _ Hn Ht) as [[F1 F2] F3].
  pose proof (good_entries lim h None None t (th_good _ _ _ _ _ Ht)) as [Hs _].
  unfold scan_range. wpc_step. eapply (wpc_root_id (Datatypes.S h + (length chain + n))); [eapply pool_nodes_weaken; [|exact Hn]; unfold tree_cost; lia|apply Ht|done|].
  intros p1 fs1 Hn1. wpc_step.
  eapply (wpc_find_leaf lim (length chain + n) cap N next start h t None None); [lia|exact Hn1|done|apply Ht|apply Ht|done|].
  intros l1 l l2 p2 fs2 Hn2 Hlv Hbelow. pose proof (th_weave _ _ _ _ _ Ht) as Hw. rewrite Hlv in Hw.
  destruct (weave_split _ _ _ _ Hw) as (c1 & c2 & Hch & Hw1 & Hw2).
  assert (tree_entries h t = concat (lf_entries <$> l1) ++ concat (lf_entries <$> l :: c2)) as Hes.
  { unfold tree_entries. rewrite Hlv, !fmap_app, concat_app, !fmap_cons. cbn [concat]. by rewrite (weave_entries _ _ Hw2). }
  eapply (wpc_scan_leaves cap N next start end_ c2 l fuel n).
  - rewrite Hch, length_app in F3. simpl in F3. lia.
  - eapply pool_nodes_weaken; [|exact Hn2]. rewrite Hch, length_app. simpl. lia.
  - done.
  - pose proof (th_chain _ _ _ _ _ Ht) as Hc'. rewrite Hch in Hc'. by apply Forall_app in Hc' as [_ ?].
  - pose proof (th_links _ _ _ _ _ Ht) as Hc'. rewrite Hch in Hc'. by apply linked_app in Hc' as [_ ?].
  - eexists. apply Ht.
  - rewrite Hes in Hs. by apply sorted_app in Hs as (_ & ? & _).
  - intros p3 fs3 Hn3. split; [|by exists N, t, chain].
    rewrite (denotes_bt_iter _ _ Hd Hs), Hes, filter_app, (filter_none _ (concat (lf_entries <$> l1))); [done|].
    unfold keys_below in Hbelow. rewrite Forall_forall in Hbelow |- *. intros e He [H1' _]. specialize (Hbelow e He). key_order.
Qed.

Lemma wpc_scan_range (lim n cap : nat) p fs kv (next : PageId) (fuel : nat) (start end_ : bytes) :
  btree_state lim (tree_cost next + n) cap p fs kv next -> 0 < cap -> Z.to_nat next <= fuel ->
  wpc no_faults (scan_range fuel start end_ : T (list Entry)) p fs
    (fun r p' fs' => r = filter (in_scan start end_) (bt_iter kv) /\ btree_state lim n cap p' fs' kv next)
    (fun _ _ _ => False) (fun _ => False).
Proof.
  rewrite btree_state_at. intros [h Hs] Hc Hfuel.
  eapply wpc_mono; [by apply (wpc_scan_range_at h lim n cap p fs kv next)| |done|done].
  intros r p' fs' [Hr Hs']. split; [done|]. apply btree_state_at. by exists h.
Qed.

(** ** Updates *)

Lemma wpc_set_root_id (n cap : nat) p fs N (next r0 root : PageId)
    (Q : unit -> BufferPool St -> fsys -> Prop) (X : BTreeError Er -> BufferPool St -> fsys -> Prop)
    (C : fsys -> Prop) :
  pool_nodes (Datatypes.S n) cap ∅ ∅ p fs N next -> N !! META_PAGE_ID = Some (NMeta r0) -> 0 < cap ->
  in_u64 root ->
  (forall p' fs', pool_nodes n cap ∅ ∅ p' fs' (<[META_PAGE_ID := NMeta root]> N) next -> Q tt p' fs') ->
  wpc no_faults (set_root_id root : T unit) p fs Q X C.
Proof.
  intros Hn Hm Hc Hr HQ. unfold set_root_id. wpc_step.
  eapply nodes_fetch; [exact Hn|exact Hm|set_solver|by rewrite size_empty|]. intros p1 fs1 Hn1.
  destruct (build_meta root Hr) as (pg & -> & Hpg). wpc_step. apply wpc_lift_ok. wpc_step.
  eapply nodes_set_page; [exact Hn1|set_solver|exact Hpg|]. intros p2 Hn2.
  eapply nodes_release; [exact Hn2|done|]. intros p3 Hn3. by apply HQ.
Qed.

(** The tree with one root after an insertion, in a memory that has it. *)
Lemma inserted_holds (lim h h' : nat) (t : tree h) (t' : tree h') (chain : list leaf) N N' (next next' : PageId) :
  tree_holds lim h t chain N -> (forall id, is_Some (N !! id) -> (id < next)%Z) ->
  N' !! META_PAGE_ID = Some (NMeta (root_of h' t')) -> in_mem N' h' t' -> good lim h' None None t' ->
  NoDup (tree_ids h' t') -> leaves_spliced next next' (tree_leaves h t) (tree_leaves h' t') ->
  (forall id, id ∉ META_PAGE_ID :: tree_ids h t -> (id < next)%Z -> N' !! id = N !! id) ->
  exists chain', tree_holds lim h' t' chain' N'.
Proof.
  intros [T1 T2 T3 T4 T5 T6 T7 T8] Hlt Hmeta Hm Hg Hnd (a & l & new & b & Hlv & Hlv' & Hsp) Hframe.
  pose proof (in_mem_leaves N' h' t' Hm) as Hnew. rewrite Hlv' in Hnew.
  destruct (chain_update N (<[META_PAGE_ID := NMeta (root_of h t)]> N') next next' h t chain a new b
    (tree_leaves h' t') l) as (chain' & C1 & C2 & C3 & C4); try done.
  - intros id Hni Hid. destruct (decide (id = META_PAGE_ID)) as [->|Hne].
    + by rewrite lookup_insert_eq.
    + rewrite lookup_insert_ne by done. apply Hframe; [|done]. set_solver.
  - eapply Forall_impl; [exact Hnew|]. intros x Hx. cbn beta in Hx. rewrite lookup_insert_ne; [done|].
    intros Hid. rewrite <-Hid, Hmeta in Hx. unfold leaf_node in Hx. congruence.
  - rewrite Hlv'. apply weave_refl.
  - exists chain'. split; try done. eapply Forall_impl; [exact C1|]. intros x Hx. cbn beta in Hx.
    destruct (decide (META_PAGE_ID = lf_id x)) as [Hid|Hne].
    + rewrite <-Hid, lookup_insert_eq in Hx. unfold leaf_node in Hx. congruence.
    + by rewrite lookup_insert_ne in Hx.
Qed.

(** The page operations of an insertion into a tree of height [h], at most. *)
Definition insert_cost (h : nat) : nat := 4 * (h + 2).

(** A root that was split gets a branch above its two pieces. *)
Lemma wpc_grow_root (lim n cap h : nat) p fs N (next root : PageId) (sep : bytes) (t1 t2 : tree h)
    (Q : unit -> BufferPool St -> fsys -> Prop) (C : fsys -> Prop) :
  pool_nodes (3 + n) cap ∅ ∅ p fs N next -> 0 < cap -> N !! META_PAGE_ID = Some (NMeta root) ->
  root_of h t1 = root -> ordered_kids (good lim h) lim None None (pieces t1 (Some (sep, t2))) ->
  Forall (fun c => in_mem N h c.2) (pieces t1 (Some (sep, t2))) ->
  let root_node := NInternal (kid_entry <$> pieces t1 (Some (sep, t2))) in
  (forall p' fs', pool_nodes n cap ∅ ∅ p' fs' (<[META_PAGE_ID := NMeta next]> (<[next := root_node]> N)) (next + 1) ->
     Q tt p' fs') ->
  wpc no_faults (new_root_id ← buf (new_page BTreeInternal);
    page ← lift_page (build_internal [mkInternal None root; mkInternal (Some sep) (root_of h t2)]);
    buf (set_page new_root_id page);;
    buf (unpin new_root_id true);;
    set_root_id new_root_id : T unit) p fs Q (fun e _ _ => too_large lim e) C.
Proof.
  intros Hn Hc Hmeta <- Ho Hm root_node HQ. pose proof (pool_nodes_range _ _ _ _ _ _ _ _ Hn) as [_ Hrange].
  pose proof (pn_ids _ _ _ _ _ _ _ _ Hn) as Hids. wpc_step.
  eapply nodes_new_page; [exact Hn|by rewrite size_empty|]. intros p3 fs3 Hn3 Hnone _ Hu64. wpc_step.
  change [mkInternal None (root_of h t1); mkInternal (Some sep) (root_of h t2)] with
    (kid_entry <$> pieces t1 (Some (sep, t2))).
  unfold pieces in Hm. rewrite !Forall_cons in Hm. destruct Hm as (M1 & M2 & _).
  apply (wpc_build _ root_node).
  { apply build_internal_builds. pose proof (Hids _ (in_mem_root N h t1 M1)). pose proof (Hids _ (in_mem_root N h t2 M2)).
    constructor; [|constructor; [|constructor]]; simpl; width_lia. }
  2: { intros a b Hno. split; [by do 2 eexists|]. apply ordered_kids_sizes in Ho. unfold pieces in Ho.
    rewrite !Forall_cons in Ho. destruct Ho as (_ & Hsz & _). simpl in Hsz. unfold root_node, node_fits in Hno.
    rewrite internal_space in Hno. unfold pieces, kid_space in Hno. simpl in Hno.
    unfold NODE_SPACE, PAGE_SIZE, PAGE_HEADER_LEN, MAX_ENTRY in *. lia. }
  intros pg Hf Hpg. wpc_step. eapply nodes_set_page; [exact Hn3|set_solver|exact Hpg|]. intros p4 Hn4.
  wpc_step. eapply nodes_release; [exact Hn4|done|]. intros p5 Hn5.
  eapply (wpc_set_root_id n); [exact Hn5| |done|done|exact HQ].
  rewrite lookup_insert_ne; [exact Hmeta|]. intros Heq. congruence.
Qed.

(** The tree with that root. *)
Lemma grown_holds (lim h : nat) (t t1 t2 : tree h) (sep : bytes) (chain : list leaf) N N1 (next next1 : PageId)
    (key value : bytes) :
  let root := mkBr next1 (pieces t1 (Some (sep, t2))) : tree (Datatypes.S h) in
  let N2 := <[META_PAGE_ID := NMeta next1]> (<[next1 := NInternal (kid_entry <$> br_kids root)]> N1) in
  tree_holds lim h t chain N -> (forall id, is_Some (N !! id) -> (id < next)%Z) ->
  inserted lim h None None t N next key value t1 (Some (sep, t2)) N1 next1 -> (META_PAGE_ID < next)%Z ->
  exists chain', tree_holds lim (Datatypes.S h) root chain' N2.
Proof.
  intros root N2 Ht Hlt [I1 I2 I3 I4 I5 [G1 G2 G3 G4] _] Hpos. pose proof Ht as [T1 T2 T3 T4 _ _ _ _].
  pose proof (meta_other N h t _ T2 T1) as Hmeta.
  assert (forall id, id ∈ kids_ids (br_kids root) -> (id < next1)%Z /\ id <> META_PAGE_ID) as Hk.
  { intros id Hid. destruct (G3 id Hid) as [Hin|Hin]; [|unfold META_PAGE_ID in *; lia].
    split; [|by intros ->]. pose proof (Hlt id (in_mem_ids N h t id T2 Hin)). lia. }
  assert (forall id, id <> META_PAGE_ID -> (id < next1)%Z -> N2 !! id = N1 !! id) as HN2.
  { intros id Hne Hid. unfold N2. rewrite !lookup_insert_ne; [done|lia|done]. }
  apply (inserted_holds lim h (Datatypes.S h) t root chain N N2 next next1 Ht Hlt).
  - apply lookup_insert_eq.
  - split.
    + unfold N2. rewrite lookup_insert_ne by (simpl; unfold META_PAGE_ID in *; lia). apply lookup_insert_eq.
    + eapply kids_in_mem_frame; [|exact I3]. intros id Hid. destruct (Hk id Hid). by apply HN2.
  - split; [by do 2 eexists|exact I2].
  - change (tree_ids (Datatypes.S h) root) with (next1 :: kids_ids (br_kids root)).
    apply NoDup_cons. split; [|done]. intros Hin. destruct (Hk _ Hin). lia.
  - exact I5.
  - intros id Hni Hid. apply not_elem_of_cons in Hni as [Hne Hni]. rewrite HN2; [by apply G2|done|lia].
Qed.

(** The tree whose root was not split. *)
Lemma kept_holds (lim h : nat) (t t1 : tree h) (chain : list leaf) N N1 (next next1 : PageId) (key value : bytes) :
  tree_holds lim h t chain N -> (forall id, is_Some (N !! id) -> (id < next)%Z) ->
  inserted lim h None None t N next key value t1 None N1 next1 -> (META_PAGE_ID < next)%Z ->
  (exists chain', tree_holds lim h t1 chain' N1) /\
  entry_update key [(key, value)] (tree_entries h t) (tree_entries h t1).
Proof.
  intros Ht Hlt [I1 I2 I3 I4 I5 [G1 G2 G3 G4] _] Hpos. unfold pieces in *. pose proof Ht as [T1 T2 T3 T4 _ _ _ _].
  pose proof (meta_other N h t _ T2 T1) as Hmeta.
  assert (kids_leaves [(None, t1)] = tree_leaves h t1) as El by (unfold kids_leaves; simpl; by rewrite app_nil_r).
  assert (kids_ids [(None, t1)] = tree_ids h t1) as Ei by (unfold kids_ids; simpl; by rewrite app_nil_r).
  rewrite El in I5. rewrite Ei in G4. unfold kids_entries in I4. rewrite El in I4. split; [|exact I4].
  apply Forall_inv in I3. cbn [snd] in I3.
  apply (inserted_holds lim h h t t1 chain N N1 next next1 Ht Hlt); try done.
  - rewrite I1, <-T1. by apply G2.
  - apply I2.
  - intros id Hni Hid. apply not_elem_of_cons in Hni as [_ Hni]. by apply G2.
Qed.

Lemma wpc_tree_insert_at (h lim n cap : nat) p fs kv (next : PageId) (fuel : nat) (key value : bytes) :
  btree_at h lim (insert_cost h + n) cap p fs kv next -> 1 < cap -> Z.to_nat next <= fuel ->
  length key + length value <= lim ->
  wpc no_faults (tree_insert fuel key value : T unit) p fs
    (fun _ p' fs' => exists h' next', h <= h' <= h + 1 /\ (next <= next' <= next + Z.of_nat h + 2)%Z /\
       btree_at h' lim n cap p' fs' (<[key := value]> kv) next')
    (fun e _ _ => too_large lim e) (fun _ => False).
Proof.
  intros (N & t & chain & Hn & Ht & Hd) Hc Hfuel Hkv.
  destruct (tree_holds_fuel _ _ _ _ _ _ _ _ _ _ Hn Ht) as [[F1 F2] F3]. pose proof Ht as [T1 T2 T3 T4 _ _ _ _].
  assert (forall id, is_Some (N !! id) -> (id < next)%Z) as Hlt.
  { intros id Hs. apply (pn_ids _ _ _ _ _ _ _ _ Hn) in Hs. lia. }
  assert (META_PAGE_ID < next)%Z as Hpos by (apply Hlt; rewrite T1; by eexists).
  unfold tree_insert. wpc_step.
  eapply (wpc_root_id (4 * Datatypes.S h + (3 + n))); [eapply pool_nodes_weaken; [|exact Hn]; unfold insert_cost; lia|exact T1|lia|].
  intros p1 fs1 Hn1. wpc_step.
  eapply (wpc_insert_recursive lim cap key value h t None None fuel (3 + n) N next); [lia|exact Hn1|done|done|done|done|done|done| |done].
  intros t1 more N1 next1 p2 fs2 Hn2 Hins. pose proof (is_room _ _ _ _ _ _ _ _ _ _ _ _ _ Hins) as Hroom.
  pose proof (is_grown _ _ _ _ _ _ _ _ _ _ _ _ _ Hins) as [G1 G2 _ _].
  destruct more as [[sep t2]|]; cbn [split_result fmap option_fmap option_map fst snd].
  - apply (wpc_grow_root lim n cap h p2 fs2 N1 next1 (root_of h t) sep t1 t2); [exact Hn2|lia| |apply Hins..|].
    { rewrite <-T1. apply G2; [by apply (meta_other N h t _ T2 T1)|done]. }
    intros p3 fs3 Hn3. exists (Datatypes.S h), (next1 + 1)%Z. split; [lia|]. split; [lia|].
    destruct (grown_holds lim h t t1 t2 sep chain N N1 next next1 key value Ht Hlt Hins Hpos) as [chain' Ht'].
    do 3 eexists. split; [exact Hn3|]. split; [exact Ht'|]. eapply denotes_insert; [exact Hd|]. apply Hins.
  - destruct (kept_holds lim h t t1 chain N N1 next next1 key value Ht Hlt Hins Hpos) as [[chain' Ht'] He].
    wpc_step. exists h, next1. split; [lia|]. split; [lia|]. exists N1, t1, chain'.
    split; [eapply pool_nodes_weaken; [|exact Hn2]; lia|]. split; [exact Ht'|]. by eapply denotes_insert.
Qed.

Lemma wpc_tree_insert (lim n cap : nat) p fs kv (next : PageId) (fuel : nat) (key value : bytes) :
  btree_state lim (tree_cost next + n) cap p fs kv next -> 1 < cap -> Z.to_nat next <= fuel ->
  length key + length value <= lim ->
  wpc no_faults (tree_insert fuel key value : T unit) p fs
    (fun _ p' fs' => exists next', (next <= next' <= 2 * next + 2)%Z /\
       btree_state lim n cap p' fs' (<[key := value]> kv) next')
    (fun e _ _ => too_large lim e) (fun _ => False).
Proof.
  rewrite btree_state_at. intros [h Hs] Hc Hfuel Hkv.
  pose proof (btree_at_height _ _ _ _ _ _ _ _ Hs) as (Hh & Hpos & _).
  eapply wpc_mono; [eapply (wpc_tree_insert_at h lim n); [|done|done|done]| |done|done].
  { eapply btree_at_weaken; [|exact Hs]. unfold tree_cost, insert_cost. lia. }
  intros [] p' fs' (h' & next' & _ & Hnext & Hs'). exists next'. split; [lia|].
  apply btree_state_at. by exists h'.
Qed.

(** The tree after a deletion, in the memory that it leaves. *)
Lemma deleted_holds (lim h : nat) (t t1 : tree h) (chain : list leaf) N N1 (next : PageId) (key : bytes)
    (found emptied : bool) :
  tree_holds lim h t chain N -> (forall id, is_Some (N !! id) -> (id < next)%Z) ->
  deleted lim h None None t N key found emptied t1 N1 -> exists chain', tree_holds lim h t1 chain' N1.
Proof.
  intros [T1 T2 T3 T4 T5 T6 T7 T8] Hlt [D1 D2 D3 D4 D5 D6 (a & l & l' & b & Hlv & Hl1 & Hl2 & Hw & Hall) D8 D9].
  destruct (chain_update N N1 next next h t chain a [l'] b (tree_leaves h t1) l) as (chain' & C1 & C2 & C3 & C4); try done.
  { intros id Hni _. by apply D8. }
  { left. exists (lf_entries l'). destruct l'; simpl in *. by subst. }
  exists chain'. split; try done; [|exact (sublist_NoDup _ _ T4 D9)].
  rewrite D1, <-T1. apply D8. by eapply meta_other.
Qed.

Lemma single_kid_leaves {h : nat} (id : PageId) (c : tree h) :
  tree_leaves (Datatypes.S h) (mkBr id [(None, c)]) = tree_leaves h c.
Proof. simpl. apply app_nil_r. Qed.

Lemma single_kid_ids {h : nat} (id : PageId) (c : tree h) :
  tree_ids h c `sublist_of` tree_ids (Datatypes.S h) (mkBr id [(None, c)]).
Proof. simpl. rewrite app_nil_r. by apply sublist_cons. Qed.

(** A root with a single child gives way to it. *)
Lemma shrunk_holds (lim h : nat) (id : PageId) (c : tree h) (chain : list leaf) N :
  tree_holds lim (Datatypes.S h) (mkBr id [(None, c)]) chain N ->
  tree_holds lim h c chain (<[META_PAGE_ID := NMeta (root_of h c)]> N).
Proof.
  intros [T1 T2 T3 T4 T5 T6 T7 T8]. pose proof (meta_other _ _ _ _ T2 T1) as Hmeta.
  rewrite single_kid_leaves in T8. destruct T2 as [_ Hkids]. apply Forall_inv in Hkids.
  pose proof (single_kid_ids id c) as Hsub. split; try done.
  - apply lookup_insert_eq.
  - eapply in_mem_frame; [|exact Hkids]. intros x Hx. apply lookup_insert_ne. intros <-.
    apply Hmeta. by eapply elem_of_sublist.
  - apply T3.
  - exact (sublist_NoDup _ _ T4 Hsub).
  - eapply Forall_impl; [exact T5|]. intros x Hx. cbn beta in Hx. rewrite lookup_insert_ne; [done|]. intros Heq.
    rewrite <-Heq, T1 in Hx. unfold leaf_node in Hx. congruence.
Qed.

Lemma wpc_tree_delete_at (h lim n cap : nat) p fs kv (next : PageId) (fuel : nat) (key : bytes) :
  btree_at h lim (tree_cost next + n) cap p fs kv next -> 0 < cap -> Z.to_nat next <= fuel ->
  wpc no_faults (tree_delete fuel key : T bool) p fs
    (fun r p' fs' => r = bool_decide (is_Some (kv !! key)) /\
       exists h', h' <= h /\ btree_at h' lim n cap p' fs' (delete key kv) next)
    (fun _ _ _ => False) (fun _ => False).
Proof.
  intros (N & t & chain & Hn & Ht & Hd) Hc Hfuel.
  destruct (tree_holds_fuel _ _ _ _ _ _ _ _ _ _ Hn Ht) as [[F1 F2] F3].
  pose proof (pn_ids _ _ _ _ _ _ _ _ Hn) as Hids. pose proof Ht as [T1 T2 T3 T4 _ _ _ _].
  assert (forall id, is_Some (N !! id) -> (id < next)%Z) as Hlt by (intros id Hs; apply Hids in Hs; lia).
  unfold tree_delete. wpc_step.
  eapply (wpc_root_id (2 * Datatypes.S h + (2 + n))); [eapply pool_nodes_weaken; [|exact Hn]; unfold tree_cost; lia|exact T1|lia|].
  intros p1 fs1 Hn1. wpc_step.
  eapply (wpc_delete_recursive lim cap key h t None None fuel (2 + n) N next); [lia|exact Hn1|done|done|done|done|done|].
  intros found emptied t1 N1 p2 fs2 Hn2 Hdel. pose proof Hdel as [D1 _ D3 D4 D5 D6 _ _ _].
  destruct (deleted_holds _ _ _ _ _ _ _ _ _ _ _ Ht Hlt Hdel) as [chain' Ht1].
  assert (found = bool_decide (is_Some (kv !! key))) as Hfound by by rewrite D5, (find_entry_denotes key _ kv Hd).
  assert (denotes (tree_entries h t1) (delete key kv)) as Hd' by by eapply denotes_delete.
  wpc_step. destruct emptied.
  2: { wpc_step. wpc_step. split; [done|]. exists h. split; [done|]. exists N1, t1, chain'.
    split; [|done]. eapply pool_nodes_weaken; [|exact Hn2]. lia. }
  destruct (D6 eq_refl) as [Hnil Hshape]. rewrite <-D1. destruct h as [|h].
  - eapply nodes_open; [exact Hn2|exact D3|lia|]. intros page p3 fs3 Hrep Hn3.
    destruct (leaf_page page t1 Hrep) as (-> & _). rewrite decide_False by done.
    eapply nodes_release; [exact Hn3|done|]. intros p4 Hn4. wpc_step. split; [done|].
    exists 0. split; [done|]. exists N1, t1, chain'. split; [|done]. eapply pool_nodes_weaken; [|exact Hn4]. lia.
  - destruct t1 as [id kids]. destruct Hshape as [c Hk]. cbn [br_kids] in Hk. subst kids.
    pose proof D3 as [Hroot Hkids]. cbn [br_kids br_id] in *. apply Forall_inv in Hkids. cbn [snd] in Hkids.
    eapply nodes_open; [exact Hn2|exact Hroot|lia|]. intros page p3 fs3 Hrep Hn3.
    destruct (branch_page N1 page _ Hrep) as [-> He]. rewrite decide_True by done.
    unfold internal_entries. rewrite He. wpc_step. apply wpc_unwrap. wpc_step. apply wpc_unwrap.
    cbn [kid_entry ie_child snd]. wpc_step. eapply nodes_release; [exact Hn3|done|]. intros p4 Hn4.
    pose proof (pool_nodes_range _ _ _ _ _ _ _ _ Hn4) as [_ Hrange].
    pose proof (pn_ids _ _ _ _ _ _ _ _ Hn4 _ (in_mem_root _ _ _ Hkids)) as Hcr.
    eapply (wpc_set_root_id n); [eapply pool_nodes_weaken; [|exact Hn4]; lia|apply Ht1|lia|width_lia|].
    intros p5 fs5 Hn5. wpc_step. split; [done|]. exists h. split; [lia|].
    exists (<[META_PAGE_ID := NMeta (root_of h c)]> N1), c, chain'. split; [exact Hn5|].
    split; [by eapply shrunk_holds|]. unfold tree_entries in *. by rewrite single_kid_leaves in Hd'.
Qed.

Lemma wpc_tree_delete (lim n cap : nat) p fs kv (next : PageId) (fuel : nat) (key : bytes) :
  btree_state lim (tree_cost next + n) cap p fs kv next -> 0 < cap -> Z.to_nat next <= fuel ->
  wpc no_faults (tree_delete fuel key : T bool) p fs
    (fun r p' fs' => r = bool_decide (is_Some (kv !! key)) /\ btree_state lim n cap p' fs' (delete key kv) next)
    (fun _ _ _ => False) (fun _ => False).
Proof.
  rewrite btree_state_at. intros [h Hs] Hc Hfuel.
  eapply wpc_mono; [by apply (wpc_tree_delete_at h lim n cap p fs kv next)| |done|done].
  intros r p' fs' (Hr & h' & _ & Hs'). split; [done|]. apply btree_state_at. by exists h'.
Qed.
End props.
