(* ===== verification/BTreeOpen.v ===== *)
(** * BTreeOpen: creating, flushing and reopening a tree

    A tree lives in the pages of its backend between two runs. [tree_open] makes the pages of an
    empty tree when the meta page has no record, and finds the tree again otherwise; [tree_flush]
    brings the backend up to date with the pool. *)
From S2P Require Export BTreeProps.

Section open.
Context `{PageStoreLaws St Er}.

Implicit Types (p : BufferPool St) (fs : fsys) (N : gmap PageId Node) (kv : gmap bytes bytes)
  (m : gmap PageId Page) (s : St).

Abbreviation T := (M (BufferPool St) (BTreeError Er)).

(** The pages [m] of a backend represent the nodes [N]. *)
Definition pages_nodes m N (next : PageId) : Prop :=
  (forall id nd, N !! id = Some nd -> node_rep (stored m id) nd) /\
  forall id, is_Some (N !! id) -> (0 <= id < next)%Z.

(** The pages [m] of a backend hold a tree that denotes [kv]. *)
Definition pages_tree (lim : nat) m kv (next : PageId) : Prop :=
  exists N h (t : tree h) chain, pages_nodes m N next /\ tree_holds lim h t chain N /\
    denotes (tree_entries h t) kv.

#[local] Instance not_empty_dec (nd : Node) : Decision (nd <> NEmpty).
Proof. by destruct nd; [left..|right; intros []]. Defined.

(** The nodes that are not empty pages; the tree consists of them, and they are all stored. *)
Definition used_nodes N : gmap PageId Node := filter (fun e => e.2 <> NEmpty) N.

Lemma used_nodes_lookup N (id : PageId) (nd : Node) :
  N !! id = Some nd -> nd <> NEmpty -> used_nodes N !! id = Some nd.
Proof. intros Hn Hne. apply map_lookup_filter_Some. done. Qed.

Lemma used_nodes_tree (lim h : nat) (t : tree h) (chain : list leaf) N :
  tree_holds lim h t chain N -> tree_holds lim h t chain (used_nodes N).
Proof.
  intros [T1 T2 T3 T4 T5 T6 T7 T8]. split; try done.
  - by apply used_nodes_lookup.
  - eapply in_mem_frame; [|exact T2]. intros id Hid.
    destruct (tree_ids_typed N h t id T2 Hid) as [(l & _ & _ & Hl)|[es Hes]];
      [rewrite Hl|rewrite Hes]; by apply used_nodes_lookup.
  - eapply Forall_impl; [exact T5|]. intros l Hl. by apply used_nodes_lookup.
Qed.

Lemma pages_nodes_used m N (next next' : PageId) :
  pages_nodes m N next -> (forall id, is_Some (m !! id) -> (id < next')%Z) ->
  pages_nodes m (used_nodes N) next'.
Proof.
  intros [Hm Hids] Hlt. split.
  - intros id nd [Hnd _]%map_lookup_filter_Some. by apply Hm.
  - intros id [nd [Hnd Hne]%map_lookup_filter_Some]. simpl in Hne.
    split; [apply Hids; by eexists|]. apply Hlt. pose proof (Hm id nd Hnd) as Hrep.
    unfold stored in Hrep. destruct (m !! id) as [pg|]; [by eexists|]. exfalso.
    destruct Hrep as [Ht Hp _ _]. destruct nd as [es nx|es|root|]; [done|done| |done].
    cbn [default] in Hp. pose proof (page_get_rep _ _ 0 Hp) as Hg.
    pose proof (page_get_rep _ _ 0 (page_new_rep Data)) as Hg0. rewrite Hg in Hg0. done.
Qed.

Lemma pages_tree_next (lim : nat) m kv (next next' : PageId) :
  pages_tree lim m kv next -> (forall id, is_Some (m !! id) -> (id < next')%Z) ->
  pages_tree lim m kv next'.
Proof.
  intros (N & h & t & chain & Hm & Ht & Hd) Hlt. exists (used_nodes N), h, t, chain.
  split; [by eapply pages_nodes_used|]. split; [by apply used_nodes_tree|done].
Qed.

Lemma pool_nodes_new (n cap : nat) s fs m N (next : PageId) :
  ps_view n s fs m next -> 0 < cap -> pages_nodes m N next ->
  pool_nodes n cap ∅ ∅ (mkPool s cap [] ∅ 0) fs N next.
Proof.
  intros Hv Hc [Hm Hids]. split; [|done| |done|done].
  - exists m. split; [|exact Hm]. split; simpl; [done|done|lia|done| |].
    + intros id i. rewrite lookup_empty. split; [done|]. by intros (_ & f & Hf & _).
    + intros i f _ Hf. done.
  - intros id. rewrite decide_False by set_solver. done.
Qed.

Lemma nodes_flush (n cap : nat) p fs N (next : PageId) :
  pool_nodes (cap + n) cap ∅ ∅ p fs N next ->
  wpc no_faults (buf flush_all : T unit) p fs
    (fun _ p' fs' => pool_nodes n cap ∅ ∅ p' fs' N next /\
       exists m, ps_view n (pool_store p') fs' m next /\ pages_nodes m N next)
    (fun _ _ _ => False) (fun _ => False).
Proof.
  intros [(m & Hi & Hm) Hc Hp HU Hids]. unfold buf. wpc_step.
  pose proof (pi_len _ _ _ _ _ _ _ Hi) as Hl. rewrite Hc in Hl.
  eapply wpc_mono; [apply (wpc_flush_all n p fs m next)| |done|done].
  { eapply pool_inv_weaken; [|exact Hi]. lia. }
  intros [] p' fs' (m' & Hi' & Hco & Hcap & Hpins). split.
  - split; [|congruence|intros id; by rewrite Hpins|done|done].
    exists m'. split; [done|]. intros id nd Hnd. destruct (Hco id) as [-> _]. by apply Hm.
  - exists m'. split; [apply Hi'|]. split; [|done]. intros id nd Hnd.
    destruct (Hco id) as [_ ?]. eapply node_rep_equiv; [by symmetry|by apply Hm].
Qed.

(** ** Reopening *)

(** A meta page has a record exactly when there is a tree. *)
Lemma meta_slots (pg : Page) (nd : Node) :
  node_rep pg nd -> slot_ids pg = Some (Z.of_nat <$> List.seq 0 (length (node_records nd))).
Proof. intros Hrep. apply (slot_ids_records _ _ (nr_page _ _ Hrep)). Qed.

Lemma wpc_tree_open_existing (lim n cap : nat) s fs m kv (next : PageId) :
  ps_view (Datatypes.S n) s fs m next -> pages_tree lim m kv next -> 0 < cap ->
  wpc no_faults (tree_open s cap : M unit (BTreeError Er) _) tt fs
    (fun p _ fs' => btree_state lim n cap p fs' kv next) (fun _ _ _ => False) (fun _ => False).
Proof.
  intros Hv (N & h & t & chain & Hm & Ht & Hd) Hc.
  pose proof (pool_nodes_new _ cap s fs m N next Hv Hc Hm) as Hn.
  unfold tree_open, pool_new. rewrite decide_True by done. wpc_step. apply wpc_ret.
  wpc_step. wpc_step. eapply nodes_open; [exact Hn|apply Ht|done|].
  intros page p1 fs1 Hrep Hn1. rewrite (meta_slots _ _ Hrep). wpc_step. apply wpc_unwrap.
  cbn [node_records length List.seq fmap list_fmap]. wpc_step. wpc_step.
  eapply nodes_release; [exact Hn1|done|]. intros p2 Hn2. wpc_step. by exists N, h, t, chain.
Qed.

(** ** Creating *)

Lemma node_rep_empty : node_rep (page_new Data) NEmpty.
Proof. split; [done|apply page_new_rep|apply space_left_new|constructor]. Qed.

Lemma meta_inserted (page : Page) (root : PageId) :
  node_rep page NEmpty -> in_u64 root ->
  exists page', page_insert (le_bytes 8 root) page = (Ok 0%Z, page') /\ node_rep page' (NMeta root).
Proof.
  intros [_ Hp Hl _] Hr. cbn [node_records fmap list_fmap] in Hp, Hl.
  assert (Z.of_nat (SLOT_LEN + length (le_bytes 8 root)) <= free_end page - free_start page)%Z as Hfit.
  { unfold space_left in Hl. rewrite length_le_bytes, Hl. by vm_compute. }
  pose proof (page_insert_eq page [] (le_bytes 8 root) Hp) as He. rewrite decide_True in He by done.
  destruct (page_insert_rep page [] (le_bytes 8 root) Hp Hfit) as [Hp' Hl'].
  eexists. split; [exact He|]. split; [done|exact Hp'| |by constructor].
  unfold space_left in *. rewrite Hl', Hl. cbn [node_records]. rewrite record_space_cons. lia.
Qed.

Lemma NO_SIBLING_u64 : in_u64 NO_SIBLING.
Proof. unfold in_u64, NO_SIBLING. lia. Qed.

Lemma empty_leaf_fits : node_fits (NLeaf [] NO_SIBLING).
Proof.
  unfold node_fits. cbn [node_records fmap list_fmap]. rewrite record_space_cons.
  unfold encode_leaf_sibling. rewrite length_app, !length_le_bytes. unfold NODE_SPACE, PAGE_SIZE, PAGE_HEADER_LEN, SLOT_LEN. simpl. lia.
Qed.

Lemma empty_tree_holds (lim : nat) N (root : PageId) :
  N !! META_PAGE_ID = Some (NMeta root) -> N !! root = Some (NLeaf [] NO_SIBLING) ->
  tree_holds lim 0 (mkLf root [] NO_SIBLING) [mkLf root [] NO_SIBLING] N.
Proof.
  intros Hm Hl. split; [exact Hm|exact Hl| |apply NoDup_singleton|by apply Forall_singleton|done| |].
  - split; [constructor|]. split; constructor.
  - apply NoDup_singleton.
  - apply weave_refl.
Qed.

Lemma wpc_tree_open_fresh (lim n cap : nat) s fs m (next : PageId) :
  ps_view (Datatypes.S (3 + n)) s fs m next -> m !! META_PAGE_ID = None -> (0 < next)%Z -> 1 < cap ->
  wpc no_faults (tree_open s cap : M unit (BTreeError Er) _) tt fs
    (fun p _ fs' => btree_state lim n cap p fs' ∅ (next + 1)) (fun _ _ _ => False) (fun _ => False).
Proof.
  intros Hv Hnone Hpos Hc.
  assert (pages_nodes m {[META_PAGE_ID := NEmpty]} next) as Hm.
  { split.
    - intros id nd [<- <-]%lookup_singleton_Some. unfold stored. rewrite Hnone. apply node_rep_empty.
    - intros id Hs%lookup_singleton_is_Some. subst id. unfold META_PAGE_ID. lia. }
  pose proof (pool_nodes_new _ cap s fs m _ next Hv ltac:(lia) Hm) as Hn.
  unfold tree_open, pool_new. rewrite decide_True by lia. wpc_step. apply wpc_ret.
  wpc_step. wpc_step. eapply nodes_open; [exact Hn|apply lookup_singleton_eq|lia|].
  intros page p1 fs1 Hrep Hn1. rewrite (meta_slots _ _ Hrep). wpc_step. apply wpc_unwrap.
  cbn [node_records length List.seq fmap list_fmap]. wpc_step. wpc_step.
  eapply (nodes_new_page (1 + n)); [eapply pool_nodes_weaken; [|exact Hn1]; lia|rewrite union_empty_r_L, size_singleton; lia|].
  intros p2 fs2 Hn2 Hnext Hnx Hu64.
  assert (next <> META_PAGE_ID) as Hne by (intros ->; unfold META_PAGE_ID in Hpos; lia).
  wpc_step. destruct (builds_fits _ _ (build_leaf_builds [] NO_SIBLING NO_SIBLING_u64) empty_leaf_fits)
    as (leaf & -> & Hleaf). apply wpc_lift_ok.
  wpc_step. eapply nodes_set_page; [exact Hn2|set_solver|exact Hleaf|]. intros p3 Hn3.
  wpc_step. eapply nodes_unpin; [exact Hn3|set_solver|done|]. intros p4 Hn4.
  wpc_step. eapply nodes_the_page; [exact Hn4|set_solver|by rewrite lookup_insert_ne, lookup_singleton_eq|].
  intros meta Hmeta. destruct (meta_inserted meta next Hmeta Hu64) as (meta' & -> & Hmeta').
  wpc_step. eapply nodes_set_page; [exact Hn4|set_solver|exact Hmeta'|]. intros p5 Hn5.
  wpc_step. apply wpc_lift_ok. wpc_step. 
  eapply nodes_unpin; [exact Hn5|set_solver|done|]. intros p6 Hn6. wpc_step.
  eexists _, 0, (mkLf next [] NO_SIBLING), _. split; [|split; [apply empty_tree_holds|]].
  - eapply pool_nodes_idle; [eapply pool_nodes_weaken; [|exact Hn6]; lia|set_solver].
  - apply lookup_insert_eq.
  - rewrite lookup_insert_ne by done. apply lookup_insert_eq.
  - intros k v. rewrite lookup_empty. split; [done|]. by intros ?%not_elem_of_nil.
Qed.

(** ** Flushing *)

Lemma wpc_tree_flush (lim n cap : nat) p fs kv (next : PageId) :
  btree_state lim (cap + n) cap p fs kv next ->
  wpc no_faults (tree_flush : T unit) p fs
    (fun _ p' fs' => btree_state lim n cap p' fs' kv next /\
       exists m, ps_view n (pool_store p') fs' m next /\ pages_tree lim m kv next)
    (fun _ _ _ => False) (fun _ => False).
Proof.
  intros (N & h & t & chain & Hn & Ht & Hd). eapply wpc_mono; [by apply (nodes_flush n cap p fs N next)| |done|done].
  intros [] p' fs' (Hn' & m & Hv & Hm). split; [by exists N, h, t, chain|].
  exists m. split; [done|]. by exists N, h, t, chain.
Qed.
End open.
