(* ===== verification/TreeCapacity.v ===== *)
(** * TreeCapacity: how many entries a tree of a given height holds

    The pages of a node bound the entries of a leaf and the children of a branch, so that a tree
    with many entries is high. *)
From S2P Require Export BTreeOpen.

(** The entries of at least [e] bytes of key and value that a leaf holds, at most. *)
Definition leaf_capacity (e : nat) : nat := (NODE_SPACE - 14) / (8 + e).

(** The children of a branch, at most: all separators but the first have a byte. *)
Definition branch_capacity : nat := (NODE_SPACE + 2) / 15.

Definition tree_capacity (e h : nat) : nat := leaf_capacity e * branch_capacity ^ h.

Lemma tree_capacity_mono (e h h' : nat) : h <= h' -> tree_capacity e h <= tree_capacity e h'.
Proof. intros Hh. apply Nat.mul_le_mono_l, Nat.pow_le_mono_r; [done|exact Hh]. Qed.

(** A tree with more entries than a height has room for is higher. *)
Lemma tree_capacity_lt (e h m n : nat) : n <= tree_capacity e h -> tree_capacity e m < n -> m < h.
Proof.
  intros Hn Hm. destruct (decide (m < h)) as [|Hge]; [done|].
  pose proof (tree_capacity_mono e h m ltac:(lia)). lia.
Qed.

Lemma sum_list_with_lower {A} (f : A -> nat) (c : nat) (l : list A) :
  Forall (fun x => c <= f x) l -> length l * c <= sum_list_with f l.
Proof. induction 1 as [|x l Hx _ IH]; [done|]. rewrite sum_list_with_cons. simpl. lia. Qed.

Lemma leaf_entries_bound (e : nat) (es : list Entry) (next : PageId) :
  node_fits (NLeaf es next) -> Forall (fun x => e <= length x.1 + length x.2) es -> length es <= leaf_capacity e.
Proof.
  unfold node_fits. rewrite leaf_space. intros Hf He. unfold leaf_capacity.
  apply Nat.div_le_lower_bound; [lia|]. pose proof (sum_list_with_lower entry_space (8 + e) es) as Hs.
  rewrite Nat.mul_comm. etrans; [apply Hs|lia]. eapply Forall_impl; [exact He|]. intros x Hx. cbn beta in *. unfold entry_space. lia.
Qed.

Section kids.
Context {h : nat} (P : bound -> bound -> tree h -> Prop) (lim : nat).

Lemma kids_space_bound (lo hi : bound) (k : bytes) (c : tree h) (m : list (option bytes * tree h)) :
  ordered_kids P lim lo hi ((Some k, c) :: m) ->
  15 * length m + 14 + length k <= sum_list_with kid_space (kid_entry <$> (Some k, c) :: m).
Proof.
  revert k c. induction m as [|[[k'|] c'] m IH]; intros k c Ho; rewrite fmap_cons, sum_list_with_cons.
  - simpl. unfold kid_space. simpl. lia.
  - pose proof Ho as (_ & Hlt & _ & _ & Ho'). specialize (IH k' c' Ho'). cbn in Hlt.
    assert (0 < length k') as Hk' by (destruct k'; [by destruct k|simpl; lia]).
    unfold kid_space at 1. cbn [kid_entry ie_key fst default from_option]. simpl length. unfold id. lia.
  - by destruct Ho as (_ & _ & [] & _).
Qed.

Lemma kids_bound (lo hi : bound) (c : tree h) (m : list (option bytes * tree h)) :
  ordered_kids P lim lo hi ((None, c) :: m) -> node_fits (NInternal (kid_entry <$> (None, c) :: m)) ->
  length ((None, c) :: m) <= branch_capacity.
Proof.
  unfold node_fits. rewrite internal_space. intros Ho Hf. unfold branch_capacity. apply Nat.div_le_lower_bound; [lia|].
  rewrite fmap_cons, sum_list_with_cons in Hf. unfold kid_space at 1 in Hf. destruct m as [|[[k|] c'] m].
  - simpl. unfold NODE_SPACE, PAGE_SIZE, PAGE_HEADER_LEN. lia.
  - pose proof Ho as (_ & _ & _ & _ & Ho'). apply kids_space_bound in Ho'. cbn [kid_entry ie_key fst default from_option] in *.
    simpl length in *. unfold id in *. lia.
  - by destruct Ho as (_ & _ & [] & _).
Qed.
End kids.

Lemma good_capacity (N : gmap PageId Node) (lim e h : nat) (lo hi : bound) (t : tree h) :
  in_mem N h t -> good lim h lo hi t -> (forall id nd, N !! id = Some nd -> node_fits nd) ->
  Forall (fun x => e <= length x.1 + length x.2) (tree_entries h t) ->
  length (tree_entries h t) <= tree_capacity e h.
Proof.
  intros Hm Hg Hfit. revert lo hi t Hm Hg. unfold tree_capacity.
  induction h as [|h IH]; intros lo hi t Hm Hg He.
  - simpl in *. unfold tree_entries in *. simpl in *. rewrite app_nil_r in *. rewrite Nat.mul_1_r.
    eapply leaf_entries_bound; [exact (Hfit _ _ Hm)|done].
  - destruct t as [id kids]. destruct Hm as [Hroot Hkids], Hg as [(c & m & Hk) Ho]. cbn [br_kids br_id] in *. subst kids.
    pose proof (kids_bound _ _ _ _ _ _ Ho (Hfit _ _ Hroot)) as Hn.
    rewrite tree_entries_S in *. cbn [br_kids] in *.
    assert (length (kids_entries ((None, c) :: m)) <= length ((None, c) :: m) * (leaf_capacity e * branch_capacity ^ h)) as Hl.
    { clear Hn Hroot. revert Ho Hkids He. generalize ((None, c) :: m) as l. clear c m.
      induction l as [|[b c] l IHl]; intros Ho Hkids He; [done|]. rewrite kids_entries_cons in *.
      apply Forall_app in He as [He1 He2]. apply Forall_cons in Hkids as [Hc Hkids].
      destruct Ho as (Hgc & _ & _ & _ & Ho). rewrite length_app. specialize (IHl Ho Hkids He2).
      specialize (IH _ _ c Hc Hgc He1). cbn [snd] in *. simpl length. lia. }
    rewrite Nat.pow_succ_r'. etrans; [exact Hl|]. etrans; [apply Nat.mul_le_mono_r, Hn|]. lia.
Qed.

(** ** The depth of a tree *)

Section depth.
Context `{PageStoreLaws St Er}.

Implicit Types (p : BufferPool St) (fs : fsys) (kv : gmap bytes bytes).

Lemma denotes_length (es : list Entry) kv : denotes es kv -> StronglySorted key_lt es -> length es = size kv.
Proof.
  intros Hd Hs. rewrite <-(denotes_bt_iter es kv Hd Hs). unfold bt_iter.
  rewrite (Permutation_length (sort_by_perm entry_leb (map_to_list kv))). by rewrite length_map_to_list.
Qed.

(** [depth] returns the number of levels, and that many levels hold the entries. *)
Lemma wpc_tree_depth_at (h lim n cap : nat) p fs kv (next : PageId) (fuel : nat) :
  btree_at h lim (h + 2 + n) cap p fs kv next -> 0 < cap -> Z.to_nat next <= fuel ->
  wpc no_faults (tree_depth fuel : M (BufferPool St) (BTreeError Er) nat) p fs
    (fun d p' fs' => d = h + 1 /\ btree_at h lim n cap p' fs' kv next /\
       forall e, (forall k v, kv !! k = Some v -> e <= length k + length v) -> size kv <= tree_capacity e h)
    (fun _ _ _ => False) (fun _ => False).
Proof.
  intros (N & t & chain & Hn & Ht & Hd) Hc Hfuel. destruct (tree_holds_fuel _ _ _ _ _ _ _ _ _ _ Hn Ht) as [[F1 F2] F3].
  unfold tree_depth. wpc_step. eapply (wpc_root_id (Datatypes.S h + n)).
  { eapply pool_nodes_weaken; [|exact Hn]. lia. }
  { apply Ht. }
  { done. }
  intros p1 fs1 Hn1. eapply (wpc_depth_loop lim n cap N next h t None None); [lia|exact Hn1|done|apply Ht|apply Ht|].
  intros p2 fs2 Hn2. split; [lia|]. split; [by exists N, t, chain|]. intros e He.
  pose proof (good_entries lim h None None t (th_good _ _ _ _ _ Ht)) as [Hs _].
  rewrite <-(denotes_length _ _ Hd Hs). eapply (good_capacity N lim e h None None); [apply Ht|apply Ht| |].
  - intros id nd Hnd. destruct (pn_pool _ _ _ _ _ _ _ _ Hn) as (m & _ & Hm). apply (nr_space _ _ (Hm _ _ Hnd)).
  - apply Forall_forall. intros [k v] Hkv. apply He, Hd. exact Hkv.
Qed.
End depth.
