(* ===== verification/TreeTheorems.v ===== *)
(** * TreeTheorems: the B+tree refines a finite map

    The contract of [tree_open], [tree_get], [tree_insert], [tree_delete], the scans, [tree_depth]
    and [tree_flush], over any backend of the pool that satisfies the laws; and the execution that
    shows where the contract of [tree_insert] ends. *)
From S2P Require Export TreeCapacity Limits.

Section tree_theorems.
Context `{PageStoreLaws St Er}.

Implicit Types (p : BufferPool St) (fs : fsys) (kv : gmap bytes bytes) (m : gmap PageId Page) (s : St).

Abbreviation T := (M (BufferPool St) (BTreeError Er)).

(** C27: Reads of the tree: on a pool that holds a tree denoting [kv], with the number of allocated
    pages as fuel, [get] is lookup in [kv], [scan_all] lists the entries of [kv] in key order, and
    [scan_range] those with [start <= key < end_]; none of them fails or panics, and each leaves
    the map as it was with no page pinned. *)
Theorem tree_reads_correct (lim n cap : nat) p fs kv (next : PageId) (fuel : nat) (key start end_ : bytes) :
  btree_state lim (tree_cost next + n) cap p fs kv next -> 0 < cap -> Z.to_nat next <= fuel ->
  wpc no_faults (tree_get fuel key : T (option bytes)) p fs
    (fun r p' fs' => r = kv !! key /\ btree_state lim n cap p' fs' kv next)
    (fun _ _ _ => False) (fun _ => False) /\
  wpc no_faults (scan_all fuel : T (list Entry)) p fs
    (fun r p' fs' => r = bt_iter kv /\ btree_state lim n cap p' fs' kv next)
    (fun _ _ _ => False) (fun _ => False) /\
  wpc no_faults (scan_range fuel start end_ : T (list Entry)) p fs
    (fun r p' fs' => r = filter (in_scan start end_) (bt_iter kv) /\ btree_state lim n cap p' fs' kv next)
    (fun _ _ _ => False) (fun _ => False).
Proof.
  intros Hs Hc Hf. split; [by apply wpc_tree_get|]. split; [by apply wpc_scan_all|by apply wpc_scan_range].
Qed.

(** C25: Insertion: on a pool that holds a tree denoting [kv] with entries of at most [lim] bytes,
    [insert] returns a tree that denotes [kv] with the key bound to the value, whatever splits it
    takes, up to a new root, with at most one new page per level; it can fail only with [Full], and only when [lim] exceeds
    [MAX_ENTRY] = 168 bytes. *)
Theorem tree_insert_correct (lim n cap : nat) p fs kv (next : PageId) (fuel : nat) (key value : bytes) :
  btree_state lim (tree_cost next + n) cap p fs kv next -> 1 < cap -> Z.to_nat next <= fuel ->
  length key + length value <= lim ->
  wpc no_faults (tree_insert fuel key value : T unit) p fs
    (fun _ p' fs' => exists next', (next <= next' <= 2 * next + 2)%Z /\
       btree_state lim n cap p' fs' (<[key := value]> kv) next')
    (fun e _ _ => (exists needed available, e = BtPage (Full needed available)) /\ MAX_ENTRY < lim)
    (fun _ => False).
Proof. apply wpc_tree_insert. Qed.

(** C26: Deletion: on a pool that holds a tree denoting [kv], [delete] never fails, tells whether
    the key was bound, and returns a tree that denotes [kv] without the key, through the removal of
    emptied leaves, of branches left without children, and of roots with a single child. *)
Theorem tree_delete_correct (lim n cap : nat) p fs kv (next : PageId) (fuel : nat) (key : bytes) :
  btree_state lim (tree_cost next + n) cap p fs kv next -> 0 < cap -> Z.to_nat next <= fuel ->
  wpc no_faults (tree_delete fuel key : T bool) p fs
    (fun r p' fs' => r = bool_decide (is_Some (kv !! key)) /\ btree_state lim n cap p' fs' (delete key kv) next)
    (fun _ _ _ => False) (fun _ => False).
Proof. apply wpc_tree_delete. Qed.

(** A fresh tree: on a backend without a meta page, [open] with at least two frames returns the
    tree that denotes the empty map, one page being allocated. *)
Theorem tree_open_creates (lim n cap : nat) s fs m (next : PageId) :
  ps_view (4 + n) s fs m next -> m !! META_PAGE_ID = None -> (0 < next)%Z -> 1 < cap ->
  wpc no_faults (tree_open s cap : M unit (BTreeError Er) _) tt fs
    (fun p _ fs' => btree_state lim n cap p fs' ∅ (next + 1)) (fun _ _ _ => False) (fun _ => False).
Proof. apply (wpc_tree_open_fresh lim n cap s fs m next). Qed.

(** C28: Persistence: [flush] keeps the tree, and the backend it leaves holds the tree by itself:
    [open] on that backend, with a pool of any size, returns a tree that denotes the same map. *)
Theorem tree_flush_reopen (lim n cap : nat) p fs kv (next : PageId) :
  btree_state lim (cap + Datatypes.S n) cap p fs kv next ->
  wpc no_faults (tree_flush : T unit) p fs
    (fun _ p' fs' => btree_state lim n cap p' fs' kv next /\
       forall cap', 0 < cap' ->
         wpc no_faults (tree_open (pool_store p') cap' : M unit (BTreeError Er) _) tt fs'
           (fun p2 _ fs2 => btree_state lim n cap' p2 fs2 kv next) (fun _ _ _ => False) (fun _ => False))
    (fun _ _ _ => False) (fun _ => False).
Proof.
  intros Hs. eapply wpc_mono; [by apply (wpc_tree_flush lim (Datatypes.S n) cap p fs kv next)| |done|done].
  intros [] p' fs' (Hs' & m & Hv & Hm). split.
  - destruct Hs' as (N & h & t & chain & Hn & Ht & Hd). exists N, h, t, chain. split; [|done].
    eapply pool_nodes_weaken; [|exact Hn]. lia.
  - intros cap' Hc. by apply (wpc_tree_open_existing lim n cap' _ fs' m).
Qed.

(** C29: Descents end: the leftmost path that [depth] walks has at most as many pages as were ever
    allocated, which is the fuel every operation needs; [depth] returns its length, that many
    levels have room for the entries of the tree, so that a large tree is deep, and the tree is
    unchanged. *)
Theorem tree_depth_bounded (lim n cap : nat) p fs kv (next : PageId) (fuel : nat) :
  btree_state lim (tree_cost next + n) cap p fs kv next -> 0 < cap -> Z.to_nat next <= fuel ->
  wpc no_faults (tree_depth fuel : T nat) p fs
    (fun d p' fs' => 0 < d <= Z.to_nat next /\
       (forall e, (forall k v, kv !! k = Some v -> e <= length k + length v) -> size kv <= tree_capacity e (d - 1)) /\
       btree_state lim n cap p' fs' kv next)
    (fun _ _ _ => False) (fun _ => False).
Proof.
  rewrite btree_state_at. intros [h Hs] Hc Hfuel. pose proof (btree_at_height _ _ _ _ _ _ _ _ Hs) as (Hh & _ & _).
  eapply wpc_mono; [apply (wpc_tree_depth_at h lim n cap p fs kv next fuel); [|done|done]| |done|done].
  { eapply btree_at_weaken; [|exact Hs]. unfold tree_cost. lia. }
  intros d p' fs' (-> & Hs' & Hcount). rewrite Nat.add_sub. split; [lia|]. split; [done|].
  apply btree_state_at. by exists h.
Qed.

(** Nodes survive their page: [build_leaf] and [build_internal] succeed exactly when the records
    with their slots fit the space of a page, and then the readers return the entries, keyless
    leftmost child included, and the sibling; otherwise they fail with [Full]. *)
Theorem node_pages_roundtrip (es : list Entry) (next_sibling : PageId) (ies : list InternalEntry) :
  in_u64 next_sibling -> Forall in_u64 (ie_child <$> ies) ->
  (if decide (node_fits (NLeaf es next_sibling)) then
     exists page, build_leaf es next_sibling = Ok page /\ page_type page = BTreeLeaf /\
       read_leaf_entries page = Some es /\ read_leaf_sibling page = Some next_sibling
   else exists needed available, build_leaf es next_sibling = Err (Full needed available)) /\
  (if decide (node_fits (NInternal ies)) then
     exists page, build_internal ies = Ok page /\ page_type page = BTreeInternal /\
       read_internal_entries page = Some ies
   else exists needed available, build_internal ies = Err (Full needed available)).
Proof.
  intros Hn Hc. pose proof (build_leaf_builds es next_sibling Hn) as Hl.
  pose proof (build_internal_builds ies Hc) as Hi. unfold builds in *. split.
  - destruct (decide (node_fits (NLeaf es next_sibling))); [|exact Hl].
    destruct Hl as (page & -> & Hr). exists page. split; [done|]. split; [apply (nr_type _ _ Hr)|].
    by apply read_leaf_rep.
  - destruct (decide (node_fits (NInternal ies))); [|exact Hi].
    destruct Hi as (page & -> & Hr). exists page. split; [done|]. split; [apply (nr_type _ _ Hr)|].
    by apply read_internal_rep.
Qed.
End tree_theorems.

(** ** A concrete tree *)

Section tree_witnesses.
#[local] Existing Instances sum_crc32.

Abbreviation MT := (M (BufferPool MemPageStore) (BTreeError Empty_set)).

(** The pool after a run, starting from [p]. *)
Definition after {A : Type} (m : MT A) (p : BufferPool MemPageStore) : BufferPool MemPageStore :=
  (m p (mkWorld empty_fs [])).1.2.

(** A fresh tree in four frames over the in-memory backend, and the tree after one insertion. *)
Definition empty_tree : BufferPool MemPageStore :=
  match (tree_open mem_new 4 : M unit (BTreeError Empty_set) _) tt (mkWorld empty_fs []) with
  | (Ok p, _, _) => p
  | _ => mkPool mem_new 4 [] ∅ 0
  end.

Definition example_tree : BufferPool MemPageStore := after (tree_insert 2 [x61] [x31]) empty_tree.

(** The in-memory backend does not look at the file system, and counts the pages itself. *)
Lemma btree_state_mem (lim n cap : nat) (p : BufferPool MemPageStore) (fs fs' : fsys)
    (kv : gmap bytes bytes) (next : PageId) :
  btree_state lim n cap p fs kv next ->
  btree_state lim n cap p fs' kv next /\ mem_next_id (pool_store p) = next.
Proof.
  intros (N & h & t & chain & [(m & [V1 V2 V3 V4 V5 V6] & Hm) P1 P2 P3 P4] & Ht). split; [|apply V1].
  exists N, h, t, chain. split; [|done]. split; [|done..]. by exists m.
Qed.

Lemma empty_tree_state (n : nat) :
  (Z.of_nat n < 2 ^ 63)%Z -> btree_state 168 n 4 empty_tree empty_fs ∅ 2.
Proof.
  intros Hn. assert (ps_view (Datatypes.S (3 + n)) mem_new empty_fs ∅ 1) as Hv by (apply mem_new_view; lia).
  assert (0 < 1)%Z as H01 by lia. assert (1 < 4) as H14 by lia.
  pose proof (wpc_tree_open_fresh 168 n 4 mem_new empty_fs ∅ 1 Hv (lookup_empty _) H01 H14) as Hw.
  apply wpc_run in Hw as (p & s & w & Hr & Hs). unfold empty_tree. rewrite Hr.
  by apply btree_state_mem with (fs' := empty_fs) in Hs as [Hs _].
Qed.

Lemma example_tree_state (n : nat) :
  (Z.of_nat n < 2 ^ 62)%Z -> btree_state 168 n 4 example_tree empty_fs {[ [x61] := [x31] ]} 2.
Proof.
  intros Hn. assert (btree_state 168 (tree_cost 2 + n) 4 empty_tree empty_fs ∅ 2) as Hs0
    by (apply empty_tree_state; unfold tree_cost; lia).
  assert (wpc no_faults (tree_insert 2 [x61] [x31] : MT unit) empty_tree empty_fs
    (fun _ p' fs' => exists next', (2 <= next' <= 2 * 2 + 2)%Z /\ btree_state 168 n 4 p' fs' (<[ [x61] := [x31] ]> ∅) next')
    (fun _ _ _ => False) (fun _ => False)) as Hw.
  { eapply wpc_mono; [apply (wpc_tree_insert 168 n 4 _ _ _ 2 2 _ _ Hs0); simpl; lia|done| |done].
    intros e s' fs' [_ Hlim]. unfold MAX_ENTRY in Hlim. lia. }
  apply wpc_run in Hw as ([] & p & w & Hr & next & _ & Hs). unfold example_tree, after. rewrite Hr. simpl.
  apply btree_state_mem with (fs' := empty_fs) in Hs as [Hs Hnext].
  assert (next = 2%Z) as ->; [|by rewrite insert_empty in Hs].
  rewrite <-Hnext.
  assert (mem_next_id (pool_store example_tree) = 2%Z) as Hc by by vm_compute.
  unfold example_tree, after in Hc. by rewrite Hr in Hc.
Qed.

Lemma tree_reads_correct_witness :
  let kv : gmap bytes bytes := {[ [x61] := [x31] ]} in
  wpc no_faults (tree_get 2 [x61] : MT (option bytes)) example_tree empty_fs
    (fun r p' fs' => r = kv !! [x61] /\ btree_state 168 5 4 p' fs' kv 2) (fun _ _ _ => False) (fun _ => False) /\
  wpc no_faults (scan_all 2 : MT (list Entry)) example_tree empty_fs
    (fun r p' fs' => r = bt_iter kv /\ btree_state 168 5 4 p' fs' kv 2)
    (fun _ _ _ => False) (fun _ => False) /\
  wpc no_faults (scan_range 2 [x60] [x62] : MT (list Entry)) example_tree empty_fs
    (fun r p' fs' => r = filter (in_scan [x60] [x62]) (bt_iter kv) /\ btree_state 168 5 4 p' fs' kv 2)
    (fun _ _ _ => False) (fun _ => False).
Proof. intros kv. apply tree_reads_correct; [by apply example_tree_state|lia|done]. Defined.

Lemma tree_insert_correct_witness :
  wpc no_faults (tree_insert 2 [x62] [x32] : MT unit) example_tree empty_fs
    (fun _ p' fs' => exists next', (2 <= next' <= 2 * 2 + 2)%Z /\
       btree_state 168 5 4 p' fs' (<[ [x62] := [x32] ]> {[ [x61] := [x31] ]}) next')
    (fun e _ _ => (exists needed available, e = BtPage (Full needed available)) /\ MAX_ENTRY < 168)
    (fun _ => False).
Proof. apply tree_insert_correct; [by apply example_tree_state|lia|done|simpl; lia]. Defined.

Lemma tree_delete_correct_witness :
  let kv : gmap bytes bytes := {[ [x61] := [x31] ]} in
  wpc no_faults (tree_delete 2 [x61] : MT bool) example_tree empty_fs
    (fun r p' fs' => r = bool_decide (is_Some (kv !! [x61])) /\
       btree_state 168 5 4 p' fs' (delete [x61] kv) 2)
    (fun _ _ _ => False) (fun _ => False).
Proof. intros kv. apply tree_delete_correct; [by apply example_tree_state|lia|done]. Defined.

Lemma tree_open_creates_witness :
  wpc no_faults (tree_open mem_new 4 : M unit (BTreeError Empty_set) _) tt empty_fs
    (fun p _ fs' => btree_state 168 5 4 p fs' ∅ (1 + 1)) (fun _ _ _ => False) (fun _ => False).
Proof. apply (tree_open_creates 168 5 4 mem_new empty_fs ∅ 1); [by apply mem_new_view|done|lia|lia]. Defined.

Lemma tree_flush_reopen_witness :
  wpc no_faults (tree_flush : MT unit) example_tree empty_fs
    (fun _ p' fs' => btree_state 168 5 4 p' fs' {[ [x61] := [x31] ]} 2 /\
       forall cap', 0 < cap' ->
         wpc no_faults (tree_open (pool_store p') cap' : M unit (BTreeError Empty_set) _) tt fs'
           (fun p2 _ fs2 => btree_state 168 5 cap' p2 fs2 {[ [x61] := [x31] ]} 2)
           (fun _ _ _ => False) (fun _ => False))
    (fun _ _ _ => False) (fun _ => False).
Proof. apply tree_flush_reopen. by apply example_tree_state. Defined.

Lemma tree_depth_bounded_witness :
  wpc no_faults (tree_depth 2 : MT nat) example_tree empty_fs
    (fun d p' fs' => 0 < d <= Z.to_nat 2 /\
       (forall e, (forall k v, ({[ [x61] := [x31] ]} : gmap bytes bytes) !! k = Some v -> e <= length k + length v) ->
          size ({[ [x61] := [x31] ]} : gmap bytes bytes) <= tree_capacity e (d - 1)) /\
       btree_state 168 5 4 p' fs' {[ [x61] := [x31] ]} 2)
    (fun _ _ _ => False) (fun _ => False).
Proof. apply tree_depth_bounded; [by apply example_tree_state|lia|done]. Defined.

Lemma node_pages_roundtrip_witness :
  let es : list Entry := [([x61], [x31])] in
  let ies := [mkInternal None 1; mkInternal (Some [x61]) 2] in
  (if decide (node_fits (NLeaf es 7)) then
     exists page, build_leaf es 7 = Ok page /\ page_type page = BTreeLeaf /\
       read_leaf_entries page = Some es /\ read_leaf_sibling page = Some 7%Z
   else exists needed available, build_leaf es 7 = Err (Full needed available)) /\
  (if decide (node_fits (NInternal ies)) then
     exists page, build_internal ies = Ok page /\ page_type page = BTreeInternal /\
       read_internal_entries page = Some ies
   else exists needed available, build_internal ies = Err (Full needed available)).
Proof.
  intros es ies. apply node_pages_roundtrip; [unfold in_u64; lia|].
  repeat constructor; unfold in_u64; simpl; lia.
Defined.

(** ** Where the contract ends *)

(** Five short entries below three long ones. *)
Definition long_value : bytes := replicate 1300 x30.

Definition skewed_leaf : MT unit :=
  for_each (fun k => tree_insert 2 [k] [x30]) [x01; x02; x03; x04; x05];;
  for_each (fun k => tree_insert 2 [k] long_value) [x11; x12; x13].

(** C39: A failed insertion loses entries: a leaf splits at its middle entry, whatever the sizes, and
    the left half is written before the right half is known to fit. With five short entries below
    three long ones, of which each fits a page three times over, inserting a fourth long one fails
    with [Full], and a key that was readable before reads as absent afterwards. *)
Theorem skewed_split_loses_entries :
  node_fits (NLeaf [([x14], long_value); ([x14], long_value); ([x14], long_value)] NO_SIBLING) /\
  exists p w p' w' needed available,
    skewed_leaf empty_tree (mkWorld empty_fs []) = (Ok tt, p, w) /\
    (tree_get 3 [x13] p w).1.1 = Ok (Some long_value) /\
    tree_insert 3 [x14] long_value p w = (Err (BtPage (Full needed available)), p', w') /\
    (tree_get 3 [x13] p' w').1.1 = Ok None.
Proof.
  split; [apply (bool_decide_unpack _); vm_compute; reflexivity|].
  destruct (run_ok skewed_leaf empty_tree (mkWorld empty_fs []) (fun _ p w =>
    match (tree_get 3 [x13] p w).1.1 with
    | Ok (Some v) => bool_decide (v = long_value)
    | _ => false end &&
    match tree_insert 3 [x14] long_value p w with
    | (Err (BtPage (Full _ _)), p', w') =>
        match (tree_get 3 [x13] p' w').1.1 with Ok None => true | _ => false end
    | _ => false end)) as ([] & p & w & Hr & Hc); [vm_compute; reflexivity|].
  apply andb_true_iff in Hc as [Hc1 Hc2].
  destruct (tree_get 3 [x13] p w).1.1 as [[v|]|e| |] eqn:E1; try discriminate Hc1.
  apply bool_decide_eq_true in Hc1 as ->.
  destruct (tree_insert 3 [x14] long_value p w) as [[[[]|[e|[a b|i| |c|x y]|]| |] p'] w'] eqn:E2; try discriminate Hc2.
  destruct (tree_get 3 [x13] p' w').1.1 as [[v'|]|e| |] eqn:E3; try discriminate Hc2.
  exists p, w, p', w', a, b. exact (conj Hr (conj E1 (conj E2 E3))).
Qed.
End tree_witnesses.
