(* ===== verification/Confined.v ===== *)
(** * Confined: computations that stay below a directory

    The operations of a log, of the heap file backend, of the buffer pool and of the tree only
    touch files below the directory of their backend, however they end: whatever errors and
    crashes they meet, the rest of the file system is as before. *)
From S2P Require Export Frame HeapPageStore BTree SwapSpec.

(** Decomposes a computation. The frame of the intermediate values is that of a hint, or nothing. *)
Ltac keep :=
  repeat (intros; match goal with
  | |- keeps _ _ _ (mret _) => apply keeps_ret; by auto
  | |- keeps _ _ _ (throw _) => apply keeps_throw
  | |- keeps _ _ _ panic => apply keeps_panic
  | |- keeps _ _ _ (unwrap ?o) => destruct o; cbn [unwrap]
  | |- keeps _ _ _ (lift_res _ ?r) => destruct r; cbn [lift_res]
  | |- keeps _ _ _ (match ?x with _ => _ end) => destruct x
  | |- keeps _ _ _ (_ ≫= _) =>
      first [eapply keeps_bind; [solve [eauto 3 with frame]|] | apply (keeps_bind _ _ any)]
  | |- keeps _ _ _ (map_err _ _) => apply keeps_map_err
  | |- keeps _ _ _ _ => solve [eauto 3 with frame]
  | |- keeps _ _ any _ => eapply keeps_any; solve [eauto 3 with frame]
  end); intros.

Section lift.
Context {S E E1 A : Type} (I : S -> Prop) (P : fsys -> Prop).

Lemma keeps_unwrap (o : option A) : keeps I P any (unwrap o : M S E A).
Proof. destruct o; [by apply keeps_ret|apply keeps_panic]. Qed.

Lemma keeps_lift_res (f : E1 -> E) (r : Res E1 A) : keeps I P any (lift_res f r : M S E A).
Proof. intros s w Hs Hw. by destruct r. Qed.
End lift.

#[export] Hint Resolve keeps_unwrap keeps_lift_res : frame.

Section confined.
Context `{Crc32, DirOrder} (d : path) (fs0 : fsys).

(** The file system agrees with [fs0] outside of [d]. *)
Abbreviation P := (below d fs0).

(** A file below [d], and the parts of a component whose files are. *)
Definition file_inside (p : path) : Prop := exists n q, p = n :: q /\ d `suffix_of` q.

Definition inside (h : Handle) : Prop := file_inside (h_path h).

Definition seg_inside (s : Segment) : Prop := inside (seg_file s).

Definition log_inside (l : Log) : Prop := d `suffix_of` log_dir l /\ seg_inside (active l).

Definition heap_inside (s : HeapPageStore) : Prop := inside (heap_file s) /\ log_inside (location_log s).

Lemma below_put_inside (p : path) (f : File) (fs : fsys) : P fs -> file_inside p -> P (put_file p f fs).
Proof.
  intros Hb (n & q & -> & Hq) q' Hq'. rewrite put_file_dir_ne; [by apply Hb|]. by intros <-.
Qed.

(** ** Open files *)

Lemma keeps_seek_in (pos : nat) : keeps inside P any (seek pos).
Proof. by apply keeps_atomic. Qed.

Lemma keeps_write_all_in (bs : bytes) : keeps inside P any (write_all bs).
Proof.
  assert (forall bs h fs, inside h -> P fs -> inside (write_step bs h fs).1 /\ P (write_step bs h fs).2) as Hw.
  { intros bs' h fs Hh Hb. split; [done|]. simpl. destruct (file_at fs (h_path h)); [by apply below_put_inside|done]. }
  apply keeps_prim; [|by intros; apply Hw]. intros h fs Hh Hb. specialize (Hw bs h fs Hh Hb).
  destruct (file_at fs (h_path h)); [|done]. by destruct (write_step bs h fs), Hw.
Qed.

Lemma keeps_update_in (g : File -> File) (A : Type) (a : A) :
  keeps inside P any (atomic (fun h fs => match file_at fs (h_path h) with
    | Some f => (Ok a, h, put_file (h_path h) (g f) fs)
    | None => (Err NotFound, h, fs)
    end)).
Proof.
  apply keeps_atomic. intros h fs Hh Hb. destruct (file_at fs (h_path h)); [|done].
  split; [done|]. split; [by apply below_put_inside|done].
Qed.

Lemma keeps_set_len_in (len : nat) : keeps inside P any (set_len len).
Proof. apply (keeps_update_in (resize_file len)). Qed.

Lemma keeps_sync_data_in : keeps inside P any sync_data.
Proof. apply (keeps_update_in (fun f => mkFile (f_data f) (length (f_data f)))). Qed.

Lemma keeps_open_rw_in (p : path) : file_inside p -> keeps any P inside (open_rw_create p : M unit IoError Handle).
Proof.
  intros Hp. apply keeps_atomic. intros [] fs _ Hb. destruct p as [|n q]; [done|].
  destruct (fs !! (n :: q)), (fs !! q) as [files|]; try done. destruct (files !! n).
  - split; [done|]. split; [done|]. by intros h [= <-].
  - split; [done|]. split; [by apply below_put_inside|]. by intros h [= <-].
Qed.

#[local] Hint Resolve keeps_seek_in keeps_write_all_in keeps_set_len_in keeps_sync_data_in
  keeps_open_rw_in : frame.

(** ** Logs *)

Lemma keeps_open_for_append_in (p : path) (len : Z) :
  file_inside p -> keeps any P seg_inside (open_for_append p len).
Proof.
  intros Hp. unfold open_for_append. eapply keeps_bind; [by apply keeps_open_rw_in|]. intros h Hh.
  eapply keeps_bind; [apply (keeps_on _ _ inside any h _ Hh); apply keeps_set_len_in|]. intros [u h1] [_ Hh1].
  eapply keeps_bind; [apply (keeps_on _ _ inside any h1 _ Hh1); apply keeps_seek_in|]. intros [u2 h2] [_ Hh2].
  by apply keeps_ret.
Qed.

Lemma keeps_append_loop_in (rs : list LogRecord) (offset : Z) (offsets : list Z) :
  keeps seg_inside P any (append_loop rs offset offsets).
Proof.
  revert offset offsets. induction rs as [|r rs IH]; intros offset offsets; simpl; [by apply keeps_ret|].
  apply (keeps_bind _ _ any); [|intros; apply IH]. by eapply (keeps_zoom _ _ inside); [apply keeps_write_all_in| |].
Qed.

Lemma keeps_seg_append_batch_in (rs : list LogRecord) : keeps seg_inside P any (seg_append_batch rs).
Proof.
  unfold seg_append_batch. eapply keeps_bind; [apply keeps_get_state|]. intros self _.
  eapply keeps_bind; [apply keeps_append_loop_in|]. intros [offset offsets] _.
  apply (keeps_bind _ _ any); [by eapply (keeps_zoom _ _ inside); [apply keeps_sync_data_in| |]|]. intros _ _.
  apply (keeps_bind _ _ any); [by apply keeps_modify|]. intros _ _. by apply keeps_ret.
Qed.

Lemma keeps_roll_over_in (n : Z) : keeps log_inside P any (roll_over_if_needed n).
Proof.
  unfold roll_over_if_needed. eapply keeps_bind; [apply keeps_get_state|]. intros self _.
  case_match; [by apply keeps_ret|]. apply (keeps_bind _ _ any); [by apply keeps_modify|]. intros _ _.
  eapply keeps_bind; [apply keeps_get_state|]. intros l [Hl _].
  eapply (keeps_bind _ _ seg_inside).
  - apply keeps_io, keeps_map_err, keeps_open_for_append_in. by exists (segment_name (active_id l)), (log_dir l).
  - intros seg Hseg. apply keeps_modify; [|done]. by intros l' [Hl' _].
Qed.

Lemma keeps_log_append_batch_in (ops : list LogOp) : keeps log_inside P any (log_append_batch ops).
Proof.
  unfold log_append_batch. eapply keeps_bind; [apply keeps_get_state|]. intros self _.
  destruct (assign_seqs (next_seq self) ops) as [[records sq] total].
  eapply keeps_bind; [apply keeps_roll_over_in|]. intros _ _.
  apply (keeps_bind _ _ any).
  - eapply (keeps_zoom _ _ seg_inside); [apply keeps_map_err, keeps_seg_append_batch_in|by intros l [_ Hl]|].
    by intros l seg [Hl _] Hseg.
  - intros _ _. apply (keeps_bind _ _ any); [by apply keeps_modify|]. intros _ _. by apply keeps_ret.
Qed.

#[local] Hint Resolve keeps_log_append_batch_in : frame.

Lemma keeps_append_put_in (k v : bytes) : keeps log_inside P any (append_put k v).
Proof. unfold append_put, log_append. keep. Qed.

Lemma keeps_append_delete_in (k : bytes) : keeps log_inside P any (append_delete k).
Proof. unfold append_delete, log_append. keep. Qed.

Lemma keeps_append_verbatim_in (rs : list LogRecord) : keeps log_inside P any (append_records_verbatim rs).
Proof.
  unfold append_records_verbatim. destruct rs as [|r rs]; [by apply keeps_ret|].
  eapply keeps_bind; [apply keeps_roll_over_in|]. intros _ _.
  apply (keeps_bind _ _ any).
  - eapply (keeps_zoom _ _ seg_inside); [apply keeps_map_err, keeps_seg_append_batch_in|by intros l [_ Hl]|].
    by intros l seg [Hl _] Hseg.
  - intros _ _. case_match; [by apply keeps_modify|by apply keeps_ret].
Qed.

(** ** The heap file backend *)

Lemma keeps_hps_read_in (id : PageId) : keeps heap_inside P any (hps_read_page id).
Proof. unfold hps_read_page, read_exact_at. keep. Qed.

Lemma keeps_hps_write_in (id : PageId) (page : Page) : keeps heap_inside P any (hps_write_page id page).
Proof.
  unfold hps_write_page. eapply keeps_bind; [apply keeps_get_state|]. intros self _.
  apply (keeps_bind _ _ any).
  { apply (keeps_zoom _ _ inside); [keep|by intros s [Hs _]|by intros s h [_ Hs] Hh]. }
  intros _ _. apply (keeps_bind _ _ any); [by apply keeps_modify|]. intros _ _.
  apply (keeps_bind _ _ any); [|intros; by apply keeps_modify].
  apply (keeps_zoom _ _ log_inside); [apply keeps_map_err, keeps_append_put_in|by intros s [_ Hs]|by intros s l [Hs _] Hl].
Qed.

Lemma keeps_hps_allocate_in : keeps heap_inside P any hps_allocate_page_id.
Proof.
  unfold hps_allocate_page_id. eapply keeps_bind; [apply keeps_get_state|]. intros self _.
  apply (keeps_bind _ _ any); [by apply keeps_modify|]. intros _ _. by apply keeps_ret.
Qed.
End confined.

(** ** The buffer pool and the tree, over any backend *)

Section pool_frame.
Context {S E : Type} `{!PageStore S E} (J : S -> Prop) (P : fsys -> Prop).
Context (Hread : forall id, keeps J P any (read_page id : M S E _)).
Context (Hwrite : forall id page, keeps J P any (write_page id page : M S E _)).
Context (Halloc : keeps J P any (allocate_page_id : M S E _)).

Definition pool_in (p : BufferPool S) : Prop := J (pool_store p).

Abbreviation kept := (keeps pool_in P any).

Lemma keeps_store {A : Type} (m : M S E A) :
  keeps J P any m -> kept (zoom pool_store set_pool_store (map_err BufStore m)).
Proof. intros Hm. by apply (keeps_zoom _ _ J); [apply keeps_map_err| |]. Qed.

Lemma keeps_pool_modify (f : BufferPool S -> BufferPool S) :
  (forall p, pool_store (f p) = pool_store p) ->
  kept (modify f : M (BufferPool S) (BufferError E) unit).
Proof. intros Hf. apply keeps_modify; [|done]. intros p Hp. unfold pool_in. by rewrite Hf. Qed.

#[local] Hint Resolve keeps_store keeps_pool_modify : frame.
#[local] Hint Extern 1 (keeps _ _ _ (modify _)) => apply keeps_pool_modify; reflexivity : frame.

Lemma keeps_get_frame (idx : nat) : kept (get_frame idx : M _ (BufferError E) _).
Proof. unfold get_frame. keep. Qed.

Lemma keeps_put_frame (idx : nat) (f : Frame) : kept (put_frame idx f : M _ (BufferError E) _).
Proof. unfold put_frame. keep. Qed.

#[local] Hint Resolve keeps_get_frame keeps_put_frame : frame.

Lemma keeps_clock_loop (fuel scanned : nat) : kept (clock_loop fuel scanned).
Proof.
  revert scanned. induction fuel as [|fuel IH]; intros scanned; cbn [clock_loop]; keep; apply IH.
Qed.

#[local] Hint Resolve keeps_clock_loop : frame.

Lemma keeps_find_frame (id : PageId) : kept (find_frame_for id).
Proof. unfold find_frame_for. keep. Qed.

#[local] Hint Resolve keeps_find_frame : frame.

Lemma keeps_new_page (t : PageType) : kept (new_page t).
Proof. unfold new_page. keep. Qed.

Lemma keeps_fetch (id : PageId) : kept (fetch id).
Proof. unfold fetch. keep. Qed.

Lemma keeps_pool_page (id : PageId) : kept (pool_page id : M _ (BufferError E) _).
Proof. unfold pool_page. keep. Qed.

Lemma keeps_set_page (id : PageId) (page : Page) : kept (set_page id page : M _ (BufferError E) _).
Proof. unfold set_page. keep. Qed.

Lemma keeps_unpin (id : PageId) (dirtied : bool) : kept (unpin id dirtied : M _ (BufferError E) _).
Proof. unfold unpin. keep. Qed.

Lemma keeps_pool_flush (id : PageId) : kept (pool_flush id).
Proof. unfold pool_flush. keep. Qed.

Lemma keeps_flush_all : kept flush_all.
Proof.
  unfold flush_all. eapply keeps_bind; [apply keeps_get_state|]. intros self _.
  apply keeps_for_each. intros id _. apply keeps_pool_flush.
Qed.

#[local] Hint Resolve keeps_new_page keeps_fetch keeps_pool_page keeps_set_page keeps_unpin
  keeps_flush_all : frame.

(** The tree. *)
Lemma keeps_the_page (id : PageId) : kept (the_page id : M _ (BTreeError E) _).
Proof. unfold the_page, buf. keep. Qed.

#[local] Hint Resolve keeps_the_page : frame.

Ltac keep_tree := unfold buf, lift_page, leaf_entries, internal_entries; keep.

Lemma keeps_root_id : kept (root_id : M _ (BTreeError E) _).
Proof. unfold root_id. keep_tree. Qed.

Lemma keeps_set_root_id (id : PageId) : kept (set_root_id id : M _ (BTreeError E) _).
Proof. unfold set_root_id. keep_tree. Qed.

#[local] Hint Resolve keeps_root_id keeps_set_root_id : frame.

Lemma keeps_tree_get (fuel : nat) (key : bytes) : kept (tree_get fuel key : M _ (BTreeError E) _).
Proof.
  assert (forall id, kept (get_recursive fuel id key : M _ (BTreeError E) _)) as Hg; [|unfold tree_get; keep_tree; apply Hg].
  induction fuel as [|fuel IH]; intros id; cbn [get_recursive]; keep_tree; apply IH.
Qed.

Lemma keeps_insert_recursive (fuel : nat) (id : PageId) (key value : bytes) :
  kept (insert_recursive fuel id key value : M _ (BTreeError E) _).
Proof.
  revert id. induction fuel as [|fuel IH]; intros id; cbn [insert_recursive];
    unfold insert_leaf, insert_separator; keep_tree; apply IH.
Qed.

Lemma keeps_tree_insert (fuel : nat) (key value : bytes) :
  kept (tree_insert fuel key value : M _ (BTreeError E) _).
Proof. pose proof keeps_insert_recursive. unfold tree_insert. keep_tree. Qed.

Lemma keeps_delete_recursive (fuel : nat) (id : PageId) (key : bytes) :
  kept (delete_recursive fuel id key : M _ (BTreeError E) _).
Proof.
  revert id. induction fuel as [|fuel IH]; intros id; cbn [delete_recursive];
    unfold delete_leaf, delete_child; keep_tree; apply IH.
Qed.

Lemma keeps_scan_all (fuel : nat) : kept (scan_all fuel : M _ (BTreeError E) _).
Proof.
  assert (forall id, kept (scan_recursive fuel id : M _ (BTreeError E) _)) as Hs; [|unfold scan_all; keep_tree; apply Hs].
  induction fuel as [|fuel IH]; intros id; cbn [scan_recursive]; keep_tree.
  match goal with |- keeps _ _ _ (_ ?es) => induction es as [|e es IHes] end; keep.
Qed.

Lemma keeps_tree_flush : kept (tree_flush : M _ (BTreeError E) _).
Proof. unfold tree_flush. keep_tree. Qed.

Lemma keeps_tree_open (s : S) (cap : nat) :
  J s -> keeps any P pool_in (tree_open s cap : M unit (BTreeError E) _).
Proof.
  intros Hs. unfold tree_open. apply (keeps_bind _ _ pool_in).
  - unfold pool_new. case_decide; cbn [unwrap]; [by apply keeps_ret|apply keeps_panic].
  - intros p Hp. eapply keeps_bind; [apply (keeps_on _ _ pool_in any p _ Hp); keep_tree|].
    intros [u p'] [_ Hp']. by apply keeps_ret.
Qed.
End pool_frame.

(** ** Opening *)

Section open_frame.
Context `{Crc32, DirOrder} (n0 : bytes) (q0 : path) (fs0 : fsys).

Abbreviation d := (n0 :: q0).
Abbreviation P := (below d fs0).

Context (Hparent : dir_ok fs0 q0).

Lemma parent_ok (fs : fsys) : P fs -> dir_ok fs q0.
Proof.
  intros Hb q Hq. rewrite Hb; [by apply Hparent|]. intros Hd.
  assert (d `suffix_of` q0) as Hs by by etrans. apply suffix_length in Hs. simpl in Hs. lia.
Qed.

Lemma mk_dirs_below (p : path) (fs fs' : fsys) :
  d `suffix_of` p -> P fs -> mk_dirs p fs = Some fs' -> P fs'.
Proof.
  revert fs'. induction p as [|x p IH]; intros fs' Hd Hb Hm; [by apply suffix_nil_inv in Hd|].
  cbn [mk_dirs] in Hm. assert (exists fs1, mk_dirs p fs = Some fs1 /\ P fs1) as (fs1 & Hm1 & Hb1).
  { apply suffix_cons_or in Hd as [[= <- <-]|Hd]; [exists fs; split; [by apply mk_dirs_ok, parent_ok|done]|].
    destruct (mk_dirs p fs) as [fs1|] eqn:E; [|done]. exists fs1. split; [done|by apply IH]. }
  rewrite Hm1 in Hm. cbn [mbind option_bind] in Hm. destruct (fs1 !! (x :: p)); simplify_eq; [done|].
  destruct (file_at fs1 (x :: p)); simplify_eq. etrans; [exact Hb1|].
  intros q Hq. apply lookup_insert_ne. by intros <-.
Qed.

Lemma keeps_create_dir_all_in {S : Type} (I : S -> Prop) (p : path) :
  d `suffix_of` p -> keeps I P any (create_dir_all p : M S IoError unit).
Proof.
  intros Hd. apply keeps_prim.
  - intros s fs Hs Hb. destruct (mk_dirs p fs) as [fs'|] eqn:E; cbn [fst snd]; (split; [done|split; [|done]]).
    + by eapply mk_dirs_below.
    + done.
  - intros k s fs Hs Hb. cbn [fst snd]. split; [done|]. set (r := drop (length p - k) p).
    destruct (mk_dirs r fs) as [fs'|] eqn:E; cbn [default from_option]; [|done].
    assert (r `suffix_of` p) as Hr by apply suffix_drop.
    destruct (suffix_total d r p Hd Hr) as [Hdr|Hrd]; [by eapply mk_dirs_below|].
    apply suffix_cons_or in Hrd as [Heq|Hrq]; [apply (mk_dirs_below r fs fs'); [by rewrite Heq|exact Hb|exact E]|].
    rewrite mk_dirs_ok in E; [by simplify_eq|]. intros q Hq. apply (parent_ok fs Hb). by etrans.
Qed.

Lemma keeps_open_loop_in (dir : path) (mb : Z) (last_id : option Z) (rs : list LogRecord)
    (sl : list (Z * path)) (torn : bool) (mx : option Z) (ids : list Z) :
  d `suffix_of` dir -> keeps any P (fun a => log_inside d a.1) (open_loop dir mb last_id rs sl torn mx ids).
Proof.
  intros Hd. assert (forall id len, keeps any P (seg_inside d)
    (map_err LogIo (open_for_append (segment_path dir id) len) : M unit LogError _)) as Ho.
  { intros id len. apply keeps_map_err, keeps_open_for_append_in. by exists (segment_name id), dir. }
  revert rs sl torn mx. induction ids as [|id ids IH]; intros rs sl torn mx; cbn [open_loop].
  - eapply keeps_bind; [apply Ho|]. intros seg Hseg. by apply keeps_ret.
  - apply (keeps_bind _ _ any); [unfold recover, read_file; keep|]. intros rec _.
    case_match; [apply keeps_throw|]. case_match; [|apply IH].
    eapply keeps_bind; [apply Ho|]. intros seg Hseg. by apply keeps_ret.
Qed.

Lemma keeps_log_open_in (dir : path) (mb : Z) :
  d `suffix_of` dir -> keeps any P (fun a => log_inside d a.1) (open_with_segment_size dir mb).
Proof.
  intros Hd. unfold open_with_segment_size, list_segment_ids.
  apply (keeps_bind _ _ any); [by apply keeps_map_err, keeps_create_dir_all_in|]. intros _ _.
  apply (keeps_bind _ _ any); [unfold read_dir; keep|]. intros ids _. by apply keeps_open_loop_in.
Qed.

Lemma keeps_hps_open_in (dir : path) : d `suffix_of` dir -> keeps any P (heap_inside d) (hps_open dir).
Proof.
  intros Hd. unfold hps_open. apply (keeps_bind _ _ any); [by apply keeps_map_err, keeps_create_dir_all_in|]. intros _ _.
  eapply keeps_bind; [apply keeps_map_err, (keeps_open_rw_in d); by eexists _, _|]. intros h Hh.
  eapply keeps_bind; [apply (keeps_on _ _ (inside d) any h _ Hh); unfold metadata_len|].
  { apply keeps_map_err, keeps_atomic. intros h' fs Hh' Hb. by destruct (file_at fs (h_path h')). }
  intros [len h1] [_ Hh1]. cbn [snd] in Hh1. apply (keeps_bind _ _ (fun lh => inside d lh.2)).
  - case_decide; [|by apply keeps_ret].
    eapply keeps_bind; [apply (keeps_on _ _ (inside d) any h1 _ Hh1); apply keeps_map_err, keeps_set_len_in|].
    intros [u h2] [_ Hh2]. by apply keeps_ret.
  - intros [hlen h2] Hh2. eapply keeps_bind.
    + apply keeps_map_err, keeps_log_open_in. by apply suffix_cons_r.
    + intros [l rep] Hl. apply (keeps_bind _ _ any); [apply keeps_unwrap|]. intros [locs mx] _.
      by apply keeps_ret.
Qed.

Lemma keeps_tree_open_in (s : HeapPageStore) (cap : nat) :
  heap_inside d s ->
  keeps any P (pool_in (heap_inside d)) (tree_open s cap : M unit (BTreeError HeapPageStoreError) _).
Proof.
  apply keeps_tree_open; [apply keeps_hps_read_in|apply keeps_hps_write_in|apply keeps_hps_allocate_in].
Qed.
End open_frame.
