(* ===== verification/IndexedStore.v ===== *)
(** * IndexedStore: the key-value store over the B+tree

    Models [crates/storage/src/indexed_store.rs]: a durability log and a B+tree of the current
    values over a heap page store, with batched checkpoints and the reconciliation of [open].
    The operations take the fuel of the recursions of the tree. *)
From S2P Require Export HeapPageStore BTree.

Definition DEFAULT_POOL_CAPACITY : nat := 256.

Definition DEFAULT_CHECKPOINT_INTERVAL : nat := 128.

Definition NS_USER : byte := x01.

Definition NS_META : byte := x00.

Definition LAST_INDEXED_SEQ_KEY : bytes := [x00].

(** [enum IndexedStoreError]. *)
Inductive IndexedStoreError :=
| IsLog (e : LogError)
| IsIndex (e : BTreeError HeapPageStoreError)
| IsPageStore (e : HeapPageStoreError).

(** [struct IndexedStore]. *)
Record IndexedStore := mkIndexed {
  is_log : Log;
  is_index : BufferPool HeapPageStore;
  reconciled_records : nat;
  is_torn : bool;
  checkpoint_interval : nat;
  pending_since_checkpoint : nat;
}.

Definition set_is_log (l : Log) (s : IndexedStore) : IndexedStore :=
  mkIndexed l (is_index s) (reconciled_records s) (is_torn s) (checkpoint_interval s)
    (pending_since_checkpoint s).

Definition set_is_index (t : BufferPool HeapPageStore) (s : IndexedStore) : IndexedStore :=
  mkIndexed (is_log s) t (reconciled_records s) (is_torn s) (checkpoint_interval s)
    (pending_since_checkpoint s).

Definition set_pending (n : nat) (s : IndexedStore) : IndexedStore :=
  mkIndexed (is_log s) (is_index s) (reconciled_records s) (is_torn s) (checkpoint_interval s) n.

Definition user_key (key : bytes) : bytes := NS_USER :: key.

Definition meta_key (suffix : bytes) : bytes := NS_META :: suffix.

Definition encode_index_value (value : option bytes) : bytes :=
  match value with
  | None => [x00]
  | Some v => x01 :: v
  end.

(** The outer [None] is the panic on an unknown tag. *)
Definition decode_index_value (bs : bytes) : option (option bytes) :=
  match bs with
  | x00 :: _ => Some None
  | x01 :: v => Some (Some v)
  | _ => None
  end.

(** The loop of [scan] over the entries of the tree. *)
Fixpoint scan_filter (prefix : bytes) (entries : list Entry) : option (list (bytes * bytes)) :=
  match entries with
  | [] => Some []
  | (k, v) :: entries' =>
      match k with
      | ns :: real_key =>
          if decide (ns = NS_USER) then
            if starts_with prefix real_key then
              value ← decode_index_value v;
              out ← scan_filter prefix entries';
              Some (match value with Some value => (real_key, value) :: out | None => out end)
            else scan_filter prefix entries'
          else scan_filter prefix entries'
      | [] => scan_filter prefix entries'
      end
  end.

Section indexed_ops.
Context `{Crc32, DirOrder} (fuel : nat).

(** [read_last_indexed_seq]. *)
Definition read_last_indexed_seq : M (BufferPool HeapPageStore) IndexedStoreError Z :=
  r ← map_err IsIndex (tree_get fuel (meta_key LAST_INDEXED_SEQ_KEY));
  match r with
  | None => mret 0%Z
  | Some bs => if length bs =? 8 then mret (le_val bs) else panic
  end.

(** [apply_record_to_index]. *)
Definition apply_record_to_index (record : LogRecord) :
    M (BufferPool HeapPageStore) IndexedStoreError unit :=
  let value := match record_type record with
               | Put => Some (value record)
               | Delete => None
               end in
  map_err IsIndex (tree_insert fuel (user_key (key record)) (encode_index_value value)).

(** The reconciliation loop of [open]: the number of records applied. *)
Fixpoint reconcile (last_indexed_seq : Z) (records : list LogRecord) :
    M (BufferPool HeapPageStore) IndexedStoreError nat :=
  match records with
  | [] => mret 0
  | r :: records' =>
      if (last_indexed_seq <=? seq r)%Z then
        apply_record_to_index r;;
        n ← reconcile last_indexed_seq records';
        mret (S n)
      else reconcile last_indexed_seq records'
  end.

(** [IndexedStore::open_with_options]. *)
Definition open_with_options (dir : path) (pool_capacity checkpoint_interval : nat) :
    M unit IndexedStoreError IndexedStore :=
  '(log, log_report) ← map_err IsLog (log_open (path_join dir (ascii "log")));
  page_store ← map_err IsPageStore (hps_open (path_join dir (ascii "index")));
  index ← map_err IsIndex (tree_open page_store pool_capacity);
  '(reconciled, index) ← on index (
    last_indexed_seq ← read_last_indexed_seq;
    reconciled ← reconcile last_indexed_seq (rep_records log_report);
    (if decide (0 < reconciled) then
       map_err IsIndex (tree_insert fuel (meta_key LAST_INDEXED_SEQ_KEY) (le_bytes 8 (next_seq log)));;
       map_err IsIndex tree_flush
     else mret tt);;
    mret reconciled);
  mret (mkIndexed log index reconciled (rep_torn log_report) (checkpoint_interval `max` 1) 0).

(** [IndexedStore::open] and [IndexedStore::open_with_pool_capacity]. *)
Definition indexed_open (dir : path) : M unit IndexedStoreError IndexedStore :=
  open_with_options dir DEFAULT_POOL_CAPACITY DEFAULT_CHECKPOINT_INTERVAL.

Definition open_with_pool_capacity (dir : path) (pool_capacity : nat) :
    M unit IndexedStoreError IndexedStore :=
  open_with_options dir pool_capacity DEFAULT_CHECKPOINT_INTERVAL.

(** [IndexedStore::checkpoint]. *)
Definition checkpoint : M IndexedStore IndexedStoreError unit :=
  self ← get_state;
  let next_seq := next_seq (is_log self) in
  zoom is_index set_is_index (
    map_err IsIndex (tree_insert fuel (meta_key LAST_INDEXED_SEQ_KEY) (le_bytes 8 next_seq));;
    map_err IsIndex tree_flush);;
  modify (set_pending 0).

(** [IndexedStore::apply_and_advance]. *)
Definition apply_and_advance (record : LogRecord) : M IndexedStore IndexedStoreError unit :=
  zoom is_index set_is_index (apply_record_to_index record);;
  modify (fun self => set_pending (pending_since_checkpoint self + 1) self);;
  self ← get_state;
  if decide (checkpoint_interval self <= pending_since_checkpoint self) then checkpoint else mret tt.

(** [IndexedStore::put]. *)
Definition indexed_put (key value : bytes) : M IndexedStore IndexedStoreError unit :=
  record ← zoom is_log set_is_log (map_err IsLog (append_put key value));
  apply_and_advance record.

(** [IndexedStore::delete]. *)
Definition indexed_delete (key : bytes) : M IndexedStore IndexedStoreError unit :=
  record ← zoom is_log set_is_log (map_err IsLog (append_delete key));
  apply_and_advance record.

(** [IndexedStore::get]. *)
Definition indexed_get (key : bytes) : M IndexedStore IndexedStoreError (option bytes) :=
  raw ← zoom is_index set_is_index (map_err IsIndex (tree_get fuel (user_key key)));
  match raw with
  | None => mret None
  | Some bs => unwrap (decode_index_value bs)
  end.

(** [IndexedStore::scan]. *)
Definition indexed_scan (prefix : bytes) : M IndexedStore IndexedStoreError (list (bytes * bytes)) :=
  all ← zoom is_index set_is_index (map_err IsIndex (scan_all fuel));
  out ← unwrap (scan_filter prefix all);
  mret (sort_by entry_leb out).

(** [IndexedStore::flush]. *)
Definition indexed_flush : M IndexedStore IndexedStoreError unit := checkpoint.
End indexed_ops.
