(* ===== verification/IndexedSpec.v ===== *)
(** * IndexedSpec: what the index of an [IndexedStore] holds

    The entries that a history of the durability log leaves in the tree: for every key the last
    record, tombstones included, and the sentinel. Replaying a suffix of the history again changes
    nothing, and lookup and the scan filter read the map that the history denotes. *)
From S2P Require Export HeapPageStoreSpec IndexedStore BTreeOpen.

(** The value [apply_record_to_index] stores for a record. *)
Definition record_value (r : LogRecord) : option bytes :=
  match record_type r with Put => Some (value r) | Delete => None end.

Definition index_record (kv : gmap bytes bytes) (r : LogRecord) : gmap bytes bytes :=
  <[user_key (key r) := encode_index_value (record_value r)]> kv.

(** The entries after the records [rs] have been applied to [kv]. *)
Definition replay (kv : gmap bytes bytes) (rs : list LogRecord) : gmap bytes bytes :=
  foldl index_record kv rs.

Definition sentinel : bytes := meta_key LAST_INDEXED_SEQ_KEY.

(** The sentinel, when it has been written. *)
Definition with_sentinel (last : option Z) (kv : gmap bytes bytes) : gmap bytes bytes :=
  match last with Some s => <[sentinel := le_bytes 8 s]> kv | None => kv end.

(** The index of the history [hist], checkpointed at [last]. *)
Definition index_image (last : option Z) (hist : list LogRecord) : gmap bytes bytes :=
  with_sentinel last (replay ∅ hist).

Lemma user_key_inj (a b : bytes) : user_key a = user_key b -> a = b.
Proof. by intros [=]. Qed.

Lemma user_key_sentinel (k : bytes) : user_key k <> sentinel.
Proof. by intros [=]. Qed.

Lemma decode_encode_index_value (v : option bytes) : decode_index_value (encode_index_value v) = Some v.
Proof. by destruct v. Qed.

(** ** Replaying *)

Lemma replay_app (kv : gmap bytes bytes) (rs1 rs2 : list LogRecord) :
  replay kv (rs1 ++ rs2) = replay (replay kv rs1) rs2.
Proof. apply foldl_app. Qed.

Lemma replay_union (kv : gmap bytes bytes) (rs : list LogRecord) : replay kv rs = replay ∅ rs ∪ kv.
Proof.
  induction rs as [|r rs IH] using rev_ind; [symmetry; apply map_empty_union|].
  rewrite !replay_app, IH. unfold replay. simpl. unfold index_record. by rewrite insert_union_l.
Qed.

(** Replaying the last records again changes nothing. *)
Lemma replay_again (kv : gmap bytes bytes) (a s : list LogRecord) :
  replay (replay kv (a ++ s)) s = replay kv (a ++ s).
Proof.
  rewrite replay_app, (replay_union (replay (replay kv a) s)), (replay_union (replay kv a) s).
  by rewrite map_union_assoc, map_union_idemp.
Qed.

Lemma replay_sentinel (last : option Z) (kv : gmap bytes bytes) (rs : list LogRecord) :
  replay (with_sentinel last kv) rs = with_sentinel last (replay kv rs).
Proof.
  destruct last as [s|]; [|done]. simpl. revert kv. induction rs as [|r rs IH]; intros kv; [done|].
  unfold replay in *. simpl. unfold index_record at 2. rewrite <-IH. f_equal. unfold index_record.
  apply insert_insert_ne. apply user_key_sentinel.
Qed.

Lemma index_image_app (last : option Z) (hist rs : list LogRecord) :
  replay (index_image last hist) rs = index_image last (hist ++ rs).
Proof. unfold index_image. by rewrite replay_sentinel, replay_app. Qed.

Lemma with_sentinel_again (last : option Z) (s : Z) (kv : gmap bytes bytes) :
  <[sentinel := le_bytes 8 s]> (with_sentinel last kv) = with_sentinel (Some s) kv.
Proof. destruct last; simpl; [apply insert_insert_eq|done]. Qed.

(** The records that [open] applies: those from the sentinel on. *)
Definition unindexed (last : option Z) (hist : list LogRecord) : list LogRecord :=
  filter (fun r => default 0%Z last <= seq r)%Z hist.

(** In a history in order they are its end. *)
Lemma unindexed_suffix (last : option Z) (hist : list LogRecord) :
  sorted_hist hist -> exists a, hist = a ++ unindexed last hist.
Proof.
  unfold sorted_hist, unindexed. induction hist as [|r hist IH]; intros Hs; [by exists []|].
  rewrite fmap_cons in Hs. apply StronglySorted_inv in Hs as [Hs Hr]. destruct (IH Hs) as [a Ha].
  rewrite filter_cons. case_decide as Hd; [|exists (r :: a); by rewrite Ha at 1].
  exists []. simpl. f_equal. symmetry. apply filter_all. rewrite Forall_fmap in Hr.
  eapply Forall_impl; [exact Hr|]. intros x Hx. cbv [compose] in Hx. lia.
Qed.

(** An index that covers every record before the sentinel is brought up to date by the others. *)
Lemma reconcile_image (last : option Z) (h1 h2 : list LogRecord) :
  sorted_hist (h1 ++ h2) -> Forall (fun r => default 0%Z last <= seq r)%Z h2 ->
  replay (index_image last h1) (unindexed last (h1 ++ h2)) = index_image last (h1 ++ h2).
Proof.
  intros Hs H2. unfold unindexed. rewrite filter_app, (filter_all _ h2) by done.
  assert (sorted_hist h1) as Hs1.
  { unfold sorted_hist in *. rewrite fmap_app in Hs. by apply StronglySorted_app in Hs as (_ & Hs & _). }
  destruct (unindexed_suffix last h1 Hs1) as [a Ha]. unfold unindexed in Ha.
  rewrite replay_app. replace (replay (index_image last h1) (filter _ h1)) with (index_image last h1).
  { apply index_image_app. }
  rewrite index_image_app. unfold index_image. f_equal. rewrite replay_app.
  rewrite Ha at 2. rewrite Ha at 1. symmetry. apply replay_again.
Qed.

(** ** Reading *)

Lemma replay_lookup (hist : list LogRecord) (k : bytes) :
  match replay ∅ hist !! user_key k with
  | Some bs => decode_index_value bs = Some (kv_of hist !! k)
  | None => kv_of hist !! k = None
  end.
Proof.
  induction hist as [|r hist IH] using rev_ind; [done|].
  rewrite replay_app, kv_of_snoc. cbn [replay foldl]. unfold index_record, apply_record, record_value.
  destruct (decide (key r = k)) as [->|Hne].
  - rewrite lookup_insert_eq, decode_encode_index_value.
    destruct (record_type r); [by rewrite lookup_insert_eq|by rewrite lookup_delete_eq].
  - rewrite lookup_insert_ne by (by intros ?%user_key_inj).
    destruct (record_type r); [by rewrite lookup_insert_ne|by rewrite lookup_delete_ne].
Qed.

Lemma index_image_lookup (last : option Z) (hist : list LogRecord) (k : bytes) :
  match index_image last hist !! user_key k with
  | Some bs => decode_index_value bs = Some (kv_of hist !! k)
  | None => kv_of hist !! k = None
  end.
Proof.
  pose proof (replay_lookup hist k) as Hr. unfold index_image. destruct last as [s|]; [|exact Hr].
  simpl. rewrite lookup_insert_ne; [exact Hr|]. symmetry. apply user_key_sentinel.
Qed.

Lemma replay_keys (hist : list LogRecord) (k v : bytes) :
  replay ∅ hist !! k = Some v -> exists k', k = user_key k'.
Proof.
  revert k v. induction hist as [|r hist IH] using rev_ind; intros k v; [done|].
  rewrite replay_app. cbn [replay foldl]. unfold index_record.
  intros [[<- _]|[_ Hk]]%lookup_insert_Some; [by eexists|]. by eapply IH.
Qed.

Lemma index_image_sentinel (last : option Z) (hist : list LogRecord) :
  index_image last hist !! sentinel = le_bytes 8 <$> last.
Proof.
  unfold index_image. destruct last as [s|]; simpl; [apply lookup_insert_eq|].
  destruct (replay ∅ hist !! sentinel) eqn:E; [|done].
  apply replay_keys in E as [k' Hk]. by apply eq_sym, user_key_sentinel in Hk.
Qed.

(** The entry that [scan] makes of an entry of the tree. *)
Definition scan_entry (prefix : bytes) (e : Entry) : option (bytes * bytes) :=
  match e.1 with
  | ns :: real_key =>
      if decide (ns = NS_USER) then
        if starts_with prefix real_key then
          v ← decode_index_value e.2; v ← v; Some (real_key, v)
        else None
      else None
  | [] => None
  end.

Lemma scan_filter_spec (prefix : bytes) (es : list Entry) :
  (forall k v, (user_key k, v) ∈ es -> is_Some (decode_index_value v)) ->
  scan_filter prefix es = Some (omap (scan_entry prefix) es).
Proof.
  induction es as [|[k v] es IH]; intros Hd; [done|]. cbn [scan_filter omap list_omap].
  assert (scan_filter prefix es = Some (omap (scan_entry prefix) es)) as Hes.
  { apply IH. intros k' v' Hin. apply (Hd k' v'). by right. }
  unfold scan_entry at 1. cbn [fst snd]. destruct k as [|ns real_key]; [done|].
  destruct (decide (ns = NS_USER)) as [->|]; [|done]. destruct (starts_with prefix real_key); [|done].
  destruct (Hd real_key v) as [o Ho]; [left|]. rewrite Ho. simpl. rewrite Hes. by destruct o.
Qed.

Lemma scan_entry_key (prefix : bytes) (e : Entry) (out : bytes * bytes) :
  scan_entry prefix e = Some out ->
  e.1 = user_key out.1 /\ starts_with prefix out.1 = true /\ decode_index_value e.2 = Some (Some out.2).
Proof.
  unfold scan_entry. destruct e as [[|ns k] v]; [done|]. simpl. case_decide as Hns; [|done]. subst ns.
  destruct (starts_with prefix k) eqn:Hp; [|done].
  destruct (decode_index_value v) as [[w|]|]; simpl; [|done..]. by intros [= <-].
Qed.

Lemma scan_sorted (prefix : bytes) (es : list Entry) :
  StronglySorted key_lt es -> StronglySorted key_lt (omap (scan_entry prefix) es).
Proof.
  induction 1 as [|e es Hs IH He]; cbn [omap list_omap]; [constructor|].
  destruct (scan_entry prefix e) as [out|] eqn:E; [|exact IH]. constructor; [exact IH|].
  apply Forall_forall. intros out' (e' & He' & Hout')%list_elem_of_omap.
  rewrite Forall_forall in He. specialize (He e' He').
  apply scan_entry_key in E as (E1 & _), Hout' as (E2 & _).
  unfold key_lt in *. rewrite E1, E2 in He. exact He.
Qed.

(** The scan of the index is the scan of the map. *)
Lemma scan_index (prefix : bytes) (last : option Z) (hist : list LogRecord) :
  exists out, scan_filter prefix (bt_iter (index_image last hist)) = Some out /\
    sort_by entry_leb out = bt_iter (with_prefix prefix (kv_of hist)).
Proof.
  eexists. split.
  { apply scan_filter_spec. intros k v Hin%elem_of_bt_iter.
    pose proof (index_image_lookup last hist k) as Hl. rewrite Hin in Hl. by eexists. }
  pose proof (scan_sorted prefix _ (bt_iter_sorted (index_image last hist))) as Hs.
  rewrite sort_by_id.
  - apply key_sorted_unique; [exact Hs|apply bt_iter_sorted|]. intros [k v].
    rewrite elem_of_bt_iter. unfold with_prefix. rewrite map_lookup_filter_Some, list_elem_of_omap.
    pose proof (index_image_lookup last hist k) as Hl. split.
    + intros ([k' v'] & Hin & (E1 & E2 & E3)%scan_entry_key). simpl in *. subst k'.
      apply elem_of_bt_iter in Hin. rewrite Hin, E3 in Hl. injection Hl as Hl. done.
    + simpl. intros [Hk Hp]. destruct (index_image last hist !! user_key k) as [bs|] eqn:E; [|congruence].
      exists (user_key k, bs). split; [by apply elem_of_bt_iter|].
      unfold scan_entry, user_key. simpl. rewrite Hp, Hl, Hk. done.
  - eapply StronglySorted_weaken; [|exact Hs]. intros a b Hab. unfold key_lt, entry_leb in *.
    by apply bytes_ltb_leb.
Qed.
