(* ===== verification/IndexedFrame.v ===== *)
(** * IndexedFrame: what the operations of an [IndexedStore] leave alone

    The frame rules of the tree and of the log lifted to the store, for any frame: of the log, only
    what the appends keep is known, and of the backend only what its three operations keep. *)
From S2P Require Export Confined IndexedSpec.

Definition log_path (dir : path) : path := path_join dir (ascii "log").

Definition index_path (dir : path) : path := path_join dir (ascii "index").

(** The operation of a store. *)
Definition indexed_write `{Crc32, DirOrder} (fuel : nat) (op : LogOp) : M IndexedStore IndexedStoreError unit :=
  match op with OpPut k v => indexed_put fuel k v | OpDelete k => indexed_delete fuel k end.

(** ** Sessions

    A client's use of an open store. It gives up on a failure of the log, and goes on after any
    other one. *)
Inductive Request :=
| RWrite (op : LogOp)
| RGet (key : bytes)
| RScan (prefix : bytes)
| RFlush.

Definition request `{Crc32, DirOrder} (fuel : nat) (q : Request) : M IndexedStore IndexedStoreError unit :=
  match q with
  | RWrite op => indexed_write fuel op
  | RGet key => _ ← indexed_get fuel key; mret tt
  | RScan prefix => _ ← indexed_scan fuel prefix; mret tt
  | RFlush => indexed_flush fuel
  end.

Definition serve `{Crc32, DirOrder} (fuel : nat) (q : Request) : M IndexedStore IndexedStoreError unit :=
  catch (request fuel q) (fun e => match e with IsLog e => throw (IsLog e) | _ => mret tt end).

(** The operations that a session asks the store to write. *)
Definition written (qs : list Request) : list LogOp :=
  omap (fun q => match q with RWrite op => Some op | _ => None end) qs.

(** The history after they have been logged. *)
Definition logged (hist : list LogRecord) (qs : list Request) : list LogRecord :=
  hist ++ batch_records (next_of hist) (written qs).

(** ** Frames *)

(** The log is in [L], the backend in [J]. *)
Definition store_in (L : Log -> Prop) (J : HeapPageStore -> Prop) (s : IndexedStore) : Prop :=
  L (is_log s) /\ pool_in J (is_index s).

Section index_frame.
Context `{Crc32, DirOrder} (J : HeapPageStore -> Prop) (P : fsys -> Prop).
Context (Hread : forall id, keeps J P any (hps_read_page id)).
Context (Hwrite : forall id page, keeps J P any (hps_write_page id page)).
Context (Halloc : keeps J P any hps_allocate_page_id).

Abbreviation kept := (keeps (pool_in J) P any).

Abbreviation tree A := (M (BufferPool HeapPageStore) (BTreeError HeapPageStoreError) A).

Lemma keeps_index_get (fuel : nat) (k : bytes) : kept (tree_get fuel k : tree _).
Proof. by apply keeps_tree_get. Qed.

Lemma keeps_index_insert (fuel : nat) (k v : bytes) : kept (tree_insert fuel k v : tree _).
Proof. by apply keeps_tree_insert. Qed.

Lemma keeps_index_scan (fuel : nat) : kept (scan_all fuel : tree _).
Proof. by apply keeps_scan_all. Qed.

Lemma keeps_index_flush : kept (tree_flush : tree _).
Proof. by apply keeps_tree_flush. Qed.

#[local] Hint Resolve keeps_index_get keeps_index_insert keeps_index_scan keeps_index_flush : frame.

Lemma keeps_last_indexed (fuel : nat) : kept (read_last_indexed_seq fuel).
Proof. unfold read_last_indexed_seq. keep. Qed.

Lemma keeps_reconcile (fuel : nat) (last : Z) (rs : list LogRecord) : kept (reconcile fuel last rs).
Proof.
  induction rs as [|r rs IH]; cbn [reconcile]; [by apply keeps_ret|].
  case_match; [|exact IH]. unfold apply_record_to_index. keep; apply IH.
Qed.

#[local] Hint Resolve keeps_last_indexed keeps_reconcile : frame.

(** The part of [open] that works on the tree. *)
Lemma keeps_catch_up (fuel : nat) (rs : list LogRecord) (nseq : Z) :
  kept (last_indexed_seq ← read_last_indexed_seq fuel;
    reconciled ← reconcile fuel last_indexed_seq rs;
    (if decide (0 < reconciled) then
       map_err IsIndex (tree_insert fuel (meta_key LAST_INDEXED_SEQ_KEY) (le_bytes 8 nseq));;
       map_err IsIndex tree_flush
     else mret tt);;
    mret reconciled).
Proof. keep. Qed.

(** *** The store *)

Context (L : Log -> Prop).

Abbreviation skept := (keeps (store_in L J) P any).

Lemma keeps_on_index {A : Type} (m : M (BufferPool HeapPageStore) IndexedStoreError A) :
  kept m -> skept (zoom is_index set_is_index m).
Proof. intros Hm. by apply (keeps_zoom _ _ (pool_in J)); [|intros s [_ Hs]|intros s p [Hs _] Hp]. Qed.

Lemma keeps_on_log {A : Type} (m : M Log IndexedStoreError A) :
  keeps L P any m -> skept (zoom is_log set_is_log m).
Proof. intros Hm. by apply (keeps_zoom _ _ L); [|intros s [Hs _]|intros s l [_ Hs] Hl]. Qed.

#[local] Hint Extern 1 (keeps _ _ _ (modify _)) => apply keeps_modify; [intros s []; by split|done] : frame.

Lemma keeps_checkpoint (fuel : nat) : skept (checkpoint fuel).
Proof.
  unfold checkpoint. eapply keeps_bind; [apply keeps_get_state|]. intros self _. cbv zeta.
  apply (keeps_bind _ _ any); [apply keeps_on_index; keep|]. keep.
Qed.

Lemma keeps_apply_and_advance (fuel : nat) (r : LogRecord) : skept (apply_and_advance fuel r).
Proof.
  pose proof keeps_checkpoint. unfold apply_and_advance, apply_record_to_index.
  apply (keeps_bind _ _ any); [apply keeps_on_index; keep|]. keep.
Qed.

Lemma keeps_indexed_get (fuel : nat) (k : bytes) : skept (indexed_get fuel k).
Proof. unfold indexed_get. apply (keeps_bind _ _ any); [apply keeps_on_index; keep|]. keep. Qed.

Lemma keeps_indexed_scan (fuel : nat) (prefix : bytes) : skept (indexed_scan fuel prefix).
Proof. unfold indexed_scan. apply (keeps_bind _ _ any); [apply keeps_on_index; keep|]. keep. Qed.

(** A request that writes no record. *)
Lemma keeps_request (fuel : nat) (q : Request) : written [q] = [] -> skept (request fuel q).
Proof.
  destruct q as [op|k|prefix|]; intros Hq; [done|..|apply keeps_checkpoint];
    (eapply keeps_bind; [apply keeps_indexed_get || apply keeps_indexed_scan|intros; by apply keeps_ret]).
Qed.

Context (Hput : forall k v, keeps L P any (append_put k v)).
Context (Hdelete : forall k, keeps L P any (append_delete k)).

Lemma keeps_indexed_write (fuel : nat) (op : LogOp) : skept (indexed_write fuel op).
Proof.
  destruct op as [k v|k]; (eapply keeps_bind; [apply keeps_on_log, keeps_map_err; auto|]);
    intros r _; apply keeps_apply_and_advance.
Qed.

Lemma keeps_serve (fuel : nat) (q : Request) : skept (serve fuel q).
Proof.
  unfold serve. apply keeps_catch; [|intros []; [apply keeps_throw|by apply keeps_ret..]].
  destruct q as [op| | |]; [apply keeps_indexed_write|by apply keeps_request..].
Qed.
End index_frame.

(** ** Below a directory *)

Section spared.
Context `{Crc32, DirOrder}.

(** The log [l] untouched, the index below [d]. *)
Definition spared (d : path) (l : Log) : IndexedStore -> Prop := store_in (eq l) (heap_inside d).

(** The part of [open] behind the log. *)
Lemma keeps_open_rest (n0 : bytes) (q0 : path) (fs0 : fsys) (dir : path) (fuel : nat) (log : Log)
    (rep : OpenReport) (cap interval : nat) :
  let d := n0 :: q0 in
  dir_ok fs0 q0 -> d `suffix_of` index_path dir ->
  keeps any (below d fs0) (spared d log) (
    page_store ← map_err IsPageStore (hps_open (index_path dir));
    index ← map_err IsIndex (tree_open page_store cap);
    '(reconciled, index) ← on index (
      last_indexed_seq ← read_last_indexed_seq fuel;
      reconciled ← reconcile fuel last_indexed_seq (rep_records rep);
      (if decide (0 < reconciled) then
         map_err IsIndex (tree_insert fuel (meta_key LAST_INDEXED_SEQ_KEY) (le_bytes 8 (next_seq log)));;
         map_err IsIndex tree_flush
       else mret tt);;
      mret reconciled);
    mret (mkIndexed log index reconciled (rep_torn rep) (interval `max` 1) 0) : M unit IndexedStoreError _).
Proof.
  intros d Hp Hd. eapply keeps_bind; [by apply keeps_map_err, (keeps_hps_open_in n0 q0)|].
  intros hs Hhs. eapply keeps_bind; [by apply keeps_map_err, (keeps_tree_open_in n0 q0)|].
  intros p Hpi. eapply keeps_bind; [apply (keeps_on _ _ (pool_in (heap_inside d)) any p _ Hpi)|].
  { apply keeps_catch_up; [apply keeps_hps_read_in|apply keeps_hps_write_in|apply keeps_hps_allocate_in]. }
  intros [n p'] [_ Hp']. by apply keeps_ret.
Qed.
End spared.
