(* ===== verification/IndexedProps.v ===== *)
(** * IndexedProps: the store over the log and the tree

    The log and the index share a file system, each in its own directory. The store denotes the
    map of the log's history, reads it from the tree, and after a restart brings the tree up to
    date from the log. *)
From S2P Require Export IndexedFrame.

(** ** Two directories *)

Lemma apart_below (d1 d2 q : path) : apart d1 d2 -> d2 `suffix_of` q -> ~ d1 `suffix_of` q.
Proof. intros [H1 H2] Hq1 Hq2. destruct (suffix_total d1 d2 q); done. Qed.

Lemma apart_child (d dir : path) (n : bytes) : apart d dir -> apart d (n :: dir).
Proof.
  intros Ha. split.
  - apply (apart_below d dir); [done|]. by apply suffix_cons_r.
  - intros Hs. destruct Ha as [_ Ha]. apply Ha. etrans; [|exact Hs]. by apply suffix_cons_r.
Qed.

Section transfer.
Context `{Crc32, DirOrder}.

(** A change elsewhere leaves the backend alone. *)
Lemma heap_view_below (d dir : path) (n : nat) (s : HeapPageStore) (fs fs' : fsys)
    (m : gmap PageId Page) (next : PageId) :
  apart d dir -> below d fs fs' -> heap_view dir n s fs m next -> heap_view dir n s fs' m next.
Proof.
  intros Ha Hb [(f & Hf & Hrest) H2 H3 (hist & mx & Hlog & Hl) H5 H6 H7 H8 H9 H10].
  assert (forall q, dir `suffix_of` q -> fs' !! q = fs !! q) as Hq.
  { intros q Hq. apply Hb. by eapply apart_below. }
  split; try done.
  - exists f. split; [|done]. rewrite <-Hf. unfold file_at, heap_path, path_join. by rewrite Hq.
  - rewrite Hq; [done|]. unfold heap_path, path_join. by apply suffix_cons_r.
  - exists hist, mx. split; [|done]. eapply log_holds_agrees; [|exact Hlog]. rewrite H5.
    apply (log_agrees_below d); [by apply apart_child|done].
Qed.

Lemma heap_disk_below (d dir : path) (n : nat) (fs fs' : fsys) (m : gmap PageId Page) (next : PageId) :
  apart d dir -> below d fs fs' -> heap_disk dir n fs m next -> heap_disk dir n fs' m next.
Proof.
  intros Ha Hb [(f & hist & locs & mx & torn & Hf & Hp & Hlog & Hl) H3 (b & Hs & Hbn) H5 H6].
  assert (forall q, dir `suffix_of` q -> fs' !! q = fs !! q) as Hq.
  { intros q Hq. apply Hb. by eapply apart_below. }
  pose proof (log_agrees_below _ _ _ _ (apart_child d dir LOCATIONS_DIR Ha) Hb) as Hagr. split; try done.
  - exists f, hist, locs, mx, torn. split; [|split; [done|split; [by eapply log_recoverable_agrees|done]]].
    rewrite <-Hf. unfold file_at, heap_path, path_join. by rewrite Hq.
  - rewrite Hq; [done|]. unfold heap_path, path_join. by apply suffix_cons_r.
  - exists b. split; [by eapply segments_upto_agrees|done].
Qed.

(** The state of a tree under other laws of the same backend. *)
Lemma btree_at_transfer {St Er : Type} `{PageStore St Er} (L1 L2 : PageStoreLaws St Er)
    (h lim n cap : nat) (p : BufferPool St) (fs fs' : fsys) (kv : gmap bytes bytes) (next : PageId) :
  (forall m, @ps_view _ _ _ _ L1 n (pool_store p) fs m next -> @ps_view _ _ _ _ L2 n (pool_store p) fs' m next) ->
  @btree_at _ _ _ _ L1 h lim n cap p fs kv next -> @btree_at _ _ _ _ L2 h lim n cap p fs' kv next.
Proof.
  intros Hv (N & t & chain & [(m & [V1 V2 V3 V4 V5 V6] & Hm) P1 P2 P3 P4] & Ht). exists N, t, chain.
  split; [|done]. split; [|done..]. exists m. split; [|done]. split; try done. by apply Hv.
Qed.
End transfer.

Lemma log_index_apart (dir : path) : apart (log_path dir) (index_path dir).
Proof. apply apart_siblings. by vm_compute. Qed.

Lemma index_log_apart (dir : path) : apart (index_path dir) (log_path dir).
Proof. apply apart_siblings. by vm_compute. Qed.

(** A record whose entry is short enough for the tree to take it in any case. *)
Definition short_op (op : LogOp) : Prop :=
  match op with
  | OpPut k v => length k + length v + 2 <= MAX_ENTRY
  | OpDelete k => length k + 2 <= MAX_ENTRY
  end.

Definition short_record (r : LogRecord) : Prop :=
  length (user_key (key r)) + length (encode_index_value (record_value r)) <= MAX_ENTRY.

Lemma short_op_record (sq : Z) (op : LogOp) : short_op op -> short_record (op_record sq op).
Proof. unfold short_record. destruct op as [k v|k]; cbn; lia. Qed.

Section indexed.
Context `{Crc32, DirOrder}.

Implicit Types (dir : path) (p : BufferPool HeapPageStore) (fs : fsys) (kv : gmap bytes bytes).

(** The pool of the store in [dir] holds a tree of height [h] that denotes [kv]. *)
Definition index_at dir (h n cap : nat) p fs kv (next : PageId) : Prop :=
  @btree_at _ _ _ _ (heap_laws (index_path dir) fs) h MAX_ENTRY n cap p fs kv next.

(** What an operation on the tree that started in [fs0] leaves. *)
Definition index_from dir fs0 (h n cap : nat) p fs kv (next : PageId) : Prop :=
  below (index_path dir) fs0 fs /\ index_at dir h n cap p fs kv next.

Lemma index_from_laws dir fs0 (h n cap : nat) p fs kv (next : PageId) :
  @btree_at _ _ _ _ (heap_laws (index_path dir) fs0) h MAX_ENTRY n cap p fs kv next ->
  index_from dir fs0 h n cap p fs kv next.
Proof.
  intros Hs. split.
  - destruct Hs as (N & t & chain & [(m & Hi & _) _ _ _ _] & _). apply (pi_view _ _ _ _ _ _ _ Hi).
  - eapply btree_at_transfer; [|exact Hs]. intros m [Hv _]. by split.
Qed.

(** A change elsewhere. *)
Lemma index_at_below (d : path) dir (h n cap : nat) p fs fs' kv (next : PageId) :
  apart d (index_path dir) -> below d fs fs' -> index_at dir h n cap p fs kv next -> index_at dir h n cap p fs' kv next.
Proof.
  intros Ha Hb Hs. eapply btree_at_transfer; [|exact Hs]. intros m [Hv _]. split; [|done].
  by eapply heap_view_below.
Qed.

(** The log has changed. *)
Lemma index_at_log dir (h n cap : nat) p fs fs' kv (next : PageId) :
  log_frame (log_path dir) fs fs' -> index_at dir h n cap p fs kv next -> index_at dir h n cap p fs' kv next.
Proof. intros Hf%below_log_frame Hs. by eapply index_at_below; [apply log_index_apart| |]. Qed.

Lemma index_at_weaken dir (h n n' cap : nat) p fs kv (next : PageId) :
  n' <= n -> index_at dir h n cap p fs kv next -> index_at dir h n' cap p fs kv next.
Proof. apply btree_at_weaken. Qed.

Lemma index_at_height dir (h n cap : nat) p fs kv (next : PageId) :
  index_at dir h n cap p fs kv next -> h < Z.to_nat next /\ (0 <= next)%Z /\ (next + Z.of_nat n < 2 ^ 64)%Z.
Proof. apply btree_at_height. Qed.

(** ** The operations on the tree *)

Lemma wpc_index_get dir (h n cap : nat) p fs kv (next : PageId) (fuel : nat) (k : bytes) :
  index_at dir h (h + 2 + n) cap p fs kv next -> 0 < cap -> Z.to_nat next <= fuel ->
  wpc no_faults (map_err IsIndex (tree_get fuel k) : M _ IndexedStoreError _) p fs
    (fun r p' fs' => r = kv !! k /\ index_from dir fs h n cap p' fs' kv next)
    (fun _ _ _ => False) (fun _ => False).
Proof.
  intros Hs Hc Hf. wpc_step.
  eapply wpc_mono; [by apply (wpc_tree_get_at (H1 := heap_laws (index_path dir) fs) h MAX_ENTRY n cap p fs kv next)| |done|done].
  intros r p' fs' [Hr Hs']. split; [done|]. by apply index_from_laws.
Qed.

Lemma wpc_index_insert dir (h n cap : nat) p fs kv (next : PageId) (fuel : nat) (k v : bytes) :
  index_at dir h (insert_cost h + n) cap p fs kv next -> 1 < cap -> Z.to_nat next <= fuel ->
  length k + length v <= MAX_ENTRY ->
  wpc no_faults (map_err IsIndex (tree_insert fuel k v) : M _ IndexedStoreError _) p fs
    (fun _ p' fs' => exists h' next', h <= h' <= h + 1 /\ (next <= next' <= next + Z.of_nat h + 2)%Z /\
       index_from dir fs h' n cap p' fs' (<[k := v]> kv) next')
    (fun _ _ _ => False) (fun _ => False).
Proof.
  intros Hs Hc Hf Hkv. wpc_step.
  eapply wpc_mono; [by apply (wpc_tree_insert_at (H1 := heap_laws (index_path dir) fs) h MAX_ENTRY n cap p fs kv next)| | |done].
  - intros [] p' fs' (h' & next' & Hh & Hn & Hs'). exists h', next'. split; [done|]. split; [done|].
    by apply index_from_laws.
  - intros e p' fs' [_ Hlt]. lia.
Qed.

Lemma wpc_index_scan dir (h n cap : nat) p fs kv (next : PageId) (fuel : nat) :
  index_at dir h (tree_cost next + n) cap p fs kv next -> 0 < cap -> Z.to_nat next <= fuel ->
  wpc no_faults (map_err IsIndex (scan_all fuel) : M _ IndexedStoreError _) p fs
    (fun r p' fs' => r = bt_iter kv /\ index_from dir fs h n cap p' fs' kv next)
    (fun _ _ _ => False) (fun _ => False).
Proof.
  intros Hs Hc Hf. wpc_step.
  eapply wpc_mono; [by apply (wpc_scan_all_at (H1 := heap_laws (index_path dir) fs) h MAX_ENTRY n cap p fs kv next)| |done|done].
  intros r p' fs' [Hr Hs']. split; [done|]. by apply index_from_laws.
Qed.

(** Applying a record. *)
Lemma wpc_apply_record dir (h n cap : nat) p fs kv (next : PageId) (fuel : nat) (r : LogRecord) :
  index_at dir h (insert_cost h + n) cap p fs kv next -> 1 < cap -> Z.to_nat next <= fuel ->
  length (user_key (key r)) + length (encode_index_value (record_value r)) <= MAX_ENTRY ->
  wpc no_faults (apply_record_to_index fuel r) p fs
    (fun _ p' fs' => exists h' next', h <= h' <= h + 1 /\ (next <= next' <= next + Z.of_nat h + 2)%Z /\
       index_from dir fs h' n cap p' fs' (replay kv [r]) next')
    (fun _ _ _ => False) (fun _ => False).
Proof. intros Hs Hc Hf Hr. by apply wpc_index_insert. Qed.

(** The backend holds the tree by itself. *)
Definition index_flushed dir (n : nat) p fs kv (next : PageId) : Prop :=
  exists m, heap_view (index_path dir) n (pool_store p) fs m next /\ pages_tree MAX_ENTRY m kv next.

Lemma wpc_index_flush dir (h n cap : nat) p fs kv (next : PageId) :
  index_at dir h (cap + n) cap p fs kv next ->
  wpc no_faults (map_err IsIndex tree_flush : M _ IndexedStoreError _) p fs
    (fun _ p' fs' => index_from dir fs h n cap p' fs' kv next /\ index_flushed dir n p' fs' kv next)
    (fun _ _ _ => False) (fun _ => False).
Proof.
  intros (N & t & chain & Hn & Ht & Hd). wpc_step.
  eapply wpc_mono; [by apply (nodes_flush (H1 := heap_laws (index_path dir) fs) n cap p fs N next)| |done|done].
  intros [] p' fs' (Hn' & m & [Hv _] & Hm). split.
  - apply index_from_laws. by exists N, t, chain.
  - exists m. split; [done|]. by exists N, h, t, chain.
Qed.

(** ** The store *)

(** The open store: the log holds [hist], the tree indexes all of it, the sentinel says [last], and
    there is room for [n] more steps. *)
Record indexed_inv dir (n cap : nat) (s : IndexedStore) fs (last : option Z) (hist : list LogRecord)
    (next : PageId) : Prop := {
  ix_log : log_holds (is_log s) fs hist;
  ix_dir : log_dir (is_log s) = log_path dir;
  ix_sorted : sorted_hist hist;
  ix_index : exists h, index_at dir h n cap (is_index s) fs (index_image last hist) next;
  ix_seq : (next_of hist + Z.of_nat n < 2 ^ 64)%Z;
  ix_active : (active_id (is_log s) + Z.of_nat n < 2 ^ 64)%Z;
  ix_cap : 1 < cap;
  ix_short : Forall short_record hist;
}.

Lemma log_holds_index (l : Log) dir fs fs' (hist : list LogRecord) :
  log_dir l = log_path dir -> below (index_path dir) fs fs' -> log_holds l fs hist -> log_holds l fs' hist.
Proof.
  intros Hd Hb. apply log_holds_agrees. rewrite Hd.
  apply (log_agrees_below (index_path dir)); [apply index_log_apart|done].
Qed.

(** What a step on the tree leaves of the store. *)
Lemma indexed_step dir (h n n' cap : nat) (s s' : IndexedStore) fs fs' (last last' : option Z)
    (hist : list LogRecord) (next next' : PageId) :
  indexed_inv dir n cap s fs last hist next -> is_log s' = is_log s -> n' <= n ->
  index_from dir fs h n' cap (is_index s') fs' (index_image last' hist) next' ->
  indexed_inv dir n' cap s' fs' last' hist next'.
Proof.
  intros [I1 I2 I3 _ I5 I6 I7 I8] Hl Hn [Hb Hs]. split; rewrite ?Hl; try done; try lia.
  - by eapply log_holds_index.
  - by exists h.
Qed.

(** The steps of a checkpoint of a store with [next] pages, at most, and those of a write to a tree of
    height [h]. *)
Definition checkpoint_cost (next : PageId) (cap : nat) : nat := 4 * (Z.to_nat next + 2) + cap.

Definition write_cost (h cap : nat) : nat := 1 + insert_cost h + insert_cost (h + 1) + cap.

(** An open store with its tree at height [h]. *)
Definition indexed_at dir (h n cap : nat) s fs (last : option Z) (hist : list LogRecord) (next : PageId) : Prop :=
  indexed_inv dir n cap s fs last hist next /\
  index_at dir h n cap (is_index s) fs (index_image last hist) next.

Lemma indexed_at_height dir (n cap : nat) s fs (last : option Z) (hist : list LogRecord) (next : PageId) :
  indexed_inv dir n cap s fs last hist next -> exists h, h < Z.to_nat next /\ indexed_at dir h n cap s fs last hist next.
Proof.
  intros Hi. pose proof Hi as [_ _ _ [h Hs] _ _ _ _]. exists h.
  pose proof (index_at_height _ _ _ _ _ _ _ _ Hs) as (Hh & _). by split.
Qed.

Lemma indexed_at_step dir (h0 h n n' cap : nat) (s s' : IndexedStore) fs fs' (last last' : option Z)
    (hist : list LogRecord) (next next' : PageId) :
  indexed_at dir h0 n cap s fs last hist next -> is_log s' = is_log s -> n' <= n ->
  index_from dir fs h n' cap (is_index s') fs' (index_image last' hist) next' ->
  indexed_at dir h n' cap s' fs' last' hist next'.
Proof.
  intros [Hi _] Hl Hn Hs. split; [|apply Hs]. by apply (indexed_step dir h n n' cap s s' fs fs' last last' hist next next').
Qed.

Lemma indexed_at_weaken dir (h n n' cap : nat) s fs (last : option Z) (hist : list LogRecord) (next : PageId) :
  n' <= n -> indexed_at dir h n cap s fs last hist next -> indexed_at dir h n' cap s fs last hist next.
Proof.
  intros Hn Ha. eapply indexed_at_step; [exact Ha|done|done|]. split; [done|].
  eapply index_at_weaken; [done|]. apply Ha.
Qed.

Lemma next_seq_holds (l : Log) fs (hist : list LogRecord) : log_holds l fs hist -> next_seq l = next_of hist.
Proof. intros (ss & rs & Hi). apply (li_next _ _ _ _ _ Hi). Qed.

Lemma sentinel_length (x : Z) : length sentinel + length (le_bytes 8 x) <= MAX_ENTRY.
Proof. rewrite length_le_bytes. unfold MAX_ENTRY. simpl. lia. Qed.

Lemma wpc_checkpoint dir (h n cap : nat) (s : IndexedStore) fs (last : option Z) (hist : list LogRecord)
    (next : PageId) (fuel : nat) :
  indexed_at dir h (insert_cost h + (cap + n)) cap s fs last hist next -> Z.to_nat next <= fuel ->
  wpc no_faults (checkpoint fuel) s fs
    (fun _ s' fs' => exists h' next', h <= h' <= h + 1 /\ (next <= next' <= next + Z.of_nat h + 2)%Z /\
       indexed_at dir h' n cap s' fs' (Some (next_of hist)) hist next' /\
       index_flushed dir n (is_index s') fs' (index_image (Some (next_of hist)) hist) next' /\
       pending_since_checkpoint s' = 0 /\ checkpoint_interval s' = checkpoint_interval s)
    (fun _ _ _ => False) (fun _ => False).
Proof.
  intros Ha Hf. pose proof Ha as [Hi Hs]. unfold checkpoint. wpc_step. wpc_step. cbv zeta.
  rewrite (next_seq_holds _ _ _ (ix_log _ _ _ _ _ _ _ _ Hi)). wpc_step. wpc_step. wpc_step.
  eapply wpc_mono; [apply (wpc_index_insert dir h (cap + n) cap (is_index s) fs _ next fuel sentinel
    (le_bytes 8 (next_of hist)) Hs); [apply Hi|done|apply sentinel_length]| |done|done].
  intros [] p1 fs1 (h1 & next1 & Hh1 & Hn1 & [Hb1 Hs1]).
  replace (<[sentinel := _]> (index_image last hist)) with (index_image (Some (next_of hist)) hist) in Hs1
    by (unfold index_image; by rewrite with_sentinel_again).
  eapply wpc_mono; [by apply (wpc_index_flush dir h1 n cap)| |done|done].
  intros [] p2 fs2 [[Hb2 Hs2] Hfl]. wpc_step. exists h1, next1. split; [done|]. split; [lia|]. split; [|done].
  eapply (indexed_at_step dir h h1 _ n cap s); [exact Ha|done|lia|]. split; [by etrans|exact Hs2].
Qed.

(** ** Writing *)

Lemma short_op_wf (op : LogOp) : short_op op -> wf_op op.
Proof. unfold MAX_ENTRY. destruct op as [k v|k]; cbn; unfold MAX_ENTRY; lia. Qed.

Lemma sorted_hist_snoc (hist : list LogRecord) (op : LogOp) :
  sorted_hist hist -> wf_hist hist -> sorted_hist (hist ++ [op_record (next_of hist) op]).
Proof.
  intros Hs Hw. apply (sorted_hist_app _ (batch_records (next_of hist) [op]) (next_of hist));
    [done|apply sorted_batch|by apply wf_hist_lt_next|apply batch_records_ge].
Qed.

Lemma log_holds_wf (l : Log) fs (hist : list LogRecord) : log_holds l fs hist -> wf_hist hist.
Proof. intros (ss & rs & Hi). apply (li_wf _ _ _ _ _ Hi). Qed.

(** The log takes the record. *)
Lemma wpc_indexed_append dir (n cap : nat) (s : IndexedStore) fs (last : option Z) (hist : list LogRecord)
    (next : PageId) (op : LogOp) :
  indexed_inv dir (Datatypes.S n) cap s fs last hist next -> wf_op op ->
  let record := op_record (next_of hist) op in
  wpc no_faults (match op with OpPut k v => append_put k v | OpDelete k => append_delete k end) (is_log s) fs
    (fun r l' fs' => r = record /\ log_holds l' fs' (hist ++ [record]) /\ log_dir l' = log_path dir /\
       (active_id l' <= active_id (is_log s) + 1)%Z /\ log_frame (log_path dir) fs fs')
    (fun _ _ _ => False) (fun _ => False).
Proof.
  intros [I1 I2 I3 I4 I5 I6 I7 I8] Hop record.
  eapply wpc_mono; [apply (wpc_append_op (F := no_faults) op (is_log s) fs hist I1); [lia|done|lia]| | |].
  - intros r l' fs' (-> & R1 & R2 & R3 & R4). rewrite I2 in *. done.
  - by intros e l' fs' [[] _].
  - by intros fs' [[] _].
Qed.

(** What a write leaves of a store [s] with a tree of height [h]: the history [hist'], one more
    pending record or a checkpoint. *)
Definition write_post dir (h n cap : nat) (s : IndexedStore) (last : option Z) (hist' : list LogRecord)
    (next : PageId) (s' : IndexedStore) fs' : Prop :=
  exists last' h' next', h' <= h + 2 /\ (next <= next' <= next + 2 * Z.of_nat h + 5)%Z /\
    indexed_at dir h' n cap s' fs' last' hist' next' /\ checkpoint_interval s' = checkpoint_interval s /\
    ((last' = last /\ pending_since_checkpoint s' = pending_since_checkpoint s + 1 /\
        pending_since_checkpoint s' < checkpoint_interval s) \/
     (last' = Some (next_of hist') /\ pending_since_checkpoint s' = 0 /\
        checkpoint_interval s <= pending_since_checkpoint s + 1 /\
        index_flushed dir n (is_index s') fs' (index_image last' hist') next')).

Lemma wpc_apply_and_advance dir (n cap : nat) (s : IndexedStore) fs (last : option Z) (hist : list LogRecord)
    (r : LogRecord) (next : PageId) (fuel h : nat) :
  log_holds (is_log s) fs (hist ++ [r]) -> log_dir (is_log s) = log_path dir -> sorted_hist (hist ++ [r]) ->
  Forall short_record (hist ++ [r]) ->
  let c := insert_cost h + (insert_cost (h + 1) + (cap + n)) in
  (next_of (hist ++ [r]) + Z.of_nat c < 2 ^ 64)%Z -> (active_id (is_log s) + Z.of_nat c < 2 ^ 64)%Z ->
  index_at dir h c cap (is_index s) fs (index_image last hist) next -> 1 < cap ->
  Z.to_nat next + h + 2 <= fuel ->
  wpc no_faults (apply_and_advance fuel r) s fs
    (fun _ s' fs' => write_post dir h n cap s last (hist ++ [r]) next s' fs')
    (fun _ _ _ => False) (fun _ => False).
Proof.
  intros Hl Hd Hso Hsh c Hseq Hact Hs Hc Hf.
  assert (short_record r) as Hr by (apply Forall_app in Hsh as [_ Hr]; by apply Forall_inv in Hr).
  pose proof (index_at_height _ _ _ _ _ _ _ _ Hs) as (Hh & Hpos & _).
  unfold apply_and_advance. wpc_step. wpc_step.
  eapply wpc_mono; [apply (wpc_apply_record dir h (insert_cost (h + 1) + (cap + n)) cap (is_index s) fs _ next fuel r Hs Hc); [lia|done]| |done|done].
  intros [] p1 fs1 (h1 & next1 & Hh1 & Hn1 & [Hb1 Hs1]). rewrite index_image_app in Hs1.
  wpc_step. wpc_step. wpc_step. wpc_step.
  set (s1 := set_pending _ _).
  assert (index_at dir h1 (insert_cost h1 + (cap + n)) cap (is_index s1) fs1 (index_image last (hist ++ [r])) next1) as Hs2.
  { eapply index_at_weaken; [|exact Hs1]. unfold insert_cost. lia. }
  assert (indexed_at dir h1 (insert_cost h1 + (cap + n)) cap s1 fs1 last (hist ++ [r]) next1) as Hi1.
  { split; [|exact Hs2].
    split; cbn [s1 set_pending set_is_index is_log is_index]; try done; try (unfold c, insert_cost in *; lia).
    - by eapply log_holds_index.
    - by exists h1. }
  case_decide as Hint.
  - eapply wpc_mono; [apply (wpc_checkpoint dir h1 n cap s1 fs1 last _ next1 fuel Hi1); lia| |done|done].
    intros [] s2 fs2 (h2 & next2 & Hh2 & Hn2 & Hi2 & Hfl & Hp & Hci). exists (Some (next_of (hist ++ [r]))), h2, next2.
    split; [lia|]. split; [lia|]. split; [exact Hi2|]. split; [exact Hci|]. by right.
  - wpc_step. exists last, h1, next1. split; [lia|]. split; [lia|]. split; [|split; [done|left; split; [done|split; [done|]]]].
    + eapply indexed_at_weaken; [|exact Hi1]. lia.
    + cbn [s1 set_pending set_is_index pending_since_checkpoint checkpoint_interval] in *. lia.
Qed.

Lemma wpc_indexed_write dir (h n cap : nat) (s : IndexedStore) fs (last : option Z) (hist : list LogRecord)
    (next : PageId) (fuel : nat) (op : LogOp) :
  indexed_at dir h (write_cost h cap + n) cap s fs last hist next -> short_op op ->
  Z.to_nat next + h + 2 <= fuel ->
  wpc no_faults (indexed_write fuel op) s fs
    (fun _ s' fs' => write_post dir h n cap s last (hist ++ [op_record (next_of hist) op]) next s' fs')
    (fun _ _ _ => False) (fun _ => False).
Proof.
  intros Ha Hop Hf. set (record := op_record (next_of hist) op).
  set (c := insert_cost h + (insert_cost (h + 1) + (cap + n))).
  apply (indexed_at_weaken _ _ _ (Datatypes.S c)) in Ha; [|unfold c, write_cost, insert_cost; lia].
  pose proof Ha as [[I1 I2 I3 _ I5 I6 I7 I8] Hs].
  pose proof (log_holds_wf _ _ _ I1) as Hw.
  assert (next_of (hist ++ [record]) = next_of hist + 1)%Z as Hnext.
  { apply (next_of_batch hist [op] Hw); [constructor; [by apply short_op_wf|constructor]|cbn [length]; lia]. }
  assert (forall r l' fs1, r = record -> log_holds l' fs1 (hist ++ [record]) -> log_dir l' = log_path dir ->
    (active_id l' <= active_id (is_log s) + 1)%Z -> log_frame (log_path dir) fs fs1 ->
    wpc no_faults (apply_and_advance fuel r) (set_is_log l' s) fs1
      (fun _ s' fs' => write_post dir h n cap s last (hist ++ [record]) next s' fs')
      (fun _ _ _ => False) (fun _ => False)) as Hrest.
  { intros r l' fs1 -> R1 R2 R3 R4.
    apply (wpc_apply_and_advance dir n cap (set_is_log l' s) fs1 last hist record next fuel h);
      cbn [set_is_log is_log is_index]; try done.
    - by apply sorted_hist_snoc.
    - apply Forall_app. split; [done|]. constructor; [|constructor]. by apply short_op_record.
    - fold c. rewrite Hnext. lia.
    - fold c. lia.
    - fold c. eapply index_at_log; [exact R4|]. eapply index_at_weaken; [|exact Hs]. lia. }
  pose proof (wpc_indexed_append dir c cap s fs last hist next op (proj1 Ha) (short_op_wf op Hop)) as Happ.
  destruct op as [k v|k]; unfold indexed_write, indexed_put, indexed_delete; wpc_step; wpc_step; wpc_step;
    (eapply wpc_mono; [exact Happ| |done|done]);
    intros r l' fs1 (Hr & R1 & R2 & R3 & R4); by apply Hrest.
Qed.
End indexed.
