(* ===== verification/IndexedOpen.v ===== *)
(** * IndexedOpen: opening an [IndexedStore]

    The reconciliation of [open]: the records that the index does not cover are applied to the
    tree, the sentinel is moved, and the tree is flushed. *)
From S2P Require Export IndexedProps.

Section open.
Context `{Crc32, DirOrder}.

Implicit Types (dir : path) (p : BufferPool HeapPageStore) (fs : fsys) (kv : gmap bytes bytes).

(** ** The reconciliation loop *)

(** The steps of [k] insertions from height [h], at most, and the pages they add. *)
Definition reconcile_cost (h k : nat) : nat := k * insert_cost (h + k).

Definition reconcile_pages (h k : nat) : Z := Z.of_nat (k * (h + k + 2)).

Lemma wpc_reconcile dir (last : Z) (rs : list LogRecord) (h n cap : nat) p fs kv (next : PageId) (fuel : nat) :
  let todo := filter (fun r => last <= seq r)%Z rs in
  let k := length todo in
  index_at dir h (reconcile_cost h k + n) cap p fs kv next -> 1 < cap ->
  Z.to_nat (next + reconcile_pages h k) <= fuel -> Forall short_record rs ->
  wpc no_faults (reconcile fuel last rs) p fs
    (fun r p' fs' => r = k /\ exists h' next', h <= h' <= h + k /\
       (next <= next' <= next + reconcile_pages h k)%Z /\ index_from dir fs h' n cap p' fs' (replay kv todo) next')
    (fun _ _ _ => False) (fun _ => False).
Proof.
  intros todo k Hs Hc Hf Hr. subst todo k. revert h p fs kv next Hs Hf.
  induction Hr as [|r rs Hr Hrs IH]; intros h p fs kv next Hs Hf; cbn [reconcile].
  { wpc_step. split; [done|]. exists h, next. cbn. split; [lia|].
    split; [unfold reconcile_pages; simpl; lia|].
    split; [done|]. eapply index_at_weaken; [|exact Hs]. lia. }
  revert Hs Hf. rewrite filter_cons. destruct (Z.leb_spec last (seq r)) as [Hle|Hgt].
  2: { rewrite decide_False by lia. intros Hs Hf. by apply IH. }
  rewrite decide_True by done. cbn [length]. set (todo := filter _ rs) in *. set (k := length todo) in *.
  intros Hs Hf. pose proof (index_at_height _ _ _ _ _ _ _ _ Hs) as (Hh & Hpos & _).
  unfold reconcile_pages, reconcile_cost in *. wpc_step.
  eapply wpc_mono; [apply (wpc_apply_record dir h (k * insert_cost (h + Datatypes.S k) + n) cap p fs kv next fuel r);
    [|done|lia|done]| |done|done].
  { eapply index_at_weaken; [|exact Hs]. unfold insert_cost. lia. }
  intros [] p1 fs1 (h1 & next1 & Hh1 & Hn1 & [Hb1 Hs1]). wpc_step.
  eapply wpc_mono; [apply (IH h1 p1 fs1 (replay kv [r]) next1)| |done|done].
  { eapply index_at_weaken; [|exact Hs1]. unfold insert_cost. nia. }
  { nia. }
  intros r' p2 fs2 (-> & h2 & next2 & Hh2 & Hn2 & [Hb2 Hs2]). wpc_step. split; [done|].
  exists h2, next2. split; [lia|]. split; [nia|]. split; [by etrans|]. exact Hs2.
Qed.

Lemma wpc_last_indexed dir (h n cap : nat) p fs (last : option Z) (hist : list LogRecord) (next : PageId)
    (fuel : nat) :
  index_at dir h (h + 2 + n) cap p fs (index_image last hist) next -> 0 < cap -> Z.to_nat next <= fuel ->
  in_u64 (default 0%Z last) ->
  wpc no_faults (read_last_indexed_seq fuel) p fs
    (fun r p' fs' => r = default 0%Z last /\ index_from dir fs h n cap p' fs' (index_image last hist) next)
    (fun _ _ _ => False) (fun _ => False).
Proof.
  intros Hs Hc Hf Hu. unfold read_last_indexed_seq. wpc_step.
  eapply wpc_mono; [by apply (wpc_index_get dir h n cap)| |done|done].
  intros r p' fs' [-> Hs']. fold sentinel. rewrite index_image_sentinel.
  destruct last as [s|]; cbn [fmap option_fmap option_map default from_option] in *; [|by wpc_step].
  rewrite length_le_bytes, Nat.eqb_refl. wpc_step. split; [|done]. apply le_val_bytes_small. width_lia.
Qed.

(** ** What a restart finds *)

(** The pages [m] index the history [hist] with the sentinel [last], or the tree is not made yet. *)
Definition pages_index (m : gmap PageId Page) (last : option Z) (hist : list LogRecord) (next : PageId) : Prop :=
  pages_tree MAX_ENTRY m (index_image last hist) next \/
  (m !! META_PAGE_ID = None /\ hist = [] /\ last = None).

(** A directory whose log recovers [h1 ++ h2] and whose index holds [h1], of which the sentinel
    [last] covers a part at least: the log may be ahead of the index, the index never of the log. *)
Record indexed_disk dir (n : nat) fs (last : option Z) (h1 h2 : list LogRecord) (torn : bool)
    (next : PageId) : Prop := {
  id_log : log_recoverable fs (log_path dir) (h1 ++ h2) torn;
  id_segs : exists b, segments_upto fs (log_path dir) b /\ (b + Z.of_nat n < 2 ^ 64)%Z;
  id_pages : exists m, heap_disk (index_path dir) n fs m next /\ pages_index m last h1 next;
  id_sorted : sorted_hist (h1 ++ h2);
  id_last : in_u64 (default 0%Z last);
  id_behind : Forall (fun r => default 0%Z last <= seq r)%Z h2;
  id_short : Forall short_record (h1 ++ h2);
  id_seq : (next_of (h1 ++ h2) + Z.of_nat n < 2 ^ 64)%Z;
}.

Lemma indexed_disk_weaken dir (n n' : nat) fs (last : option Z) (h1 h2 : list LogRecord) (torn : bool)
    (next : PageId) :
  n' <= n -> indexed_disk dir n fs last h1 h2 torn next -> indexed_disk dir n' fs last h1 h2 torn next.
Proof.
  intros Hn [D1 (b & D2 & D2') (m & D3 & D3') D4 D5 D6 D7 D8]. split; try done; [| |lia].
  - exists b. split; [done|lia].
  - exists m. split; [by eapply heap_disk_weaken|done].
Qed.

Lemma wpc_index_open dir (n cap : nat) (s : HeapPageStore) fs (m : gmap PageId Page) (last : option Z)
    (hist : list LogRecord) (next : PageId) :
  heap_view (index_path dir) (4 + n) s fs m next -> pages_index m last hist next -> 1 < cap ->
  wpc no_faults (map_err IsIndex (tree_open s cap) : M unit IndexedStoreError _) tt fs
    (fun p _ fs' => exists h next', (next <= next' <= next + 1)%Z /\
       index_from dir fs h n cap p fs' (index_image last hist) next')
    (fun _ _ _ => False) (fun _ => False).
Proof.
  intros Hv Hm Hc. wpc_step. set (L := heap_laws (index_path dir) fs).
  assert (@ps_view _ _ _ _ L (4 + n) s fs m next) as HvL by by split.
  destruct Hm as [Hm|(Hmeta & -> & ->)].
  - eapply wpc_mono; [apply (wpc_tree_open_existing (H1 := L) MAX_ENTRY n cap s fs m (index_image last hist) next);
      [eapply ps_weaken; [|exact HvL]; lia|exact Hm|lia]| |done|done].
    intros p [] fs' [h Hs]%btree_state_at. exists h, next. split; [lia|]. by apply index_from_laws.
  - eapply wpc_mono; [apply (wpc_tree_open_fresh (H1 := L) MAX_ENTRY n cap s fs m next); [exact HvL|done| |done]| |done|done].
    { apply (hv_bound _ _ _ _ _ _ Hv). }
    intros p [] fs' [h Hs]%btree_state_at. exists h, (next + 1)%Z. split; [lia|].
    by apply index_from_laws.
Qed.

Lemma pages_index_next (m : gmap PageId Page) (last : option Z) (hist : list LogRecord) (next next' : PageId) :
  pages_index m last hist next -> (forall id, is_Some (m !! id) -> (id < next')%Z) ->
  pages_index m last hist next'.
Proof. intros [Hm|Hm] Hlt; [left; by eapply pages_tree_next|by right]. Qed.

(** The steps of the reconciliation of [k] records, at most. *)
Definition open_cost (next : PageId) (k cap : nat) : nat :=
  let h := Z.to_nat next + 1 in 4 + (h + 2 + (reconcile_cost h k + (insert_cost (h + k) + cap))).

(** The pages after it, at most. *)
Definition open_pages (next : PageId) (k : nat) : Z :=
  (next + 1 + reconcile_pages (Z.to_nat next + 1) k + Z.of_nat (Z.to_nat next + 1 + k) + 2)%Z.

(** The part of [open] that works on the tree. *)
Lemma wpc_catch_up dir (h n cap : nat) p fs (last : option Z) (h1 h2 : list LogRecord) (next nseq : Z) (fuel : nat) :
  let k := length (unindexed last (h1 ++ h2)) in
  index_at dir h (h + 2 + (reconcile_cost h k + (insert_cost (h + k) + cap + n))) cap p fs (index_image last h1) next ->
  1 < cap -> Z.to_nat (next + reconcile_pages h k) <= fuel ->
  sorted_hist (h1 ++ h2) -> in_u64 (default 0%Z last) ->
  Forall (fun r => default 0%Z last <= seq r)%Z h2 -> Forall short_record (h1 ++ h2) ->
  let last' := if decide (0 < k) then Some nseq else last in
  wpc no_faults (last_indexed_seq ← read_last_indexed_seq fuel;
      reconciled ← reconcile fuel last_indexed_seq (h1 ++ h2);
      (if decide (0 < reconciled) then
         map_err IsIndex (tree_insert fuel (meta_key LAST_INDEXED_SEQ_KEY) (le_bytes 8 nseq));;
         map_err IsIndex tree_flush
       else mret tt);;
      mret reconciled) p fs
    (fun r p' fs' => r = k /\ exists h' next', (next <= next' <= next + reconcile_pages h k + Z.of_nat (h + k) + 2)%Z /\
       index_from dir fs h' n cap p' fs' (index_image last' (h1 ++ h2)) next')
    (fun _ _ _ => False) (fun _ => False).
Proof.
  intros k Hs Hc Hf Hso Hu H2 Hr last'.
  assert (0 <= reconcile_pages h k)%Z as Hpg by (unfold reconcile_pages; lia).
  pose proof (index_at_height _ _ _ _ _ _ _ _ Hs) as (_ & Hpos & _).
  wpc_step. eapply wpc_mono; [by apply (wpc_last_indexed dir h _ cap p fs last h1 next fuel Hs); [lia|lia|]| |done|done].
  intros r0 p1 fs1 [-> [Hb1 Hs1]]. wpc_step.
  eapply wpc_mono; [apply (wpc_reconcile dir (default 0%Z last) (h1 ++ h2) h (insert_cost (h + k) + cap + n) cap p1 fs1 (index_image last h1) next fuel);
    [exact Hs1|done|exact Hf|done]| |done|done].
  intros r p2 fs2 (-> & h' & next' & Hh' & Hn' & [Hb2 Hs2]). fold (unindexed last (h1 ++ h2)) in *.
  fold k in Hh', Hn' |- *.
  rewrite reconcile_image in Hs2 by done. unfold last'. wpc_step. case_decide as Hk.
  - wpc_step.
    eapply wpc_mono; [apply (wpc_index_insert dir h' (cap + n) cap p2 fs2 (index_image last (h1 ++ h2)) next' fuel sentinel (le_bytes 8 nseq));
      [eapply index_at_weaken; [|exact Hs2]; unfold insert_cost; lia|done|lia|apply sentinel_length]| |done|done].
    intros [] p3 fs3 (h3 & next3 & Hh3 & Hn3 & [Hb3 Hs3]). unfold index_image at 1 in Hs3.
    rewrite with_sentinel_again in Hs3.
    eapply wpc_mono; [by apply (wpc_index_flush dir h3 n cap)| |done|done].
    intros [] p4 fs4 [[Hb4 Hs4] _]. wpc_step. split; [done|]. exists h3, next3. split; [lia|].
    split; [|exact Hs4]. by etrans; [|etrans; [|etrans]].
  - wpc_step. wpc_step. split; [done|]. exists h', next'. split; [lia|]. split; [by etrans|].
    eapply index_at_weaken; [|exact Hs2]. lia.
Qed.

Lemma reconcile_mono (h h' k : nat) :
  h <= h' -> reconcile_cost h k <= reconcile_cost h' k /\ (reconcile_pages h k <= reconcile_pages h' k)%Z.
Proof. intros Hh. unfold reconcile_cost, reconcile_pages, insert_cost. nia. Qed.

(** The open store. *)
Definition opened dir (n cap interval : nat) (s : IndexedStore) fs (k : nat) (last : option Z)
    (hist : list LogRecord) (torn : bool) (next : PageId) : Prop :=
  reconciled_records s = k /\ is_torn s = torn /\ pending_since_checkpoint s = 0 /\
  checkpoint_interval s = interval `max` 1 /\
  exists next', (0 < next' <= open_pages next k)%Z /\
    indexed_inv dir n cap s fs (if decide (0 < k) then Some (next_of hist) else last) hist next'.

(** What follows the opening of the log and of the backend. *)
Lemma wpc_open_index dir (n cap interval : nat) (l : Log) (hs : HeapPageStore) fs (m : gmap PageId Page)
    (last : option Z) (h1 h2 : list LogRecord) (torn : bool) (next0 next : PageId) (fuel : nat) :
  let hist := h1 ++ h2 in let k := length (unindexed last hist) in
  log_holds l fs hist -> log_dir l = log_path dir -> (active_id l + Z.of_nat n < 2 ^ 64)%Z ->
  heap_view (index_path dir) (open_cost next k cap + n) hs fs m next0 -> (next0 <= next)%Z ->
  pages_index m last h1 next0 ->
  sorted_hist hist -> in_u64 (default 0%Z last) -> Forall (fun r => default 0%Z last <= seq r)%Z h2 ->
  Forall short_record hist -> (next_of hist + Z.of_nat n < 2 ^ 64)%Z -> 1 < cap ->
  Z.to_nat (open_pages next k) <= fuel ->
  wpc no_faults (index ← map_err IsIndex (tree_open hs cap);
    '(reconciled, index) ← on index (
      last_indexed_seq ← read_last_indexed_seq fuel;
      reconciled ← reconcile fuel last_indexed_seq hist;
      (if decide (0 < reconciled) then
         map_err IsIndex (tree_insert fuel (meta_key LAST_INDEXED_SEQ_KEY) (le_bytes 8 (next_seq l)));;
         map_err IsIndex tree_flush
       else mret tt);;
      mret reconciled);
    mret (mkIndexed l index reconciled torn (interval `max` 1) 0) : M unit IndexedStoreError _) tt fs
    (fun s _ fs' => opened dir n cap interval s fs' k last hist torn next) (fun _ _ _ => False) (fun _ => False).
Proof.
  intros hist k Hl Hld Hact Hv Hn0 Hm0 D4 D5 D6 D7 D8 Hc Hf. wpc_step. set (H' := Z.to_nat next + 1).
  assert (open_pages next k = (next + 1 + reconcile_pages H' k + Z.of_nat (H' + k) + 2)%Z) as Hop by done.
  rewrite Hop in Hf.
  set (c := H' + 2 + (reconcile_cost H' k + (insert_cost (H' + k) + cap + n))).
  eapply wpc_mono; [apply (wpc_index_open dir c cap hs fs m last h1 next0);
    [eapply heap_view_weaken; [|exact Hv]; unfold open_cost, c, H'; lia|done|done]| |done|done].
  intros p [] fs3 (h & next1 & Hn1 & [Hb3 Hs3]). wpc_step. wpc_step.
  pose proof (index_at_height _ _ _ _ _ _ _ _ Hs3) as (Hh & _ & _).
  assert (h <= H') as HhH by (unfold H'; lia). destruct (reconcile_mono h H' k HhH) as [Hm1 Hm2].
  eapply wpc_mono; [apply (wpc_catch_up dir h n cap p fs3 last h1 h2 next1 (next_seq l) fuel); try done| |done|done].
  { eapply index_at_weaken; [|exact Hs3]. unfold c, insert_cost in *. fold hist. fold k. lia. }
  { fold hist. fold k. lia. }
  fold hist. fold k. intros r p4 fs4 (-> & h4 & next4 & Hn4 & [Hb4 Hs4]). wpc_step. cbn [fst snd].
  assert (below (index_path dir) fs fs4) as Hb by by etrans.
  rewrite (next_seq_holds _ _ _ Hl) in Hs4. unfold opened. rewrite Hop.
  split_and!; try done. exists next4. split; [lia|].
  split; cbn [is_log is_index]; try done.
  - by eapply log_holds_index.
  - by exists h4.
Qed.

Lemma wpc_open_with_options dir (n cap interval : nat) fs (last : option Z) (h1 h2 : list LogRecord)
    (torn : bool) (next : PageId) (fuel : nat) :
  let k := length (unindexed last (h1 ++ h2)) in
  indexed_disk dir (open_cost next k cap + n) fs last h1 h2 torn next -> 1 < cap ->
  Z.to_nat (open_pages next k) <= fuel ->
  wpc no_faults (open_with_options fuel dir cap interval) tt fs
    (fun s _ fs' => opened dir n cap interval s fs' k last (h1 ++ h2) torn next)
    (fun _ _ _ => False) (fun _ => False).
Proof.
  intros k [D1 (b & D2 & D2') (m & D3 & D3') D4 D5 D6 D7 D8] Hc Hf. set (hist := h1 ++ h2) in *.
  unfold open_with_options. wpc_step. wpc_step. unfold log_open.
  eapply wpc_mono; [apply (wpc_open_recoverable_id (F := no_faults) fs (log_path dir) DEFAULT_SEGMENT_MAX_BYTES hist torn);
    [by intros []|exact D1]| |done|by intros ? [[] _]].
  intros [l rep] [] fs1 (Hl & Hld & _ & Hrep & Hfr & Hact). cbn [fst snd] in *. subst rep.
  wpc_step. wpc_step. cbv beta iota.
  pose proof (below_log_frame _ _ _ Hfr) as Hb1.
  pose proof (heap_disk_below _ _ _ _ _ _ _ (log_index_apart dir) Hb1 D3) as Hdisk.
  eapply wpc_mono; [by apply wpc_hps_open| |done|done].
  intros hs [] fs2 (Hb2 & next0 & Hn0 & Hv). cbn [rep_records rep_torn].
  apply (wpc_open_index dir n cap interval l hs fs2 m last h1 h2 torn next0 next); try done.
  - by eapply log_holds_index.
  - destruct Hl as (ss & rs & Hli). pose proof (log_disk_id_u64 _ _ _ _ _ (li_disk _ _ _ _ _ Hli)) as Hu.
    specialize (D2 (active_id l) Hu Hact). lia.
  - lia.
  - eapply pages_index_next; [exact D3'|]. intros id Hid. by apply (hv_fresh _ _ _ _ _ _ Hv).
  - fold hist. lia.
Qed.
End open.
