(* ===== verification/IndexedNew.v ===== *)
(** * IndexedNew: the first open of an [IndexedStore]

    In a place where nothing is yet, [open] creates the directories of the log and of the index with
    their files, makes the root of the tree, and returns the store of the empty history. *)
From S2P Require Export IndexedOpen.

(** ** Places where a directory can be created *)

(** There is nothing at [dir] or below it, and its parent exists. *)
Record vacant (fs : fsys) (n : bytes) (d : path) : Prop := {
  vc_parent : dir_ok fs d;
  vc_file : file_at fs (n :: d) = None;
  vc_below : forall q, (n :: d) `suffix_of` q -> fs !! q = None;
}.

Lemma mk_dirs_same (dir : path) (fs fs' : fsys) (q : path) :
  mk_dirs dir fs = Some fs' -> ~ q `suffix_of` dir -> fs' !! q = fs !! q.
Proof.
  revert fs'. induction dir as [|n d IH]; intros fs' Hm Hq; simpl in Hm.
  - destruct (fs !! []); simplify_eq; [done|]. apply lookup_insert_ne. by intros <-.
  - destruct (mk_dirs d fs) as [fs1|]; simplify_option_eq.
    assert (fs1 !! q = fs !! q) as Hs by (apply IH; [done|]; intros Hs; apply Hq; by apply suffix_cons_r).
    destruct (fs1 !! (n :: d)); simplify_eq; [done|]. destruct (file_at fs1 (n :: d)); simplify_eq.
    rewrite lookup_insert_ne; [done|]. by intros <-.
Qed.

Lemma vacant_made (fs : fsys) (n : bytes) (d : path) :
  vacant fs n d -> mk_dirs (n :: d) fs = Some (<[n :: d := ∅]> fs).
Proof.
  intros [Hp Hf Hb]. cbn [mk_dirs]. rewrite mk_dirs_ok by done. cbn [mbind option_bind].
  by rewrite Hb, Hf by done.
Qed.

(** The new directory has nothing in it. *)
Definition bare_dir (fs : fsys) (dir : path) : Prop :=
  dir_ok fs dir /\ fs !! dir = Some ∅ /\ forall q, dir `suffix_of` q -> q <> dir -> fs !! q = None.

Lemma vacant_bare (fs : fsys) (n : bytes) (d : path) : vacant fs n d -> bare_dir (<[n :: d := ∅]> fs) (n :: d).
Proof.
  intros Hv. destruct (mk_dirs_dir_ok _ _ _ (vacant_made _ _ _ Hv)) as [Hok _]. split; [done|].
  split; [apply lookup_insert_eq|]. intros q Hq Hne. rewrite lookup_insert_ne by done. by apply Hv.
Qed.

(** A directory to start in: once it is made, with its parents, it has nothing in it. *)
Definition new_place (fs : fsys) (dir : path) : Prop := exists fs0, mk_dirs dir fs = Some fs0 /\ bare_dir fs0 dir.

(** An empty directory is one, and so is a directory that is not there yet. *)
Lemma bare_new_place (fs : fsys) (dir : path) : bare_dir fs dir -> new_place fs dir.
Proof. intros Hf. exists fs. split; [apply mk_dirs_ok, Hf|done]. Qed.

Lemma absent_new_place (fs : fsys) (dir : path) :
  (forall q, dir `suffix_of` q -> fs !! q = None) -> is_Some (mk_dirs dir fs) -> new_place fs dir.
Proof.
  intros Hb [fs' Hm]. exists fs'. split; [done|]. split; [by eapply mk_dirs_dir_ok|]. split.
  - destruct dir as [|n d]; simpl in Hm; [rewrite Hb in Hm by done; simplify_eq; apply lookup_insert_eq|].
    destruct (mk_dirs d fs) as [fs1|] eqn:E; simplify_option_eq.
    assert (fs1 !! (n :: d) = None) as Hn.
    { rewrite (mk_dirs_same d fs fs1 _ E); [by apply Hb|]. intros Hs%suffix_length. simpl in Hs. lia. }
    rewrite Hn in Hm. destruct (file_at fs1 (n :: d)); simplify_eq. apply lookup_insert_eq.
  - intros q Hq Hne. rewrite (mk_dirs_same dir fs fs' q Hm); [by apply Hb|].
    intros Hs. apply Hne. by apply (suffix_length_eq q dir); [|apply suffix_length].
Qed.

Lemma bare_dir_log (fs : fsys) (dir : path) : bare_dir fs dir -> disk_log fs dir ∅.
Proof.
  intros (Hok & Hd & Hb). apply disk_log_empty_dir; [done|done|]. intros n.
  apply Hb; [by apply suffix_cons_r|]. intros Hn. apply (f_equal length) in Hn. simpl in Hn. lia.
Qed.

(** A place in a new directory, whatever its files are. *)
Lemma bare_dir_vacant (fs fs' : fsys) (n : bytes) (dir : path) (files : gmap bytes File) :
  bare_dir fs dir -> fs' !! dir = Some files -> files !! n = None -> (forall q, ~ dir `suffix_of` q -> fs' !! q = fs !! q) ->
  (forall q, (n :: dir) `suffix_of` q -> fs' !! q = fs !! q) -> vacant fs' n dir.
Proof.
  intros (Hok & Hd & Hb) Hd' Hn Hout Hin. split.
  - intros q Hq. destruct (decide (dir `suffix_of` q)) as [Hs|Hs]; [|by rewrite Hout; [apply Hok|]].
    assert (q = dir) as -> by (apply (suffix_length_eq q dir); [done|by apply suffix_length]). by eexists.
  - unfold file_at. by rewrite Hd'.
  - intros q Hq. rewrite Hin by done. apply Hb; [etrans; [|exact Hq]; by apply suffix_cons_r|].
    intros ->. apply suffix_length in Hq. simpl in Hq. lia.
Qed.

Section new.
Context `{Crc32, DirOrder}.

Implicit Types (dir : path) (fs : fsys).

(** ** A new log, heap file and store *)

Lemma wpc_log_open_vacant (fs fs0 : fsys) (n : bytes) (d : path) :
  mk_dirs (n :: d) fs = Some (<[n :: d := ∅]> fs0) -> vacant fs0 n d ->
  wpc no_faults (log_open (n :: d)) tt fs
    (fun a _ fs' => log_holds a.1 fs' [] /\ log_dir a.1 = n :: d /\ active_id a.1 = 0%Z /\
       a.2 = mkReport [] false /\ log_frame (n :: d) (<[n :: d := ∅]> fs0) fs')
    (fun _ _ _ => False) (fun _ => False).
Proof.
  intros Hm Hv. unfold log_open.
  eapply wpc_mono; [apply (wpc_open_new fs (<[n :: d := ∅]> fs0)); [by intros []|exact Hm|]| |done|by intros ? [[] _]].
  - by apply bare_dir_log, vacant_bare.
  - intros [l rep] [] fs' Hl. exact Hl.
Qed.

Lemma wpc_hps_open_new (fs : fsys) (x : bytes) (d : path) (n : nat) :
  vacant fs x d -> (Z.of_nat n < 2 ^ 32)%Z ->
  wpc no_faults (hps_open (x :: d)) tt fs
    (fun s _ fs' => below (x :: d) fs fs' /\ heap_view (x :: d) n s fs' ∅ 1)
    (fun _ _ _ => False) (fun _ => False).
Proof.
  intros Hv Hn. set (dir := x :: d) in *. pose proof (vacant_bare _ _ _ Hv) as Hfr. fold dir in Hfr.
  set (fs1 := <[dir := ∅]> fs) in *. set (f := mkFile [] 0). set (fs2 := put_file (heap_path dir) f fs1).
  pose proof Hfr as (Hok & Hd & Hb).
  assert (fs1 !! heap_path dir = None) as Hh.
  { apply Hb; [by apply suffix_cons_r|]. intros Hp. apply (f_equal length) in Hp. simpl in Hp. lia. }
  assert (fs2 !! dir = Some (<[HEAP_FILE_NAME := f]> ∅)) as Hd2.
  { unfold fs2, heap_path, path_join, put_file. by rewrite lookup_alter_eq, Hd. }
  assert (forall q, q <> dir -> fs2 !! q = fs1 !! q) as Ho2 by (intros q Hq; by apply lookup_alter_ne).
  assert (vacant fs2 LOCATIONS_DIR dir) as Hv2.
  { eapply bare_dir_vacant; [exact Hfr|exact Hd2|by rewrite lookup_insert_ne| |].
    - intros q Hq. apply Ho2. by intros ->.
    - intros q Hq. apply Ho2. intros ->. apply suffix_length in Hq. simpl in Hq. lia. }
  assert (file_at fs2 (heap_path dir) = Some f) as Hf2.
  { unfold file_at, heap_path, path_join. rewrite Hd2. apply lookup_insert_eq. }
  unfold hps_open. wpc_step. wpc_step. apply wpc_prim; [|by intros []|by intros []].
  assert (mk_dirs dir fs = Some fs1) as -> by by apply vacant_made.
  wpc_step. wpc_step. unfold open_rw_create. apply wpc_atomic; [|by intros []|by intros []].
  unfold heap_path, path_join. fold (path_join dir HEAP_FILE_NAME). fold (heap_path dir). rewrite Hh, Hd.
  cbn [lookup]. rewrite lookup_empty. fold f fs2. wpc_step. wpc_step. wpc_step.
  unfold metadata_len. apply wpc_atomic; [|by intros []|by intros []]. cbn [h_path]. rewrite Hf2. cbv zeta.
  rewrite decide_False by (intros Hz; by apply Hz). wpc_step. wpc_step. wpc_step. wpc_step.
  eapply wpc_mono; [apply (wpc_log_open_vacant fs2 fs2 LOCATIONS_DIR dir); [by apply vacant_made|done]| |done|done].
  intros [l rep] [] fs3 (Hl & Hld & Ha & Hrep & Hfl). cbn [fst snd] in *. subst rep.
  wpc_step. cbn [rep_records load_locations unwrap]. apply wpc_ret. wpc_step. cbn [next_page_id_after].
  pose proof (heap_file_frame dir _ _ Hfl) as [Hf3 Hd3].
  assert (heap_path dir <> loc_dir dir) as Hne by apply heap_path_ne. split.
  - intros q Hq. destruct Hfl as [Hfl _]. rewrite Hfl by (intros ->; apply Hq; by apply suffix_cons_r).
    rewrite lookup_insert_ne by (intros <-; apply Hq; by apply suffix_cons_r).
    rewrite Ho2 by (intros ->; by apply Hq). apply lookup_insert_ne. intros <-. by apply Hq.
  - assert (file_at fs3 (heap_path dir) = Some f) as Hf.
    { rewrite Hf3, <-Hf2. unfold file_at, heap_path, path_join. rewrite lookup_insert_ne; [done|]. apply not_eq_sym, loc_dir_ne. }
    split; cbn [heap_file heap_len location_log locations next_page_id h_path f_data length]; try done.
    + exists f. split_and!; try done. split; [done|]. intros id. rewrite !lookup_empty. constructor.
    + rewrite Hd3, lookup_insert_ne by done. rewrite Ho2; [done|]. intros Hp. apply (f_equal length) in Hp. simpl in Hp. lia.
    + exists [], None. split_and!; try done. rewrite next_of_nil. lia.
    + rewrite Ha. lia.
    + unfold PAGE_SIZE. simpl. lia.
    + lia.
    + intros id. rewrite lookup_empty. by intros [].
Qed.

Lemma wpc_open_with_options_new (dir : path) (n cap interval : nat) (fs : fsys) (fuel : nat) :
  new_place fs dir -> (Z.of_nat (open_cost 1 0 cap + n) < 2 ^ 32)%Z -> 1 < cap ->
  Z.to_nat (open_pages 1 0) <= fuel ->
  wpc no_faults (open_with_options fuel dir cap interval) tt fs
    (fun s _ fs' => opened dir n cap interval s fs' 0 None [] false 1)
    (fun _ _ _ => False) (fun _ => False).
Proof.
  intros (fs0 & Hm0 & Hbare) Hn Hc Hf.
  pose proof Hbare as (Hok & Hd & Hb).
  assert (vacant fs0 (ascii "log") dir) as Hv0 by (by eapply bare_dir_vacant).
  assert (mk_dirs (log_path dir) fs = Some (<[log_path dir := ∅]> fs0)) as Hm.
  { etrans; [symmetry; eapply mk_dirs_suffix; [|exact Hm0]; by apply suffix_cons_r|]. exact (vacant_made _ _ _ Hv0). }
  unfold open_with_options. wpc_step. wpc_step.
  eapply wpc_mono; [by apply (wpc_log_open_vacant fs fs0)| |done|done].
  intros [l rep] [] fs1 (Hl & Hld & Hact & Hrep & Hfr). cbn [fst snd] in *. subst rep.
  assert (forall q, q <> log_path dir -> fs1 !! q = fs0 !! q) as Hsame.
  { intros q Hq. destruct Hfr as [Hfr _]. rewrite Hfr by done. by apply lookup_insert_ne. }
  assert (vacant fs1 (ascii "index") dir) as Hv1.
  { eapply bare_dir_vacant; [exact Hbare| |by apply lookup_empty| |].
    - rewrite Hsame; [done|]. intros Hp. apply (f_equal length) in Hp. simpl in Hp. lia.
    - intros q Hq. apply Hsame. intros ->. apply Hq. by apply suffix_cons_r.
    - intros q Hq. apply Hsame. intros ->. by apply (log_index_apart dir). }
  wpc_step. wpc_step. cbv beta iota.
  eapply wpc_mono; [by apply (wpc_hps_open_new fs1 (ascii "index") dir (open_cost 1 0 cap + n))| |done|done].
  intros hs [] fs2 [Hb2 Hv]. cbn [rep_records rep_torn].
  apply (wpc_open_index dir n cap interval l hs fs2 ∅ None [] [] false 1 1); try done.
  - by eapply log_holds_index.
  - rewrite Hact. lia.
  - by right.
  - constructor.
  - cbn [app]. rewrite next_of_nil. lia.
Qed.

(** ** A start of the store *)

(** The directory is as a store left it, or it is new. *)
Definition indexed_start dir (n : nat) fs (last : option Z) (h1 h2 : list LogRecord) (torn : bool)
    (next : PageId) : Prop :=
  indexed_disk dir n fs last h1 h2 torn next \/
  (new_place fs dir /\ (Z.of_nat n < 2 ^ 32)%Z /\ last = None /\ h1 = [] /\ h2 = [] /\ torn = false /\ next = 1%Z).

Lemma wpc_open_start dir (n cap interval : nat) fs (last : option Z) (h1 h2 : list LogRecord)
    (torn : bool) (next : PageId) (fuel : nat) :
  let k := length (unindexed last (h1 ++ h2)) in
  indexed_start dir (open_cost next k cap + n) fs last h1 h2 torn next -> 1 < cap ->
  Z.to_nat (open_pages next k) <= fuel ->
  wpc no_faults (open_with_options fuel dir cap interval) tt fs
    (fun s _ fs' => opened dir n cap interval s fs' k last (h1 ++ h2) torn next)
    (fun _ _ _ => False) (fun _ => False).
Proof.
  intros k [Hd|(Hp & Hn & -> & -> & -> & -> & ->)] Hc Hf; [by apply wpc_open_with_options|].
  by apply wpc_open_with_options_new.
Qed.
End new.
