(* ===== verification/IndexedSession.v ===== *)
(** * IndexedSession: reads and runs of writes

    How far the sentinel falls behind the log over a run of writes: never by
    [checkpoint_interval] records, and by how many is determined by the number of writes. *)
From S2P Require Export IndexedOpen.

Section session.
Context `{Crc32, DirOrder}.

Implicit Types (dir : path) (s : IndexedStore) (fs : fsys) (hist : list LogRecord).

(** ** Reads *)

Lemma wpc_indexed_get dir (h n cap : nat) s fs (last : option Z) hist (next : PageId) (fuel : nat) (k : bytes) :
  indexed_at dir h (tree_cost next + n) cap s fs last hist next -> Z.to_nat next <= fuel ->
  wpc no_faults (indexed_get fuel k) s fs
    (fun r s' fs' => r = kv_of hist !! k /\ indexed_at dir h n cap s' fs' last hist next)
    (fun _ _ _ => False) (fun _ => False).
Proof.
  intros Ha Hf. pose proof Ha as [[_ _ _ _ _ _ Hc _] Hs].
  pose proof (index_at_height _ _ _ _ _ _ _ _ Hs) as (Hh & _ & _). unfold indexed_get. wpc_step. wpc_step.
  eapply wpc_mono; [apply (wpc_index_get dir h n cap (is_index s) fs (index_image last hist) next fuel (user_key k));
    [eapply index_at_weaken; [|exact Hs]; unfold tree_cost; lia|lia|done]| |done|done].
  intros r p fs' [-> Hs']. pose proof (index_image_lookup last hist k) as Hk.
  assert (indexed_at dir h n cap (set_is_index p s) fs' last hist next) as Ha'
    by (eapply (indexed_at_step dir h h); [exact Ha|done|lia|exact Hs']).
  destruct (index_image last hist !! user_key k) as [bs|]; [rewrite Hk; cbn [unwrap]|]; wpc_step; by rewrite ?Hk.
Qed.

Lemma wpc_indexed_scan dir (h n cap : nat) s fs (last : option Z) hist (next : PageId) (fuel : nat) (prefix : bytes) :
  indexed_at dir h (tree_cost next + n) cap s fs last hist next -> Z.to_nat next <= fuel ->
  wpc no_faults (indexed_scan fuel prefix) s fs
    (fun r s' fs' => r = bt_iter (with_prefix prefix (kv_of hist)) /\
       indexed_at dir h n cap s' fs' last hist next)
    (fun _ _ _ => False) (fun _ => False).
Proof.
  intros Ha Hf. pose proof Ha as [[_ _ _ _ _ _ Hc _] Hs].
  destruct (scan_index prefix last hist) as (out & Hout & Hsort). unfold indexed_scan. wpc_step. wpc_step.
  eapply wpc_mono; [apply (wpc_index_scan dir h n cap (is_index s) fs (index_image last hist) next fuel Hs); [lia|done]| |done|done].
  intros r p fs' [-> Hs']. rewrite Hout. cbn [unwrap]. wpc_step. wpc_step. wpc_step. split; [done|].
  eapply (indexed_at_step dir h h); [exact Ha|done|lia|exact Hs'].
Qed.

(** ** Writes *)

(** The store counts the records that the sentinel does not cover, and there are fewer of them than
    its interval. *)
Definition tracked s (last : option Z) hist : Prop :=
  (default 0 last <= next_of hist)%Z /\ pending_since_checkpoint s = length (unindexed last hist) /\
  pending_since_checkpoint s < checkpoint_interval s.

Lemma unindexed_snoc (last : option Z) hist (op : LogOp) :
  (default 0 last <= next_of hist)%Z ->
  unindexed last (hist ++ [op_record (next_of hist) op]) = unindexed last hist ++ [op_record (next_of hist) op].
Proof.
  intros Hl. unfold unindexed. rewrite filter_app, filter_cons_True; [done|].
  by rewrite seq_op_record.
Qed.

Lemma unindexed_all hist : wf_hist hist -> unindexed (Some (next_of hist)) hist = [].
Proof.
  intros Hw. apply filter_none. eapply Forall_impl; [by apply wf_hist_lt_next|].
  intros r Hr. cbv [default from_option id] in *. cbv beta in *. lia.
Qed.

(** A store that has just been opened is. *)
Lemma tracked_opened s (last : option Z) hist :
  (default 0 last <= next_of hist)%Z -> unindexed last hist = [] ->
  pending_since_checkpoint s = 0 -> 0 < checkpoint_interval s -> tracked s last hist.
Proof. intros Hl Hu Hp Hi. split; [done|]. rewrite Hu, Hp. done. Qed.

Lemma next_of_write hist (op : LogOp) (n : nat) :
  wf_hist hist -> short_op op -> (next_of hist + Z.of_nat (Datatypes.S n) < 2 ^ 64)%Z ->
  wf_hist (hist ++ [op_record (next_of hist) op]) /\
  next_of (hist ++ [op_record (next_of hist) op]) = (next_of hist + 1)%Z.
Proof.
  intros Hw Ho Hn. apply (next_of_batch hist [op] Hw); [|cbn [length]; lia].
  constructor; [by apply short_op_wf|constructor].
Qed.

Lemma write_post_tracked dir (h n cap : nat) s s' fs' (last : option Z) hist (next : PageId) (op : LogOp) (m : nat) :
  wf_hist hist -> short_op op -> (next_of hist + Z.of_nat (Datatypes.S m) < 2 ^ 64)%Z -> tracked s last hist ->
  write_post dir h n cap s last (hist ++ [op_record (next_of hist) op]) next s' fs' ->
  exists last' h' next', h' <= h + 2 /\ (next <= next' <= next + 2 * Z.of_nat h + 5)%Z /\
    indexed_at dir h' n cap s' fs' last' (hist ++ [op_record (next_of hist) op]) next' /\
    checkpoint_interval s' = checkpoint_interval s /\ tracked s' last' (hist ++ [op_record (next_of hist) op]) /\
    pending_since_checkpoint s' = (pending_since_checkpoint s + 1) mod checkpoint_interval s.
Proof.
  intros Hw Ho Hn (T1 & T2 & T3) (last' & h' & next' & Hh & Hnx & Ha & Hci & Hcase).
  destruct (next_of_write hist op m Hw Ho Hn) as [Hw' Hn'].
  exists last', h', next'. do 4 (split; [done|]). unfold tracked. rewrite Hn', Hci.
  destruct Hcase as [(-> & Hp & Hlt)|(-> & Hp & Hge & _)].
  - rewrite unindexed_snoc, length_app, Nat.mod_small by (done || lia). cbn [length]. split; [|done].
    split; [lia|]. lia.
  - rewrite <-Hn', unindexed_all, Hp by done. split; [split; [done|split; [done|lia]]|].
    replace (pending_since_checkpoint s + 1) with (checkpoint_interval s) by lia. symmetry. by apply Nat.Div0.mod_same.
Qed.

(** The steps of [k] writes from height [h], at most, and the pages afterwards. *)
Definition session_cost (h k cap : nat) : nat := k * write_cost (h + 2 * k) cap.

Definition session_pages (h : nat) (next : PageId) (k : nat) : Z :=
  (next + Z.of_nat (k * (2 * (h + 2 * k) + 5)))%Z.

Lemma session_cost_step (h h' k cap : nat) :
  h' <= h + 2 -> write_cost h cap + session_cost h' k cap <= session_cost h (Datatypes.S k) cap.
Proof. unfold session_cost, write_cost, insert_cost. intros Hh. nia. Qed.

Lemma session_pages_step (h h' : nat) (next next' : PageId) (k : nat) :
  h' <= h + 2 -> (next' <= next + 2 * Z.of_nat h + 5)%Z ->
  (session_pages h' next' k <= session_pages h next (Datatypes.S k))%Z.
Proof. unfold session_pages. intros Hh Hn. nia. Qed.

Lemma wpc_indexed_writes dir (h n cap : nat) s fs (last : option Z) hist (next : PageId) (fuel : nat)
    (ops : list LogOp) :
  let k := length ops in
  indexed_at dir h (session_cost h k cap + n) cap s fs last hist next -> tracked s last hist ->
  Forall short_op ops -> Z.to_nat (session_pages h next k) <= fuel ->
  wpc no_faults (for_each (indexed_write fuel) ops) s fs
    (fun _ s' fs' => exists last' h' next', (next' <= session_pages h next k)%Z /\
       indexed_at dir h' n cap s' fs' last' (hist ++ batch_records (next_of hist) ops) next' /\
       checkpoint_interval s' = checkpoint_interval s /\
       tracked s' last' (hist ++ batch_records (next_of hist) ops) /\
       pending_since_checkpoint s' = (pending_since_checkpoint s + k) mod checkpoint_interval s)
    (fun _ _ _ => False) (fun _ => False).
Proof.
  intros k. subst k. revert h s fs last hist next.
  induction ops as [|op ops IH]; intros h s fs last hist next Ha Ht Ho Hf; cbn [for_each length batch_records] in *.
  { wpc_step. exists last, h, next. rewrite app_nil_r, Nat.add_0_r. destruct Ht as (T1 & T2 & T3).
    rewrite Nat.mod_small by done. split; [unfold session_pages; lia|]. split; [|done].
    eapply indexed_at_weaken; [|exact Ha]. lia. }
  apply Forall_cons in Ho as [Hop Ho]. pose proof (index_at_height _ _ _ _ _ _ _ _ (proj2 Ha)) as (Hh & Hpos & _).
  pose proof (proj1 Ha) as [I1 _ _ _ I5 _ _ _].
  assert (Datatypes.S 0 <= session_cost h (Datatypes.S (length ops)) cap) as Hpc
    by (unfold session_cost, write_cost; lia).
  pose proof (session_cost_step h (h + 2) (length ops) cap ltac:(lia)) as Hstep.
  wpc_step. eapply wpc_mono; [apply (wpc_indexed_write dir h (session_cost (h + 2) (length ops) cap + n) cap s fs last hist next fuel op)| |done|done].
  { eapply indexed_at_weaken; [|exact Ha]. lia. }
  { done. }
  { unfold session_pages in Hf. nia. }
  intros [] s1 fs1 Hp. pose proof (log_holds_wf _ _ _ I1) as Hw.
  apply (write_post_tracked _ _ _ _ _ _ _ _ _ _ op 0 Hw Hop ltac:(lia) Ht) in Hp
    as (last1 & h1 & next1 & Hh1 & Hn1 & Ha1 & Hci & Ht1 & Hp1).
  destruct (next_of_write hist op 0 Hw Hop ltac:(lia)) as [_ Hnx].
  pose proof (session_pages_step h h1 next next1 (length ops) Hh1 ltac:(lia)) as Hpg.
  eapply wpc_mono; [apply (IH h1 s1 fs1 last1 (hist ++ [op_record (next_of hist) op]) next1)| |done|done]; [|done|done|lia|].
  { eapply indexed_at_weaken; [|exact Ha1]. unfold session_cost, write_cost, insert_cost in *. nia. }
  intros [] s2 fs2 (last2 & h2 & next2 & Hn2 & Ha2 & Hci2 & Ht2 & Hp2).
  rewrite Hnx, <-app_assoc in Ha2, Ht2. exists last2, h2, next2. split; [lia|]. split; [exact Ha2|].
  split; [congruence|]. split; [exact Ht2|]. rewrite Hp2, Hci, Hp1, Nat.Div0.add_mod_idemp_l. f_equal. lia.
Qed.
End session.
