(* ===== verification/IndexedTheorems.v ===== *)
(** * IndexedTheorems: the indexed store refines a map

    The contract of [IndexedStore]: reads, writes, checkpoints and [open] denote the map of the
    durability log's history, for records that are short enough for every split of the tree. *)
From S2P Require Export IndexedNew IndexedSession TreeTheorems.

Section indexed_theorems.
Context `{Crc32, DirOrder}.

Implicit Types (dir : path) (s : IndexedStore) (fs : fsys) (hist : list LogRecord).

(** C19: Reads of the indexed store: in an open store whose log holds [hist], [get] is lookup in the
    map that the history denotes and [scan] lists its entries under the prefix in key order, as
    [Store] does; the tombstones and the sentinel of the index never show, nothing fails or
    panics, and the store still denotes the same history. *)
Theorem indexed_reads_correct dir (n cap : nat) s fs (last : option Z) hist (next : PageId)
    (fuel : nat) (k prefix : bytes) :
  indexed_inv dir (tree_cost next + n) cap s fs last hist next -> Z.to_nat next <= fuel ->
  wpc no_faults (indexed_get fuel k) s fs
    (fun r s' fs' => r = kv_of hist !! k /\ indexed_inv dir n cap s' fs' last hist next)
    (fun _ _ _ => False) (fun _ => False) /\
  wpc no_faults (indexed_scan fuel prefix) s fs
    (fun r s' fs' => r = bt_iter (with_prefix prefix (kv_of hist)) /\
       indexed_inv dir n cap s' fs' last hist next)
    (fun _ _ _ => False) (fun _ => False).
Proof.
  intros Hi Hf. destruct (indexed_at_height _ _ _ _ _ _ _ _ Hi) as (h & _ & Ha). split.
  - eapply wpc_mono; [by apply (wpc_indexed_get dir h n cap s fs last hist next)| |done|done].
    by intros r s' fs' [-> [Hi' _]].
  - eapply wpc_mono; [by apply (wpc_indexed_scan dir h n cap s fs last hist next)| |done|done].
    by intros r s' fs' [-> [Hi' _]].
Qed.


(** C13: Opening brings the index up to date: from a directory whose log recovers [h1 ++ h2] while
    the pages of the index hold the tree of [h1], of which the sentinel [last] covers a part, [open]
    applies exactly the records that the sentinel does not cover, in order, and returns a store that
    denotes the whole history; applying again records that the tree already has changes nothing.
    Nothing is written to the index when the sentinel covers everything. In a place where nothing is
    yet, be it an empty directory or one that has to be created with its parents, [open] makes the
    log and the index and returns the store of the empty history. *)
Theorem open_reconciles dir (n cap interval : nat) fs (last : option Z) (h1 h2 : list LogRecord)
    (torn : bool) (next : PageId) (fuel : nat) :
  let k := length (unindexed last (h1 ++ h2)) in
  indexed_start dir (open_cost next k cap + n) fs last h1 h2 torn next -> 1 < cap ->
  Z.to_nat (open_pages next k) <= fuel ->
  wpc no_faults (open_with_options fuel dir cap interval) tt fs
    (fun s _ fs' => reconciled_records s = k /\ is_torn s = torn /\ pending_since_checkpoint s = 0 /\
       checkpoint_interval s = interval `max` 1 /\
       exists next', (0 < next' <= open_pages next k)%Z /\
         indexed_inv dir n cap s fs' (if decide (0 < k) then Some (next_of (h1 ++ h2)) else last) (h1 ++ h2) next')
    (fun _ _ _ => False) (fun _ => False).
Proof. apply wpc_open_start. Qed.

(** What a flushed index leaves to a restart, whatever is lost. *)
Lemma flushed_disk dir (n cap : nat) s fs hist (next : PageId) (cut : path -> nat) :
  indexed_inv dir n cap s fs (Some (next_of hist)) hist next ->
  index_flushed dir n (is_index s) fs (index_image (Some (next_of hist)) hist) next ->
  exists torn, indexed_disk dir n (crash_fs cut fs) (Some (next_of hist)) hist [] torn next.
Proof.
  intros [I1 I2 I3 I4 I5 I6 I7 I8] (m & Hv & Hm).
  pose proof (log_holds_wf _ _ _ I1) as Hw.
  destruct (log_recoverable_crash cut _ _ _ _ (log_holds_recoverable _ _ _ I1)) as [torn Hr].
  rewrite I2 in Hr. exists torn. split; rewrite ?app_nil_r; try done.
  - exists (active_id (is_log s)). split; [|done]. rewrite <-I2.
    by apply segments_upto_crash, log_holds_segments with (hist := hist).
  - exists m. split; [by eapply heap_disk_crash, heap_view_disk|by left].
  - cbn [default from_option]. pose proof (next_of_range hist). unfold in_u64. cbv [id]. lia.
Qed.

Lemma open_cost_mono (a b : PageId) (cap : nat) : (a <= b)%Z -> open_cost a 0 cap <= open_cost b 0 cap.
Proof. intros Hab. unfold open_cost, reconcile_cost, insert_cost. lia. Qed.

(** C12: A checkpoint bounds the recovery: when [checkpoint] (or [flush]) returns, the store denotes
    the same history, and after a crash at any later time, whatever part of the file cache is
    lost, [open] with a pool of any size from two frames has no record to apply and returns a store
    that denotes that history. *)
Theorem checkpoint_survives_crash dir (n cap cap' interval : nat) s fs (last : option Z) hist
    (next : PageId) (fuel fuel' : nat) :
  indexed_inv dir (checkpoint_cost next cap + (open_cost (2 * next + 2) 0 cap' + n)) cap s fs last hist next ->
  1 < cap' -> Z.to_nat next <= fuel -> Z.to_nat (6 * next + 12) <= fuel' ->
  wpc no_faults (checkpoint fuel) s fs
    (fun _ s' fs' => pending_since_checkpoint s' = 0 /\
       exists next', (next <= next' <= 2 * next + 2)%Z /\
       indexed_inv dir n cap s' fs' (Some (next_of hist)) hist next' /\
       forall cut, wpc no_faults (open_with_options fuel' dir cap' interval) tt (crash_fs cut fs')
         (fun s2 _ fs2 => reconciled_records s2 = 0 /\
            exists next2, indexed_inv dir n cap' s2 fs2 (Some (next_of hist)) hist next2)
         (fun _ _ _ => False) (fun _ => False))
    (fun _ _ _ => False) (fun _ => False).
Proof.
  intros Hi Hc' Hf Hf'. destruct (indexed_at_height _ _ _ _ _ _ _ _ Hi) as (h & Hh & Ha).
  set (c := open_cost (2 * next + 2) 0 cap' + n) in *.
  eapply wpc_mono; [apply (wpc_checkpoint dir h c cap s fs last hist next fuel); [|done]| |done|done].
  { eapply indexed_at_weaken; [|exact Ha]. unfold insert_cost, checkpoint_cost. lia. }
  intros [] s' fs' (h' & next' & _ & Hn & Ha' & Hfl & Hp & _). split; [done|]. exists next'. split; [lia|].
  split; [eapply (indexed_at_weaken _ _ _ n), Ha'; unfold c; lia|]. destruct Ha' as [Hi' _].
  intros cut. destruct (flushed_disk _ _ _ _ _ _ _ cut Hi' Hfl) as [torn Hd].
  pose proof (unindexed_all hist (log_holds_wf _ _ _ (ix_log _ _ _ _ _ _ _ _ Hi))) as Hun.
  eapply wpc_mono; [apply (wpc_open_with_options dir n cap' interval _ (Some (next_of hist)) hist [] torn next' fuel')| |done|done];
    rewrite ?app_nil_r, ?Hun; cbn [length]; [|done| |].
  - pose proof (open_cost_mono next' (2 * next + 2) cap' ltac:(lia)) as Hm.
    revert Hd. apply indexed_disk_weaken. unfold c. lia.
  - unfold open_pages, reconcile_pages. lia.
  - intros s2 [] fs2 (Hr & _ & _ & _ & next2 & _ & Hi2). split; [done|]. by exists next2.
Qed.
End indexed_theorems.

(** ** A concrete store *)

Section indexed_witnesses.
#[local] Existing Instances sum_crc32 map_order.

(** The directory after the first start: everything empty. *)
Lemma example_indexed_disk (n : nat) :
  (Z.of_nat n < 2 ^ 32)%Z -> indexed_disk example_dir n example_store_fs None [] [] false 1.
Proof.
  intros Hn. pose proof example_store_fs_logs as [Hl _]. assert (wf_hist []) as Hw by by_compute.
  pose proof (log_disk_recoverable _ _ [] 0 [] Hl Hw) as Hr.
  pose proof (opened_holds _ _ DEFAULT_SEGMENT_MAX_BYTES [] 0 [] false Hl Hw) as Ho.
  split; try done.
  - exists 0%Z. split; [exact (log_holds_segments _ _ _ Ho)|lia].
  - exists ∅. split; [by eapply heap_view_disk, example_heap_view|]. right. by rewrite lookup_empty.
  - constructor.
  - change (next_of []  + Z.of_nat n < 2 ^ 64)%Z. rewrite next_of_nil. lia.
Qed.

(** The store opened there with four frames and a checkpoint at every third write, and the store
    after one [put]. *)
Definition example_indexed : IndexedStore * fsys :=
  match open_with_options 8 example_dir 4 3 tt (mkWorld example_store_fs []) with
  | (Ok s, _, w) => (s, w_fs w)
  | _ => (mkIndexed example_log (mkPool example_heap 4 [] ∅ 0) 0 false 1 0, empty_fs)
  end.

Definition example_write : IndexedStore * fsys :=
  let r := indexed_write 11 (OpPut [x61] [x62]) example_indexed.1 (mkWorld example_indexed.2 []) in
  (r.1.2, w_fs r.2).

(** The backend counts the pages itself. *)
Lemma indexed_inv_next dir (n cap : nat) (s : IndexedStore) fs (last : option Z)
    (hist : list LogRecord) (next : PageId) :
  indexed_inv dir n cap s fs last hist next -> next = next_page_id (pool_store (is_index s)).
Proof.
  intros [_ _ _ (h & N & t & chain & [(m & Hi & _) _ _ _ _] & _) _ _ _ _].
  destruct (pi_view _ _ _ _ _ _ _ Hi) as [Hv _]. symmetry. apply (hv_next _ _ _ _ _ _ Hv).
Qed.

Lemma example_indexed_inv (n : nat) :
  (Z.of_nat n < 2 ^ 31)%Z -> indexed_inv example_dir n 4 example_indexed.1 example_indexed.2 None [] 2.
Proof.
  intros Hn. assert (indexed_disk example_dir (open_cost 1 0 4 + n) example_store_fs None [] [] false 1) as Hd.
  { apply example_indexed_disk. assert (open_cost 1 0 4 <= 100) by (vm_compute; lia). lia. }
  pose proof (wpc_open_with_options example_dir n 4 3 _ None [] [] false 1 8 Hd ltac:(lia) ltac:(vm_compute; lia)) as Hw.
  apply wpc_run in Hw as (s & [] & w & Hr & _ & _ & _ & _ & next & _ & Hs).
  pose proof (indexed_inv_next _ _ _ _ _ _ _ _ Hs) as Hnext.
  assert (next_page_id (pool_store (is_index example_indexed.1)) = 2%Z) as Hc by by vm_compute.
  unfold example_indexed in *. rewrite Hr in *. cbn [fst snd] in *. rewrite Hnext, Hc in Hs. exact Hs.
Qed.

Lemma example_write_inv (n : nat) :
  (Z.of_nat n < 2 ^ 30)%Z ->
  indexed_inv example_dir n 4 example_write.1 example_write.2 None [example_record] 2.
Proof.
  intros Hn. destruct (indexed_at_height example_dir (write_cost 2 4 + n) 4 example_indexed.1 example_indexed.2 None [] 2)
    as (h & Hh & Ha); [apply example_indexed_inv; unfold write_cost; simpl; lia|].
  pose proof (wpc_indexed_write example_dir h n 4 _ _ None [] 2 11 (OpPut [x61] [x62])
    ltac:(eapply indexed_at_weaken; [|exact Ha]; unfold write_cost, insert_cost; lia)
    ltac:(unfold short_op, MAX_ENTRY; simpl; lia) ltac:(lia)) as Hw.
  apply wpc_run in Hw as ([] & s & w & Hr & last & h' & next & _ & _ & [Hs _] & _ & Hcase).
  pose proof (indexed_inv_next _ _ _ _ _ _ _ _ Hs) as Hnext.
  assert (next_page_id (pool_store (is_index example_write.1)) = 2%Z) as Hc by by vm_compute.
  assert (pending_since_checkpoint example_write.1 = 1) as Hp by by vm_compute.
  unfold example_write in *. rewrite Hr in *. cbn [fst snd] in *. rewrite Hnext, Hc in Hs.
  destruct Hcase as [(-> & _)|(_ & Hp0 & _)]; [exact Hs|congruence].
Qed.

Lemma indexed_reads_correct_witness :
  let s := example_write.1 in let hist := [example_record] in
  wpc no_faults (indexed_get 2 [x61]) s example_write.2
    (fun r s' fs' => r = kv_of hist !! [x61] /\ indexed_inv example_dir 5 4 s' fs' None hist 2)
    (fun _ _ _ => False) (fun _ => False) /\
  wpc no_faults (indexed_scan 2 [x61]) s example_write.2
    (fun r s' fs' => r = bt_iter (with_prefix [x61] (kv_of hist)) /\
       indexed_inv example_dir 5 4 s' fs' None hist 2)
    (fun _ _ _ => False) (fun _ => False).
Proof. intros s hist. apply indexed_reads_correct; [by apply example_write_inv|done]. Defined.

(** Five writes at an interval of three, one write being pending: a checkpoint after the second and
    one after the fifth. *)
Definition example_writes : list LogOp :=
  [OpDelete [x61]; OpPut [x63] [x64]; OpPut [x61] []; OpDelete [x65]; OpPut [x63] [x66]].


Lemma checkpoint_survives_crash_witness :
  wpc no_faults (checkpoint 2) example_write.1 example_write.2
    (fun _ s' fs' => pending_since_checkpoint s' = 0 /\
       exists next', (2 <= next' <= 2 * 2 + 2)%Z /\
       indexed_inv example_dir 5 4 s' fs' (Some (next_of [example_record])) [example_record] next' /\
       forall cut, wpc no_faults (open_with_options 24 example_dir 2 9) tt (crash_fs cut fs')
         (fun s2 _ fs2 => reconciled_records s2 = 0 /\
            exists next2, indexed_inv example_dir 5 2 s2 fs2 (Some (next_of [example_record])) [example_record] next2)
         (fun _ _ _ => False) (fun _ => False))
    (fun _ _ _ => False) (fun _ => False).
Proof. apply (checkpoint_survives_crash example_dir 5 4 2 9 _ _ None); [by apply example_write_inv|lia|done|vm_compute; lia]. Defined.

(** A crash behind a write that no checkpoint covers: the log is ahead of the index. *)
Definition example_behind : fsys :=
  put_file (segment_path example_log_dir 0) (sfile [example_record])
    (put_file (heap_path example_index) (mkFile [] 0)
      (put_file (segment_path (loc_dir example_index) 0) (sfile []) example_dirs)).

Lemma example_behind_disk (n : nat) :
  (Z.of_nat n < 2 ^ 32)%Z -> indexed_disk example_dir n example_behind None [] [example_record] false 1.
Proof.
  intros Hn. assert (log_disk example_behind example_log_dir [] 0 (sfile [example_record])) as Hl.
  { apply disk_log_put_new; [|by_compute]. do 2 (eapply disk_log_agrees; [apply log_agrees_put; by intros [=]|]).
    apply example_dirs_log. by left. }
  pose proof (log_disk_recoverable _ _ [] 0 _ Hl example_wf) as Hr.
  pose proof (opened_holds _ _ DEFAULT_SEGMENT_MAX_BYTES [] 0 _ false Hl example_wf) as Ho.
  split; try done.
  - exists 0%Z. split; [exact (log_holds_segments _ _ _ Ho)|lia].
  - exists ∅. split; [|right; by rewrite lookup_empty].
    eapply (heap_disk_below example_log_dir); [apply log_index_apart| |by eapply heap_view_disk, (example_heap_view n)].
    intros q Hq. transitivity (put_file (heap_path example_index) (mkFile [] 0)
      (put_file (segment_path (loc_dir example_index) 0) (sfile []) example_dirs) !! q);
      [|symmetry]; apply put_file_dir_ne; by intros <-.
  - repeat constructor.
  - by repeat constructor.
  - repeat constructor.
  - change (next_of [example_record] + Z.of_nat n < 2 ^ 64)%Z. assert (next_of [example_record] = 1%Z) as -> by by vm_compute. lia.
Qed.

Lemma open_reconciles_witness :
  wpc no_faults (open_with_options 64 example_dir 4 3) tt example_behind
    (fun s _ fs' => reconciled_records s = 1 /\ is_torn s = false /\ pending_since_checkpoint s = 0 /\
       checkpoint_interval s = 3 `max` 1 /\
       exists next', (0 < next' <= open_pages 1 1)%Z /\
         indexed_inv example_dir 5 4 s fs' (Some (next_of [example_record])) [example_record] next')
    (fun _ _ _ => False) (fun _ => False) /\
  wpc no_faults (open_with_options 64 example_dir 4 3) tt empty_fs
    (fun s _ fs' => reconciled_records s = 0 /\ is_torn s = false /\ pending_since_checkpoint s = 0 /\
       checkpoint_interval s = 3 `max` 1 /\
       exists next', (0 < next' <= open_pages 1 0)%Z /\ indexed_inv example_dir 5 4 s fs' None [] next')
    (fun _ _ _ => False) (fun _ => False).
Proof.
  split.
  - apply (open_reconciles example_dir 5 4 3 _ None [] [example_record] false 1 64);
      [left; by apply example_behind_disk|lia|vm_compute; lia].
  - apply (open_reconciles example_dir 5 4 3 _ None [] [] false 1 64); [right|lia|vm_compute; lia].
    split; [|by vm_compute]. apply absent_new_place; [|by eexists]. intros q Hq. apply lookup_singleton_ne. intros <-. by apply suffix_nil_inv in Hq.
Defined.
End indexed_witnesses.
