(* ===== verification/IndexedSafety.v ===== *)
(** * IndexedSafety: what the failures of the index cannot do

    The durability log of an [IndexedStore] against every fault: whatever errors, panics and crashes
    the tree, the pool and the heap file meet, they happen below the directory of the index, and the
    log keeps every record it has taken. *)
From S2P Require Export IndexedTheorems.

(** ** The log of a store *)

Section durable.
Context `{Crc32, DirOrder}.

Implicit Types (dir : path) (s : IndexedStore) (fs : fsys) (hist : list LogRecord).

(** The log holds [hist] with room for [n] more records; of the index, nothing but its place. *)
Record log_safe dir (n : nat) s fs hist : Prop := {
  ls_log : log_holds (is_log s) fs hist;
  ls_dir : log_dir (is_log s) = log_path dir;
  ls_index : pool_in (heap_inside (index_path dir)) (is_index s);
  ls_seq : (next_of hist + Z.of_nat n < 2 ^ 64)%Z;
  ls_active : (active_id (is_log s) + Z.of_nat n < 2 ^ 64)%Z;
}.

(** After a restart, whatever part of the file cache is lost, the log recovers [hist]. *)
Definition log_survives dir fs hist : Prop :=
  forall cut, exists torn, log_recoverable (crash_fs cut fs) (log_path dir) hist torn.

Lemma log_safe_survives dir (n : nat) s fs hist : log_safe dir n s fs hist -> log_survives dir fs hist.
Proof.
  intros [L1 L2 _ _ _] cut. rewrite <-L2. eapply log_recoverable_crash. by apply log_holds_recoverable.
Qed.

Lemma log_safe_spared dir (n n' : nat) s s' fs fs' hist :
  n' <= n -> log_safe dir n s fs hist -> spared (index_path dir) (is_log s) s' -> below (index_path dir) fs fs' ->
  log_safe dir n' s' fs' hist.
Proof.
  intros Hn [L1 L2 L3 L4 L5] [Hl Hi] Hb. split; rewrite <-?Hl; try done; [|lia..]. by eapply log_holds_index.
Qed.

Lemma log_holds_inside (l : Log) fs hist : log_holds l fs hist -> log_inside (log_dir l) l.
Proof.
  intros (ss & rs & Hi). split; [done|]. unfold seg_inside, inside. rewrite (li_active _ _ _ _ _ Hi).
  by eexists _, _.
Qed.

Lemma file_inside_child (n : bytes) (d p : path) : file_inside (n :: d) p -> file_inside d p.
Proof. intros (x & q & -> & Hq). exists x, q. split; [done|]. etrans; [|exact Hq]. by apply suffix_cons_r. Qed.

(** An open store whose index is intact, too. *)
Lemma indexed_log_safe dir (n cap : nat) s fs (last : option Z) hist (next : PageId) :
  indexed_inv dir n cap s fs last hist next -> log_safe dir n s fs hist.
Proof.
  intros [I1 I2 _ (h & N & t & chain & [(m & Hi & _) _ _ _ _] & _) I5 I6 _ _]. split; try done.
  destruct (pi_view _ _ _ _ _ _ _ Hi) as [[_ Hp _ (lh & mx & Hl & _) Hd _ _ _ _ _] _]. split.
  - unfold inside. rewrite Hp. by eexists _, _.
  - apply log_holds_inside in Hl as [_ Hs]. rewrite Hd in Hs. split; [|by apply file_inside_child in Hs].
    rewrite Hd. by apply suffix_cons_r.
Qed.

(** *** One write *)

Lemma spared_advance dir fs0 (l : Log) (fuel : nat) (r : LogRecord) :
  keeps (spared (index_path dir) l) (below (index_path dir) fs0) any (apply_and_advance fuel r).
Proof.
  apply keeps_apply_and_advance; [apply keeps_hps_read_in|apply keeps_hps_write_in|apply keeps_hps_allocate_in].
Qed.

Lemma spared_request dir fs0 (l : Log) (fuel : nat) (q : Request) :
  written [q] = [] ->
  keeps (spared (index_path dir) l) (below (index_path dir) fs0) any (request fuel q).
Proof.
  apply keeps_request; [apply keeps_hps_read_in|apply keeps_hps_write_in|apply keeps_hps_allocate_in].
Qed.

Lemma log_safe_append dir (n : nat) s fs hist (op : LogOp) :
  log_safe dir (Datatypes.S n) s fs hist -> wf_op op ->
  let record := op_record (next_of hist) op in
  let lost fs' := forall cut, exists k torn,
    log_recoverable (crash_fs cut fs') (log_path dir) (hist ++ take k [record]) torn in
  wpc any_fault (match op with OpPut k v => append_put k v | OpDelete k => append_delete k end) (is_log s) fs
    (fun r l' fs' => r = record /\ log_safe dir n (set_is_log l' s) fs' (hist ++ [record]))
    (fun _ _ fs' => lost fs') lost.
Proof.
  intros [L1 L2 L3 L4 L5] Hop record lost.
  destruct (next_of_batch hist [op]) as [Hwf Hnext]; [by eapply log_holds_wf|by constructor|cbn [length]; lia|].
  cbn [batch_records length] in *. fold record in Hwf, Hnext.
  assert (forall fs', log_pending fs' (log_dir (is_log s)) hist [record] -> lost fs') as Hlost.
  { intros fs' Hp cut. rewrite <-L2. apply log_pending_crash; [done|]. by apply wf_hist_app in Hwf as [_ ?]. }
  eapply wpc_mono; [apply (wpc_append_op (F := any_fault) op (is_log s) fs hist L1); [lia|done|lia]| | |].
  - intros r l' fs' (-> & R1 & R2 & R3 & _). split; [done|]. split; cbn [set_is_log is_log is_index]; try done.
    + by rewrite R2.
    + fold record. rewrite Hnext. lia.
    + lia.
  - intros e l' fs' [_ [Hp _]]. by apply Hlost.
  - intros fs' [_ [Hp _]]. by apply Hlost.
Qed.

(** After a write the record is in the log, or the log itself has failed; then the record may be
    there or not. *)
Lemma write_spares_log dir (n : nat) s fs hist (op : LogOp) (fuel : nat) (faults : list Fault) r s' w' :
  log_safe dir (Datatypes.S n) s fs hist -> wf_op op ->
  indexed_write fuel op s (mkWorld fs faults) = (r, s', w') ->
  let hist' := hist ++ [op_record (next_of hist) op] in
  log_safe dir n s' (w_fs w') hist' \/
  ((r = Crash \/ exists e, r = Err (IsLog e)) /\
    forall cut, exists k torn, log_recoverable (crash_fs cut (w_fs w')) (log_path dir)
      (hist ++ take k [op_record (next_of hist) op]) torn).
Proof.
  intros Hs Hop Hr hist'.
  pose proof (log_safe_append dir n s fs hist op Hs Hop faults ltac:(apply Forall_forall; by intros [] _)) as Ha.
  assert (indexed_write fuel op = (record ← zoom is_log set_is_log (map_err IsLog
    match op with OpPut k v => append_put k v | OpDelete k => append_delete k end); apply_and_advance fuel record)) as Hw
    by by destruct op.
  rewrite Hw in Hr. unfold mbind, M_bind, zoom, map_err in Hr.
  destruct (match op with OpPut k v => append_put k v | OpDelete k => append_delete k end (is_log s) (mkWorld fs faults))
    as [[[a|e| |] l'] [fs1 faults1]] eqn:E; destruct Ha as [_ Ha].
  - destruct Ha as [-> Ha]. left. cbn [w_fs] in Ha.
    destruct (spared_advance dir fs1 l' fuel (op_record (next_of hist) op) (set_is_log l' s) (mkWorld fs1 faults1)) as (K1 & K2 & _); [split; [done|apply Hs]|done|].
    rewrite Hr in K1, K2. by eapply log_safe_spared.
  - right. simplify_eq. split; [right; by eexists|exact Ha].
  - done.
  - right. simplify_eq. split; [by left|exact Ha].
Qed.

(** *** Sessions *)

Lemma for_each_stop {St Er A : Type} (f : A -> M St Er unit) (l : list A) (st st' : St) (w w' : World) (r : Res Er unit) :
  for_each f l st w = (r, st', w') ->
  r = Ok tt \/ exists pre x post st1 w1, l = pre ++ x :: post /\ for_each f pre st w = (Ok tt, st1, w1) /\
    f x st1 w1 = (r, st', w') /\ r <> Ok tt.
Proof.
  revert st w. induction l as [|x l IH]; intros st w Hr; [injection Hr as <- _ _; by left|].
  cbn [for_each] in Hr. unfold mbind, M_bind in Hr. destruct (f x st w) as [[r1 st1] w1] eqn:E.
  destruct r1 as [[]|e| |]; [|right; exists [], x, l, st, w; by simplify_eq..].
  destruct (IH st1 w1 Hr) as [->|(pre & y & post & st2 & w2 & -> & H1 & H2 & Hne)]; [by left|]. right.
  exists (x :: pre), y, post, st2, w2. split; [done|]. split; [|done]. cbn [for_each]. unfold mbind, M_bind. by rewrite E.
Qed.

Lemma batch_records_app (sq : Z) (ops1 ops2 : list LogOp) :
  batch_records sq (ops1 ++ ops2) = batch_records sq ops1 ++ batch_records (sq + Z.of_nat (length ops1)) ops2.
Proof.
  revert sq. induction ops1 as [|op ops1 IH]; intros sq; simpl; [by rewrite Z.add_0_r|].
  rewrite IH. by replace (sq + Z.of_nat (Datatypes.S (length ops1)))%Z with (sq + 1 + Z.of_nat (length ops1))%Z by lia.
Qed.

Lemma written_app (qs1 qs2 : list Request) : written (qs1 ++ qs2) = written qs1 ++ written qs2.
Proof. apply omap_app. Qed.

Lemma length_written (qs : list Request) : length (written qs) <= length qs.
Proof.
  induction qs as [|q qs IH]; [done|]. change (q :: qs) with ([q] ++ qs). rewrite written_app, !length_app. cbn [length].
  assert (length (written [q]) <= 1) by (destruct q; cbn; lia). lia.
Qed.

Lemma next_of_logged hist (qs : list Request) :
  wf_hist hist -> Forall wf_op (written qs) -> (next_of hist + Z.of_nat (length qs) < 2 ^ 64)%Z ->
  wf_hist (logged hist qs) /\ next_of (logged hist qs) = (next_of hist + Z.of_nat (length (written qs)))%Z.
Proof. intros Hw Ho Hn. apply next_of_batch; [done|done|]. pose proof (length_written qs). lia. Qed.

Lemma logged_app hist (qs1 qs2 : list Request) :
  wf_hist hist -> Forall wf_op (written (qs1 ++ qs2)) ->
  (next_of hist + Z.of_nat (length (qs1 ++ qs2)) < 2 ^ 64)%Z ->
  logged hist (qs1 ++ qs2) = logged (logged hist qs1) qs2.
Proof.
  intros Hw Ho Hn. rewrite written_app in Ho. apply Forall_app in Ho as [Ho1 Ho2]. rewrite length_app in Hn.
  destruct (next_of_logged hist qs1 Hw Ho1) as [_ Hb]; [lia|]. unfold logged in *.
  by rewrite Hb, written_app, batch_records_app, app_assoc.
Qed.

(** What a request leaves of the log: all of it with the request's record; or, if the log itself
    failed, with or without it. *)
Lemma serve_spares_log dir (n : nat) s fs hist (q : Request) (fuel : nat) (faults : list Fault) r s' w' :
  log_safe dir (Datatypes.S n) s fs hist -> Forall wf_op (written [q]) ->
  serve fuel q s (mkWorld fs faults) = (r, s', w') ->
  log_safe dir n s' (w_fs w') (logged hist [q]) \/
  (r <> Ok tt /\ forall cut, exists torn h, (h = hist \/ h = logged hist [q]) /\
    log_recoverable (crash_fs cut (w_fs w')) (log_path dir) h torn).
Proof.
  intros Hs Ho Hr. unfold serve, catch in Hr.
  destruct (request fuel q s (mkWorld fs faults)) as [[r0 s0] w0] eqn:E.
  assert (s0 = s' /\ w0 = w' /\ (forall e, r0 = Err (IsLog e) -> r <> Ok tt) /\ (r0 = Crash -> r <> Ok tt))
    as (-> & -> & He & Hc) by (destruct r0 as [|[]| |]; injection Hr as <- <- <-; by split_and!).
  destruct (decide (written [q] = [])) as [Hq|Hq].
  - left. unfold logged. rewrite Hq, app_nil_r.
    destruct (spared_request dir fs (is_log s) fuel q Hq s (mkWorld fs faults)) as (K1 & K2 & _);
      [by split; [|apply Hs]|done|].
    rewrite E in K1, K2. eapply log_safe_spared; [|exact Hs|exact K1|exact K2]. lia.
  - destruct q as [op| | |]; try by destruct Hq. apply Forall_inv in Ho.
    destruct (write_spares_log dir n s fs hist op fuel faults _ _ _ Hs Ho E) as [Hw|[Hf Hw]]; [by left|]. right.
    split; [destruct Hf as [Hf|[e Hf]]; eauto|]. intros cut.
    destruct (Hw cut) as ([|k] & torn & Hk); exists torn; eexists; (split; [|exact Hk]); [left|right]; cbn [take];
      by rewrite ?app_nil_r, ?take_nil.
Qed.

Lemma log_safe_weaken dir (n n' : nat) s fs hist :
  n' <= n -> log_safe dir n s fs hist -> log_safe dir n' s fs hist.
Proof. intros Hn [L1 L2 L3 L4 L5]. split; try done; lia. Qed.

(** A session that ends has logged all its writes. *)
Lemma session_logged dir (n : nat) s fs hist (fuel : nat) (qs : list Request) (faults : list Fault) s' w' :
  log_safe dir (length qs + n) s fs hist -> Forall wf_op (written qs) ->
  for_each (serve fuel) qs s (mkWorld fs faults) = (Ok tt, s', w') ->
  log_safe dir n s' (w_fs w') (logged hist qs).
Proof.
  revert s fs hist faults. induction qs as [|q qs IH]; intros s fs hist faults Hs Ho Hr.
  { injection Hr as <- <-. unfold logged. cbn [written omap list_omap batch_records]. by rewrite app_nil_r. }
  pose proof (log_holds_wf _ _ _ (ls_log _ _ _ _ _ Hs)) as Hw. pose proof (ls_seq _ _ _ _ _ Hs) as Hseq.
  pose proof Ho as Ho'. change (q :: qs) with ([q] ++ qs) in Ho'. rewrite written_app in Ho'.
  apply Forall_app in Ho' as [Ho1 Ho2]. cbn [for_each length] in Hr, Hseq. unfold mbind, M_bind in Hr.
  destruct (serve fuel q s (mkWorld fs faults)) as [[[[]|e| |] s1] [fs1 faults1]] eqn:E; try done.
  destruct (serve_spares_log dir (length qs + n) s fs hist q fuel faults _ _ _ Hs Ho1 E) as [Hs1|[Hne _]]; [|done].
  change (q :: qs) with ([q] ++ qs). rewrite logged_app; [|done|done|cbn [length app]; lia].
  by eapply IH.
Qed.

(** C14: The log of the indexed store outlives its index: whatever requests a client makes that goes on
    after failures of the index, and whatever faults the file system injects, so that reads, writes,
    page flushes and checkpoints may return errors, panic or crash at any of their operations, the
    log takes the record of every write of the session in order. Either the session ends and the
    log holds them all; or it stops in a request [q], and after a restart, whatever part of the
    file cache is lost, the log recovers the records of all requests before [q], with or without
    the record of [q]. *)
Theorem index_failures_spare_log dir (n : nat) s fs hist (fuel : nat) (qs : list Request)
    (faults : list Fault) r s' w' :
  log_safe dir (length qs + n) s fs hist -> Forall wf_op (written qs) ->
  for_each (serve fuel) qs s (mkWorld fs faults) = (r, s', w') ->
  (r = Ok tt /\ log_safe dir n s' (w_fs w') (logged hist qs) /\ log_survives dir (w_fs w') (logged hist qs)) \/
  (exists pre q post s1 w1, qs = pre ++ q :: post /\
     for_each (serve fuel) pre s (mkWorld fs faults) = (Ok tt, s1, w1) /\
     serve fuel q s1 w1 = (r, s', w') /\ r <> Ok tt /\
     forall cut, exists torn h, (h = logged hist pre \/ h = logged hist (pre ++ [q])) /\
       log_recoverable (crash_fs cut (w_fs w')) (log_path dir) h torn).
Proof.
  intros Hs Ho Hr. destruct (for_each_stop _ _ _ _ _ _ _ Hr) as [->|(pre & q & post & s1 & [fs1 faults1] & -> & H1 & H2 & Hne)].
  - left. pose proof (session_logged dir n s fs hist fuel qs faults _ _ Hs Ho Hr) as Hs'.
    split; [done|]. split; [exact Hs'|by eapply log_safe_survives].
  - right. exists pre, q, post, s1, (mkWorld fs1 faults1). do 4 (split; [done|]).
    rewrite cons_middle, app_assoc, written_app in Ho. apply Forall_app in Ho as [Ho _].
    pose proof Ho as Ho'. rewrite written_app in Ho'. apply Forall_app in Ho' as [Ho1 Ho2].
    rewrite length_app in Hs. cbn [length] in Hs.
    assert (log_safe dir (length pre + Datatypes.S (length post + n)) s fs hist) as Hs0
      by (eapply log_safe_weaken; [|exact Hs]; lia).
    pose proof (session_logged dir _ s fs hist fuel pre faults _ _ Hs0 Ho1 H1) as Hs1.
    rewrite (logged_app hist pre [q]); [|by eapply log_holds_wf, Hs|done|].
    2: { pose proof (ls_seq _ _ _ _ _ Hs). rewrite length_app. cbn [length]. lia. }
    destruct (serve_spares_log dir _ s1 fs1 _ q fuel faults1 _ _ _ Hs1 Ho2 H2) as [Hs2|[_ Hd]]; [|exact Hd].
    intros cut. destruct (log_safe_survives _ _ _ _ _ Hs2 cut) as [torn Ht]. exists torn. eexists. by split; [right|].
Qed.

(** *** Opening *)

Lemma log_holds_parents (l : Log) dir fs hist :
  log_dir l = log_path dir -> log_holds l fs hist -> dir_ok fs dir.
Proof.
  intros Hd (ss & rs & Hi). pose proof (dl_ok _ _ _ (ld_disk _ _ _ _ _ (li_disk _ _ _ _ _ Hi))) as Hok.
  intros q Hq. apply Hok. rewrite Hd. by apply suffix_cons_r.
Qed.

(** C16: No start of the indexed store harms the log: [open] on a directory whose log recovers [hist],
    whatever the directory of the index holds, and whether it returns, fails, panics or is
    interrupted by a crash, leaves a directory whose log recovers [hist] after any further loss of
    cached data; and a store that it returns holds [hist], ready for a session. *)
Theorem open_spares_log dir (n : nat) fs hist (torn : bool) (fuel cap interval : nat) (faults : list Fault) r w' :
  log_recoverable fs (log_path dir) hist torn ->
  (exists b, segments_upto fs (log_path dir) b /\ (b + Z.of_nat n < 2 ^ 64)%Z) ->
  (next_of hist + Z.of_nat n < 2 ^ 64)%Z -> Forall (fault_ok crashes_only) faults ->
  open_with_options fuel dir cap interval tt (mkWorld fs faults) = (r, tt, w') ->
  log_survives dir (w_fs w') hist /\
  forall s, r = Ok s -> log_safe dir n s (w_fs w') hist.
Proof.
  intros Hl (b & Hb & Hbn) Hn Hf Hr.
  pose proof (wpc_open_recoverable_id (F := crashes_only) fs (log_path dir) DEFAULT_SEGMENT_MAX_BYTES hist torn
    ltac:(by intros []) Hl faults Hf) as Ho.
  unfold open_with_options in Hr. unfold mbind at 1, M_bind at 1, map_err at 1, log_open in Hr.
  unfold log_path in Ho. destruct (open_with_segment_size _ _ _ _) as [[[[log rep]|e| |] []] [fs1 faults1]];
    destruct Ho as [_ Ho]; cbn [fst snd w_fs] in Ho; [|done..|].
  - destruct Ho as (H1 & H2 & _ & _ & _ & H3). fold (log_path dir) in H2, H3.
    destruct (keeps_open_rest (ascii "index") dir fs1 dir fuel log rep cap interval (log_holds_parents _ _ _ _ H2 H1)
      ltac:(done) tt (mkWorld fs1 faults1)) as (_ & K2 & K3); [done|done|].
    unfold index_path in K2, K3. rewrite Hr in K2, K3. cbn [fst snd] in K2, K3.
    pose proof (log_holds_index _ _ _ _ _ H2 K2 H1) as H1'. split.
    { intros cut. rewrite <-H2. eapply log_recoverable_crash. by apply log_holds_recoverable. }
    intros s Hs. destruct (K3 s Hs) as [Hsl Hi]. split; rewrite <-?Hsl; try done.
    pose proof H1 as (ss & rs & Hli). pose proof (log_disk_id_u64 _ _ _ _ _ (li_disk _ _ _ _ _ Hli)) as Hu.
    specialize (Hb _ Hu H3). lia.
  - destruct Ho as (_ & [torn' Ht] & _). injection Hr as <- <-. split; [|done]. cbn [w_fs].
    intros cut. by eapply log_recoverable_crash.
Qed.
End durable.

(** ** A session over a failing disk *)

Section safety_witnesses.
#[local] Existing Instances sum_crc32 map_order.

(** A write, a failing flush of the index, another write and a read. *)
Definition example_session : list Request :=
  [RWrite (OpPut [x63] [x64]); RFlush; RWrite (OpDelete [x61]); RGet [x61]].

Definition example_disk_errors : list Fault := [FNone; FNone; FErr 0].

Definition example_run : Res IndexedStoreError unit * IndexedStore * World :=
  for_each (serve 11) example_session example_write.1 (mkWorld example_write.2 example_disk_errors).

Lemma example_write_safe (n : nat) :
  (Z.of_nat n < 2 ^ 30)%Z -> log_safe example_dir n example_write.1 example_write.2 [example_record].
Proof. intros Hn. by eapply indexed_log_safe, example_write_inv. Qed.

Lemma index_failures_spare_log_witness :
  (serve 11 RFlush example_write.1 (mkWorld example_write.2 [FErr 0])).1.1 = Ok tt /\
  ((example_run.1.1 = Ok tt /\
    log_safe example_dir 5 example_run.1.2 (w_fs example_run.2) (logged [example_record] example_session) /\
    log_survives example_dir (w_fs example_run.2) (logged [example_record] example_session)) \/
   (exists pre q post s1 w1, example_session = pre ++ q :: post /\
     for_each (serve 11) pre example_write.1 (mkWorld example_write.2 example_disk_errors) = (Ok tt, s1, w1) /\
     serve 11 q s1 w1 = (example_run.1.1, example_run.1.2, example_run.2) /\ example_run.1.1 <> Ok tt /\
     forall cut, exists torn h,
       (h = logged [example_record] pre \/ h = logged [example_record] (pre ++ [q])) /\
       log_recoverable (crash_fs cut (w_fs example_run.2)) (log_path example_dir) h torn)).
Proof.
  split; [by vm_compute|].
  apply (index_failures_spare_log example_dir 5 example_write.1 example_write.2 [example_record] 11
    example_session example_disk_errors); [by apply example_write_safe|by compute_done|by rewrite <-!surjective_pairing].
Defined.

Lemma open_spares_log_witness :
  let run := open_with_options 8 example_dir 4 3 tt (mkWorld example_store_fs [FNone; FNone; FNone; FCrash 0]) in
  run.1.1 = Crash /\ log_survives example_dir (w_fs run.2) [] /\
  forall s, run.1.1 = Ok s -> log_safe example_dir 5 s (w_fs run.2) [].
Proof.
  intros run. split; [by vm_compute|]. pose proof (example_indexed_disk 5 ltac:(done)) as [Hl Hb _ _ _ _ _ Hn].
  apply (open_spares_log example_dir 5 example_store_fs [] false 8 4 3 [FNone; FNone; FNone; FCrash 0]);
    [exact Hl|exact Hb|exact Hn|by repeat constructor|]. fold run. by destruct run as [[r []] w].
Defined.
End safety_witnesses.
