(* ===== verification/Oversized.v ===== *)
(** * Oversized: entries that fit no page

    The index takes an entry only if it fits a page; the log in front of it takes every record. A
    record that the index refuses, from whatever state of the tree and under whatever faults, is
    refused again by the reconciliation of every [open] that meets it. *)
From S2P Require Export IndexedSafety.

(** ** Computations that do not succeed *)

(** [m] returns no result, from any state, file system and faults. *)
Definition never_ok {S E A : Type} (m : M S E A) : Prop :=
  forall s w a s' w', m s w <> (Ok a, s', w').

(** [m] returns no result from the state [s] and the file system [fs], under the faults [F]. *)
Definition not_ok (F : FaultModel) {S E A : Type} (m : M S E A) (s : S) (fs : fsys) : Prop :=
  forall faults a s' w', Forall (fault_ok F) faults -> m s (mkWorld fs faults) <> (Ok a, s', w').

Section never_ok.
Context {S E A B : Type}.

Lemma never_ok_bind_l (m : M S E A) (f : A -> M S E B) : never_ok m -> never_ok (m ≫= f).
Proof.
  intros Hm s w b s' w'. unfold mbind, M_bind. specialize (Hm s w).
  destruct (m s w) as [[[a|e| |] s1] w1]; try done. by destruct (Hm a s1 w1).
Qed.

Lemma never_ok_bind_r (m : M S E A) (f : A -> M S E B) : (forall a, never_ok (f a)) -> never_ok (m ≫= f).
Proof.
  intros Hf s w b s' w'. unfold mbind, M_bind. destruct (m s w) as [[[a|e| |] s1] w1]; try done. apply Hf.
Qed.

Lemma never_ok_map_err {E' : Type} (g : E -> E') (m : M S E A) : never_ok m -> never_ok (map_err g m).
Proof.
  intros Hm s w a s' w'. unfold map_err. specialize (Hm s w).
  destruct (m s w) as [[[a'|e| |] s1] w1]; try done. by destruct (Hm a' s1 w1).
Qed.

Lemma never_ok_zoom {T : Type} (get : T -> S) (set : S -> T -> T) (m : M S E A) :
  never_ok m -> never_ok (zoom get set m).
Proof.
  intros Hm t w a t' w'. unfold zoom. specialize (Hm (get t) w).
  destruct (m (get t) w) as [[r s1] w1]. intros [= -> _ _]. by apply (Hm a s1 w1).
Qed.

Lemma never_ok_throw (e : E) : never_ok (throw e : M S E A).
Proof. intros s w a s' w'. done. Qed.

Lemma never_ok_panic : never_ok (panic : M S E A).
Proof. intros s w a s' w'. done. Qed.

Lemma never_ok_not_ok (F : FaultModel) (m : M S E A) (s : S) (fs : fsys) : never_ok m -> not_ok F m s fs.
Proof. intros Hm faults a s' w' _. apply Hm. Qed.

(** A computation behind one that is specified. *)
Lemma not_ok_bind (F : FaultModel) (m : M S E A) (f : A -> M S E B) (s : S) (fs : fsys) Q X C :
  wpc F m s fs Q X C -> (forall a s' fs', Q a s' fs' -> not_ok F (f a) s' fs') -> not_ok F (m ≫= f) s fs.
Proof.
  intros Hm Hf faults b s' w' HF. specialize (Hm faults HF). unfold mbind, M_bind.
  destruct (m s (mkWorld fs faults)) as [[[a|e| |] s1] [fs1 faults1]]; try done.
  destruct Hm as [Hsuf HQ]. apply (Hf a s1 fs1 HQ). cbn [w_faults] in Hsuf.
  destruct Hsuf as [k ->]. by apply Forall_app in HF as [_ HF].
Qed.
End never_ok.

Lemma not_ok_map_err (F : FaultModel) {S E E' A : Type} (g : E -> E') (m : M S E A) (s : S) (fs : fsys) :
  not_ok F m s fs -> not_ok F (map_err g m) s fs.
Proof.
  intros Hm faults a s' w' HF. specialize (Hm faults). unfold map_err.
  destruct (m s (mkWorld fs faults)) as [[[a'|e| |] s1] w1]; try done. by destruct (Hm a' s1 w1 HF).
Qed.

Lemma not_ok_on_bind (F : FaultModel) {S T E A B : Type} (t : T) (m : M T E A) (f : A * T -> M S E B)
    (s : S) (fs : fsys) :
  not_ok F m t fs -> not_ok F (on t m ≫= f) s fs.
Proof.
  intros Hm faults b s' w' HF. specialize (Hm faults). unfold mbind, M_bind, on.
  destruct (m t (mkWorld fs faults)) as [[[a|e| |] t1] w1]; try done. by destruct (Hm a t1 w1 HF).
Qed.

(** ** Insertion *)

(** The bytes of key and value that fit a leaf with no other entry. *)
Definition entry_fits (k v : bytes) : Prop := length k + length v <= 4058.

Section insertion.
Context {S E : Type} `{!PageStore S E}.

Abbreviation T := (M (BufferPool S) (BTreeError E)).

(** A leaf with an entry that does not fit is not built. *)
Lemma build_leaf_refuses (es : list Entry) (next : PageId) (k v : bytes) :
  (k, v) ∈ es -> ~ entry_fits k v -> exists a b, build_leaf es next = Err (Full a b).
Proof.
  intros He Hf. unfold build_leaf.
  pose proof (insert_all_spec (page_new BTreeLeaf) [] (node_records (NLeaf es next))
    (page_new_rep _) (space_left_new _)) as Hi.
  rewrite app_nil_l, leaf_space, decide_False in Hi; [exact Hi|].
  apply (sum_list_with_in _ entry_space) in He.
  change (entry_space (k, v)) with (8 + length k + length v) in He.
  unfold entry_fits, NODE_SPACE, PAGE_SIZE, PAGE_HEADER_LEN in *. lia.
Qed.

Lemma never_ok_build (es : list Entry) (next : PageId) (k v : bytes) {B : Type} (f : Page -> T B) :
  (k, v) ∈ es -> ~ entry_fits k v -> never_ok (page ← lift_page (build_leaf es next); f page).
Proof.
  intros He Hf. destruct (build_leaf_refuses es next k v He Hf) as (a & b & ->).
  apply never_ok_bind_l, never_ok_throw.
Qed.

Lemma binary_search_lt (es : list Entry) (key : bytes) (i : nat) :
  binary_search es key = inl i -> i < length es.
Proof.
  revert i. induction es as [|[k v] es IH]; intros i; simpl; [done|].
  case_decide; [intros [= <-]; lia|]. destruct (bytes_leb k key); [|done].
  destruct (binary_search es key) as [j|j]; [|done]. intros [= <-]. specialize (IH j eq_refl). lia.
Qed.

Lemma upserted_elem (es : list Entry) (key value : bytes) : (key, value) ∈ upsert key value es.
Proof.
  unfold upsert. destruct (binary_search es key) as [i|i] eqn:Eb.
  - apply list_elem_of_lookup. exists i. apply list_lookup_insert_eq. by eapply binary_search_lt.
  - set_solver.
Qed.

Lemma never_ok_insert_leaf (page_id : PageId) (key value : bytes) :
  ~ entry_fits key value -> never_ok (insert_leaf page_id key value).
Proof.
  intros Hf. unfold insert_leaf. apply never_ok_bind_r. intros page.
  apply never_ok_bind_r. intros next. apply never_ok_bind_r. intros entries.
  fold (upsert key value entries). pose proof (upserted_elem entries key value) as He.
  set (es := upsert key value entries) in *. apply never_ok_bind_l.
  destruct (build_leaf_refuses es next key value He Hf) as (a & b & ->).
  rewrite <-(take_drop (split_at_midpoint es) es) in He. apply elem_of_app in He.
  apply never_ok_bind_r. intros right_id. destruct He as [He|He].
  - by apply (never_ok_build _ _ key value).
  - apply never_ok_bind_r. intros left_page. apply never_ok_bind_r. intros [].
    by apply (never_ok_build _ _ key value).
Qed.

Lemma never_ok_insert_recursive (fuel : nat) (page_id : PageId) (key value : bytes) :
  ~ entry_fits key value -> never_ok (insert_recursive fuel page_id key value).
Proof.
  intros Hf. revert page_id. induction fuel as [|fuel IH]; intros page_id; [apply never_ok_panic|].
  cbn [insert_recursive]. apply never_ok_bind_r. intros []. apply never_ok_bind_r. intros page.
  destruct (page_type page); try apply never_ok_panic.
  - by apply never_ok_insert_leaf.
  - apply never_ok_bind_r. intros entries. apply never_ok_bind_r. intros child.
    apply never_ok_bind_r. intros []. by apply never_ok_bind_l.
Qed.

(** No tree takes such an entry. *)
Lemma never_ok_tree_insert (fuel : nat) (key value : bytes) :
  ~ entry_fits key value -> never_ok (tree_insert fuel key value : T unit).
Proof.
  intros Hf. apply never_ok_bind_r. intros root. by apply never_ok_bind_l, never_ok_insert_recursive.
Qed.
End insertion.

(** ** The indexed store *)

(** The entry of a record in the index fits a page. *)
Definition record_fits (r : LogRecord) : Prop :=
  entry_fits (user_key (key r)) (encode_index_value (record_value r)).

Section indexed.
Context `{Crc32, DirOrder}.

Lemma never_ok_apply_record (fuel : nat) (r : LogRecord) :
  ~ record_fits r -> never_ok (apply_record_to_index fuel r).
Proof. intros Hf. by apply never_ok_map_err, never_ok_tree_insert. Qed.

Lemma never_ok_reconcile (fuel : nat) (last : Z) (records : list LogRecord) (r : LogRecord) :
  r ∈ records -> (last <= seq r)%Z -> ~ record_fits r -> never_ok (reconcile fuel last records).
Proof.
  intros Hr Hl Hf. induction records as [|r' records IH]; [by apply not_elem_of_nil in Hr|].
  cbn [reconcile]. apply elem_of_cons in Hr as [<-|Hr].
  - rewrite (proj2 (Z.leb_le _ _) Hl). by apply never_ok_bind_l, never_ok_apply_record.
  - destruct (last <=? seq r')%Z; [|by apply IH]. apply never_ok_bind_r. intros [].
    by apply never_ok_bind_l, IH.
Qed.

(** A write of such a record is never acknowledged. *)
Lemma write_refused (dir : path) (n : nat) (s : IndexedStore) (fs : fsys) (hist : list LogRecord) (op : LogOp)
    (fuel : nat) :
  log_safe dir (Datatypes.S n) s fs hist -> wf_op op -> ~ record_fits (op_record (next_of hist) op) ->
  not_ok any_fault (indexed_write fuel op) s fs.
Proof.
  intros Hs Hop Hf faults a s' w' HF.
  pose proof (log_safe_append dir n s fs hist op Hs Hop faults HF) as Ha.
  assert (indexed_write fuel op = (record ← zoom is_log set_is_log (map_err IsLog
    match op with OpPut k v => append_put k v | OpDelete k => append_delete k end); apply_and_advance fuel record))
    as -> by by destruct op.
  unfold mbind, M_bind, zoom, map_err.
  destruct (match op with OpPut k v => append_put k v | OpDelete k => append_delete k end (is_log s) (mkWorld fs faults))
    as [[[r|e| |] l'] w1]; try done. destruct Ha as [_ [-> _]].
  by apply never_ok_bind_l, never_ok_zoom, never_ok_apply_record.
Qed.

(** The reconciliation behind a sentinel that does not cover the record. *)
Lemma catch_up_refused (dir : path) (h n cap : nat) (p : BufferPool HeapPageStore) (fs : fsys) (last : option Z)
    (h1 hist : list LogRecord) (next : PageId) (fuel : nat) (r : LogRecord) {B : Type}
    (f : nat -> M (BufferPool HeapPageStore) IndexedStoreError B) :
  index_at dir h (h + 2 + n) cap p fs (index_image last h1) next -> 0 < cap -> Z.to_nat next <= fuel ->
  in_u64 (default 0%Z last) -> r ∈ hist -> (default 0%Z last <= seq r)%Z -> ~ record_fits r ->
  not_ok no_faults (last_indexed_seq ← read_last_indexed_seq fuel;
      reconciled ← reconcile fuel last_indexed_seq hist; f reconciled) p fs.
Proof.
  intros Hs Hc Hf Hu Hr Hl Hrf.
  eapply not_ok_bind; [by apply (wpc_last_indexed dir h n cap p fs last h1 next fuel)|].
  intros a p' fs' [-> _]. by apply never_ok_not_ok, never_ok_bind_l, (never_ok_reconcile _ _ _ r).
Qed.

Lemma open_refused (dir : path) (n cap interval : nat) (fs : fsys) (m : gmap PageId Page) (last : option Z)
    (h1 hist : list LogRecord) (torn : bool) (next : PageId) (fuel : nat) (r : LogRecord) :
  log_recoverable fs (log_path dir) hist torn ->
  heap_disk (index_path dir) (Z.to_nat next + 7 + n) fs m next -> pages_index m last h1 next ->
  in_u64 (default 0%Z last) -> 1 < cap -> Z.to_nat next + 1 <= fuel ->
  r ∈ hist -> (default 0%Z last <= seq r)%Z -> ~ record_fits r ->
  not_ok no_faults (open_with_options fuel dir cap interval) tt fs.
Proof.
  intros Hlog Hheap Hm Hu Hc Hf Hr Hl Hrf. unfold open_with_options, log_open.
  eapply not_ok_bind.
  { eapply (wpc_map_err _ _ _ _ _ (fun _ _ _ => False)), (wpc_open_recoverable_id (F := no_faults) fs (log_path dir) DEFAULT_SEGMENT_MAX_BYTES hist torn);
      [by intros []|exact Hlog]. }
  intros [l rep] [] fs1 (Hlh & Hld & _ & Hrep & Hfr & _). cbn [fst snd] in *. subst rep.
  pose proof (heap_disk_below _ _ _ _ _ _ _ (log_index_apart dir) (below_log_frame _ _ _ Hfr) Hheap) as Hdisk.
  eapply not_ok_bind; [by apply (wpc_map_err _ _ _ _ _ (fun _ _ _ => False)), wpc_hps_open|].
  intros hs [] fs2 (_ & next0 & Hn0 & Hv). cbn [rep_records rep_torn].
  eapply not_ok_bind.
  { apply (wpc_index_open dir (Z.to_nat next + 3 + n) cap hs fs2 m last h1 next0); [|eapply pages_index_next; [exact Hm|]|done].
    - eapply heap_view_weaken; [|exact Hv]. lia.
    - intros id Hid. by apply (hv_fresh _ _ _ _ _ _ Hv). }
  intros p [] fs3 (h & next1 & Hn1 & [_ Hs]).
  pose proof (index_at_height _ _ _ _ _ _ _ _ Hs) as (Hh & _ & _).
  apply not_ok_on_bind. eapply (catch_up_refused dir h 0 cap p fs3 last h1 hist next1 fuel r); try done; [|lia|lia].
  eapply index_at_weaken; [|exact Hs]. lia.
Qed.

(** C38: A record that fits no page blocks the indexed store. Its log takes every record; its index
    refuses an entry of which key and value have more than 4056 bytes, from whatever state of the
    tree, whatever the pool and the disk do. So a write of such a record is never acknowledged; when
    the error is the index's, the record is in the log all the same, durably; and from every
    directory whose log recovers a history with that record, as long as the sentinel of its index
    is not past the record, no [open] returns a store. *)
Theorem oversized_record_blocks_open (dir : path) (n : nat) (s : IndexedStore) (fs : fsys) (hist : list LogRecord)
    (op : LogOp) (fuel : nat) (faults : list Fault) r s' w' :
  log_safe dir (Datatypes.S n) s fs hist -> wf_op op ->
  4056 < length (op_key op) + length (default [] (record_value (op_record (next_of hist) op))) ->
  indexed_write fuel op s (mkWorld fs faults) = (r, s', w') ->
  let hist' := hist ++ [op_record (next_of hist) op] in
  (forall u, r <> Ok u) /\
  (forall e, r = Err (IsIndex e) -> log_safe dir n s' (w_fs w') hist' /\ log_survives dir (w_fs w') hist') /\
  (forall fs2 torn m last h1 next n2 cap interval fuel2,
     log_recoverable fs2 (log_path dir) hist' torn ->
     heap_disk (index_path dir) (Z.to_nat next + 7 + n2) fs2 m next -> pages_index m last h1 next ->
     in_u64 (default 0%Z last) -> (default 0%Z last <= next_of hist)%Z ->
     1 < cap -> Z.to_nat next + 1 <= fuel2 ->
     forall s2 w2, open_with_options fuel2 dir cap interval tt (mkWorld fs2 []) <> (Ok s2, tt, w2)).
Proof.
  intros Hs Hop Hbig Hr hist'. set (rec := op_record (next_of hist) op) in *.
  assert (~ record_fits rec) as Hrf.
  { unfold record_fits, entry_fits, rec, record_value in *. destruct op; simpl in *; lia. }
  split; [|split].
  - intros u ->. revert Hr. apply (write_refused dir n s fs hist op fuel Hs Hop Hrf).
    apply Forall_forall. by intros [] _.
  - intros e ->. destruct (write_spares_log dir n s fs hist op fuel faults _ _ _ Hs Hop Hr) as [Hw|[[?|[]] _]];
      [|done..]. split; [exact Hw|by eapply log_safe_survives].
  - intros fs2 torn m last h1 next n2 cap interval fuel2 Hlog Hheap Hm Hu Hl Hc Hf s2 w2.
    eapply (open_refused dir n2 cap interval fs2 m last h1 hist' torn next fuel2 rec); try done.
    + unfold hist'. set_solver.
    + unfold rec. by destruct op.
Qed.
End indexed.

(** ** Concrete stores that cannot be opened again *)

Section blocked.
#[local] Existing Instances sum_crc32 map_order.

#[local] Instance File_eq_decision : EqDecision File.
Proof. solve_decision. Defined.

#[local] Instance fsys_eq_decision : EqDecision fsys.
Proof. apply _. Defined.

(** A restart, in eight frames: its result and the file system it leaves. *)
Definition reopen (fuel : nat) (fs : fsys) : Res IndexedStoreError IndexedStore * fsys :=
  let r := open_with_options fuel example_dir 8 100 tt (mkWorld fs []) in (r.1.1, w_fs r.2).

(** The file system after [n] restarts. *)
Definition reopened (fuel n : nat) (fs : fsys) : fsys := Nat.iter n (fun fs => (reopen fuel fs).2) fs.

(** A restart that leaves the file system as it was ends as the first one, however often. *)
Lemma reopen_stuck (fuel n : nat) (fs : fsys) :
  (reopen fuel fs).2 = fs -> (reopen fuel (reopened fuel n fs)).1 = (reopen fuel fs).1.
Proof.
  intros Hs. enough (reopened fuel n fs = fs) as -> by done.
  induction n as [|n IH]; [done|].
  change (reopened fuel (S n) fs) with ((reopen fuel (reopened fuel n fs)).2). by rewrite IH.
Qed.

(** A write of 5001 bytes. *)
Definition big_write : LogOp := OpPut [x61] (replicate 5000 x30).

Definition refused : Res IndexedStoreError unit * IndexedStore * World :=
  indexed_write 8 big_write example_indexed.1 (mkWorld example_indexed.2 []).

(** The write is refused, and so is every later [open], however often and with whatever fuel. *)
Theorem refused_write_blocks_for_good :
  exists needed available, refused.1.1 = Err (IsIndex (BtPage (Full needed available))) /\
    forall fuel n, 2 <= fuel ->
      (reopen fuel (reopened fuel n (w_fs refused.2))).1 = Err (IsIndex (BtPage (Full needed available))).
Proof.
  destruct (refused.1.1) as [u|[e|[e|[a b|i| |c|x y]|]|e]| |] eqn:E; try (exfalso; revert E; by vm_compute).
  exists a, b. split; [done|]. intros [|[|fuel]] n Hf; [lia..|].
  assert (match refused, reopen (S (S fuel)) (w_fs refused.2) with
    | (Err (IsIndex (BtPage (Full a b))), _, w), (Err (IsIndex (BtPage (Full c d))), fs') =>
        bool_decide (a = c /\ b = d /\ fs' = w_fs w)
    | _, _ => false end = true) as Hc by (vm_compute; reflexivity).
  revert Hc E. pose proof (reopen_stuck (S (S fuel)) n (w_fs refused.2)) as Hst. revert Hst.
  generalize (reopen (S (S fuel)) (w_fs refused.2)). intros [r fs'].
  generalize (reopen (S (S fuel)) (reopened (S (S fuel)) n (w_fs refused.2))). intros [r2 fs2].
  destruct refused as [[r0 s0] w0]. cbn [fst snd]. intros Hst Hc ->.
  destruct r as [u|[e|[e|[c d|i| |cc|x y]|]|e]| |]; try discriminate Hc.
  apply bool_decide_eq_true in Hc as (-> & -> & ->). by apply Hst.
Qed.

(** Four acknowledged writes that split the root. *)
Definition four_puts : M unit IndexedStoreError IndexedStore :=
  st ← open_with_options 8 example_dir 8 100;
  '(_, st) ← on st (for_each (fun k => indexed_put 8 [k] long_value) [x61; x62; x63; x64]);
  mret st.

Definition four_written : Res IndexedStoreError IndexedStore * unit * World :=
  four_puts tt (mkWorld example_store_fs []).

(** A crash at the operation [k] of the checkpoint behind a run. *)
Definition checkpoint_crash (run : Res IndexedStoreError IndexedStore * unit * World) (k : nat) : fsys :=
  match run.1.1 with
  | Ok s => w_fs (checkpoint 8 s (mkWorld (w_fs run.2) (replicate k FNone ++ [FCrash 0]))).2
  | _ => empty_fs
  end.

Definition interrupted_checkpoint (k : nat) : fsys := checkpoint_crash four_written k.

Lemma interrupted_checkpoint_stuck (k fuel : nat) :
  4 <= k <= 18 ->
  match reopen (4 + fuel) (interrupted_checkpoint k) with
  | (Panic, fs') => bool_decide (fs' = interrupted_checkpoint k)
  | _ => false end = true.
Proof.
  intros Hk. do 19 (destruct k as [|k]; [try lia; vm_compute; reflexivity|]). lia.
Qed.

(** A crash inside a checkpoint: [flush_all] overwrites the pages of the tree one by one, and the
    reconciliation of [open] works on the tree it finds. Wherever between its first and its last
    page the checkpoint stops, the tree misses a page, and every later [open] panics, however
    often and with whatever fuel, though the log recovers the acknowledged records. *)
Theorem interrupted_checkpoint_blocks (k fuel n : nat) :
  4 <= k <= 18 -> 4 <= fuel ->
  (reopen fuel (reopened fuel n (interrupted_checkpoint k))).1 = Panic /\
  exists l rep w, log_open example_log_dir tt (mkWorld (interrupted_checkpoint k) []) = (Ok (l, rep), tt, w) /\
    key <$> rep_records rep = [[x61]; [x62]; [x63]; [x64]].
Proof.
  intros Hk Hf. split.
  - replace fuel with (4 + (fuel - 4)) by lia. pose proof (interrupted_checkpoint_stuck k (fuel - 4) Hk) as Hc.
    rewrite reopen_stuck; destruct (reopen (4 + (fuel - 4)) (interrupted_checkpoint k)) as [r fs'];
      destruct r; try discriminate Hc; [done|]. by apply bool_decide_eq_true in Hc.
  - destruct (run_ok (log_open example_log_dir) tt (mkWorld (interrupted_checkpoint k) [])
      (fun x _ _ => bool_decide (key <$> rep_records x.2 = [[x61]; [x62]; [x63]; [x64]])))
      as ([l rep] & [] & w & Hr & Hc).
    { do 19 (destruct k as [|k]; [try lia; vm_compute; reflexivity|]). lia. }
    apply bool_decide_eq_true in Hc. exists l, rep, w. exact (conj Hr Hc).
Qed.

(** *** The refused write of the general theorem *)

Definition refused_fs : fsys :=
  put_file (segment_path example_log_dir 0) (sfile [op_record 0 big_write])
    (put_file (heap_path example_index) (mkFile [] 0)
      (put_file (segment_path (loc_dir example_index) 0) (sfile []) example_dirs)).

Lemma refused_log_disk : log_disk refused_fs example_log_dir [] 0 (sfile [op_record 0 big_write]).
Proof.
  apply disk_log_put_new; [|by_compute]. do 2 (eapply disk_log_agrees; [apply log_agrees_put; by intros [=]|]).
  apply example_dirs_log. by left.
Qed.

Lemma refused_recoverable : log_recoverable refused_fs (log_path example_dir) [op_record 0 big_write] false.
Proof. apply (log_disk_recoverable _ _ [] 0 _ refused_log_disk). by_compute. Qed.

Lemma refused_heap_disk (n : nat) :
  (Z.of_nat n < 2 ^ 32)%Z -> heap_disk (index_path example_dir) n refused_fs ∅ 1.
Proof.
  intros Hn. eapply (heap_disk_below example_log_dir); [apply log_index_apart| |by eapply heap_view_disk, (example_heap_view n)].
  intros q Hq. transitivity (put_file (heap_path example_index) (mkFile [] 0)
    (put_file (segment_path (loc_dir example_index) 0) (sfile []) example_dirs) !! q);
    [|symmetry]; apply put_file_dir_ne; by intros <-.
Qed.

Lemma refused_leaves : w_fs refused.2 = refused_fs.
Proof. apply (bool_decide_unpack _). vm_compute. exact I. Qed.

Lemma oversized_record_blocks_open_witness :
  (forall u, refused.1.1 <> Ok u) /\
  (forall e, refused.1.1 = Err (IsIndex e) -> log_survives example_dir (w_fs refused.2) [op_record 0 big_write]) /\
  (forall s2 w2, open_with_options 8 example_dir 4 3 tt (mkWorld (w_fs refused.2) []) <> (Ok s2, tt, w2)).
Proof.
  destruct (oversized_record_blocks_open example_dir 3 example_indexed.1 example_indexed.2 [] big_write 8 []
    refused.1.1 refused.1.2 refused.2) as (H1 & H2 & H3).
  - by eapply indexed_log_safe, example_indexed_inv.
  - by_compute.
  - apply Nat.ltb_lt. vm_compute. reflexivity.
  - by rewrite <-!surjective_pairing.
  - split; [exact H1|]. split; [intros e He; by apply (H2 e He)|].
    rewrite refused_leaves.
    apply (H3 refused_fs false ∅ None [] 1%Z 0 4 3 8);
      [exact refused_recoverable|by apply refused_heap_disk|right; by rewrite lookup_empty|done|done|lia|vm_compute; lia].
Defined.
End blocked.
