(* ===== verification/Confinement.v ===== *)
(** * Confinement: no program touches a file outside of its directory

    The store with its compaction, the command line and the indexed store, from [open] on: whatever
    errors and crashes they meet, the file system outside of their directory is as before, and
    every directory keeps its parent. *)
From S2P Require Export IndexedSafety CliProps.

Section store_confined.
Context `{Crc32, DirOrder} (n0 : bytes) (q0 : path) (fs0 : fsys).

Abbreviation d := (n0 :: q0).
Abbreviation P := (below d fs0).

(** ** Removing and renaming *)

Lemma below_del_inside (p : path) (fs : fsys) : P fs -> file_inside d p -> P (del_file p fs).
Proof.
  intros Hb (n & q & -> & Hq) q' Hq'. unfold del_file. rewrite lookup_alter_ne; [by apply Hb|]. by intros <-.
Qed.

Lemma keeps_remove_file_in {St : Type} (I : St -> Prop) (p : path) :
  file_inside d p -> keeps I P any (remove_file p : M St IoError unit).
Proof.
  intros Hp. apply keeps_atomic. intros s fs Hs Hb. destruct (file_at fs p); [|done].
  split; [done|]. split; [by apply below_del_inside|done].
Qed.

Lemma keeps_write_empty_in {St : Type} (I : St -> Prop) (p : path) :
  file_inside d p -> keeps I P any (write_empty_file p : M St IoError unit).
Proof.
  intros Hp. apply keeps_atomic. intros s fs Hs Hb. destruct p as [|n q]; [done|].
  destruct (fs !! q); [|done]. split; [done|]. split; [by apply below_put_inside|done].
Qed.

Lemma keeps_rename_in {St : Type} (I : St -> Prop) (src dst : path) :
  file_inside d src -> file_inside d dst -> keeps I P any (rename_file src dst : M St IoError unit).
Proof.
  intros Hsrc Hdst. apply keeps_atomic. intros s fs Hs Hb. destruct (file_at fs src); [|done].
  destruct dst as [|m e]; [done|]. destruct (fs !! e), (fs !! (m :: e)); try done.
  split; [done|]. split; [|done]. apply below_put_inside; [by apply below_del_inside|done].
Qed.

Lemma keeps_remove_dir_in {St : Type} (I : St -> Prop) (p : path) :
  d `suffix_of` p -> keeps I P any (remove_dir_all p : M St IoError unit).
Proof.
  intros Hp. apply keeps_prim.
  - intros s fs Hs Hb. destruct (fs !! p); [|done]. split; [done|]. split; [|done].
    intros q Hq. cbn [snd]. unfold remove_tree. rewrite <-Hb by done.
    destruct (fs !! q) eqn:E; [|by apply map_lookup_filter_None; left].
    apply map_lookup_filter_Some. split; [done|]. intros Hs'. apply Hq. by etrans.
  - intros k s fs Hs Hb. split; [done|]. cbn [snd]. destruct (fs !! p); [|done].
    intros q Hq. rewrite lookup_insert_ne; [by apply Hb|]. by intros <-.
Qed.

Lemma keeps_remove_if_in (p : path) : file_inside d p -> keeps any P any (remove_if_exists p).
Proof.
  intros Hp. apply keeps_catch; [by apply keeps_remove_file_in|]. intros e.
  case_decide; [by apply keeps_ret|apply keeps_throw].
Qed.

Lemma keeps_remove_dir_if_in (p : path) : d `suffix_of` p -> keeps any P any (remove_dir_if_exists p).
Proof.
  intros Hp. apply keeps_catch; [by apply keeps_remove_dir_in|]. intros e.
  case_decide; [by apply keeps_ret|apply keeps_throw].
Qed.

(** ** The swap *)

Context (Hparent : dir_ok fs0 q0).

Lemma inside_child (n : bytes) (dir : path) : d `suffix_of` dir -> d `suffix_of` path_join dir n.
Proof. intros Hd. etrans; [exact Hd|]. by apply suffix_cons_r. Qed.

Lemma file_inside_join (n : bytes) (dir : path) : d `suffix_of` dir -> file_inside d (path_join dir n).
Proof. intros Hd. by exists n, dir. Qed.

#[local] Hint Resolve inside_child file_inside_join keeps_remove_if_in keeps_remove_dir_if_in
  keeps_remove_dir_in keeps_write_empty_in : frame.

Lemma keeps_mkdir_in {St : Type} (I : St -> Prop) (p : path) :
  d `suffix_of` p -> keeps I P any (create_dir_all p : M St IoError unit).
Proof. by apply keeps_create_dir_all_in. Qed.

Lemma keeps_log_in (dir : path) :
  d `suffix_of` dir -> keeps any P (fun a => log_inside d a.1) (log_open dir).
Proof. by apply keeps_log_open_in. Qed.

#[local] Hint Resolve keeps_mkdir_in : frame.

Lemma keeps_move_in (src dst : path) (test : bytes -> bool) :
  d `suffix_of` src -> d `suffix_of` dst ->
  keeps any P any (entries ← read_dir src;
    for_each (fun name => if test name then rename_file (path_join src name) (path_join dst name)
                          else mret tt) entries : M unit IoError unit).
Proof.
  intros Hs Hd. apply (keeps_bind _ _ any); [unfold read_dir; keep|]. intros entries _.
  apply keeps_for_each. intros name _. destruct (test name); [|by apply keeps_ret].
  apply keeps_rename_in; by apply file_inside_join.
Qed.

Lemma keeps_finish_in (dir : path) : d `suffix_of` dir -> keeps any P any (finish_pending_compaction dir).
Proof.
  intros Hd. unfold finish_pending_compaction. cbv zeta.
  assert (forall n, keeps any P any (move_segments dir (path_join dir n))) as H1.
  { intros n. apply keeps_move_in; [done|by apply inside_child]. }
  assert (forall n, keeps any P any (move_compacted dir (path_join dir n))) as H2.
  { intros n. apply (keeps_move_in _ _ (fun _ => true)); [by apply inside_child|done]. }
  keep.
Qed.

Lemma keeps_finish_or_discard_in (dir : path) :
  d `suffix_of` dir -> keeps any P any (finish_or_discard_pending_compaction dir).
Proof.
  intros Hd. pose proof keeps_finish_in. unfold finish_or_discard_pending_compaction. cbv zeta. keep.
Qed.
End store_confined.

(** ** The store *)

Section stores_confined.
Context `{Crc32, DirOrder} (n0 : bytes) (q0 : path) (fs0 : fsys) (Hparent : dir_ok fs0 q0).

Abbreviation d := (n0 :: q0).
Abbreviation P := (below d fs0).

Definition store_inside (st : Store) : Prop := d `suffix_of` st_dir st /\ log_inside d (st_log st).

#[local] Hint Resolve inside_child file_inside_join keeps_remove_if_in keeps_remove_dir_if_in
  keeps_remove_dir_in keeps_write_empty_in keeps_mkdir_in keeps_finish_in keeps_finish_or_discard_in
  keeps_log_in : frame.

Lemma keeps_store_open_in (dir : path) : d `suffix_of` dir -> keeps any P store_inside (store_open dir).
Proof.
  intros Hd. unfold store_open. apply (keeps_bind _ _ any); [keep|]. intros _ _.
  eapply keeps_bind; [by apply keeps_map_err, keeps_log_in|]. intros [l rep] Hl. by apply keeps_ret.
Qed.

Lemma keeps_on_store_log {A : Type} (m : M Log LogError A) :
  keeps (log_inside d) P any m -> keeps store_inside P any (zoom st_log set_log (map_err StLog m)).
Proof.
  intros Hm. by apply (keeps_zoom _ _ (log_inside d));
    [apply keeps_map_err|intros st [_ Hl]|intros st l [Hd _] Hl].
Qed.

Lemma keeps_run_call_in (c : WriteCall) : keeps store_inside P any (run_call c).
Proof.
  assert (forall (A : Type) (m : M Log LogError A) (f : A -> Store -> gmap bytes (list VersionEntry)),
    keeps (log_inside d) P any m ->
    keeps store_inside P any (a ← zoom st_log set_log (map_err StLog m); modify (fun st => set_index (f a st) st))) as Hw.
  { intros A m f Hm. eapply keeps_bind; [by apply keeps_on_store_log|]. intros a _.
    apply keeps_modify; [by intros st []|done]. }
  destruct c as [k v|k|ops]; cbn [run_call]; unfold store_put, store_delete, apply_batch.
  - apply Hw, keeps_append_put_in.
  - apply Hw, keeps_append_delete_in.
  - apply Hw, keeps_log_append_batch_in.
Qed.

Lemma keeps_build_in (dir : path) (rs : list LogRecord) :
  d `suffix_of` dir -> keeps any P any (build_compacted dir rs).
Proof.
  intros Hd. unfold build_compacted. apply (keeps_bind _ _ any); [keep|]. intros ex _.
  apply (keeps_bind _ _ any); [keep|]. intros _ _. apply (keeps_bind _ _ any); [keep|]. intros _ _.
  eapply keeps_bind; [by apply keeps_map_err, keeps_log_in|]. intros [l rep] Hl.
  eapply keeps_bind; [apply (keeps_on _ _ (log_inside d) any l _ Hl), keeps_map_err, keeps_append_verbatim_in|].
  intros a _. by apply keeps_ret.
Qed.

Lemma keeps_placeholder_in (dir : path) :
  d `suffix_of` dir -> keeps any P (log_inside d) (open_placeholder dir).
Proof.
  intros Hd. unfold open_placeholder. apply (keeps_bind _ _ any); [keep|]. intros ex _.
  apply (keeps_bind _ _ any); [keep|]. intros _ _. apply (keeps_bind _ _ any); [keep|]. intros _ _.
  eapply keeps_bind; [by apply keeps_map_err, keeps_log_in|]. intros [l rep] Hl. by apply keeps_ret.
Qed.

Lemma keeps_set_log_in (l : Log) : log_inside d l -> keeps store_inside P any (modify (set_log l) : M _ StoreError _).
Proof. intros Hl. apply keeps_modify; [|done]. by intros st [Hd _]. Qed.

Lemma keeps_compact_in : keeps store_inside P any compact.
Proof.
  unfold compact. eapply keeps_bind; [apply keeps_get_state|]. intros st [Hd _]. cbv zeta.
  destruct (compact_records st) as [records live].
  apply (keeps_bind _ _ any); [apply keeps_io, keeps_build_in; by apply inside_child|]. intros _ _.
  apply (keeps_bind _ _ any); [keep|]. intros _ _.
  eapply keeps_bind; [apply keeps_io, keeps_placeholder_in; by apply inside_child|]. intros l0 Hl0.
  apply (keeps_bind _ _ any); [by apply keeps_set_log_in|]. intros _ _.
  apply (keeps_bind _ _ any); [apply keeps_io; keep|]. intros _ _.
  eapply keeps_bind; [by apply keeps_io, keeps_map_err, keeps_log_in|]. intros [l rep] Hl.
  apply (keeps_bind _ _ any); [by apply keeps_set_log_in|]. intros _ _.
  apply (keeps_bind _ _ any); [keep|]. intros _ _. by apply keeps_ret.
Qed.
End stores_confined.

(** ** The shape of the file system *)

Section rooted_index.
Context `{Crc32, DirOrder}.

#[local] Hint Resolve rooted_open_for_append rooted_log_open rooted_log_append_batch : rooted.

Lemma rooted_append_put (k v : bytes) : keeps_rooted (append_put k v).
Proof. unfold append_put, log_append. keeps. Qed.

Lemma rooted_append_delete (k : bytes) : keeps_rooted (append_delete k).
Proof. unfold append_delete, log_append. keeps. Qed.

#[local] Hint Resolve rooted_append_put rooted_append_delete : rooted.

Lemma rooted_run_call (c : WriteCall) : keeps_rooted (run_call c).
Proof. destruct c; cbn [run_call]; unfold store_put, store_delete, apply_batch; keeps. Qed.

Lemma rooted_unwrap {S E A : Type} (o : option A) : keeps_rooted (unwrap o : M S E A).
Proof. apply keeps_unwrap. Qed.

Lemma rooted_lift_res {S E E1 A : Type} (f : E1 -> E) (r : Res E1 A) : keeps_rooted (lift_res f r : M S E A).
Proof. apply keeps_lift_res. Qed.

Lemma rooted_metadata_len : keeps_rooted metadata_len.
Proof. apply rooted_atomic. intros h fs Hr. by destruct (file_at fs (h_path h)). Qed.

#[local] Hint Resolve rooted_unwrap rooted_lift_res rooted_metadata_len : rooted.

Lemma rooted_hps_read (id : PageId) : keeps_rooted (hps_read_page id).
Proof. unfold hps_read_page. keeps. Qed.

Lemma rooted_hps_write (id : PageId) (page : Page) : keeps_rooted (hps_write_page id page).
Proof. unfold hps_write_page. keeps. Qed.

Lemma rooted_hps_allocate : keeps_rooted hps_allocate_page_id.
Proof. unfold hps_allocate_page_id. keeps. Qed.

Lemma rooted_hps_open (dir : path) : keeps_rooted (hps_open dir).
Proof. unfold hps_open, log_open. keeps. Qed.
End rooted_index.

(** ** Programs *)

(** Goes on after an error. *)
Definition tolerate {St Er : Type} (m : M St Er unit) : M St Er unit := catch m (fun _ => mret tt).

Section programs.
Context `{Crc32, DirOrder}.

(** A call of a store: a write or a compaction. *)
Definition run_store_call (c : option WriteCall) : M Store StoreError unit :=
  match c with Some c => run_call c | None => _ ← compact; mret tt end.

(** A process that opens a store and uses it, whatever errors the calls return. *)
Definition store_program (dir : path) (calls : list (option WriteCall)) : M unit StoreError unit :=
  st ← store_open dir; _ ← on st (for_each (fun c => tolerate (run_store_call c)) calls); mret tt.

(** The same for an indexed store. *)
Definition indexed_program (fuel : nat) (dir : path) (cap interval : nat) (qs : list Request) :
    M unit IndexedStoreError unit :=
  s ← open_with_options fuel dir cap interval; _ ← on s (for_each (fun q => tolerate (request fuel q)) qs); mret tt.

(** Started where the parent directory exists, the program leaves everything outside of [dir] as it
    was and every directory with its parent, however it ends. *)
Definition confined {A E : Type} (dir : path) (m : M unit E A) : Prop :=
  forall fs faults, rooted fs -> (forall n q, dir = n :: q -> is_Some (fs !! q)) ->
    let fs' := w_fs (m tt (mkWorld fs faults)).2 in below dir fs fs' /\ rooted fs'.

Lemma rooted_dir_ok (p : path) (fs : fsys) : rooted fs -> is_Some (fs !! p) -> dir_ok fs p.
Proof.
  intros Hr. induction p as [|n p IH]; intros Hp q Hq; [by apply suffix_nil_inv in Hq as ->|].
  apply suffix_cons_or in Hq as [->|Hq]; [done|]. apply IH; [by eapply Hr|done].
Qed.

Lemma confined_intro {A E : Type} (n : bytes) (q : path) (m : M unit E A) :
  (forall fs, dir_ok fs q -> keeps any (below (n :: q) fs) any m) -> keeps_rooted m -> confined (n :: q) m.
Proof.
  intros Hk Hr fs faults Hf Hp. split; [|by apply (Hr tt (mkWorld fs faults))].
  by apply (Hk fs (rooted_dir_ok q fs Hf (Hp _ _ eq_refl)) tt (mkWorld fs faults)).
Qed.

Lemma keeps_tolerate {St Er : Type} (I : St -> Prop) (P : fsys -> Prop) (m : M St Er unit) :
  keeps I P any m -> keeps I P any (tolerate m).
Proof. intros Hm. apply keeps_catch; [done|]. intros e. by apply keeps_ret. Qed.

(** A program that opens a component and uses it. *)
Lemma keeps_session {St E C : Type} (P : fsys -> Prop) (I : St -> Prop) (open : M unit E St) (call : C -> M St E unit)
    (cs : list C) :
  keeps any P I open -> (forall c, keeps I P any (call c)) ->
  keeps any P any (s ← open; _ ← on s (for_each (fun c => tolerate (call c)) cs); mret tt).
Proof.
  intros Ho Hc. eapply keeps_bind; [exact Ho|]. intros s Hs.
  eapply keeps_bind; [|intros a _; by apply keeps_ret].
  apply (keeps_on _ _ I any s _ Hs), keeps_for_each. intros c _. by apply keeps_tolerate.
Qed.

Lemma confined_store (n : bytes) (q : path) (calls : list (option WriteCall)) :
  confined (n :: q) (store_program (n :: q) calls).
Proof.
  apply confined_intro.
  - intros fs Hq. apply (keeps_session _ (store_inside n q)); [by apply keeps_store_open_in|].
    intros [c|]; [apply keeps_run_call_in|]. eapply keeps_bind; [by apply keeps_compact_in|]. intros r _.
    by apply keeps_ret.
  - apply (keeps_session _ any); [apply rooted_store_open|]. intros [c|]; [apply rooted_run_call|].
    apply rooted_bind; [apply rooted_compact|]. intros r. apply rooted_ret.
Qed.

Lemma confined_main (n : bytes) (q : path) (cmd : Command) : confined (n :: q) (main (n :: q) cmd).
Proof.
  apply confined_intro.
  - intros fs Hq. unfold main. eapply keeps_bind; [by apply keeps_store_open_in|]. intros st Hst.
    pose proof (fun c => keeps_run_call_in n q fs c) as Hc.
    destruct cmd as [k v|k|k|pre|]; try by apply keeps_ret.
    + eapply keeps_bind; [apply (keeps_on _ _ (store_inside n q) any st _ Hst), (Hc (CallPut k v))|].
      intros [] _. by apply keeps_ret.
    + eapply keeps_bind; [apply (keeps_on _ _ (store_inside n q) any st _ Hst), (Hc (CallDelete k))|].
      intros [] _. by apply keeps_ret.
  - pose proof rooted_run_call as Hc. unfold main. apply rooted_bind; [apply rooted_store_open|]. intros st.
    destruct cmd as [k v|k|k|pre|]; try apply rooted_ret.
    + apply rooted_bind; [apply rooted_on, (Hc (CallPut k v))|]. intros []. apply rooted_ret.
    + apply rooted_bind; [apply rooted_on, (Hc (CallDelete k))|]. intros []. apply rooted_ret.
Qed.

Lemma keeps_full_request (J : HeapPageStore -> Prop) (P : fsys -> Prop) (L : Log -> Prop) (fuel : nat) (q : Request) :
  (forall id, keeps J P any (hps_read_page id)) -> (forall id page, keeps J P any (hps_write_page id page)) ->
  keeps J P any hps_allocate_page_id -> (forall k v, keeps L P any (append_put k v)) ->
  (forall k, keeps L P any (append_delete k)) -> keeps (store_in L J) P any (request fuel q).
Proof. intros H1 H2 H3 H4 H5. destruct q as [op| | |]; [by apply keeps_indexed_write|by apply keeps_request..]. Qed.

Section indexed_confined.
Context (n : bytes) (q : path) (fs : fsys) (fuel : nat).

Abbreviation d := (n :: q).

(** Its files are below the directory. *)
Definition indexed_inside : IndexedStore -> Prop := store_in (log_inside d) (heap_inside d).

Lemma keeps_indexed_open_in (cap interval : nat) :
  dir_ok fs q -> keeps any (below d fs) indexed_inside (open_with_options fuel d cap interval).
Proof.
  intros Hq. assert (d `suffix_of` index_path d) as Hi by by apply suffix_cons_r.
  assert (d `suffix_of` log_path d) as Hl by by apply suffix_cons_r.
  unfold open_with_options. eapply keeps_bind; [by apply keeps_map_err, (keeps_log_in n q fs Hq (log_path d))|].
  intros [l rep] Hll. eapply keeps_weaken; [by apply (keeps_open_rest n q fs d fuel l rep cap interval)|].
  intros s [Heq Hs]. split; [by rewrite <-Heq|done].
Qed.

Lemma keeps_request_in (r : Request) : keeps indexed_inside (below d fs) any (request fuel r).
Proof.
  apply keeps_full_request; [apply keeps_hps_read_in|apply keeps_hps_write_in|
    apply keeps_hps_allocate_in|apply keeps_append_put_in|apply keeps_append_delete_in].
Qed.
End indexed_confined.

Lemma confined_indexed (n : bytes) (q : path) (fuel cap interval : nat) (qs : list Request) :
  confined (n :: q) (indexed_program fuel (n :: q) cap interval qs).
Proof.
  apply confined_intro.
  - intros fs Hq. apply (keeps_session _ (indexed_inside n q)); [by apply keeps_indexed_open_in|].
    intros r. apply keeps_request_in.
  - apply (keeps_session _ (store_in any any)).
    + unfold open_with_options. apply (keeps_bind _ _ any); [apply keeps_map_err, rooted_log_open|].
      intros [l rep] _. apply (keeps_bind _ _ any); [apply keeps_map_err, rooted_hps_open|]. intros hs _.
      eapply keeps_bind; [apply keeps_map_err, (keeps_tree_open any); [apply rooted_hps_read|apply rooted_hps_write|apply rooted_hps_allocate|done]|].
      intros p Hp. eapply keeps_bind; [apply (keeps_on _ _ (pool_in any) any p _ Hp)|].
      { apply keeps_catch_up; [apply rooted_hps_read|apply rooted_hps_write|apply rooted_hps_allocate]. }
      intros [k p'] [_ Hp']. by apply keeps_ret.
    + intros r. apply keeps_full_request; [apply rooted_hps_read|apply rooted_hps_write|
        apply rooted_hps_allocate|apply rooted_append_put|apply rooted_append_delete].
Qed.

(** C18: Nothing outside of the directory of a store is ever touched: an invocation of the command line, a
    process that writes to a [Store] and compacts it, and one that uses an [IndexedStore], each from
    [open] on and past any errors, under any faults, whether they return, fail, panic or crash at
    any operation, leave the files and directories that are not below their directory exactly as they
    were, the recursive removals and the renames of the compaction included; and they keep the
    file system a tree. *)
Theorem programs_confined (n : bytes) (q : path) :
  let dir := n :: q in
  (forall cmd, confined dir (main dir cmd)) /\
  (forall calls, confined dir (store_program dir calls)) /\
  (forall fuel cap interval qs, confined dir (indexed_program fuel dir cap interval qs)).
Proof.
  intros dir. split; [apply confined_main|]. split; [apply confined_store|]. intros. apply confined_indexed.
Qed.
End programs.
