(* ===== verification/DecimalKeys.v ===== *)
(** * DecimalKeys: numbers as keys

    Zero-padded decimals of a fixed width are ordered as the numbers they denote, and decimals are
    different for different numbers. *)
From S2P Require Export KeyOrder.

(** ** The order under prefixes *)

Lemma bytes_leb_app (p x y : bytes) : bytes_leb (p ++ x) (p ++ y) = bytes_leb x y.
Proof. induction p as [|b p IH]; [done|]. cbn [app bytes_leb]. by rewrite Z.ltb_irrefl. Qed.

Lemma klt_app (p x y : bytes) : klt (p ++ x) (p ++ y) <-> klt x y.
Proof. unfold klt, bytes_ltb. by rewrite bytes_leb_app. Qed.

Lemma klt_app_r (a b x y : bytes) : length a = length b -> klt a b -> klt (a ++ x) (b ++ y).
Proof.
  unfold klt, bytes_ltb. rewrite !negb_true_iff. revert b.
  induction a as [|c a IH]; intros [|d b] Hl; try done. cbn [app bytes_leb].
  destruct (byte_to_Z d <? byte_to_Z c)%Z; [done|]. destruct (byte_to_Z c <? byte_to_Z d)%Z; [done|].
  apply IH. by injection Hl.
Qed.

Lemma klt_digit (c d : Z) (x y : bytes) :
  (0 <= c < d)%Z -> (d < 10)%Z -> klt (digit c :: x) (digit d :: y).
Proof.
  intros Hc Hd. unfold klt, bytes_ltb. rewrite negb_true_iff. cbn [bytes_leb].
  rewrite !byte_to_Z_digit by lia. rewrite (proj2 (Z.ltb_ge _ _)) by lia. by rewrite (proj2 (Z.ltb_lt _ _)) by lia.
Qed.

(** ** Decimals of a fixed width *)

Fixpoint digits (w : nat) (z : Z) : bytes :=
  match w with
  | O => []
  | S w' => digits w' (z `div` 10) ++ [digit (z `mod` 10)]
  end.

Lemma length_digits (w : nat) (z : Z) : length (digits w z) = w.
Proof. revert z. induction w as [|w IH]; intros z; simpl; [done|]. rewrite length_app, IH. simpl. lia. Qed.

Lemma digits_zero (w : nat) : digits w 0 = replicate w (digit 0).
Proof.
  induction w as [|w IH]; [done|]. cbn [digits]. change (0 `div` 10)%Z with 0%Z. change (0 `mod` 10)%Z with 0%Z.
  by rewrite IH, replicate_S_end.
Qed.

Lemma dec_digits_acc (fuel : nat) (z : Z) (acc : bytes) : dec_digits fuel z acc = dec_digits fuel z [] ++ acc.
Proof.
  revert z acc. induction fuel as [|fuel IH]; intros z acc; simpl; [done|]. case_match; [done|].
  rewrite IH, (IH _ [_]), <-app_assoc. done.
Qed.

Lemma div10_bound (w : nat) (z : Z) : (0 <= z < 10 ^ Z.of_nat (S w))%Z -> (0 <= z `div` 10 < 10 ^ Z.of_nat w)%Z.
Proof.
  intros Hz. rewrite Nat2Z.inj_succ, Z.pow_succ_r in Hz by lia. split; [apply Z.div_pos; lia|].
  apply Z.div_lt_upper_bound; lia.
Qed.

Lemma pad_dec_digits (w fuel : nat) (z : Z) :
  0 < w <= fuel -> (0 <= z < 10 ^ Z.of_nat w)%Z ->
  replicate (w - length (dec_digits fuel z [])) (digit 0) ++ dec_digits fuel z [] = digits w z.
Proof.
  revert fuel z. induction w as [|w IH]; intros [|fuel] z Hw Hz; try lia. cbn [dec_digits digits].
  destruct (Z.ltb_spec z 10) as [Hlt|Hge].
  - rewrite Z.div_small, Z.mod_small, digits_zero by lia. simpl length. by rewrite Nat.sub_succ, Nat.sub_0_r.
  - assert (0 < w) as Hw0 by (destruct w; [simpl in Hz; lia|lia]).
    rewrite dec_digits_acc, length_app, Nat.add_1_r, Nat.sub_succ, app_assoc.
    by rewrite IH by (lia || by apply div10_bound).
Qed.

Lemma fmt_dec_pad_digits (w : nat) (z : Z) :
  0 < w <= 20 -> (0 <= z < 10 ^ Z.of_nat w)%Z -> fmt_dec_pad w z = digits w z.
Proof. apply pad_dec_digits. Qed.

Lemma digits_lt (w : nat) (a b : Z) : (0 <= a < b)%Z -> (b < 10 ^ Z.of_nat w)%Z -> klt (digits w a) (digits w b).
Proof.
  revert a b. induction w as [|w IH]; intros a b Ha Hb; [simpl in Hb; lia|]. cbn [digits].
  destruct (div10_bound w a ltac:(lia)), (div10_bound w b ltac:(lia)).
  pose proof (Z.div_mod a 10 ltac:(lia)). pose proof (Z.div_mod b 10 ltac:(lia)).
  pose proof (Z.mod_pos_bound a 10 ltac:(lia)). pose proof (Z.mod_pos_bound b 10 ltac:(lia)).
  destruct (decide (a `div` 10 = b `div` 10)%Z) as [Heq|Hne].
  - rewrite Heq. apply klt_app, klt_digit; lia.
  - apply klt_app_r; [by rewrite !length_digits|]. apply IH; lia.
Qed.

(** ** Keys *)

(** [format!("{prefix}{i:0w}")]. *)
Definition fmt_pad (prefix : string) (w : nat) (i : Z) : bytes := ascii prefix ++ fmt_dec_pad w i.

(** [format!("{prefix}{i}")]. *)
Definition fmt (prefix : string) (i : Z) : bytes := ascii prefix ++ fmt_dec i.

Section padded.
Context (prefix : string) (w : nat) (Hw : 0 < w <= 20).

Definition width_bound (z : Z) : Prop := (0 <= z < 10 ^ Z.of_nat w)%Z.

Lemma fmt_pad_lt (a b : Z) : width_bound a -> width_bound b -> klt (fmt_pad prefix w a) (fmt_pad prefix w b) <-> (a < b)%Z.
Proof.
  unfold width_bound. intros Ha Hb. unfold fmt_pad. rewrite klt_app, !fmt_dec_pad_digits by done. split.
  - intros Hlt. destruct (Z.lt_trichotomy a b) as [|[<-|Hba]]; [done|key_order|].
    pose proof (digits_lt w b a ltac:(lia) ltac:(lia)). key_order.
  - intros Hlt. apply digits_lt; lia.
Qed.

Lemma fmt_pad_le (a b : Z) : width_bound a -> width_bound b -> kle (fmt_pad prefix w a) (fmt_pad prefix w b) <-> (a <= b)%Z.
Proof.
  intros Ha Hb. pose proof (fmt_pad_lt b a Hb Ha) as Hlt. split; intros H.
  - destruct (decide (a <= b)%Z) as [|Hn]; [done|]. assert (b < a)%Z as Hba by lia. apply Hlt in Hba. key_order.
  - destruct (klt_total (fmt_pad prefix w b) (fmt_pad prefix w a)) as [Hc|[Hc|Hc]]; [apply Hlt in Hc; lia|key_order..].
Qed.

Lemma fmt_pad_inj (a b : Z) : width_bound a -> width_bound b -> fmt_pad prefix w a = fmt_pad prefix w b -> a = b.
Proof.
  intros Ha Hb Heq. pose proof (fmt_pad_le a b Ha Hb) as H1. pose proof (fmt_pad_le b a Hb Ha) as H2.
  rewrite Heq in H1, H2. assert (kle (fmt_pad prefix w b) (fmt_pad prefix w b)) as Hr by apply bytes_leb_refl.
  apply H1 in Hr as ?. apply H2 in Hr as ?. lia.
Qed.

Lemma length_fmt_pad (z : Z) : width_bound z -> length (fmt_pad prefix w z) = length (ascii prefix) + w.
Proof. intros Hz. unfold fmt_pad. by rewrite length_app, fmt_dec_pad_digits, length_digits. Qed.
End padded.

Lemma fmt_inj (prefix : string) (a b : Z) : in_u64 a -> in_u64 b -> fmt prefix a = fmt prefix b -> a = b.
Proof. intros Ha Hb [= Heq]%(inj (app _)). by apply (fmt_dec_pad_inj 0). Qed.

Lemma length_dec_digits (fuel : nat) (z : Z) (acc : bytes) : length (dec_digits fuel z acc) <= fuel + length acc.
Proof.
  revert z acc. induction fuel as [|fuel IH]; intros z acc; simpl; [done|]. case_match; [simpl; lia|].
  etrans; [apply IH|]. simpl. lia.
Qed.

Lemma length_fmt (prefix : string) (z : Z) : length (fmt prefix z) <= length (ascii prefix) + 20.
Proof. unfold fmt. rewrite length_app. apply Nat.add_le_mono_l, (length_dec_digits 20 z []). Qed.
