(* ===== verification/TestKit.v ===== *)
(** * TestKit: what the unit tests of the crates are written with

    A unit test of the source ([#[cfg(test)]]) is a computation that panics when an assertion fails:
    [unwrap] of an error, [assert!] and [assert_eq!] are panics, the locals of a block are the
    state of [scope], and a temporary directory is a directory of [tmp_fs]. [passes] runs a test. The
    files Tests... translate the tests of each module and evaluate them on the model. *)
From S2P Require Export Fs LogRecord DecimalKeys.

(** Nothing fails in a test: what could is unwrapped. *)
Definition Test (S A : Type) : Type := M S Empty_set A.

(** [m.unwrap()]. *)
Definition must {S E A : Type} (m : M S E A) : Test S A := fun s w =>
  match m s w with
  | (Ok a, s', w') => (Ok a, s', w')
  | (Crash, s', w') => (Crash, s', w')
  | (_, s', w') => (Panic, s', w')
  end.

(** [m.unwrap_err()] and [m.is_err()], as the test of a result. *)
Definition fails {S E A : Type} (m : M S E A) : Test S (option E) := fun s w =>
  match m s w with
  | (Ok _, s', w') => (Ok None, s', w')
  | (Err e, s', w') => (Ok (Some e), s', w')
  | (Panic, s', w') => (Panic, s', w')
  | (Crash, s', w') => (Crash, s', w')
  end.

(** A value that is unwrapped. *)
Definition must_ok {S E A : Type} (r : Res E A) : Test S A :=
  match r with Ok a => mret a | _ => panic end.

Definition must_some {S A : Type} (o : option A) : Test S A :=
  match o with Some a => mret a | None => panic end.

Definition assert {S : Type} (b : bool) : Test S unit := if b then mret tt else panic.

(** [assert_eq!]. *)
Definition assert_eq {S A : Type} `{EqDecision A} (a b : A) : Test S unit := assert (bool_decide (a = b)).

(** A block [{ let mut x = open; body }]. *)
Definition scope {S T A : Type} (open : Test unit T) (body : Test T A) : Test S A :=
  t ← io open; '(a, _) ← on t body; mret a.

(** A function of the state of the block. *)
Definition look {S A : Type} (f : S -> A) : Test S A := s ← get_state; mret (f s).

(** ** Files *)

(** [tempdir().unwrap()]: the tests use up to two of them. *)
Definition tempdir : path := [ascii "a"; ascii "tmp"].

Definition tempdir2 : path := [ascii "b"; ascii "tmp"].

Definition tmp_fs : fsys :=
  <[tempdir2 := ∅]> (<[tempdir := ∅]> (<[[ascii "tmp"] := ∅]> (<[[] := ∅]> ∅))).

(** [File::options().append(true).open(path)] and [write_all]. *)
Definition append_to {S : Type} (p : path) (bs : bytes) : Test S unit :=
  f ← must (open_rw_create p);
  _ ← on f (len ← must metadata_len; must (seek len);; must (write_all bs));
  mret tt.

(** [OpenOptions::new().write(true).open(path)], [seek] and [write_all]. *)
Definition overwrite {S : Type} (p : path) (pos : nat) (bs : bytes) : Test S unit :=
  f ← must (open_rw_create p);
  _ ← on f (must (seek pos);; must (write_all bs));
  mret tt.

(** [fs::metadata(path).unwrap().len()]. *)
Definition file_len {S : Type} (p : path) : Test S nat := bs ← must (read_file p); mret (length bs).

(** [byte ^= 0xFF]. *)
Definition flip_bits (b : byte) : byte := byte_of_Z (Z.lxor (byte_to_Z b) 255).

(** The range [lo..hi]. *)
Definition range (lo hi : Z) : list Z := seqZ lo (hi - lo).

(** A loop over the elements of a list, in the state of the test. *)
Definition test_for {S A : Type} (l : list A) (f : A -> Test S unit) : Test S unit := for_each f l.

(** The same with a local variable that the loop updates. *)
Fixpoint test_fold {S A B : Type} (l : list A) (f : B -> A -> Test S B) (b : B) : Test S B :=
  match l with
  | [] => mret b
  | x :: l' => b' ← f b x; test_fold l' f b'
  end.

(** ** Running *)

Definition passes (t : Test unit unit) : bool :=
  match t tt (mkWorld tmp_fs []) with
  | (Ok _, _, _) => true
  | _ => false
  end.

(** The instances that the tests run with: a checksum that sees the damage the tests do, and
    listings in the order of the map. *)
#[export] Existing Instances sum_crc32 map_order.
