(* ===== verification/KeyLists.v ===== *)
(** * KeyLists: maps that loops build

    What a map holds after a loop has inserted, or deleted, one key for each element of a list, and
    what its iteration and its ranges are when the keys are padded numbers. *)
From S2P Require Export TestKit.

(** ** Insertions *)

Section puts.
Context {A : Type} (f g : A -> bytes).

Implicit Types (l : list A) (kv : gmap bytes bytes).

Definition put_all l kv : gmap bytes bytes := foldl (fun m x => <[f x := g x]> m) kv l.

Definition pairs l : list (bytes * bytes) := (fun x => (f x, g x)) <$> l.

Lemma pairs_keys l : (pairs l).*1 = f <$> l.
Proof. unfold pairs. by rewrite <-list_fmap_compose. Qed.

Lemma put_all_snoc l x kv : put_all (l ++ [x]) kv = <[f x := g x]> (put_all l kv).
Proof. unfold put_all. by rewrite foldl_app. Qed.

Lemma put_all_list_to_map l : put_all l ∅ = list_to_map (reverse (pairs l)).
Proof.
  induction l as [|x l IH] using rev_ind; [done|]. rewrite put_all_snoc, IH. unfold pairs.
  by rewrite fmap_app, reverse_app.
Qed.

Lemma put_all_denotes l : NoDup (f <$> l) -> denotes (pairs l) (put_all l ∅).
Proof.
  intros Hnd k v. rewrite put_all_list_to_map, <-elem_of_list_to_map, elem_of_reverse; [done|].
  by rewrite reverse_Permutation, pairs_keys.
Qed.

Lemma put_all_lookup l x : NoDup (f <$> l) -> x ∈ l -> put_all l ∅ !! f x = Some (g x).
Proof. intros Hnd Hx. apply put_all_denotes; [done|]. apply list_elem_of_fmap. by exists x. Qed.

Lemma put_all_lookup_None l k : k ∉ f <$> l -> put_all l ∅ !! k = None.
Proof.
  intros Hk. rewrite put_all_list_to_map. apply not_elem_of_list_to_map. by rewrite reverse_Permutation, pairs_keys.
Qed.

Lemma put_all_elem l k v : NoDup (f <$> l) -> put_all l ∅ !! k = Some v -> exists x, x ∈ l /\ k = f x /\ v = g x.
Proof.
  intros Hnd Hk. apply (put_all_denotes l Hnd) in Hk. apply list_elem_of_fmap in Hk as (x & [= -> ->] & Hx). by exists x.
Qed.

Lemma put_all_size l : NoDup (f <$> l) -> size (put_all l ∅) = length l.
Proof.
  intros Hnd. rewrite put_all_list_to_map, map_size_list_to_map by by rewrite reverse_Permutation, pairs_keys.
  rewrite length_reverse. unfold pairs. apply length_fmap.
Qed.

(** Insertions in any order iterate in key order. *)
Lemma put_all_iter l l' : StronglySorted key_lt (pairs l') -> l ≡ₚ l' -> bt_iter (put_all l ∅) = pairs l'.
Proof.
  intros Hs Hp. assert (NoDup (f <$> l)) as Hnd.
  { rewrite Hp, <-pairs_keys. apply (strict_sorted_NoDup klt); [intros a Ha; key_order|].
    by apply StronglySorted_fmap_iff. }
  apply denotes_bt_iter; [|done]. intros k v. rewrite (put_all_denotes l Hnd k v). unfold pairs. by rewrite Hp.
Qed.
End puts.

(** ** Deletions *)

Section dels.
Context {A : Type} (f : A -> bytes).

Definition delete_all (l : list A) (kv : gmap bytes bytes) : gmap bytes bytes := foldl (fun m x => delete (f x) m) kv l.

Lemma delete_all_lookup (l : list A) (kv : gmap bytes bytes) (k : bytes) :
  delete_all l kv !! k = if decide (k ∈ f <$> l) then None else kv !! k.
Proof.
  unfold delete_all. revert kv. induction l as [|x l IH]; intros kv; cbn [foldl].
  - by rewrite decide_False by apply not_elem_of_nil.
  - rewrite IH, fmap_cons. destruct (decide (k ∈ f <$> l)) as [Hin|Hni].
    + by rewrite decide_True by by right.
    + destruct (decide (k = f x)) as [->|Hne].
      * rewrite decide_True by left. apply lookup_delete_eq.
      * rewrite decide_False by (by rewrite not_elem_of_cons). by apply lookup_delete_ne.
Qed.

(** Deletions leave the entries of the other keys, in order. *)
Lemma delete_all_iter (l : list A) (es : list (bytes * bytes)) (kv : gmap bytes bytes) :
  denotes es kv -> StronglySorted key_lt es -> bt_iter (delete_all l kv) = filter (fun e => e.1 ∉ f <$> l) es.
Proof.
  intros Hd Hs. apply denotes_bt_iter; [|by apply StronglySorted_filter].
  intros k v. rewrite delete_all_lookup, list_elem_of_filter, <-(Hd k v). simpl. by destruct (decide _); naive_solver.
Qed.
End dels.

Lemma delete_put_all {A} (f g : A -> bytes) (l : list A) : NoDup (f <$> l) -> delete_all f l (put_all f g l ∅) = ∅.
Proof.
  intros Hnd. apply map_eq. intros k. rewrite delete_all_lookup, lookup_empty.
  destruct (decide (k ∈ f <$> l)); [done|]. by apply put_all_lookup_None.
Qed.

Lemma list_filter_filter_comm {A} (P Q : A -> Prop) `{forall x, Decision (P x), forall x, Decision (Q x)} (l : list A) :
  filter P (filter Q l) = filter Q (filter P l).
Proof. rewrite !list_filter_filter. apply list_filter_iff. naive_solver. Qed.

(** ** Ranges of numbers *)

Lemma elem_of_range (lo hi z : Z) : z ∈ range lo hi <-> (lo <= z < hi)%Z.
Proof. unfold range. rewrite elem_of_seqZ. lia. Qed.

Lemma length_range (lo hi : Z) : length (range lo hi) = Z.to_nat (hi - lo).
Proof. apply length_seqZ. Qed.

Lemma NoDup_range (lo hi : Z) : NoDup (range lo hi).
Proof. apply NoDup_seqZ. Qed.

Lemma range_split (lo mid hi : Z) : (lo <= mid <= hi)%Z -> range lo hi = range lo mid ++ range mid hi.
Proof.
  intros H. unfold range. replace (hi - lo)%Z with ((mid - lo) + (hi - mid))%Z by lia.
  rewrite seqZ_app by lia. do 2 f_equal. lia.
Qed.

Lemma range_sorted {B} (R : B -> B -> Prop) (h : Z -> B) (lo hi : Z) :
  (forall a b, (lo <= a < b)%Z -> (b < hi)%Z -> R (h a) (h b)) -> StronglySorted R (h <$> range lo hi).
Proof.
  intros HR. remember (Z.to_nat (hi - lo)) as n eqn:En. revert lo En HR.
  induction n as [|n IH]; intros lo En HR.
  - unfold range. rewrite seqZ_nil by lia. constructor.
  - unfold range. rewrite seqZ_cons by lia. rewrite fmap_cons. constructor.
    + replace (Z.pred (hi - lo)) with (hi - Z.succ lo)%Z by lia. apply (IH (Z.succ lo)); [lia|].
      intros a b Ha Hb. apply HR; lia.
    + apply Forall_forall. intros x (z & -> & Hz%elem_of_seqZ)%list_elem_of_fmap. apply HR; lia.
Qed.

Section padded_range.
Context (prefix : string) (w : nat) (Hw : 0 < w <= 20) (g : Z -> bytes).

Abbreviation key := (fmt_pad prefix w).

Lemma fmt_pad_NoDup (l : list Z) : NoDup l -> Forall (width_bound w) l -> NoDup (key <$> l).
Proof.
  intros Hnd Hl. induction Hnd as [|x l Hx Hnd IH]; [constructor|]. apply Forall_cons in Hl as [Hx' Hl].
  rewrite fmap_cons. constructor; [|by apply IH]. intros (y & Heq & Hy)%list_elem_of_fmap.
  rewrite Forall_forall in Hl. apply (fmt_pad_inj prefix w Hw) in Heq as ->; [done|done|by apply Hl].
Qed.

Lemma padded_sorted (lo hi : Z) : (0 <= lo)%Z -> (hi <= 10 ^ Z.of_nat w)%Z -> StronglySorted key_lt (pairs key g (range lo hi)).
Proof.
  intros Hlo Hhi. apply range_sorted. intros a b Ha Hb. apply (fmt_pad_lt prefix w Hw); unfold width_bound; lia.
Qed.

(** The keys from one number to another. *)
Lemma padded_scan (lo a b hi : Z) :
  (0 <= lo <= a)%Z -> (a <= b <= hi)%Z -> (hi < 10 ^ Z.of_nat w)%Z ->
  filter (in_scan (key a) (key b)) (pairs key g (range lo hi)) = pairs key g (range a b).
Proof.
  intros Ha Hb Hhi. rewrite (range_split lo a hi), (range_split a b hi) by lia. unfold pairs. rewrite !fmap_app, !filter_app.
  assert (forall z, (lo <= z < hi)%Z -> in_scan (key a) (key b) (key z, g z) <-> (a <= z < b)%Z) as Hin.
  { intros z Hz. unfold in_scan. cbn [fst]. rewrite (fmt_pad_le prefix w Hw), (fmt_pad_lt prefix w Hw); unfold width_bound; lia. }
  rewrite (filter_none _ (_ <$> range lo a)), (filter_none _ (_ <$> range b hi)), app_nil_r; cbn [app].
  - apply filter_all. apply Forall_forall. intros e (z & -> & Hz%elem_of_range)%list_elem_of_fmap. apply Hin; lia.
  - apply Forall_forall. intros e (z & -> & Hz%elem_of_range)%list_elem_of_fmap. rewrite Hin; lia.
  - apply Forall_forall. intros e (z & -> & Hz%elem_of_range)%list_elem_of_fmap. rewrite Hin; lia.
Qed.
End padded_range.

Lemma fmt_NoDup (prefix : string) (l : list Z) : NoDup l -> Forall in_u64 l -> NoDup (fmt prefix <$> l).
Proof.
  intros Hnd Hl. induction Hnd as [|x l Hx Hnd IH]; [constructor|]. apply Forall_cons in Hl as [Hx' Hl].
  rewrite fmap_cons. constructor; [|by apply IH]. intros (y & Heq & Hy)%list_elem_of_fmap.
  rewrite Forall_forall in Hl. apply fmt_inj in Heq as ->; [done|done|by apply Hl].
Qed.

Lemma sort_keys_unique (ks ks' : list bytes) :
  StronglySorted klt ks' -> ks ≡ₚ ks' -> sort_by bytes_leb ks = ks'.
Proof.
  intros Hs Hp. assert (AntiSymm (=) kle) as Ha by (intros a b; key_order).
  apply (StronglySorted_unique kle).
  - apply sort_by_sorted; [apply bytes_leb_total|apply bytes_leb_trans].
  - eapply StronglySorted_weaken; [|exact Hs]. intros a b Hab. apply kle_iff. by left.
  - by rewrite sort_by_perm.
Qed.

(** ** Sizes *)

Lemma length_bt_iter (kv : gmap bytes bytes) : length (bt_iter kv) = size kv.
Proof.
  unfold bt_iter. by rewrite (Permutation_length (sort_by_perm entry_leb (map_to_list kv))), length_map_to_list.
Qed.

Lemma insert_size (kv : gmap bytes bytes) (k v : bytes) : size (<[k := v]> kv) <= size kv + 1.
Proof. rewrite map_size_insert. destruct (kv !! k); unfold id; lia. Qed.

Lemma delete_size (kv : gmap bytes bytes) (k : bytes) : size (delete k kv) <= size kv.
Proof. rewrite map_size_delete. destruct (kv !! k); unfold id; lia. Qed.
