(* ===== verification/TestRules.v ===== *)
(** * TestRules: the program logic of tests

    The rules of [wpc] for what tests are written with, loops with a reference value that each
    round updates among them, and the step from the logic to a test that passes. *)
From S2P Require Export TestKit.

Section test_rules.
Context {F : FaultModel} {S : Type}.

Implicit Types (s : S) (fs : fsys).

Lemma wpc_must {E A : Type} (m : M S E A) s fs (Q : A -> S -> fsys -> Prop)
    (X : Empty_set -> S -> fsys -> Prop) (C : fsys -> Prop) :
  wpc F m s fs Q (fun _ _ _ => False) C -> wpc F (must m) s fs Q X C.
Proof.
  intros H faults Hf. specialize (H faults Hf). unfold must.
  by destruct (m s _) as [[[a|e| |] s'] w']; destruct H.
Qed.

Lemma wpc_must_some {A : Type} (a : A) s fs (Q : A -> S -> fsys -> Prop)
    (X : Empty_set -> S -> fsys -> Prop) (C : fsys -> Prop) :
  Q a s fs -> wpc F (must_some (Some a)) s fs Q X C.
Proof. apply wpc_ret. Qed.

Lemma wpc_assert (b : bool) s fs (Q : unit -> S -> fsys -> Prop)
    (X : Empty_set -> S -> fsys -> Prop) (C : fsys -> Prop) :
  b = true -> Q tt s fs -> wpc F (assert b) s fs Q X C.
Proof. intros ->. apply wpc_ret. Qed.

Lemma wpc_assert_eq {A : Type} `{EqDecision A} (a b : A) s fs (Q : unit -> S -> fsys -> Prop)
    (X : Empty_set -> S -> fsys -> Prop) (C : fsys -> Prop) :
  a = b -> Q tt s fs -> wpc F (assert_eq a b) s fs Q X C.
Proof. intros ->. apply wpc_assert. by apply bool_decide_eq_true. Qed.

Lemma wpc_look {A : Type} (f : S -> A) s fs (Q : A -> S -> fsys -> Prop)
    (X : Empty_set -> S -> fsys -> Prop) (C : fsys -> Prop) :
  Q (f s) s fs -> wpc F (look f) s fs Q X C.
Proof. intros HQ. unfold look. wpc_step. wpc_step. by wpc_step. Qed.

Lemma wpc_scope {T A : Type} (open : Test unit T) (body : Test T A) s fs (Q : A -> S -> fsys -> Prop)
    (X : Empty_set -> S -> fsys -> Prop) (C : fsys -> Prop) :
  wpc F open tt fs
    (fun t _ fs' => wpc F body t fs' (fun a _ fs2 => Q a s fs2) (fun _ _ _ => False) C)
    (fun _ _ _ => False) C ->
  wpc F (scope open body) s fs Q X C.
Proof.
  intros H. unfold scope. wpc_step. wpc_step. eapply wpc_mono; [exact H| |done|done].
  intros t [] fs' Hb. wpc_step. wpc_step. eapply wpc_mono; [exact Hb| |done|done].
  intros a t' fs2 HQ. by wpc_step.
Qed.

(** ** Loops

    [I n b s fs] says what holds with [n] steps left and the reference value [b]; each round takes
    at most [c] steps. *)
Section loops.
Context {B : Type} (I : nat -> B -> S -> fsys -> Prop) (c : nat).

Lemma wpc_test_for {A : Type} (f : A -> Test S unit) (upd : B -> A -> B) (l : list A) (b : B) (n : nat) s fs
    (Q : unit -> S -> fsys -> Prop) (X : Empty_set -> S -> fsys -> Prop) (C : fsys -> Prop) :
  (forall l1 x l2 n s fs, l = l1 ++ x :: l2 -> I (c + n) (foldl upd b l1) s fs ->
     wpc F (f x) s fs (fun _ s' fs' => I n (upd (foldl upd b l1) x) s' fs') X C) ->
  I (length l * c + n) b s fs -> (forall s' fs', I n (foldl upd b l) s' fs' -> Q tt s' fs') ->
  wpc F (test_for l f) s fs Q X C.
Proof.
  unfold test_for. revert b s fs. induction l as [|x l IH]; intros b s fs Hf HI HQ; cbn [for_each foldl length] in *.
  { wpc_step. by apply HQ. }
  wpc_step. eapply wpc_mono; [apply (Hf [] x l (length l * c + n)); [done|]| |done|done].
  { by replace (c + (length l * c + n)) with (Datatypes.S (length l) * c + n) by lia. }
  intros [] s1 fs1 HI1. apply (IH (upd b x)); [|done|done].
  intros l1 y l2 n' s2 fs2 ->. by apply (Hf (x :: l1) y l2).
Qed.

Lemma wpc_test_fold {A : Type} (f : B -> A -> Test S B) (l : list A) (b : B) (n : nat) s fs
    (Q : B -> S -> fsys -> Prop) (X : Empty_set -> S -> fsys -> Prop) (C : fsys -> Prop) :
  (forall x b n s fs, x ∈ l -> I (c + n) b s fs -> wpc F (f b x) s fs (fun b' s' fs' => I n b' s' fs') X C) ->
  I (length l * c + n) b s fs -> (forall b' s' fs', I n b' s' fs' -> Q b' s' fs') ->
  wpc F (test_fold l f b) s fs Q X C.
Proof.
  revert b s fs. induction l as [|x l IH]; intros b s fs Hf HI HQ; cbn [test_fold length] in *.
  { wpc_step. by apply HQ. }
  wpc_step. eapply wpc_mono; [apply (Hf x b (length l * c + n)); [left|]| |done|done].
  { by replace (c + (length l * c + n)) with (Datatypes.S (length l) * c + n) by lia. }
  intros b1 s1 fs1 HI1. apply IH; [|done|done]. intros y b' n' s2 fs2 Hy. apply Hf. by right.
Qed.
End loops.

(** A loop that only looks. *)
Lemma wpc_test_each {A : Type} (I : nat -> S -> fsys -> Prop) (f : A -> Test S unit) (l : list A) (n : nat) s fs
    (Q : unit -> S -> fsys -> Prop) (X : Empty_set -> S -> fsys -> Prop) (C : fsys -> Prop) :
  (forall x n s fs, x ∈ l -> I (Datatypes.S n) s fs -> wpc F (f x) s fs (fun _ s' fs' => I n s' fs') X C) ->
  I (length l + n) s fs -> (forall s' fs', I n s' fs' -> Q tt s' fs') -> wpc F (test_for l f) s fs Q X C.
Proof.
  intros Hf HI HQ. apply (wpc_test_for (fun n (_ : unit) => I n) 1 f (fun b _ => b) l tt n).
  - intros l1 x l2 n' s' fs' ->. apply Hf. set_solver.
  - by rewrite Nat.mul_1_r.
  - done.
Qed.
End test_rules.

Ltac test_step :=
  first
  [ wpc_step
  | lazymatch goal with
    | |- wpc _ (must _) _ _ _ _ _ => apply wpc_must
    | |- wpc _ (must_some (Some _)) _ _ _ _ _ => apply wpc_must_some
    | |- wpc _ (scope _ _) _ _ _ _ _ => apply wpc_scope
    | |- wpc _ (look _) _ _ _ _ _ => apply wpc_look
    | |- wpc _ (assert _) _ _ _ _ _ => apply wpc_assert
    | |- wpc _ (assert_eq _ _) _ _ _ _ _ => apply wpc_assert_eq
    end ].

Lemma passes_wpc (t : Test unit unit) :
  wpc no_faults t tt tmp_fs (fun _ _ _ => True) (fun _ _ _ => False) (fun _ => False) -> passes t = true.
Proof.
  intros H. apply wpc_no_fault in H as (a & s & fs & Ht & _); [|by intros ??? []|by intros ? []].
  unfold passes. by rewrite Ht.
Qed.
