(* ===== verification/TestsLog.v ===== *)
(** * TestsLog: the unit tests of [record.rs], [segment.rs] and [log.rs] *)
From S2P Require Export TestKit Log.

#[local] Open Scope Z_scope.

(** ** [record.rs] *)

#[export] Instance DecodeOutcome_eq_decision : EqDecision DecodeOutcome.
Proof. solve_decision. Defined.

Definition record_put_roundtrips : Test unit unit :=
  let r := record_put 7 (ascii "key") (ascii "value") in
  let bs := encode r in
  match decode bs with
  | DecodeOk decoded len => assert_eq decoded r;; assert_eq len (length bs)
  | _ => panic
  end.

Definition record_delete_roundtrips : Test unit unit :=
  let r := record_delete 9 (ascii "gone") in
  let bs := encode r in
  match decode bs with
  | DecodeOk decoded _ => assert_eq decoded r
  | _ => panic
  end.

Definition truncated_header_is_incomplete : Test unit unit :=
  let r := record_put 1 (ascii "k") (ascii "v") in
  let bs := encode r in
  assert_eq (decode (take 5 bs)) Incomplete.

Definition truncated_payload_is_incomplete : Test unit unit :=
  let r := record_put 1 (ascii "key") (ascii "value") in
  let bs := encode r in
  assert_eq (decode (take (HEADER_LEN + 1) bs)) Incomplete.

Definition corrupted_byte_is_checksum_mismatch : Test unit unit :=
  let r := record_put 1 (ascii "key") (ascii "value") in
  let bs := encode r in
  let last := (length bs - 1)%nat in
  let bs := alter flip_bits last bs in
  assert_eq (decode bs) ChecksumMismatch.

Definition record_tests : list (Test unit unit) :=
  [record_put_roundtrips; record_delete_roundtrips; truncated_header_is_incomplete;
   truncated_payload_is_incomplete; corrupted_byte_is_checksum_mismatch].

(** ** [segment.rs] *)

Definition segment_test_path : path := path_join tempdir (ascii "seg-0.log").

Definition recovers_all_records_from_a_clean_segment : Test unit unit :=
  let path := segment_test_path in
  scope (must (open_for_append path 0)) (
    must (seg_append (record_put 1 (ascii "a") (ascii "1")));;
    must (seg_append (record_put 2 (ascii "b") (ascii "2")));;
    must (seg_append (record_delete 3 (ascii "a"))));;
  recovered ← must (recover path);
  assert_eq (length (rec_records recovered)) 3%nat;;
  assert (negb (had_torn_tail recovered)).

Definition recovers_up_to_a_torn_tail_and_reports_it : Test unit unit :=
  let path := segment_test_path in
  scope (must (open_for_append path 0)) (
    must (seg_append (record_put 1 (ascii "a") (ascii "1"))));;
  append_to path (replicate 10 x00);;
  recovered ← must (recover path);
  assert_eq (length (rec_records recovered)) 1%nat;;
  assert (had_torn_tail recovered);;
  scope (must (open_for_append path (valid_len recovered))) (
    must (seg_append (record_put 2 (ascii "b") (ascii "2")));;
    recovered_again ← io (must (recover path));
    assert_eq (length (rec_records recovered_again)) 2%nat;;
    assert (negb (had_torn_tail recovered_again))).

Definition append_batch_writes_all_records_recoverable_with_correct_offsets : Test unit unit :=
  let path := segment_test_path in
  scope (must (open_for_append path 0)) (
    let r0 := record_put 1 (ascii "a") (ascii "1") in
    let r1 := record_put 2 (ascii "b") (ascii "2") in
    let records := [r0; r1; record_delete 3 (ascii "a")] in
    offsets ← must (seg_append_batch records);
    assert_eq (offsets !! 0%nat) (Some 0);;
    assert_eq (offsets !! 1%nat) (Some (Z.of_nat (encoded_len r0)));;
    assert_eq (offsets !! 2%nat) (offset ← offsets !! 1%nat; Some (offset + Z.of_nat (encoded_len r1)));;
    recovered ← io (must (recover path));
    assert_eq (rec_records recovered) records;;
    assert (negb (had_torn_tail recovered))).

Definition append_batch_of_one_matches_single_append : Test unit unit :=
  let path := segment_test_path in
  scope (must (open_for_append path 0)) (
    let record := record_put 1 (ascii "k") (ascii "v") in
    offsets ← must (seg_append_batch [record]);
    assert_eq (offsets !! 0%nat) (Some 0);;
    recovered ← io (must (recover path));
    assert_eq (rec_records recovered) [record]).

Definition recovers_up_to_corruption_in_the_middle : Test unit unit :=
  let path := segment_test_path in
  first_len ← scope (must (open_for_append path 0)) (
    must (seg_append (record_put 1 (ascii "a") (ascii "1")));;
    first_len ← look seg_len;
    must (seg_append (record_put 2 (ascii "b") (ascii "2")));;
    mret first_len);
  overwrite path (Z.to_nat (first_len + 1)) [xff];;
  recovered ← must (recover path);
  assert_eq (length (rec_records recovered)) 1%nat;;
  assert (had_torn_tail recovered);;
  assert_eq (Some (valid_len recovered)) (Z.of_nat ∘ encoded_len <$> head (rec_records recovered)).

Definition segment_tests : list (Test unit unit) :=
  [recovers_all_records_from_a_clean_segment; recovers_up_to_a_torn_tail_and_reports_it;
   append_batch_writes_all_records_recoverable_with_correct_offsets;
   append_batch_of_one_matches_single_append; recovers_up_to_corruption_in_the_middle].

(** ** [log.rs] *)

(** [let (mut log, _) = open; body]. *)
Definition with_log {S A : Type} (open : M unit LogError (Log * OpenReport)) (body : Test Log A) : Test S A :=
  scope ('(log, _) ← must open; mret log) body.

Definition log_report {S : Type} (open : M unit LogError (Log * OpenReport)) : Test S OpenReport :=
  '(_, report) ← io (must open); mret report.

Definition appends_and_reopens_preserve_all_records : Test unit unit :=
  with_log (log_open tempdir) (
    must (append_put (ascii "a") (ascii "1"));;
    must (append_put (ascii "b") (ascii "2"));;
    must (append_delete (ascii "a")));;
  report ← log_report (log_open tempdir);
  assert_eq (length (rep_records report)) 3%nat;;
  assert (negb (rep_torn report)).

Definition rolls_over_to_a_new_segment_once_the_size_limit_is_exceeded : Test unit unit :=
  with_log (open_with_segment_size tempdir 200) (
    test_for (range 0 50) (fun i => must (append_put (fmt "key" i) (replicate 20 x00));; mret tt);;
    segments ← look segment_count;
    assert (1 <? segments)%nat;;
    report ← log_report (open_with_segment_size tempdir 200);
    assert_eq (length (rep_records report)) 50%nat).

Definition append_batch_assigns_sequential_seqs_and_all_records_survive_reopen : Test unit unit :=
  with_log (log_open tempdir) (
    records ← must (log_append_batch
      [OpPut (ascii "a") (ascii "1"); OpPut (ascii "b") (ascii "2"); OpDelete (ascii "a")]);
    assert_eq (seq <$> records) [0; 1; 2];;
    next ← look next_seq;
    assert_eq next 3);;
  report ← log_report (log_open tempdir);
  assert_eq (length (rep_records report)) 3%nat.

Definition append_batch_that_would_overflow_the_segment_rolls_over_first : Test unit unit :=
  with_log (open_with_segment_size tempdir 200) (
    must (append_put (ascii "warm") (replicate 20 x00));;
    before_segments ← look segment_count;
    let ops := (fun i => OpPut (fmt "k" i) (replicate 20 x00)) <$> range 0 10 in
    must (log_append_batch ops);;
    segments ← look segment_count;
    assert (before_segments <? segments)%nat;;
    report ← log_report (open_with_segment_size tempdir 200);
    assert_eq (length (rep_records report)) 11%nat).

Definition append_records_verbatim_preserves_the_given_seqs_and_bumps_next_seq_past_the_max : Test unit unit :=
  let records := [record_put 5 (ascii "a") (ascii "1"); record_put 9 (ascii "b") (ascii "2");
                  record_delete 20 (ascii "a")] in
  with_log (log_open tempdir) (
    must (append_records_verbatim records);;
    next ← look next_seq;
    assert_eq next 21);;
  report ← log_report (log_open tempdir);
  assert_eq (seq <$> rep_records report) [5; 9; 20].

Definition append_records_verbatim_of_an_empty_slice_is_a_no_op : Test unit unit :=
  with_log (log_open tempdir) (
    must (append_records_verbatim []);;
    next ← look next_seq;
    assert_eq next 0).

Definition sequence_numbers_are_monotonic_and_survive_reopen : Test unit unit :=
  with_log (log_open tempdir) (
    test_for (range 0 10) (fun i => must (append_put (fmt "k" i) []);; mret tt);;
    next ← look next_seq;
    assert_eq next 10);;
  '(log2, report) ← must (log_open tempdir);
  assert_eq (next_seq log2) 10;;
  test_for (zip (range 0 (Z.of_nat (length (rep_records report)))) (rep_records report)) (fun ir =>
    assert_eq (seq ir.2) ir.1).

Definition log_tests : list (Test unit unit) :=
  [appends_and_reopens_preserve_all_records;
   rolls_over_to_a_new_segment_once_the_size_limit_is_exceeded;
   append_batch_assigns_sequential_seqs_and_all_records_survive_reopen;
   append_batch_that_would_overflow_the_segment_rolls_over_first;
   append_records_verbatim_preserves_the_given_seqs_and_bumps_next_seq_past_the_max;
   append_records_verbatim_of_an_empty_slice_is_a_no_op;
   sequence_numbers_are_monotonic_and_survive_reopen].

(** ** They pass *)

Lemma record_tests_pass : forallb passes record_tests = true.
Proof. vm_compute. reflexivity. Qed.

Lemma segment_tests_pass : forallb passes segment_tests = true.
Proof. vm_compute. reflexivity. Qed.

Lemma log_tests_pass : forallb passes log_tests = true.
Proof. vm_compute. reflexivity. Qed.
