(* ===== verification/TestsStore.v ===== *)
(** * TestsStore: the unit tests of [store.rs] *)
From S2P Require Export TestKit Txn.

(** [{ let mut store = Store::open(dir).unwrap(); body }]. *)
Definition with_store {S A : Type} (dir : path) (body : Test Store A) : Test S A :=
  scope (must (store_open dir)) body.

Definition put_ (key value : String.string) : Test Store unit := must (store_put (ascii key) (ascii value)).

Definition delete_ (key : String.string) : Test Store unit := must (store_delete (ascii key)).

(** [assert_eq!(store.get(key), value)]. *)
Definition assert_get (key : bytes) (value : option bytes) : Test Store unit :=
  found ← look (fun st => store_get st key);
  assert_eq found value.

Definition entry (e : String.string * String.string) : bytes * bytes := (ascii e.1, ascii e.2).

Definition store_put_then_get_round_trips : Test unit unit :=
  with_store tempdir (
    put_ "a" "1";;
    assert_get (ascii "a") (Some (ascii "1"))).

Definition store_delete_makes_get_return_none : Test unit unit :=
  with_store tempdir (
    put_ "a" "1";;
    delete_ "a";;
    assert_get (ascii "a") None).

Definition apply_batch_has_the_same_effect_as_the_same_ops_applied_one_at_a_time : Test unit unit :=
  with_store tempdir (
    must (apply_batch [OpPut (ascii "a") (ascii "1"); OpPut (ascii "b") (ascii "2"); OpDelete (ascii "a")]);;
    batched_a ← look (fun st => store_get st (ascii "a"));
    batched_b ← look (fun st => store_get st (ascii "b"));
    with_store tempdir2 (
      put_ "a" "1";;
      put_ "b" "2";;
      delete_ "a";;
      sequential_a ← look (fun st => store_get st (ascii "a"));
      sequential_b ← look (fun st => store_get st (ascii "b"));
      assert_eq batched_a sequential_a;;
      assert_eq batched_b sequential_b);;
    assert_eq batched_a None;;
    assert_eq batched_b (Some (ascii "2"))).

Definition apply_batch_of_empty_ops_is_a_no_op : Test unit unit :=
  with_store tempdir (
    put_ "a" "1";;
    must (apply_batch []);;
    assert_get (ascii "a") (Some (ascii "1"))).

Definition apply_batch_survives_reopen_exactly_like_sequential_writes : Test unit unit :=
  with_store tempdir (
    must (apply_batch [OpPut (ascii "x") (ascii "1"); OpPut (ascii "y") (ascii "2"); OpDelete (ascii "x")]));;
  with_store tempdir (
    assert_get (ascii "x") None;;
    assert_get (ascii "y") (Some (ascii "2"));;
    torn ← look recovered_from_torn_tail;
    assert (negb torn)).

Definition apply_batch_is_visible_to_scan_and_snapshot_like_individual_writes : Test unit unit :=
  with_store tempdir (
    put_ "user:1" "alice";;
    snap ← look snapshot;
    must (apply_batch [OpPut (ascii "user:2") (ascii "bob"); OpPut (ascii "user:3") (ascii "carol")]);;
    old ← look (fun st => scan_at st (ascii "user:") snap);
    assert_eq old [entry ("user:1", "alice")];;
    now ← look (fun st => scan st (ascii "user:"));
    assert_eq now (entry <$> [("user:1", "alice"); ("user:2", "bob"); ("user:3", "carol")])).

Definition snapshot_isolates_reads_from_later_writes : Test unit unit :=
  with_store tempdir (
    put_ "a" "1";;
    snap ← look snapshot;
    put_ "a" "2";;
    delete_ "a";;
    old ← look (fun st => get_at st (ascii "a") snap);
    assert_eq old (Some (ascii "1"));;
    assert_get (ascii "a") None).

Definition store_scan_returns_live_keys_with_prefix_in_order : Test unit unit :=
  with_store tempdir (
    put_ "user:1" "alice";;
    put_ "user:2" "bob";;
    put_ "order:1" "widget";;
    delete_ "user:2";;
    results ← look (fun st => scan st (ascii "user:"));
    assert_eq results [entry ("user:1", "alice")]).

Definition reopening_after_writes_recovers_full_state : Test unit unit :=
  with_store tempdir (
    put_ "a" "1";;
    put_ "b" "2";;
    delete_ "a");;
  with_store tempdir (
    assert_get (ascii "a") None;;
    assert_get (ascii "b") (Some (ascii "2"));;
    torn ← look recovered_from_torn_tail;
    assert (negb torn)).

Definition compact_preserves_live_values_and_drops_tombstoned_keys : Test unit unit :=
  with_store tempdir (
    put_ "a" "1";;
    put_ "a" "2";;
    put_ "b" "keep";;
    put_ "c" "gone";;
    delete_ "c";;
    report ← must compact;
    assert_eq (live_keys report) 2;;
    assert_get (ascii "a") (Some (ascii "2"));;
    assert_get (ascii "b") (Some (ascii "keep"));;
    assert_get (ascii "c") None).

(** [store.hold_snapshot()], which registers the guard in the shared registry. *)
Definition hold : Test Store SnapshotGuard :=
  st ← get_state;
  let '(guard, st) := hold_snapshot st in
  modify (fun _ => st);;
  mret guard.

(** The end of the scope of a guard. *)
Definition release (guard : SnapshotGuard) : Test Store unit :=
  modify (fun st => set_held (guard_drop guard (held_snapshots st)) st).

Definition compacting_while_a_snapshot_is_held_does_not_break_its_reads : Test unit unit :=
  with_store tempdir (
    put_ "a" "1";;
    put_ "b" "keep";;
    guard ← hold;
    let snapshot := guard_snapshot guard in
    put_ "a" "2";;
    put_ "c" "new-after-snapshot";;
    delete_ "b";;
    must compact;;
    a ← look (fun st => get_at st (ascii "a") snapshot);
    b ← look (fun st => get_at st (ascii "b") snapshot);
    c ← look (fun st => get_at st (ascii "c") snapshot);
    assert_eq a (Some (ascii "1"));;
    assert_eq b (Some (ascii "keep"));;
    assert_eq c None;;
    assert_get (ascii "a") (Some (ascii "2"));;
    assert_get (ascii "b") None;;
    assert_get (ascii "c") (Some (ascii "new-after-snapshot"));;
    release guard).

Definition a_key_deleted_entirely_before_the_held_snapshot_stays_dropped_by_compaction : Test unit unit :=
  with_store tempdir (
    put_ "a" "1";;
    delete_ "a";;
    guard ← hold;
    let snapshot := guard_snapshot guard in
    must compact;;
    a ← look (fun st => get_at st (ascii "a") snapshot);
    assert_eq a None;;
    assert_get (ascii "a") None;;
    release guard).

Definition releasing_a_snapshot_guard_lets_compaction_reclaim_its_versions_again : Test unit unit :=
  with_store tempdir (
    put_ "a" "1";;
    guard ← hold;
    put_ "a" "2";;
    release guard;;
    put_ "a" "3";;
    report ← must compact;
    assert_eq (live_keys report) 1;;
    assert_get (ascii "a") (Some (ascii "3"));;
    with_store tempdir (assert_get (ascii "a") (Some (ascii "3")))).

Definition compacted_state_survives_reopen : Test unit unit :=
  with_store tempdir (
    test_for (range 0 20) (fun i => must (store_put (fmt "k" i) (fmt "v" i)));;
    test_for (range 0 10) (fun i => must (store_delete (fmt "k" i)));;
    must compact);;
  with_store tempdir (
    test_for (range 0 10) (fun i => assert_get (fmt "k" i) None);;
    test_for (range 10 20) (fun i => assert_get (fmt "k" i) (Some (fmt "v" i)))).

(** The sum of [metadata().len()] over the entries of a directory. *)
Definition dir_size {S : Type} (dir : path) : Test S nat :=
  entries ← must (read_dir dir);
  foldr (fun name rest => len ← file_len (path_join dir name); sum ← rest; mret (len + sum)) (mret 0) entries.

Definition compaction_actually_reduces_stored_history : Test unit unit :=
  with_store tempdir (
    test_for (range 0 200) (fun round => must (store_put (ascii "k") (fmt "v" round)));;
    before ← dir_size tempdir;
    must compact;;
    after ← dir_size tempdir;
    assert (after <? before);;
    assert_get (ascii "k") (Some (ascii "v199"))).

Definition you_can_keep_writing_after_compaction : Test unit unit :=
  with_store tempdir (
    put_ "a" "1";;
    must compact;;
    put_ "b" "2";;
    assert_get (ascii "a") (Some (ascii "1"));;
    assert_get (ascii "b") (Some (ascii "2")));;
  with_store tempdir (
    assert_get (ascii "a") (Some (ascii "1"));;
    assert_get (ascii "b") (Some (ascii "2"))).

(** [assert!(path.exists())] and its negation. *)
Definition assert_exists {S : Type} (p : path) (b : bool) : Test S unit :=
  ex ← path_exists p;
  assert_eq ex b.

(** A log in a directory that gets one record, [{ let (mut log, _) = Log::open(dir); .. }]. *)
Definition one_record_log (dir : path) (key value : String.string) : Test unit unit :=
  scope ('(log, _) ← must (log_open dir); mret log) (must (append_put (ascii key) (ascii value));; mret tt).

(** The loop that moves the segments of [dir] to the backup directory. *)
Definition back_up_segments (dir backup_dir : path) : Test unit unit :=
  entries ← must (read_dir dir);
  test_for entries (fun name =>
    if starts_with (ascii "seg-") name && ends_with (ascii ".log") name
    then must (rename_file (path_join dir name) (path_join backup_dir name))
    else mret tt).

Definition a_crash_before_the_commit_marker_leaves_the_original_state_intact : Test unit unit :=
  with_store tempdir (
    put_ "a" "1";;
    put_ "b" "2");;
  let tmp_dir := path_join tempdir COMPACT_TMP_DIR in
  must (create_dir_all tmp_dir);;
  one_record_log tmp_dir "a" "WRONG";;
  assert_exists (path_join tempdir COMPACT_READY_MARKER) false;;
  with_store tempdir (
    assert_get (ascii "a") (Some (ascii "1"));;
    assert_get (ascii "b") (Some (ascii "2")));;
  assert_exists tmp_dir false.

Definition a_crash_after_the_commit_marker_finishes_the_swap_on_reopen : Test unit unit :=
  with_store tempdir (
    put_ "a" "1";;
    put_ "b" "2");;
  let tmp_dir := path_join tempdir COMPACT_TMP_DIR in
  must (create_dir_all tmp_dir);;
  one_record_log tmp_dir "a" "COMPACTED";;
  must (write_empty_file (path_join tempdir COMPACT_READY_MARKER));;
  with_store tempdir (
    assert_get (ascii "a") (Some (ascii "COMPACTED"));;
    assert_get (ascii "b") None);;
  assert_exists (path_join tempdir COMPACT_READY_MARKER) false;;
  assert_exists tmp_dir false;;
  assert_exists (path_join tempdir COMPACT_OLD_BACKUP_DIR) false.

Definition a_crash_mid_swap_after_backup_but_before_move_still_finishes_correctly : Test unit unit :=
  with_store tempdir (put_ "a" "1");;
  let tmp_dir := path_join tempdir COMPACT_TMP_DIR in
  must (create_dir_all tmp_dir);;
  one_record_log tmp_dir "a" "COMPACTED";;
  must (write_empty_file (path_join tempdir COMPACT_READY_MARKER));;
  let backup_dir := path_join tempdir COMPACT_OLD_BACKUP_DIR in
  must (create_dir_all backup_dir);;
  back_up_segments tempdir backup_dir;;
  with_store tempdir (assert_get (ascii "a") (Some (ascii "COMPACTED")));;
  assert_exists backup_dir false;;
  assert_exists tmp_dir false.

Definition a_crash_after_move_but_before_backup_cleanup_still_finishes_correctly : Test unit unit :=
  with_store tempdir (put_ "a" "1");;
  must (write_empty_file (path_join tempdir COMPACT_READY_MARKER));;
  let backup_dir := path_join tempdir COMPACT_OLD_BACKUP_DIR in
  must (create_dir_all backup_dir);;
  back_up_segments tempdir backup_dir;;
  one_record_log tempdir "a" "COMPACTED";;
  with_store tempdir (assert_get (ascii "a") (Some (ascii "COMPACTED")));;
  assert_exists backup_dir false;;
  assert_exists (path_join tempdir COMPACT_READY_MARKER) false.

Definition a_crash_after_full_cleanup_except_the_marker_is_still_idempotent : Test unit unit :=
  with_store tempdir (
    put_ "a" "1";;
    must compact);;
  must (write_empty_file (path_join tempdir COMPACT_READY_MARKER));;
  with_store tempdir (assert_get (ascii "a") (Some (ascii "1")));;
  assert_exists (path_join tempdir COMPACT_READY_MARKER) false.

Definition store_tests : list (Test unit unit) :=
  [store_put_then_get_round_trips; store_delete_makes_get_return_none;
   apply_batch_has_the_same_effect_as_the_same_ops_applied_one_at_a_time;
   apply_batch_of_empty_ops_is_a_no_op; apply_batch_survives_reopen_exactly_like_sequential_writes;
   apply_batch_is_visible_to_scan_and_snapshot_like_individual_writes;
   snapshot_isolates_reads_from_later_writes; store_scan_returns_live_keys_with_prefix_in_order;
   reopening_after_writes_recovers_full_state; compact_preserves_live_values_and_drops_tombstoned_keys;
   compacting_while_a_snapshot_is_held_does_not_break_its_reads;
   a_key_deleted_entirely_before_the_held_snapshot_stays_dropped_by_compaction;
   releasing_a_snapshot_guard_lets_compaction_reclaim_its_versions_again;
   compacted_state_survives_reopen; compaction_actually_reduces_stored_history;
   you_can_keep_writing_after_compaction;
   a_crash_before_the_commit_marker_leaves_the_original_state_intact;
   a_crash_after_the_commit_marker_finishes_the_swap_on_reopen;
   a_crash_mid_swap_after_backup_but_before_move_still_finishes_correctly;
   a_crash_after_move_but_before_backup_cleanup_still_finishes_correctly;
   a_crash_after_full_cleanup_except_the_marker_is_still_idempotent].

Lemma store_tests_pass : forallb passes store_tests = true.
Proof. vm_compute. reflexivity. Qed.
