(* ===== verification/TestsTxn.v ===== *)
(** * TestsTxn: the unit tests of [txn.rs] *)
From S2P Require Export TestsStore.

(** [let ts = TransactionalStore::open(dir).unwrap()]: the shared store is the state. *)
Definition with_ts {A : Type} (body : Test Store A) : Test unit A := scope (must (txn_open tempdir)) body.

Definition begin : Test Store Transaction := txn_begin.

(** [txn.put(key, value)]. *)
Definition buffer_put (key value : String.string) (txn : Transaction) : Transaction :=
  txn_put (ascii key) (ascii value) txn.

(** [assert_eq!(ts.get(key), value)] and [assert_eq!(txn.get(key), value)]. *)
Definition assert_ts_get (key : String.string) (value : option bytes) : Test Store unit :=
  found ← look (fun st => txn_store_get st (ascii key));
  assert_eq found value.

Definition assert_txn_get (txn : Transaction) (key : String.string) (value : option bytes) : Test Store unit :=
  found ← look (fun st => txn_get txn st (ascii key));
  assert_eq found value.

(** The transaction that most tests start with: one put, committed. *)
Definition commit_put (key value : String.string) : Test Store unit :=
  txn ← begin;
  let txn := buffer_put key value txn in
  must (commit txn).

Definition a_transactions_writes_are_invisible_to_others_until_commit : Test unit unit :=
  with_ts (
    txn ← begin;
    let txn := buffer_put "a" "1" txn in
    assert_ts_get "a" None;;
    assert_txn_get txn "a" (Some (ascii "1"));;
    must (commit txn);;
    assert_ts_get "a" (Some (ascii "1"))).

Definition a_transactions_reads_are_pinned_to_its_snapshot : Test unit unit :=
  with_ts (
    commit_put "a" "1";;
    reader ← begin;
    assert_txn_get reader "a" (Some (ascii "1"));;
    writer ← begin;
    let writer := buffer_put "a" "2" writer in
    must (commit writer);;
    assert_txn_get reader "a" (Some (ascii "1"));;
    assert_ts_get "a" (Some (ascii "2"));;
    abort reader).

Definition concurrent_writers_to_the_same_key_the_second_committer_conflicts : Test unit unit :=
  with_ts (
    commit_put "a" "0";;
    first ← begin;
    second ← begin;
    let first := buffer_put "a" "1" first in
    let second := buffer_put "a" "2" second in
    must (commit first);;
    result ← fails (commit second);
    match result with
    | Some (Conflict key) => assert_eq key (ascii "a")
    | _ => panic
    end;;
    assert_ts_get "a" (Some (ascii "1"))).

Definition a_conflict_on_one_key_aborts_the_whole_transaction_not_just_that_key : Test unit unit :=
  with_ts (
    commit_put "a" "0";;
    first ← begin;
    second ← begin;
    let first := buffer_put "a" "1" first in
    must (commit first);;
    let second := buffer_put "a" "conflicting" second in
    let second := buffer_put "b" "should not be applied either" second in
    result ← fails (commit second);
    assert (match result with Some _ => true | None => false end);;
    assert_ts_get "b" None).

Definition disjoint_keys_never_conflict_even_with_overlapping_snapshots : Test unit unit :=
  with_ts (
    first ← begin;
    second ← begin;
    let first := buffer_put "a" "1" first in
    let second := buffer_put "b" "2" second in
    must (commit first);;
    must (commit second);;
    assert_ts_get "a" (Some (ascii "1"));;
    assert_ts_get "b" (Some (ascii "2"))).

Definition compacting_while_a_transaction_is_open_does_not_break_its_reads : Test unit unit :=
  with_ts (
    commit_put "a" "1";;
    reader ← begin;
    assert_txn_get reader "a" (Some (ascii "1"));;
    commit_put "a" "2";;
    must txn_compact;;
    assert_txn_get reader "a" (Some (ascii "1"));;
    assert_ts_get "a" (Some (ascii "2"));;
    abort reader).

Definition aborting_a_transaction_applies_nothing : Test unit unit :=
  with_ts (
    txn ← begin;
    let txn := buffer_put "a" "1" txn in
    abort txn;;
    assert_ts_get "a" None).

Definition committing_a_transaction_with_no_writes_is_a_harmless_no_op : Test unit unit :=
  with_ts (
    txn ← begin;
    result ← fails (commit txn);
    assert (match result with Some _ => false | None => true end)).

Definition txn_tests : list (Test unit unit) :=
  [a_transactions_writes_are_invisible_to_others_until_commit;
   a_transactions_reads_are_pinned_to_its_snapshot;
   concurrent_writers_to_the_same_key_the_second_committer_conflicts;
   a_conflict_on_one_key_aborts_the_whole_transaction_not_just_that_key;
   disjoint_keys_never_conflict_even_with_overlapping_snapshots;
   compacting_while_a_transaction_is_open_does_not_break_its_reads;
   aborting_a_transaction_applies_nothing;
   committing_a_transaction_with_no_writes_is_a_harmless_no_op].

Lemma txn_tests_pass : forallb passes txn_tests = true.
Proof. vm_compute. reflexivity. Qed.
