(* ===== verification/TestsPages.v ===== *)
(** * TestsPages: the unit tests of [page.rs], [page_store.rs], [heap_page_store.rs], [buffer.rs] *)
From S2P Require Export TestKit HeapPageStore Buffer.

(** ** [page.rs] *)

(** [{ let mut page = Page::new(page_type); body }]. *)
Definition with_page {S A : Type} (page_type : PageType) (body : Test Page A) : Test S A :=
  scope (mret (page_new page_type)) body.

(** A method of a page that may change it, unwrapped or not. *)
Definition on_page {A : Type} (f : Page -> Res PageError A * Page) : M Page PageError A := fun p w =>
  let '(r, p') := f p in (r, p', w).

Definition insert_ (record : bytes) : Test Page SlotId := must (on_page (page_insert record)).

(** [assert_eq!(page.get(slot).unwrap(), record)]. *)
Definition assert_record {S : Type} (page : Page) (slot : SlotId) (record : bytes) : Test S unit :=
  found ← must_ok (page_get slot page);
  assert_eq found record.

Definition insert_and_get_round_trips : Test unit unit :=
  with_page Data (
    slot ← insert_ (ascii "hello");
    page ← get_state;
    assert_record page slot (ascii "hello")).

Definition multiple_inserts_get_distinct_slots : Test unit unit :=
  with_page Data (
    s0 ← insert_ (ascii "a");
    s1 ← insert_ (ascii "bb");
    s2 ← insert_ (ascii "ccc");
    assert_eq (s0, s1, s2) (0, 1, 2)%Z;;
    page ← get_state;
    assert_record page s0 (ascii "a");;
    assert_record page s1 (ascii "bb");;
    assert_record page s2 (ascii "ccc")).

Definition delete_makes_slot_invalid : Test unit unit :=
  with_page Data (
    slot ← insert_ (ascii "x");
    must (on_page (page_delete slot));;
    page ← get_state;
    match page_get slot page with
    | Err e => assert_eq e (InvalidSlot slot)
    | _ => panic
    end).

(** The loop that fills the page. It ends by a break; the fuel is the number of slots a page could
    have at most, and without it the test fails. *)
Fixpoint fill_page (fuel : nat) (record : bytes) (count : nat) : Test Page nat :=
  match fuel with
  | O => panic
  | Datatypes.S fuel' =>
      result ← fails (on_page (page_insert record));
      match result with
      | None => fill_page fuel' record (count + 1)
      | Some (Full _ _) => mret count
      | Some _ => panic
      end
  end.

Definition insert_fails_when_page_is_full : Test unit unit :=
  with_page Data (
    let record := replicate 100 x00 in
    count ← fill_page (PAGE_SIZE / SLOT_LEN) record 0;
    assert (0 <? count);;
    result ← fails (on_page (page_insert record));
    assert (match result with Some _ => true | None => false end)).

Definition encode_decode_round_trips : Test unit unit :=
  with_page BTreeLeaf (
    insert_ (ascii "key1:value1");;
    insert_ (ascii "key2:value2");;
    bs ← look page_encode;
    decoded ← must_ok (page_decode bs);
    assert_eq (page_type decoded) BTreeLeaf;;
    assert_record decoded 0 (ascii "key1:value1");;
    assert_record decoded 1 (ascii "key2:value2")).

(** The value of the last [matches!] of the source is not used. *)
Definition corrupted_byte_fails_checksum : Test unit unit :=
  with_page Data (
    insert_ (ascii "data");;
    bs ← look page_encode;
    let bs := alter flip_bits (PAGE_SIZE - 1) bs in
    match page_decode bs with
    | Err _ => mret tt
    | _ => panic
    end).

Definition slot_ids_skips_deleted : Test unit unit :=
  with_page Data (
    s0 ← insert_ (ascii "a");
    s1 ← insert_ (ascii "b");
    must (on_page (page_delete s0));;
    live ← look slot_ids;
    assert_eq live (Some [s1])).

Definition page_tests : list (Test unit unit) :=
  [insert_and_get_round_trips; multiple_inserts_get_distinct_slots; delete_makes_slot_invalid;
   insert_fails_when_page_is_full; encode_decode_round_trips; corrupted_byte_fails_checksum;
   slot_ids_skips_deleted].

(** ** [page_store.rs] *)

Section page_store_tests.
Context {St Er : Type} `{PageStore St Er}.

(** [let mut page = Page::new(Data); page.insert(record); store.write_page(id, &page)]. *)
Definition write_record (id : PageId) (record : bytes) : Test St unit :=
  page ← with_page Data (insert_ record;; get_state);
  must (write_page id page).

(** [store.read_page(id).unwrap().unwrap().get(0).unwrap()], compared. *)
Definition assert_first_record (id : PageId) (record : bytes) : Test St unit :=
  read ← must (read_page id);
  page ← must_some read;
  assert_record page 0 record.

(** An allocated page with one record. *)
Definition new_record_page (record : bytes) : Test St PageId :=
  id ← must allocate_page_id;
  write_record id record;;
  mret id.

(** Five allocated pages without records. *)
Definition five_pages : Test St unit :=
  test_for (range 0 5) (fun _ =>
    id ← must allocate_page_id;
    must (write_page id (page_new Data))).
End page_store_tests.

Definition mem_store_round_trips : Test unit unit :=
  scope (mret mem_new) (
    id ← new_record_page (ascii "hi");
    assert_first_record id (ascii "hi")).

Definition log_store_persists_across_reopen : Test unit unit :=
  id ← scope (must (lps_open tempdir)) (new_record_page (ascii "durable"));
  scope (must (lps_open tempdir)) (assert_first_record id (ascii "durable")).

Definition log_store_next_id_survives_reopen : Test unit unit :=
  scope (must (lps_open tempdir)) five_pages;;
  scope (must (lps_open tempdir)) (
    id ← must lps_allocate_page_id;
    assert_eq id 6%Z).

Definition writing_a_new_version_of_a_page_does_not_lose_history_in_the_log : Test unit unit :=
  scope (must (lps_open tempdir)) (
    id ← new_record_page (ascii "version-1");
    write_record id (ascii "version-2");;
    assert_first_record id (ascii "version-2")).

Definition page_store_tests : list (Test unit unit) :=
  [mem_store_round_trips; log_store_persists_across_reopen; log_store_next_id_survives_reopen;
   writing_a_new_version_of_a_page_does_not_lose_history_in_the_log].

(** ** [heap_page_store.rs] *)

Definition with_heap {S A : Type} (body : Test HeapPageStore A) : Test S A :=
  scope (must (hps_open tempdir)) body.

Definition round_trips_a_page : Test unit unit :=
  with_heap (
    id ← new_record_page (ascii "hello");
    assert_first_record id (ascii "hello")).

Definition missing_page_returns_none_not_an_error : Test unit unit :=
  with_heap (
    page ← must (hps_read_page 999);
    assert (match page with None => true | Some _ => false end)).

Definition persists_across_reopen : Test unit unit :=
  id ← with_heap (new_record_page (ascii "durable"));
  with_heap (assert_first_record id (ascii "durable")).

Definition newer_version_of_a_page_wins_after_reopen : Test unit unit :=
  id ← with_heap (
    id ← new_record_page (ascii "v1");
    write_record id (ascii "v2");;
    mret id);
  with_heap (assert_first_record id (ascii "v2")).

Definition a_torn_partial_page_at_the_end_of_the_heap_file_is_discarded_on_reopen : Test unit unit :=
  id ← with_heap (new_record_page (ascii "committed"));
  append_to (heap_path tempdir) (replicate 100 xab);;
  with_heap (assert_first_record id (ascii "committed"));;
  len ← file_len (heap_path tempdir);
  assert_eq (len mod PAGE_SIZE) 0;;
  assert_eq len PAGE_SIZE.

Definition next_page_id_survives_reopen : Test unit unit :=
  with_heap five_pages;;
  with_heap (
    id ← must hps_allocate_page_id;
    assert_eq id 6%Z).

Definition heap_tests : list (Test unit unit) :=
  [round_trips_a_page; missing_page_returns_none_not_an_error; persists_across_reopen;
   newer_version_of_a_page_wins_after_reopen;
   a_torn_partial_page_at_the_end_of_the_heap_file_is_discarded_on_reopen; next_page_id_survives_reopen].

(** ** [buffer.rs] *)

Definition Pool : Type := BufferPool MemPageStore.

(** [let mut pool = new_pool(capacity)]. *)
Definition with_pool {S A : Type} (capacity : nat) (body : Test Pool A) : Test S A :=
  scope (must_some (pool_new mem_new capacity)) body.

Definition pool_new_page : Test Pool PageId := must (new_page Data).

Definition unpin_ (id : PageId) (dirtied : bool) : Test Pool unit := must (unpin (E := Empty_set) id dirtied).

(** [pool.page_mut(id).unwrap().insert(record).unwrap()]. *)
Definition insert_into (id : PageId) (record : bytes) : Test Pool unit :=
  found ← must (pool_page (E := Empty_set) id);
  page ← must_some found;
  '(_, page) ← on page (insert_ record);
  must (set_page (E := Empty_set) id page).

(** [assert_eq!(pool.page(id).unwrap().get(0).unwrap(), record)]. *)
Definition assert_pool_record (id : PageId) (record : bytes) : Test Pool unit :=
  found ← must (pool_page (E := Empty_set) id);
  page ← must_some found;
  assert_record page 0 record.

(** Pages that are allocated and left alone, [count] of them. *)
Definition churn (count : Z) : Test Pool unit :=
  test_for (range 0 count) (fun _ => id ← pool_new_page; unpin_ id false).

Definition new_page_is_pinned_and_dirty : Test unit unit :=
  with_pool 4 (
    id ← pool_new_page;
    pins ← look (fun pool => pin_count pool id);
    assert_eq pins 1%Z;;
    dirty ← look (fun pool => is_dirty pool id);
    assert dirty).

Definition fetch_after_flush_reads_back_written_data : Test unit unit :=
  with_pool 4 (
    id ← pool_new_page;
    insert_into id (ascii "payload");;
    unpin_ id true;;
    must (pool_flush id);;
    dirty ← look (fun pool => is_dirty pool id);
    assert (negb dirty);;
    churn 8;;
    must (fetch id);;
    assert_pool_record id (ascii "payload")).

Definition clock_eviction_never_evicts_a_pinned_page : Test unit unit :=
  with_pool 2 (
    pinned ← pool_new_page;
    evictable ← pool_new_page;
    unpin_ evictable false;;
    churn 10;;
    found ← must (pool_page (E := Empty_set) pinned);
    assert (match found with Some _ => true | None => false end)).

(** The value of the last [matches!] of the source is not used, here and below. *)
Definition pool_exhausted_when_everything_is_pinned : Test unit unit :=
  with_pool 2 (
    pool_new_page;;
    pool_new_page;;
    err ← fails (new_page Data);
    must_some err;;
    mret tt).

Definition dirty_page_is_flushed_on_eviction : Test unit unit :=
  with_pool 1 (
    id ← pool_new_page;
    insert_into id (ascii "must-survive");;
    unpin_ id true;;
    id2 ← pool_new_page;
    unpin_ id2 false;;
    must (fetch id);;
    assert_pool_record id (ascii "must-survive")).

Definition unpin_without_fetch_is_an_error : Test unit unit :=
  with_pool 2 (
    err ← fails (unpin (E := Empty_set) 999 false);
    must_some err;;
    mret tt).

Definition buffer_tests : list (Test unit unit) :=
  [new_page_is_pinned_and_dirty; fetch_after_flush_reads_back_written_data;
   clock_eviction_never_evicts_a_pinned_page; pool_exhausted_when_everything_is_pinned;
   dirty_page_is_flushed_on_eviction; unpin_without_fetch_is_an_error].

Lemma page_tests_pass : forallb passes page_tests = true.
Proof. vm_compute. reflexivity. Qed.

Lemma page_store_tests_pass : forallb passes page_store_tests = true.
Proof. vm_compute. reflexivity. Qed.

Lemma heap_tests_pass : forallb passes heap_tests = true.
Proof. vm_compute. reflexivity. Qed.

Lemma buffer_tests_pass : forallb passes buffer_tests = true.
Proof. vm_compute. reflexivity. Qed.
