(* ===== verification/TestsTree.v ===== *)
(** * TestsTree: the unit tests of [btree.rs]

    The recursions of the tree get their fuel from the test. *)
From S2P Require Export TestKit BTree.

Section tree_tests.
Context `{Crc32, DirOrder} (fuel : nat).

(** ** [btree.rs] *)

Definition Tree : Type := BufferPool MemPageStore.

(** [{ let mut t = BTree::open(store, capacity).unwrap(); body }]. *)
Definition with_tree_on {St Er : Type} `{PageStore St Er} {S A : Type} (store : St) (capacity : nat)
    (body : Test (BufferPool St) A) : Test S A :=
  scope (must (tree_open store capacity : M unit (BTreeError Er) _)) body.

(** [let mut t = tree(capacity)]. *)
Definition with_tree {S A : Type} (capacity : nat) (body : Test Tree A) : Test S A :=
  with_tree_on mem_new capacity body.

Section tree_calls.
Context {St Er : Type} `{PageStore St Er}.

Definition t_insert (key value : bytes) : Test (BufferPool St) unit :=
  must (tree_insert fuel key value : M _ (BTreeError Er) _).

Definition t_delete (key : bytes) : Test (BufferPool St) bool :=
  must (tree_delete fuel key : M _ (BTreeError Er) _).

(** [assert_eq!(t.get(key).unwrap(), value)]. *)
Definition assert_t_get (key : bytes) (value : option bytes) : Test (BufferPool St) unit :=
  found ← must (tree_get fuel key : M _ (BTreeError Er) _);
  assert_eq found value.

Definition t_scan_all : Test (BufferPool St) (list Entry) := must (scan_all fuel : M _ (BTreeError Er) _).

Definition t_scan_range (start end_ : bytes) : Test (BufferPool St) (list Entry) :=
  must (scan_range fuel start end_ : M _ (BTreeError Er) _).

Definition t_flush : Test (BufferPool St) unit := must (tree_flush : M _ (BTreeError Er) _).

Definition t_depth : Test (BufferPool St) nat := must (tree_depth fuel : M _ (BTreeError Er) _).
End tree_calls.

Definition insert_then_get_round_trips : Test unit unit :=
  with_tree 64 (
    t_insert (ascii "a") (ascii "1");;
    t_insert (ascii "b") (ascii "2");;
    assert_t_get (ascii "a") (Some (ascii "1"));;
    assert_t_get (ascii "b") (Some (ascii "2"));;
    assert_t_get (ascii "missing") None).

Definition upsert_replaces_existing_value : Test unit unit :=
  with_tree 64 (
    t_insert (ascii "a") (ascii "1");;
    t_insert (ascii "a") (ascii "2");;
    assert_t_get (ascii "a") (Some (ascii "2"))).

(** ** A deterministic shuffle *)

(** [v.swap(i, j)], with both indices in range. *)
Definition swap {A : Type} (i j : nat) (v : list A) : list A :=
  match v !! i, v !! j with
  | Some x, Some y => <[i := y]> (<[j := x]> v)
  | _, _ => v
  end.

Definition next_seed (seed : Z) : Z := u64 (u64 (seed * 6364136223846793005) + 1442695040888963407).

(** The body of the loop, for the index [i]. *)
Definition shuffle_step (i : nat) (s : Z * list Z) : Z * list Z :=
  let seed := next_seed s.1 in
  let j := Z.to_nat (Z.shiftr seed 33 mod (Z.of_nat i + 1)) in
  (seed, swap i j s.2).

Definition shuffled_range (start end_ : Z) : list Z :=
  let v := range start end_ in
  (foldr shuffle_step (0x9E3779B97F4A7C15, v)%Z (List.seq 1 (length v - 1))).2.

(** ** The tests *)

Definition value40 : bytes := replicate 40 x76.

(** [expected.sort()]. *)
Definition sort_keys (ks : list bytes) : list bytes := sort_by bytes_leb ks.

Definition many_inserts_force_leaf_and_internal_splits_and_all_keys_survive : Test unit unit :=
  with_tree 512 (
    let n := 20000%Z in
    test_for (range 0 n) (fun i => t_insert (fmt_pad "key" 6 i) value40);;
    test_for (range 0 n) (fun i => assert_t_get (fmt_pad "key" 6 i) (Some value40));;
    depth ← t_depth;
    assert (3 <=? depth)).

(** The keys are digits, so [String::from_utf8] is the identity here and below. *)
Definition scan_all_returns_every_key_in_sorted_order : Test unit unit :=
  with_tree 128 (
    let keys := reverse (range 0 500) in
    test_for keys (fun k => t_insert (fmt_pad "" 5 k) (ascii "v"));;
    scanned ← t_scan_all;
    let scanned_keys := scanned.*1 in
    let expected := sort_keys (fmt_pad "" 5 <$> keys) in
    assert_eq scanned_keys expected).

Definition tree_reopens_from_the_same_store_with_all_data_intact : Test unit unit :=
  with_tree 64 (
    test_for (range 0 50) (fun i => t_insert (fmt "k" i) (fmt "v" i));;
    t_flush).

Definition random_insert_order_matches_a_reference_btreemap : Test unit unit :=
  with_tree 128 (
    model ← test_fold (shuffled_range 0 800) (fun model i =>
      t_insert (fmt_pad "" 6 i) (fmt "v" i);;
      mret (<[fmt_pad "" 6 i := fmt "v" i]> model)) (∅ : gmap bytes bytes);
    test_for (bt_iter model) (fun e => assert_t_get e.1 (Some e.2));;
    scanned ← t_scan_all;
    assert_eq scanned (bt_iter model)).

Definition delete_removes_a_key_and_returns_true : Test unit unit :=
  with_tree 64 (
    t_insert (ascii "a") (ascii "1");;
    t_insert (ascii "b") (ascii "2");;
    deleted ← t_delete (ascii "a");
    assert deleted;;
    assert_t_get (ascii "a") None;;
    assert_t_get (ascii "b") (Some (ascii "2"))).

Definition delete_of_a_missing_key_returns_false_and_changes_nothing : Test unit unit :=
  with_tree 64 (
    t_insert (ascii "a") (ascii "1");;
    deleted ← t_delete (ascii "missing");
    assert (negb deleted);;
    assert_t_get (ascii "a") (Some (ascii "1"))).

Definition deleting_every_key_leaves_an_empty_but_valid_tree : Test unit unit :=
  with_tree 64 (
    test_for (range 0 10) (fun i => t_insert (fmt "k" i) (fmt "v" i));;
    test_for (range 0 10) (fun i => deleted ← t_delete (fmt "k" i); assert deleted);;
    scanned ← t_scan_all;
    assert_eq scanned [];;
    t_insert (ascii "fresh") (ascii "start");;
    assert_t_get (ascii "fresh") (Some (ascii "start"))).

Definition root_shrinks_after_deletes_collapse_it_to_a_single_child : Test unit unit :=
  with_tree 64 (
    test_for (range 0 2000) (fun i => t_insert (fmt_pad "k" 6 i) value40);;
    depth ← t_depth;
    assert (2 <=? depth);;
    test_for (range 0 1990) (fun i => deleted ← t_delete (fmt_pad "k" 6 i); assert deleted);;
    test_for (range 1990 2000) (fun i => assert_t_get (fmt_pad "k" 6 i) (Some value40))).

Definition delete_then_reinsert_survives_reopen : Test unit unit :=
  store ← must (lps_open tempdir);
  with_tree_on store 64 (
    test_for (range 0 50) (fun i => t_insert (fmt "k" i) (fmt "v" i));;
    test_for (range 0 25) (fun i => t_delete (fmt "k" i);; mret tt);;
    t_insert (ascii "new-key") (ascii "new-value");;
    t_flush);;
  store ← must (lps_open tempdir);
  with_tree_on store 64 (
    test_for (range 0 25) (fun i => assert_t_get (fmt "k" i) None);;
    test_for (range 25 50) (fun i => assert_t_get (fmt "k" i) (Some (fmt "v" i)));;
    assert_t_get (ascii "new-key") (Some (ascii "new-value"))).

(** The body of the loop: an insertion, and after every third one the deletion of a key that is
    among the inserted ones. *)
Definition interleaved_step (keys : list Z) (model : gmap bytes bytes) (ik : nat * Z) : Test Tree (gmap bytes bytes) :=
  let '(i, k) := ik in
  t_insert (fmt_pad "" 6 k) (fmt "v" k);;
  let model := <[fmt_pad "" 6 k := fmt "v" k]> model in
  if (i mod 3 =? 0) && (0 <? i) then
    target ← must_some (keys !! (i / 2));
    let delete_target := fmt_pad "" 6 target in
    let expected_found := bool_decide (is_Some (model !! delete_target)) in
    found ← t_delete delete_target;
    assert_eq found expected_found;;
    mret (delete delete_target model)
  else mret model.

Definition interleaved_insert_and_delete_matches_a_reference_btreemap : Test unit unit :=
  with_tree 64 (
    let keys := shuffled_range 0 400 in
    model ← test_fold (imap pair keys) (interleaved_step keys) ∅;
    test_for (bt_iter model) (fun e => assert_t_get e.1 (Some e.2));;
    scanned ← t_scan_all;
    assert_eq scanned (bt_iter model)).

Definition scan_range_returns_half_open_bounded_results_in_order : Test unit unit :=
  with_tree 128 (
    test_for (range 0 50) (fun i => t_insert (fmt_pad "" 3 i) (fmt "v" i));;
    results ← t_scan_range (ascii "010") (ascii "015");
    let keys := results.*1 in
    assert_eq keys (ascii <$> ["010"; "011"; "012"; "013"; "014"])).

Definition scan_range_spans_multiple_leaves_via_sibling_pointers : Test unit unit :=
  with_tree 64 (
    let n := 3000%Z in
    test_for (range 0 n) (fun i => t_insert (fmt_pad "" 6 i) (replicate 20 x76));;
    depth ← t_depth;
    assert (2 <=? depth);;
    results ← t_scan_range (ascii "001000") (ascii "002000");
    assert_eq (length results) 1000;;
    test_for (imap pair results) (fun ie => assert_eq ie.2.1 (fmt_pad "" 6 (1000 + Z.of_nat ie.1)))).

Definition scan_range_matches_scan_all_filtered_to_the_same_bounds : Test unit unit :=
  with_tree 96 (
    let keys := reverse (range 0 600) in
    test_for keys (fun k => t_insert (fmt_pad "" 5 k) (ascii "v"));;
    let start := ascii "00100" in
    let end_ := ascii "00400" in
    ranged ← t_scan_range start end_;
    all ← t_scan_all;
    let expected := filter (fun e => bytes_leb start e.1 && bytes_ltb e.1 end_) all in
    assert_eq ranged expected).

Definition scan_range_after_deletes_reflects_current_state : Test unit unit :=
  with_tree 64 (
    test_for (range 0 200) (fun i => t_insert (fmt_pad "" 4 i) (fmt "v" i));;
    test_for ((fun i => 50 + 2 * i)%Z <$> range 0 25) (fun i => t_delete (fmt_pad "" 4 i);; mret tt);;
    results ← t_scan_range (ascii "0050") (ascii "0100");
    let expected := fmt_pad "" 4 <$> filter (fun i => i mod 2 <> 0)%Z (range 50 100) in
    let actual := results.*1 in
    assert_eq actual expected).

(** The tests of the module, in the order of the source. *)
Definition tree_tests : list (Test unit unit) :=
  [insert_then_get_round_trips; upsert_replaces_existing_value;
   many_inserts_force_leaf_and_internal_splits_and_all_keys_survive;
   scan_all_returns_every_key_in_sorted_order; tree_reopens_from_the_same_store_with_all_data_intact;
   random_insert_order_matches_a_reference_btreemap; delete_removes_a_key_and_returns_true;
   delete_of_a_missing_key_returns_false_and_changes_nothing;
   deleting_every_key_leaves_an_empty_but_valid_tree;
   root_shrinks_after_deletes_collapse_it_to_a_single_child; delete_then_reinsert_survives_reopen;
   interleaved_insert_and_delete_matches_a_reference_btreemap;
   scan_range_returns_half_open_bounded_results_in_order;
   scan_range_spans_multiple_leaves_via_sibling_pointers;
   scan_range_matches_scan_all_filtered_to_the_same_bounds;
   scan_range_after_deletes_reflects_current_state].
End tree_tests.
