(* ===== verification/StoreSession.v ===== *)
(** * StoreSession: programs over a store

    [open_store n ih st fs]: the store [st] denotes the history [ih], its directory is in order, and
    [n] more writes can be numbered. Each call of a test is a step of such a session. *)
From S2P Require Export TestRules CompactProps PageStoreSpec.

(** ** The directory of the tests *)

Lemma tmp_fs_sub (n : bytes) : tmp_fs !! (n :: tempdir) = None.
Proof. unfold tmp_fs. by rewrite !lookup_insert_ne by done. Qed.

Section tmp_fs.
Context `{Crc32, DirOrder}.

Lemma tmp_fs_log : disk_log tmp_fs tempdir ∅.
Proof.
  apply disk_log_empty_dir; [|done|apply tmp_fs_sub].
  intros q Hq. repeat (apply suffix_cons_or in Hq as [->|Hq]; [by eexists|]). apply suffix_nil_inv in Hq as ->. by eexists.
Qed.

Lemma tmp_fs_clean : store_clean tmp_fs tempdir.
Proof.
  split; [by split|by split|done|done|]. intros n [x Hn]. by rewrite tmp_fs_sub in Hn.
Qed.

Lemma tmp_fs_rooted : rooted tmp_fs.
Proof.
  unfold tmp_fs. do 3 (apply rooted_insert; [intros n d [= <- <-]; rewrite ?lookup_insert_ne by done; by eexists|]).
  apply rooted_insert; [done|]. intros n d [x Hx]. by rewrite lookup_empty in Hx.
Qed.
End tmp_fs.

Section store_session.
Context `{Crc32, DirOrder} (dir : path).

Implicit Types (st : Store) (fs : fsys) (ih : list LogRecord) (kv : gmap bytes bytes).

Record open_store (n : nat) ih st fs : Prop := {
  os_inv : exists dh, store_inv st fs dh ih;
  os_dir : st_dir st = dir;
  os_clean : store_clean fs dir;
  os_rooted : rooted fs;
  os_room : (next_of ih + Z.of_nat n < 2 ^ 64)%Z;
  os_segs : (active_id (st_log st) + Z.of_nat n < 2 ^ 64)%Z;
}.

Lemma open_store_mem (n : nat) ih st fs : open_store n ih st fs -> mem_inv st ih.
Proof. intros [[dh Hi] _ _ _ _ _]. apply Hi. Qed.

Lemma open_store_weaken (n n' : nat) ih st fs : n' <= n -> open_store n ih st fs -> open_store n' ih st fs.
Proof. intros Hn [H1 H2 H3 H4 H5 H6]. split; (done || lia). Qed.

(** ** Opening *)

Lemma wpc_os_open_new (n : nat) (X : Empty_set -> unit -> fsys -> Prop) (C : fsys -> Prop) :
  dir = tempdir -> (1 + Z.of_nat n < 2 ^ 64)%Z ->
  wpc no_faults (must (store_open dir)) tt tmp_fs (fun st _ fs' => open_store n [] st fs') X C.
Proof.
  intros Hdir Hn. rewrite Hdir. apply wpc_must. eapply wpc_mono; [apply wpc_rooted; [apply rooted_store_open|apply tmp_fs_rooted|];
    apply (wpc_store_open_new tmp_fs tmp_fs tempdir); [done|apply tmp_fs_log|apply tmp_fs_clean|by split|done|done]| |by intros ? ? ? []|by intros ? []].
  intros st [] fs' ((Hi & Hd & _ & Ha & Hc) & Hr). split; try done; [by eexists|by rewrite Hdir|by rewrite Hdir|unfold next_of; simpl; lia|lia].
Qed.

(** A store that was dropped is opened again. *)
Lemma wpc_os_reopen (n : nat) ih st fs (X : Empty_set -> unit -> fsys -> Prop) (C : fsys -> Prop) :
  open_store n ih st fs ->
  wpc no_faults (must (store_open dir)) tt fs
    (fun st' _ fs' => exists ih', open_store n ih' st' fs' /\ kv_of ih' = kv_of ih) X C.
Proof.
  intros [[dh Hi] Hdir Hc Hr Hn Ha]. pose proof (si_log _ _ _ _ Hi) as Hl.
  assert (store_disk fs dir dh false) as Hd.
  { split; [done| |apply Hi]. rewrite <-Hdir, <-(si_dir _ _ _ _ Hi). by apply log_holds_recoverable. }
  apply wpc_must. eapply wpc_mono; [apply wpc_rooted; [apply rooted_store_open|exact Hr|];
    apply (wpc_store_open_id (F := no_faults) fs dir dh false); [by intros []|exact Hd]| |by intros ? ? ? []|by intros ? [[[] _] _]].
  intros st' [] fs' (((Hi' & Hdir' & _ & _ & Hc') & Hact) & Hr'). exists dh.
  split; [|apply Hi]. split; try done; [by eexists|by rewrite (si_next _ _ _ _ Hi)|].
  pose proof (log_holds_segments _ _ _ Hl) as Hup. rewrite (si_dir _ _ _ _ Hi), Hdir in Hup.
  pose proof (si_log _ _ _ _ Hi') as (ss & rs & Hli).
  pose proof (Hup _ (log_disk_id_u64 _ _ _ _ _ (li_disk _ _ _ _ _ Hli)) Hact). lia.
Qed.

(** ** Writing *)

Lemma wpc_os_batch (n : nat) (ops : list WriteOp) ih st fs (X : StoreError -> Store -> fsys -> Prop) (C : fsys -> Prop) :
  open_store (length ops + n) ih st fs -> 0 < length ops -> Forall wf_op ops ->
  wpc no_faults (apply_batch ops) st fs
    (fun _ st' fs' => open_store n (ih ++ batch_records (next_of ih) ops) st' fs' /\
       held_snapshots st' = held_snapshots st) X C.
Proof.
  intros [[dh Hi] Hdir Hc Hr Hn Ha] Hpos Hops.
  eapply wpc_mono; [apply wpc_rooted; [apply rooted_apply_batch|exact Hr|];
    apply (wpc_and _ _ _ _ _ _ (fun _ st' => (active_id (st_log st') <= active_id (st_log st) + 1)%Z)
    (wpc_apply_batch (F := no_faults) st fs dh ih ops Hi ltac:(lia) Hops ltac:(lia)))| |by intros ? ? ? [[[[] _] _] _]|by intros ? [[[] _] _]].
  { intros w. apply apply_batch_active_id. by eapply log_holds_active_id, Hi. }
  intros [] st' fs' [[(Hi' & Hd' & Hh & Hfr) Ha'] Hr']. split; [|done].
  destruct (next_of_batch ih ops (si_wf _ _ _ _ Hi) Hops) as [_ Hnx]; [lia|].
  split; try done; [by eexists|by rewrite Hd'|by rewrite Hdir in Hfr; eapply store_clean_frame|lia|lia].
Qed.
Lemma wpc_os_write (n : nat) (op : WriteOp) ih st fs (X : StoreError -> Store -> fsys -> Prop) (C : fsys -> Prop) :
  open_store (S n) ih st fs -> wf_op op ->
  wpc no_faults (match op with OpPut k v => store_put k v | OpDelete k => store_delete k end) st fs
    (fun _ st' fs' => open_store n (ih ++ [op_record (next_of ih) op]) st' fs' /\
       held_snapshots st' = held_snapshots st) X C.
Proof.
  intros Ho Hop. pose proof (next_of_range ih) as Hr. pose proof (os_room _ _ _ _ Ho) as Hn.
  destruct (os_inv _ _ _ _ Ho) as [dh Hi]. destruct (log_holds_next _ _ _ (si_log _ _ _ _ Hi)) as [Hseq _].
  pose proof (si_next _ _ _ _ Hi) as Hnx. eapply (wpc_ext _ (apply_batch [op])).
  { intros w. destruct op; [apply store_put_batch|apply store_delete_batch]; lia. }
  apply (wpc_os_batch n [op]); [exact Ho|simpl; lia|by constructor].
Qed.

(** ** What happened since a history

    The store denotes [kv] by a history that continues [ih0]. *)
Definition continues (ih0 ih : list LogRecord) : Prop :=
  exists added, ih = ih0 ++ added /\ Forall (fun r => next_of ih0 <= seq r)%Z added.

Definition since (ih0 : list LogRecord) (n : nat) (kv : gmap bytes bytes) st fs : Prop :=
  exists ih, open_store n ih st fs /\ kv_of ih = kv /\ continues ih0 ih.

Lemma continues_refl ih : continues ih ih.
Proof. exists []. by rewrite app_nil_r. Qed.

Lemma since_refl (n : nat) ih st fs : open_store n ih st fs -> since ih n (kv_of ih) st fs.
Proof. intros Ho. exists ih. split; [done|]. split; [done|apply continues_refl]. Qed.

Lemma continues_batch ih0 ih (ops : list WriteOp) :
  wf_hist ih -> continues ih0 ih -> continues ih0 (ih ++ batch_records (next_of ih) ops).
Proof.
  intros Hwf (added & -> & Ha). exists (added ++ batch_records (next_of (ih0 ++ added)) ops).
  rewrite app_assoc. split; [done|]. apply Forall_app. split; [done|].
  assert (next_of ih0 <= next_of (ih0 ++ added))%Z as Hle.
  { apply next_of_le; [apply next_of_range|by apply wf_hist_app in Hwf as [? _]|].
    intros r Hr. apply next_of_gt; [done|]. set_solver. }
  eapply Forall_impl; [apply batch_records_ge|]. intros r Hr. cbv beta in *. lia.
Qed.

(** The reads of the present, and of a snapshot that was taken at [ih0]. *)
Lemma since_get ih0 (n : nat) kv st fs (k : bytes) : since ih0 n kv st fs -> store_get st k = kv !! k.
Proof. intros (ih & Ho & <- & _). eapply store_get_kv, open_store_mem, Ho. Qed.

Lemma since_scan ih0 (n : nat) kv st fs (p : bytes) : since ih0 n kv st fs -> scan st p = bt_iter (with_prefix p kv).
Proof. intros (ih & Ho & <- & _). eapply scan_kv, open_store_mem, Ho. Qed.

Lemma since_get_at ih0 (n : nat) kv st fs (k : bytes) :
  since ih0 n kv st fs -> get_at st k (mkSnapshot (next_of ih0)) = kv_of ih0 !! k.
Proof.
  intros (ih & Ho & _ & (added & -> & Ha)). pose proof (open_store_mem _ _ _ _ Ho) as Hm.
  rewrite (get_at_kv _ _ _ _ Hm). cbn [as_of_seq]. unfold kv_at. rewrite hist_before_app by done.
  destruct (os_inv _ _ _ _ Ho) as [dh Hi]. pose proof (si_wf _ _ _ _ Hi) as [Hwf _]%wf_hist_app.
  by rewrite hist_before_all by by apply wf_hist_lt_next.
Qed.

Lemma wpc_since_write ih0 (n : nat) (op : WriteOp) kv st fs (X : StoreError -> Store -> fsys -> Prop) (C : fsys -> Prop) :
  since ih0 (S n) kv st fs -> wf_op op ->
  wpc no_faults (match op with OpPut k v => store_put k v | OpDelete k => store_delete k end) st fs
    (fun _ st' fs' => since ih0 n (apply_op kv op) st' fs') X C.
Proof.
  intros (ih & Ho & <- & Hc) Hop. eapply wpc_mono; [by apply wpc_os_write| |done|done].
  intros [] st' fs' [Ho' _]. eexists. split; [exact Ho'|]. split; [apply (kv_of_batch _ [op])|].
  destruct (os_inv _ _ _ _ Ho) as [dh Hi]. apply (continues_batch ih0 ih [op]); [apply Hi|done].
Qed.

(** A snapshot that is held is the present. *)
Lemma since_hold (n : nat) ih st fs (guard : SnapshotGuard) st' :
  open_store n ih st fs -> hold_snapshot st = (guard, st') ->
  guard_snapshot guard = mkSnapshot (next_of ih) /\ since ih n (kv_of ih) st' fs.
Proof.
  intros [[dh Hi] Hdir Hc Hr Hn Ha] [= <- <-]. destruct (log_holds_next _ _ _ (si_log _ _ _ _ Hi)) as [Hseq _].
  split; [simpl; unfold snapshot; by rewrite Hseq, (si_next _ _ _ _ Hi)|].
  apply since_refl. split; try done. exists dh. destruct Hi as [H1 H2 [M1 M2 M3 M4] H4 H5 H6 H7]. split; try done.
Qed.

(** A compaction changes neither. *)
Lemma wpc_since_compact ih0 (n : nat) kv st fs (X : StoreError -> Store -> fsys -> Prop) (C : fsys -> Prop) :
  since ih0 n kv st fs ->
  wpc no_faults compact st fs
    (fun _ st' _ => (forall p, scan st' p = scan st p) /\ (forall k, store_get st' k = store_get st k) /\
       forall k s, get_at st' k s = get_at st k s) X C.
Proof.
  intros (ih & [[dh Hi] Hdir Hc Hr _ _] & _ & _).
  eapply wpc_mono; [apply (wpc_compact st fs dh ih); [by intros []|done|by rewrite Hdir|done]| |done|by intros ? [[] _]].
  by intros rep st' fs' (l & -> & _).
Qed.
End store_session.
