(* ===== verification/TreeSession.v ===== *)
(** * TreeSession: programs over a tree

    [session k kv p fs]: the pool [p] holds a tree that denotes [kv] and [k] more calls can be made
    within the bounds of the counters and the fuel. Each call of the tests is a step of a session. *)
From S2P Require Export TestRules KeyLists TestsTree TreeCapacity.

Section tree_session.
Context `{PageStoreLaws St Er}.

(** The frames of the pool, the pages allocated before the session, the calls of a session at most,
    and the operations on pages that are left for what follows it. *)
Context (cap base K rest : nat).

Definition session_bound : Z := (Z.of_nat base + Z.of_nat (K * (K + 2)))%Z.

Implicit Types (p : BufferPool St) (fs : fsys) (kv : gmap bytes bytes).

(** The page operations of a call, at most. *)
Definition call_cost : nat := tree_cost session_bound + cap.

Definition session (k : nat) kv p fs : Prop :=
  exists h (next : PageId), btree_at h MAX_ENTRY (k * call_cost + rest) cap p fs kv next /\ h + k <= K /\
    (next + Z.of_nat (k * (K + 2)) <= session_bound)%Z.

Lemma session_weaken (k k' : nat) kv p fs : k' <= k -> session k kv p fs -> session k' kv p fs.
Proof.
  intros Hk (h & next & Hb & Hh & Hn). exists h, next. split; [|split; [lia|nia]].
  eapply btree_at_weaken; [|exact Hb]. nia.
Qed.

(** The fuel of each call. *)
Context (fuel : nat) (Hcap : 1 < cap) (Hfuel : Z.to_nat session_bound <= fuel).

(** What a call finds. *)
Lemma session_call (k : nat) kv p fs :
  session (S k) kv p fs -> exists h (next : PageId),
    btree_at h MAX_ENTRY (tree_cost next + cap + (k * call_cost + rest)) cap p fs kv next /\
    Z.to_nat next <= fuel /\ (0 <= next)%Z /\ h + S k <= K /\ (next + Z.of_nat (S k * (K + 2)) <= session_bound)%Z.
Proof.
  intros (h & next & Hb & Hh & Hn). pose proof (btree_at_height _ _ _ _ _ _ _ _ Hb) as (_ & Hpos & _).
  exists h, next. split; [|split; [lia|done]]. eapply btree_at_weaken; [|exact Hb].
  unfold call_cost, tree_cost. nia.
Qed.

Section calls.
Context (k : nat) (kv : gmap bytes bytes) (p : BufferPool St) (fs : fsys).
Context (X : Empty_set -> BufferPool St -> fsys -> Prop) (C : fsys -> Prop).

Lemma wpc_t_get (key : bytes) (value : option bytes) (Q : unit -> BufferPool St -> fsys -> Prop) :
  session (S k) kv p fs -> kv !! key = value -> (forall p' fs', session k kv p' fs' -> Q tt p' fs') ->
  wpc no_faults (assert_t_get fuel key value) p fs Q X C.
Proof.
  intros (h & next & Hb & Hf & Hpos & Hh & Hn)%session_call <- HQ. unfold assert_t_get.
  test_step. test_step. eapply wpc_mono; [apply (wpc_tree_get_at h MAX_ENTRY (k * call_cost + rest) cap p fs kv next fuel key)| |done|done]; [|lia|done|].
  { eapply btree_at_weaken; [|exact Hb]. pose proof (btree_at_height _ _ _ _ _ _ _ _ Hb). unfold tree_cost. lia. }
  intros r p' fs' [-> Hb']. test_step; [done|]. apply HQ. exists h, next. split; [exact Hb'|]. lia.
Qed.

Lemma wpc_t_insert (key value : bytes) (Q : unit -> BufferPool St -> fsys -> Prop) :
  session (S k) kv p fs -> length key + length value <= MAX_ENTRY ->
  (forall p' fs', session k (<[key := value]> kv) p' fs' -> Q tt p' fs') ->
  wpc no_faults (t_insert fuel key value) p fs Q X C.
Proof.
  intros (h & next & Hb & Hf & Hpos & Hh & Hn)%session_call Hlen HQ. unfold t_insert.
  test_step. eapply wpc_mono; [apply (wpc_tree_insert_at h MAX_ENTRY (k * call_cost + rest) cap p fs kv next fuel key value)| | |done]; [|done|done|done| |].
  { eapply btree_at_weaken; [|exact Hb]. pose proof (btree_at_height _ _ _ _ _ _ _ _ Hb). unfold tree_cost, insert_cost. lia. }
  - intros [] p' fs' (h' & next' & Hh' & Hn' & Hb'). apply HQ. exists h', next'. split; [exact Hb'|]. lia.
  - intros e p' fs' [_ Hlim]. lia.
Qed.

Lemma wpc_t_delete (key : bytes) (Q : bool -> BufferPool St -> fsys -> Prop) :
  session (S k) kv p fs ->
  (forall p' fs', session k (delete key kv) p' fs' -> Q (bool_decide (is_Some (kv !! key))) p' fs') ->
  wpc no_faults (t_delete fuel key) p fs Q X C.
Proof.
  intros (h & next & Hb & Hf & Hpos & Hh & Hn)%session_call HQ. unfold t_delete.
  test_step. eapply wpc_mono; [apply (wpc_tree_delete_at h MAX_ENTRY (k * call_cost + rest) cap p fs kv next fuel key)| |done|done]; [|lia|done|].
  { eapply btree_at_weaken; [|exact Hb]. lia. }
  intros r p' fs' (-> & h' & Hh' & Hb'). apply HQ. exists h', next. split; [exact Hb'|]. lia.
Qed.

Lemma wpc_t_scan_all (Q : list Entry -> BufferPool St -> fsys -> Prop) :
  session (S k) kv p fs -> (forall p' fs', session k kv p' fs' -> Q (bt_iter kv) p' fs') ->
  wpc no_faults (t_scan_all fuel) p fs Q X C.
Proof.
  intros (h & next & Hb & Hf & Hpos & Hh & Hn)%session_call HQ. unfold t_scan_all.
  test_step. eapply wpc_mono; [apply (wpc_scan_all_at h MAX_ENTRY (k * call_cost + rest) cap p fs kv next fuel)| |done|done]; [|lia|done|].
  { eapply btree_at_weaken; [|exact Hb]. lia. }
  intros r p' fs' (-> & Hb'). apply HQ. exists h, next. split; [exact Hb'|]. lia.
Qed.

Lemma wpc_t_scan_range (start end_ : bytes) (Q : list Entry -> BufferPool St -> fsys -> Prop) :
  session (S k) kv p fs ->
  (forall p' fs', session k kv p' fs' -> Q (filter (in_scan start end_) (bt_iter kv)) p' fs') ->
  wpc no_faults (t_scan_range fuel start end_) p fs Q X C.
Proof.
  intros (h & next & Hb & Hf & Hpos & Hh & Hn)%session_call HQ. unfold t_scan_range.
  test_step. eapply wpc_mono; [apply (wpc_scan_range_at h MAX_ENTRY (k * call_cost + rest) cap p fs kv next fuel start end_)| |done|done]; [|lia|done|].
  { eapply btree_at_weaken; [|exact Hb]. lia. }
  intros r p' fs' (-> & Hb'). apply HQ. exists h, next. split; [exact Hb'|]. lia.
Qed.

(** [depth] tells at least as many levels as the entries need. *)
Lemma wpc_t_depth (Q : nat -> BufferPool St -> fsys -> Prop) :
  session (S k) kv p fs ->
  (forall d p' fs', 0 < d -> (forall e, (forall k v, kv !! k = Some v -> e <= length k + length v) ->
     size kv <= tree_capacity e (d - 1)) -> session k kv p' fs' -> Q d p' fs') ->
  wpc no_faults (t_depth fuel) p fs Q X C.
Proof.
  intros (h & next & Hb & Hf & Hpos & Hh & Hn)%session_call HQ. unfold t_depth.
  test_step. eapply wpc_mono; [apply (wpc_tree_depth_at h MAX_ENTRY (k * call_cost + rest) cap p fs kv next fuel)| |done|done]; [|lia|done|].
  { eapply btree_at_weaken; [|exact Hb]. pose proof (btree_at_height _ _ _ _ _ _ _ _ Hb). unfold tree_cost. lia. }
  intros d p' fs' (-> & Hb' & Hcount). apply HQ; [lia|by rewrite Nat.add_sub|].
  exists h, next. split; [exact Hb'|]. lia.
Qed.

(** [flush] leaves the pages of the tree in the backend. *)
Lemma wpc_t_flush (Q : unit -> BufferPool St -> fsys -> Prop) :
  session (S k) kv p fs ->
  (forall p' fs' m (next : PageId), ps_view (k * call_cost + rest) (pool_store p') fs' m next ->
     pages_tree MAX_ENTRY m kv next -> (next <= session_bound)%Z -> Q tt p' fs') ->
  wpc no_faults t_flush p fs Q X C.
Proof.
  intros (h & next & Hb & Hf & Hpos & Hh & Hn)%session_call HQ. unfold t_flush.
  test_step. eapply wpc_mono; [apply (wpc_tree_flush MAX_ENTRY (k * call_cost + rest) cap p fs kv next)| |done|done].
  { apply btree_state_at. exists h. eapply btree_at_weaken; [|exact Hb]. lia. }
  intros [] p' fs' (_ & m & Hv & Hm). apply (HQ p' fs' m next); [done|done|lia].
Qed.
End calls.

(** ** Loops of calls *)

Section loops.
Context {A : Type} (f : A -> bytes) (l : list A) (k : nat) (kv : gmap bytes bytes) (p : BufferPool St) (fs : fsys).
Context (Q : unit -> BufferPool St -> fsys -> Prop).
Context (X : Empty_set -> BufferPool St -> fsys -> Prop) (C : fsys -> Prop).

Lemma wpc_insert_all (g : A -> bytes) :
  session (length l + k) kv p fs -> Forall (fun x => length (f x) + length (g x) <= MAX_ENTRY) l ->
  (forall p' fs', session k (put_all f g l kv) p' fs' -> Q tt p' fs') ->
  wpc no_faults (test_for l (fun x => t_insert fuel (f x) (g x))) p fs Q X C.
Proof.
  intros Hs Hl HQ. apply (wpc_test_for session 1 _ (fun m x => <[f x := g x]> m) l kv k); [|by rewrite Nat.mul_1_r|done].
  intros l1 x l2 n p' fs' -> Hs'. apply Forall_app in Hl as [_ [Hx _]%Forall_cons].
  by apply (wpc_t_insert n (put_all f g l1 kv)).
Qed.

Lemma wpc_get_all (v : A -> option bytes) :
  session (length l + k) kv p fs -> (forall x, x ∈ l -> kv !! f x = v x) ->
  (forall p' fs', session k kv p' fs' -> Q tt p' fs') ->
  wpc no_faults (test_for l (fun x => assert_t_get fuel (f x) (v x))) p fs Q X C.
Proof.
  intros Hs Hl HQ. apply (wpc_test_each (fun n => session n kv) _ l k); [|done|done].
  intros x n p' fs' Hx Hs'. apply (wpc_t_get n kv); [done|by apply Hl|done].
Qed.

Lemma wpc_delete_all :
  session (length l + k) kv p fs -> (forall p' fs', session k (delete_all f l kv) p' fs' -> Q tt p' fs') ->
  wpc no_faults (test_for l (fun x => t_delete fuel (f x);; mret tt)) p fs Q X C.
Proof.
  intros Hs HQ. apply (wpc_test_for session 1 _ (fun m x => delete (f x) m) l kv k); [|by rewrite Nat.mul_1_r|done].
  intros l1 x l2 n p' fs' -> Hs'. test_step. eapply (wpc_t_delete n); [exact Hs'|].
  intros p2 fs2 Hs2. by test_step.
Qed.

(** The keys are there to be deleted. *)
Lemma wpc_delete_each :
  session (length l + k) kv p fs -> NoDup (f <$> l) -> (forall x, x ∈ l -> is_Some (kv !! f x)) ->
  (forall p' fs', session k (delete_all f l kv) p' fs' -> Q tt p' fs') ->
  wpc no_faults (test_for l (fun x => deleted ← t_delete fuel (f x); assert deleted)) p fs Q X C.
Proof.
  intros Hs Hnd Hl HQ. apply (wpc_test_for session 1 _ (fun m x => delete (f x) m) l kv k); [|by rewrite Nat.mul_1_r|done].
  intros l1 x l2 n p' fs' -> Hs'. test_step. eapply (wpc_t_delete n); [exact Hs'|].
  intros p2 fs2 Hs2. test_step; [|done]. apply bool_decide_eq_true.
  change (foldl _ kv l1) with (delete_all f l1 kv). rewrite delete_all_lookup, decide_False.
  - apply Hl. set_solver.
  - rewrite fmap_app, fmap_cons in Hnd. apply NoDup_app in Hnd as (_ & Hd & _). intros Hin. apply (Hd _ Hin). left.
Qed.
End loops.

(** ** Opening *)

Section opens.
Context {S A : Type} (s : S) (store : St) (fs : fsys) (m : gmap PageId Page) (next : PageId) (k : nat).
Context (body : Test (BufferPool St) A) (Q : A -> S -> fsys -> Prop).
Context (X : Empty_set -> S -> fsys -> Prop) (C : fsys -> Prop).

Lemma wpc_with_fresh_tree :
  ps_view (4 + (K * call_cost + rest)) store fs m next -> m !! META_PAGE_ID = None -> (0 < next)%Z ->
  (next + 1 <= Z.of_nat base)%Z -> Z.to_nat next + k <= K ->
  (forall p fs', session k ∅ p fs' -> wpc no_faults body p fs' (fun a _ fs2 => Q a s fs2) (fun _ _ _ => False) C) ->
  wpc no_faults (with_tree_on store cap body) s fs Q X C.
Proof.
  intros Hv Hm Hpos Hbase Hk Hbody. unfold with_tree_on. test_step. test_step.
  eapply wpc_mono; [by apply (wpc_tree_open_fresh MAX_ENTRY (K * call_cost + rest) cap store fs m next)| |done|done].
  intros p [] fs' [h Hb]%btree_state_at. apply Hbody. pose proof (btree_at_height _ _ _ _ _ _ _ _ Hb) as (Hh & _ & _).
  exists h, (next + 1)%Z. split; [|split; [lia|unfold session_bound; nia]].
  eapply btree_at_weaken; [|exact Hb]. nia.
Qed.

Lemma wpc_with_tree_again kv :
  ps_view (Datatypes.S (K * call_cost + rest)) store fs m next -> pages_tree MAX_ENTRY m kv next ->
  (next <= Z.of_nat base)%Z -> Z.to_nat next + k <= K ->
  (forall p fs', session k kv p fs' -> wpc no_faults body p fs' (fun a _ fs2 => Q a s fs2) (fun _ _ _ => False) C) ->
  wpc no_faults (with_tree_on store cap body) s fs Q X C.
Proof.
  intros Hv Hm Hbase Hk Hbody. unfold with_tree_on. test_step. test_step.
  eapply wpc_mono; [apply (wpc_tree_open_existing MAX_ENTRY (K * call_cost + rest) cap store fs m kv next Hv Hm); lia| |done|done].
  intros p [] fs' [h Hb]%btree_state_at. apply Hbody. pose proof (btree_at_height _ _ _ _ _ _ _ _ Hb) as (Hh & _ & _).
  exists h, next. split; [|split; [lia|unfold session_bound; nia]].
  eapply btree_at_weaken; [|exact Hb]. nia.
Qed.
End opens.
End tree_session.
