(* ===== verification/TreeClients.v ===== *)
(** * TreeClients: the unit tests of [btree.rs] pass

    Each test is verified as a program over the specification of the tree: no run of the tree is
    evaluated, whatever the number of keys, the splits and the depth that the test asks for. *)
From S2P Require Export StoreSession TreeSession.

(** A call that a test makes with the session [Hs]. *)
Ltac insert_step Hs :=
  try test_step; eapply wpc_t_insert; [| |exact Hs| |]; [lia|eassumption|vm_compute; lia|clear Hs; intros ? ? Hs].

Ltac get_step Hs :=
  try test_step; eapply wpc_t_get; [| |exact Hs| |]; [lia|eassumption|reflexivity|clear Hs; intros ? ? Hs].

Ltac delete_step Hs :=
  test_step; eapply wpc_t_delete; [| |exact Hs|]; [lia|eassumption|clear Hs; intros ? ? Hs].

Ltac scan_step Hs :=
  test_step; eapply wpc_t_scan_all; [| |exact Hs|]; [lia|eassumption|clear Hs; intros ? ? Hs].

Ltac range_step Hs :=
  test_step; eapply wpc_t_scan_range; [| |exact Hs|]; [lia|eassumption|clear Hs; intros ? ? Hs].

Ltac insert_loop F G Hs :=
  cbv zeta; test_step; eapply wpc_insert_all with (f := F) (g := G); [| |exact Hs| |];
  [lia|eassumption|apply Forall_forall|clear Hs].

(** The bound on the size of an entry with padded or plain numbers in its key. *)
Ltac entry_bound :=
  cbn beta;
  repeat match goal with
  | |- context [length (fmt ?p ?i)] =>
      let b := eval vm_compute in (length (ascii p) + 20) in
      let Hl := fresh in
      assert (length (fmt p i) <= b) as Hl by apply length_fmt; generalize dependent (length (fmt p i)); intros
  | |- context [length (fmt_pad ?p ?w ?i)] => rewrite (length_fmt_pad p w) by (lia || (unfold width_bound; lia))
  end; unfold MAX_ENTRY; simpl; lia.

(** ** Trees in memory *)

Section mem_tests.
Context `{Crc32}.
Context (K fuel : nat) (HK : Z.of_nat K = 50000%Z) (Hfuel : Z.to_nat (session_bound 2 K) <= fuel).

Lemma passes_with_tree (cap k : nat) (body : Test Tree unit) :
  1 < cap -> (Z.of_nat cap <= 1000)%Z -> (Z.of_nat k < 50000)%Z ->
  (forall p fs, session cap 2 K 0 k ∅ p fs ->
     wpc no_faults body p fs (fun _ _ _ => True) (fun _ _ _ => False) (fun _ => False)) ->
  passes (with_tree cap body) = true.
Proof.
  intros Hcap Hcap' Hk Hbody. apply passes_wpc. unfold with_tree.
  apply (wpc_with_fresh_tree cap 2 K 0 fuel Hcap Hfuel tt mem_new tmp_fs ∅ 1 k); [|done|lia|lia|lia|exact Hbody].
  apply mem_new_view. unfold call_cost, session_bound, tree_cost. zify. nia.
Qed.

Lemma insert_then_get_passes : passes (insert_then_get_round_trips fuel) = true.
Proof.
  apply (passes_with_tree 64 5); [lia..|]. intros p fs Hs.
  insert_step Hs. insert_step Hs. get_step Hs. get_step Hs. by get_step Hs.
Qed.

Lemma upsert_passes : passes (upsert_replaces_existing_value fuel) = true.
Proof.
  apply (passes_with_tree 64 3); [lia..|]. intros p fs Hs. insert_step Hs. insert_step Hs. by get_step Hs.
Qed.

Lemma delete_removes_passes : passes (delete_removes_a_key_and_returns_true fuel) = true.
Proof.
  apply (passes_with_tree 64 5); [lia..|]. intros p fs Hs. insert_step Hs. insert_step Hs. delete_step Hs.
  test_step. test_step; [done|]. get_step Hs. by get_step Hs.
Qed.

Lemma delete_missing_passes : passes (delete_of_a_missing_key_returns_false_and_changes_nothing fuel) = true.
Proof.
  apply (passes_with_tree 64 3); [lia..|]. intros p fs Hs. insert_step Hs. delete_step Hs.
  test_step. test_step; [done|]. by get_step Hs.
Qed.

Lemma tree_reopens_passes : passes (tree_reopens_from_the_same_store_with_all_data_intact fuel) = true.
Proof.
  apply (passes_with_tree 64 (length (range 0 50) + 1)); [rewrite ?length_range; lia..|]. intros p fs Hs.
  insert_loop (fmt "k") (fmt "v") Hs; [|intros p1 fs1 Hs1].
  { intros i Hi. entry_bound. }
  eapply wpc_t_flush; [| |exact Hs1|]; [lia|eassumption|]. done.
Qed.

Lemma deleting_every_key_passes : passes (deleting_every_key_leaves_an_empty_but_valid_tree fuel) = true.
Proof.
  set (r := range 0 10). assert (NoDup (fmt "k" <$> r)) as Hnd.
  { apply fmt_NoDup; [apply NoDup_range|]. apply Forall_forall. intros i Hi%elem_of_range. width_lia. }
  apply (passes_with_tree 64 (length r + (length r + 3))); [unfold r; rewrite ?length_range; lia..|]. intros p fs Hs.
  insert_loop (fmt "k") (fmt "v") Hs; [|intros p1 fs1 Hs1].
  { intros i Hi. entry_bound. }
  test_step. eapply wpc_delete_each with (f := fmt "k"); [| |exact Hs1| | |]; [lia|eassumption|done| |].
  { intros i Hi. rewrite put_all_lookup by done. by eexists. }
  intros p2 fs2 Hs2. rewrite delete_put_all in Hs2 by done.
  scan_step Hs2. test_step. test_step; [by rewrite bt_iter_empty|]. insert_step Hs2. by get_step Hs2.
Qed.

Lemma padded_range_NoDup (prefix : string) (w : nat) (lo hi : Z) :
  0 < w <= 20 -> (0 <= lo)%Z -> (hi <= 10 ^ Z.of_nat w)%Z -> NoDup (fmt_pad prefix w <$> range lo hi).
Proof.
  intros Hw Hlo Hhi. apply fmt_pad_NoDup; [done|apply NoDup_range|].
  apply Forall_forall. intros i Hi%elem_of_range. unfold width_bound. lia.
Qed.

Lemma many_inserts_passes : passes (many_inserts_force_leaf_and_internal_splits_and_all_keys_survive fuel) = true.
Proof.
  assert (length (range 0 20000) = Z.to_nat 20000) as Hr by by rewrite length_range, Z.sub_0_r.
  assert (NoDup (fmt_pad "key" 6 <$> range 0 20000)) as Hnd by (apply padded_range_NoDup; lia).
  apply (passes_with_tree 512 (length (range 0 20000) + (length (range 0 20000) + 1))); [lia..|]. intros p fs Hs.
  insert_loop (fmt_pad "key" 6) (fun _ : Z => value40) Hs; [|intros p1 fs1 Hs1].
  { intros i Hi%elem_of_range. entry_bound. }
  test_step. eapply wpc_get_all with (f := fmt_pad "key" 6); [| |exact Hs1| |]; [lia|eassumption| |clear Hs1; intros p2 fs2 Hs2].
  { intros i Hi. by rewrite put_all_lookup. }
  test_step. eapply wpc_t_depth; [| |exact Hs2|]; [lia|eassumption|]. intros d p3 fs3 Hd Hcount _.
  test_step; [|done]. apply Nat.leb_le. assert (1 < d - 1); [|lia].
  eapply (tree_capacity_lt 49); [apply Hcount|].
  - intros k v (i & Hi%elem_of_range & -> & ->)%put_all_elem; [entry_bound|done].
  - rewrite put_all_size, Hr by exact Hnd. assert (Z.of_nat (tree_capacity 49 1) = 19312%Z) by by vm_compute. lia.
Qed.

Lemma scan_all_passes : passes (scan_all_returns_every_key_in_sorted_order fuel) = true.
Proof.
  assert (length (reverse (range 0 500)) = Z.to_nat 500) as Hr by by rewrite length_reverse, length_range, Z.sub_0_r.
  pose proof (padded_sorted "" 5 ltac:(lia) (fun _ => ascii "v") 0 500 ltac:(lia) ltac:(lia)) as Hsort.
  apply (passes_with_tree 128 (length (reverse (range 0 500)) + 1)); [lia..|]. intros p fs Hs.
  insert_loop (fmt_pad "" 5) (fun _ : Z => ascii "v") Hs; [|intros p1 fs1 Hs1].
  { intros i Hi. rewrite elem_of_reverse, elem_of_range in Hi. entry_bound. }
  scan_step Hs1. apply wpc_assert_eq; [|done].
  rewrite (put_all_iter _ _ _ (range 0 500)), pairs_keys; [|exact Hsort|apply reverse_Permutation].
  symmetry. apply sort_keys_unique; [|by rewrite reverse_Permutation].
  rewrite <-(pairs_keys (fmt_pad "" 5) (fun _ => ascii "v")). by apply StronglySorted_fmap_iff.
Qed.

Lemma root_shrinks_passes : passes (root_shrinks_after_deletes_collapse_it_to_a_single_child fuel) = true.
Proof.
  assert (length (range 0 2000) = Z.to_nat 2000) as Hr by by rewrite length_range, Z.sub_0_r.
  assert (length (range 0 1990) = Z.to_nat 1990) as Hr1 by by rewrite length_range, Z.sub_0_r.
  assert (NoDup (fmt_pad "k" 6 <$> range 0 2000)) as Hnd by (apply padded_range_NoDup; lia).
  apply (passes_with_tree 64 (length (range 0 2000) + S (length (range 0 1990) + (length (range 1990 2000) + 0))));
    [rewrite ?(length_range 1990); lia..|]. intros p fs Hs.
  insert_loop (fmt_pad "k" 6) (fun _ : Z => value40) Hs; [|intros p1 fs1 Hs1].
  { intros i Hi%elem_of_range. entry_bound. }
  test_step. eapply wpc_t_depth; [| |exact Hs1|]; [lia|eassumption|]. intros d p2 fs2 Hd Hcount Hs2.
  test_step. test_step.
  { apply Nat.leb_le. assert (0 < d - 1); [|lia]. eapply (tree_capacity_lt 47); [apply Hcount|].
    - intros k v (i & Hi%elem_of_range & -> & ->)%put_all_elem; [entry_bound|done].
    - rewrite put_all_size, Hr by exact Hnd. assert (Z.of_nat (tree_capacity 47 0) = 73%Z) by by vm_compute. lia. }
  test_step. eapply wpc_delete_each with (f := fmt_pad "k" 6); [| |exact Hs2| | |]; [lia|eassumption| | |clear Hs2; intros p3 fs3 Hs3].
  { apply padded_range_NoDup; lia. }
  { intros i Hi%elem_of_range. rewrite put_all_lookup; [by eexists|done|]. apply elem_of_range. lia. }
  eapply wpc_get_all with (f := fmt_pad "k" 6); [| |exact Hs3| |]; [lia|eassumption| |done].
  intros i Hi%elem_of_range. rewrite delete_all_lookup, decide_False, put_all_lookup; [done|done|apply elem_of_range; lia|].
  intros (j & Heq & Hj%elem_of_range)%list_elem_of_fmap. apply (fmt_pad_inj "k" 6) in Heq; unfold width_bound; lia.
Qed.

(** ** Shuffles *)

Lemma swap_perm {A} (i j : nat) (v : list A) : swap i j v ≡ₚ v.
Proof.
  unfold swap. destruct (v !! i) as [x|] eqn:Hi; [|done]. destruct (v !! j) as [y|] eqn:Hj; [|done].
  by apply Permutation_insert_swap.
Qed.

Lemma shuffled_range_perm (start end_ : Z) : shuffled_range start end_ ≡ₚ range start end_.
Proof.
  unfold shuffled_range. generalize (List.seq 1 (length (range start end_) - 1)) as l.
  induction l as [|i l IH]; [done|]. cbn [foldr]. unfold shuffle_step at 1. cbn [snd]. by rewrite swap_perm.
Qed.

Lemma elem_of_shuffled_range (start end_ i : Z) : i ∈ shuffled_range start end_ <-> (start <= i < end_)%Z.
Proof. by rewrite shuffled_range_perm, elem_of_range. Qed.

(** The end of the two tests against a reference map. *)
Lemma wpc_matches_model (cap n : nat) (model : gmap bytes bytes) (p : BufferPool MemPageStore) (fs : fsys) :
  1 < cap -> session cap 2 K 0 (n + 1) model p fs -> size model <= n ->
  wpc no_faults (
    test_for (bt_iter model) (fun e => assert_t_get fuel e.1 (Some e.2));;
    scanned ← t_scan_all fuel;
    assert_eq scanned (bt_iter model)) p fs (fun _ _ _ => True) (fun _ _ _ => False) (fun _ => False).
Proof.
  intros Hcap Hs Hn. apply session_weaken with (k' := length (bt_iter model) + 1) in Hs; [|rewrite length_bt_iter; lia].
  test_step. eapply wpc_get_all with (f := fst) (v := fun e => Some e.2); [| |exact Hs| |]; [lia|eassumption| |clear Hs; intros p1 fs1 Hs].
  { intros [k v]. apply elem_of_bt_iter. }
  scan_step Hs. by apply wpc_assert_eq.
Qed.

Lemma random_order_passes : passes (random_insert_order_matches_a_reference_btreemap fuel) = true.
Proof.
  assert (length (shuffled_range 0 800) = 800) as Hr by by rewrite shuffled_range_perm, length_range.
  apply (passes_with_tree 128 1601); [lia..|]. intros p fs Hs. test_step.
  apply (wpc_test_fold (fun n b p fs => size b + n <= 800 /\ session 128 2 K 0 (n + 801) b p fs) 1) with (n := 0).
  - intros i b n p1 fs1 Hi%elem_of_shuffled_range [Hb Hs1]. test_step.
    eapply wpc_t_insert; [| |exact Hs1| |]; [lia|eassumption|entry_bound|]. intros p2 fs2 Hs2. test_step.
    split; [|exact Hs2]. pose proof (insert_size b (fmt_pad "" 6 i) (fmt "v" i)). lia.
  - rewrite Hr. split; [|exact Hs]. rewrite map_size_empty. lia.
  - intros model p1 fs1 [Hm Hs1]. apply (wpc_matches_model 128 800); [lia|exact Hs1|lia].
Qed.

Lemma interleaved_passes : passes (interleaved_insert_and_delete_matches_a_reference_btreemap fuel) = true.
Proof.
  assert (length (imap pair (shuffled_range 0 400)) = 400) as Hr by by rewrite length_imap, shuffled_range_perm, length_range.
  apply (passes_with_tree 64 1201); [lia..|]. intros p fs Hs. cbv zeta. test_step.
  apply (wpc_test_fold (fun n b p fs => 2 * size b + n <= 800 /\ session 64 2 K 0 (n + 401) b p fs) 2) with (n := 0).
  - intros [i z] b n p1 fs1 Hi [Hb Hs1]. apply elem_of_lookup_imap in Hi as (i' & z' & [= <- <-] & Hz).
    assert (0 <= z < 400)%Z as Hz' by by apply elem_of_shuffled_range; eapply list_elem_of_lookup_2.
    change (session 64 2 K 0 (S (S (n + 401))) b p1 fs1) in Hs1. unfold interleaved_step. test_step. eapply wpc_t_insert; [| |exact Hs1| |]; [lia|eassumption|entry_bound|].
    intros p2 fs2 Hs2. pose proof (insert_size b (fmt_pad "" 6 z) (fmt "v" z)) as Hsz. cbv zeta.
    destruct (_ && _).
    + assert (i / 2 < length (shuffled_range 0 400)) as [target ->]%lookup_lt_is_Some_2.
      { apply lookup_lt_Some in Hz. pose proof (Nat.Div0.div_le_upper_bound i 2 i). lia. }
      test_step. test_step. delete_step Hs2. test_step. test_step; [done|]. test_step.
      split; [|exact Hs2].
      pose proof (delete_size (<[fmt_pad "" 6 z := fmt "v" z]> b) (fmt_pad "" 6 target)). lia.
    + test_step. split; [lia|]. eapply session_weaken; [|exact Hs2]. lia.
  - rewrite Hr. split; [|exact Hs]. rewrite map_size_empty. lia.
  - intros model p1 fs1 [Hm Hs1]. apply (wpc_matches_model 64 400); [lia|exact Hs1|lia].
Qed.

(** ** Ranges *)

Lemma scan_range_bounded_passes : passes (scan_range_returns_half_open_bounded_results_in_order fuel) = true.
Proof.
  pose proof (padded_sorted "" 3 ltac:(lia) (fmt "v") 0 50 ltac:(lia) ltac:(lia)) as Hsort.
  apply (passes_with_tree 128 (length (range 0 50) + 1)); [rewrite ?length_range; lia..|]. intros p fs Hs.
  insert_loop (fmt_pad "" 3) (fmt "v") Hs; [|intros p1 fs1 Hs1].
  { intros i Hi%elem_of_range. entry_bound. }
  range_step Hs1. cbv zeta. apply wpc_assert_eq; [|done].
  change (ascii "010") with (fmt_pad "" 3 10). change (ascii "015") with (fmt_pad "" 3 15).
  rewrite (put_all_iter _ _ _ (range 0 50)) by done. rewrite padded_scan by lia. by vm_compute.
Qed.

Lemma scan_range_spans_passes : passes (scan_range_spans_multiple_leaves_via_sibling_pointers fuel) = true.
Proof.
  assert (length (range 0 3000) = Z.to_nat 3000) as Hr by by rewrite length_range, Z.sub_0_r.
  assert (NoDup (fmt_pad "" 6 <$> range 0 3000)) as Hnd by (apply padded_range_NoDup; lia).
  pose proof (padded_sorted "" 6 ltac:(lia) (fun _ => replicate 20 x76) 0 3000 ltac:(lia) ltac:(lia)) as Hsort.
  apply (passes_with_tree 64 (length (range 0 3000) + 2)); [lia..|]. intros p fs Hs.
  insert_loop (fmt_pad "" 6) (fun _ : Z => replicate 20 x76) Hs; [|intros p1 fs1 Hs1].
  { intros i Hi%elem_of_range. entry_bound. }
  test_step. eapply wpc_t_depth; [| |exact Hs1|]; [lia|eassumption|]. intros d p2 fs2 Hd Hcount Hs2.
  test_step. test_step.
  { apply Nat.leb_le. assert (0 < d - 1); [|lia]. eapply (tree_capacity_lt 26); [apply Hcount|].
    - intros k v (i & Hi%elem_of_range & -> & ->)%put_all_elem; [entry_bound|done].
    - rewrite put_all_size, Hr by exact Hnd. assert (Z.of_nat (tree_capacity 26 0) = 119%Z) by by vm_compute. lia. }
  range_step Hs2. change (ascii "001000") with (fmt_pad "" 6 1000). change (ascii "002000") with (fmt_pad "" 6 2000).
  rewrite (put_all_iter _ _ (range 0 3000) _ Hsort (reflexivity _)). rewrite padded_scan by lia.
  test_step. test_step.
  { unfold pairs. rewrite length_fmap, length_range. done. }
  apply (wpc_test_each (fun _ _ _ => True) _ _ 0); [|done|done].
  intros [i [k v]] n p3 fs3 (i' & [k' v'] & [= -> -> ->] & Hi)%elem_of_lookup_imap _. apply wpc_assert_eq; [|done].
  unfold pairs in Hi. apply list_lookup_fmap_Some in Hi as (z & [= -> ->] & Hz). apply lookup_seqZ in Hz as [-> _]. done.
Qed.

Lemma scan_range_matches_passes : passes (scan_range_matches_scan_all_filtered_to_the_same_bounds fuel) = true.
Proof.
  assert (length (reverse (range 0 600)) = Z.to_nat 600) as Hr by by rewrite length_reverse, length_range, Z.sub_0_r.
  apply (passes_with_tree 96 (length (reverse (range 0 600)) + 2)); [lia..|]. intros p fs Hs.
  insert_loop (fmt_pad "" 5) (fun _ : Z => ascii "v") Hs; [|intros p1 fs1 Hs1].
  { intros i Hi. rewrite elem_of_reverse, elem_of_range in Hi. entry_bound. }
  range_step Hs1. scan_step Hs1. cbv zeta. apply wpc_assert_eq; [|done]. apply list_filter_iff.
  intros [k v]. unfold in_scan. by rewrite andb_True, !Is_true_true.
Qed.

Lemma scan_range_after_deletes_passes : passes (scan_range_after_deletes_reflects_current_state fuel) = true.
Proof.
  assert (NoDup (fmt_pad "" 4 <$> range 0 200)) as Hnd by (apply padded_range_NoDup; lia).
  pose proof (padded_sorted "" 4 ltac:(lia) (fmt "v") 0 200 ltac:(lia) ltac:(lia)) as Hsort.
  set (evens := (fun i => 50 + 2 * i)%Z <$> range 0 25).
  apply (passes_with_tree 64 (length (range 0 200) + (length evens + 1))); [rewrite ?length_range; simpl; lia..|]. intros p fs Hs.
  insert_loop (fmt_pad "" 4) (fmt "v") Hs; [|intros p1 fs1 Hs1].
  { intros i Hi%elem_of_range. entry_bound. }
  test_step. eapply wpc_delete_all with (f := fmt_pad "" 4); [| |exact Hs1|]; [lia|eassumption|]. intros p2 fs2 Hs2.
  range_step Hs2. cbv zeta. apply wpc_assert_eq; [|done].
  change (ascii "0050") with (fmt_pad "" 4 50). change (ascii "0100") with (fmt_pad "" 4 100).
  rewrite (delete_all_iter _ _ (pairs (fmt_pad "" 4) (fmt "v") (range 0 200))); [|by apply put_all_denotes|done].
  rewrite list_filter_filter_comm, padded_scan by lia. by vm_compute.
Qed.
End mem_tests.

(** ** A tree over a log *)

Section log_test.
Context `{Crc32, DirOrder}.

#[local] Instance tmp_laws : PageStoreLaws LogPageStore LogPageStoreError := lps_laws tempdir.

(** The bounds of the two sessions; the second one starts with the pages of the first. *)
Context (K fuel : nat) (HK : Z.of_nat K = 10000%Z).

Definition first_bound : nat := Z.to_nat 6562.

Context (Hfuel : Z.to_nat (session_bound first_bound K) <= fuel).

Lemma delete_then_reinsert_passes : passes (delete_then_reinsert_survives_reopen fuel) = true.
Proof.
  apply passes_wpc. unfold delete_then_reinsert_survives_reopen.
  set (rest := Datatypes.S (Datatypes.S (K * call_cost 64 first_bound K + 0))).
  assert (session_bound 2 80 = 6562%Z) as Hb1 by by vm_compute.
  assert (Z.to_nat (session_bound 2 80) <= fuel) as Hf1
    by (rewrite Hb1; unfold session_bound, first_bound in Hfuel; lia).
  assert (NoDup (fmt "k" <$> range 0 50)) as Hnd.
  { apply fmt_NoDup; [apply NoDup_range|]. apply Forall_forall. intros i Hi%elem_of_range. width_lia. }
  test_step. test_step. eapply wpc_mono; [apply (wpc_lps_open_new tempdir (4 + (80 * call_cost 64 2 80 + rest)) tmp_fs tmp_fs);
    [done|apply tmp_fs_log|apply tmp_fs_clean|by split|done|done|]| |done|done].
  { unfold rest, call_cost, tree_cost. rewrite Hb1. unfold session_bound, first_bound. zify. nia. }
  intros store [] fs0 Hv. test_step.
  eapply (wpc_with_fresh_tree (St := LogPageStore) 64 2 80 rest fuel ltac:(lia)); [|exact Hv|done|done|done| |].
  { exact Hf1. }
  { instantiate (1 := length (range 0 50) + (length (range 0 25) + 2)). vm_compute. lia. }
  intros p fs Hs. insert_loop (fmt "k") (fmt "v") Hs; [|clear p fs; intros p fs Hs].
  { intros i Hi. entry_bound. }
  test_step. eapply wpc_delete_all with (f := fmt "k"); [| |exact Hs|]; [lia|eassumption|]. clear p fs Hs. intros p fs Hs.
  insert_step Hs. eapply wpc_t_flush; [| |exact Hs|]; [lia|eassumption|].
  intros p1 fs1 m next Hv1 Hm Hnext. rewrite Hb1 in Hnext.
  test_step. test_step. eapply wpc_mono; [apply (wpc_lps_reopen tempdir _ (pool_store p1) fs1 m next Hv1)| |done|done].
  intros store2 [] fs2 (next2 & Hn2 & Hv2).
  apply (pages_tree_next _ _ _ _ next2) in Hm; [|intros id Hid; apply (lv_fresh _ _ _ _ _ _ Hv2 id Hid)].
  eapply (wpc_with_tree_again (St := LogPageStore) 64 first_bound K 0 fuel ltac:(lia) Hfuel); [exact Hv2|exact Hm| | |].
  { unfold first_bound. lia. }
  { instantiate (1 := length (range 0 25) + (length (range 25 50) + 1)). rewrite !length_range. lia. }
  clear p fs Hs p1 fs1 Hv1. intros p fs Hs.
  test_step. eapply wpc_get_all with (f := fmt "k"); [| |exact Hs| |]; [lia|eassumption| |clear p fs Hs; intros p fs Hs].
  { intros i Hi. rewrite lookup_insert_ne by done. rewrite delete_all_lookup, decide_True; [done|]. by apply list_elem_of_fmap_2. }
  test_step. eapply wpc_get_all with (f := fmt "k"); [| |exact Hs| |]; [lia|eassumption| |clear p fs Hs; intros p fs Hs].
  { intros i Hi%elem_of_range. rewrite lookup_insert_ne by done. rewrite delete_all_lookup, decide_False, put_all_lookup;
      [done|done|apply elem_of_range; lia|].
    intros (j & Heq & Hj%elem_of_range)%list_elem_of_fmap. apply fmt_inj in Heq; [lia|width_lia..]. }
  eapply wpc_t_get; [| |exact Hs| |done]; [lia|eassumption|]. by rewrite lookup_insert_eq.
Qed.
End log_test.

(** The tests of [btree.rs], whatever the checksum and the order of directory listings are. *)
Lemma tree_tests_pass `{Crc32, DirOrder} (fuel : nat) :
  (3000000000 <= Z.of_nat fuel)%Z -> forallb passes (tree_tests fuel) = true.
Proof.
  intros Hfuel. assert (exists K, Z.of_nat K = 50000%Z) as [K HK] by (exists (Z.to_nat 50000); lia).
  assert (exists K', Z.of_nat K' = 10000%Z) as [K' HK'] by (exists (Z.to_nat 10000); lia).
  assert (Z.to_nat (session_bound 2 K) <= fuel) as Hf by (unfold session_bound; nia).
  assert (Z.to_nat (session_bound first_bound K') <= fuel) as Hf' by (unfold session_bound, first_bound; nia).
  unfold tree_tests. cbn [forallb].
  rewrite (insert_then_get_passes K), (upsert_passes K), (many_inserts_passes K), (scan_all_passes K),
    (tree_reopens_passes K), (random_order_passes K), (delete_removes_passes K), (delete_missing_passes K),
    (deleting_every_key_passes K), (root_shrinks_passes K), (delete_then_reinsert_passes K'), (interleaved_passes K),
    (scan_range_bounded_passes K), (scan_range_spans_passes K), (scan_range_matches_passes K),
    (scan_range_after_deletes_passes K) by done.
  done.
Qed.
