(* ===== verification/TestsIndexed.v ===== *)
(** * TestsIndexed: the unit tests of [indexed_store.rs]

    The recursions of the index get their fuel from the test. *)
From S2P Require Export TestKit IndexedStore.

Section indexed_tests.
Context `{Crc32, DirOrder} (fuel : nat).

(** [{ let mut store = open; body }]. *)
Definition with_indexed {S A : Type} (open : M unit IndexedStoreError IndexedStore) (body : Test IndexedStore A) :
    Test S A :=
  scope (must open) body.

Definition open_default : M unit IndexedStoreError IndexedStore := indexed_open fuel tempdir.

Definition i_put (key value : bytes) : Test IndexedStore unit := must (indexed_put fuel key value).

Definition i_delete (key : bytes) : Test IndexedStore unit := must (indexed_delete fuel key).

Definition i_checkpoint : Test IndexedStore unit := must (checkpoint fuel).

(** [store.log.append_put(key, value).unwrap()], which passes the index by. *)
Definition log_only (key value : bytes) : Test IndexedStore unit :=
  zoom is_log set_is_log (must (append_put key value));;
  mret tt.

Definition assert_i_get (key : bytes) (value : option bytes) : Test IndexedStore unit :=
  found ← must (indexed_get fuel key);
  assert_eq found value.

Definition assert_reconciled (n : nat) : Test IndexedStore unit :=
  count ← look reconciled_records;
  assert_eq count n.

Definition indexed_put_then_get_round_trips : Test unit unit :=
  with_indexed open_default (
    i_put (ascii "a") (ascii "1");;
    assert_i_get (ascii "a") (Some (ascii "1"))).

Definition indexed_delete_makes_get_return_none : Test unit unit :=
  with_indexed open_default (
    i_put (ascii "a") (ascii "1");;
    i_delete (ascii "a");;
    assert_i_get (ascii "a") None).

Definition indexed_scan_returns_live_keys_with_prefix_in_order : Test unit unit :=
  with_indexed open_default (
    i_put (ascii "user:2") (ascii "bob");;
    i_put (ascii "user:1") (ascii "alice");;
    i_put (ascii "order:1") (ascii "widget");;
    i_delete (ascii "user:2");;
    results ← must (indexed_scan fuel (ascii "user:"));
    assert_eq results [(ascii "user:1", ascii "alice")]).

Definition reopening_after_a_clean_shutdown_needs_no_reconciliation : Test unit unit :=
  with_indexed open_default (
    i_put (ascii "a") (ascii "1");;
    i_put (ascii "b") (ascii "2");;
    i_checkpoint);;
  with_indexed open_default (assert_reconciled 0).

Definition reopening_reconciles_state_that_committed_to_the_log_but_not_the_index : Test unit unit :=
  with_indexed open_default (
    i_put (ascii "a") (ascii "1");;
    i_checkpoint;;
    log_only (ascii "b") (ascii "2"));;
  with_indexed open_default (
    assert_reconciled 1;;
    assert_i_get (ascii "a") (Some (ascii "1"));;
    assert_i_get (ascii "b") (Some (ascii "2"))).

Definition reconciliation_replays_only_the_unindexed_tail_not_the_whole_log : Test unit unit :=
  with_indexed open_default (
    test_for (range 0 50) (fun i => i_put (fmt "k" i) (fmt "v" i));;
    i_checkpoint;;
    log_only (ascii "unindexed1") (ascii "x");;
    log_only (ascii "unindexed2") (ascii "y"));;
  with_indexed open_default (assert_reconciled 2).

Definition automatic_checkpointing_bounds_reconciliation_to_the_interval_not_the_whole_history : Test unit unit :=
  with_indexed (open_with_options fuel tempdir 64 5) (
    test_for (range 0 12) (fun i => i_put (fmt "k" i) (fmt "v" i)));;
  with_indexed (open_with_options fuel tempdir 64 5) (assert_reconciled 2).

Definition all_values_are_correct_regardless_of_where_a_crash_lands_relative_to_a_checkpoint : Test unit unit :=
  with_indexed (open_with_options fuel tempdir 64 5) (
    test_for (range 0 23) (fun i => i_put (fmt "k" i) (fmt "v" i)));;
  with_indexed (open_with_options fuel tempdir 64 5) (
    test_for (range 0 23) (fun i => assert_i_get (fmt "k" i) (Some (fmt "v" i)))).

(** The tests of the module, in the order of the source. *)
Definition indexed_tests : list (Test unit unit) :=
  [indexed_put_then_get_round_trips; indexed_delete_makes_get_return_none;
   indexed_scan_returns_live_keys_with_prefix_in_order;
   reopening_after_a_clean_shutdown_needs_no_reconciliation;
   reopening_reconciles_state_that_committed_to_the_log_but_not_the_index;
   reconciliation_replays_only_the_unindexed_tail_not_the_whole_log;
   automatic_checkpointing_bounds_reconciliation_to_the_interval_not_the_whole_history;
   all_values_are_correct_regardless_of_where_a_crash_lands_relative_to_a_checkpoint].
End indexed_tests.

Lemma indexed_tests_pass : forallb passes (indexed_tests 16) = true.
Proof. vm_compute. reflexivity. Qed.
