(* ===== verification/TestsCrash.v ===== *)
(** * TestsCrash: crash tests under [tests/]

    They damage the files of a closed store, of pages or of an index as an interrupted write would,
    and open them again. *)
From S2P Require Export TestsStore TestsPages TestsIndexed.

(** [dir.join("seg-0000000000000000.log")]. *)
Definition seg_path (dir : path) : path := path_join dir (ascii "seg-0000000000000000.log").

(** [fs::write(p, bs)]. *)
Definition write_file {S : Type} (p : path) (bs : bytes) : Test S unit :=
  f ← must (open_rw_create p);
  _ ← on f (must (set_len 0);; must (write_all bs));
  mret tt.

Definition hex (l : list Z) : bytes := byte_of_Z <$> l.

(** ** [crash_recovery.rs] *)

Definition assert_torn (b : bool) : Test Store unit :=
  torn ← look recovered_from_torn_tail;
  assert_eq torn b.

Definition crash_mid_write_loses_only_the_incomplete_record : Test unit unit :=
  with_store tempdir (
    put_ "a" "1";;
    put_ "b" "2");;
  append_to (seg_path tempdir) (hex [0xDE; 0xAD; 0xBE; 0xEF; 1; 2; 3]%Z);;
  with_store tempdir (
    assert_torn true;;
    assert_get (ascii "a") (Some (ascii "1"));;
    assert_get (ascii "b") (Some (ascii "2"))).

Definition writes_after_recovery_are_durable_and_readable : Test unit unit :=
  with_store tempdir (put_ "a" "1");;
  append_to (seg_path tempdir) (replicate 12 x00);;
  with_store tempdir (
    assert_torn true;;
    put_ "b" "2");;
  with_store tempdir (
    assert_torn false;;
    assert_get (ascii "a") (Some (ascii "1"));;
    assert_get (ascii "b") (Some (ascii "2"))).

(** The loop over the bytes of the segment: the file is cut, a store is opened and checked, the file
    is restored. *)
Definition at_every_cut (p : path) (check : Test unit unit) : Test unit unit :=
  full_len ← file_len p;
  test_for (List.seq 1 (full_len - 1)) (fun cut =>
    full_bytes ← must (read_file p);
    write_file p (take cut full_bytes);;
    check;;
    write_file p full_bytes).

Definition repeated_crash_injection_never_produces_an_invalid_committed_state : Test unit unit :=
  with_store tempdir (
    test_for (range 0 20) (fun i => must (store_put (fmt "k" i) (fmt "v" i))));;
  at_every_cut (seg_path tempdir) (
    with_store tempdir (
      test_for (range 0 20) (fun i =>
        found ← look (fun st => store_get st (fmt "k" i));
        match found with Some v => assert_eq v (fmt "v" i) | None => mret tt end)));;
  f ← must (open_rw_create (seg_path tempdir));
  _ ← on f (len ← must metadata_len; must (seek len));
  mret tt.

(** ** [page_crash_recovery.rs] *)

Definition a_torn_write_after_a_committed_page_does_not_corrupt_it : Test unit unit :=
  id ← scope (must (lps_open tempdir)) (
    id ← must lps_allocate_page_id;
    '(_, page) ← on (page_new Data) (must (on_page (page_insert (ascii "committed-before-crash"))));
    must (lps_write_page id page);;
    mret id);
  append_to (seg_path tempdir) (replicate 50 xaa);;
  scope (must (lps_open tempdir)) (
    found ← must (lps_read_page id);
    page ← must_some found;
    assert_record page 0 (ascii "committed-before-crash")).

Definition only_the_latest_committed_version_of_a_page_survives_a_crash_between_writes : Test unit unit :=
  id ← scope (must (lps_open tempdir)) (
    id ← must lps_allocate_page_id;
    '(_, v1) ← on (page_new Data) (must (on_page (page_insert (ascii "v1"))));
    must (lps_write_page id v1);;
    '(_, v2) ← on (page_new Data) (must (on_page (page_insert (ascii "v2"))));
    must (lps_write_page id v2);;
    mret id);
  append_to (seg_path tempdir) (replicate 5 x00);;
  scope (must (lps_open tempdir)) (
    found ← must (lps_read_page id);
    page ← must_some found;
    assert_record page 0 (ascii "v2")).

(** ** [indexed_store_crash_recovery.rs] *)

Section indexed_crash.
Context (fuel : nat).

Definition assert_i_torn (b : bool) : Test IndexedStore unit :=
  torn ← look is_torn;
  assert_eq torn b.

Definition log_seg_path : path := seg_path (path_join tempdir (ascii "log")).

Definition a_torn_log_write_is_recovered_and_the_index_stays_consistent_with_it : Test unit unit :=
  with_indexed (open_default fuel) (
    i_put fuel (ascii "a") (ascii "1");;
    i_put fuel (ascii "b") (ascii "2"));;
  append_to log_seg_path (hex [0xDE; 0xAD; 0xBE; 0xEF; 1; 2; 3]%Z);;
  with_indexed (open_default fuel) (
    assert_i_torn true;;
    assert_i_get fuel (ascii "a") (Some (ascii "1"));;
    assert_i_get fuel (ascii "b") (Some (ascii "2"))).

End indexed_crash.

Definition crash_tests : list (Test unit unit) :=
  [crash_mid_write_loses_only_the_incomplete_record; writes_after_recovery_are_durable_and_readable;
   repeated_crash_injection_never_produces_an_invalid_committed_state;
   a_torn_write_after_a_committed_page_does_not_corrupt_it;
   only_the_latest_committed_version_of_a_page_survives_a_crash_between_writes;
   a_torn_log_write_is_recovered_and_the_index_stays_consistent_with_it 16].

Lemma crash_tests_pass : forallb passes crash_tests = true.
Proof. vm_compute. reflexivity. Qed.
