(* ===== verification/PropertyKit.v ===== *)
(** * PropertyKit: random edits of a key-value store

    The property-based tests of the stores draw edits [(k, v, is_delete)] of small numbers, apply
    them to a store and to a [HashMap] of what each touched key should read, and compare. The values
    are ASCII, so that [String::from_utf8] gives them back. *)
From S2P Require Export TestRules KeyLists StoreSpec.

(** A drawn edit; the strategies draw [u8]s and a flag. *)
Definition Drawn : Type := Z * Z * bool.

(** [vec((0..k, 0..v, any::<bool>()), lo..hi)]; the tests draw at most ten keys and values. *)
Definition drawn_edit (bound : Z) (op : Drawn) : Prop := (0 <= op.1.1 < bound)%Z /\ (0 <= op.1.2 < bound)%Z.

Definition drawn_edits_of (bound : Z) (lo hi : nat) (ops : list Drawn) : Prop :=
  lo <= length ops < hi /\ Forall (drawn_edit bound) ops.

(** [HashMap<String, Option<String>>], and the key and the value of an edit: [format!("k{k}")]. *)
Abbreviation Model := (gmap bytes (option bytes)).

Definition drawn_op (op : Drawn) : WriteOp :=
  let '(k, v, is_delete) := op in
  if is_delete : bool then OpDelete (fmt "k" k) else OpPut (fmt "k" k) (fmt "v" v).

Definition note (op : WriteOp) (model : Model) : Model :=
  match op with
  | OpDelete key => <[key := None]> model
  | OpPut key value => <[key := Some value]> model
  end.

(** The loop over the edits: one write of the store and one of the model for each. *)
Definition edits {S : Type} (write : WriteOp -> Test S unit) (ops : list Drawn) (model : Model) : Test S Model :=
  test_fold ops (fun model op => write (drawn_op op);; mret (note (drawn_op op) model)) model.

(** The loop over the model: every key reads as expected. *)
Definition matches {S : Type} (get : bytes -> Test S (option bytes)) (model : Model) : Test S unit :=
  test_for (map_to_list model) (fun e => actual ← get e.1; assert_eq actual e.2).

(** ** Rules *)

(** Every key of the model reads as the model says. *)
Definition tracks (model : Model) (kv : gmap bytes bytes) : Prop := forall k e, model !! k = Some e -> kv !! k = e.

Lemma tracks_empty (kv : gmap bytes bytes) : tracks ∅ kv.
Proof. intros k e. by rewrite lookup_empty. Qed.

Lemma tracks_note (op : WriteOp) (model : Model) (kv : gmap bytes bytes) :
  tracks model kv -> tracks (note op model) (apply_op kv op).
Proof.
  intros Ht k e. destruct op as [key value|key]; simpl.
  - intros [[-> <-]|[Hne Hk]]%lookup_insert_Some; [apply lookup_insert_eq|]. rewrite lookup_insert_ne by done. by apply Ht.
  - intros [[-> <-]|[Hne Hk]]%lookup_insert_Some; [apply lookup_delete_eq|]. rewrite lookup_delete_ne by done. by apply Ht.
Qed.

Lemma note_size (op : WriteOp) (model : Model) : size (note op model) <= size model + 1.
Proof. destruct op; simpl; rewrite map_size_insert; case_match; unfold id; lia. Qed.

(** A drawn entry is short. *)
Definition short_entry (op : WriteOp) : Prop :=
  match op with OpPut k v => length k <= 21 /\ length v <= 21 | OpDelete k => length k <= 21 end.

Lemma drawn_short (op : Drawn) : short_entry (drawn_op op).
Proof.
  destruct op as [[k v] []]; simpl; [apply (length_fmt "k")|split; [apply (length_fmt "k")|apply (length_fmt "v")]].
Qed.

Lemma short_wf (op : WriteOp) : short_entry op -> wf_op op.
Proof. destruct op as [k v|k]; simpl; unfold wf_op; [intros [? ?]|intros ?]; (split; lia) || lia. Qed.

Section rules.
Context {S : Type} (I : nat -> gmap bytes bytes -> S -> fsys -> Prop).

Implicit Types (s : S) (fs : fsys) (kv : gmap bytes bytes) (model : Model).

(** The edits, with [I n kv]: the store denotes [kv] and [n] more writes are possible. *)
Lemma wpc_edits (write : WriteOp -> Test S unit) (ops : list Drawn) (n : nat) kv model s fs
    (Q : Model -> S -> fsys -> Prop) (X : Empty_set -> S -> fsys -> Prop) (C : fsys -> Prop) :
  (forall n op kv s fs, I (Datatypes.S n) kv s fs -> short_entry op ->
     wpc no_faults (write op) s fs (fun _ s' fs' => I n (apply_op kv op) s' fs') X C) ->
  I (length ops + n) kv s fs -> tracks model kv ->
  (forall model' kv' s' fs', I n kv' s' fs' -> tracks model' kv' -> size model' <= size model + length ops -> Q model' s' fs') ->
  wpc no_faults (edits write ops model) s fs Q X C.
Proof.
  intros Hw HI Ht HQ. unfold edits.
  apply (wpc_test_fold (fun n' m s fs => exists kv, I n' kv s fs /\ tracks m kv /\ size m + n' <= size model + (length ops + n)) 1) with (n := n).
  - intros op model1 n' s1 fs1 _ (kv1 & HI1 & Ht1 & Hs1). test_step.
    eapply wpc_mono; [apply (Hw n' (drawn_op op) kv1); [done|apply drawn_short]| |done|done].
    intros [] s2 fs2 HI2. test_step. eexists. split; [exact HI2|]. split; [by apply tracks_note|].
    pose proof (note_size (drawn_op op) model1). lia.
  - exists kv. rewrite Nat.mul_1_r. split; [done|]. split; [done|lia].
  - intros model' s' fs' (kv' & HI' & Ht' & Hs'). eapply HQ; [done|done|lia].
Qed.

Lemma wpc_matches (get : bytes -> Test S (option bytes)) (n : nat) kv model s fs
    (Q : unit -> S -> fsys -> Prop) (X : Empty_set -> S -> fsys -> Prop) (C : fsys -> Prop) :
  (forall n k s fs, I (Datatypes.S n) kv s fs ->
     wpc no_faults (get k) s fs (fun r s' fs' => r = kv !! k /\ I n kv s' fs') X C) ->
  I (size model + n) kv s fs -> tracks model kv -> (forall s' fs', I n kv s' fs' -> Q tt s' fs') ->
  wpc no_faults (matches get model) s fs Q X C.
Proof.
  intros Hg HI Ht HQ. unfold matches. apply (wpc_test_each (fun n => I n kv) _ _ n); [|by rewrite length_map_to_list|done].
  intros [k e] n' s1 fs1 Hin%elem_of_map_to_list HI1. cbn [fst snd]. test_step.
  eapply wpc_mono; [by apply Hg| |done|done]. intros r s2 fs2 [-> HI2]. test_step; [by apply Ht|done].
Qed.
End rules.
