(* ===== verification/PropertyStore.v ===== *)
(** * PropertyStore: the property-based tests of records and of the store hold for every input

    The tests of [tests/property.rs] and [tests/compaction_property.rs], with the drawn values as
    arguments, proved from the specifications of the codec, the store and compaction. *)
From S2P Require Export PropertyKit StoreSession.

(** ** The tests *)

Section tests.
Context `{Crc32}.

Definition record_roundtrips_for_arbitrary_bytes (key value : bytes) (seq : Z) : Test unit unit :=
  let r := record_put seq key value in
  let bs := encode r in
  match decode bs with
  | DecodeOk decoded len => assert_eq decoded r;; assert_eq len (length bs)
  | _ => panic
  end.

(** [cut] is [((bytes.len() - 1) as f64 * cut_ratio) as usize]: the drawn ratio is below one, so it
    is at most [bytes.len() - 1]. *)
Definition truncated_record_never_decodes_as_ok (key value : bytes) (cut : nat) : Test unit unit :=
  let r := record_put 1 key value in
  let bs := encode r in
  if decide (1 < length bs) then
    match decode (take cut bs) with
    | DecodeOk _ _ => panic
    | _ => mret tt
    end
  else mret tt.

(** [store.put(key, value).unwrap()] or [store.delete(key).unwrap()]. *)
Definition write_ (op : WriteOp) : Test Store unit :=
  must (match op with OpPut k v => store_put k v | OpDelete k => store_delete k end).

Definition get_ (key : bytes) : Test Store (option bytes) := look (fun st => store_get st key).
End tests.

Section store_tests.
Context `{Crc32, DirOrder}.

(** [{ let mut store = Store::open(dir.path()).unwrap(); body }]. *)
Definition with_tmp_store {A : Type} (body : Test Store A) : Test unit A := scope (must (store_open tempdir)) body.

Definition store_matches_a_naive_in_memory_model (ops : list Drawn) : Test unit unit :=
  model ← with_tmp_store (edits write_ ops ∅);
  with_tmp_store (matches get_ model).

Definition compaction_never_changes_observable_state (ops : list Drawn) : Test unit unit :=
  with_tmp_store (
    model ← edits write_ ops ∅;
    before ← look (fun st => scan st (ascii "k"));
    must compact;;
    after ← look (fun st => scan st (ascii "k"));
    assert_eq before after;;
    matches get_ model).

(** The guard is dropped with the store, at the end. *)
Definition compacting_with_a_held_snapshot_never_changes_that_snapshots_reads (before after : list Drawn) :
    Test unit unit :=
  with_tmp_store (
    expected ← edits write_ before ∅;
    st ← get_state;
    let '(guard, st') := hold_snapshot st in
    modify (fun _ => st');;
    let snapshot := guard_snapshot guard in
    test_for after (fun op => write_ (drawn_op op));;
    must compact;;
    matches (fun key => look (fun st => get_at st key snapshot)) expected).

(** ** They pass *)

Lemma record_roundtrips_pass (key value : bytes) (seq : Z) :
  length key < 64 -> length value < 64 -> in_u64 seq ->
  passes (record_roundtrips_for_arbitrary_bytes key value seq) = true.
Proof.
  intros Hk Hv Hs. apply passes_wpc. unfold record_roundtrips_for_arbitrary_bytes.
  assert (wf_record (record_put seq key value)) as Hwf by (split; [done|simpl; lia]).
  pose proof (decode_encode_app _ [] Hwf) as Hd. rewrite app_nil_r in Hd. cbv zeta. rewrite Hd.
  test_step. test_step; [done|]. apply wpc_assert_eq; [|done]. by rewrite length_encode.
Qed.

Lemma truncated_record_pass (key value : bytes) (cut : nat) :
  length key < 64 -> length value < 64 -> cut <= length (encode (record_put 1 key value)) - 1 ->
  passes (truncated_record_never_decodes_as_ok key value cut) = true.
Proof.
  intros Hk Hv Hc. apply passes_wpc. unfold truncated_record_never_decodes_as_ok. cbv zeta.
  rewrite length_encode in *. case_decide; [|by test_step].
  assert (wf_record (record_put 1 key value)) as Hwf by (split; simpl; [width_lia|lia]).
  rewrite decode_encode_truncated by (done || lia). by test_step.
Qed.

Section sessions.
Context (ih0 : list LogRecord).

Lemma wpc_write_ (n : nat) (op : WriteOp) (kv : gmap bytes bytes) (st : Store) (fs : fsys)
    (X : Empty_set -> Store -> fsys -> Prop) (C : fsys -> Prop) :
  since tempdir ih0 (S n) kv st fs -> short_entry op ->
  wpc no_faults (write_ op) st fs (fun _ st' fs' => since tempdir ih0 n (apply_op kv op) st' fs') X C.
Proof. intros Hs Ho. apply wpc_must. by eapply wpc_since_write; [exact Hs|apply short_wf]. Qed.

Lemma wpc_get_ (n : nat) (k : bytes) (kv : gmap bytes bytes) (st : Store) (fs : fsys)
    (X : Empty_set -> Store -> fsys -> Prop) (C : fsys -> Prop) :
  since tempdir ih0 n kv st fs ->
  wpc no_faults (get_ k) st fs (fun r st' fs' => r = kv !! k /\ since tempdir ih0 n kv st' fs') X C.
Proof. intros Hs. unfold get_. test_step. split; [by eapply since_get|done]. Qed.
End sessions.
(** The first store of a test. *)
Lemma wpc_with_tmp_store {A : Type} (n : nat) (body : Test Store A) (Q : A -> unit -> fsys -> Prop)
    (X : Empty_set -> unit -> fsys -> Prop) (C : fsys -> Prop) :
  (1 + Z.of_nat n < 2 ^ 64)%Z ->
  (forall st fs, since tempdir [] n ∅ st fs ->
     wpc no_faults body st fs (fun a _ fs' => Q a tt fs') (fun _ _ _ => False) C) ->
  wpc no_faults (with_tmp_store body) tt tmp_fs Q X C.
Proof.
  intros Hn Hb. unfold with_tmp_store. test_step.
  eapply wpc_mono; [by apply (wpc_os_open_new tempdir n (fun _ _ _ => False) C)| |done|done].
  intros st [] fs Ho. by apply Hb, (since_refl tempdir n []).
Qed.

Lemma naive_model_pass (ops : list Drawn) :
  length ops < 40 -> passes (store_matches_a_naive_in_memory_model ops) = true.
Proof.
  intros Hlen. apply passes_wpc. unfold store_matches_a_naive_in_memory_model. test_step.
  apply (wpc_with_tmp_store (length ops + 0)); [lia|]. intros st fs Hs.
  apply (wpc_edits (since tempdir []) write_ ops 0 ∅); [|exact Hs|apply tracks_empty|].
  { intros n op kv st1 fs1. apply wpc_write_. }
  intros model kv st1 fs1 (ih & Ho & <- & _) Ht _. unfold with_tmp_store. test_step.
  eapply wpc_mono; [apply (wpc_os_reopen tempdir 0 ih st1 fs1 (fun _ _ _ => False) (fun _ => False) Ho)| |done|done].
  intros st2 [] fs2 (ih2 & Ho2 & Hkv). rewrite <-Hkv in Ht.
  apply (wpc_matches (fun _ => since tempdir ih2 0) get_ 0 (kv_of ih2)); [|exact (since_refl tempdir 0 ih2 st2 fs2 Ho2)|done|done].
  intros n k st3 fs3. apply wpc_get_.
Qed.

Lemma compaction_pass (ops : list Drawn) :
  length ops < 80 -> passes (compaction_never_changes_observable_state ops) = true.
Proof.
  intros Hlen. apply passes_wpc. unfold compaction_never_changes_observable_state.
  apply (wpc_with_tmp_store (length ops + 0)); [lia|]. intros st fs Hs. test_step.
  apply (wpc_edits (since tempdir []) write_ ops 0 ∅); [|exact Hs|apply tracks_empty|].
  { intros n op kv st1 fs1. apply wpc_write_. }
  intros model kv st1 fs1 Hs1 Ht _. test_step. test_step. test_step. test_step.
  eapply wpc_mono; [by apply (wpc_since_compact tempdir [] 0 kv st1 fs1 (fun _ _ _ => False) (fun _ => False))| |done|done].
  intros rep st2 fs2 (Hscan & Hget & _). test_step. test_step. test_step. test_step; [by rewrite Hscan|].
  apply (wpc_matches (fun _ _ st _ => forall k, store_get st k = kv !! k) get_ 0 kv); [|by intros k; rewrite Hget; eapply since_get|done|done].
  intros n k st3 fs3 Hk. unfold get_. by test_step.
Qed.

Lemma held_snapshot_pass (before after : list Drawn) :
  length before < 30 -> length after < 30 ->
  passes (compacting_with_a_held_snapshot_never_changes_that_snapshots_reads before after) = true.
Proof.
  intros Hb Ha. apply passes_wpc. unfold compacting_with_a_held_snapshot_never_changes_that_snapshots_reads.
  apply (wpc_with_tmp_store (length before + (length after + 0))); [lia|]. intros st fs Hs. test_step.
  apply (wpc_edits (since tempdir []) write_ before (length after + 0) ∅); [|exact Hs|apply tracks_empty|].
  { intros n op kv st1 fs1. apply wpc_write_. }
  intros expected kv st1 fs1 (ih & Ho & <- & _) Ht _. test_step. test_step.
  destruct (hold_snapshot st1) as [guard st2] eqn:Eh. pose proof (since_hold _ _ _ _ _ _ _ Ho Eh) as [Hg Hs2].
  test_step. test_step. cbv zeta. test_step.
  apply (wpc_test_for (fun n kv => since tempdir ih n kv) 1 _ (fun kv op => apply_op kv (drawn_op op)) after (kv_of ih) 0).
  - intros l1 op l2 n st3 fs3 _ Hs3. apply wpc_write_; [exact Hs3|apply drawn_short].
  - by rewrite Nat.mul_1_r.
  - intros st3 fs3 Hs3. test_step. test_step.
    eapply wpc_mono; [by eapply (wpc_since_compact tempdir ih 0 _ st3 fs3 (fun _ _ _ => False) (fun _ => False))| |done|done].
    intros rep st4 fs4 (_ & _ & Hat). rewrite Hg.
    apply (wpc_matches (fun _ _ st _ => forall k, get_at st k (mkSnapshot (next_of ih)) = kv_of ih !! k) _ 0 (kv_of ih)); [| |done|done].
    + intros n k st5 fs5 Hk. by test_step.
    + intros k. rewrite Hat. by eapply since_get_at.
Qed.
End store_tests.
