(* ===== verification/PropertyTxn.v ===== *)
(** * PropertyTxn: the property-based tests of transactions hold for every input

    The tests of [tests/txn_property.rs], with the drawn values as arguments. *)
From S2P Require Export PropertyStore TxnSpec.

Section tests.
Context `{Crc32, DirOrder}.

(** [{ let store = TransactionalStore::open(dir.path()).unwrap(); body }]. *)
Definition with_tmp_ts {A : Type} (body : Test Store A) : Test unit A := scope (must (txn_open tempdir)) body.

(** A transaction of one write: [let mut txn = store.begin(); txn.put(key, value); txn.commit().unwrap()]. *)
Definition txn_write (op : WriteOp) : Test Store unit :=
  txn ← txn_begin;
  let txn := match op with OpPut k v => txn_put k v txn | OpDelete k => txn_delete k txn end in
  must (commit txn).

Definition sequential_transaction_commits_match_a_naive_model (ops : list Drawn) : Test unit unit :=
  with_tmp_ts (
    model ← edits txn_write ops ∅;
    matches (fun key => look (fun st => txn_store_get st key)) model).

(** [vec((0..k, 0..v), lo..hi)]; the test draws at most five keys and values. *)
Definition drawn_puts_of (bound : Z) (lo hi : nat) (ops : list (Z * Z)) : Prop :=
  lo <= length ops < hi /\ Forall (fun kv => (0 <= kv.1 < bound)%Z /\ (0 <= kv.2 < bound)%Z) ops.

(** [(k, v)] as a put. *)
Definition drawn_put (kv : Z * Z) : WriteOp := OpPut (fmt "k" kv.1) (fmt "v" kv.2).

Definition a_snapshot_never_sees_transactions_committed_after_it_began (before after : list (Z * Z)) : Test unit unit :=
  with_tmp_ts (
    expected ← test_fold before (fun model kv =>
      txn_write (drawn_put kv);;
      mret (<[fmt "k" kv.1 := fmt "v" kv.2]> model)) ∅;
    reader ← txn_begin;
    test_for after (fun kv => txn_write (drawn_put kv));;
    test_for (map_to_list (expected : gmap bytes bytes)) (fun e =>
      actual ← look (fun st => txn_get reader st e.1);
      assert_eq (Some e.2) actual)).

(** ** They pass *)

Lemma bt_iter_singleton {V : Type} (k : bytes) (v : V) : bt_iter {[k := v]} = [(k, v)].
Proof. unfold bt_iter. by rewrite map_to_list_singleton. Qed.

Lemma since_held (dir : path) (ih0 : list LogRecord) (n : nat) (kv : gmap bytes bytes) (st : Store) (fs : fsys)
    (held : Registry) : since dir ih0 n kv st fs -> since dir ih0 n kv (set_held held st) fs.
Proof.
  intros (ih & [[dh Hi] Hdir Hc Hr Hn Ha] & Hrest). exists ih. split; [|done]. split; try done.
  exists dh. destruct Hi as [H1 H2 [M1 M2 M3 M4] H4 H5 H6 H7]. by split.
Qed.

Lemma wpc_commit {F : FaultModel} (tx : Transaction) (st : Store) (fs : fsys)
    (Q : unit -> Store -> fsys -> Prop) (X : TxnError -> Store -> fsys -> Prop) (C : fsys -> Prop) :
  wpc F (commit_body tx) st fs (fun a st' fs' => Q a (drop_txn tx st') fs')
    (fun e st' fs' => X e (drop_txn tx st') fs') C ->
  wpc F (commit tx) st fs Q X C.
Proof.
  intros H1 faults Hf. specialize (H1 faults Hf). unfold commit. by destruct (commit_body tx st _) as [[[] st'] w'].
Qed.

(** No version is newer than a snapshot of now. *)
Lemma fresh_no_conflict (st : Store) (ih : list LogRecord) (k : bytes) :
  mem_inv st ih -> conflicts st (snapshot st) k = false.
Proof.
  intros Hm. unfold conflicts. rewrite (latest_seq_spec st ih k Hm).
  destruct (last (hist_versions ih k)) as [v|] eqn:E; [|done]. simpl. apply Z.leb_gt.
  apply last_Some_elem_of in E. apply list_elem_of_fmap in E as (r & -> & [_ Hr]%list_elem_of_filter).
  pose proof (mi_next _ _ Hm) as Hn. rewrite Forall_forall in Hn. by apply Hn.
Qed.

(** A transaction that nothing comes in between commits. *)
Lemma wpc_txn_write (ih0 : list LogRecord) (n : nat) (op : WriteOp) (kv : gmap bytes bytes) (st : Store) (fs : fsys)
    (X : Empty_set -> Store -> fsys -> Prop) (C : fsys -> Prop) :
  since tempdir ih0 (S n) kv st fs -> short_entry op ->
  wpc no_faults (txn_write op) st fs (fun _ st' fs' => since tempdir ih0 n (apply_op kv op) st' fs') X C.
Proof.
  intros Hs Hop. unfold txn_write. test_step. unfold txn_begin. test_step. test_step.
  unfold hold_snapshot at 1. set (st1 := set_held _ st). test_step. test_step. test_step. cbv zeta.
  assert (since tempdir ih0 (S n) kv st1 fs) as Hs1 by by apply since_held.
  assert (conflicts st1 (snapshot st) = conflicts st (snapshot st)) as Hst by done.
  set (writes := match op with OpPut k v => {[k := Some v]} | OpDelete k => {[k := None]} end : gmap bytes (option bytes)).
  assert (bt_iter writes = [match op with OpPut k v => (k, Some v) | OpDelete k => (k, None) end]) as Hiter
    by (unfold writes; destruct op; apply bt_iter_singleton).
  set (tx := match op with OpPut k v => _ | OpDelete k => _ end).
  assert (tx_writes tx = writes /\ tx_snapshot tx = snapshot st) as [Hw Hsn] by (unfold tx, writes; by destruct op).
  apply wpc_must, wpc_commit. unfold commit_body. rewrite Hw, Hsn. rewrite decide_False.
  2: { intros He. rewrite He in Hiter. by rewrite bt_iter_empty in Hiter. }
  test_step. test_step. unfold bt_keys. rewrite Hiter.
  assert (find_conflict st1 (snapshot st) (([match op with OpPut k v => (k, Some v) | OpDelete k => (k, None) end]).*1) = None) as ->.
  { apply find_conflict_None. constructor; [|constructor]. rewrite Hst. destruct Hs as (ih & Ho & _).
    eapply fresh_no_conflict, open_store_mem, Ho. }
  cbn [fmap list_fmap]. replace (write_op _) with op by by destruct op. test_step.
  destruct Hs1 as (ih & Ho & <- & Hc).
  eapply wpc_mono; [apply (wpc_os_batch tempdir n [op] ih st1 fs (fun _ _ _ => False) (fun _ => False)); [exact Ho|simpl; lia|constructor; [by apply short_wf|constructor]]| |done|done].
  intros [] st2 fs2 [Ho2 _]. apply since_held. eexists. split; [exact Ho2|]. split; [apply (kv_of_batch _ [op])|].
  destruct (os_inv _ _ _ _ _ Ho) as [dh Hi]. apply (continues_batch ih0 ih [op]); [apply Hi|done].
Qed.

Lemma wpc_with_tmp_ts {A : Type} (n : nat) (body : Test Store A) (Q : A -> unit -> fsys -> Prop)
    (X : Empty_set -> unit -> fsys -> Prop) (C : fsys -> Prop) :
  (1 + Z.of_nat n < 2 ^ 64)%Z ->
  (forall st fs, since tempdir [] n ∅ st fs ->
     wpc no_faults body st fs (fun a _ fs' => Q a tt fs') (fun _ _ _ => False) C) ->
  wpc no_faults (with_tmp_ts body) tt tmp_fs Q X C.
Proof. apply wpc_with_tmp_store. Qed.

Lemma sequential_commits_pass (ops : list Drawn) :
  length ops < 40 -> passes (sequential_transaction_commits_match_a_naive_model ops) = true.
Proof.
  intros Hlen. apply passes_wpc. apply (wpc_with_tmp_ts (length ops + 0)); [lia|]. intros st fs Hs. test_step.
  apply (wpc_edits (since tempdir []) txn_write ops 0 ∅); [|exact Hs|apply tracks_empty|].
  { intros n op kv st1 fs1. apply wpc_txn_write. }
  intros model kv st1 fs1 Hs1 Ht _.
  apply (wpc_matches (fun _ kv => since tempdir [] 0 kv) _ 0 kv); [|exact Hs1|done|done].
  intros n k st2 fs2 Hs2. test_step. split; [by eapply since_get|done].
Qed.

Lemma snapshot_never_sees_pass (before after : list (Z * Z)) :
  length before < 15 -> length after < 15 ->
  passes (a_snapshot_never_sees_transactions_committed_after_it_began before after) = true.
Proof.
  intros Hb Ha. apply passes_wpc. apply (wpc_with_tmp_ts (length before + length after)); [lia|]. intros st fs Hs. test_step.
  apply (wpc_test_fold (fun n m st fs => since tempdir [] n m st fs) 1) with (n := length after).
  - intros kv m n st1 fs1 _ Hs1. test_step.
    eapply wpc_mono; [apply (wpc_txn_write [] n (drawn_put kv) m st1 fs1 (fun _ _ _ => False) (fun _ => False)); [exact Hs1|apply (drawn_short (kv.1, kv.2, false))]| |done|done].
    intros [] st2 fs2 Hs2. by test_step.
  - by rewrite Nat.mul_1_r.
  - intros expected st1 fs1 (ih & Ho & Hkv & _). test_step. unfold txn_begin. test_step. test_step.
    destruct (hold_snapshot st1) as [guard st2] eqn:Eh. pose proof (since_hold _ _ _ _ _ _ _ Ho Eh) as [Hg Hs2].
    test_step. test_step. test_step. test_step.
    apply (wpc_test_for (fun n kv => since tempdir ih n kv) 1 _ (fun m kv => apply_op m (drawn_put kv)) after (kv_of ih) 0).
    + intros l1 kv l2 n st3 fs3 _ Hs3. apply wpc_txn_write; [exact Hs3|apply (drawn_short (kv.1, kv.2, false))].
    + by rewrite Nat.mul_1_r, Nat.add_0_r.
    + intros st3 fs3 Hs3. apply (wpc_test_each (fun _ st _ => forall k, get_at st k (mkSnapshot (next_of ih)) = kv_of ih !! k) _ _ 0); [| |done].
      * intros [k v] n st4 fs4 Hin%elem_of_map_to_list Hat. test_step. test_step. test_step; [|done].
        unfold txn_get. cbn [tx_writes tx_snapshot fst snd]. by rewrite lookup_empty, Hg, Hat, Hkv.
      * intros k. by eapply since_get_at.
Qed.
End tests.
