(* ===== verification/PropertyIndexed.v ===== *)
(** * PropertyIndexed: the two stores agree on whatever a test draws

    The test of [tests/indexed_store_property.rs] makes the same edits to a [Store] and to an
    [IndexedStore], in two directories of one file system, and compares what they read. Neither
    store touches the files of the other. *)
From S2P Require Export PropertyStore StoresAgree Confinement.

Section tests.
Context `{Crc32, DirOrder} (fuel : nat).

(** The local variables [plain] and [indexed]. *)
Definition Stores : Type := Store * IndexedStore.

Definition plain {A : Type} (m : Test Store A) : Test Stores A := zoom fst (fun st p => (st, p.2)) m.

Definition indexed {A : Type} (m : Test IndexedStore A) : Test Stores A := zoom snd (fun s p => (p.1, s)) m.

Definition open_both : Test unit Stores :=
  plain ← must (store_open tempdir);
  indexed ← must (indexed_open fuel tempdir2);
  mret (plain, indexed).

Definition write_both (op : WriteOp) : Test Stores unit :=
  plain (write_ op);;
  indexed (must (match op with OpPut k v => indexed_put fuel k v | OpDelete k => indexed_delete fuel k end)).

Definition indexed_store_matches_plain_store_for_the_same_operations (ops : list Drawn) : Test unit unit :=
  scope open_both (
    model ← edits write_both ops ∅;
    test_for (map_to_list model) (fun e =>
      plain_val ← plain (get_ e.1);
      indexed_val ← indexed (must (indexed_get fuel e.1));
      assert_eq plain_val e.2;;
      assert_eq indexed_val e.2);;
    plain_scan ← plain (look (fun st => scan st (ascii "k")));
    indexed_scan ← indexed (must (indexed_scan fuel (ascii "k")));
    assert_eq (sort_by entry_leb plain_scan) (sort_by entry_leb indexed_scan)).

(** ** It passes *)

(** *** Side by side *)

Lemma apart_inside (d1 d2 q : path) : apart d1 d2 -> d2 `suffix_of` q -> apart d1 q.
Proof. intros Ha Hq. split; [by eapply apart_below|]. intros Hs. apply Ha. by etrans. Qed.

Lemma dirs_apart : apart tempdir tempdir2.
Proof. by apply apart_siblings. Qed.

Lemma dirs_apart' : apart tempdir2 tempdir.
Proof. by apply apart_siblings. Qed.

(** A computation on files below [d]. *)
Lemma wpc_beside {T E A : Type} (I : T -> Prop) (n : bytes) (q : path) (m : M T E A) (t : T) (fs : fsys)
    (Q : A -> T -> fsys -> Prop) (X : E -> T -> fsys -> Prop) (C : fsys -> Prop) :
  keeps I (below (n :: q) fs) any m -> I t -> dir_ok fs q -> wpc no_faults m t fs Q X C ->
  wpc no_faults m t fs (fun a t' fs' => Q a t' fs' /\ I t' /\ below (n :: q) fs fs' /\ dir_ok fs' q) X C.
Proof.
  intros Hk Ht Hq Hw. eapply wpc_mono; [by apply (wpc_keeps I _ any m t fs Q X C Hk Ht)| | |].
  - intros a t' fs' (HQ & HI & Hb & _). split; [done|]. split; [done|]. split; [done|]. by eapply parent_ok.
  - by intros e t' fs' (HX & _).
  - by intros fs' [HC _].
Qed.

(** *** The plain store *)

Record plain_at (n : nat) (kv : gmap bytes bytes) (st : Store) (fs : fsys) : Prop := {
  pl_inv : exists dh ih, store_inv st fs dh ih /\ kv_of ih = kv /\ (next_of ih + Z.of_nat n < 2 ^ 64)%Z;
  pl_active : (active_id (st_log st) + Z.of_nat n < 2 ^ 64)%Z;
  pl_inside : store_inside (ascii "a") [ascii "tmp"] st;
}.

Lemma plain_beside (n : nat) (kv : gmap bytes bytes) (st : Store) (fs fs' : fsys) :
  below tempdir2 fs fs' -> plain_at n kv st fs -> plain_at n kv st fs'.
Proof.
  intros Hb [(dh & ih & Hi & Hrest) Ha Hin]. split; [|done|done]. exists dh, ih. split; [|done].
  destruct Hi as [H1 H2 H3 H4 H5 H6 H7]. split; try done. eapply log_holds_agrees; [|exact H1].
  apply (log_agrees_below tempdir2); [|done]. rewrite H2. apply (apart_inside _ tempdir); [apply dirs_apart'|apply Hin].
Qed.

Lemma wpc_plain_write (n : nat) (op : WriteOp) (kv : gmap bytes bytes) (st : Store) (fs : fsys)
    (X : Empty_set -> Store -> fsys -> Prop) (C : fsys -> Prop) :
  plain_at (S n) kv st fs -> dir_ok fs [ascii "tmp"] -> short_entry op ->
  wpc no_faults (write_ op) st fs
    (fun _ st' fs' => plain_at n (apply_op kv op) st' fs' /\ below tempdir fs fs' /\ dir_ok fs' [ascii "tmp"]) X C.
Proof.
  intros [(dh & ih & Hi & <- & Hn) Ha Hin] Hd Hop. apply wpc_must.
  eapply wpc_mono; [apply (wpc_beside (store_inside (ascii "a") [ascii "tmp"]) (ascii "a") [ascii "tmp"] (store_write op));
    [|exact Hin|exact Hd|apply (wpc_store_write st fs dh ih op Hi); [lia|by apply short_wf|lia]]| |done|done].
  { destruct op as [k v|k]; [apply (keeps_run_call_in _ _ _ (CallPut k v))|apply (keeps_run_call_in _ _ _ (CallDelete k))]. }
  intros [] st' fs' ((Hi' & Ha') & Hin' & Hb & Hd'). split; [|by split].
  destruct (next_of_batch ih [op] (si_wf _ _ _ _ Hi)) as [_ Hnx]; [by constructor; [apply short_wf|]|simpl; lia|].
  simpl in Hnx. split; [|lia|done]. eexists _, _. split; [exact Hi'|]. split; [apply (kv_of_batch _ [op])|lia].
Qed.

(** *** The indexed store

    [k] writes and [r] reads are left, with at most [pages] pages. *)
Context (pages : nat).

Abbreviation cap := DEFAULT_POOL_CAPACITY.

Definition read_cost : nat := 4 * (pages + 2).

Definition indexed_side (k r : nat) (kv : gmap bytes bytes) (s : IndexedStore) (fs : fsys) : Prop :=
  indexed_inside (ascii "b") [ascii "tmp"] s /\
  exists last h hist next, indexed_at tempdir2 h (session_cost h k cap + r * read_cost) cap s fs last hist next /\
    tracked s last hist /\ kv_of hist = kv /\ (session_pages h next k <= Z.of_nat pages)%Z.

Lemma indexed_beside (k r : nat) (kv : gmap bytes bytes) (s : IndexedStore) (fs fs' : fsys) :
  below tempdir fs fs' -> indexed_side k r kv s fs -> indexed_side k r kv s fs'.
Proof.
  intros Hb (Hin & last & h & hist & next & [[I1 I2 I3 (h' & I4) I5 I6 I7 I8] Hs] & Hrest). split; [done|].
  exists last, h, hist, next. split; [|done].
  split; [split; try done|].
  - eapply log_holds_agrees; [|exact I1]. apply (log_agrees_below tempdir); [|done].
    rewrite I2. apply apart_child, dirs_apart.
  - exists h'. by eapply index_at_below; [apply apart_child, dirs_apart| |].
  - by eapply index_at_below; [apply apart_child, dirs_apart| |].
Qed.

Lemma indexed_side_weaken (k r r' : nat) (kv : gmap bytes bytes) (s : IndexedStore) (fs : fsys) :
  r' <= r -> indexed_side k r kv s fs -> indexed_side k r' kv s fs.
Proof.
  intros Hr (Hin & last & h & hist & next & Ha & Hrest). split; [done|]. exists last, h, hist, next. split; [|done].
  eapply indexed_at_weaken; [|exact Ha]. apply Nat.add_le_mono_l. by apply Nat.mul_le_mono_r.
Qed.

Context (Hpages : pages + 1 <= fuel).

(** The rest of the file system is as before. *)
Definition left_alone (fs fs' : fsys) : Prop := below tempdir2 fs fs' /\ dir_ok fs' [ascii "tmp"].

Lemma short_entry_op (op : WriteOp) : short_entry op -> short_op op.
Proof. destruct op; unfold short_entry, short_op, MAX_ENTRY; lia. Qed.

Lemma wpc_side_write (k r : nat) (op : WriteOp) (kv : gmap bytes bytes) (s : IndexedStore) (fs : fsys)
    (X : Empty_set -> IndexedStore -> fsys -> Prop) (C : fsys -> Prop) :
  indexed_side (S k) r kv s fs -> dir_ok fs [ascii "tmp"] -> short_entry op ->
  wpc no_faults (must (indexed_write fuel op)) s fs
    (fun _ s' fs' => indexed_side k r (apply_op kv op) s' fs' /\ left_alone fs fs') X C.
Proof.
  intros (Hin & last & h & hist & next & Ha & Ht & <- & Hpg) Hd Hop. apply short_entry_op in Hop.
  pose proof (index_at_height _ _ _ _ _ _ _ _ (proj2 Ha)) as (Hh & Hpos & _).
  set (rest := session_cost (h + 2) k cap + r * read_cost).
  assert (write_cost h cap + rest <= session_cost h (S k) cap + r * read_cost) as Hc.
  { unfold rest. pose proof (session_cost_step h (h + 2) k cap ltac:(lia)). lia. }
  pose proof (session_pages_step h (h + 2) next next k ltac:(lia) ltac:(lia)) as Hps.
  apply wpc_must. eapply wpc_mono; [apply (wpc_beside (indexed_inside (ascii "b") [ascii "tmp"]) (ascii "b") [ascii "tmp"] (indexed_write fuel op));
    [apply (keeps_request_in _ _ _ fuel (RWrite op))|exact Hin|exact Hd|apply (wpc_indexed_write tempdir2 h rest cap s fs last hist next fuel op)]| |done|done].
  { by eapply indexed_at_weaken. }
  { done. }
  { unfold session_pages in *. nia. }
  intros [] s' fs' (Hp & Hin' & Hb & Hd'). split; [|done]. split; [done|].
  pose proof Ha as [[I1 _ _ _ I5 _ _ _] _]. pose proof (log_holds_wf _ _ _ I1) as Hw.
  assert (1 <= session_cost h (S k) cap + r * read_cost) as H1 by (unfold write_cost in Hc; lia).
  apply (write_post_tracked _ _ _ _ _ _ _ _ _ _ op 0 Hw Hop ltac:(lia) Ht) in Hp
    as (last1 & h1 & next1 & Hh1 & Hn1 & Ha1 & _ & Ht1 & _).
  exists last1, h1, (hist ++ [op_record (next_of hist) op]), next1. split.
  { eapply indexed_at_weaken; [|exact Ha1]. unfold rest, session_cost, write_cost, insert_cost. nia. }
  split; [done|]. split; [apply (kv_of_batch _ [op])|].
  pose proof (session_pages_step h h1 next next1 k Hh1 ltac:(lia)). lia.
Qed.

Lemma session_pages_ge (h : nat) (next : PageId) (k : nat) : (next <= session_pages h next k)%Z.
Proof. unfold session_pages. lia. Qed.

(** The counters of the store. *)
Definition counts (a b : nat) (s : IndexedStore) : Prop := pending_since_checkpoint s = a /\ checkpoint_interval s = b.

Lemma keeps_both {S E A : Type} (I1 I2 : S -> Prop) (P : fsys -> Prop) (m : M S E A) :
  keeps I1 P any m -> keeps I2 any any m -> keeps (fun s => I1 s /\ I2 s) P any m.
Proof.
  intros H1 H2 s w [Hs1 Hs2] Hw. destruct (H1 s w Hs1 Hw) as (? & ? & ?), (H2 s w Hs2 Logic.I) as (? & _). by split_and!.
Qed.

Lemma keeps_counts {A : Type} (a b : nat) (m : M (BufferPool HeapPageStore) IndexedStoreError A) :
  keeps (counts a b) any any (zoom is_index set_is_index m).
Proof. by apply (keeps_zoom _ _ any). Qed.

Definition side_read {A : Type} (m : M IndexedStore IndexedStoreError A) (result : gmap bytes bytes -> A) : Prop :=
  (forall fs, keeps (indexed_inside (ascii "b") [ascii "tmp"]) (below tempdir2 fs) any m) /\
  (forall a b, keeps (counts a b) any any m) /\
  (forall h n s fs last hist next, indexed_at tempdir2 h (tree_cost next + n) cap s fs last hist next -> Z.to_nat next <= fuel ->
     wpc no_faults m s fs (fun r s' fs' => r = result (kv_of hist) /\ indexed_at tempdir2 h n cap s' fs' last hist next)
       (fun _ _ _ => False) (fun _ => False)).

Lemma side_get (key : bytes) : side_read (indexed_get fuel key) (lookup key).
Proof.
  split; [|split].
  - intros fs. apply keeps_indexed_get; [apply keeps_hps_read_in|apply keeps_hps_write_in].
  - intros a b. unfold indexed_get. apply (keeps_bind _ _ any); [apply keeps_counts|]. intros [bs|] _; [|by apply keeps_ret].
    destruct (decode_index_value bs); [by apply keeps_ret|apply keeps_panic].
  - intros h n s fs last hist next. apply wpc_indexed_get.
Qed.

Lemma side_scan (prefix : bytes) : side_read (indexed_scan fuel prefix) (fun kv => bt_iter (with_prefix prefix kv)).
Proof.
  split; [|split].
  - intros fs. apply keeps_indexed_scan; [apply keeps_hps_read_in|apply keeps_hps_write_in].
  - intros a b. unfold indexed_scan. apply (keeps_bind _ _ any); [apply keeps_counts|]. intros all _.
    apply (keeps_bind _ _ any); [apply keeps_unwrap|]. intros out _. by apply keeps_ret.
  - intros h n s fs last hist next. apply wpc_indexed_scan.
Qed.

Lemma wpc_side_read {A : Type} (m : M IndexedStore IndexedStoreError A) (result : gmap bytes bytes -> A) (k r : nat)
    (kv : gmap bytes bytes) (s : IndexedStore) (fs : fsys) (X : Empty_set -> IndexedStore -> fsys -> Prop) (C : fsys -> Prop) :
  side_read m result -> indexed_side k (S r) kv s fs -> dir_ok fs [ascii "tmp"] ->
  wpc no_faults (must m) s fs
    (fun v s' fs' => v = result kv /\ indexed_side k r kv s' fs' /\ left_alone fs fs') X C.
Proof.
  intros (Hm1 & Hm2 & Hm3) (Hin & last & h & hist & next & Ha & Ht & <- & Hpg) Hd. pose proof (session_pages_ge h next k) as Hge.
  set (n := session_cost h k cap + r * read_cost).
  apply wpc_must. eapply wpc_mono; [apply (wpc_beside (fun s' => indexed_inside (ascii "b") [ascii "tmp"] s' /\
      counts (pending_since_checkpoint s) (checkpoint_interval s) s') (ascii "b") [ascii "tmp"] m);
    [by apply keeps_both|done|exact Hd|apply (Hm3 h n s fs last hist next)]| |done|done].
  { eapply indexed_at_weaken; [|exact Ha]. unfold n, tree_cost, read_cost. simpl. lia. }
  { lia. }
  intros v s' fs' ([-> Ha'] & [Hin' [Hp Hi]] & Hb & Hd'). split; [done|]. split; [|done]. split; [done|].
  exists last, h, hist, next. split; [done|]. split; [|done]. unfold tracked. by rewrite Hp, Hi.
Qed.

(** *** Both *)

Definition both (k r : nat) (kv : gmap bytes bytes) (p : Stores) (fs : fsys) : Prop :=
  plain_at k kv p.1 fs /\ indexed_side k r kv p.2 fs /\ dir_ok fs [ascii "tmp"].

Lemma wpc_write_both (k r : nat) (op : WriteOp) (kv : gmap bytes bytes) (p : Stores) (fs : fsys)
    (X : Empty_set -> Stores -> fsys -> Prop) (C : fsys -> Prop) :
  both (S k) r kv p fs -> short_entry op ->
  wpc no_faults (write_both op) p fs (fun _ p' fs' => both k r (apply_op kv op) p' fs') X C.
Proof.
  intros (Hp & Hs & Hd) Hop. unfold write_both, plain, indexed. wpc_step. apply wpc_zoom.
  eapply wpc_mono; [by apply (wpc_plain_write k op kv _ _ (fun _ _ _ => False) (fun _ => False))| |done|done]. intros [] st fs1 (Hp1 & Hb1 & Hd1). apply wpc_zoom.
  eapply wpc_mono; [apply (wpc_side_write k r op kv _ _ (fun _ _ _ => False) (fun _ => False)); [by eapply indexed_beside|done|done]| |done|done].
  intros [] s fs2 (Hs2 & Hb2 & Hd2). split; [by eapply plain_beside|by split].
Qed.

(** A read of each. *)
Lemma wpc_read_both {A B : Type} (f : Store -> A) (m : M IndexedStore IndexedStoreError B) (result : gmap bytes bytes -> B)
    (k r : nat) (kv : gmap bytes bytes) (p : Stores) (fs : fsys) (body : A -> B -> Test Stores unit)
    (Q : unit -> Stores -> fsys -> Prop) (X : Empty_set -> Stores -> fsys -> Prop) (C : fsys -> Prop) :
  side_read m result -> both k (S r) kv p fs ->
  (forall p' fs', both k r kv p' fs' -> wpc no_faults (body (f p.1) (result kv)) p' fs' Q X C) ->
  wpc no_faults (a ← plain (look f); b ← indexed (must m); body a b) p fs Q X C.
Proof.
  intros Hm (Hp & Hs & Hd) HQ. unfold plain, indexed. wpc_step. apply wpc_zoom, wpc_look. wpc_step. apply wpc_zoom.
  eapply wpc_mono; [by apply (wpc_side_read m result k r kv _ _ (fun _ _ _ => False) (fun _ => False))| |done|done].
  intros b s fs2 (-> & Hs2 & Hb2 & Hd2). apply HQ. split; [by eapply plain_beside|by split].
Qed.

Lemma plain_get (k : nat) (kv : gmap bytes bytes) (st : Store) (fs : fsys) (key : bytes) :
  plain_at k kv st fs -> store_get st key = kv !! key.
Proof. intros [(dh & ih & Hi & <- & _) _ _]. eapply store_get_kv, Hi. Qed.

Lemma plain_scan (k : nat) (kv : gmap bytes bytes) (st : Store) (fs : fsys) (p : bytes) :
  plain_at k kv st fs -> scan st p = bt_iter (with_prefix p kv).
Proof. intros [(dh & ih & Hi & <- & _) _ _]. eapply scan_kv, Hi. Qed.

(** *** Opening *)

Context (Hbound : Z.of_nat pages = 20000%Z).

Lemma wpc_open_plain (k : nat) (X : Empty_set -> unit -> fsys -> Prop) (C : fsys -> Prop) :
  (Z.of_nat k < 2 ^ 32)%Z ->
  wpc no_faults (must (store_open tempdir)) tt tmp_fs
    (fun st _ fs' => plain_at k ∅ st fs' /\ below tempdir tmp_fs fs' /\ dir_ok fs' [ascii "tmp"]) X C.
Proof.
  intros Hk. assert (dir_ok tmp_fs [ascii "tmp"]) as Hd.
  { intros q Hq. repeat (apply suffix_cons_or in Hq as [->|Hq]; [by eexists|]). apply suffix_nil_inv in Hq as ->. by eexists. }
  assert (keeps any (below tempdir tmp_fs) (store_inside (ascii "a") [ascii "tmp"]) (store_open tempdir)) as Hkeep
    by by apply keeps_store_open_in.
  apply wpc_must. eapply wpc_mono; [eapply (wpc_keeps any); [exact Hkeep|done|done|];
    apply (wpc_store_open_new tmp_fs tmp_fs tempdir); [done|apply tmp_fs_log|apply tmp_fs_clean|by split|done|done]| |by intros ? ? ? [[] _]|by intros ? [[] _]].
  intros st [] fs' ((Hi & Hdir & _ & Ha & _) & _ & Hb & Hin). split; [|split; [done|by eapply parent_ok]].
  split; [|rewrite Ha; lia|done]. exists [], []. split; [done|]. split; [done|]. rewrite next_of_nil. lia.
Qed.

Lemma bare_tempdir2 (fs : fsys) : below tempdir tmp_fs fs -> dir_ok fs [ascii "tmp"] -> bare_dir fs tempdir2.
Proof.
  intros Hb Hd. assert (fs !! tempdir2 = Some ∅) as H2 by (rewrite Hb; [done|apply dirs_apart]).
  assert (dir_ok fs tempdir2) as Hok by (apply dir_ok_cons; split; [by eexists|done]). split; [done|]. split; [done|].
  intros q Hq Hne. rewrite Hb by (by eapply apart_below; [apply dirs_apart|]).
  unfold tmp_fs. rewrite lookup_insert_ne by done.
  rewrite lookup_insert_ne by (intros <-; by destruct dirs_apart).
  by rewrite !lookup_insert_ne by (intros <-; apply suffix_length in Hq; simpl in Hq; lia).
Qed.

Lemma wpc_open_indexed (fs : fsys) (X : Empty_set -> unit -> fsys -> Prop) (C : fsys -> Prop) :
  below tempdir tmp_fs fs -> dir_ok fs [ascii "tmp"] ->
  wpc no_faults (must (indexed_open fuel tempdir2)) tt fs
    (fun s _ fs' => indexed_side 60 61 ∅ s fs' /\ below tempdir2 fs fs' /\ dir_ok fs' [ascii "tmp"]) X C.
Proof.
  intros Hb Hd. assert (exists n, n = session_cost 6 60 cap + 61 * read_cost) as [n Hn0] by by eexists.
  pose proof (keeps_indexed_open_in (ascii "b") [ascii "tmp"] fs fuel cap DEFAULT_CHECKPOINT_INTERVAL Hd) as Hkeep.
  assert (Z.of_nat (session_cost 6 60 cap) <= 80000)%Z as Hsc
    by (unfold session_cost, write_cost, insert_cost, DEFAULT_POOL_CAPACITY; lia).
  assert (open_cost 1 0 cap <= 1000) as Hoc by (apply Nat.leb_le; by vm_compute).
  assert (open_pages 1 0 = 6%Z) as Hop by by vm_compute.
  unfold indexed_open. apply wpc_must. eapply wpc_mono; [apply (wpc_keeps any (below tempdir2 fs) (indexed_inside (ascii "b") [ascii "tmp"])); [exact Hkeep|exact I|reflexivity|];
    apply (wpc_open_with_options_new tempdir2 n cap DEFAULT_CHECKPOINT_INTERVAL fs fuel)| |by intros ? ? ? [[] _]|by intros ? [[] _]].
  { by apply bare_new_place, bare_tempdir2. }
  { rewrite Hn0. unfold read_cost. lia. }
  { unfold DEFAULT_POOL_CAPACITY. lia. }
  { rewrite Hop. lia. }
  intros s [] fs' ((_ & _ & Hp & Hint & next & Hn & Hi) & _ & Hb' & Hin). rewrite Hop in Hn. cbn [decide] in Hi.
  split; [|split; [done|by eapply parent_ok]]. split; [done|].
  destruct (indexed_at_height _ _ _ _ _ _ _ _ Hi) as (h & Hh & Ha).
  exists None, h, [], next. split; [|split; [|split; [done|]]].
  - eapply indexed_at_weaken; [|exact Ha]. rewrite Hn0. unfold session_cost, write_cost, insert_cost. nia.
  - apply tracked_opened; [done|done|done|]. rewrite Hint. lia.
  - unfold session_pages. nia.
Qed.

Lemma indexed_matches_plain_pass (ops : list Drawn) :
  length ops < 60 -> passes (indexed_store_matches_plain_store_for_the_same_operations ops) = true.
Proof.
  intros Hlen. apply passes_wpc. unfold indexed_store_matches_plain_store_for_the_same_operations. test_step.
  unfold open_both. test_step.
  eapply wpc_mono; [apply (wpc_open_plain 60 (fun _ _ _ => False) (fun _ => False)); lia| |done|done].
  intros st [] fs1 (Hp & Hb1 & Hd1). test_step.
  eapply wpc_mono; [by apply (wpc_open_indexed fs1 (fun _ _ _ => False) (fun _ => False))| |done|done].
  intros s [] fs2 (Hs & Hb2 & Hd2). test_step.
  assert (both (length ops + (60 - length ops)) 61 ∅ (st, s) fs2) as H0'.
  { replace (length ops + (60 - length ops)) with 60 by lia. split; [by eapply plain_beside|by split]. }
  test_step. apply (wpc_edits (fun k => both k 61) write_both ops (60 - length ops) ∅); [|exact H0'|apply tracks_empty|].
  { intros k op kv p fs. apply wpc_write_both. }
  set (k := 60 - length ops). intros model kv p fs (Hp3 & Hs3 & Hd3) Ht Hsize. rewrite map_size_empty in Hsize. test_step.
  apply (wpc_test_each (fun n p fs => both k n kv p fs) _ _ 1).
  - intros [key e] n p4 fs4 Hin%elem_of_map_to_list Hbo. cbn [fst snd].
    apply (wpc_read_both _ _ (lookup key) k n kv); [apply side_get|exact Hbo|]. intros p5 fs5 Hbo5.
    destruct Hbo as (Hp4 & _). rewrite (plain_get k kv _ _ _ Hp4), (Ht _ _ Hin). test_step. test_step; [done|].
    by test_step.
  - split; [done|]. split; [|done]. eapply indexed_side_weaken; [|exact Hs3]. rewrite length_map_to_list. lia.
  - intros p6 fs6 Hbo. apply (wpc_read_both _ _ (fun kv => bt_iter (with_prefix (ascii "k") kv)) k 0 kv); [apply side_scan|exact Hbo|].
    intros p7 fs7 _. destruct Hbo as (Hp6 & _). rewrite (plain_scan k kv _ _ _ Hp6). by apply wpc_assert_eq.
Qed.
End tests.
