(* ===== verification/PropertyTree.v ===== *)
(** * PropertyTree: the property-based tests of the tree hold for every input

    The tests of [tests/btree_property.rs] draw sequences of insertions and deletions over twenty
    keys and compare the tree with a [BTreeMap]. Here the drawn values are arguments, [drawn_...]
    says what the strategies can draw, and the tests pass whatever is drawn. *)
From S2P Require Export TreeClients.

(** ** Strategies *)

(** [arb_key]: one byte of [0..20]. *)
Definition arb_key (k : bytes) : Prop := exists b : Z, (0 <= b < 20)%Z /\ k = [byte_of_Z b].

(** [arb_value]: [vec(any::<u8>(), 0..16)]. *)
Definition arb_value (v : bytes) : Prop := length v < 16.

(** [vec((arb_key(), arb_value()), 1..bound)], and with a flag for each. *)
Definition drawn_inserts (bound : nat) (ops : list (bytes * bytes)) : Prop :=
  1 <= length ops < bound /\ Forall (fun kv => arb_key kv.1 /\ arb_value kv.2) ops.

Definition drawn_edits (bound : nat) (ops : list (bytes * bytes * bool)) : Prop :=
  1 <= length ops < bound /\ Forall (fun op => arb_key op.1.1 /\ arb_value op.1.2) ops.

Section property_tree.
Context `{Crc32, DirOrder} (fuel : nat).

(** ** The tests *)

Definition tree_matches_reference_btreemap_for_arbitrary_insert_sequences (ops : list (bytes * bytes)) :
    Test unit unit :=
  with_tree 8 (
    model ← test_fold ops (fun model kv =>
      t_insert fuel kv.1 kv.2;;
      mret (<[kv.1 := kv.2]> model)) ∅;
    test_for (bt_iter model) (fun e => assert_t_get fuel e.1 (Some e.2));;
    scanned ← t_scan_all fuel;
    assert_eq scanned (bt_iter model)).

(** A step of the next test: [(k, v, is_delete)]. *)
Definition edit_step (model : gmap bytes bytes) (op : bytes * bytes * bool) : Test Tree (gmap bytes bytes) :=
  let '(k, v, is_delete) := op in
  if is_delete : bool then
    let expected_found := bool_decide (is_Some (model !! k)) in
    actual_found ← t_delete fuel k;
    assert_eq actual_found expected_found;;
    mret (delete k model)
  else
    t_insert fuel k v;;
    mret (<[k := v]> model).

Definition tree_matches_reference_btreemap_for_interleaved_insert_and_delete
    (ops : list (bytes * bytes * bool)) : Test unit unit :=
  with_tree 8 (
    model ← test_fold ops edit_step ∅;
    test_for (bt_iter model) (fun e => assert_t_get fuel e.1 (Some e.2));;
    test_for ((fun b => [byte_of_Z b]) <$> range 0 20) (fun k =>
      if decide (model !! k = None) then assert_t_get fuel k None else mret tt);;
    scanned ← t_scan_all fuel;
    assert_eq scanned (bt_iter model)).

(** [u8::saturating_add]. *)
Definition saturating_add (a b : Z) : Z := Z.min (a + b) 255.

Definition scan_range_matches_scan_all_for_arbitrary_bounds (ops : list (bytes * bytes)) (start len : Z) :
    Test unit unit :=
  with_tree 8 (
    test_for ops (fun kv => t_insert fuel kv.1 kv.2);;
    let end_ := saturating_add start len in
    let start_key := [byte_of_Z start] in
    let end_key := [byte_of_Z end_] in
    ranged ← t_scan_range fuel start_key end_key;
    all ← t_scan_all fuel;
    let expected := filter (fun e => bytes_leb start_key e.1 && bytes_ltb e.1 end_key) all in
    assert_eq ranged expected).

(** ** They pass *)

Context (K : nat) (HK : Z.of_nat K = 50000%Z) (Hfuel : Z.to_nat (session_bound 2 K) <= fuel).

Lemma arb_entry_bound (k v : bytes) : arb_key k -> arb_value v -> length k + length v <= MAX_ENTRY.
Proof. intros (b & _ & ->) Hv. unfold arb_value, MAX_ENTRY in *. simpl. lia. Qed.

Lemma insert_sequences_pass (ops : list (bytes * bytes)) :
  drawn_inserts 200 ops -> passes (tree_matches_reference_btreemap_for_arbitrary_insert_sequences ops) = true.
Proof.
  intros [Hlen Hops]. rewrite Forall_forall in Hops.
  apply (passes_with_tree K fuel HK Hfuel 8 (length ops + (200 + 1))); [lia..|]. intros p fs Hs. test_step.
  apply (wpc_test_fold (fun n b p fs => size b + n <= 200 /\ session 8 2 K 0 (n + (200 + 1)) b p fs) 1) with (n := 0).
  - intros [k v] b n p1 fs1 Hi [Hb Hs1]. destruct (Hops _ Hi) as [Hk Hv]. test_step.
    eapply wpc_t_insert; [| |exact Hs1| |]; [lia|exact Hfuel|by apply arb_entry_bound|]. intros p2 fs2 Hs2. test_step.
    split; [|exact Hs2]. pose proof (insert_size b k v). simpl. lia.
  - rewrite Nat.mul_1_r, Nat.add_0_r. split; [|exact Hs]. rewrite map_size_empty. lia.
  - intros model p1 fs1 [Hm Hs1]. apply (wpc_matches_model K fuel Hfuel 8 200); [lia|exact Hs1|lia].
Qed.
Lemma insert_and_delete_pass (ops : list (bytes * bytes * bool)) :
  drawn_edits 300 ops -> passes (tree_matches_reference_btreemap_for_interleaved_insert_and_delete ops) = true.
Proof.
  intros [Hlen Hops]. rewrite Forall_forall in Hops.
  apply (passes_with_tree K fuel HK Hfuel 8 (length ops + 321)); [lia..|]. intros p fs Hs. test_step.
  apply (wpc_test_fold (fun n b p fs => size b + n <= 300 /\ session 8 2 K 0 (n + 321) b p fs) 1) with (n := 0).
  - intros [[k v] is_delete] b n p1 fs1 Hi [Hb Hs1]. destruct (Hops _ Hi) as [Hk Hv].
    change (session 8 2 K 0 (S (n + 321)) b p1 fs1) in Hs1. unfold edit_step. destruct is_delete; cbv zeta.
    + delete_step Hs1. test_step. test_step; [done|]. test_step. split; [|exact Hs1].
      pose proof (delete_size b k). lia.
    + test_step. eapply wpc_t_insert; [| |exact Hs1| |]; [lia|exact Hfuel|by apply arb_entry_bound|].
      intros p2 fs2 Hs2. test_step. split; [|exact Hs2]. pose proof (insert_size b k v). lia.
  - rewrite Nat.mul_1_r, Nat.add_0_r. split; [|exact Hs]. rewrite map_size_empty. lia.
  - intros model p1 fs1 [Hm Hs1]. cbn [Nat.add] in Hs1.
    apply session_weaken with (k' := length (bt_iter model) + 21) in Hs1; [|rewrite length_bt_iter; lia].
    test_step. eapply wpc_get_all with (f := fst) (v := fun e => Some e.2); [| |exact Hs1| |];
      [lia|exact Hfuel| |clear Hs1; intros p2 fs2 Hs2].
    { intros [k v]. apply elem_of_bt_iter. }
    test_step. apply (wpc_test_each (fun n => session 8 2 K 0 n model) _ _ 1).
    + intros k n p3 fs3 _ Hs3. case_decide as Hk.
      { by eapply wpc_t_get; [| |exact Hs3|exact Hk|]; [lia|exact Hfuel|]. }
      test_step.
      eapply session_weaken; [|exact Hs3]. lia.
    + by rewrite length_fmap, length_range.
    + intros p3 fs3 Hs3. scan_step Hs3. by apply wpc_assert_eq.
Qed.

Lemma arbitrary_bounds_pass (ops : list (bytes * bytes)) (start len : Z) :
  drawn_inserts 200 ops -> passes (scan_range_matches_scan_all_for_arbitrary_bounds ops start len) = true.
Proof.
  intros [Hlen Hops]. apply (passes_with_tree K fuel HK Hfuel 8 (length ops + 2)); [lia..|]. intros p fs Hs.
  test_step. eapply wpc_insert_all with (f := fst) (g := snd); [| |exact Hs| |];
    [lia|exact Hfuel| |clear Hs; intros p1 fs1 Hs1].
  { eapply Forall_impl; [exact Hops|]. intros kv [Hk Hv]. by apply arb_entry_bound. }
  cbv zeta. range_step Hs1. scan_step Hs1. apply wpc_assert_eq; [|done]. apply list_filter_iff.
  intros [k v]. unfold in_scan. by rewrite andb_True, !Is_true_true.
Qed.
End property_tree.
