(* ===== verification/PropertyPages.v ===== *)
(** * PropertyPages: the property-based tests of pages and of the pool hold for every input

    The tests of [tests/page_and_buffer_property.rs], with the drawn values as arguments. They are
    proved from the specifications of the slotted page and of the pool. *)
From S2P Require Export TestRules KeyLists TestsPages BufferSpec.

(** A result that a test matches on; a panic is one of the test. *)
Definition attempt {S E A : Type} (m : M S E A) : Test S (Res E A) := fun s w =>
  match m s w with
  | (Ok a, s', w') => (Ok (Ok a), s', w')
  | (Err e, s', w') => (Ok (Err e), s', w')
  | (Panic, s', w') => (Panic, s', w')
  | (Crash, s', w') => (Crash, s', w')
  end.

Lemma wpc_attempt {F : FaultModel} {S E A : Type} (m : M S E A) (s : S) (fs : fsys)
    (Q : Res E A -> S -> fsys -> Prop) (X : Empty_set -> S -> fsys -> Prop) (C : fsys -> Prop) :
  wpc F m s fs (fun a => Q (Ok a)) (fun e => Q (Err e)) C -> wpc F (attempt m) s fs Q X C.
Proof.
  intros H faults Hf. specialize (H faults Hf). unfold attempt.
  by destruct (m s _) as [[[a|e| |] s'] w'].
Qed.

Lemma wpc_on_page {F : FaultModel} {A : Type} (f : Page -> Res PageError A * Page) (p : Page) (fs : fsys)
    (Q : A -> Page -> fsys -> Prop) (X : PageError -> Page -> fsys -> Prop) (C : fsys -> Prop) :
  match f p with (Ok a, p') => Q a p' fs | (Err e, p') => X e p' fs | _ => False end ->
  wpc F (on_page f) p fs Q X C.
Proof. intros H faults _. unfold on_page. destruct (f p) as [[a|e| |] p']; done. Qed.

(** ** The tests of the page *)

(** [match page.insert(record) { Ok(slot) => inserted.push((slot, record)), Err(_) => break }]. *)
Fixpoint insert_until_full (records : list bytes) (inserted : list (SlotId * bytes)) :
    Test Page (list (SlotId * bytes)) :=
  match records with
  | [] => mret inserted
  | record :: rest =>
      result ← attempt (on_page (page_insert record));
      match result with
      | Ok slot => insert_until_full rest (inserted ++ [(slot, record)])
      | _ => mret inserted
      end
  end.

Definition page_insert_then_get_matches_for_arbitrary_records (records : list bytes) : Test unit unit :=
  with_page Data (
    inserted ← insert_until_full records [];
    page ← get_state;
    test_for inserted (fun sr => assert_record page sr.1 sr.2)).

Section page_tests.
Context `{Crc32}.

Definition page_survives_encode_decode_with_deletions (records : list bytes) (delete_mask : list bool) :
    Test unit unit :=
  with_page Data (
    inserted ← insert_until_full records [];
    test_for (imap pair inserted.*1) (fun ix =>
      if default false (delete_mask !! ix.1) then must (on_page (page_delete ix.2)) else mret tt);;
    page ← get_state;
    decoded ← must_ok (page_decode (page_encode page));
    live_before ← must_some (slot_ids page);
    live_after ← must_some (slot_ids decoded);
    assert_eq live_before live_after).

(** ** They pass *)

(** The slots that the loop of insertions returns. *)
Definition slots_of (recs : list bytes) : list (SlotId * bytes) := imap (fun i r => (Z.of_nat i, r)) recs.

Lemma slots_of_snoc (recs : list bytes) (r : bytes) :
  slots_of (recs ++ [r]) = slots_of recs ++ [(Z.of_nat (length recs), r)].
Proof. unfold slots_of. rewrite imap_app. simpl. by rewrite Nat.add_0_r. Qed.

Lemma wpc_insert_until_full (records recs : list bytes) (p : Page) (fs : fsys)
    (Q : list (SlotId * bytes) -> Page -> fsys -> Prop) (X : Empty_set -> Page -> fsys -> Prop) (C : fsys -> Prop) :
  page_rep p (Some <$> recs) -> (forall recs' p', page_rep p' (Some <$> recs') -> Q (slots_of recs') p' fs) ->
  wpc no_faults (insert_until_full records (slots_of recs)) p fs Q X C.
Proof.
  intros Hp HQ. revert recs p Hp. induction records as [|r records IH]; intros recs p Hp; cbn [insert_until_full].
  { wpc_step. by apply HQ. }
  wpc_step. apply wpc_attempt, wpc_on_page. rewrite (page_insert_eq p _ r Hp), length_fmap. case_decide as Hd.
  - rewrite <-slots_of_snoc. apply IH. rewrite fmap_app. by apply page_insert_rep.
  - wpc_step. by apply HQ.
Qed.

Lemma insert_then_get_pass (records : list bytes) :
  passes (page_insert_then_get_matches_for_arbitrary_records records) = true.
Proof.
  apply passes_wpc. unfold page_insert_then_get_matches_for_arbitrary_records, with_page. test_step. test_step.
  test_step. apply (wpc_insert_until_full records []); [apply page_new_rep|]. intros recs p Hp. test_step. test_step.
  apply (wpc_test_each (fun _ _ _ => True) _ _ 0); [|done|done].
  intros [slot r] n p1 fs (i & r' & [= -> ->] & Hi)%elem_of_lookup_imap _. unfold assert_record. test_step.
  cbn [fst snd]. rewrite (page_get_rep p _ i Hp), list_lookup_fmap, Hi. cbn [mjoin option_join must_ok]. simpl. test_step. by apply wpc_assert_eq.
Qed.

(** The slots from [i] on are in use. *)
Definition used_from (len i : nat) (p : Page) : Prop :=
  exists rs, page_rep p rs /\ length rs = len /\ forall j, i <= j < len -> exists r, rs !! j = Some (Some r).

Lemma wpc_delete_masked (mask : list bool) (recs : list bytes) (p : Page) (fs : fsys)
    (Q : unit -> Page -> fsys -> Prop) (X : Empty_set -> Page -> fsys -> Prop) (C : fsys -> Prop) :
  page_rep p (Some <$> recs) -> (forall p' rs, page_rep p' rs -> Q tt p' fs) ->
  wpc no_faults (test_for (imap pair (slots_of recs).*1) (fun ix =>
    if default false (mask !! ix.1) then must (on_page (page_delete ix.2)) else mret tt)) p fs Q X C.
Proof.
  intros Hp HQ.
  apply (wpc_test_for (fun _ i p fs' => used_from (length recs) i p /\ fs' = fs) 0 _ (fun i _ => S i) _ 0 0).
  - intros l1 x l2 _ p1 fs1 Hl [(rs & Hrs & Hlen & Hu) ->].
    assert (foldl (fun i _ => S i) 0 l1 = length l1) as Hfold.
    { clear. induction l1 as [|y l IH] using rev_ind; [done|]. rewrite foldl_app, length_app, IH. simpl. lia. }
    assert (imap pair (slots_of recs).*1 !! length l1 = Some x) as Hx by by rewrite Hl, list_lookup_middle.
    rewrite list_lookup_imap, list_lookup_fmap in Hx. unfold slots_of in Hx. rewrite list_lookup_imap in Hx.
    destruct (recs !! length l1) as [r|] eqn:Hr; [|done]. simpl in Hx. injection Hx as <-.
    apply lookup_lt_Some in Hr. rewrite Hfold in *. cbn [fst snd].
    destruct (Hu (length l1)) as [r' Hr']; [lia|].
    destruct (default false _).
    + apply wpc_must, wpc_on_page. pose proof (page_delete_rep p1 rs (length l1) Hrs) as Hd. rewrite Hr' in Hd.
      destruct Hd as (p2 & -> & Hp2). split; [|done]. exists (<[length l1 := None]> rs). split; [done|].
      rewrite length_insert. split; [done|]. intros j Hj. rewrite list_lookup_insert_ne by lia. apply Hu. lia.
    + wpc_step. split; [|done]. exists rs. split; [done|]. split; [done|]. intros j Hj. apply Hu. lia.
  - split; [|done]. exists (Some <$> recs). split; [done|]. rewrite length_fmap. split; [done|].
    intros j Hj. rewrite list_lookup_fmap. destruct (lookup_lt_is_Some_2 recs j) as [r ->]; [lia|]. by exists r.
  - intros p' fs' [(rs & Hrs & _) ->]. by eapply HQ.
Qed.

Lemma encode_decode_pass (records : list bytes) (delete_mask : list bool) :
  passes (page_survives_encode_decode_with_deletions records delete_mask) = true.
Proof.
  apply passes_wpc. unfold page_survives_encode_decode_with_deletions, with_page. test_step. test_step.
  test_step. apply (wpc_insert_until_full records []); [apply page_new_rep|]. intros recs p Hp. test_step.
  apply (wpc_delete_masked delete_mask recs); [done|]. intros p1 rs Hp1. test_step. test_step. test_step.
  rewrite (page_decode_encode p1 rs Hp1). cbn [must_ok]. test_step. test_step. rewrite (slot_ids_rep p1 rs Hp1). test_step.
  test_step. rewrite (slot_ids_rep _ rs (page_rep_encode p1 rs Hp1)). test_step. by apply wpc_assert_eq.
Qed.
End page_tests.

(** ** The tests of the pool *)

(** [for _ in 0..n { match pool.new_page(Data) { Ok(id) => { let _ = pool.unpin(id, false); } Err(_) => break } }]. *)
Fixpoint new_pages_until_full (count : nat) : Test Pool unit :=
  match count with
  | O => mret tt
  | S count' =>
      result ← attempt (new_page Data);
      match result with
      | Ok id => attempt (unpin (E := Empty_set) id false);; new_pages_until_full count'
      | _ => mret tt
      end
  end.

Definition pinned_pages_are_never_evicted (num_extra_pages : nat) : Test unit unit :=
  with_pool 3 (
    pinned ← pool_new_page;
    new_pages_until_full num_extra_pages;;
    found ← must (pool_page (E := Empty_set) pinned);
    assert (match found with Some _ => true | None => false end);;
    pins ← look (fun pool => pin_count pool pinned);
    assert_eq pins 1%Z).

(** [if let Ok(other) = pool.new_page(Data) { let _ = pool.unpin(other, false); }]. *)
Definition churn_step : Test Pool unit :=
  result ← attempt (new_page Data);
  match result with
  | Ok other => attempt (unpin (E := Empty_set) other false);; mret tt
  | _ => mret tt
  end.

Definition dirty_pages_survive_eviction_churn (count : nat) : Test unit unit :=
  with_pool 2 (
    id ← pool_new_page;
    insert_into id (ascii "must-survive");;
    unpin_ id true;;
    test_for (range 0 (Z.of_nat count)) (fun _ => churn_step);;
    must (fetch id);;
    assert_pool_record id (ascii "must-survive");;
    unpin_ id false).

(** ** They pass *)

Section pool_tests.
Context `{Crc32}.

Implicit Types (p : Pool) (m : gmap PageId Page).

(** A pool that a client uses: [budget] pages can still be allocated. *)
Definition in_use (budget : nat) p (fs : fsys) m (next : PageId) : Prop :=
  pool_inv (2 * budget + 4) ∅ None p fs m next.

Lemma frame_of_ok (n : nat) (U : gset PageId) p (fs : fsys) m (next id : PageId) (f : Frame) :
  pool_inv n U None p fs m next -> frame_of p id = Some f -> frame_ok U m next f /\ fr_page_id f = id.
Proof.
  intros Hi Hf. apply (frame_of_Some _ _ _ _ _ _ _ id f Hi) in Hf as (i & _ & Hn & Hf & Hid).
  split; [by apply (pi_frame _ _ _ _ _ _ _ Hi i f)|done].
Qed.

Lemma pins_new (n : nat) (U : gset PageId) p (fs : fsys) m (next : PageId) :
  pool_inv n U None p fs m next -> pins p next = 0%Z.
Proof.
  intros Hi. unfold pins. destruct (frame_of p next) as [f|] eqn:E; [|done].
  destruct (frame_of_ok _ _ _ _ _ _ _ _ Hi E) as [Hok Hid]. pose proof (fo_id _ _ _ _ Hok). lia.
Qed.

Lemma wpc_pool_page (n : nat) (U : gset PageId) p (fs : fsys) m (next id : PageId) (f : Frame)
    (Q : option Page -> Pool -> fsys -> Prop) (X : BufferError Empty_set -> Pool -> fsys -> Prop) (C : fsys -> Prop) :
  pool_inv n U None p fs m next -> frame_of p id = Some f -> Q (Some (fr_page f)) p fs ->
  wpc no_faults (pool_page (E := Empty_set) id) p fs Q X C.
Proof.
  intros Hi Hf HQ. apply (frame_of_Some _ _ _ _ _ _ _ id f Hi) in Hf as (i & Ht & _ & Hf & _).
  unfold pool_page. wpc_step. wpc_step. rewrite Ht. wpc_step. apply (wpc_get_frame _ f); [done|]. by wpc_step.
Qed.

(** A page that is allocated and left alone changes nothing for the others, whether or not there is
    a frame for it. *)
Lemma wpc_new_page_left (budget : nat) p (fs : fsys) m (next : PageId) (k stop : Test Pool unit)
    (Q : unit -> Pool -> fsys -> Prop) (X : Empty_set -> Pool -> fsys -> Prop) (C : fsys -> Prop) :
  in_use (S budget) p fs m next ->
  (forall p' fs' m', in_use budget p' fs' m' (next + 1) -> others_same next p m p' m' -> pins p' next = 0%Z ->
     wpc no_faults k p' fs' Q X C /\ wpc no_faults stop p' fs' Q X C) ->
  wpc no_faults (result ← attempt (new_page Data);
    match result with Ok id => attempt (unpin (E := Empty_set) id false);; k | _ => stop end) p fs Q X C.
Proof.
  intros Hi HQ. pose proof (pins_new _ _ _ _ _ _ Hi) as Hp0. wpc_step. apply wpc_attempt.
  eapply wpc_mono; [apply (wpc_new_page (2 * budget + 4) ∅ p fs m next Data); [|set_solver]| | |done].
  { eapply pool_inv_weaken; [|exact Hi]. lia. }
  - intros id p1 fs1 [-> (m1 & f & Hi1 & Hf & _ & Hpin & Hc & Ho)]. wpc_step. apply wpc_attempt.
    eapply wpc_mono; [apply (wpc_unpin _ ∅ p1 fs1 m1 (next + 1) next f false Hi1 Hf); [lia|set_solver]| |done|done].
    intros [] p2 fs2 (-> & Hi2 & Hpin2 & _ & Hc2 & Ho2). replace (∅ ∖ {[next]}) with (∅ : gset PageId) in Hi2 by set_solver.
    apply (HQ p2 fs1 m1); [done| |lia]. split; [congruence|]. intros id' Hne.
    destruct (Ho id' Hne) as (A1 & A2 & A3), (Ho2 id' Hne) as (B1 & B2 & B3).
    split; [by rewrite B1|]. split; [|congruence]. intros Hpos. rewrite B2 by lia. by apply A2.
  - intros e p1 fs1 (_ & _ & _ & Hi1 & Hs). apply (HQ p1 fs1 m).
    + eapply pool_inv_weaken; [|exact Hi1]. lia.
    + by apply same_view_others.
    + destruct Hs as (_ & _ & _ & _ & _ & Hs). by rewrite Hs.
Qed.

Lemma wpc_with_pool {T A : Type} (budget cap : nat) (body : Test Pool A) (s : T) (fs : fsys)
    (Q : A -> T -> fsys -> Prop) (X : Empty_set -> T -> fsys -> Prop) (C : fsys -> Prop) :
  0 < cap -> (Z.of_nat budget < 2 ^ 32)%Z ->
  (forall p, in_use budget p fs ∅ 1 -> capacity p = cap -> (forall id, pins p id = 0%Z) ->
     wpc no_faults body p fs (fun a _ fs' => Q a s fs') (fun _ _ _ => False) C) ->
  wpc no_faults (with_pool cap body) s fs Q X C.
Proof.
  intros Hcap Hb Hbody. unfold with_pool, pool_new. rewrite decide_True by done. test_step. test_step.
  apply Hbody; [|done|done]. split; simpl; try done; try lia.
  - apply mem_new_view. lia.
  - intros id i. rewrite lookup_empty. split; [done|]. by intros (_ & f & Hf & _).
Qed.

(** A full pool without pins is never exhausted. *)
Lemma idle_not_exhausted (n : nat) p (fs : fsys) m (next : PageId) :
  pool_inv n ∅ None p fs m next -> (forall id, pins p id = 0%Z) -> length (frames p) = capacity p -> ~ all_pinned p.
Proof.
  intros Hi Hp Hl Hall. pose proof (pi_cap _ _ _ _ _ _ _ Hi) as Hc.
  destruct (lookup_lt_is_Some_2 (frames p) 0) as [f Hf]; [lia|]. specialize (Hall 0 f Hf).
  destruct (frame_of_index _ _ _ _ _ _ _ 0 f Hi ltac:(done) Hf) as [Hfo _].
  specialize (Hp (fr_page_id f)). unfold pins in Hp. rewrite Hfo in Hp. lia.
Qed.

(** The first page of a test. *)
Lemma wpc_first_page (budget : nat) p (fs : fsys) (Q : PageId -> Pool -> fsys -> Prop)
    (X : Empty_set -> Pool -> fsys -> Prop) (C : fsys -> Prop) :
  in_use (S budget) p fs ∅ 1 -> (forall id, pins p id = 0%Z) ->
  (forall p' fs' m f, in_use budget p' fs' m 2 -> capacity p' = capacity p -> frame_of p' 1 = Some f ->
     fr_page f ≡ page_new Data -> fr_pin_count f = 1%Z -> (forall id, id <> 1%Z -> pins p' id = 0%Z) -> Q 1%Z p' fs') ->
  wpc no_faults pool_new_page p fs Q X C.
Proof.
  intros Hi Hp HQ. unfold pool_new_page. apply wpc_must.
  eapply wpc_mono; [apply (wpc_new_page (2 * budget + 4) ∅ p fs ∅ 1 Data); [|set_solver]| | |done].
  { eapply pool_inv_weaken; [|exact Hi]. lia. }
  - intros id p1 fs1 [-> (m1 & f & Hi1 & Hf & Hpg & Hpin & Hc & Ho)].
    apply (HQ p1 fs1 m1 f); try done; [by rewrite Hpin, Hp|]. intros id Hne. by destruct (Ho id Hne) as (_ & _ & ->).
  - intros e p1 fs1 (_ & Hl & Hall & _). by eapply idle_not_exhausted.
Qed.

Lemma wpc_new_pages_until_full (budget count : nat) p (fs : fsys) m (next pinned : PageId)
    (Q : unit -> Pool -> fsys -> Prop) (X : Empty_set -> Pool -> fsys -> Prop) (C : fsys -> Prop) :
  in_use (count + budget) p fs m next -> (pinned < next)%Z -> pins p pinned = 1%Z ->
  (forall p' fs' m' next', in_use budget p' fs' m' next' -> pins p' pinned = 1%Z -> Q tt p' fs') ->
  wpc no_faults (new_pages_until_full count) p fs Q X C.
Proof.
  intros Hi Hlt Hp HQ. revert p fs m next Hi Hlt Hp. induction count as [|count IH]; intros p fs m next Hi Hlt Hp.
  { cbn [new_pages_until_full]. wpc_step. by eapply HQ. }
  apply (wpc_new_page_left (count + budget) p fs m next); [done|]. intros p1 fs1 m1 Hi1 [_ Ho] _.
  assert (pins p1 pinned = 1%Z) as Hp1 by (rewrite <-Hp; apply Ho; lia). split.
  - by apply (IH p1 fs1 m1 (next + 1)%Z); [|lia|].
  - wpc_step. eapply (HQ p1 fs1 m1); [|done]. eapply pool_inv_weaken; [|exact Hi1]. lia.
Qed.

Lemma pinned_never_evicted_pass (num_extra_pages : nat) :
  num_extra_pages < 40 -> passes (pinned_pages_are_never_evicted num_extra_pages) = true.
Proof.
  intros Hn. apply passes_wpc. unfold pinned_pages_are_never_evicted.
  apply (wpc_with_pool (S (num_extra_pages + 0))); [lia|lia|]. intros p Hi _ Hp0. test_step.
  apply (wpc_first_page (num_extra_pages + 0)); [done|done|]. intros p1 fs1 m1 f1 Hi1 _ Hf1 _ Hpin _. test_step.
  apply (wpc_new_pages_until_full 0 num_extra_pages p1 fs1 m1 2 1); [done|lia|by unfold pins; rewrite Hf1|].
  intros p2 fs2 m2 next2 Hi2 Hp2. pose proof Hp2 as Hf2. unfold pins in Hf2.
  destruct (frame_of p2 1) as [f2|] eqn:Ef; [|done]. test_step. apply wpc_must. eapply wpc_pool_page; [exact Hi2|exact Ef|].
  test_step. test_step; [done|]. test_step. test_step. by apply wpc_assert_eq.
Qed.
(** What the churn keeps: no pins, and the page [page] under [id]. *)
Definition keeps_page (page : Page) (id : PageId) (budget : nat) p (fs : fsys) : Prop :=
  exists m next, in_use budget p fs m next /\ (0 <= id < next)%Z /\ content p m id ≡ page /\ forall id', pins p id' = 0%Z.

Lemma wpc_churn_step (page : Page) (id : PageId) (budget : nat) p (fs : fsys)
    (X : Empty_set -> Pool -> fsys -> Prop) (C : fsys -> Prop) :
  keeps_page page id (S budget) p fs ->
  wpc no_faults churn_step p fs (fun _ p' fs' => keeps_page page id budget p' fs') X C.
Proof.
  intros (m & next & Hi & Hid & Hpg & Hp). apply (wpc_new_page_left budget p fs m next); [done|].
  intros p1 fs1 m1 Hi1 [_ Ho] Hnext.
  assert (keeps_page page id budget p1 fs1) as Hk; [|split; by wpc_step].
  exists m1, (next + 1)%Z. split; [done|]. split; [lia|]. split; [rewrite <-Hpg; apply Ho; lia|].
  intros id'. destruct (decide (id' = next)) as [->|Hne]; [done|]. by destruct (Ho id' Hne) as (_ & _ & ->).
Qed.

(** The first record of a page that was new. *)
Lemma insert_first_record (page : Page) (record : bytes) :
  page ≡ page_new Data -> wf_page page -> length record <= 64 ->
  exists page', page_insert record page = (Ok 0%Z, page') /\ page_rep page' [Some record].
Proof.
  intros Heq Hwf Hlen. assert (page_rep page []) as Hp by (eapply page_rep_equiv; [by symmetry|apply page_new_rep]).
  assert (free_end page = free_end (page_new Data)) as He.
  { unfold free_end, read_u16. f_equal. destruct Heq as [_ Heq]. rewrite <-!slice_encode_other, Heq; try lia; [done|done|apply Hwf]. }
  rewrite (page_insert_eq page [] record Hp), decide_True.
  - eexists. split; [done|]. apply (page_insert_rep page []); [done|]. rewrite He, (pr_start _ _ Hp). vm_compute free_end. simpl. lia.
  - rewrite He, (pr_start _ _ Hp). vm_compute free_end. simpl. lia.
Qed.

Lemma wpc_insert_into (n : nat) (U : gset PageId) p (fs : fsys) m (next id : PageId) (f : Frame) (record : bytes)
    (Q : unit -> Pool -> fsys -> Prop) (X : Empty_set -> Pool -> fsys -> Prop) (C : fsys -> Prop) :
  pool_inv n U None p fs m next -> frame_of p id = Some f -> (0 < fr_pin_count f)%Z ->
  fr_page f ≡ page_new Data -> length record <= 64 ->
  (forall page p', page_rep page [Some record] -> pool_inv n ({[id]} ∪ U) None p' fs m next ->
     frame_of p' id = Some (set_fr_page page f) -> others_same id p m p' m -> Q tt p' fs) ->
  wpc no_faults (insert_into id record) p fs Q X C.
Proof.
  intros Hi Hf Hpin Hpg Hlen HQ. unfold insert_into. test_step. apply wpc_must. eapply wpc_pool_page; [exact Hi|exact Hf|].
  test_step. test_step. destruct (frame_of_ok _ _ _ _ _ _ _ _ Hi Hf) as [Hok _].
  destruct (insert_first_record (fr_page f) record Hpg (fo_wf _ _ _ _ Hok) Hlen) as (page & Hins & Hrep).
  test_step. test_step. apply wpc_must, wpc_on_page. rewrite Hins. apply wpc_must.
  eapply wpc_mono; [apply (wpc_set_page n U p fs m next id f page Hi Hf Hpin), (wf_page_rep _ _ Hrep)| |done|done].
  intros [] p' fs' (-> & Hi' & Hf' & Ho). by apply (HQ page).
Qed.

Lemma dirty_pages_survive_pass (count : nat) : count < 50 -> passes (dirty_pages_survive_eviction_churn count) = true.
Proof.
  intros Hn. assert (length (range 0 (Z.of_nat count)) = count) as Hlen by (rewrite length_range; lia).
  apply passes_wpc. unfold dirty_pages_survive_eviction_churn.
  apply (wpc_with_pool (S (count + 1))); [lia|lia|]. intros p Hi _ Hp0. test_step.
  apply (wpc_first_page (count + 1)); [done|done|]. intros p1 fs1 m1 f1 Hi1 _ Hf1 Hpg1 Hpin1 Hp1. test_step.
  eapply wpc_insert_into; [exact Hi1|exact Hf1|lia|done|vm_compute; lia|]. intros page p2 Hrep Hi2 Hf2 [_ Ho2]. test_step.
  unfold unpin_. apply wpc_must. eapply wpc_mono; [apply (wpc_unpin _ _ p2 fs1 m1 2 1 _ true Hi2 Hf2); [simpl; lia|done]| |done|done].
  intros [] p3 fs3 (-> & Hi3 & Hp3 & Hc3 & _ & Ho3). simpl in Hp3. rewrite Hpin1 in Hp3.
  replace (({[1%Z]} ∪ ∅) ∖ {[1%Z]}) with (∅ : gset PageId) in Hi3 by set_solver. test_step.
  apply (wpc_test_each (keeps_page page 1) _ _ 1).
  - intros _ n p' fs' _. apply wpc_churn_step.
  - rewrite Hlen. exists m1, 2%Z. split; [done|]. split; [lia|]. split.
    + rewrite Hc3. unfold content. by rewrite Hf2.
    + intros id. destruct (decide (id = 1%Z)) as [->|Hne]; [lia|].
      destruct (Ho3 id Hne) as (_ & _ & ->), (Ho2 id Hne) as (_ & _ & ->). by apply Hp1.
  - intros p4 fs4 (m4 & next & Hi4 & Hid & Hpg4 & Hp4). test_step. apply wpc_must.
    eapply wpc_mono; [apply (wpc_fetch 5 ∅ p4 fs4 m4 next 1); [eapply pool_inv_weaken; [|exact Hi4]; lia|done|rewrite Hp4; lia|set_solver]| | |done].
    2: { intros e p5 fs5 (_ & Hl & Hall & _). by eapply idle_not_exhausted. }
    intros [] p5 fs5 (m5 & f5 & Hi5 & Hf5 & Hpg5 & Hpin5 & _). rewrite Hp4 in Hpin5.
    destruct (frame_of_ok _ _ _ _ _ _ _ _ Hi5 Hf5) as [Hok5 _].
    assert (page_rep (fr_page f5) [Some (ascii "must-survive")]) as Hrep5.
    { eapply page_rep_equiv; [|exact Hrep]. by rewrite Hpg5, Hpg4. }
    test_step. unfold assert_pool_record. test_step. apply wpc_must. eapply wpc_pool_page; [exact Hi5|exact Hf5|].
    test_step. test_step. unfold assert_record. test_step. change 0%Z with (Z.of_nat 0).
    rewrite (page_get_rep _ _ 0 Hrep5). cbn [lookup list_lookup must_ok]. test_step. apply wpc_assert_eq; [done|].
    unfold unpin_. apply wpc_must. eapply wpc_mono; [apply (wpc_unpin 5 ∅ p5 fs5 m5 next 1 f5 false Hi5 Hf5); [lia|set_solver]|done|done|done].
Qed.
End pool_tests.
