(* ===== verification/Conformance.v ===== *)
(** * Conformance: the tests of the repository pass on the model

    The unit tests of the storage crate, every one of them, the crash tests of the log and of pages,
    and the property-based tests. The unit
    tests of [btree.rs], which insert up to 20000 keys, are verified over the specification of the
    tree for every checksum and every order of directory listings, and so are the property-based
    tests for whatever their strategies draw; the others are evaluated. *)
From S2P Require Export TestsLog TestsStore TestsTxn TestsPages TestsIndexed TestsCrash PropertyTree PropertyPages PropertyTxn PropertyIndexed.

(** The fuel of the recursions of the tree in its tests: more than the pages that 50000 calls can
    allocate. *)
Definition tree_test_fuel : nat := Z.to_nat 3000000000.

(** ** The property-based tests *)

(** A test with the values it draws. *)
Inductive Case :=
  | RecordRoundtrips (key value : bytes) (seq : Z)
  | TruncatedRecord (key value : bytes) (cut : nat)
  | StoreMatchesModel (ops : list Drawn)
  | CompactionKeepsState (ops : list Drawn)
  | CompactionKeepsSnapshot (before after : list Drawn)
  | IndexedMatchesPlain (ops : list Drawn)
  | SequentialTransactions (ops : list Drawn)
  | SnapshotIsolation (before after : list (Z * Z))
  | PageInsertThenGet (records : list bytes)
  | PageEncodeDecode (records : list bytes) (delete_mask : list bool)
  | PinnedPages (num_extra_pages : nat)
  | DirtyPages (churn : nat)
  | TreeInserts (ops : list (bytes * bytes))
  | TreeInsertsAndDeletes (ops : list (bytes * bytes * bool))
  | TreeScanRange (ops : list (bytes * bytes)) (start len : Z).

(** [vec(any::<u8>(), 0..64)]. *)
Definition arb_bytes (bs : bytes) : Prop := length bs < 64.

(** What the strategies can draw. *)
Definition drawn `{Crc32} (c : Case) : Prop :=
  match c with
  | RecordRoundtrips key value seq => arb_bytes key /\ arb_bytes value /\ in_u64 seq
  | TruncatedRecord key value cut => arb_bytes key /\ arb_bytes value /\ 
      cut <= length (encode (record_put 1 key value)) - 1
  | StoreMatchesModel ops => drawn_edits_of 5 1 40 ops
  | CompactionKeepsState ops => drawn_edits_of 10 1 80 ops
  | CompactionKeepsSnapshot before after => drawn_edits_of 6 1 30 before /\ drawn_edits_of 6 0 30 after
  | IndexedMatchesPlain ops => drawn_edits_of 8 1 60 ops
  | SequentialTransactions ops => drawn_edits_of 5 1 40 ops
  | SnapshotIsolation before after => drawn_puts_of 5 1 15 before /\ drawn_puts_of 5 1 15 after
  | PageInsertThenGet records => length records < 30 /\ Forall arb_bytes records
  | PageEncodeDecode records delete_mask =>
      1 <= length records < 20 /\ Forall arb_bytes records /\ 1 <= length delete_mask < 20
  | PinnedPages num_extra_pages => 1 <= num_extra_pages < 40
  | DirtyPages churn => 1 <= churn < 50
  | TreeInserts ops => drawn_inserts 200 ops
  | TreeInsertsAndDeletes ops => drawn_edits 300 ops
  | TreeScanRange ops start len => drawn_inserts 200 ops /\ (0 <= start < 20)%Z /\ (0 <= len < 20)%Z
  end.

Definition run_case `{Crc32, DirOrder} (fuel : nat) (c : Case) : Test unit unit :=
  match c with
  | RecordRoundtrips key value seq => record_roundtrips_for_arbitrary_bytes key value seq
  | TruncatedRecord key value cut => truncated_record_never_decodes_as_ok key value cut
  | StoreMatchesModel ops => store_matches_a_naive_in_memory_model ops
  | CompactionKeepsState ops => compaction_never_changes_observable_state ops
  | CompactionKeepsSnapshot before after =>
      compacting_with_a_held_snapshot_never_changes_that_snapshots_reads before after
  | IndexedMatchesPlain ops => indexed_store_matches_plain_store_for_the_same_operations fuel ops
  | SequentialTransactions ops => sequential_transaction_commits_match_a_naive_model ops
  | SnapshotIsolation before after => a_snapshot_never_sees_transactions_committed_after_it_began before after
  | PageInsertThenGet records => page_insert_then_get_matches_for_arbitrary_records records
  | PageEncodeDecode records delete_mask => page_survives_encode_decode_with_deletions records delete_mask
  | PinnedPages num_extra_pages => pinned_pages_are_never_evicted num_extra_pages
  | DirtyPages churn => dirty_pages_survive_eviction_churn churn
  | TreeInserts ops => tree_matches_reference_btreemap_for_arbitrary_insert_sequences fuel ops
  | TreeInsertsAndDeletes ops => tree_matches_reference_btreemap_for_interleaved_insert_and_delete fuel ops
  | TreeScanRange ops start len => scan_range_matches_scan_all_for_arbitrary_bounds fuel ops start len
  end.

Lemma drawn_case_passes `{Crc32, DirOrder} (fuel : nat) (c : Case) :
  (3000000000 <= Z.of_nat fuel)%Z -> drawn c -> passes (run_case fuel c) = true.
Proof.
  intros Hfuel Hc. assert (exists K, Z.of_nat K = 50000%Z) as [K HK] by (exists (Z.to_nat 50000); lia).
  assert (exists pages, Z.of_nat pages = 20000%Z) as [pages Hpages] by (exists (Z.to_nat 20000); lia).
  assert (Z.to_nat (session_bound 2 K) <= fuel) as Hf by (unfold session_bound; nia).
  destruct c; cbn [drawn run_case] in *; destruct_and?.
  - by apply record_roundtrips_pass.
  - by apply truncated_record_pass.
  - by apply naive_model_pass, Hc.
  - by apply compaction_pass, Hc.
  - by apply held_snapshot_pass; apply H1 || apply H2.
  - by apply (indexed_matches_plain_pass fuel pages), Hc; lia.
  - by apply sequential_commits_pass, Hc.
  - by apply snapshot_never_sees_pass; apply H1 || apply H2.
  - apply insert_then_get_pass.
  - apply encode_decode_pass.
  - by apply pinned_never_evicted_pass.
  - by apply dirty_pages_survive_pass.
  - by apply (insert_sequences_pass fuel K).
  - by apply (insert_and_delete_pass fuel K).
  - by apply (arbitrary_bounds_pass fuel K).
Qed.

(** C35: The 93 unit tests of the storage crate and six of its crash tests pass on the model, and so does
    each of its fifteen property-based tests for every input that its strategies can draw: no assertion of them fails and
    nothing they unwrap is an error. The tests damage files, cut them short at every byte, stop
    compactions between their steps and reopen stores; the tests of the tree and the property-based tests pass
    whatever the checksum and the order of directory listings are. *)
Theorem repository_tests_pass :
  Forall (fun tests => forallb passes tests = true)
    [record_tests; segment_tests; log_tests; store_tests; txn_tests; page_tests; page_store_tests; heap_tests;
     buffer_tests; indexed_tests 16; crash_tests] /\
  forall (checksum : Crc32) (order : DirOrder),
    forallb passes (tree_tests tree_test_fuel) = true /\
    forall c, drawn c -> passes (run_case tree_test_fuel c) = true.
Proof.
  assert (3000000000 <= Z.of_nat tree_test_fuel)%Z as Hfuel by (unfold tree_test_fuel; rewrite Z2Nat.id; lia).
  split; [|split].
  - repeat apply Forall_cons_2; [exact record_tests_pass|exact segment_tests_pass|exact log_tests_pass|exact store_tests_pass|
      exact txn_tests_pass|exact page_tests_pass|exact page_store_tests_pass|exact heap_tests_pass|
      exact buffer_tests_pass|exact indexed_tests_pass|exact crash_tests_pass|constructor].
  - by apply tree_tests_pass.
  - intros c. by apply drawn_case_passes.
Qed.

Lemma repository_tests_pass_witness :
  let c := CompactionKeepsSnapshot [(0, 1, false); (5, 2, true)]%Z [(0, 3, false)]%Z in
  @drawn sum_crc32 c /\ passes (@run_case sum_crc32 map_order tree_test_fuel c) = true.
Proof.
  assert (@drawn sum_crc32 (CompactionKeepsSnapshot [(0, 1, false); (5, 2, true)]%Z [(0, 3, false)]%Z)) as Hc.
  { split; (split; [simpl; lia|]); repeat constructor; simpl; lia. }
  split; [exact Hc|]. apply (proj2 repository_tests_pass sum_crc32 map_order). exact Hc.
Defined.
